(* ===== verification/_CoqProject ===== *)
-Q . S2P
Prelude.v
GoString.v
GoError.v
GoPath.v
GoValue.v
Base64.v
Sha256.v
WorkspaceTypes.v
Paging.v
WorkspaceRepo.v
PluginTypes.v
PluginRepo.v
PluginStorage.v
Manifest.v
Proc.v
Logs.v
WorkspaceWorld.v
Install.v
WorkspaceRun.v
InstallSpec.v
Controller.v
Scheduler.v
SchedulerSpec.v
SchedulerLoop.v
ManagerTypes.v
Manager.v
UploadSpec.v
CreationSpec.v
ShutdownSpec.v
Registration.v
RegistrationSpec.v
Directive.v
Registry.v
RegistrySpec.v
GoFilepath.v
GoNet.v
LocalDir.v
LocalDirSpec.v
LocalDirOps.v
LocalDirLife.v
LocalDirFiles.v
LocalDirRead.v
CondWait.v
IdGen.v
StorageFacade.v
ZipReader.v
ZipSpec.v
ClaudeLayout.v
ClaudeLayoutSpec.v
ClaudePlanSpec.v
PluginPlacement.v
GoJSON.v
GoMarshal.v
GoMarshalSpec.v
ClaudeSpec.v
ClaudeSpecProps.v
AgentIO.v
AgentIOSpec.v
AgentShape.v
AgentEncode.v
AgentEncodeSpec.v
RestDecode.v
RestSpec.v
RestStream.v
SocketSession.v
SocketSpec.v
CliBridge.v
CliSpec.v
CliProgress.v
