(* ===== verification/Prelude.v ===== *)
(** * ANA: a verification library for the agent orchestration system

    ANA's manager installs coding agents into workspaces. Clients upload plugins
    (ZIP archives with a manifest) and create workspaces that attach them; a
    controller installs each workspace in the background, a scheduler probes the
    installed ones, and both record what they find in a repository of workspace
    rows. This library models that program, translated function by function from
    the Go sources, and proves what its parts promise.

    ** How the program is put together, and where it is modelled

    - Rows and stores. [WorkspaceTypes] and [PluginTypes] are the rows of
      pkg/manager/workspace/types.go and pkg/manager/plugin/types.go with their
      clone functions. [WorkspaceRepo], [PluginRepo] and [PluginStorage] are the
      three stores of pkg/storage/memory: a state record per store, a function of
      the state per method. A method runs under its store's mutex, hence is
      atomic; [Put] of the blob store gives the mutex up while it reads its body
      and is modelled by its two critical sections. [Paging] is the interface of
      the two listings, a class of operations ([Paged]) and one of laws
      ([PagedLaws]); the loop that drains a listing is proved against it, and each
      repository discharges it.
      [StorageFacade] is pkg/storage, which puts the three together; what it asks of a
      store is the class [Closer], with the in-memory stores as instances.
    - Plugins. [Manifest] is the validation of pkg/manager/plugin/manifest.go,
      [ZipReader] the opening of an archive (reader_zip.go), [Sha256] and
      [PluginStorage.Hash] the content hash.
    - Installs. [Install] is what one controller worker does for a job and what
      deletion does to a workspace (pkg/manager/workspace/controller.go:
      [runInstall], [attachPlugins], [retryRepoWrite], [transitionToFailed],
      [Delete]). [Controller] is the rest of that file: the job queue, the maps of
      running installs, the workers and the shutdown, one step per critical
      section.
    - Probing. [Scheduler] is pkg/manager/workspace/scheduler.go: one tick (list
      everything, fail the installs that timed out, hand the rest to a pool of
      workers), one probe, and the loop's lifecycle; [SchedulerLoop] is the loop with its
      ticker and the counting of overruns.
    - Infrastructure. [LocalDir] (options, directories, relative paths, bounded
      buffers) and [LocalDirOps] (the life of an instance and every method) are
      pkg/manager/infraops/localdir; [CondWait] has the steps of its waits on the
      condition variable, which [LocalDirOps] takes as one.
    - The Claude Code agent. [ClaudeLayout] and [ClaudeSpec] are layout.go and spec.go of
      pkg/manager/agent/claudecode: where the files of a plugin go, what an install
      writes and what a probe reports, over the calls of the InfraOps interface.
    - Talking to agents. [AgentIO] is pkg/agentio: requests, their canonical form
      (canonical.go), event streams and their readers (stream.go); [AgentEncode] writes
      the canonical form as JSON. The bridges send requests and turn answers into
      streams: [RestDecode] is pkg/bridge/rest as functions of the response body and
      [RestStream] the goroutine and channel behind them, [SocketSession] is
      pkg/bridge/socket, [CliBridge] pkg/bridge/cli.
    - Logging. [Logs] is pkg/logs: the logger of a context, over calls of slog.
    - The facade. [ManagerTypes] and [Manager] are pkg/manager/types.go, idgen.go
      and manager.go: requests, validators, views, the admission gate and every
      public method. [Registration] is the agent spec set, the infra factory set
      and the builder.
    - The orchestrator. [Directive] is pkg/orchestrator/protocol, the route
      directives in message texts; [Registry] is pkg/orchestrator/registry, the
      catalog of workspaces that messages are routed to, with the cycle check of
      its configurations.
    - The language. [GoString], [GoError], [GoPath], [GoFilepath], [GoNet], [GoValue] and
      [Base64] model what the sources use of Go and its standard library; [GoJSON] and
      [GoMarshal] are the validity check and the writing of encoding/json. [Proc] gives procedures
      that call collaborators. This file has what all share: fallible results,
      lists, the hint databases [ana] and [ana_rw] and the tactics [go_case], [destruct_res].

    ** How effects are modelled

    A function that calls other components is a finite tree of calls, [proc E A].
    [WorkspaceWorld] lists the calls of the workspace package (repository, blob
    storage, specs, factories, readers, contexts, the clock), [Manager.mcall] those of
    the facade. What a call answers is not fixed by the tree; a theorem says what
    it assumes of the answers:
    - [traces] assumes nothing: any answer to any call. Resource discipline, order
      of effects and retry bounds are stated for it ([attach_closes_everything],
      [healthy_only_after_success], [probe_effects]).
    - [execs] with [with_repo I] ([WorkspaceRun]) answers repository calls with the
      in-memory repository and lets any number of steps [I] of other clients
      happen before each call ([install_ends_terminal],
      [localdir_dirs_exclusive]).
    - [run] with a handler is the executable instance the witnesses evaluate.
    - [Proc.interp] puts the procedures of one component behind the calls of another
      ([PluginPlacement]).
    - [Proc.follows] checks a procedure against an automaton over its calls, for any
      answers ([LocalDirLife]); [Proc.passes] are the states between two calls, where a
      process may be killed, and [Proc.safe] proves an invariant of them
      ([LocalDirFiles]).
    Components with state shared by goroutines are step relations ([Controller.step],
    [Scheduler.pool_step], [StorageConcurrency.sys_step], [SchedulerLoop.loop_step],
    [CondWait.step], [RestStream.pump_step], [SocketSession.step], [CliBridge.cli_step]
    with its process and pipes, the system of [LocalDirLife], [ShutdownSpec.world_step] for
    callers and any number of [Stop]s, [CreationSpec.manager_step] for creations that run at
    once and exclude each other by the mutex they lock), with reachability and an inductive invariant; [Proc.interleave]
    runs several procedures at once.

    ** What the theorems show

    - The stores ([WorkspaceRepo], [PluginRepo], [PluginStorage]): reachable states
      keep the indexes inverse to the rows; each operation's result and effect on
      every branch; an operation that fails changes nothing; a row's identity is
      fixed and a row that left [init] never returns to it; the conditional update
      lets one of two racing writers through; listing page by page returns every
      matching row once and in order; stored blobs have the hash and size recorded
      with them, also when uploads interleave.
    - Installs ([InstallSpec]): whatever collaborators answer, an install leaves
      its row out of [init] (or deleted), reports healthy only after the init, the
      layout, the plugins and the confirming probe succeeded, closes every reader
      and body it opened, and retries a write a bounded number of times with the
      documented pauses.
    - The pool ([Controller]): the running counts are those of the workers, the
      in-flight counter is the number of workers inside an install, deletion excludes
      installs of the same workspace, and a stopped pool drains.
    - Probing ([SchedulerSpec]): a tick fails exactly the rows past their timeout
      and probes exactly the rows that are due, each once; a probe writes only
      guarded updates and counts one attempt and at most one outcome; ticks run one at
      a time between start and stop ([SchedulerLoop]).
    - The facade: an upload is all or nothing ([UploadSpec]); a creation adds
      exactly the requested row, every field of it, and queues its install, or changes
      nothing, and no two workspaces share a local directory, however creations and the
      rest of the manager interleave ([CreationSpec]); [Stop] closes the backends only
      after the last call left, and what that leaves open when several are called
      ([ShutdownSpec]); builder, spec set
      and descriptor validation ([RegistrationSpec]).
    - Plugins on their way into a workspace: which archives are opened and what the
      opened one holds ([ZipSpec]); the directory names of plugins ([ClaudeLayoutSpec]);
      that the plan for the files of an archive is complete, injective, ordered and
      within the plugin's directory, and that carrying it out writes a part of it from
      its start, all of it exactly on success ([ClaudePlanSpec]); and, with the local
      directory behind the interface, that each file arrives whole or not at all wherever
      the install is cut off, if no path ends in white space and no link makes two of
      them meet ([PluginPlacement]).
    - The local directory: which directories and paths are accepted ([LocalDirSpec]);
      a file is replaced atomically wherever the write is cut off, by a kill or a crash of
      the machine, and durably once it answers success; a link at the path itself is
      replaced, links on the way are followed ([LocalDirFiles]) and reads back as it was written ([LocalDirRead]); clearing
      excludes every other use of the directory ([LocalDirLife]); no wake-up of a wait
      is lost, and a wait whose context has ended returns ([CondWait]).
    - The Claude Code agent: nothing is written before its binary has run, the settings
      are valid JSON whatever the names, a probe never fails ([ClaudeSpecProps]).
    - Streams: the reader and [CollectText] agree, and a request has a canonical form
      exactly when its parts are valid ([AgentIOSpec]), from which they can be read back
      ([AgentShape]), and is sent as valid JSON or not
      at all ([AgentEncodeSpec]); every response can be collected
      to its end and server-sent events are decoded frame by frame ([RestSpec]), and the
      goroutine and channel behind it deliver just that ([RestStream]); a
      socket session delivers events in order and ends when it is closed ([SocketSpec]);
      the stream of a command is an interleaving of its outputs with one end ([CliSpec]),
      which a caller that goes on comes to as long as what the readers leave unread fits
      into the pipes of the process ([CliProgress]).
    - The orchestrator: a route directive rendered with its payload is parsed back
      to it, and no accepted alias leaves the documented alphabet ([Directive]);
      the registry keeps its maps inverse with one default at most, and its cycle
      check accepts exactly the configurations without a cycle ([Registry],
      [RegistrySpec]); identifiers increase and are distinct ([IdGen]).
    Some theorems and examples show defects: a clone that drops scalar values at nesting
    depth 32 ([metadata_clone_bound]); a pair of interleaved uploads that leaves a row
    whose hash is not its blob's ([concurrent_uploads_mismatch]); a file of an archive
    that is never placed and targets that meet ([hidden_file_not_planned],
    [trimmed_targets_meet]); the end of a socket stream that hides its last events
    ([end_may_hide_events]); a short timeout that is sent as none ([short_timeout_ex]);
    goroutines that stay behind when a stream is closed early ([abandoned_stream],
    [cli_stream_ends]); a process that blocks on a pipe nobody reads ([cli_stream_ends]); a
    [Stop] that answers nil with a call still inside ([stop_quiesces]).

    ** Bounds and fuel

    - The loops that follow cursors ([Scheduler.listAll], [Manager.scan_dirs],
      [Paging.drain]) take fuel; [None] is running out. Theorems give the fuel that
      is enough (more than the number of rows) and conclude that the loop answers.
    - [base32_groups] takes the number of bits as fuel and consumes five at a time;
      [trim_left_fuel] and [digits] take the length of what they shorten;
      [validate_json] takes the depth of the value.
    - The metadata walkers count depth and nodes exactly as the source does, so the
      limits 32 and 4096 are part of the model. Durations are int64 nanoseconds and
      saturate where Go's [time.Sub] does; counters of the scheduler wrap at 64
      bits; the content hash works on words modulo [2 ^ 32].
    - Go's map iteration order is the class [MapRange]; theorems hold for every
      instance.

    ** What is not modelled

    The ZIP format, TOML and the decoding of JSON: what they make of bytes is an argument
    of [ZipReader], [Manifest] and [RestDecode]. How encoding/json prints a float and
    what a type of its own is marshalled to are arguments of [GoMarshal]. What slog does
    with a record, and the log lines of the components: output that no state of the
    program depends on. What the operating
    system, the network and processes do are answers of calls; [LocalDirFiles] has a model
    of files for them, with entries, inodes, symbolic links in the directory part of a
    path and what reaches the disk when. There the tree changes by the calls of the
    program alone, and whether a new directory is itself on disk is left out. The bridges repeat the decoder of events word for word, so it is
    modelled once, in [RestDecode]. Of contexts only what the code reads is kept: whether
    one had ended when it was asked. *)

From stdpp Require Export prelude strings gmap sorting.
From stdpp Require Import options.

(** ** Results of fallible Go functions

    A Go function returning [(T, error)] is a function to [res E T]; the type of
    errors is a parameter here and becomes [GoError.error] in the components. *)

Inductive res (E A : Type) : Type :=
| Ok (a : A)
| Err (e : E).
Arguments Ok {_ _} _.
Arguments Err {_ _} _.

#[export] Instance res_ret {E} : MRet (res E) := λ A a, Ok a.
#[export] Instance res_bind {E} : MBind (res E) := λ A B f r,
  match r with Ok a => f a | Err e => Err e end.
#[export] Instance res_fmap {E} : FMap (res E) := λ A B f r,
  match r with Ok a => Ok (f a) | Err e => Err e end.

Definition is_ok {E A} (r : res E A) : bool :=
  match r with Ok _ => true | Err _ => false end.

Lemma bind_ok_inv {E A B} (r : res E A) (f : A → res E B) (b : B) :
  r ≫= f = Ok b → ∃ a, r = Ok a ∧ f a = Ok b.
Proof. destruct r; [eauto | done]. Qed.

Lemma fmap_ok_inv {E A B} (r : res E A) (f : A → B) (b : B) :
  f <$> r = Ok b → ∃ a, r = Ok a ∧ f a = b.
Proof. destruct r; [|done]. intros [= <-]. eauto. Qed.

(** The statement pair [x, err := r; if err != nil { return err }; k] is written
    [x ← r; k], stdpp's notation for the bind above. *)

Declare Scope go_scope.
Delimit Scope go_scope with go.

(** ** Automation shared by the components *)

Create HintDb ana.
Create Rewrite HintDb ana_rw.

(** Case analysis on every [match] and [if] of the goal and the hypotheses,
    discharging contradictory branches. *)
Ltac go_case :=
  repeat (first [progress simplify_eq/= | case_decide | case_match]); try done.

(** [destruct_res r] splits on a fallible sub-computation, keeping its equation. *)
Ltac destruct_res r :=
  let a := fresh "v" in let e := fresh "e" in let H := fresh "Hres" in
  destruct r as [a|e] eqn:H; simplify_eq/=.

(** [go_solve] closes the goals the invariants leave after [go_case]. *)
Ltac go_solve := try solve [eauto with ana | set_solver | lia | naive_solver].

(** ** Lists *)

Section sorted_lists.
Context {A : Type}.
Implicit Types (l : list A).

Lemma filter_all (P : A → Prop) `{∀ x, Decision (P x)} l :
  Forall P l → filter P l = l.
Proof.
  induction 1 as [|x l Hx _ IH]; [done|]. by rewrite filter_cons_True, IH.
Qed.

Lemma filter_none (P : A → Prop) `{∀ x, Decision (P x)} l :
  Forall (λ x, ¬ P x) l → filter P l = [].
Proof.
  induction 1 as [|x l Hx _ IH]; [done|]. by rewrite filter_cons_False.
Qed.

Lemma StronglySorted_filter (R : relation A) (P : A → Prop) `{∀ x, Decision (P x)} l :
  StronglySorted R l → StronglySorted R (filter P l).
Proof.
  induction 1 as [|x l Hl IH Hx]; [constructor|].
  rewrite filter_cons. case_decide; [|done].
  apply StronglySorted_cons. split; [|done].
  apply Forall_forall. intros y [_ Hy]%list_elem_of_filter.
  by eapply Forall_forall in Hx.
Qed.

Lemma filter_conj (P Q : A → Prop) `{∀ x, Decision (P x)} `{∀ x, Decision (Q x)} l :
  filter (λ x, P x ∧ Q x) l = filter Q (filter P l).
Proof.
  induction l as [|x l IH]; [done|]. rewrite !filter_cons.
  repeat case_decide; try rewrite filter_cons; repeat case_decide;
    rewrite ?IH; tauto || done.
Qed.

(** Resuming a strictly sorted enumeration strictly after the last element of
    a prefix gives exactly the rest: the arithmetic of cursor pagination. *)
Lemma filter_after_last (R : relation A) `{∀ x y, Decision (R x y)}
    `{!Irreflexive R} `{!Transitive R} l n x :
  StronglySorted R l →
  last (take n l) = Some x →
  filter (λ y, R x y) l = drop n l.
Proof.
  intros Hl Hlast. rewrite <-(take_drop n l) in Hl.
  rewrite <-(take_drop n l) at 1.
  apply StronglySorted_app in Hl as (Hcross & Ht & Hd).
  rewrite filter_app.
  apply last_Some in Hlast as [l' Hl']. rewrite Hl' in Ht, Hcross |- *.
  rewrite filter_none, filter_all; [done|..].
  - apply Forall_forall. intros y Hy. apply Hcross; set_solver.
  - apply Forall_forall. intros y Hy Hxy.
    apply elem_of_app in Hy as [Hy | ->%list_elem_of_singleton].
    + assert (R y x) by (eapply (StronglySorted_app_1_elem_of R l' [x]); set_solver).
      by apply (irreflexivity R x); trans y.
    + by apply (irreflexivity R x).
Qed.
End sorted_lists.

(** Sorting commutes with filtering when the order separates the elements. *)
Lemma merge_sort_filter {A} (R : relation A) `{∀ x y, Decision (R x y)}
    `{!Total R} `{!Transitive R} (P : A → Prop) `{∀ x, Decision (P x)} (l : list A) :
  (∀ x y, x ∈ l → y ∈ l → R x y → R y x → x = y) →
  merge_sort R (filter P l) = filter P (merge_sort R l).
Proof.
  intros Hanti.
  assert (StronglySorted R (merge_sort R l)) as Hs.
  { apply (StronglySorted_merge_sort R). }
  apply (StronglySorted_unique_strong R).
  - intros x y Hx Hy. rewrite merge_sort_Permutation in Hx.
    apply list_elem_of_filter in Hx as [_ Hx]. apply list_elem_of_filter in Hy as [_ Hy].
    rewrite merge_sort_Permutation in Hy. auto.
  - apply (StronglySorted_merge_sort R).
  - by apply StronglySorted_filter.
  - by rewrite !merge_sort_Permutation.
Qed.

(** A sorted list without repetitions is strictly sorted. *)
Lemma StronglySorted_strict {A} (R S : relation A) (l : list A) :
  StronglySorted R l → NoDup l →
  (∀ x y, x ∈ l → y ∈ l → R x y → x ≠ y → S x y) →
  StronglySorted S l.
Proof.
  induction 1 as [|x l Hl IH Hx]; intros Hnd HRS; [constructor|].
  apply NoDup_cons in Hnd as [Hni Hnd]. apply StronglySorted_cons. split.
  - apply Forall_forall. intros y Hy. rewrite Forall_forall in Hx.
    apply HRS; [set_solver|set_solver|auto|set_solver].
  - apply IH; [done|]. intros y z Hy Hz. apply HRS; set_solver.
Qed.

Lemma take_min_length {A} (n : Z) (l : list A) :
  (0 ≤ n)%Z → take (Z.to_nat (n `min` Z.of_nat (length l))) l = take (Z.to_nat n) l.
Proof.
  intros Hn. destruct (decide (n ≤ Z.of_nat (length l))%Z).
  - by rewrite Z.min_l.
  - rewrite Z.min_r, Nat2Z.id by lia. rewrite !take_ge by lia. done.
Qed.

Lemma list_filter_fmap {A B} (f : A → B) (P : B → Prop) `{∀ x, Decision (P x)} (l : list A) :
  filter P (f <$> l) = f <$> filter (λ x, P (f x)) l.
Proof.
  induction l as [|x l IH]; [done|]. rewrite fmap_cons, !filter_cons.
  case_decide; [rewrite fmap_cons|]; by rewrite IH.
Qed.

(** ** Counting in lists updated by index *)

Definition count_if {A} (p : A → bool) (l : list A) : nat := length (filter (λ x, p x = true) l).

Lemma count_if_nil {A} (p : A → bool) : count_if p [] = 0.
Proof. done. Qed.

Lemma count_if_cons {A} (p : A → bool) x l :
  count_if p (x :: l) = (if p x then 1 else 0) + count_if p l.
Proof.
  unfold count_if. rewrite filter_cons. destruct (p x); [by rewrite decide_True|by rewrite decide_False].
Qed.

Lemma count_if_replicate {A} (p : A → bool) n x :
  count_if p (replicate n x) = if p x then n else 0.
Proof.
  induction n as [|n IH]; simpl; [by destruct (p x)|]. rewrite count_if_cons, IH. by destruct (p x).
Qed.

Lemma count_if_le {A} (p : A → bool) l : count_if p l ≤ length l.
Proof. unfold count_if. apply length_filter. Qed.

Lemma count_if_le_count {A} (p q : A → bool) l :
  (∀ x, p x = true → q x = true) → count_if p l ≤ count_if q l.
Proof.
  intros Hpq. induction l as [|x l IH]; [done|]. rewrite !count_if_cons.
  destruct (p x) eqn:E; [rewrite (Hpq x E); lia|]. destruct (q x); lia.
Qed.

Lemma count_if_all {A} (p : A → bool) l : count_if p l = length l ↔ Forall (λ x, p x = true) l.
Proof.
  induction l as [|x l IH]; [done|]. rewrite count_if_cons, Forall_cons. simpl.
  pose proof (count_if_le p l). destruct (p x); split.
  - intros E. split; [done|]. apply IH. lia.
  - intros [_ Hl]. apply IH in Hl. lia.
  - lia.
  - by intros [? _].
Qed.

Lemma count_if_zero {A} (p : A → bool) l : count_if p l = 0 ↔ ∀ x, x ∈ l → p x = false.
Proof.
  induction l as [|x l IH]; [split; [by intros _ y ?%not_elem_of_nil|done]|].
  rewrite count_if_cons. split.
  - intros E y [->|Hy]%elem_of_cons; [by destruct (p x)|]. apply IH; [lia|done].
  - intros Hall. rewrite (Hall x) by (by left). apply IH. intros y Hy. apply Hall. by right.
Qed.

#[export] Instance count_if_perm {A} (p : A → bool) : Proper ((≡ₚ) ==> (=)) (count_if p).
Proof. intros l1 l2 E. unfold count_if. by rewrite E. Qed.

(** Reading an element and overwriting it, up to the order of the list. *)
Lemma list_update_perm {A} (l : list A) i x :
  l !! i = Some x → ∃ rest, l ≡ₚ x :: rest ∧ ∀ y, <[i:=y]> l ≡ₚ y :: rest.
Proof.
  intros Hi. exists (take i l ++ drop (S i) l). split.
  - rewrite <-(take_drop_middle l i x Hi) at 1. symmetry. apply Permutation_middle.
  - intros y. rewrite insert_take_drop by (by eapply lookup_lt_Some). symmetry. apply Permutation_middle.
Qed.
