(* ===== verification/GoString.v ===== *)
(** * Go strings

    A Go string is a sequence of bytes: [string] here, one [ascii] per byte. This
    file models what the source uses of [strings], [strconv] and [cmp]:
    comparison, containment, splitting and joining, whitespace trimming, decimal
    conversion. Each function is total and executable. *)

From S2P Require Import Prelude.
From stdpp Require Import pretty.
From Stdlib Require Import Ascii.
From stdpp Require Import options.

(** [strings.Compare]: byte-wise lexicographic, as an integer -1, 0 or 1. *)
Definition strings_Compare (a b : string) : Z :=
  match String.compare a b with Lt => -1 | Eq => 0 | Gt => 1 end.

Lemma string_compare_refl (a : string) : String.compare a a = Eq.
Proof.
  induction a as [|c a IH]; simpl; [done|]. unfold Ascii.compare.
  by rewrite N.compare_refl.
Qed.

Lemma strings_Compare_refl a : strings_Compare a a = 0%Z.
Proof. unfold strings_Compare. by rewrite string_compare_refl. Qed.

Lemma strings_Compare_eq a b : strings_Compare a b = 0%Z ↔ a = b.
Proof.
  unfold strings_Compare. split; [|intros ->; by rewrite string_compare_refl].
  destruct (String.compare a b) eqn:E; try done. by apply String.compare_eq_iff in E.
Qed.

Lemma strings_Compare_antisym a b : strings_Compare b a = (- strings_Compare a b)%Z.
Proof.
  unfold strings_Compare. rewrite String.compare_antisym.
  by destruct (String.compare a b).
Qed.

Lemma strings_Compare_range a b :
  strings_Compare a b = (-1)%Z ∨ strings_Compare a b = 0%Z ∨ strings_Compare a b = 1%Z.
Proof. unfold strings_Compare. destruct (String.compare a b); auto. Qed.

Lemma strings_Compare_le a b : (strings_Compare a b ≤ 0)%Z ↔ String.le a b.
Proof.
  unfold strings_Compare, String.le, String.leb.
  destruct (String.compare a b); split; intros; done || lia.
Qed.

Lemma strings_Compare_lt_trans a b c :
  (strings_Compare a b < 0)%Z → (strings_Compare b c < 0)%Z → (strings_Compare a c < 0)%Z.
Proof.
  intros Hab Hbc.
  assert (String.le a b) as Hab' by (apply strings_Compare_le; lia).
  assert (String.le b c) as Hbc' by (apply strings_Compare_le; lia).
  assert (String.le a c) as Hac by (by trans b). apply strings_Compare_le in Hac.
  destruct (decide (strings_Compare a c = 0%Z)) as [E|]; [|lia].
  apply strings_Compare_eq in E as ->. rewrite strings_Compare_antisym in Hbc. lia.
Qed.

(** ** Containment and prefixes *)

Definition strings_HasPrefix (s p : string) : bool := String.prefix p s.

Fixpoint strings_Contains (s sub : string) : bool :=
  String.prefix sub s ||
  match s with EmptyString => false | String _ s' => strings_Contains s' sub end.

Lemma prefix_app (p s : string) : String.prefix p (p +:+ s) = true.
Proof.
  induction p as [|c p IH]; [by destruct s|].
  change (String c p +:+ s) with (String c (p +:+ s)). simpl.
  destruct (ascii_dec c c); done.
Qed.

Lemma prefix_spec (p s : string) : String.prefix p s = true ↔ ∃ t, s = p +:+ t.
Proof.
  split; [|intros [t ->]; apply prefix_app].
  revert s. induction p as [|c p IH]; intros s; [by exists s|].
  destruct s as [|d s]; simpl; [done|]. destruct (ascii_dec c d) as [->|]; [|done].
  intros [t ->]%IH. by exists t.
Qed.

Lemma strings_Contains_spec s sub :
  strings_Contains s sub = true ↔ ∃ a b, s = a +:+ sub +:+ b.
Proof.
  induction s as [|c s IH]; cbn [strings_Contains]; rewrite orb_true_iff, prefix_spec; split.
  - intros [[t Ht]|?]; [|done]. by exists "", t.
  - intros (a & b & E). destruct a; [|done]. left. by exists b.
  - intros [[t Ht]|(a & b & ->)%IH]; [by exists "", t|]. by exists (String c a), b.
  - intros (a & b & E). destruct a as [|d a]; [left; by exists b|].
    right. change (String d a +:+ ?x) with (String d (a +:+ x)) in E. injection E as -> ->.
    apply IH. eauto.
Qed.

(** ** Concatenation *)

Lemma append_cons c s t : String c s +:+ t = String c (s +:+ t).
Proof. done. Qed.

Lemma append_nil_l s : "" +:+ s = s.
Proof. done. Qed.

Lemma append_nil_r s : s +:+ "" = s.
Proof. induction s as [|c s IH]; [done|]. exact (f_equal (String c) IH). Qed.

Lemma append_assoc (a b c : string) : (a +:+ b) +:+ c = a +:+ b +:+ c.
Proof. induction a as [|x a IH]; [done|]. exact (f_equal (String x) IH). Qed.

Lemma append_length (a b : string) : String.length (a +:+ b) = String.length a + String.length b.
Proof. induction a as [|x a IH]; [done|]. exact (f_equal S IH). Qed.

(** ** Splitting at a byte *)

(** [strings.SplitN(s, sep, 2)] for a one-byte separator: the text before the
    first separator and the text after it, when there is one. *)
Fixpoint strings_Cut (sep : ascii) (s : string) : option (string * string) :=
  match s with
  | EmptyString => None
  | String c s' =>
      if decide (c = sep) then Some (EmptyString, s')
      else match strings_Cut sep s' with
           | Some (a, b) => Some (String c a, b)
           | None => None
           end
  end.

Fixpoint has_byte (c : ascii) (s : string) : bool :=
  match s with
  | EmptyString => false
  | String d s' => bool_decide (d = c) || has_byte c s'
  end.

Lemma strings_Cut_app sep a b :
  has_byte sep a = false → strings_Cut sep (a +:+ String sep b) = Some (a, b).
Proof.
  induction a as [|c a IH]; intros Ha.
  - change ("" +:+ ?x) with x. simpl. by rewrite decide_True.
  - change (String c a +:+ ?x) with (String c (a +:+ x)). simpl in *.
    apply orb_false_iff in Ha as [Hc%bool_decide_eq_false Ha].
    by rewrite decide_False, IH.
Qed.

(** [strings.Split(s, sep)] for a one-byte separator; never the empty list. *)
Fixpoint strings_Split (sep : ascii) (s : string) : list string :=
  match s with
  | EmptyString => [EmptyString]
  | String c s' =>
      if decide (c = sep) then EmptyString :: strings_Split sep s'
      else match strings_Split sep s' with
           | hd :: tl => String c hd :: tl
           | [] => [String c EmptyString]
           end
  end.

Fixpoint strings_Join (l : list string) (sep : string) : string :=
  match l with
  | [] => EmptyString
  | [s] => s
  | s :: l' => s +:+ sep +:+ strings_Join l' sep
  end.

Lemma strings_Split_nonempty sep s : strings_Split sep s ≠ [].
Proof. destruct s; simpl; [done|]. case_decide; [done|]. by case_match. Qed.

Lemma strings_Join_cons s l sep :
  l ≠ [] → strings_Join (s :: l) sep = s +:+ sep +:+ strings_Join l sep.
Proof. by destruct l. Qed.

Lemma strings_Join_Split sep s :
  strings_Join (strings_Split sep s) (String sep "") = s.
Proof.
  induction s as [|c s IH]; [done|]. simpl. case_decide as Hc.
  - subst. rewrite strings_Join_cons by apply strings_Split_nonempty.
    rewrite IH. done.
  - pose proof (strings_Split_nonempty sep s) as Hne.
    destruct (strings_Split sep s) as [|hd tl]; [done|].
    destruct tl as [|x tl]; simpl in *.
    + by rewrite <-IH.
    + rewrite <-IH. done.
Qed.

(** Splitting a concatenation at a separator splits both halves. *)
Lemma strings_Split_app sep a b :
  strings_Split sep (a +:+ String sep b) = strings_Split sep a ++ strings_Split sep b.
Proof.
  induction a as [|c a IH].
  - change ("" +:+ String sep b) with (String sep b). simpl. by rewrite decide_True.
  - change (String c a +:+ String sep b) with (String c (a +:+ String sep b)). simpl.
    rewrite IH. case_decide; [done|].
    pose proof (strings_Split_nonempty sep a). by destruct (strings_Split sep a).
Qed.

Lemma substring_length n s : n ≤ String.length s → String.length (String.substring 0 n s) = n.
Proof.
  revert n. induction s as [|c s IH]; intros [|n] Hn; simpl in *; try done; [lia|].
  rewrite IH; [done|lia].
Qed.

(** ** White space *)

(** The UTF-8 encodings of the runes for which [unicode.IsSpace] holds. *)
Definition bytes_of (l : list nat) : string :=
  String.string_of_list_ascii (ascii_of_nat <$> l).

Definition space_runes : list string := bytes_of <$>
  [[9]; [10]; [11]; [12]; [13]; [32]; [194; 133]; [194; 160]; [225; 154; 128];
   [226; 128; 128]; [226; 128; 129]; [226; 128; 130]; [226; 128; 131]; [226; 128; 132];
   [226; 128; 133]; [226; 128; 134]; [226; 128; 135]; [226; 128; 136]; [226; 128; 137];
   [226; 128; 138]; [226; 128; 168]; [226; 128; 169]; [226; 128; 175]; [226; 129; 159];
   [227; 128; 128]].

(** The number of bytes of the space rune that starts [s], if one does. *)
Definition leading_space (runes : list string) (s : string) : option nat :=
  String.length <$> head (filter (λ r, String.prefix r s = true) runes).

Fixpoint string_drop (n : nat) (s : string) : string :=
  match n, s with
  | 0, _ => s
  | S n', String _ s' => string_drop n' s'
  | S _, EmptyString => EmptyString
  end.

Fixpoint trim_left_fuel (runes : list string) (fuel : nat) (s : string) : string :=
  match fuel with
  | 0 => s
  | S fuel' => match leading_space runes s with
               | Some n => trim_left_fuel runes fuel' (string_drop n s)
               | None => s
               end
  end.

(** Every round removes at least one byte, so the length is enough fuel. *)
Definition strings_TrimLeftSpace (s : string) : string :=
  trim_left_fuel space_runes (String.length s) s.

Definition strings_TrimRightSpace (s : string) : string :=
  String.rev (trim_left_fuel (String.rev <$> space_runes) (String.length s) (String.rev s)).

(** [strings.TrimSpace]. *)
Definition strings_TrimSpace (s : string) : string :=
  strings_TrimRightSpace (strings_TrimLeftSpace s).

Example trim_ascii : strings_TrimSpace (String "009" " a b  ") = "a b".
Proof. reflexivity. Qed.

Example trim_nbsp : strings_TrimSpace (bytes_of [194; 160; 97; 226; 128; 131]) = "a".
Proof. reflexivity. Qed.

(** ** Runes *)

(** The length of the UTF-8 encoding at the start of a non-empty text; an invalid or
    truncated one counts as a single byte, as in [unicode/utf8]. *)
Definition rune_length (s : string) : nat :=
  let cont lo hi n := bool_decide (lo ≤ n ≤ hi) in
  match nat_of_ascii <$> String.list_ascii_of_string s with
  | a :: b :: l =>
    if decide (194 ≤ a ≤ 223) then if cont 128 191 b then 2 else 1
    else match l with
    | c :: l' =>
      if decide (224 ≤ a ≤ 239) then
        if cont (if decide (a = 224) then 160 else 128) (if decide (a = 237) then 159 else 191) b &&
           cont 128 191 c then 3 else 1
      else match l' with
      | d :: _ =>
        if decide (240 ≤ a ≤ 244) then
          if cont (if decide (a = 240) then 144 else 128) (if decide (a = 244) then 143 else 191) b &&
             cont 128 191 c && cont 128 191 d then 4 else 1
        else 1
      | [] => 1
      end
    | [] => 1
    end
  | _ => 1
  end.

(** [utf8.RuneCountInString]; [skip] bytes of the current rune remain. *)
Fixpoint rune_count_go (skip : nat) (s : string) : nat :=
  match s, skip with
  | EmptyString, _ => 0
  | String _ s', S skip' => rune_count_go skip' s'
  | String _ s', 0 => S (rune_count_go (pred (rune_length s)) s')
  end.

Definition utf8_RuneCount (s : string) : nat := rune_count_go 0 s.

Example rune_count_ex1 : utf8_RuneCount (bytes_of [97; 195; 169; 226; 130; 172; 240; 159; 152; 128]) = 4.
Proof. reflexivity. Qed.

Example rune_count_ex2 : utf8_RuneCount (bytes_of [195; 97; 237; 160; 128; 255]) = 6.
Proof. reflexivity. Qed.

(** ** Decimal conversion *)

(** [strconv.Itoa] *)
Definition strconv_Itoa (n : Z) : string := pretty n.

Definition int64_max : Z := 2 ^ 63 - 1.
Definition int64_min : Z := - 2 ^ 63.

Fixpoint digits_go (s : string) (acc : N) : option N :=
  match s with
  | EmptyString => Some acc
  | String c s' => match Ascii.is_nat c with
                   | Some d => digits_go s' (acc * 10 + N.of_nat d)%N
                   | None => None
                   end
  end.

Definition digits (s : string) : option Z :=
  match s with
  | EmptyString => None
  | _ => Z.of_N <$> digits_go s 0%N
  end.

(** [strconv.Atoi]: an optional sign, at least one decimal digit, and a value in
    the range of the 64-bit [int]; anything else is an error. *)
Definition strconv_Atoi (s : string) : option Z :=
  let checked (n : Z) := if decide (int64_min ≤ n ≤ int64_max)%Z then Some n else None in
  match s with
  | String "-" s' => n ← digits s'; checked (- n)%Z
  | String "+" s' => n ← digits s'; checked n
  | _ => n ← digits s; checked n
  end.

Lemma is_nat_pretty (d : N) :
  (d < 10)%N → Ascii.is_nat (pretty_N_char d) = Some (N.to_nat d).
Proof.
  intros Hd.
  assert (d = 0 ∨ d = 1 ∨ d = 2 ∨ d = 3 ∨ d = 4 ∨ d = 5 ∨ d = 6 ∨ d = 7 ∨ d = 8 ∨ d = 9)%N
    as Hcases by lia.
  by destruct_or!; subst.
Qed.

Lemma digits_go_pretty (x : N) s : digits_go (pretty_N_go x s) 0 = digits_go s x.
Proof.
  revert s. induction (N.lt_wf_0 x) as [x _ IH]; intros s.
  destruct (decide (0 < x)%N) as [Hx|]; [|by replace x with 0%N by lia].
  rewrite pretty_N_go_step by done. rewrite IH by (by apply N.div_lt). simpl.
  rewrite is_nat_pretty by (by apply N.mod_lt). f_equal.
  rewrite N2Nat.id. rewrite N.mul_comm. by rewrite <-(N.div_mod x 10).
Qed.

Lemma pretty_N_head (x : N) : ∃ d s, pretty x = String (pretty_N_char d) s ∧ (d < 10)%N.
Proof.
  unfold pretty, pretty_N. case_decide as Hx; [by exists 0%N, ""|].
  assert (∀ y s, (0 < y)%N → ∃ d s', pretty_N_go y s = String (pretty_N_char d) s' ∧ (d < 10)%N)
    as Hgo; [|apply Hgo; lia].
  clear. intros y. induction (N.lt_wf_0 y) as [y _ IH]; intros s Hy.
  rewrite pretty_N_go_step by done.
  destruct (decide (0 < y `div` 10)%N) as [Hdiv|Hdiv].
  - apply IH; [by apply N.div_lt | done].
  - apply N.nlt_ge, N.le_0_r in Hdiv. rewrite Hdiv, pretty_N_go_0.
    exists (y `mod` 10)%N, s. split; [done|]. by apply N.mod_lt.
Qed.

Lemma digits_Itoa n : (0 ≤ n)%Z → digits (strconv_Itoa n) = Some n.
Proof.
  intros Hn. unfold strconv_Itoa. destruct n as [|p|p]; [done| |lia].
  change (pretty (Z.pos p)) with (pretty (N.pos p)).
  destruct (pretty_N_head (N.pos p)) as (d & s & Hp & Hd).
  unfold digits. rewrite Hp. rewrite <-Hp. unfold pretty, pretty_N.
  rewrite decide_False by done. by rewrite digits_go_pretty.
Qed.

Lemma strconv_Atoi_Itoa n :
  (0 ≤ n ≤ int64_max)%Z → strconv_Atoi (strconv_Itoa n) = Some n.
Proof.
  intros Hn. pose proof (digits_Itoa n (proj1 Hn)) as Hdig.
  assert (∃ d s, strconv_Itoa n = String (pretty_N_char d) s ∧ (d < 10)%N) as (d & s & E & Hd).
  { unfold strconv_Itoa. destruct n as [|p|p]; [by exists 0%N, ""| |lia].
    apply (pretty_N_head (N.pos p)). }
  assert (strconv_Atoi (strconv_Itoa n) =
    (m ← digits (strconv_Itoa n); if decide (int64_min ≤ m ≤ int64_max)%Z then Some m else None))
    as ->.
  { rewrite E. unfold strconv_Atoi.
    assert (d = 0 ∨ d = 1 ∨ d = 2 ∨ d = 3 ∨ d = 4 ∨ d = 5 ∨ d = 6 ∨ d = 7 ∨ d = 8 ∨ d = 9)%N
      as Hcases by lia.
    by destruct_or!; subst. }
  rewrite Hdig. simpl. rewrite decide_True; [done|]. unfold int64_min, int64_max in *. lia.
Qed.

Lemma strconv_Itoa_nonempty n : strconv_Itoa n ≠ "".
Proof.
  unfold strconv_Itoa. destruct n as [|p|p]; [done| |done].
  destruct (pretty_N_head (N.pos p)) as (d & s & E & _).
  change (pretty (Z.pos p)) with (pretty (N.pos p)). by rewrite E.
Qed.

#[export] Hint Rewrite strings_Compare_refl : ana_rw.
#[export] Hint Resolve strings_Compare_lt_trans strconv_Itoa_nonempty : ana.

Lemma has_byte_app c a b : has_byte c (a +:+ b) = has_byte c a || has_byte c b.
Proof. induction a as [|d a IH]; [done|]. rewrite append_cons. simpl. by rewrite IH, orb_assoc. Qed.

(** Numbers are written in digits, with a sign. *)
Lemma pretty_N_no_byte c (x : N) :
  (∀ d, (d < 10)%N → pretty_N_char d ≠ c) → has_byte c (pretty x) = false.
Proof.
  intros Hc. unfold pretty, pretty_N. case_decide as Hx.
  { cbn [has_byte]. rewrite bool_decide_false; [done|]. by apply (Hc 0%N). }
  assert (∀ s, has_byte c s = false → has_byte c (pretty_N_go x s) = false) as H; [|by apply H].
  clear Hx. induction (N.lt_wf_0 x) as [x _ IH]. intros s Hs. destruct (decide (0 < x)%N) as [Hx|Hx].
  - rewrite pretty_N_go_step by done. apply IH; [by apply N.div_lt|]. cbn [has_byte].
    rewrite bool_decide_false; [done|]. apply Hc. by apply N.mod_lt.
  - assert (x = 0%N) as -> by lia. by rewrite pretty_N_go_0.
Qed.

Lemma Itoa_no_slash n : has_byte "/" (strconv_Itoa n) = false.
Proof.
  assert (∀ d, (d < 10)%N → pretty_N_char d ≠ "/"%char) as Hd.
  { intros d Hd. assert (d ∈ [0; 1; 2; 3; 4; 5; 6; 7; 8; 9]%N) as Hin by (rewrite !elem_of_cons; lia).
    repeat (apply elem_of_cons in Hin as [->|Hin]; [done|]). by apply not_elem_of_nil in Hin. }
  unfold strconv_Itoa. destruct n as [|p|p]; [done|..].
  - change (pretty (Z.pos p)) with (pretty (N.pos p)). by apply pretty_N_no_byte.
  - change (pretty (Z.neg p)) with ("-" +:+ pretty (N.pos p)). rewrite has_byte_app. by rewrite pretty_N_no_byte.
Qed.
