(* ===== verification/GoError.v ===== *)
(** * Go errors

    An error value is a sentinel made by [errors.New], told apart by its text, or
    one of the wrapping errors [fmt.Errorf] (with [%w]) and [errors.Join] build:
    a text and the errors it unwraps to. [Is] is [errors.Is], [Error] the method
    of that name. The sentinels of each package are declared with the package's
    model; the ones of the standard library the source uses are here. *)

From S2P Require Import Prelude GoString.
From Stdlib Require Import Ascii.
From stdpp Require Import options.

Inductive error : Type :=
| ENew (text : string)
| EWrap (text : string) (wrapped : list error).

Abbreviation result := (res error).

(** The [Error()] method. *)
Definition Error (e : error) : string :=
  match e with ENew t => t | EWrap t _ => t end.

(** [errors.Is(e, target)] for a sentinel target. *)
Fixpoint Is (e : error) (target : string) : bool :=
  match e with
  | ENew t => bool_decide (t = target)
  | EWrap _ es => existsb (λ e', Is e' target) es
  end.

(** [errors.Is(err, sentinel)] takes the sentinel's value; only sentinels are
    ever asked for, so the test is on the sentinel's text. *)
Definition errors_Is (e target : error) : bool := Is e (Error target).

(** [fmt.Errorf("<pre>%w<post>", err)] *)
Definition Errorf_w (pre : string) (e : error) (post : string) : error :=
  EWrap (pre +:+ Error e +:+ post) [e].

(** [fmt.Errorf("<pre>%w<mid>%w", e1, e2)] *)
Definition Errorf_w2 (pre : string) (e1 : error) (mid : string) (e2 : error) : error :=
  EWrap (pre +:+ Error e1 +:+ mid +:+ Error e2) [e1; e2].

(** [fmt.Errorf] with no [%w] verb: a fresh error that wraps nothing. *)
Definition Errorf (text : string) : error := EWrap text [].

(** [errors.Join] of non-nil errors; [None] is the nil error. *)
Definition errors_Join (es : list error) : option error :=
  match es with
  | [] => None
  | _ => Some (EWrap (strings_Join (Error <$> es) (String "010" "")) es)
  end.

Definition Canceled : error := ENew "context canceled".
Definition DeadlineExceeded : error := ENew "context deadline exceeded".
Definition EOF : error := ENew "EOF".

Lemma Is_new t : errors_Is (ENew t) (ENew t) = true.
Proof. unfold errors_Is. simpl. by rewrite bool_decide_eq_true. Qed.

Lemma Is_wrap pre e post target :
  errors_Is (Errorf_w pre e post) target = errors_Is e target.
Proof. unfold errors_Is, Errorf_w. cbn [Is existsb]. by rewrite orb_false_r. Qed.

Lemma Is_wrap2 pre e1 mid e2 target :
  errors_Is (Errorf_w2 pre e1 mid e2) target = errors_Is e1 target || errors_Is e2 target.
Proof. unfold errors_Is, Errorf_w2. cbn [Is existsb]. by rewrite orb_false_r. Qed.

Lemma Is_errorf text target : errors_Is (Errorf text) target = false.
Proof. done. Qed.

Lemma Is_join es e target :
  errors_Join es = Some e → errors_Is e target = existsb (λ e', errors_Is e' target) es.
Proof. unfold errors_Join. destruct es; [done|]. by intros [= <-]. Qed.

#[export] Hint Rewrite Is_new Is_wrap Is_wrap2 Is_errorf : ana_rw.

(** ** Quoting

    [%q] of a string, i.e. [strconv.Quote]: the escapes of the ASCII control
    characters, the quote and the backslash. Bytes from 128 on are copied, which is
    what Go does for printable UTF-8 text. *)

Definition hex_digit (n : nat) : ascii :=
  ascii_of_nat (if decide (n < 10) then 48 + n else 87 + n).

Definition quote_byte (c : ascii) : string :=
  let n := nat_of_ascii c in
  if decide (n = 34) then bytes_of [92; 34]
  else if decide (n = 92) then bytes_of [92; 92]
  else if decide (n = 7) then "\a"
  else if decide (n = 8) then "\b"
  else if decide (n = 9) then "\t"
  else if decide (n = 10) then "\n"
  else if decide (n = 11) then "\v"
  else if decide (n = 12) then "\f"
  else if decide (n = 13) then "\r"
  else if decide (n < 32 ∨ n = 127)
       then "\x" +:+ String (hex_digit (n / 16)) (String (hex_digit (n mod 16)) "")
  else String c "".

Fixpoint quote_go (s : string) : string :=
  match s with
  | EmptyString => ""
  | String c s' => quote_byte c +:+ quote_go s'
  end.

Definition strconv_Quote (s : string) : string :=
  bytes_of [34] +:+ quote_go s +:+ bytes_of [34].

Example quote_ex : strconv_Quote "a-b" = bytes_of [34; 97; 45; 98; 34].
Proof. reflexivity. Qed.
