(* ===== verification/GoPath.v ===== *)
(** * Anchored patterns and lexical paths

    The regular expressions of the source are all of the form
    [^first rest{m,n}$] over byte classes; [matches_class] is that match.
    [path_Clean] is [path.Clean] of Go's standard library: the lexical
    normalisation of a slash-separated path, as a fold over its elements. *)

From S2P Require Import Prelude GoString.
From Stdlib Require Import Ascii.
From stdpp Require Import options.

(** ** Byte classes *)

Definition in_range (lo hi c : ascii) : bool :=
  bool_decide (nat_of_ascii lo ≤ nat_of_ascii c ≤ nat_of_ascii hi).
Definition is_lower (c : ascii) : bool := in_range "a" "z" c.
Definition is_upper (c : ascii) : bool := in_range "A" "Z" c.
Definition is_digit (c : ascii) : bool := in_range "0" "9" c.
Definition is_dash (c : ascii) : bool := bool_decide (c = "-"%char).
Definition is_underscore (c : ascii) : bool := bool_decide (c = "_"%char).

Fixpoint all_chars (p : ascii → bool) (s : string) : bool :=
  match s with
  | EmptyString => true
  | String c s' => p c && all_chars p s'
  end.

(** [^[class]{lo,hi}$] *)
Definition matches_class (p : ascii → bool) (lo hi : nat) (s : string) : bool :=
  all_chars p s && bool_decide (lo ≤ String.length s ≤ hi).

(** [^[first][rest]{lo,hi}$] *)
Definition matches_head_class (first rest : ascii → bool) (lo hi : nat) (s : string) : bool :=
  match s with
  | EmptyString => false
  | String c s' => first c && matches_class rest lo hi s'
  end.

Lemma all_chars_has_byte p c s : all_chars p s = true → p c = false → has_byte c s = false.
Proof.
  intros Hs Hc. induction s as [|c' s IH]; [done|]. simpl in *.
  apply andb_true_iff in Hs as [Hc' Hs]. rewrite IH by done.
  case_bool_decide; [congruence|done].
Qed.

(** ** [path.Clean] *)

Definition slash : ascii := "/"%char.

(** One path element against the elements kept so far, last first. *)
Definition clean_step (rooted : bool) (out : list string) (seg : string) : list string :=
  if decide (seg = "" ∨ seg = ".") then out
  else if decide (seg = "..") then
    match out with
    | top :: rest => if decide (top = "..") then seg :: out else rest
    | [] => if rooted then [] else [seg]
    end
  else seg :: out.

Definition path_Clean (p : string) : string :=
  let rooted := strings_HasPrefix p "/" in
  let out := rev (fold_left (clean_step rooted) (strings_Split slash p) []) in
  if rooted then "/" +:+ strings_Join out "/"
  else match out with [] => "." | _ => strings_Join out "/" end.

Example clean_ex1 : path_Clean "a/./b//c/../d/" = "a/b/d".
Proof. reflexivity. Qed.
Example clean_ex2 : path_Clean "../../a/.." = "../..".
Proof. reflexivity. Qed.
Example clean_ex3 : path_Clean "/../a" = "/a".
Proof. reflexivity. Qed.
Example clean_ex4 : path_Clean "" = ".".
Proof. reflexivity. Qed.

(** An element [path.Clean] keeps as it is. *)
Definition plain_seg (seg : string) : Prop := seg ≠ "" ∧ seg ≠ "." ∧ seg ≠ "..".
#[export] Instance plain_seg_dec seg : Decision (plain_seg seg).
Proof. unfold plain_seg. apply _. Defined.

Lemma clean_steps_plain rooted segs out :
  Forall plain_seg segs → fold_left (clean_step rooted) segs out = rev segs ++ out.
Proof.
  revert out. induction segs as [|s segs IH]; intros out Hs; [done|].
  apply Forall_cons in Hs as [(Hne & Hd & Hdd) Hs]. simpl.
  unfold clean_step at 2. rewrite decide_False by tauto. rewrite decide_False by done.
  rewrite IH by done. by rewrite <-(assoc_L (++)).
Qed.

(** A relative path of plain elements is already clean. *)
Lemma path_Clean_plain p :
  strings_HasPrefix p "/" = false → Forall plain_seg (strings_Split slash p) → path_Clean p = p.
Proof.
  intros Hr Hs. unfold path_Clean. rewrite Hr, clean_steps_plain by done.
  rewrite app_nil_r, rev_involutive.
  pose proof (strings_Split_nonempty slash p) as Hne.
  destruct (strings_Split slash p) eqn:E; [done|]. rewrite <-E.
  apply (strings_Join_Split slash).
Qed.

(** ** Trimming text without spaces *)

Definition is_graphic (c : ascii) : bool := bool_decide (33 ≤ nat_of_ascii c ≤ 126).

Definition starts_graphic (s : string) : bool :=
  match s with EmptyString => true | String c _ => is_graphic c end.

Lemma trim_left_graphic runes fuel s :
  Forall (λ r, match r with EmptyString => False | String c _ => is_graphic c = false end) runes →
  starts_graphic s = true → trim_left_fuel runes fuel s = s.
Proof.
  intros Hr Hs. destruct fuel as [|fuel]; [done|]. simpl. unfold leading_space.
  destruct (filter (λ r, String.prefix r s = true) runes) as [|r l] eqn:E; [done|].
  assert (r ∈ filter (λ r, String.prefix r s = true) runes) as [[t ->]%prefix_spec Hin]%list_elem_of_filter
    by (rewrite E; constructor).
  rewrite Forall_forall in Hr. specialize (Hr r Hin). destruct r as [|c r]; [done|].
  rewrite append_cons in Hs. simpl in Hs. congruence.
Qed.

Lemma all_chars_rev p s : all_chars p (String.rev s) = all_chars p s.
Proof.
  unfold String.rev.
  assert (∀ a, all_chars p (String.rev_app s a) = all_chars p s && all_chars p a) as H.
  { induction s as [|c s IH]; intros a; [done|]. simpl. rewrite IH. simpl.
    by rewrite andb_assoc, (andb_comm _ (p c)). }
  by rewrite H, andb_true_r.
Qed.

Lemma string_rev_involutive s : String.rev (String.rev s) = s.
Proof.
  unfold String.rev. assert (∀ a b, String.rev_app (String.rev_app s a) b = String.rev_app a (s +:+ b)) as H.
  { induction s as [|c s IH]; intros a b; [done|]. simpl. rewrite IH. by rewrite append_cons. }
  rewrite H. apply append_nil_r.
Qed.

Lemma TrimSpace_graphic s :
  starts_graphic s = true → starts_graphic (String.rev s) = true → strings_TrimSpace s = s.
Proof.
  intros Hs Hr. unfold strings_TrimSpace, strings_TrimRightSpace, strings_TrimLeftSpace.
  rewrite (trim_left_graphic space_runes) by (done || by repeat constructor).
  rewrite trim_left_graphic by (done || by repeat constructor). apply string_rev_involutive.
Qed.

Lemma all_chars_starts p s : (∀ c, p c = true → is_graphic c = true) → all_chars p s = true → starts_graphic s = true.
Proof. intros Hp. destruct s as [|c s]; [done|]. simpl. intros [Hc _]%andb_true_iff. by apply Hp. Qed.
