(* ===== verification/GoValue.v ===== *)
(** * Dynamic values and their deep clones

    [any] is what the source stores in [map[string]any] option bags, install
    parameters and plugin metadata. Nil and empty maps are distinct values, as are
    nil and empty slices, since the clone functions turn one into the other. The
    clones exist three times in the source with the same text (the [workspace],
    [memory] and [manager] packages); the plugin packages have a depth-bounded
    variant. *)

From S2P Require Import Prelude.
From stdpp Require Import options.

(** The integer kinds of Go, told apart by type switches. *)
Inductive int_kind :=
| Kint | Kint8 | Kint16 | Kint32 | Kint64
| Kuint | Kuint8 | Kuint16 | Kuint32 | Kuint64.

#[export] Instance int_kind_eq_dec : EqDecision int_kind.
Proof. solve_decision. Defined.

(** A nil map is [None]; reading it is reading the empty map. *)
Abbreviation gomap V := (option (gmap string V)).

Inductive any : Type :=
| ANil
| ABool (b : bool)
| AString (s : string)
| AInt (k : int_kind) (n : Z)
| AFloat32 (bits : Z)
| AFloat64 (bits : Z)
| AMap (m : gomap any)
| ASlice (l : option (list any))
| AOther (type_name : string) (id : Z).

(** [m[k]] with its presence flag, and [len(m)], on a possibly nil map. *)
Definition gm_get {V} (m : gomap V) (k : string) : option V :=
  match m with None => None | Some g => g !! k end.
Definition gm_len {V} (m : gomap V) : nat :=
  match m with None => 0 | Some g => size g end.
Definition gm_map {V W} (f : V → W) (m : gomap V) : gomap W :=
  match m with
  | None => None
  | Some g => if decide (size g = 0) then None else Some (f <$> g)
  end.

(** Go ranges over a map in an unspecified order: [range] is the order of one
    execution, about which nothing is known but that every entry comes once. *)
Class MapRange := {
  range {V} : gmap string V → list (string * V);
  range_perm {V} (g : gmap string V) : range g ≡ₚ map_to_list g;
}.

(** The entries a range over a possibly nil map visits. *)
Definition range_ `{!MapRange} {V} (m : gomap V) : list (string * V) :=
  match m with None => [] | Some g => range g end.

(** The order in which stdpp lists a map, to run examples. *)
Definition canonical_range : MapRange :=
  {| range V g := map_to_list g; range_perm V g := reflexivity (map_to_list g) |}.

Lemma elem_of_range `{!MapRange} {V} (m : gomap V) k v :
  (k, v) ∈ range_ m ↔ gm_get m k = Some v.
Proof.
  destruct m as [g|]; simpl; [|split; [intros []%not_elem_of_nil|done]].
  rewrite range_perm. apply elem_of_map_to_list.
Qed.

(** ** Sizes, for induction through the nested maps and slices *)

Fixpoint any_depth (a : any) : nat :=
  match a with
  | AMap (Some g) => S (map_fold (λ _ v n, any_depth v `max` n) 0 g)
  | ASlice (Some l) => S (foldr (λ v n, any_depth v `max` n) 0 l)
  | _ => 0
  end.

Lemma any_depth_map g k v : g !! k = Some v → any_depth v < any_depth (AMap (Some g)).
Proof.
  intros Hk. simpl. apply Nat.lt_succ_r.
  revert v k Hk. apply (map_fold_weak_ind (λ n m, ∀ v k, m !! k = Some v → any_depth v ≤ n)).
  - done.
  - intros i x m n Hi IH v k. rewrite lookup_insert. case_decide; intros Hv.
    + simplify_eq. lia.
    + apply IH in Hv. lia.
Qed.

Lemma any_depth_slice (l : list any) v : v ∈ l → any_depth v < any_depth (ASlice (Some l)).
Proof. intros Hv. simpl. apply Nat.lt_succ_r. induction Hv; simpl; lia. Qed.

Lemma any_rect_depth (P : any → Prop) :
  P ANil → (∀ b, P (ABool b)) → (∀ s, P (AString s)) → (∀ k n, P (AInt k n)) →
  (∀ n, P (AFloat32 n)) → (∀ n, P (AFloat64 n)) → (∀ t n, P (AOther t n)) →
  P (AMap None) → P (ASlice None) →
  (∀ g, map_Forall (λ _, P) g → P (AMap (Some g))) →
  (∀ l, Forall P l → P (ASlice (Some l))) →
  ∀ a, P a.
Proof.
  intros ????????? HM HS a. remember (any_depth a) as n eqn:Hn. revert a Hn.
  induction (lt_wf n) as [n _ IH]. intros a ->.
  destruct a as [| | | | | |[g|]|[l|]|]; auto.
  - apply HM. intros k v Hk. eapply IH; [|done]. by eapply any_depth_map.
  - apply HS, Forall_forall. intros v Hv. eapply IH; [|done]. by apply any_depth_slice.
Qed.

(** ** Equality up to nil-versus-empty

    No reader of a value can tell a nil map from an empty one by lookups, length
    or iteration, nor a nil slice from an empty one; [any_eqv] is that coarser
    equality: same leaves, same keys with related values, related elements. *)

Inductive any_eqv : any → any → Prop :=
| eqv_leaf a : any_eqv a a
| eqv_map (m1 m2 : gomap any) :
    (∀ k, option_Forall2 any_eqv (gm_get m1 k) (gm_get m2 k)) →
    any_eqv (AMap m1) (AMap m2)
| eqv_slice (l1 l2 : option (list any)) :
    Forall2 any_eqv (default [] l1) (default [] l2) →
    any_eqv (ASlice l1) (ASlice l2).

#[export] Instance any_equiv : Equiv any := any_eqv.

(** ** Deep clones: [deepCloneAny] and [cloneMapAny]

    Source: workspace/clone.go, memory/workspace_repo.go, manager/types.go. *)

Fixpoint deepCloneAny (v : any) : any :=
  match v with
  | AMap None => AMap None
  | AMap (Some g) =>
      if decide (size g = 0) then AMap None else AMap (Some (deepCloneAny <$> g))
  | ASlice None => ASlice (Some [])
  | ASlice (Some l) => ASlice (Some (deepCloneAny <$> l))
  | _ => v
  end.

Definition cloneMapAny (m : gomap any) : gomap any := gm_map deepCloneAny m.

(** [cloneLabels]: strings are copied. *)
Definition cloneLabels (m : gomap string) : gomap string := gm_map (λ s, s) m.

Lemma gm_get_map {V W} (f : V → W) (m : gomap V) k :
  gm_get (gm_map f m) k = f <$> gm_get m k.
Proof.
  destruct m as [g|]; [|done]. unfold gm_map, gm_get. simpl.
  case_decide as Hg; simpl; [|by rewrite lookup_fmap].
  apply map_size_empty_iff in Hg as ->. by rewrite lookup_empty.
Qed.

Lemma gm_len_map {V W} (f : V → W) (m : gomap V) : gm_len (gm_map f m) = gm_len m.
Proof.
  destruct m as [g|]; [|done]. unfold gm_map, gm_len. simpl.
  case_decide; simpl; [done|]. by rewrite map_size_fmap.
Qed.

Lemma gm_map_nonempty {V W} (f : V → W) (m : gomap V) g :
  gm_map f m = Some g → g ≠ ∅.
Proof.
  unfold gm_map. destruct m as [g0|]; [|done]. case_decide as Hs; [done|].
  intros [= <-] He. apply fmap_empty_inv in He as ->. by rewrite map_size_empty in Hs.
Qed.

(** A map with no entries is nil after cloning, so two maps with the same lookups
    have the same clone. *)
Lemma gm_map_ext {V W} (f : V → W) (m1 m2 : gomap V) :
  (∀ k, f <$> gm_get m1 k = f <$> gm_get m2 k) → gm_map f m1 = gm_map f m2.
Proof.
  intros Hk.
  assert (∀ k, gm_get (gm_map f m1) k = gm_get (gm_map f m2) k) as Hk'.
  { intros k. by rewrite !gm_get_map. }
  destruct (gm_map f m1) as [g1|] eqn:E1, (gm_map f m2) as [g2|] eqn:E2; simpl in Hk'; try done.
  - f_equal. by apply map_eq.
  - by apply gm_map_nonempty in E1 as []; apply map_empty.
  - by apply gm_map_nonempty in E2 as []; apply map_empty.
Qed.

Lemma deepCloneAny_map m : deepCloneAny (AMap m) = AMap (gm_map deepCloneAny m).
Proof. destruct m as [g|]; [|done]. simpl. by case_decide. Qed.

Lemma deepCloneAny_slice l :
  deepCloneAny (ASlice l) = ASlice (Some (deepCloneAny <$> default [] l)).
Proof. by destruct l. Qed.

(** The clone is equal to the value, up to nil-versus-empty containers. *)
Lemma deepCloneAny_eqv v : any_eqv (deepCloneAny v) v.
Proof.
  induction v as [| | | | | | | | |g IH|l IH] using any_rect_depth; try by constructor.
  - rewrite deepCloneAny_map. constructor. intros k. rewrite gm_get_map. simpl.
    destruct (g !! k) as [v|] eqn:Hk; constructor. by apply (IH k).
  - rewrite deepCloneAny_slice. constructor. simpl. apply Forall2_fmap_l.
    by apply Forall_Forall2_diag.
Qed.

(** Equal-up-to-nil values have one and the same clone: the clone is canonical. *)
Lemma deepCloneAny_canonical v w : any_eqv v w → deepCloneAny v = deepCloneAny w.
Proof.
  revert w. induction v as [| | | | | | | | |g IH|l IH] using any_rect_depth; intros w Hab;
    inversion Hab as [|m1 m2 Hm|l1 l2 Hl]; subst; try done;
    rewrite ?deepCloneAny_map, ?deepCloneAny_slice; f_equal.
  - apply gm_map_ext. intros k. specialize (Hm k).
    destruct (gm_get m2 k); [by inversion Hm|done].
  - simpl in Hl. inversion Hl as [E|]. by destruct (default [] l2).
  - apply gm_map_ext. intros k. specialize (Hm k). simpl in *.
    destruct (g !! k) as [x|] eqn:Hx, (gm_get m2 k) as [y|]; inversion Hm; subst; [|done].
    simpl. f_equal. by eapply IH.
  - f_equal. simpl in *. clear Hab. revert Hl. generalize (default [] l2). intros l2' Hl.
    induction Hl as [|x y l1 l2'' Hxy _ IHl]; [done|].
    apply Forall_cons in IH as [IHx IHl']. simpl. f_equal; auto.
Qed.

#[export] Instance any_eqv_equivalence : Equivalence any_eqv.
Proof.
  split.
  - intros a. constructor.
  - intros v. induction v as [| | | | | | | | |g IH|l IH] using any_rect_depth; intros w Hab;
      inversion Hab as [|m1 m2 Hm|l1 l2 Hl]; subst; try by constructor.
    + constructor. intros k. specialize (Hm k). simpl in *.
      destruct (gm_get m2 k); [by inversion Hm | constructor].
    + constructor. simpl in Hl. by inversion Hl.
    + constructor. intros k. specialize (Hm k). simpl in *.
      destruct (g !! k) as [x|] eqn:Hx, (gm_get m2 k) as [y|]; inversion Hm; subst; constructor.
      by eapply (IH k).
    + constructor. simpl in *. clear Hab. induction Hl; constructor; decompose_Forall; auto.
  - intros v. induction v as [| | | | | | | | |g IH|l IH] using any_rect_depth; intros w u Hab Hbc;
      inversion Hab as [|m1 m2 Hm|l1 l2 Hl]; subst; try done;
      inversion Hbc as [|m2' m3 Hm'|l2' l3 Hl']; subst; try done; constructor.
    + intros k. specialize (Hm k). specialize (Hm' k). simpl in *.
      destruct (gm_get m2 k); [by inversion Hm | done].
    + simpl in Hl. by destruct (default [] l2); [|inversion Hl].
    + intros k. specialize (Hm k). specialize (Hm' k). simpl in *.
      destruct (g !! k) as [x|] eqn:Hx, (gm_get m2 k) as [y|]; inversion Hm; subst;
        [|done]. inversion Hm'; subst. constructor. by eapply (IH k).
    + simpl in *. clear Hab Hbc. revert Hl'. generalize (default [] l3). intros l3'.
      revert l3'. induction Hl as [|x y l1 l2'' Hxy _ IHl]; intros l3' Hl'.
      * by inversion Hl'.
      * inversion Hl'; subst. apply Forall_cons in IH as [??]. constructor; eauto.
Qed.

Lemma deepCloneAny_idemp v : deepCloneAny (deepCloneAny v) = deepCloneAny v.
Proof. apply deepCloneAny_canonical, deepCloneAny_eqv. Qed.

Lemma cloneMapAny_idemp m : cloneMapAny (cloneMapAny m) = cloneMapAny m.
Proof.
  destruct m as [g|]; [|done]. unfold cloneMapAny, gm_map. simpl.
  case_decide; simpl; [done|]. rewrite decide_False by (by rewrite map_size_fmap).
  f_equal. apply map_eq. intros k. rewrite !lookup_fmap.
  destruct (g !! k); [|done]. simpl. by rewrite deepCloneAny_idemp.
Qed.

Lemma cloneLabels_idemp m : cloneLabels (cloneLabels m) = cloneLabels m.
Proof.
  destruct m as [g|]; [|done]. unfold cloneLabels, gm_map. simpl.
  case_decide; simpl; [done|]. rewrite decide_False by (by rewrite map_size_fmap).
  by rewrite <-map_fmap_compose.
Qed.

Lemma cloneLabels_get m k : gm_get (cloneLabels m) k = gm_get m k.
Proof. unfold cloneLabels. rewrite gm_get_map. by destruct (gm_get m k). Qed.

#[export] Instance deepCloneAny_proper : Proper ((≡) ==> (=)) deepCloneAny.
Proof. intros a b Hab. by apply deepCloneAny_canonical. Qed.

#[export] Hint Rewrite @gm_get_map @gm_len_map cloneMapAny_idemp cloneLabels_idemp
  cloneLabels_get deepCloneAny_idemp : ana_rw.
#[export] Hint Resolve deepCloneAny_eqv : ana.
