(* ===== verification/Base64.v ===== *)
(** * [base64.RawStdEncoding]

    The encoding the workspace repository's list cursors use: three bytes become
    four sextets of the standard alphabet, a shorter last group is written without
    padding. Decoding skips carriage returns and line feeds, rejects bytes outside
    the alphabet and a dangling single sextet, and ignores the unused trailing bits
    of a short group, as Go's non-strict decoder does. *)

From S2P Require Import Prelude GoString.
From Stdlib Require Import Ascii.
From stdpp Require Import options.

Definition sextet_char (n : N) : ascii :=
  ascii_of_N (if decide (n < 26) then 65 + n
              else if decide (n < 52) then 71 + n
              else if decide (n < 62) then n - 4
              else if decide (n = 62) then 43 else 47)%N.

Definition char_sextet (c : ascii) : option N :=
  (let n := N_of_ascii c in
   if decide (65 ≤ n ≤ 90) then Some (n - 65)
   else if decide (97 ≤ n ≤ 122) then Some (n - 71)
   else if decide (48 ≤ n ≤ 57) then Some (n + 4)
   else if decide (n = 43) then Some 62
   else if decide (n = 47) then Some 63 else None)%N.

Fixpoint to_sextets (l : list N) : list N :=
  match l with
  | a :: b :: c :: l' =>
      (a / 4 :: (a mod 4) * 16 + b / 16 :: (b mod 16) * 4 + c / 64 :: c mod 64
       :: to_sextets l')%N
  | [a; b] => [a / 4; (a mod 4) * 16 + b / 16; (b mod 16) * 4]%N
  | [a] => [a / 4; (a mod 4) * 16]%N
  | [] => []
  end.

Fixpoint of_sextets (l : list N) : option (list N) :=
  match l with
  | w :: x :: y :: z :: l' =>
      r ← of_sextets l';
      Some (w * 4 + x / 16 :: (x mod 16) * 16 + y / 4 :: (y mod 4) * 64 + z :: r)%N
  | [w; x; y] => Some [w * 4 + x / 16; (x mod 16) * 16 + y / 4]%N
  | [w; x] => Some [w * 4 + x / 16]%N
  | [_] => None
  | [] => Some []
  end.

Definition base64_encode (s : string) : string :=
  String.string_of_list_ascii
    (sextet_char <$> to_sextets (N_of_ascii <$> String.list_ascii_of_string s)).

Definition is_newline (c : ascii) : Prop := c = "010"%char ∨ c = "013"%char.

Definition base64_decode (s : string) : option string :=
  six ← mapM char_sextet (filter (λ c, ¬ is_newline c) (String.list_ascii_of_string s));
  bytes ← of_sextets six;
  Some (String.string_of_list_ascii (ascii_of_N <$> bytes)).

Example encode_ex : base64_encode "hello" = "aGVsbG8".
Proof. vm_compute. reflexivity. Qed.

Example decode_ex : base64_decode "aGVsbG8" = Some "hello".
Proof. vm_compute. reflexivity. Qed.

Ltac N_div := zify; Z.to_euclidean_division_equations; lia.

(** Three-step induction, matching the grouping of the encoder. *)
Lemma list_ind3 {A} (P : list A → Prop) :
  P [] → (∀ a, P [a]) → (∀ a b, P [a; b]) →
  (∀ a b c l, P l → P (a :: b :: c :: l)) → ∀ l, P l.
Proof.
  intros H0 H1 H2 H3 l. remember (length l) as n eqn:Hn. revert l Hn.
  induction (lt_wf n) as [n _ IH]. intros [|a [|b [|c l]]] ->; auto.
  apply H3. eapply IH; [|done]. simpl. lia.
Qed.

Lemma of_to_sextets l : Forall (λ a, a < 256)%N l → of_sextets (to_sextets l) = Some l.
Proof.
  induction l as [|a|a b|a b c l IH] using list_ind3; intros Hl; decompose_Forall; simpl.
  - done.
  - do 2 f_equal. N_div.
  - f_equal. f_equal; [N_div|]. f_equal. N_div.
  - rewrite IH by done. simpl. f_equal. f_equal; [N_div|]. f_equal; [N_div|]. f_equal. N_div.
Qed.

Lemma to_sextets_bound l :
  Forall (λ a, a < 256)%N l → Forall (λ a, a < 64)%N (to_sextets l).
Proof.
  induction l as [|a|a b|a b c l IH] using list_ind3; intros Hl; decompose_Forall; simpl;
    repeat constructor; auto; N_div.
Qed.

Lemma char_sextet_char n : (n < 64)%N → char_sextet (sextet_char n) = Some n.
Proof.
  intros Hn.
  assert (forallb (λ k, bool_decide (char_sextet (sextet_char (N.of_nat k)) = Some (N.of_nat k)))
            (seq 0 64) = true) as Hall by (vm_compute; reflexivity).
  rewrite forallb_forall in Hall. specialize (Hall (N.to_nat n)).
  rewrite N2Nat.id in Hall. eapply bool_decide_eq_true_1, Hall, in_seq. lia.
Qed.

Lemma sextet_char_newline n : (n < 64)%N → ¬ is_newline (sextet_char n).
Proof.
  intros Hn [E|E]; apply char_sextet_char in Hn; rewrite E in Hn; vm_compute in Hn; done.
Qed.

Lemma ascii_bytes_bound l : Forall (λ a, a < 256)%N (N_of_ascii <$> l).
Proof. apply Forall_fmap, Forall_true. intros c. apply N_ascii_bounded. Qed.

(** Decoding an encoded string gives it back. *)
Lemma base64_decode_encode s : base64_decode (base64_encode s) = Some s.
Proof.
  unfold base64_decode, base64_encode. rewrite String.list_ascii_of_string_of_list_ascii.
  pose proof (ascii_bytes_bound (String.list_ascii_of_string s)) as Hb.
  pose proof (to_sextets_bound _ Hb) as Hs.
  rewrite filter_all.
  2: { apply Forall_fmap. eapply Forall_impl; [done|]. intros n Hn. by apply sextet_char_newline. }
  assert (mapM char_sextet (sextet_char <$> to_sextets (N_of_ascii <$> String.list_ascii_of_string s))
          = Some (to_sextets (N_of_ascii <$> String.list_ascii_of_string s))) as ->.
  { apply mapM_Some. revert Hs. generalize (to_sextets (N_of_ascii <$> String.list_ascii_of_string s)).
    intros l Hl. apply Forall2_fmap_l, Forall_Forall2_diag.
    eapply Forall_impl; [done|]. intros n Hn. by apply char_sextet_char. }
  simpl. rewrite of_to_sextets by done. simpl. f_equal.
  rewrite <-list_fmap_compose, (list_fmap_ext _ id), list_fmap_id.
  - apply String.string_of_list_ascii_of_string.
  - intros i c _. apply ascii_N_embedding.
Qed.

Lemma base64_encode_nonempty s : s ≠ "" → base64_encode s ≠ "".
Proof. by destruct s as [|a [|b [|c s]]]. Qed.

#[export] Hint Rewrite base64_decode_encode : ana_rw.
#[export] Hint Resolve base64_encode_nonempty : ana.
