(* ===== verification/Sha256.v ===== *)
(** * SHA-256 and hexadecimal encoding (Go's crypto/sha256 and encoding/hex)

    The standard library functions behind the plugin content hash, on byte strings,
    with 32-bit words as integers modulo [2 ^ 32]. *)

From S2P Require Import Prelude GoString GoError.
From Stdlib Require Import Ascii.
From stdpp Require Import options.

Local Open Scope Z_scope.

Definition w32 (x : Z) : Z := Z.land x 0xffffffff.
Definition add32 (x y : Z) : Z := w32 (x + y).
Definition rotr (n x : Z) : Z := Z.lor (Z.shiftr x n) (w32 (Z.shiftl x (32 - n))).
Definition xor3 (a b c : Z) : Z := Z.lxor a (Z.lxor b c).
Definition big_sigma0 (x : Z) : Z := xor3 (rotr 2 x) (rotr 13 x) (rotr 22 x).
Definition big_sigma1 (x : Z) : Z := xor3 (rotr 6 x) (rotr 11 x) (rotr 25 x).
Definition small_sigma0 (x : Z) : Z := xor3 (rotr 7 x) (rotr 18 x) (Z.shiftr x 3).
Definition small_sigma1 (x : Z) : Z := xor3 (rotr 17 x) (rotr 19 x) (Z.shiftr x 10).
Definition ch (x y z : Z) : Z := Z.lxor (Z.land x y) (Z.land (Z.lxor x 0xffffffff) z).
Definition maj (x y z : Z) : Z := xor3 (Z.land x y) (Z.land x z) (Z.land y z).

(** The constants of the standard: the first 32 bits of the fractional parts of the
    cube roots of the first 64 primes, and of the square roots of the first 8. *)
Definition prime (n : Z) : bool :=
  (2 <=? n) && forallb (λ d, negb (n mod d =? 0)) (seqZ 2 (n - 2)).

Definition primes (count : nat) : list Z := take count (filter (λ n, prime n = true) (seqZ 2 311)).

(** The largest [r < 2 ^ bits] with [r * r * r <= n], bit by bit from the top. *)
Fixpoint cbrt (bits : nat) (n r : Z) : Z :=
  match bits with
  | O => r
  | S k => let r' := r + 2 ^ Z.of_nat k in cbrt k n (if r' * r' * r' <=? n then r' else r)
  end.

Definition round_constants : list Z :=
  Eval vm_compute in (λ p, w32 (cbrt 36 (p * 2 ^ 96) 0)) <$> primes 64.

Definition initial_hash : list Z :=
  Eval vm_compute in (λ p, w32 (Z.sqrt (p * 2 ^ 64))) <$> primes 8.

(** [n] in big-endian base 256, [k] digits. *)
Fixpoint be_bytes (k : nat) (n : Z) : list Z :=
  match k with
  | O => []
  | S k' => be_bytes k' (Z.shiftr n 8) ++ [Z.land n 255]
  end.

(** The message, a one bit, zeros up to 56 modulo 64, and the length in bits. *)
Definition pad (msg : list Z) : list Z :=
  let len := Z.of_nat (length msg) in
  msg ++ 128 :: replicate (Z.to_nat ((55 - len) mod 64)) 0 ++ be_bytes 8 (8 * len).

Fixpoint words (bytes : list Z) : list Z :=
  match bytes with
  | a :: b :: c :: d :: rest =>
      Z.lor (Z.shiftl a 24) (Z.lor (Z.shiftl b 16) (Z.lor (Z.shiftl c 8) d)) :: words rest
  | _ => []
  end.

(** The message schedule, last word first. *)
Fixpoint extend (n : nat) (w : list Z) : list Z :=
  match n with
  | O => w
  | S n' =>
      let at_ i := nth i w 0 in
      extend n' (w32 (small_sigma1 (at_ 1%nat) + at_ 6%nat + small_sigma0 (at_ 14%nat) + at_ 15%nat) :: w)
  end.

Definition round (st : list Z) (kw : Z * Z) : list Z :=
  match st with
  | [a; b; c; d; e; f; g; h] =>
      let t1 := w32 (h + big_sigma1 e + ch e f g + kw.1 + kw.2) in
      let t2 := w32 (big_sigma0 a + maj a b c) in
      [add32 t1 t2; a; b; c; add32 d t1; e; f; g]
  | _ => st
  end.

Definition compress (h : list Z) (block : list Z) : list Z :=
  let schedule := rev (extend 48 (rev (words block))) in
  zip_with add32 h (fold_left round (zip round_constants schedule) h).

Fixpoint blocks (fuel : nat) (bytes : list Z) : list (list Z) :=
  match fuel with
  | O => []
  | S fuel' => match bytes with
               | [] => []
               | _ => take 64 bytes :: blocks fuel' (drop 64 bytes)
               end
  end.

Definition bytes_Z (s : string) : list Z := (λ c, Z.of_nat (nat_of_ascii c)) <$> String.list_ascii_of_string s.

(** [sha256.Sum256], one byte per element. *)
Definition sha256 (s : string) : list Z :=
  let p := pad (bytes_Z s) in
  (fold_left compress (blocks (S (length p / 64)) p) initial_hash) ≫= be_bytes 4.

(** [hex.EncodeToString] *)
Definition hex_encode (l : list Z) : string :=
  String.string_of_list_ascii
    (l ≫= λ b, [hex_digit (Z.to_nat (Z.shiftr b 4)); hex_digit (Z.to_nat (Z.land b 15))]).

Example sha256_empty : hex_encode (sha256 "") =
  "e3b0c44298fc1c149afbf4c8996fb92427ae41e4649b934ca495991b7852b855".
Proof. vm_compute. reflexivity. Qed.

Example sha256_abc : hex_encode (sha256 "abc") =
  "ba7816bf8f01cfea414140de5dae2223b00361a396177a9cb410ff61f20015ad".
Proof. vm_compute. reflexivity. Qed.

Example sha256_two_blocks :
  hex_encode (sha256 "abcdbcdecdefdefgefghfghighijhijkijkljklmklmnlmnomnopnopq") =
  "248d6a61d20638b8e5c026930c3e6039a33ce45964ff2167f6ecedd419db06c1".
Proof. vm_compute. reflexivity. Qed.

Lemma compress_length h block : length h = 8%nat → length (compress h block) = 8%nat.
Proof.
  intros Hh. unfold compress. set (l := zip _ _). generalize l. clear l. intros l.
  assert (∀ st, length st = 8%nat → length (fold_left round l st) = 8%nat) as Hl.
  { induction l as [|kw l IH]; [done|]. intros st Hst. simpl. apply IH.
    destruct st as [|? [|? [|? [|? [|? [|? [|? [|? []]]]]]]]]; done. }
  rewrite length_zip_with. rewrite Hl by done. by rewrite Hh.
Qed.

(** A digest is 32 bytes, so its hexadecimal form is 64 characters. *)
Lemma sha256_length s : length (sha256 s) = 32%nat.
Proof.
  unfold sha256. set (bs := blocks _ _). generalize bs. clear bs. intros bs.
  assert (∀ h, length h = 8%nat → length (fold_left compress bs h) = 8%nat) as Hb.
  { induction bs as [|b bs IH]; [done|]. intros h Hh. simpl. apply IH. by apply compress_length. }
  specialize (Hb initial_hash eq_refl). revert Hb. generalize (fold_left compress bs initial_hash).
  intros l Hl. destruct l as [|? [|? [|? [|? [|? [|? [|? [|? []]]]]]]]]; done.
Qed.

(** A digest is made of bytes. *)
Lemma be_bytes_range k n : Forall (λ b, 0 ≤ b < 256)%Z (be_bytes k n).
Proof.
  revert n. induction k as [|k IH]; intros n; [constructor|]. cbn [be_bytes]. apply Forall_app. split; [apply IH|].
  constructor; [|constructor]. change 255%Z with (Z.ones 8). rewrite Z.land_ones by lia. apply Z.mod_pos_bound. lia.
Qed.

Lemma sha256_bytes s : Forall (λ b, 0 ≤ b < 256)%Z (sha256 s).
Proof. unfold sha256. apply Forall_bind, Forall_forall. intros x _. apply be_bytes_range. Qed.
