(* ===== verification/WorkspaceTypes.v ===== *)
(** * The workspace data model (pkg/manager/workspace/types.go, pkg/manager/agent/types.go)

    Rows, list options, statuses, writers and the error sentinels of the packages,
    and the package's [cloneWorkspace]. Times are nanoseconds since Go's zero time,
    so [time.Time{}] is 0; identifiers are strings. *)

From S2P Require Import Prelude GoString GoError GoValue.
From stdpp Require Import options.

Abbreviation Time := Z (only parsing).
Abbreviation WorkspaceID := string (only parsing).
Abbreviation PluginID := string (only parsing).
Abbreviation Namespace := string (only parsing).
Abbreviation Alias := string (only parsing).
Abbreviation AgentType := string (only parsing).
Abbreviation InfraType := string (only parsing).

(** [Status] is a string type in Go: a value outside the three constants can be
    passed to the repository, which rejects it. *)
Abbreviation Status := string (only parsing).
Definition StatusInit : Status := "init".
Definition StatusHealthy : Status := "healthy".
Definition StatusFailed : Status := "failed".

Abbreviation StatusWriter := string (only parsing).
Definition StatusWriterController : StatusWriter := "controller".
Definition StatusWriterScheduler : StatusWriter := "scheduler".

(** [agent.WorkspaceError] *)
Record WorkspaceError := {
  we_Code : string;
  we_Message : string;
  we_Phase : string;
  we_RecordedAt : Time;
}.

Record AttachedPlugin := {
  ap_PluginID : PluginID;
  ap_Name : string;
  ap_ContentHash : string;
  ap_PlacedPaths : list string;
}.

Record Workspace := {
  w_ID : WorkspaceID;
  w_Namespace : Namespace;
  w_Alias : Alias;
  w_AgentType : AgentType;
  w_InfraType : InfraType;
  w_InfraOptions : gomap any;
  w_InstallParams : gomap any;
  w_Plugins : list AttachedPlugin;
  w_Status : Status;
  w_StatusError : option WorkspaceError;
  w_Description : string;
  w_Labels : gomap string;
  w_LastProbeAt : Time;
  w_CreatedAt : Time;
  w_UpdatedAt : Time;
}.

Record ListOptions := {
  lo_Namespace : Namespace;
  lo_AgentType : AgentType;
  lo_InfraType : InfraType;
  lo_Status : Status;
  lo_Labels : gomap string;
  lo_Limit : Z;
  lo_Cursor : string;
}.

(** The fields of a status write: what [UpdateStatus] and [UpdateStatusCAS] set. *)
Definition set_status (w : Workspace) (status : Status) (lastProbeAt updatedAt : Time)
    (statusError : option WorkspaceError) : Workspace := {|
  w_ID := w_ID w; w_Namespace := w_Namespace w; w_Alias := w_Alias w;
  w_AgentType := w_AgentType w; w_InfraType := w_InfraType w;
  w_InfraOptions := w_InfraOptions w; w_InstallParams := w_InstallParams w;
  w_Plugins := w_Plugins w; w_Status := status; w_StatusError := statusError;
  w_Description := w_Description w; w_Labels := w_Labels w;
  w_LastProbeAt := lastProbeAt; w_CreatedAt := w_CreatedAt w; w_UpdatedAt := updatedAt |}.

(** [w.Plugins = ps; w.UpdatedAt = t] *)
Definition set_plugins (w : Workspace) (ps : list AttachedPlugin) (t : Time) : Workspace := {|
  w_ID := w_ID w; w_Namespace := w_Namespace w; w_Alias := w_Alias w;
  w_AgentType := w_AgentType w; w_InfraType := w_InfraType w;
  w_InfraOptions := w_InfraOptions w; w_InstallParams := w_InstallParams w;
  w_Plugins := ps; w_Status := w_Status w; w_StatusError := w_StatusError w;
  w_Description := w_Description w; w_Labels := w_Labels w;
  w_LastProbeAt := w_LastProbeAt w; w_CreatedAt := w_CreatedAt w; w_UpdatedAt := t |}.

(** ** Clones

    A cloned row is a fresh row with the same contents; nested maps are cloned with
    the functions of [GoValue], lists and structs are copied element by element. *)

Definition cloneError (e : option WorkspaceError) : option WorkspaceError :=
  match e with
  | None => None
  | Some e => Some {| we_Code := we_Code e; we_Message := we_Message e;
                      we_Phase := we_Phase e; we_RecordedAt := we_RecordedAt e |}
  end.

Definition cloneAttachedPlugins (l : list AttachedPlugin) : list AttachedPlugin :=
  match l with
  | [] => []
  | _ => (λ p, {| ap_PluginID := ap_PluginID p; ap_Name := ap_Name p;
                  ap_ContentHash := ap_ContentHash p; ap_PlacedPaths := ap_PlacedPaths p |}) <$> l
  end.

Definition cloneOptions (m : gomap any) : gomap any := cloneMapAny m.

Definition cloneWorkspace (w : Workspace) : Workspace := {|
  w_ID := w_ID w; w_Namespace := w_Namespace w; w_Alias := w_Alias w;
  w_AgentType := w_AgentType w; w_InfraType := w_InfraType w;
  w_InfraOptions := cloneOptions (w_InfraOptions w);
  w_InstallParams := cloneMapAny (w_InstallParams w);
  w_Plugins := cloneAttachedPlugins (w_Plugins w);
  w_Status := w_Status w;
  w_StatusError := cloneError (w_StatusError w);
  w_Description := w_Description w;
  w_Labels := cloneLabels (w_Labels w);
  w_LastProbeAt := w_LastProbeAt w; w_CreatedAt := w_CreatedAt w; w_UpdatedAt := w_UpdatedAt w |}.

Lemma cloneError_id e : cloneError e = e.
Proof. by destruct e as [[]|]. Qed.

Lemma cloneAttachedPlugins_id l : cloneAttachedPlugins l = l.
Proof.
  destruct l as [|p l]; [done|]. unfold cloneAttachedPlugins.
  rewrite (list_fmap_ext _ id), list_fmap_id; [done|]. by intros i [].
Qed.

Lemma cloneWorkspace_idemp w : cloneWorkspace (cloneWorkspace w) = cloneWorkspace w.
Proof.
  unfold cloneWorkspace, cloneOptions. simpl.
  by rewrite !cloneMapAny_idemp, cloneLabels_idemp, !cloneAttachedPlugins_id, !cloneError_id.
Qed.

#[export] Hint Rewrite cloneError_id cloneAttachedPlugins_id cloneWorkspace_idemp : ana_rw.

(** ** Sentinels *)

Definition ErrWorkspaceNotFound := ENew "workspace: workspace not found".
Definition ErrPluginContentHashMismatch := ENew "workspace: plugin content hash mismatch".
Definition ErrAliasConflict := ENew "workspace: alias conflict".
Definition ErrInvalidStatusTransition := ENew "workspace: invalid status transition".
Definition ErrStatusPreconditionFailed := ENew "workspace: status precondition failed".
Definition ErrInstallTimeout := ENew "workspace: install timeout".
Definition ErrControllerShutdown := ENew "workspace: controller shutdown".
Definition ErrSchedulerShutdown := ENew "workspace: scheduler shutdown".
