(* ===== verification/Paging.v ===== *)
(** * Cursor pagination: the interface between the repositories and their callers

    Both repositories list rows in pages: a page request carries a limit and an
    opaque cursor, the answer a slice of rows and the cursor of the next page,
    empty when there is none. [Paged] is the operation, [PagedLaws] what a
    repository promises: there is one enumeration of the matching rows, and cursors
    denote positions in it. [drain], the loop the callers run, is proved to return
    that enumeration against the promise alone; [WorkspaceRepo] and [PluginRepo]
    discharge it. *)

From S2P Require Import Prelude GoString GoError.
From stdpp Require Import options.

Class Paged (S O R : Type) :=
  page : S → O → Z → string → result (list R * string).

Class PagedLaws (S O R : Type) `{!Paged S O R} := {
  pg_valid : S → Prop;
  pg_enum : S → O → list R;
  pg_pos : S → O → nat → string → Prop;
  pg_start s o : pg_valid s → pg_pos s o 0 "";
  pg_page s o n c lim :
    pg_valid s → (0 < lim)%Z → pg_pos s o n c →
    ∃ next, page s o lim c = Ok (take (Z.to_nat lim) (drop n (pg_enum s o)), next) ∧
      if decide (n + Z.to_nat lim < length (pg_enum s o))
      then next ≠ "" ∧ pg_pos s o (n + Z.to_nat lim) next
      else next = "";
}.

Section drain.
Context {S O R : Type} `{!Paged S O R}.

(** The loop [for { page, next, err := List(...); ...; if next == "" { return }; cursor = next }].
    [None] is running out of fuel. *)
Fixpoint drain (fuel : nat) (s : S) (o : O) (lim : Z) (cursor : string) (rows : list R)
    : option (result (list R)) :=
  match fuel with
  | 0 => None
  | Datatypes.S fuel' =>
      match page s o lim cursor with
      | Err e => Some (Err e)
      | Ok (pg, next) =>
          if decide (next = "") then Some (Ok (rows ++ pg))
          else drain fuel' s o lim next (rows ++ pg)
      end
  end.

Context `{!PagedLaws S O R}.

Lemma drain_from fuel s o lim n c rows :
  pg_valid s → (0 < lim)%Z → pg_pos s o n c →
  length (pg_enum s o) - n < fuel →
  drain fuel s o lim c rows = Some (Ok (rows ++ drop n (pg_enum s o))).
Proof.
  intros Hv Hlim. revert n c rows.
  induction fuel as [|fuel IH]; intros n c rows Hpos Hfuel; [lia|]. simpl.
  destruct (pg_page s o n c lim Hv Hlim Hpos) as (next & -> & Hnext).
  case_decide as Hmore.
  - destruct Hnext as [Hne Hpos']. rewrite decide_False by done.
    rewrite (IH (n + Z.to_nat lim)) by (done || lia).
    rewrite <-(assoc_L (++)). do 3 f_equal. rewrite <-drop_drop. apply take_drop.
  - subst. rewrite decide_True by done. do 3 f_equal.
    apply take_ge. rewrite length_drop. lia.
Qed.

(** One more unit of fuel than there are rows is enough, whatever the limit. *)
Lemma drain_complete fuel s o lim :
  pg_valid s → (0 < lim)%Z → length (pg_enum s o) < fuel →
  drain fuel s o lim "" [] = Some (Ok (pg_enum s o)).
Proof.
  intros Hv Hlim Hfuel. rewrite (drain_from _ _ _ _ 0); [done|done|done| |lia].
  by apply pg_start.
Qed.
End drain.
