(* ===== verification/WorkspaceRepo.v ===== *)
(** * The in-memory workspace repository (pkg/storage/memory/workspace_repo.go)

    Each method runs from start to end under the repository's mutex, so it is one
    atomic function of the state: readers return a result, writers a result and the
    new state. [time.Now()] is an argument. [repo_inv] is the invariant tying the
    two maps together; [WorkspaceListing] discharges the pagination interface. *)

From S2P Require Import Prelude GoString GoError GoValue Base64 WorkspaceTypes Paging.
From Stdlib Require Import Ascii.
From stdpp Require Import options.

Module WorkspaceRepository.

(** ** State *)

Record repo := {
  byID : gmap WorkspaceID Workspace;
  idByAliasKey : gmap (Namespace * Alias) WorkspaceID;
  closed : bool;
}.

Definition NewWorkspaceRepository : repo :=
  {| byID := ∅; idByAliasKey := ∅; closed := false |}.

Definition errRepositoryClosed : error := Errorf "workspace: repository closed".

Definition workspaceAliasKey (namespace : Namespace) (alias : Alias) : Namespace * Alias :=
  (namespace, alias).

(** [r.byID[id] = row] *)
Definition put_row (id : WorkspaceID) (row : Workspace) (r : repo) : repo :=
  {| byID := <[id := row]> (byID r); idByAliasKey := idByAliasKey r; closed := closed r |}.

(** ** Clones: the package's own copies of the clone helpers *)

Definition cloneWorkspace (w : Workspace) : Workspace := {|
  w_ID := w_ID w; w_Namespace := w_Namespace w; w_Alias := w_Alias w;
  w_AgentType := w_AgentType w; w_InfraType := w_InfraType w;
  w_InfraOptions := cloneMapAny (w_InfraOptions w);
  w_InstallParams := cloneMapAny (w_InstallParams w);
  w_Plugins := cloneAttachedPlugins (w_Plugins w);
  w_Status := w_Status w;
  w_StatusError := cloneError (w_StatusError w);
  w_Description := w_Description w;
  w_Labels := cloneLabels (w_Labels w);
  w_LastProbeAt := w_LastProbeAt w; w_CreatedAt := w_CreatedAt w; w_UpdatedAt := w_UpdatedAt w |}.

Lemma row_clone_idemp w : cloneWorkspace (cloneWorkspace w) = cloneWorkspace w.
Proof. apply WorkspaceTypes.cloneWorkspace_idemp. Qed.

(** ** Validation *)

Definition validateKnownStatus (status : Status) : result unit :=
  if decide (status = StatusInit ∨ status = StatusHealthy ∨ status = StatusFailed) then Ok ()
  else Err (Errorf_w "" ErrInvalidStatusTransition (": unknown status " +:+ strconv_Quote status)).

Definition validateStatusTransition (from to : Status) : result unit :=
  if decide (from = StatusInit ∧ to = StatusInit) then Ok ()
  else if decide (from = StatusInit ∧ (to = StatusHealthy ∨ to = StatusFailed)) then Ok ()
  else if decide (from = StatusHealthy ∧ to = StatusFailed) then Ok ()
  else if decide (from = StatusFailed ∧ to = StatusHealthy) then Ok ()
  else Err (Errorf_w "" ErrInvalidStatusTransition
              (": " +:+ strconv_Quote from +:+ " -> " +:+ strconv_Quote to)).

Definition validateTransitionByWriter (writer : StatusWriter) (from to : Status) : result unit :=
  if decide (writer = StatusWriterController ∧
             from = StatusInit ∧ (to = StatusHealthy ∨ to = StatusFailed)) then Ok ()
  else if decide (writer = StatusWriterScheduler ∧ from = StatusInit ∧ to = StatusFailed) then Ok ()
  else if decide (writer = StatusWriterScheduler ∧ from = StatusHealthy ∧ to = StatusFailed) then Ok ()
  else if decide (writer = StatusWriterScheduler ∧ from = StatusFailed ∧ to = StatusHealthy) then Ok ()
  else Err (Errorf_w "" ErrInvalidStatusTransition
              (": writer=" +:+ strconv_Quote writer +:+ " " +:+ strconv_Quote from +:+ "->" +:+
               strconv_Quote to)).

Definition validateImmutableFields (existing updated : Workspace) : result unit :=
  let immutable field := Err (Errorf ("workspace update " +:+ strconv_Quote (w_ID existing) +:+
                                      ": " +:+ field +:+ " is immutable")) in
  if decide (w_Namespace existing ≠ w_Namespace updated) then immutable "namespace"
  else if decide (w_Alias existing ≠ w_Alias updated) then immutable "alias"
  else if decide (w_AgentType existing ≠ w_AgentType updated) then immutable "agent_type"
  else if decide (w_InfraType existing ≠ w_InfraType updated) then immutable "infra_type"
  else Ok ().

(** ** Operations *)

Definition Insert (w : Workspace) (r : repo) : result unit * repo :=
  if closed r then (Err errRepositoryClosed, r) else
  match byID r !! w_ID w with
  | Some _ => (Err (Errorf ("workspace insert " +:+ strconv_Quote (w_ID w) +:+ ": duplicate id")), r)
  | None =>
    match validateKnownStatus (w_Status w) with
    | Err e => (Err e, r)
    | Ok _ =>
      let aliasKey := workspaceAliasKey (w_Namespace w) (w_Alias w) in
      match idByAliasKey r !! aliasKey with
      | Some _ => (Err ErrAliasConflict, r)
      | None => (Ok (), {| byID := <[w_ID w := cloneWorkspace w]> (byID r);
                           idByAliasKey := <[aliasKey := w_ID w]> (idByAliasKey r);
                           closed := closed r |})
      end
    end
  end.

Definition Get (id : WorkspaceID) (r : repo) : result Workspace :=
  if closed r then Err errRepositoryClosed else
  match byID r !! id with
  | None => Err ErrWorkspaceNotFound
  | Some row => Ok (cloneWorkspace row)
  end.

(** The Go zero value of the row type, which a map read of an absent key yields. *)
Definition zero_row : Workspace := {|
  w_ID := ""; w_Namespace := ""; w_Alias := ""; w_AgentType := ""; w_InfraType := "";
  w_InfraOptions := None; w_InstallParams := None; w_Plugins := []; w_Status := "";
  w_StatusError := None; w_Description := ""; w_Labels := None;
  w_LastProbeAt := 0; w_CreatedAt := 0; w_UpdatedAt := 0 |}%Z.

Definition GetByAlias (namespace : Namespace) (alias : Alias) (r : repo) : result Workspace :=
  if closed r then Err errRepositoryClosed else
  match idByAliasKey r !! workspaceAliasKey namespace alias with
  | None => Err ErrWorkspaceNotFound
  | Some id => Ok (cloneWorkspace (default zero_row (byID r !! id)))
  end.

Definition Update (w : Workspace) (r : repo) : result unit * repo :=
  if closed r then (Err errRepositoryClosed, r) else
  match byID r !! w_ID w with
  | None => (Err ErrWorkspaceNotFound, r)
  | Some existing =>
    if decide (w_Status w ≠ w_Status existing)
    then (Err (Errorf_w "" ErrInvalidStatusTransition
                 (": use UpdateStatus for " +:+ strconv_Quote (w_Status existing) +:+ " -> " +:+
                  strconv_Quote (w_Status w))), r)
    else match validateKnownStatus (w_Status w) with
    | Err e => (Err e, r)
    | Ok _ =>
      match validateImmutableFields existing w with
      | Err e => (Err e, r)
      | Ok _ =>
        let w' := {|
          w_ID := w_ID existing; w_Namespace := w_Namespace existing; w_Alias := w_Alias existing;
          w_AgentType := w_AgentType existing; w_InfraType := w_InfraType existing;
          w_InfraOptions := w_InfraOptions w; w_InstallParams := w_InstallParams w;
          w_Plugins := w_Plugins w; w_Status := w_Status w; w_StatusError := w_StatusError w;
          w_Description := w_Description w; w_Labels := w_Labels w;
          w_LastProbeAt := w_LastProbeAt w; w_CreatedAt := w_CreatedAt existing;
          w_UpdatedAt := w_UpdatedAt w |} in
        (Ok (), put_row (w_ID w') (cloneWorkspace w') r)
      end
    end
  end.

Definition UpdateStatus (id : WorkspaceID) (status : Status) (statusError : option WorkspaceError)
    (lastProbeAt now : Time) (r : repo) : result unit * repo :=
  if closed r then (Err errRepositoryClosed, r) else
  match byID r !! id with
  | None => (Err ErrWorkspaceNotFound, r)
  | Some row =>
    match validateKnownStatus status with
    | Err e => (Err e, r)
    | Ok _ =>
      match validateStatusTransition (w_Status row) status with
      | Err e => (Err e, r)
      | Ok _ =>
        let err := if decide (status = StatusHealthy) then None else cloneError statusError in
        (Ok (), put_row id (set_status row status lastProbeAt now err) r)
      end
    end
  end.

Definition UpdateStatusCAS (id : WorkspaceID) (writer : StatusWriter) (expect next : Status)
    (statusError : option WorkspaceError) (lastProbeAt now : Time) (r : repo)
    : result unit * repo :=
  if closed r then (Err errRepositoryClosed, r) else
  match byID r !! id with
  | None => (Err ErrWorkspaceNotFound, r)
  | Some row =>
    if decide (w_Status row ≠ expect)
    then (Err (Errorf_w "" ErrStatusPreconditionFailed
                 (": workspace " +:+ strconv_Quote id +:+ " current=" +:+
                  strconv_Quote (w_Status row) +:+ " expect=" +:+ strconv_Quote expect)), r)
    else match validateKnownStatus next with
    | Err e => (Err e, r)
    | Ok _ =>
      match validateTransitionByWriter writer expect next with
      | Err e => (Err e, r)
      | Ok _ =>
        let err := if decide (next = StatusHealthy) then None else cloneError statusError in
        (Ok (), put_row id (set_status row next lastProbeAt now err) r)
      end
    end
  end.

Definition Delete (id : WorkspaceID) (r : repo) : result unit * repo :=
  if closed r then (Err errRepositoryClosed, r) else
  match byID r !! id with
  | None => (Err ErrWorkspaceNotFound, r)
  | Some row =>
    (Ok (), {| byID := delete id (byID r);
               idByAliasKey := delete (workspaceAliasKey (w_Namespace row) (w_Alias row))
                                 (idByAliasKey r);
               closed := closed r |})
  end.

Definition Close (r : repo) : result unit * repo :=
  (Ok (), {| byID := byID r; idByAliasKey := idByAliasKey r; closed := true |}).

(** ** Listing *)

Definition compareNamespaceAlias (leftNamespace : Namespace) (leftAlias : Alias)
    (rightNamespace : Namespace) (rightAlias : Alias) : Z :=
  let cmp := strings_Compare leftNamespace rightNamespace in
  if decide (cmp ≠ 0%Z) then cmp else strings_Compare leftAlias rightAlias.

Definition NUL : ascii := "000"%char.

Definition encodeCursor (namespace : Namespace) (alias : Alias) : string :=
  base64_encode (namespace +:+ String NUL alias).

Definition parseWorkspaceCursor (cursor : string) : result (Namespace * Alias) :=
  if decide (cursor = "") then Ok ("", "") else
  match base64_decode cursor with
  | None => Err (Errorf ("workspace: invalid cursor " +:+ strconv_Quote cursor))
  | Some raw => match strings_Cut NUL raw with
                | None => Err (Errorf ("workspace: invalid cursor " +:+ strconv_Quote cursor))
                | Some parts => Ok parts
                end
  end.

Definition labelsMatch (rowLabels want : gomap string) : bool :=
  match want with
  | None => true
  | Some g => bool_decide (map_Forall (λ k v, default "" (gm_get rowLabels k) = v) g)
  end.

(** The filter of [List]'s loop without its cursor test. *)
Definition row_matches (opts : ListOptions) (row : Workspace) : bool :=
  if decide (lo_Namespace opts ≠ "" ∧ w_Namespace row ≠ lo_Namespace opts) then false
  else if decide (lo_AgentType opts ≠ "" ∧ w_AgentType row ≠ lo_AgentType opts) then false
  else if decide (lo_InfraType opts ≠ "" ∧ w_InfraType row ≠ lo_InfraType opts) then false
  else if decide (lo_Status opts ≠ "" ∧ w_Status row ≠ lo_Status opts) then false
  else labelsMatch (w_Labels row) (lo_Labels opts).

(** The cursor test: the row comes strictly after the cursor. *)
Definition after_cursor (opts : ListOptions) (c : Namespace * Alias) (row : Workspace) : bool :=
  if decide (lo_Cursor opts ≠ "" ∧
             (compareNamespaceAlias (w_Namespace row) (w_Alias row) c.1 c.2 ≤ 0)%Z)
  then false else true.

(** The order [slices.SortFunc] is given. *)
Definition row_le (a b : Workspace) : Prop :=
  (compareNamespaceAlias (w_Namespace a) (w_Alias a) (w_Namespace b) (w_Alias b) ≤ 0)%Z.
#[export] Instance row_le_dec : RelDecision row_le.
Proof. unfold row_le. intros a b. apply _. Defined.

Definition rows_of (r : repo) : list Workspace := (map_to_list (byID r)).*2.

Definition List_ (opts : ListOptions) (r : repo) : result (list Workspace * string) :=
  if closed r then Err errRepositoryClosed else
  let limit := if decide (lo_Limit opts ≤ 0)%Z then 50%Z else lo_Limit opts in
  match parseWorkspaceCursor (lo_Cursor opts) with
  | Err e => Err e
  | Ok c =>
    let filtered := cloneWorkspace <$>
      filter (λ row, row_matches opts row = true ∧ after_cursor opts c row = true) (rows_of r) in
    let sorted := merge_sort row_le filtered in
    if decide (length sorted = 0) then Ok ([], "") else
    let end_ := Z.min limit (Z.of_nat (length sorted)) in
    let rows := take (Z.to_nat end_) sorted in
    let next := if decide (end_ < Z.of_nat (length sorted))%Z
                then match last rows with
                     | Some l => encodeCursor (w_Namespace l) (w_Alias l)
                     | None => ""
                     end
                else "" in
    Ok (rows, next)
  end.

End WorkspaceRepository.

(** ** The invariant tying the two maps together *)

Module WorkspaceInvariant.
Import WorkspaceRepository.

Definition key (w : Workspace) : Namespace * Alias := (w_Namespace w, w_Alias w).

Definition known_status (s : Status) : Prop :=
  s = StatusInit ∨ s = StatusHealthy ∨ s = StatusFailed.

Record repo_inv (r : repo) : Prop := {
  inv_row id w : byID r !! id = Some w →
    w_ID w = id ∧ idByAliasKey r !! key w = Some id ∧ known_status (w_Status w);
  inv_alias k id : idByAliasKey r !! k = Some id →
    ∃ w, byID r !! id = Some w ∧ key w = k;
}.

Lemma inv_key_inj r id1 id2 w1 w2 :
  repo_inv r → byID r !! id1 = Some w1 → byID r !! id2 = Some w2 → key w1 = key w2 → id1 = id2.
Proof.
  intros Hr H1 H2 Hk. apply (inv_row r Hr) in H1 as (_ & H1 & _).
  apply (inv_row r Hr) in H2 as (_ & H2 & _). rewrite Hk in H1. congruence.
Qed.

(** Writing a row under its own id with the key it had keeps the invariant. *)
Lemma put_row_inv r id w w' :
  repo_inv r → byID r !! id = Some w →
  w_ID w' = id → key w' = key w → known_status (w_Status w') →
  repo_inv (put_row id w' r).
Proof.
  intros Hr Hw Hid Hk Hst. destruct (inv_row r Hr id w Hw) as (Hwid & Hal & _). split; simpl.
  - intros id0 w0. rewrite lookup_insert. case_decide as Hd; intros H0.
    + injection H0 as <-. subst id0. rewrite Hk. auto.
    + by apply (inv_row r Hr).
  - intros k id0 H0. apply (inv_alias r Hr) in H0 as (w0 & H0 & Hk0).
    destruct (decide (id = id0)) as [->|].
    + exists w'. rewrite lookup_insert_eq. split; [done|]. congruence.
    + exists w0. by rewrite lookup_insert_ne.
Qed.

Lemma validateKnownStatus_ok s u : validateKnownStatus s = Ok u → known_status s.
Proof. unfold validateKnownStatus. by case_decide. Qed.

Lemma new_inv : repo_inv NewWorkspaceRepository.
Proof. split; simpl; intros ??; by rewrite lookup_empty. Qed.

Lemma Insert_inv w r : repo_inv r → repo_inv (Insert w r).2.
Proof.
  intros Hr. unfold Insert. destruct (closed r); [done|].
  destruct (byID r !! w_ID w) eqn:Hid; [done|].
  destruct (validateKnownStatus (w_Status w)) eqn:Hst; [|done].
  apply validateKnownStatus_ok in Hst.
  destruct (idByAliasKey r !! _) eqn:Hal; [done|]. split; simpl.
  - intros id0 w0. rewrite lookup_insert. case_decide as Hd; intros H0; simplify_eq.
    + by rewrite lookup_insert_eq.
    + apply (inv_row r Hr) in H0 as (? & H0 & ?). split_and!; [done| |done].
      rewrite lookup_insert_ne; [done|]. intros E. rewrite E in Hal. congruence.
  - intros k id0. rewrite !lookup_insert. case_decide as Hd; intros H0; simplify_eq.
    + exists (cloneWorkspace w). by rewrite decide_True.
    + apply (inv_alias r Hr) in H0 as (w0 & H0 & Hk). exists w0.
      rewrite decide_False; [done|]. congruence.
Qed.

Lemma Update_inv w r : repo_inv r → repo_inv (Update w r).2.
Proof.
  intros Hr. unfold Update. destruct (closed r); [done|].
  destruct (byID r !! w_ID w) as [ex|] eqn:Hid; [|done].
  case_decide; [done|]. destruct (validateKnownStatus (w_Status w)) eqn:Hst; [|done].
  apply validateKnownStatus_ok in Hst.
  destruct (validateImmutableFields ex w); [|done].
  destruct (inv_row r Hr _ _ Hid) as (Hex & _ & _). simpl. rewrite Hex.
  by eapply put_row_inv.
Qed.

Lemma UpdateStatus_inv id s e t now r : repo_inv r → repo_inv (UpdateStatus id s e t now r).2.
Proof.
  intros Hr. unfold UpdateStatus. destruct (closed r); [done|].
  destruct (byID r !! id) as [row|] eqn:Hid; [|done].
  destruct (validateKnownStatus s) eqn:Hst; [|done]. apply validateKnownStatus_ok in Hst.
  destruct (validateStatusTransition _ _); [|done].
  destruct (inv_row r Hr _ _ Hid) as (Hrow & _ & _). by eapply put_row_inv.
Qed.

Lemma UpdateStatusCAS_inv id wr ex s e t now r :
  repo_inv r → repo_inv (UpdateStatusCAS id wr ex s e t now r).2.
Proof.
  intros Hr. unfold UpdateStatusCAS. destruct (closed r); [done|].
  destruct (byID r !! id) as [row|] eqn:Hid; [|done]. case_decide; [done|].
  destruct (validateKnownStatus s) eqn:Hst; [|done]. apply validateKnownStatus_ok in Hst.
  destruct (validateTransitionByWriter _ _ _); [|done].
  destruct (inv_row r Hr _ _ Hid) as (Hrow & _ & _). by eapply put_row_inv.
Qed.

Lemma Delete_inv id r : repo_inv r → repo_inv (Delete id r).2.
Proof.
  intros Hr. unfold Delete. destruct (closed r); [done|].
  destruct (byID r !! id) as [row|] eqn:Hid; [|done]. split; simpl.
  - intros id0 w0. rewrite !lookup_delete. case_decide as Hd; [done|]. intros H0.
    destruct (inv_row r Hr _ _ H0) as (? & Hal & ?). split_and!; [done| |done].
    rewrite decide_False; [done|]. intros Hk. apply Hd. by eapply inv_key_inj.
  - intros k id0. rewrite !lookup_delete. case_decide as Hd; [done|]. intros H0.
    apply (inv_alias r Hr) in H0 as (w0 & H0 & Hk). exists w0.
    rewrite decide_False; [done|]. intros ->. apply Hd. rewrite Hid in H0. by injection H0 as ->.
Qed.

Lemma Close_inv r : repo_inv r → repo_inv (Close r).2.
Proof. intros [Hr Ha]. by split. Qed.

#[export] Hint Resolve new_inv Insert_inv Update_inv UpdateStatus_inv UpdateStatusCAS_inv
  Delete_inv Close_inv : ana.

(** *** Operations as steps *)

Inductive op : Type :=
| OpInsert (w : Workspace)
| OpUpdate (w : Workspace)
| OpUpdateStatus (id : WorkspaceID) (s : Status) (e : option WorkspaceError) (t now : Time)
| OpCAS (id : WorkspaceID) (wr : StatusWriter) (expect next : Status)
    (e : option WorkspaceError) (t now : Time)
| OpDelete (id : WorkspaceID)
| OpClose.

Definition run_op (o : op) (r : repo) : result unit * repo :=
  match o with
  | OpInsert w => Insert w r
  | OpUpdate w => Update w r
  | OpUpdateStatus id s e t now => UpdateStatus id s e t now r
  | OpCAS id wr ex nx e t now => UpdateStatusCAS id wr ex nx e t now r
  | OpDelete id => Delete id r
  | OpClose => Close r
  end.

Inductive repo_step : repo → repo → Prop :=
| repo_step_op o r : repo_step r (run_op o r).2.

Lemma run_op_inv o r : repo_inv r → repo_inv (run_op o r).2.
Proof. destruct o; cbn [run_op]; eauto with ana. Qed.

#[export] Hint Resolve run_op_inv : ana.
End WorkspaceInvariant.

(** ** Listing discharges the pagination interface *)

Module WorkspaceListing.
Import WorkspaceRepository WorkspaceInvariant.

Definition row_lt (a b : Workspace) : Prop :=
  (compareNamespaceAlias (w_Namespace a) (w_Alias a) (w_Namespace b) (w_Alias b) < 0)%Z.
#[export] Instance row_lt_dec : RelDecision row_lt.
Proof. unfold row_lt. intros a b. apply _. Defined.

Lemma compare_antisym a1 a2 b1 b2 :
  compareNamespaceAlias b1 b2 a1 a2 = (- compareNamespaceAlias a1 a2 b1 b2)%Z.
Proof.
  unfold compareNamespaceAlias. rewrite (strings_Compare_antisym a1 b1).
  repeat case_decide; try lia. apply strings_Compare_antisym.
Qed.

Lemma compare_zero a1 a2 b1 b2 :
  compareNamespaceAlias a1 a2 b1 b2 = 0%Z ↔ (a1, a2) = (b1, b2).
Proof.
  unfold compareNamespaceAlias. case_decide as Hc.
  - split; [done|]. intros [= -> ->]. by rewrite strings_Compare_refl in Hc.
  - apply strings_Compare_eq in Hc as ->. rewrite strings_Compare_eq.
    split; congruence.
Qed.

Lemma compare_trans a1 a2 b1 b2 c1 c2 :
  (compareNamespaceAlias a1 a2 b1 b2 < 0)%Z → (compareNamespaceAlias b1 b2 c1 c2 < 0)%Z →
  (compareNamespaceAlias a1 a2 c1 c2 < 0)%Z.
Proof.
  unfold compareNamespaceAlias. intros Hab Hbc.
  destruct (decide (strings_Compare a1 b1 = 0%Z)) as [E1|E1].
  - apply strings_Compare_eq in E1 as ->. rewrite strings_Compare_refl in Hab. simpl in Hab.
    case_decide as E2; [done|]. by eapply strings_Compare_lt_trans.
  - rewrite decide_True in Hab by done.
    destruct (decide (strings_Compare b1 c1 = 0%Z)) as [E2|E2].
    + apply strings_Compare_eq in E2 as ->. by rewrite decide_True.
    + rewrite decide_True in Hbc by done.
      pose proof (strings_Compare_lt_trans _ _ _ Hab Hbc). rewrite decide_True; [done|lia].
Qed.

#[export] Instance row_lt_trans : Transitive row_lt.
Proof. intros a b c. apply compare_trans. Qed.
#[export] Instance row_lt_irrefl : Irreflexive row_lt.
Proof.
  intros a Ha. unfold row_lt in Ha.
  rewrite (proj2 (compare_zero _ _ _ _)) in Ha by done. lia.
Qed.

Lemma row_le_lt a b : row_le a b → key a ≠ key b → row_lt a b.
Proof.
  unfold row_le, row_lt, key. intros Hle Hk.
  assert (compareNamespaceAlias (w_Namespace a) (w_Alias a) (w_Namespace b) (w_Alias b) ≠ 0%Z);
    [|lia]. by rewrite compare_zero.
Qed.

Lemma row_le_antisym a b : row_le a b → row_le b a → key a = key b.
Proof.
  unfold row_le. rewrite (compare_antisym (w_Namespace a)). intros ??.
  apply compare_zero. lia.
Qed.

#[export] Instance row_le_total : Total row_le.
Proof.
  intros a b. unfold row_le. rewrite (compare_antisym (w_Namespace a) (w_Alias a)). lia.
Qed.

#[export] Instance row_le_trans : Transitive row_le.
Proof.
  intros a b c Hab Hbc. destruct (decide (key a = key b)) as [E|E].
  { unfold row_le, key in *. injection E as -> ->. done. }
  destruct (decide (key b = key c)) as [E'|E'].
  { unfold row_le, key in *. injection E' as <- <-. done. }
  apply row_le_lt in Hab; [|done]. apply row_le_lt in Hbc; [|done].
  assert (row_lt a c) by (by trans b). unfold row_le, row_lt in *. lia.
Qed.

Lemma row_matches_clone o w : row_matches o (cloneWorkspace w) = row_matches o w.
Proof.
  unfold row_matches, cloneWorkspace. simpl. repeat case_decide; try done.
  unfold labelsMatch. destruct (lo_Labels o); [|done].
  apply bool_decide_ext. split; intros Hm k v Hk; specialize (Hm k v Hk); simpl in *.
  - by rewrite cloneLabels_get in Hm.
  - by rewrite cloneLabels_get.
Qed.

(** The rows the options select, in listing order, without pagination. *)
Definition selection (r : repo) (o : ListOptions) : list Workspace :=
  merge_sort row_le (cloneWorkspace <$> filter (λ row, row_matches o row = true) (rows_of r)).

Lemma elem_of_rows r w : w ∈ rows_of r ↔ ∃ id, byID r !! id = Some w.
Proof.
  unfold rows_of. rewrite list_elem_of_fmap. split.
  - intros ([id w'] & -> & H). exists id. by apply elem_of_map_to_list.
  - intros [id H]. exists (id, w). split; [done|]. by apply elem_of_map_to_list.
Qed.

Lemma rows_NoDup_key r : repo_inv r → NoDup (key <$> rows_of r).
Proof.
  intros Hr. unfold rows_of. rewrite <-list_fmap_compose.
  apply NoDup_fmap_2_strong; [|apply NoDup_map_to_list].
  intros [id1 w1] [id2 w2] H1 H2 Hk.
  apply elem_of_map_to_list in H1. apply elem_of_map_to_list in H2. simpl in Hk.
  assert (id1 = id2) as -> by (by eapply inv_key_inj). congruence.
Qed.

Lemma key_clone w : key (cloneWorkspace w) = key w.
Proof. done. Qed.

Lemma selection_elem r o w :
  w ∈ selection r o ↔ ∃ id w0, byID r !! id = Some w0 ∧ row_matches o w0 = true ∧
                               w = cloneWorkspace w0.
Proof.
  unfold selection. rewrite merge_sort_Permutation, list_elem_of_fmap. split.
  - intros (w0 & -> & [Hm [id Hid]%elem_of_rows]%list_elem_of_filter). eauto.
  - intros (id & w0 & Hid & Hm & ->). exists w0. split; [done|].
    apply list_elem_of_filter. split; [done|]. apply elem_of_rows. eauto.
Qed.

Lemma selection_NoDup_key r o : repo_inv r → NoDup (key <$> selection r o).
Proof.
  intros Hr. unfold selection. rewrite merge_sort_Permutation.
  rewrite <-list_fmap_compose. change (key ∘ cloneWorkspace) with key.
  eapply sublist_NoDup; [by apply rows_NoDup_key|].
  apply fmap_sublist, sublist_filter.
Qed.

Lemma selection_key_inj r o x y :
  repo_inv r → x ∈ selection r o → y ∈ selection r o → key x = key y → x = y.
Proof.
  intros Hr. rewrite !selection_elem.
  intros (i & x0 & Hx & _ & ->) (j & y0 & Hy & _ & ->) Hk.
  assert (i = j) as -> by (by eapply inv_key_inj). congruence.
Qed.

Lemma selection_sorted r o : repo_inv r → StronglySorted row_lt (selection r o).
Proof.
  intros Hr. eapply StronglySorted_strict.
  - apply (StronglySorted_merge_sort row_le).
  - eapply NoDup_fmap_1, selection_NoDup_key. done.
  - intros x y Hx Hy Hle Hne. apply row_le_lt; [done|].
    intros Hk. apply Hne. by eapply selection_key_inj.
Qed.

Definition nul_free (r : repo) : Prop :=
  ∀ id w, byID r !! id = Some w → has_byte NUL (w_Namespace w) = false.

Lemma parse_encode ns al :
  has_byte NUL ns = false → parseWorkspaceCursor (encodeCursor ns al) = Ok (ns, al).
Proof.
  intros Hns. unfold parseWorkspaceCursor, encodeCursor.
  rewrite decide_False, base64_decode_encode, strings_Cut_app; [done|done|].
  apply base64_encode_nonempty. by destruct ns.
Qed.

Lemma encodeCursor_nonempty ns al : encodeCursor ns al ≠ "".
Proof. apply base64_encode_nonempty. by destruct ns. Qed.

Definition with_page (o : ListOptions) (lim : Z) (c : string) : ListOptions := {|
  lo_Namespace := lo_Namespace o; lo_AgentType := lo_AgentType o; lo_InfraType := lo_InfraType o;
  lo_Status := lo_Status o; lo_Labels := lo_Labels o; lo_Limit := lim; lo_Cursor := c |}.

(** The cursor [c] stands after the first [n] selected rows. *)
Definition cursor_pos (r : repo) (o : ListOptions) (n : nat) (c : string) : Prop :=
  (n = 0 ∧ c = "") ∨
  ∃ x, last (take n (selection r o)) = Some x ∧ c = encodeCursor (w_Namespace x) (w_Alias x).

Lemma sort_filter_after r o (P : Workspace → Prop) `{∀ w, Decision (P w)} :
  repo_inv r → (∀ w, P (cloneWorkspace w) ↔ P w) →
  merge_sort row_le (cloneWorkspace <$>
    filter (λ row, row_matches o row = true ∧ P row) (rows_of r)) =
  filter P (selection r o).
Proof.
  intros Hr HP. rewrite filter_conj. unfold selection.
  rewrite <-(merge_sort_filter row_le P).
  - f_equal. rewrite list_filter_fmap. f_equal. apply list_filter_iff. intros w.
    by rewrite <-HP.
  - intros x y Hx Hy Hxy Hyx. eapply (selection_key_inj r o); [done| | |by apply row_le_antisym].
    + unfold selection. by rewrite merge_sort_Permutation.
    + unfold selection. by rewrite merge_sort_Permutation.
Qed.

Lemma page_rows r o lim n c :
  repo_inv r → nul_free r → cursor_pos r o n c →
  ∃ cur, parseWorkspaceCursor c = Ok cur ∧
  merge_sort row_le (cloneWorkspace <$> filter
    (λ row, row_matches (with_page o lim c) row = true ∧ after_cursor (with_page o lim c) cur row = true)
    (rows_of r)) = drop n (selection r o).
Proof.
  intros Hr Hnul [[-> ->]|(x & Hx & ->)].
  - exists ("", ""). split; [done|]. rewrite (sort_filter_after r (with_page o lim "")) by done.
    rewrite filter_all; [done|]. by apply Forall_true.
  - assert (x ∈ selection r o) as Hxin.
    { apply last_Some in Hx as [l' Hx].
      rewrite <-(take_drop n (selection r o)), Hx. set_solver. }
    apply selection_elem in Hxin as (id & w0 & Hid & _ & ->).
    exists (w_Namespace w0, w_Alias w0). split; [by apply parse_encode, (Hnul id)|].
    rewrite (sort_filter_after r (with_page o lim _)) by done.
    rewrite <-(filter_after_last row_lt (selection r o) n (cloneWorkspace w0));
      [|by apply selection_sorted|done].
    change (selection r (with_page o lim _)) with (selection r o).
    apply list_filter_iff. intros w. unfold after_cursor, row_lt. simpl.
    pose proof (encodeCursor_nonempty (w_Namespace w0) (w_Alias w0)).
    rewrite (compare_antisym (w_Namespace w0)). case_decide as Hd; [split; [done|lia]|].
    split; [intros _|done]. apply Znot_ge_lt. intros Hge. apply Hd. split; [done|lia].
Qed.

Lemma List_page r o lim n c :
  repo_inv r → closed r = false → nul_free r → (0 < lim)%Z → cursor_pos r o n c →
  ∃ next, List_ (with_page o lim c) r = Ok (take (Z.to_nat lim) (drop n (selection r o)), next) ∧
    if decide (n + Z.to_nat lim < length (selection r o))
    then next ≠ "" ∧ cursor_pos r o (n + Z.to_nat lim) next
    else next = "".
Proof.
  intros Hr Hcl Hnul Hlim Hpos. unfold List_. rewrite Hcl.
  destruct (page_rows r o lim n c Hr Hnul Hpos) as (cur & Hcur & Hrows).
  cbn [lo_Limit lo_Cursor with_page]. rewrite decide_False by lia.
  rewrite Hcur, Hrows. case_decide as Hlen.
  - rewrite length_drop in Hlen. exists "". rewrite drop_ge by lia. rewrite take_nil.
    split; [done|]. by rewrite decide_False by lia.
  - rewrite take_min_length by lia. eexists. split; [done|]. rewrite length_drop in *.
    destruct (decide (n + Z.to_nat lim < length (selection r o))) as [Hmore|Hmore].
    + rewrite decide_True by lia.
      destruct (last (take (Z.to_nat lim) (drop n (selection r o)))) as [l|] eqn:Hl.
      * split; [apply encodeCursor_nonempty|]. right. exists l. split; [|done].
        by rewrite <-take_take_drop, last_app, Hl.
      * exfalso. apply last_None in Hl. apply (f_equal length) in Hl.
        rewrite length_take, length_drop in Hl. simpl in Hl. lia.
    + rewrite decide_False by lia. done.
Qed.

#[export] Instance workspace_paged : Paged repo ListOptions Workspace :=
  λ r o lim c, List_ (with_page o lim c) r.

Definition listing_valid (r : repo) : Prop :=
  repo_inv r ∧ closed r = false ∧ nul_free r.

Lemma listing_start r o : listing_valid r → cursor_pos r o 0 "".
Proof. by left. Qed.

Lemma listing_page r o n c lim :
  listing_valid r → (0 < lim)%Z → cursor_pos r o n c →
  ∃ next, page r o lim c = Ok (take (Z.to_nat lim) (drop n (selection r o)), next) ∧
    if decide (n + Z.to_nat lim < length (selection r o))
    then next ≠ "" ∧ cursor_pos r o (n + Z.to_nat lim) next
    else next = "".
Proof. intros (Hr & Hcl & Hnul) Hlim Hpos. by apply List_page. Qed.

#[export] Instance workspace_paged_laws : PagedLaws repo ListOptions Workspace := {|
  pg_valid := listing_valid;
  pg_enum := selection;
  pg_pos := cursor_pos;
  pg_start := listing_start;
  pg_page := listing_page;
|}.
End WorkspaceListing.

(** ** What the repository promises *)

Module WorkspaceRepoSpec.
Import WorkspaceRepository WorkspaceInvariant WorkspaceListing.

Definition reachable (r : repo) : Prop := rtc repo_step NewWorkspaceRepository r.

Lemma reachable_repo_inv r : reachable r → repo_inv r.
Proof.
  revert r. apply (rtc_ind_r (R := repo_step) repo_inv); [apply new_inv|].
  intros r1 r2 _ [o r0] Hinv. by apply run_op_inv.
Qed.

(** The status edges of the lifecycle, whoever writes them. *)
Definition status_edge (from to : Status) : Prop :=
  (from = StatusInit ∧ to ≠ StatusInit ∧ known_status to) ∨
  (from = StatusHealthy ∧ to = StatusFailed) ∨
  (from = StatusFailed ∧ to = StatusHealthy).

(** The edges each writer may take through the compare-and-swap. *)
Definition writer_edge (wr : StatusWriter) (from to : Status) : Prop :=
  (wr = StatusWriterController ∧ from = StatusInit ∧ (to = StatusHealthy ∨ to = StatusFailed)) ∨
  (wr = StatusWriterScheduler ∧
   ((from = StatusInit ∧ to = StatusFailed) ∨
    (from = StatusHealthy ∧ to = StatusFailed) ∨
    (from = StatusFailed ∧ to = StatusHealthy))).

#[export] Instance writer_edge_dec wr from to : Decision (writer_edge wr from to).
Proof. unfold writer_edge. apply _. Defined.

Lemma validateTransitionByWriter_iff wr from to :
  validateTransitionByWriter wr from to = Ok () ↔ writer_edge wr from to.
Proof.
  unfold validateTransitionByWriter, writer_edge.
  repeat case_decide; split; intros; done || tauto.
Qed.

Lemma validateStatusTransition_edge from to u :
  validateStatusTransition from to = Ok u → from = to ∨ status_edge from to.
Proof.
  unfold validateStatusTransition, status_edge, known_status. intros H.
  repeat case_decide; destruct_and?; subst; try done; auto 10; right; left; auto.
Qed.

Lemma writer_edge_known wr from to : writer_edge wr from to → validateKnownStatus to = Ok ().
Proof.
  unfold writer_edge, validateKnownStatus. intros H. by rewrite decide_True by tauto.
Qed.

Lemma writer_edge_status wr from to : writer_edge wr from to → status_edge from to.
Proof.
  unfold writer_edge, status_edge, known_status.
  intros H. destruct_or!; destruct_and!; destruct_or?; destruct_and?; subst; auto 10.
Qed.

Lemma writer_edge_ne wr from to : writer_edge wr from to → to ≠ from.
Proof.
  unfold writer_edge. intros H ->.
  destruct_or!; destruct_and!; destruct_or?; destruct_and?; subst; discriminate.
Qed.

(** *** One step, seen from one row *)

(** The part of a row no operation may change. *)
Definition identity (w : Workspace) :=
  (w_ID w, w_Namespace w, w_Alias w, w_AgentType w, w_InfraType w, w_CreatedAt w).

Lemma put_row_lookup id w r id' :
  byID (put_row id w r) !! id' = if decide (id = id') then Some w else byID r !! id'.
Proof. simpl. apply lookup_insert. Qed.

Ltac failed := left; eexists; reflexivity.

(** Each writer either fails and leaves the state alone, or its guards held and the
    new state is the written-out one. *)

Lemma Insert_cases w r :
  (∃ e, Insert w r = (Err e, r)) ∨
  (closed r = false ∧ byID r !! w_ID w = None ∧ known_status (w_Status w) ∧
   idByAliasKey r !! key w = None ∧
   Insert w r = (Ok (), {| byID := <[w_ID w := cloneWorkspace w]> (byID r);
                           idByAliasKey := <[key w := w_ID w]> (idByAliasKey r);
                           closed := closed r |})).
Proof.
  unfold Insert. destruct (closed r); [failed|].
  destruct (byID r !! w_ID w); [failed|].
  destruct (validateKnownStatus _) eqn:Hk; [|failed]. apply validateKnownStatus_ok in Hk.
  unfold workspaceAliasKey, key.
  destruct (idByAliasKey r !! (w_Namespace w, w_Alias w)); [failed|].
  right. split_and!; done.
Qed.

Lemma Update_cases w r :
  (∃ e, Update w r = (Err e, r)) ∨
  (∃ ex w', Update w r = (Ok (), put_row (w_ID ex) w' r) ∧
    closed r = false ∧ byID r !! w_ID w = Some ex ∧ w_Status w = w_Status ex ∧
    identity w' = identity ex ∧ w_Status w' = w_Status ex).
Proof.
  unfold Update. destruct (closed r); [failed|].
  destruct (byID r !! w_ID w) as [ex|]; [|failed].
  case_decide as Hs; [failed|].
  destruct (validateKnownStatus _) eqn:Hk; [|failed]. apply validateKnownStatus_ok in Hk.
  destruct (validateImmutableFields ex w); [|failed].
  right. exists ex. eexists. split_and!; done.
Qed.

Lemma UpdateStatus_cases id s e t now r :
  (∃ e', UpdateStatus id s e t now r = (Err e', r)) ∨
  (∃ row, closed r = false ∧ byID r !! id = Some row ∧ known_status s ∧
    (w_Status row = s ∨ status_edge (w_Status row) s) ∧
    UpdateStatus id s e t now r = (Ok (), put_row id
      (set_status row s t now (if decide (s = StatusHealthy) then None else e)) r)).
Proof.
  unfold UpdateStatus. destruct (closed r); [failed|].
  destruct (byID r !! id) as [row|]; [|failed].
  destruct (validateKnownStatus s) eqn:Hk; [|failed]. apply validateKnownStatus_ok in Hk.
  destruct (validateStatusTransition (w_Status row) s) eqn:Ht; [|failed].
  apply validateStatusTransition_edge in Ht. rewrite cloneError_id.
  right. exists row. split_and!; done.
Qed.

Lemma UpdateStatusCAS_cases id wr ex nx e t now r :
  (∃ e', UpdateStatusCAS id wr ex nx e t now r = (Err e', r)) ∨
  (∃ row, closed r = false ∧ byID r !! id = Some row ∧ w_Status row = ex ∧ writer_edge wr ex nx ∧
    UpdateStatusCAS id wr ex nx e t now r = (Ok (), put_row id
      (set_status row nx t now (if decide (nx = StatusHealthy) then None else e)) r)).
Proof.
  unfold UpdateStatusCAS. destruct (closed r); [failed|].
  destruct (byID r !! id) as [row|]; [|failed].
  case_decide as Hs; [failed|].
  destruct (validateKnownStatus nx); [|failed].
  destruct (validateTransitionByWriter wr ex nx) as [[]|] eqn:Ht; [|failed].
  apply validateTransitionByWriter_iff in Ht. rewrite cloneError_id.
  right. exists row. split_and!; done.
Qed.

(** When the guards hold the compare-and-swap succeeds. *)
Lemma UpdateStatusCAS_ok id wr ex nx e t now r row :
  closed r = false → byID r !! id = Some row → w_Status row = ex → writer_edge wr ex nx →
  UpdateStatusCAS id wr ex nx e t now r =
    (Ok (), put_row id (set_status row nx t now (if decide (nx = StatusHealthy) then None else e)) r).
Proof.
  intros Hcl Hrow Hst Hed. unfold UpdateStatusCAS. rewrite Hcl, Hrow.
  rewrite decide_False by (by intros []). rewrite (writer_edge_known _ _ _ Hed).
  by rewrite (proj2 (validateTransitionByWriter_iff wr ex nx) Hed), cloneError_id.
Qed.

Lemma Delete_cases id r :
  (∃ e, Delete id r = (Err e, r)) ∨
  (∃ row, closed r = false ∧ byID r !! id = Some row ∧
    Delete id r = (Ok (), {| byID := delete id (byID r);
                             idByAliasKey := delete (key row) (idByAliasKey r);
                             closed := closed r |})).
Proof.
  unfold Delete. destruct (closed r); [failed|]. destruct (byID r !! id) as [row|]; [|failed].
  right. exists row. split_and!; done.
Qed.

Lemma run_op_row o r id w w' :
  repo_inv r → byID r !! id = Some w → byID (run_op o r).2 !! id = Some w' →
  identity w' = identity w ∧ (w_Status w' = w_Status w ∨ status_edge (w_Status w) (w_Status w')).
Proof.
  intros Hr Hw. assert (byID r !! id = Some w' → identity w' = identity w ∧
    (w_Status w' = w_Status w ∨ status_edge (w_Status w) (w_Status w'))) as Hsame.
  { intros H. assert (w' = w) as -> by congruence. auto. }
  destruct o as [w0|w0|id0 s e t now|id0 wr ex nx e t now|id0|]; cbn [run_op].
  - destruct (Insert_cases w0 r) as [[e ->]|(_ & Hn & _ & _ & ->)]; [done|]. simpl.
    rewrite lookup_insert. case_decide as Hd; [|done]. congruence.
  - destruct (Update_cases w0 r) as [[e ->]|(ex & w1 & -> & _ & Hex & _ & Hid & Hst)]; [done|].
    destruct (inv_row r Hr _ _ Hex) as (Hexid & _ & _).
    cbn [snd]. rewrite put_row_lookup. case_decide as Hd; [|done]. intros [= ->].
    assert (ex = w) as -> by congruence. auto.
  - destruct (UpdateStatus_cases id0 s e t now r) as [[e' ->]|(row & _ & Hrow & _ & Hst & ->)]; [done|].
    cbn [snd]. rewrite put_row_lookup. case_decide as Hd; [|done]. intros [= <-]. subst.
    assert (row = w) as -> by congruence. split; [done|]. simpl. destruct Hst; auto.
  - destruct (UpdateStatusCAS_cases id0 wr ex nx e t now r)
      as [[e' ->]|(row & _ & Hrow & <- & Hed & ->)]; [done|].
    cbn [snd]. rewrite put_row_lookup. case_decide as Hd; [|done]. intros [= <-]. subst.
    assert (row = w) as -> by congruence. split; [done|]. right. by eapply writer_edge_status.
  - destruct (Delete_cases id0 r) as [[e ->]|(row & _ & _ & ->)]; [done|]. simpl.
    rewrite lookup_delete. by case_decide.
  - done.
Qed.

(** Only an insertion brings an absent row in, and nothing reopens a repository. *)
Lemma run_op_absent o r id :
  (∀ w, o = OpInsert w → w_ID w ≠ id) → byID r !! id = None → repo_inv r →
  byID (run_op o r).2 !! id = None.
Proof.
  intros Ho Hid Hr. destruct o as [w|w|id0 s e t now|id0 wr ex nx e t now|id0|]; cbn [run_op].
  - destruct (Insert_cases w r) as [[e ->]|(_ & _ & _ & _ & ->)]; [done|]. simpl.
    rewrite lookup_insert_ne; [done|]. by apply Ho.
  - destruct (Update_cases w r) as [[e ->]|(ex & w' & -> & _ & Hex & _)]; [done|].
    cbn [snd]. rewrite put_row_lookup. destruct (inv_row r Hr _ _ Hex) as [Hw _].
    rewrite decide_False; [done|]. congruence.
  - destruct (UpdateStatus_cases id0 s e t now r) as [[e' ->]|(row & _ & Hrow & _ & _ & ->)]; [done|].
    cbn [snd]. rewrite put_row_lookup, decide_False; [done|]. congruence.
  - destruct (UpdateStatusCAS_cases id0 wr ex nx e t now r)
      as [[e' ->]|(row & _ & Hrow & _ & _ & ->)]; [done|].
    cbn [snd]. rewrite put_row_lookup, decide_False; [done|]. congruence.
  - destruct (Delete_cases id0 r) as [[e ->]|(row & _ & _ & ->)]; [done|]. simpl.
    rewrite lookup_delete. by case_decide.
  - done.
Qed.

Lemma run_op_closed o r : closed r = true → closed (run_op o r).2 = true.
Proof.
  intros Hc. destruct o; cbn [run_op]; unfold Insert, Update, UpdateStatus, UpdateStatusCAS, Delete;
    rewrite ?Hc; done.
Qed.

(** *** Sequences of operations *)

(** Steps during which the row [id] stays in the repository. *)
Definition keeps (id : WorkspaceID) (r r' : repo) : Prop :=
  repo_step r r' ∧ is_Some (byID r' !! id).

Lemma keeps_row id r r' w :
  repo_inv r → rtc (keeps id) r r' → byID r !! id = Some w →
  repo_inv r' ∧ ∃ w', byID r' !! id = Some w' ∧ identity w' = identity w ∧
    (w_Status w ≠ StatusInit → w_Status w' ≠ StatusInit).
Proof.
  intros Hr Hsteps. revert w Hr. induction Hsteps as [r|r r1 r' [[o r0] [w1 Hw1]] _ IH]; intros w Hr Hw.
  { eauto 10. }
  destruct (run_op_row o r0 id w w1 Hr Hw Hw1) as [Hid Hst].
  destruct (IH w1) as (Hr' & w' & Hw' & Hid' & Hst'); [by apply run_op_inv|done|].
  split; [done|]. exists w'. split_and!; [done|congruence|]. intros Hinit. apply Hst'.
  destruct Hst as [->|[(E&_&_)|[[_ ->]|[_ ->]]]]; [done|congruence|done|done].
Qed.

(** ** Properties *)

(** C6. Every state the repository can reach from the empty one by any sequence of
    operations (failed ones included) satisfies the invariant: each row is stored
    under its own id with a known status, its (namespace, alias) key is indexed to
    it, and every index entry points to a stored row with that key. In particular
    aliases are unique per namespace. *)
Theorem reachable_invariant (r : repo) : reachable r → repo_inv r.
Proof. apply reachable_repo_inv. Qed.

Definition sample_row (id ns al st : string) : Workspace := {|
  w_ID := id; w_Namespace := ns; w_Alias := al; w_AgentType := "claude-code";
  w_InfraType := "localdir"; w_InfraOptions := Some {["dir" := AString "/tmp/ws"]};
  w_InstallParams := None; w_Plugins := []; w_Status := st; w_StatusError := None;
  w_Description := ""; w_Labels := Some {["team" := "a"]};
  w_LastProbeAt := 0; w_CreatedAt := 5; w_UpdatedAt := 5 |}%Z.

Definition sample_repo : repo :=
  (Insert (sample_row "wsp_2" "default" "beta" StatusInit)
    (Insert (sample_row "wsp_1" "default" "alpha" StatusInit) NewWorkspaceRepository).2).2.

Lemma sample_reachable : reachable sample_repo.
Proof.
  eapply rtc_l; [apply (repo_step_op (OpInsert (sample_row "wsp_1" "default" "alpha" StatusInit)))|].
  eapply rtc_l; [apply (repo_step_op (OpInsert (sample_row "wsp_2" "default" "beta" StatusInit)))|].
  apply rtc_refl.
Qed.

Lemma reachable_invariant_witness : repo_inv sample_repo.
Proof. apply (reachable_invariant sample_repo), sample_reachable. Defined.

(** C26. Cursor pagination is complete and duplicate-free: on a reachable open
    repository whose namespaces contain no NUL byte, following the cursors with any
    positive page size and any filter ends after at most one more round than there
    are rows, and returns in strictly increasing (namespace, alias) order exactly
    the clones of the rows that match the filter. *)
Theorem list_pages_complete (r : repo) (o : ListOptions) (lim : Z) (fuel : nat) :
  reachable r → closed r = false → nul_free r → (0 < lim)%Z → size (byID r) < fuel →
  ∃ rows, drain fuel r o lim "" [] = Some (Ok rows) ∧ StronglySorted row_lt rows ∧
    ∀ w, w ∈ rows ↔ ∃ id w0, byID r !! id = Some w0 ∧ row_matches o w0 = true ∧ w = cloneWorkspace w0.
Proof.
  intros Hreach Hcl Hnul Hlim Hfuel. apply reachable_repo_inv in Hreach as Hr.
  exists (selection r o). split; [|split; [by apply selection_sorted|apply selection_elem]].
  rewrite (drain_complete fuel r o lim); [done|by split_and!|done|].
  eapply Nat.le_lt_trans; [|done]. change (length (selection r o) ≤ size (byID r)).
  unfold selection.
  rewrite merge_sort_Permutation, length_fmap, length_filter.
  unfold rows_of. by rewrite length_fmap, length_map_to_list.
Qed.

Definition all_rows : ListOptions := {|
  lo_Namespace := ""; lo_AgentType := ""; lo_InfraType := ""; lo_Status := "";
  lo_Labels := None; lo_Limit := 0; lo_Cursor := "" |}.

Lemma sample_nul_free : nul_free sample_repo.
Proof.
  intros id w Hw. revert id w Hw.
  apply (bool_decide_unpack (map_Forall (λ _ w, has_byte NUL (w_Namespace w) = false) (byID sample_repo))).
  vm_compute. exact I.
Qed.

Lemma list_pages_complete_witness :
  (∃ rows, drain 3 sample_repo all_rows 1 "" [] = Some (Ok rows) ∧ StronglySorted row_lt rows ∧
    ∀ w, w ∈ rows ↔ ∃ id w0, byID sample_repo !! id = Some w0 ∧ row_matches all_rows w0 = true ∧
                             w = cloneWorkspace w0) ∧
  drain 3 sample_repo all_rows 1 "" [] =
    Some (Ok (cloneWorkspace <$> [sample_row "wsp_1" "default" "alpha" StatusInit;
                                  sample_row "wsp_2" "default" "beta" StatusInit])).
Proof.
  split; [|vm_compute; reflexivity].
  apply (list_pages_complete sample_repo all_rows 1 3);
    [apply sample_reachable|reflexivity|apply sample_nul_free|reflexivity|].
  apply Nat.ltb_lt. vm_compute. reflexivity.
Defined.

(** C5. A row's identity fields (id, namespace, alias, agent type, infra type,
    creation time) never change while it is stored, and once its status has left
    [init] it never returns to [init], whatever operations run in between. *)
Theorem row_lifecycle (r r' : repo) (id : WorkspaceID) (w : Workspace) :
  reachable r → byID r !! id = Some w → rtc (keeps id) r r' →
  ∃ w', byID r' !! id = Some w' ∧ identity w' = identity w ∧
    (w_Status w ≠ StatusInit → w_Status w' ≠ StatusInit).
Proof.
  intros Hreach Hw Hsteps. apply reachable_repo_inv in Hreach.
  by destruct (keeps_row id r r' w Hreach Hsteps Hw).
Qed.

Lemma row_lifecycle_witness :
  ∃ w', byID (UpdateStatusCAS "wsp_1" StatusWriterController StatusInit StatusHealthy None 7 8
                sample_repo).2 !! "wsp_1" = Some w' ∧
        identity w' = identity (cloneWorkspace (sample_row "wsp_1" "default" "alpha" StatusInit)) ∧
        (StatusInit ≠ StatusInit → w_Status w' ≠ StatusInit).
Proof.
  apply (row_lifecycle sample_repo _ "wsp_1"
           (cloneWorkspace (sample_row "wsp_1" "default" "alpha" StatusInit)));
    [apply sample_reachable|vm_compute; reflexivity|].
  eapply rtc_l; [|apply rtc_refl]. split.
  - apply (repo_step_op (OpCAS "wsp_1" StatusWriterController StatusInit StatusHealthy None 7 8)).
  - vm_compute. eauto.
Defined.

(** C25. [UpdateStatusCAS] in full: it succeeds exactly when the repository is open,
    the row exists with the expected status and the writer may take the edge; then
    only that row's status, probe time, update time and error change (the error is
    cleared on [healthy]), and otherwise the state is unchanged. *)
Theorem cas_spec (id : WorkspaceID) (wr : StatusWriter) (ex nx : Status)
    (e : option WorkspaceError) (t now : Time) (r : repo) :
  (∀ row, closed r = false → byID r !! id = Some row → w_Status row = ex → writer_edge wr ex nx →
    UpdateStatusCAS id wr ex nx e t now r =
      (Ok (), put_row id (set_status row nx t now (if decide (nx = StatusHealthy) then None else e)) r)) ∧
  (closed r = true ∨ byID r !! id = None ∨ (∃ row, byID r !! id = Some row ∧ w_Status row ≠ ex) ∨
   ¬ writer_edge wr ex nx →
    ∃ e', UpdateStatusCAS id wr ex nx e t now r = (Err e', r)).
Proof.
  split.
  - intros row. apply UpdateStatusCAS_ok.
  - intros Hbad. destruct (UpdateStatusCAS_cases id wr ex nx e t now r)
      as [?|(row & Hcl & Hrow & Hst & Hed & _)]; [done|]. exfalso.
    destruct Hbad as [?|[?|[(row' & ? & ?)|?]]]; congruence.
Qed.

Lemma cas_spec_witness :
  UpdateStatusCAS "wsp_1" StatusWriterScheduler StatusInit StatusFailed None 7 8 sample_repo =
    (Ok (), put_row "wsp_1" (set_status (cloneWorkspace (sample_row "wsp_1" "default" "alpha" StatusInit))
                               StatusFailed 7 8 None) sample_repo).
Proof.
  apply (proj1 (cas_spec "wsp_1" StatusWriterScheduler StatusInit StatusFailed None 7 8 sample_repo)
           (cloneWorkspace (sample_row "wsp_1" "default" "alpha" StatusInit)));
    [reflexivity|vm_compute; reflexivity|reflexivity|].
  right. split; [reflexivity|]. left. split; reflexivity.
Defined.

(** Compare-and-swap gives mutual exclusion: after one CAS from the expected
    status has succeeded, a competing CAS on the same row expecting the same status
    fails with [ErrStatusPreconditionFailed] and changes nothing, whoever issues
    it and whatever it wants to write. *)
Theorem cas_exclusive (id : WorkspaceID) (wr1 wr2 : StatusWriter) (ex nx1 nx2 : Status)
    (e1 e2 : option WorkspaceError) (t1 t2 now1 now2 : Time) (r r1 : repo) :
  UpdateStatusCAS id wr1 ex nx1 e1 t1 now1 r = (Ok (), r1) →
  ∃ e, UpdateStatusCAS id wr2 ex nx2 e2 t2 now2 r1 = (Err e, r1) ∧
       errors_Is e ErrStatusPreconditionFailed = true.
Proof.
  destruct (UpdateStatusCAS_cases id wr1 ex nx1 e1 t1 now1 r)
    as [[e ->]|(row & Hcl & Hrow & Hst & Hed & ->)]; [done|]. intros [= <-].
  pose proof (writer_edge_ne _ _ _ Hed) as Hne.
  unfold UpdateStatusCAS. cbn [closed put_row]. rewrite Hcl, put_row_lookup, (decide_True _ _ eq_refl).
  rewrite decide_True by done. eexists. split; [done|]. by rewrite Is_wrap.
Qed.

Lemma cas_exclusive_witness :
  ∃ e, UpdateStatusCAS "wsp_1" StatusWriterController StatusInit StatusHealthy None 9 9
         (UpdateStatusCAS "wsp_1" StatusWriterScheduler StatusInit StatusFailed None 7 8 sample_repo).2 =
       (Err e, (UpdateStatusCAS "wsp_1" StatusWriterScheduler StatusInit StatusFailed None 7 8
                  sample_repo).2) ∧
       errors_Is e ErrStatusPreconditionFailed = true.
Proof.
  apply (cas_exclusive "wsp_1" StatusWriterScheduler StatusWriterController StatusInit StatusFailed
           StatusHealthy None None 7 9 8 9 sample_repo).
  vm_compute. reflexivity.
Defined.

(** Every failing operation leaves the repository exactly as it was. *)
Theorem failed_op_no_effect (o : op) (r : repo) (e : error) :
  (run_op o r).1 = Err e → (run_op o r).2 = r.
Proof.
  destruct o as [w|w|id s e' t now|id wr ex nx e' t now|id|]; cbn [run_op].
  - by destruct (Insert_cases w r) as [[? ->]|(_ & _ & _ & _ & ->)].
  - by destruct (Update_cases w r) as [[? ->]|(? & ? & -> & _)].
  - by destruct (UpdateStatus_cases id s e' t now r) as [[? ->]|(? & _ & _ & _ & _ & ->)].
  - by destruct (UpdateStatusCAS_cases id wr ex nx e' t now r) as [[? ->]|(? & _ & _ & _ & _ & ->)].
  - by destruct (Delete_cases id r) as [[? ->]|(? & _ & _ & ->)].
  - done.
Qed.

Lemma failed_op_no_effect_witness :
  (run_op (OpInsert (sample_row "wsp_9" "default" "alpha" StatusInit)) sample_repo).1 =
    Err ErrAliasConflict ∧
  (run_op (OpInsert (sample_row "wsp_9" "default" "alpha" StatusInit)) sample_repo).2 = sample_repo.
Proof.
  assert ((run_op (OpInsert (sample_row "wsp_9" "default" "alpha" StatusInit)) sample_repo).1 =
    Err ErrAliasConflict) as H by (vm_compute; reflexivity).
  split; [exact H|]. exact (failed_op_no_effect _ _ _ H).
Defined.

(** [GetByAlias] refines search by key: on a reachable open repository it
    returns the clone of the one row with that namespace and alias, and
    [ErrWorkspaceNotFound] exactly when no row has them. *)
Theorem get_by_alias_spec (r : repo) (ns : Namespace) (al : Alias) :
  reachable r → closed r = false →
  (∀ w, GetByAlias ns al r = Ok w ↔
    ∃ id w0, byID r !! id = Some w0 ∧ key w0 = (ns, al) ∧ w = cloneWorkspace w0) ∧
  (GetByAlias ns al r = Err ErrWorkspaceNotFound ↔
    ∀ id w0, byID r !! id = Some w0 → key w0 ≠ (ns, al)).
Proof.
  intros Hr%reachable_repo_inv Hcl. unfold GetByAlias, workspaceAliasKey. rewrite Hcl.
  destruct (idByAliasKey r !! (ns, al)) as [id|] eqn:Hal.
  - apply (inv_alias r Hr) in Hal as (w1 & Hw1 & Hk1). rewrite Hw1. simpl. split.
    + intros w. split; [intros [= <-]; eauto|]. intros (id' & w0 & Hw0 & Hk0 & ->).
      assert (id' = id) as -> by (eapply inv_key_inj; [done..|congruence]). congruence.
    + split; [done|]. intros Hno. by destruct (Hno id w1).
  - assert (∀ id w0, byID r !! id = Some w0 → key w0 ≠ (ns, al)) as Hno.
    { intros id w0 Hw0 Hk. apply (inv_row r Hr) in Hw0 as (_ & Hw0 & _). congruence. }
    split; [|done]. intros w. split; [done|]. intros (id & w0 & Hw0 & Hk & _).
    by destruct (Hno id w0).
Qed.

Lemma get_by_alias_spec_witness :
  GetByAlias "default" "beta" sample_repo =
    Ok (cloneWorkspace (sample_row "wsp_2" "default" "beta" StatusInit)) ∧
  GetByAlias "other" "beta" sample_repo = Err ErrWorkspaceNotFound.
Proof.
  split; [|vm_compute; reflexivity].
  apply (proj1 (get_by_alias_spec sample_repo "default" "beta" sample_reachable eq_refl)).
  exists "wsp_2", (cloneWorkspace (sample_row "wsp_2" "default" "beta" StatusInit)).
  split_and!; vm_compute; reflexivity.
Defined.

End WorkspaceRepoSpec.
