(* ===== verification/PluginTypes.v ===== *)
(** * The plugin data model (pkg/manager/plugin/types.go, pkg/manager/plugin/clone.go)

    Rows, manifests, list options, stored objects and sentinels, and the
    depth-bounded clone of manifest metadata. The same clone text exists in
    [pkg/storage/memory/plugin_repo.go]. [metadata_clone_bound] gives the nesting
    depth up to which a clone keeps its argument's contents. *)

From S2P Require Import Prelude GoString GoError GoValue WorkspaceTypes.
From stdpp Require Import options.

Record ManifestEntry := {
  me_Description : string;
  me_DisplayName : string;
  me_Path : string;
}.

Record ManifestPlugin := {
  mp_Name : string;
  mp_Description : string;
  mp_Metadata : gomap any;
}.

Record Manifest := {
  mf_SchemaVersion : Z;
  mf_Plugin : ManifestPlugin;
  mf_Skills : gomap ManifestEntry;
  mf_Rules : gomap ManifestEntry;
  mf_Hooks : gomap ManifestEntry;
  mf_Subagents : gomap ManifestEntry;
  mf_MCPs : gomap ManifestEntry;
}.

Record Plugin := {
  p_ID : PluginID;
  p_Namespace : Namespace;
  p_Name : string;
  p_Description : string;
  p_Manifest : Manifest;
  p_ContentHash : string;
  p_Size : Z;
  p_CreatedAt : Time;
  p_UpdatedAt : Time;
}.

Record ListOptions := {
  plo_Namespace : Namespace;
  plo_NameLike : string;
  plo_Limit : Z;
  plo_Cursor : string;
}.

Record StoredObject := {
  so_Size : Z;
  so_ContentHash : string;
}.

(** [plugin.Section] and its constants. *)
Abbreviation ManifestSection := string (only parsing).
Definition SectionSkills : ManifestSection := "skills".
Definition SectionRules : ManifestSection := "rules".
Definition SectionHooks : ManifestSection := "hooks".
Definition SectionSubagents : ManifestSection := "subagents".
Definition SectionMCPs : ManifestSection := "mcps".

Definition ErrPluginNotFound : error := ENew "plugin: plugin not found".
Definition ErrPluginNameConflict : error := ENew "plugin: plugin name conflict".
Definition ErrPluginIDConflict : error := ENew "plugin: plugin id conflict".
Definition ErrInvalidManifest : error := ENew "plugin: invalid manifest".
Definition ErrCorruptArchive : error := ENew "plugin: corrupt archive".
Definition ErrStorageClosed : error := ENew "plugin: storage closed".
Definition ErrStorageNotFound : error := ENew "plugin: storage not found".
Definition ErrUnsupported : error := ENew "plugin: unsupported".

(** The Go zero values, which a map read of an absent key yields. *)
Definition zero_manifest : Manifest := {|
  mf_SchemaVersion := 0; mf_Plugin := {| mp_Name := ""; mp_Description := ""; mp_Metadata := None |};
  mf_Skills := None; mf_Rules := None; mf_Hooks := None; mf_Subagents := None; mf_MCPs := None |}%Z.
Definition zero_plugin : Plugin := {|
  p_ID := ""; p_Namespace := ""; p_Name := ""; p_Description := ""; p_Manifest := zero_manifest;
  p_ContentHash := ""; p_Size := 0; p_CreatedAt := 0; p_UpdatedAt := 0 |}%Z.

(** ** Clones *)

Definition maxMetadataNestingDepth : nat := 32.

Definition cloneManifestEntries (m : gomap ManifestEntry) : gomap ManifestEntry :=
  gm_map (λ e, e) m.

(** [deepCloneAnyDepth] and [cloneMapAnyDepth] call each other; the map case is
    written out in the first, [cloneMapAnyDepth_unfold] restates it with the second.
    Past the nesting bound a value becomes nil. *)
Fixpoint deepCloneAnyDepth (v : any) (depth : nat) : any :=
  if decide (maxMetadataNestingDepth < depth) then ANil else
  match v with
  | AMap None => AMap None
  | AMap (Some g) =>
      if decide (size g = 0) then AMap None
      else AMap (Some ((λ x, deepCloneAnyDepth x (S depth)) <$> g))
  | ASlice None => ASlice (Some [])
  | ASlice (Some l) => ASlice (Some ((λ x, deepCloneAnyDepth x (S depth)) <$> l))
  | _ => v
  end.

Definition cloneMapAnyDepth (m : gomap any) (depth : nat) : gomap any :=
  if decide (maxMetadataNestingDepth < depth) then None else
  gm_map (λ x, deepCloneAnyDepth x (S depth)) m.

Definition cloneMetadata (m : gomap any) : gomap any := cloneMapAnyDepth m 0.

Definition cloneManifest (m : Manifest) : Manifest := {|
  mf_SchemaVersion := mf_SchemaVersion m;
  mf_Plugin := {| mp_Name := mp_Name (mf_Plugin m);
                  mp_Description := mp_Description (mf_Plugin m);
                  mp_Metadata := cloneMetadata (mp_Metadata (mf_Plugin m)) |};
  mf_Skills := cloneManifestEntries (mf_Skills m);
  mf_Rules := cloneManifestEntries (mf_Rules m);
  mf_Hooks := cloneManifestEntries (mf_Hooks m);
  mf_Subagents := cloneManifestEntries (mf_Subagents m);
  mf_MCPs := cloneManifestEntries (mf_MCPs m) |}.

Definition clonePlugin (p : Plugin) : Plugin := {|
  p_ID := p_ID p; p_Namespace := p_Namespace p; p_Name := p_Name p;
  p_Description := p_Description p; p_Manifest := cloneManifest (p_Manifest p);
  p_ContentHash := p_ContentHash p; p_Size := p_Size p;
  p_CreatedAt := p_CreatedAt p; p_UpdatedAt := p_UpdatedAt p |}.

Lemma cloneMapAnyDepth_unfold m depth :
  deepCloneAnyDepth (AMap m) depth =
  if decide (maxMetadataNestingDepth < depth) then ANil else AMap (cloneMapAnyDepth m depth).
Proof.
  unfold cloneMapAnyDepth, gm_map. cbn [deepCloneAnyDepth].
  destruct m as [g|]; repeat case_decide; done.
Qed.

(** Within the bound the clone agrees with the unbounded one. *)
Lemma deepCloneAnyDepth_deep v depth :
  depth + any_depth v ≤ maxMetadataNestingDepth → deepCloneAnyDepth v depth = deepCloneAny v.
Proof.
  revert depth. induction v as [| | | | | | | | |g IH|l IH] using any_rect_depth; intros depth Hd;
    cbn [deepCloneAnyDepth deepCloneAny]; rewrite decide_False by lia; try done.
  - case_decide; [done|]. do 2 f_equal. apply map_fmap_ext. intros k x Hx.
    apply (IH k x Hx). apply any_depth_map in Hx. lia.
  - do 2 f_equal. apply list_fmap_ext. intros i x Hx%list_elem_of_lookup_2.
    rewrite Forall_forall in IH. apply (IH x Hx). apply any_depth_slice in Hx. lia.
Qed.

(** Metadata nested at most 32 containers deep is cloned in full. *)
Lemma cloneMetadata_deep m :
  any_depth (AMap m) ≤ maxMetadataNestingDepth → cloneMetadata m = cloneMapAny m.
Proof.
  intros Hd. unfold cloneMetadata, cloneMapAnyDepth, cloneMapAny.
  rewrite decide_False by (unfold maxMetadataNestingDepth; lia).
  destruct m as [g|]; [|done]. unfold gm_map. case_decide; [done|]. f_equal.
  apply map_fmap_ext. intros k x Hx. apply deepCloneAnyDepth_deep.
  apply any_depth_map in Hx. lia.
Qed.

(** Cloning twice is cloning once. *)
Lemma deepCloneAnyDepth_idemp v depth :
  deepCloneAnyDepth (deepCloneAnyDepth v depth) depth = deepCloneAnyDepth v depth.
Proof.
  revert depth. induction v as [| | | | | | | | |g IH|l IH] using any_rect_depth; intros depth;
    cbn [deepCloneAnyDepth];
    (destruct (decide (maxMetadataNestingDepth < depth)) as [Hd|Hd];
     [cbn [deepCloneAnyDepth]; by rewrite decide_True|]);
    try solve [cbn [deepCloneAnyDepth]; by rewrite decide_False].
  - case_decide as Hg; cbn [deepCloneAnyDepth]; rewrite decide_False by done; [done|].
    rewrite decide_False by (by rewrite map_size_fmap). do 2 f_equal.
    rewrite <-map_fmap_compose. apply map_fmap_ext. intros k x Hx. by apply (IH k x Hx).
  - cbn [deepCloneAnyDepth]. rewrite decide_False by done. do 2 f_equal.
    rewrite <-list_fmap_compose. apply list_fmap_ext. intros i x Hx%list_elem_of_lookup_2.
    rewrite Forall_forall in IH. by apply (IH x Hx).
Qed.

Lemma gm_map_idemp {V} (f : V → V) (m : gomap V) :
  (∀ x, f (f x) = f x) → gm_map f (gm_map f m) = gm_map f m.
Proof.
  intros Hf. destruct m as [g|]; [|done]. unfold gm_map. simpl.
  case_decide; simpl; [done|]. rewrite decide_False by (by rewrite map_size_fmap).
  f_equal. rewrite <-map_fmap_compose. apply map_fmap_ext. intros k x _. apply Hf.
Qed.

Lemma cloneMetadata_idemp m : cloneMetadata (cloneMetadata m) = cloneMetadata m.
Proof.
  unfold cloneMetadata, cloneMapAnyDepth. rewrite decide_False by (unfold maxMetadataNestingDepth; lia).
  apply gm_map_idemp. intros x. apply deepCloneAnyDepth_idemp.
Qed.

Lemma clonePlugin_idemp p : clonePlugin (clonePlugin p) = clonePlugin p.
Proof.
  unfold clonePlugin, cloneManifest, cloneManifestEntries. simpl.
  by rewrite cloneMetadata_idemp, !gm_map_idemp.
Qed.

#[export] Hint Rewrite cloneMetadata_idemp clonePlugin_idemp : ana_rw.
