(* ===== verification/PluginRepo.v ===== *)
(** * The in-memory plugin repository (pkg/storage/memory/plugin_repo.go)

    Like the workspace repository: every method is one atomic function of the
    state. Listing cursors are decimal offsets into the (creation time, id) order;
    [PluginListing] discharges the pagination interface of [Paging]. *)

From S2P Require Import Prelude GoString GoError GoValue WorkspaceTypes Paging PluginTypes.
From stdpp Require Import options.

Module PluginRepository.

Record repo := {
  byID : gmap PluginID Plugin;
  idByNameKey : gmap (Namespace * string) PluginID;
  closed : bool;
}.

Definition NewPluginRepository : repo :=
  {| byID := ∅; idByNameKey := ∅; closed := false |}.

Definition pluginNameKey (namespace : Namespace) (name : string) : Namespace * string :=
  (namespace, name).

Definition Insert (p : Plugin) (r : repo) : result unit * repo :=
  if closed r then (Err ErrStorageClosed, r) else
  match byID r !! p_ID p with
  | Some existing =>
    if decide (p_Namespace existing = p_Namespace p ∧ p_Name existing = p_Name p)
    then (match errors_Join [ErrPluginIDConflict; ErrPluginNameConflict] with
          | Some e => Err e | None => Ok () end, r)
    else (Err ErrPluginIDConflict, r)
  | None =>
    let nameKey := pluginNameKey (p_Namespace p) (p_Name p) in
    match idByNameKey r !! nameKey with
    | Some _ => (Err ErrPluginNameConflict, r)
    | None => (Ok (), {| byID := <[p_ID p := clonePlugin p]> (byID r);
                         idByNameKey := <[nameKey := p_ID p]> (idByNameKey r);
                         closed := closed r |})
    end
  end.

(** [p.ID = existing.ID; p.CreatedAt = existing.CreatedAt] *)
Definition keep_identity (existing p : Plugin) : Plugin := {|
  p_ID := p_ID existing; p_Namespace := p_Namespace p; p_Name := p_Name p;
  p_Description := p_Description p; p_Manifest := p_Manifest p;
  p_ContentHash := p_ContentHash p; p_Size := p_Size p;
  p_CreatedAt := p_CreatedAt existing; p_UpdatedAt := p_UpdatedAt p |}.

Definition Update (p : Plugin) (r : repo) : result unit * repo :=
  if closed r then (Err ErrStorageClosed, r) else
  match byID r !! p_ID p with
  | None => (Err ErrPluginNotFound, r)
  | Some existing =>
    let nameKey := pluginNameKey (p_Namespace p) (p_Name p) in
    if match idByNameKey r !! nameKey with
       | Some otherID => bool_decide (otherID ≠ p_ID p)
       | None => false
       end
    then (Err ErrPluginNameConflict, r)
    else
      let p' := keep_identity existing p in
      (Ok (), {| byID := <[p_ID p' := clonePlugin p']> (byID r);
                 idByNameKey := <[nameKey := p_ID p']>
                   (delete (pluginNameKey (p_Namespace existing) (p_Name existing)) (idByNameKey r));
                 closed := closed r |})
  end.

Definition Get (id : PluginID) (r : repo) : result Plugin :=
  if closed r then Err ErrStorageClosed else
  match byID r !! id with
  | None => Err ErrPluginNotFound
  | Some p => Ok (clonePlugin p)
  end.

Definition GetByName (namespace : Namespace) (name : string) (r : repo) : result Plugin :=
  if closed r then Err ErrStorageClosed else
  match idByNameKey r !! pluginNameKey namespace name with
  | None => Err ErrPluginNotFound
  | Some id => Ok (clonePlugin (default zero_plugin (byID r !! id)))
  end.

Definition Delete (id : PluginID) (r : repo) : result unit * repo :=
  if closed r then (Err ErrStorageClosed, r) else
  match byID r !! id with
  | None => (Err ErrPluginNotFound, r)
  | Some p =>
    (Ok (), {| byID := delete id (byID r);
               idByNameKey := delete (pluginNameKey (p_Namespace p) (p_Name p)) (idByNameKey r);
               closed := closed r |})
  end.

Definition Close (r : repo) : result unit * repo :=
  (Ok (), {| byID := byID r; idByNameKey := idByNameKey r; closed := true |}).

Definition parsePluginCursor (cursor : string) : result Z :=
  if decide (cursor = "") then Ok 0%Z else
  match strconv_Atoi cursor with
  | Some offset =>
    if decide (offset < 0)%Z then Err (Errorf ("invalid cursor " +:+ strconv_Quote cursor))
    else Ok offset
  | None => Err (Errorf ("invalid cursor " +:+ strconv_Quote cursor))
  end.

(** The filter of [List]'s loop. *)
Definition row_matches (opts : ListOptions) (p : Plugin) : bool :=
  if decide (plo_Namespace opts ≠ "" ∧ p_Namespace p ≠ plo_Namespace opts) then false
  else if decide (plo_NameLike opts ≠ "" ∧ strings_Contains (p_Name p) (plo_NameLike opts) = false)
       then false
  else true.

(** The comparison [slices.SortFunc] is given. *)
Definition compare_rows (a b : Plugin) : Z :=
  if decide (p_CreatedAt a ≠ p_CreatedAt b)
  then if decide (p_CreatedAt a < p_CreatedAt b)%Z then (-1)%Z else 1%Z
  else strings_Compare (p_ID a) (p_ID b).

Definition row_le (a b : Plugin) : Prop := (compare_rows a b ≤ 0)%Z.
#[export] Instance plugin_row_le_dec : RelDecision row_le.
Proof. unfold row_le. intros a b. apply _. Defined.

Definition rows_of (r : repo) : list Plugin := (map_to_list (byID r)).*2.

Definition List_ (opts : ListOptions) (r : repo) : result (list Plugin * string) :=
  if closed r then Err ErrStorageClosed else
  let limit := if decide (plo_Limit opts ≤ 0)%Z then 50%Z else plo_Limit opts in
  match parsePluginCursor (plo_Cursor opts) with
  | Err e => Err e
  | Ok offset =>
    let filtered := merge_sort row_le
      (clonePlugin <$> filter (λ p, row_matches opts p = true) (rows_of r)) in
    let len := Z.of_nat (length filtered) in
    if decide (len ≤ offset)%Z then Ok ([], "") else
    let remaining := (len - offset)%Z in
    let take_ := if decide (limit < remaining)%Z then limit else remaining in
    let end_ := (offset + take_)%Z in
    let next := if decide (end_ < len)%Z then strconv_Itoa end_ else "" in
    Ok (take (Z.to_nat take_) (drop (Z.to_nat offset) filtered), next)
  end.

End PluginRepository.

(** ** The invariant *)

Module PluginInvariant.
Import PluginRepository.

Definition key (p : Plugin) : Namespace * string := (p_Namespace p, p_Name p).

Record repo_inv (r : repo) : Prop := {
  inv_row id p : byID r !! id = Some p → p_ID p = id ∧ idByNameKey r !! key p = Some id;
  inv_name k id : idByNameKey r !! k = Some id → ∃ p, byID r !! id = Some p ∧ key p = k;
}.

Lemma plugin_inv_key_inj r id1 id2 p1 p2 :
  repo_inv r → byID r !! id1 = Some p1 → byID r !! id2 = Some p2 → key p1 = key p2 → id1 = id2.
Proof.
  intros Hr H1 H2 Hk. apply (inv_row r Hr) in H1 as (_ & H1).
  apply (inv_row r Hr) in H2 as (_ & H2). rewrite Hk in H1. congruence.
Qed.

Inductive op :=
| OpInsert (p : Plugin) | OpUpdate (p : Plugin) | OpDelete (id : PluginID) | OpClose.

Definition run_op (o : op) (r : repo) : result unit * repo :=
  match o with
  | OpInsert p => Insert p r
  | OpUpdate p => Update p r
  | OpDelete id => Delete id r
  | OpClose => Close r
  end.

Inductive repo_step : repo → repo → Prop :=
| repo_step_op o r : repo_step r (run_op o r).2.

Definition reachable (r : repo) : Prop := rtc repo_step NewPluginRepository r.

Ltac failed := left; eexists; reflexivity.

(** Each writer either fails with the state unchanged or does the written-out update. *)

Lemma plugin_Insert_cases p r :
  (∃ e, Insert p r = (Err e, r)) ∨
  (closed r = false ∧ byID r !! p_ID p = None ∧ idByNameKey r !! key p = None ∧
   Insert p r = (Ok (), {| byID := <[p_ID p := clonePlugin p]> (byID r);
                           idByNameKey := <[key p := p_ID p]> (idByNameKey r);
                           closed := closed r |})).
Proof.
  unfold Insert. destruct (closed r); [failed|].
  destruct (byID r !! p_ID p); [case_decide; failed|].
  unfold pluginNameKey, key. destruct (idByNameKey r !! _) eqn:E; [failed|]. by right.
Qed.

Lemma plugin_Update_cases p r :
  (∃ e, Update p r = (Err e, r)) ∨
  (∃ ex, closed r = false ∧ byID r !! p_ID p = Some ex ∧
   (∀ id, idByNameKey r !! key p = Some id → id = p_ID p) ∧
   Update p r = (Ok (), {| byID := <[p_ID ex := clonePlugin (keep_identity ex p)]> (byID r);
                           idByNameKey := <[key p := p_ID ex]> (delete (key ex) (idByNameKey r));
                           closed := closed r |})).
Proof.
  unfold Update. destruct (closed r); [failed|].
  destruct (byID r !! p_ID p) as [ex|]; [|failed].
  unfold pluginNameKey, key.
  destruct (idByNameKey r !! _) as [oid|] eqn:E; [case_bool_decide as Ho; [failed|]|];
    right; exists ex; split_and!; try done.
  intros id [= <-]. by destruct (decide (oid = p_ID p)).
Qed.

Lemma plugin_Delete_cases id r :
  (∃ e, Delete id r = (Err e, r)) ∨
  (∃ p, closed r = false ∧ byID r !! id = Some p ∧
    Delete id r = (Ok (), {| byID := delete id (byID r);
                             idByNameKey := delete (key p) (idByNameKey r);
                             closed := closed r |})).
Proof.
  unfold Delete. destruct (closed r); [failed|]. destruct (byID r !! id) as [p|]; [|failed].
  right. by exists p.
Qed.

Lemma plugin_Insert_inv p r : repo_inv r → repo_inv (Insert p r).2.
Proof.
  intros Hr. destruct (plugin_Insert_cases p r) as [[e ->]|(_ & Hid & Hk & ->)]; [done|]. split; simpl.
  - intros id q. rewrite lookup_insert. case_decide as Hd; intros H; simplify_eq.
    + split; [done|]. apply lookup_insert_eq.
    + apply (inv_row r Hr) in H as (? & H). split; [done|].
      rewrite lookup_insert_ne; [done|]. intros E. congruence.
  - intros k id. rewrite !lookup_insert. case_decide as Hd; intros H; simplify_eq.
    + exists (clonePlugin p). by rewrite decide_True.
    + apply (inv_name r Hr) in H as (q & H & Hq). exists q.
      rewrite decide_False; [done|]. congruence.
Qed.

Lemma plugin_Update_inv p r : repo_inv r → repo_inv (Update p r).2.
Proof.
  intros Hr. destruct (plugin_Update_cases p r) as [[e ->]|(ex & _ & Hex & Hk & ->)]; [done|].
  destruct (inv_row r Hr _ _ Hex) as [Hid Hkex]. rewrite Hid. split; cbn [snd byID idByNameKey].
  - intros id q. rewrite lookup_insert. case_decide as Hd; intros H.
    + injection H as <-. split; [simpl; congruence|]. subst. apply lookup_insert_eq.
    + destruct (inv_row r Hr _ _ H) as (Hq & Hkq). split; [done|].
      rewrite lookup_insert_ne, lookup_delete_ne; [done| |].
      * intros E. apply Hd. rewrite E in Hkex. congruence.
      * intros E. apply Hd. symmetry. apply Hk. by rewrite E.
  - intros k id. rewrite lookup_insert. case_decide as Hd.
    + intros [= <-]. exists (clonePlugin (keep_identity ex p)). rewrite lookup_insert_eq.
      by split.
    + rewrite lookup_delete. case_decide as Hd'; [done|]. intros H.
      apply (inv_name r Hr) in H as (q & H & Hq). exists q. rewrite lookup_insert_ne; [done|].
      intros E. subst id. rewrite Hex in H. injection H as ->. done.
Qed.

Lemma plugin_Delete_inv id r : repo_inv r → repo_inv (Delete id r).2.
Proof.
  intros Hr. destruct (plugin_Delete_cases id r) as [[e ->]|(p & _ & Hp & ->)]; [done|]. split; simpl.
  - intros id0 q. rewrite !lookup_delete. case_decide as Hd; [done|]. intros H.
    destruct (inv_row r Hr _ _ H) as (? & Hk). split; [done|].
    rewrite decide_False; [done|]. intros E. apply Hd. by eapply plugin_inv_key_inj.
  - intros k id0. rewrite !lookup_delete. case_decide as Hd; [done|]. intros H.
    apply (inv_name r Hr) in H as (q & H & Hq). exists q.
    rewrite decide_False; [done|]. intros ->. apply Hd. congruence.
Qed.

Lemma plugin_run_op_inv o r : repo_inv r → repo_inv (run_op o r).2.
Proof.
  destruct o; cbn [run_op]; auto using plugin_Insert_inv, plugin_Update_inv, plugin_Delete_inv.
  intros [? ?]. by split.
Qed.

Lemma plugin_reachable_repo_inv r : reachable r → repo_inv r.
Proof.
  revert r. apply (rtc_ind_r (R := repo_step) repo_inv).
  - split; intros ??; simpl; by rewrite lookup_empty.
  - intros r1 r2 _ [o r0] Hinv. by apply plugin_run_op_inv.
Qed.
End PluginInvariant.

(** ** Listing *)

Module PluginListing.
Import PluginRepository PluginInvariant.

Definition row_lt (a b : Plugin) : Prop := (compare_rows a b < 0)%Z.

Lemma plugin_compare_antisym a b : compare_rows b a = (- compare_rows a b)%Z.
Proof.
  unfold compare_rows. repeat case_decide; try lia.
  apply strings_Compare_antisym.
Qed.

Lemma plugin_compare_zero a b : compare_rows a b = 0%Z ↔ p_CreatedAt a = p_CreatedAt b ∧ p_ID a = p_ID b.
Proof.
  unfold compare_rows. repeat case_decide; rewrite ?strings_Compare_eq.
  - split; [done|]. by intros [? _].
  - split; [done|]. by intros [? _].
  - split; [done|]. by intros [_ ?].
Qed.

#[export] Instance plugin_row_lt_trans : Transitive row_lt.
Proof.
  intros a b c. unfold row_lt, compare_rows.
  repeat case_decide; try lia. intros. by eapply strings_Compare_lt_trans.
Qed.

#[export] Instance plugin_row_le_total : Total row_le.
Proof. intros a b. unfold row_le. rewrite (plugin_compare_antisym a b). lia. Qed.

#[export] Instance plugin_row_le_trans : Transitive row_le.
Proof.
  intros a b c. unfold row_le, compare_rows. repeat case_decide; try lia.
  rewrite !strings_Compare_le. apply transitivity.
Qed.

(** The rows the options select, in listing order, without pagination. *)
Definition selection (r : repo) (o : ListOptions) : list Plugin :=
  merge_sort row_le (clonePlugin <$> filter (λ p, row_matches o p = true) (rows_of r)).

Lemma plugin_elem_of_rows r p : p ∈ rows_of r ↔ ∃ id, byID r !! id = Some p.
Proof.
  unfold rows_of. rewrite list_elem_of_fmap. split.
  - intros ([id p'] & -> & H). exists id. by apply elem_of_map_to_list.
  - intros [id H]. exists (id, p). split; [done|]. by apply elem_of_map_to_list.
Qed.

Lemma plugin_selection_elem r o p :
  p ∈ selection r o ↔ ∃ id p0, byID r !! id = Some p0 ∧ row_matches o p0 = true ∧ p = clonePlugin p0.
Proof.
  unfold selection. rewrite merge_sort_Permutation, list_elem_of_fmap. split.
  - intros (p0 & -> & [Hm [id Hid]%plugin_elem_of_rows]%list_elem_of_filter). eauto.
  - intros (id & p0 & Hid & Hm & ->). exists p0. split; [done|].
    apply list_elem_of_filter. split; [done|]. apply plugin_elem_of_rows. eauto.
Qed.

Lemma selection_NoDup_id r o : repo_inv r → NoDup (p_ID <$> selection r o).
Proof.
  intros Hr. unfold selection. rewrite merge_sort_Permutation, <-list_fmap_compose.
  change (p_ID ∘ clonePlugin) with p_ID.
  eapply sublist_NoDup; [|apply fmap_sublist, sublist_filter].
  unfold rows_of. rewrite <-list_fmap_compose.
  replace ((p_ID ∘ snd) <$> map_to_list (byID r)) with ((map_to_list (byID r)).*1).
  - apply NoDup_fst_map_to_list.
  - apply list_fmap_ext. intros i [id p] Hi%list_elem_of_lookup_2. simpl.
    apply elem_of_map_to_list in Hi. by destruct (inv_row r Hr _ _ Hi).
Qed.

Lemma plugin_selection_sorted r o : repo_inv r → StronglySorted row_lt (selection r o).
Proof.
  intros Hr. eapply StronglySorted_strict.
  - apply (StronglySorted_merge_sort row_le).
  - eapply NoDup_fmap_1, selection_NoDup_id. done.
  - intros x y Hx Hy Hle Hne. unfold row_le, row_lt in *.
    assert (compare_rows x y ≠ 0%Z); [|lia]. rewrite plugin_compare_zero. intros [_ Hid]. apply Hne.
    apply plugin_selection_elem in Hx as (i & x0 & Hx & _ & ->).
    apply plugin_selection_elem in Hy as (j & y0 & Hy & _ & ->). simpl in Hid.
    destruct (inv_row r Hr _ _ Hx), (inv_row r Hr _ _ Hy). congruence.
Qed.

Lemma selection_length r o : length (selection r o) ≤ size (byID r).
Proof.
  unfold selection, rows_of. rewrite merge_sort_Permutation, length_fmap, length_filter.
  by rewrite length_fmap, length_map_to_list.
Qed.

Definition with_page (o : ListOptions) (lim : Z) (c : string) : ListOptions := {|
  plo_Namespace := plo_Namespace o; plo_NameLike := plo_NameLike o;
  plo_Limit := lim; plo_Cursor := c |}.

#[export] Instance plugin_paged : Paged repo ListOptions Plugin :=
  λ r o lim c, List_ (with_page o lim c) r.

(** An open repository whose row count fits Go's [int]. *)
Definition listing_valid (r : repo) : Prop :=
  repo_inv r ∧ closed r = false ∧ (Z.of_nat (size (byID r)) ≤ int64_max)%Z.

Definition cursor_pos (r : repo) (o : ListOptions) (n : nat) (c : string) : Prop :=
  (n = 0 ∧ c = "") ∨ (n < length (selection r o) ∧ c = strconv_Itoa (Z.of_nat n)).

Lemma parse_cursor_pos r o n c :
  listing_valid r → cursor_pos r o n c → parsePluginCursor c = Ok (Z.of_nat n).
Proof.
  intros (_ & _ & Hsz) [[-> ->]|[Hn ->]]; [done|]. unfold parsePluginCursor.
  pose proof (selection_length r o).
  rewrite decide_False by apply strconv_Itoa_nonempty.
  rewrite strconv_Atoi_Itoa by (unfold int64_min; lia). rewrite decide_False by lia. done.
Qed.

Lemma plugin_listing_start r o : listing_valid r → cursor_pos r o 0 "".
Proof. by left. Qed.

Lemma plugin_listing_page r o n c lim :
  listing_valid r → (0 < lim)%Z → cursor_pos r o n c →
  ∃ next, page r o lim c = Ok (take (Z.to_nat lim) (drop n (selection r o)), next) ∧
    if decide (n + Z.to_nat lim < length (selection r o))
    then next ≠ "" ∧ cursor_pos r o (n + Z.to_nat lim) next
    else next = "".
Proof.
  intros Hv Hlim Hpos. unfold page, plugin_paged, List_.
  pose proof (parse_cursor_pos r o n c Hv Hpos) as Hparse.
  destruct Hv as (Hr & Hcl & _). rewrite Hcl. cbn [plo_Limit plo_Cursor with_page].
  rewrite decide_False by lia. rewrite Hparse.
  change (merge_sort row_le _) with (selection r o).
  destruct (decide (Z.of_nat (length (selection r o)) ≤ Z.of_nat n)%Z) as [Hge|Hlt].
  { exists "". rewrite drop_ge by lia. rewrite take_nil. by rewrite decide_False by lia. }
  rewrite Nat2Z.id. eexists. split; [do 2 f_equal|].
  - case_decide; [done|]. rewrite !take_ge by (rewrite length_drop; lia). done.
  - destruct (decide (n + Z.to_nat lim < length (selection r o))) as [Hm|Hm].
    + rewrite (decide_True (P := (lim < _)%Z)) by lia. rewrite decide_True by lia.
      split; [apply strconv_Itoa_nonempty|]. right. split; [done|]. f_equal. lia.
    + rewrite decide_False; [done|]. case_decide; lia.
Qed.

#[export] Instance plugin_paged_laws : PagedLaws repo ListOptions Plugin := {|
  pg_valid := listing_valid;
  pg_enum := selection;
  pg_pos := cursor_pos;
  pg_start := plugin_listing_start;
  pg_page := plugin_listing_page;
|}.
End PluginListing.

(** ** What the repository promises *)

Module PluginRepoSpec.
Import PluginRepository PluginInvariant PluginListing.

Lemma GetByName_iff r ns name :
  repo_inv r → closed r = false →
  (∀ p, GetByName ns name r = Ok p ↔
    ∃ id p0, byID r !! id = Some p0 ∧ key p0 = (ns, name) ∧ p = clonePlugin p0) ∧
  (GetByName ns name r = Err ErrPluginNotFound ↔
    ∀ id p0, byID r !! id = Some p0 → key p0 ≠ (ns, name)).
Proof.
  intros Hr Hcl. unfold GetByName, pluginNameKey. rewrite Hcl.
  destruct (idByNameKey r !! (ns, name)) as [id|] eqn:Hk.
  - apply (inv_name r Hr) in Hk as (p1 & Hp1 & Hk1). rewrite Hp1. simpl. split.
    + intros p. split; [intros [= <-]; eauto|]. intros (id' & p0 & Hp0 & Hk0 & ->).
      assert (id' = id) as -> by (eapply plugin_inv_key_inj; [done..|congruence]). congruence.
    + split; [done|]. intros Hno. by destruct (Hno id p1).
  - assert (∀ id p0, byID r !! id = Some p0 → key p0 ≠ (ns, name)) as Hno.
    { intros id p0 Hp0 E. apply (inv_row r Hr) in Hp0 as (_ & Hp0). congruence. }
    split; [|done]. intros p. split; [done|]. intros (id & p0 & Hp0 & E & _). by destruct (Hno id p0).
Qed.

(** Every state the plugin repository reaches keeps rows under their own ids and
    the (namespace, name) index the exact inverse of the rows' names, renames
    included: names are unique per namespace. *)
Theorem plugin_reachable_invariant (r : repo) : reachable r → repo_inv r.
Proof. apply plugin_reachable_repo_inv. Qed.

Definition sample_plugin (id name : string) (created : Time) : Plugin := {|
  p_ID := id; p_Namespace := "default"; p_Name := name; p_Description := "";
  p_Manifest := zero_manifest; p_ContentHash := "sha256:00"; p_Size := 2;
  p_CreatedAt := created; p_UpdatedAt := created |}.

Definition sample_repo : repo :=
  (Insert (sample_plugin "plg_2" "lint" 4)
    (Insert (sample_plugin "plg_1" "git" 4) NewPluginRepository).2).2.

Lemma plugin_sample_reachable : reachable sample_repo.
Proof.
  eapply rtc_l; [apply (repo_step_op (OpInsert (sample_plugin "plg_1" "git" 4)))|].
  eapply rtc_l; [apply (repo_step_op (OpInsert (sample_plugin "plg_2" "lint" 4)))|].
  apply rtc_refl.
Qed.

Lemma plugin_reachable_invariant_witness : repo_inv sample_repo.
Proof. apply (plugin_reachable_invariant sample_repo), plugin_sample_reachable. Defined.

(** Offset pagination is complete and duplicate-free: following the cursors of
    an unchanged reachable repository with any positive page size returns, in
    strictly increasing (creation time, id) order, exactly the clones of the rows the
    options select, within one more round than there are rows. *)
Theorem plugin_pages_complete (r : repo) (o : ListOptions) (lim : Z) (fuel : nat) :
  reachable r → closed r = false → (Z.of_nat (size (byID r)) ≤ int64_max)%Z → (0 < lim)%Z →
  size (byID r) < fuel →
  ∃ rows, drain fuel r o lim "" [] = Some (Ok rows) ∧ StronglySorted row_lt rows ∧
    ∀ p, p ∈ rows ↔ ∃ id p0, byID r !! id = Some p0 ∧ row_matches o p0 = true ∧ p = clonePlugin p0.
Proof.
  intros Hr%plugin_reachable_repo_inv Hcl Hsz Hlim Hfuel. exists (selection r o).
  split; [|split; [by apply plugin_selection_sorted|apply plugin_selection_elem]].
  rewrite (drain_complete fuel r o lim); [done|by split_and!|done|].
  eapply Nat.le_lt_trans; [apply (selection_length r o)|done].
Qed.

Definition all_rows : ListOptions :=
  {| plo_Namespace := "default"; plo_NameLike := "i"; plo_Limit := 0; plo_Cursor := "" |}.

Lemma plugin_pages_complete_witness :
  (∃ rows, drain 3 sample_repo all_rows 1 "" [] = Some (Ok rows) ∧ StronglySorted row_lt rows ∧
    ∀ p, p ∈ rows ↔ ∃ id p0, byID sample_repo !! id = Some p0 ∧ row_matches all_rows p0 = true ∧
                             p = clonePlugin p0) ∧
  drain 3 sample_repo all_rows 1 "" [] =
    Some (Ok [sample_plugin "plg_1" "git" 4; sample_plugin "plg_2" "lint" 4]).
Proof.
  split; [|vm_compute; reflexivity].
  apply (plugin_pages_complete sample_repo all_rows 1 3);
    [apply plugin_sample_reachable|reflexivity|vm_compute; discriminate|reflexivity|].
  apply Nat.ltb_lt. vm_compute. reflexivity.
Defined.

(** A successful [Update] keeps the row's id and creation time, stores the rest
    of the argument, answers to the new name and no longer to the old one, and
    leaves every other row as it was; an unsuccessful one changes nothing. *)
Theorem plugin_update_spec (r r' : repo) (p : Plugin) (res : result unit) :
  reachable r → Update p r = (res, r') →
  match res with
  | Err _ => r' = r
  | Ok _ => ∃ ex, byID r !! p_ID p = Some ex ∧
      GetByName (p_Namespace p) (p_Name p) r' = Ok (clonePlugin (keep_identity ex p)) ∧
      Get (p_ID p) r' = Ok (clonePlugin (keep_identity ex p)) ∧
      (key ex ≠ key p → GetByName (p_Namespace ex) (p_Name ex) r' = Err ErrPluginNotFound) ∧
      ∀ id, id ≠ p_ID p → Get id r' = Get id r
  end.
Proof.
  intros Hr%plugin_reachable_repo_inv Hupd. pose proof (plugin_Update_inv p r Hr) as Hr'. rewrite Hupd in Hr'.
  destruct (plugin_Update_cases p r) as [[e E]|(ex & Hcl & Hex & Hk & E)]; rewrite E in Hupd;
    injection Hupd as <- <-; [done|]. simpl in Hr'.
  destruct (inv_row r Hr _ _ Hex) as [Hid _]. exists ex. split; [done|].
  set (r' := {| byID := _ |}) in *.
  assert (byID r' !! p_ID p = Some (clonePlugin (keep_identity ex p))) as Hrow.
  { simpl. rewrite Hid. apply lookup_insert_eq. }
  assert (∀ id, id ≠ p_ID p → byID r' !! id = byID r !! id) as Hother.
  { intros id Hne. simpl. rewrite Hid. by apply lookup_insert_ne. }
  destruct (GetByName_iff r' (p_Namespace ex) (p_Name ex) Hr' Hcl) as [_ Hnf].
  split_and!.
  - apply (GetByName_iff r'); [done|done|]. eexists _, _. split_and!; [done|done|].
    by rewrite clonePlugin_idemp.
  - unfold Get. simpl closed. by rewrite Hcl, Hrow, clonePlugin_idemp.
  - intros Hne. apply Hnf. intros id p0 Hp0 Hkey.
    destruct (decide (id = p_ID p)) as [->|Hd].
    + rewrite Hrow in Hp0. injection Hp0 as <-. by apply Hne.
    + rewrite Hother in Hp0 by done. apply Hd. by eapply (plugin_inv_key_inj r id (p_ID p) p0 ex).
  - intros id Hne. unfold Get. simpl closed. by rewrite Hother.
Qed.

Lemma plugin_update_spec_witness :
  ∃ r', Update (sample_plugin "plg_1" "git2" 9) sample_repo = (Ok (), r') ∧
    GetByName "default" "git2" r' = Ok (keep_identity (sample_plugin "plg_1" "git" 4)
                                                      (sample_plugin "plg_1" "git2" 9)) ∧
    GetByName "default" "git" r' = Err ErrPluginNotFound.
Proof.
  exists (Update (sample_plugin "plg_1" "git2" 9) sample_repo).2.
  assert (Update (sample_plugin "plg_1" "git2" 9) sample_repo =
    (Ok (), (Update (sample_plugin "plg_1" "git2" 9) sample_repo).2)) as H by (vm_compute; reflexivity).
  destruct (plugin_update_spec sample_repo _ _ _ plugin_sample_reachable H) as (ex & Hex & Hnew & _ & Hold & _).
  vm_compute in Hex. injection Hex as <-. split; [exact H|]. split; [exact Hnew|].
  apply Hold. discriminate.
Defined.
End PluginRepoSpec.
