(* ===== verification/PluginStorage.v ===== *)
(** * The in-memory plugin blob store (pkg/storage/memory/plugin_storage.go)

    [Put] takes the mutex twice: a first critical section refuses a closed store,
    the body is read with the mutex released, a second critical section checks
    again and stores the blob. [Put] is that sequence without interference;
    [StorageConcurrency] lets the critical sections of any number of calls
    interleave. [plugin.Hash] (pkg/manager/plugin/hash.go) is here too. *)

From S2P Require Import Prelude GoString GoError Sha256 WorkspaceTypes PluginTypes.
From stdpp Require Import options.

(** An [io.Reader]: the bytes it delivers before it ends, and how it ends ([None]
    is [io.EOF]). An error is delivered by a read of its own. *)
Record reader := {
  rd_bytes : string;
  rd_err : option error;
}.

(** [bytes.NewReader] *)
Definition bytes_reader (s : string) : reader := {| rd_bytes := s; rd_err := None |}.

(** [io.ReadAll(&io.LimitedReader{R: r, N: n})]: the limit hides an error that
    comes after the first [n] bytes. *)
Definition read_limited (r : reader) (n : Z) : result string :=
  if decide (Z.of_nat (String.length (rd_bytes r)) < n)%Z
  then match rd_err r with Some e => Err e | None => Ok (rd_bytes r) end
  else Ok (String.substring 0 (Z.to_nat n) (rd_bytes r)).

(** [plugin.Hash]: the digest with its prefix, and the byte count. *)
Definition Hash (content : reader) : result (string * Z) :=
  match rd_err content with
  | Some e => Err e
  | None => Ok ("sha256:" +:+ hex_encode (sha256 (rd_bytes content)),
                Z.of_nat (String.length (rd_bytes content)))
  end.

Module PluginStorage.

Record memoryBlob := {
  mb_body : string;
  mb_object : StoredObject;
}.

Record storage := {
  blobs : gmap PluginID memoryBlob;
  closed : bool;
}.

Definition NewPluginStorage : storage := {| blobs := ∅; closed := false |}.

Definition memoryStorageMaxPutBodyBytes : Z := 256 * 2 ^ 20.

(** The first critical section. *)
Definition put_check (s : storage) : result unit :=
  if closed s then Err ErrStorageClosed else Ok ().

(** Reading and hashing the body, outside the mutex. *)
Definition put_read (body : reader) : result (string * StoredObject) :=
  match read_limited body (memoryStorageMaxPutBodyBytes + 1) with
  | Err e => Err e
  | Ok data =>
    if decide (Z.of_nat (String.length data) > memoryStorageMaxPutBodyBytes)%Z
    then Err (Errorf_w "" ErrCorruptArchive
                (": plugin body exceeds " +:+ strconv_Itoa memoryStorageMaxPutBodyBytes +:+ " bytes"))
    else match Hash (bytes_reader data) with
         | Err e => Err e
         | Ok (hash, size) => Ok (data, {| so_Size := size; so_ContentHash := hash |})
         end
  end.

(** The second critical section. *)
Definition put_commit (id : PluginID) (data : string) (obj : StoredObject) (s : storage)
    : result StoredObject * storage :=
  if closed s then (Err ErrStorageClosed, s)
  else (Ok obj, {| blobs := <[id := {| mb_body := data; mb_object := obj |}]> (blobs s);
                   closed := closed s |}).

Definition Put (id : PluginID) (body : reader) (s : storage) : result StoredObject * storage :=
  match put_check s with
  | Err e => (Err e, s)
  | Ok _ => match put_read body with
            | Err e => (Err e, s)
            | Ok (data, obj) => put_commit id data obj s
            end
  end.

Definition Get (id : PluginID) (s : storage) : result (reader * StoredObject) :=
  if closed s then Err ErrStorageClosed else
  match blobs s !! id with
  | None => Err ErrStorageNotFound
  | Some blob => Ok (bytes_reader (mb_body blob), mb_object blob)
  end.

Definition Delete (id : PluginID) (s : storage) : result unit * storage :=
  if closed s then (Err ErrStorageClosed, s)
  else (Ok (), {| blobs := delete id (blobs s); closed := closed s |}).

Definition PresignURL (id : PluginID) (s : storage) : result string := Err ErrUnsupported.

Definition List_ (s : storage) : result (list PluginID) :=
  if closed s then Err ErrStorageClosed
  else Ok (merge_sort String.le (map_to_list (blobs s)).*1).

Definition Close (s : storage) : result unit * storage :=
  (Ok (), {| blobs := blobs s; closed := true |}).

End PluginStorage.

(** ** Interleaved calls *)

Module StorageConcurrency.
Import PluginStorage.

(** Calls of [Put] that passed the first critical section, by call. *)
Record sys := {
  st : storage;
  pending : gmap nat (PluginID * reader);
}.

Definition set_st (s : storage) (y : sys) : sys := {| st := s; pending := pending y |}.

Inductive sys_step : sys → sys → Prop :=
| step_begin y tid id body :
    pending y !! tid = None → put_check (st y) = Ok () →
    sys_step y {| st := st y; pending := <[tid := (id, body)]> (pending y) |}
| step_reject y tid id body e :
    pending y !! tid = Some (id, body) → put_read body = Err e →
    sys_step y {| st := st y; pending := delete tid (pending y) |}
| step_commit y tid id body data obj :
    pending y !! tid = Some (id, body) → put_read body = Ok (data, obj) →
    sys_step y {| st := (put_commit id data obj (st y)).2; pending := delete tid (pending y) |}
| step_delete y id : sys_step y (set_st (Delete id (st y)).2 y)
| step_close y : sys_step y (set_st (Close (st y)).2 y).

Definition sys_init : sys := {| st := NewPluginStorage; pending := ∅ |}.

(** A blob described by its own content. *)
Definition blob_ok (b : memoryBlob) : Prop :=
  Hash (bytes_reader (mb_body b)) = Ok (so_ContentHash (mb_object b), so_Size (mb_object b)) ∧
  (so_Size (mb_object b) ≤ memoryStorageMaxPutBodyBytes)%Z.

Definition store_ok (s : storage) : Prop := map_Forall (λ _, blob_ok) (blobs s).

Lemma put_read_ok body data obj :
  put_read body = Ok (data, obj) →
  blob_ok {| mb_body := data; mb_object := obj |} ∧ rd_err body = None ∧ data = rd_bytes body.
Proof.
  unfold put_read. destruct (read_limited body _) as [d|] eqn:Hd; [|done].
  case_decide as Hlen; [done|]. intros [= <- <-].
  unfold read_limited in Hd. case_decide as Hl.
  - destruct (rd_err body); [done|]. injection Hd as <-. split_and!; [|done|done].
    split; [done|]. simpl. lia.
  - injection Hd as <-. exfalso. apply Hlen.
    rewrite substring_length by lia. unfold memoryStorageMaxPutBodyBytes in *. lia.
Qed.

Lemma put_commit_ok id data obj s :
  blob_ok {| mb_body := data; mb_object := obj |} → store_ok s → store_ok (put_commit id data obj s).2.
Proof.
  intros Hb Hs. unfold put_commit. destruct (closed s); [done|].
  by apply map_Forall_insert_2.
Qed.

Lemma Delete_ok id s : store_ok s → store_ok (Delete id s).2.
Proof.
  intros Hs. unfold Delete. destruct (closed s); [done|]. by apply map_Forall_delete.
Qed.

Lemma sys_step_ok y y' : sys_step y y' → store_ok (st y) → store_ok (st y').
Proof.
  intros Hstep Hy. destruct Hstep as [|y tid id body e _ _|y tid id body data obj _ Hr|y id|y]; simpl; try done.
  - apply put_commit_ok; [|done]. by apply put_read_ok in Hr as [? _].
  - by apply Delete_ok.
Qed.

Lemma sys_step_closed y y' :
  sys_step y y' → closed (st y) = true → closed (st y') = true ∧ blobs (st y') = blobs (st y).
Proof.
  intros Hstep Hc. destruct Hstep as [y tid id body ? ?|y tid id body e _ _|y tid id body data obj _ _|y id|y];
    simpl; unfold put_commit, Delete; rewrite ?Hc; done.
Qed.

Lemma sys_steps_ok y : rtc sys_step sys_init y → store_ok (st y).
Proof.
  apply (rtc_ind_r (R := sys_step) (λ y, store_ok (st y))).
  - apply map_Forall_empty.
  - intros y1 y2 _ Hstep. by apply sys_step_ok.
Qed.

(** C34. However calls of [Put], [Delete] and [Close] interleave, what [Get]
    returns is described by its own content: the object's hash and size are those
    of the bytes delivered, and the size is within the limit. *)
Theorem stored_blob_integrity (y : sys) (id : PluginID) (r : reader) (obj : StoredObject) :
  rtc sys_step sys_init y → Get id (st y) = Ok (r, obj) →
  Hash r = Ok (so_ContentHash obj, so_Size obj) ∧ (so_Size obj ≤ memoryStorageMaxPutBodyBytes)%Z.
Proof.
  intros Hy%sys_steps_ok. unfold Get. destruct (closed (st y)); [done|].
  destruct (blobs (st y) !! id) as [b|] eqn:Hb; [|done]. intros [= <- <-].
  by apply (Hy id b).
Qed.

Definition sample_zip : reader := bytes_reader "PK".

Lemma stored_blob_integrity_witness :
  ∃ y r obj, rtc sys_step sys_init y ∧ Get "plg_1" (st y) = Ok (r, obj) ∧
  Hash r = Ok (so_ContentHash obj, so_Size obj) ∧ (so_Size obj ≤ memoryStorageMaxPutBodyBytes)%Z.
Proof.
  destruct (put_read sample_zip) as [[data obj]|e] eqn:Hr; [|by vm_compute in Hr].
  pose (y1 := {| st := NewPluginStorage; pending := {[7 := ("plg_1", sample_zip)]} |}).
  pose (y2 := {| st := (put_commit "plg_1" data obj NewPluginStorage).2;
                 pending := delete 7 (pending y1) |}).
  exists y2, (bytes_reader data), obj.
  assert (rtc sys_step sys_init y2) as Hy2.
  { eapply rtc_l; [by apply (step_begin sys_init 7 "plg_1" sample_zip)|].
    eapply rtc_l; [|apply rtc_refl]. by apply (step_commit y1 7 "plg_1" sample_zip). }
  assert (Get "plg_1" (st y2) = Ok (bytes_reader data, obj)) as Hget by (vm_compute; reflexivity).
  split; [done|]. split; [done|]. exact (stored_blob_integrity y2 "plg_1" _ obj Hy2 Hget).
Defined.

(** Closing is final under interleaving: once closed, whatever calls were in
    flight or start later, no blob is added, replaced or removed, and [Get] and
    [List] report [ErrStorageClosed]. *)
Theorem closed_store_frozen (y y' : sys) (id : PluginID) :
  closed (st y) = true → rtc sys_step y y' →
  blobs (st y') = blobs (st y) ∧ Get id (st y') = Err ErrStorageClosed ∧
  List_ (st y') = Err ErrStorageClosed.
Proof.
  intros Hc Hsteps. assert (closed (st y') = true ∧ blobs (st y') = blobs (st y)) as [Hc' Hb].
  { induction Hsteps as [y|y y1 y' Hstep _ IH]; [done|].
    destruct (sys_step_closed _ _ Hstep Hc) as [Hc1 Hb1].
    destruct (IH Hc1) as [? ->]. done. }
  split; [done|]. unfold Get, List_. by rewrite Hc'.
Qed.

Lemma closed_store_frozen_witness :
  Get "plg_1" (st (set_st (Delete "plg_1" (Close NewPluginStorage).2).2
                     (set_st (Close NewPluginStorage).2 sys_init))) = Err ErrStorageClosed.
Proof.
  apply (closed_store_frozen (set_st (Close NewPluginStorage).2 sys_init)); [reflexivity|].
  eapply rtc_l; [|apply rtc_refl].
  apply (step_delete (set_st (Close NewPluginStorage).2 sys_init) "plg_1").
Defined.

(** [Put] without interference: on an open store, a body that ends normally
    within 256 MiB is stored, the returned object carries its length and SHA-256,
    [Get] delivers exactly these bytes, and no other blob changes; a body over the
    limit is [ErrCorruptArchive] and a read error is returned, storing nothing. *)
Theorem put_spec (id : PluginID) (body : reader) (s : storage) :
  closed s = false →
  let len := Z.of_nat (String.length (rd_bytes body)) in
  let hash := "sha256:" +:+ hex_encode (sha256 (rd_bytes body)) in
  ((len ≤ memoryStorageMaxPutBodyBytes)%Z → rd_err body = None →
    ∃ s', Put id body s = (Ok {| so_Size := len; so_ContentHash := hash |}, s') ∧
      Get id s' = Ok (bytes_reader (rd_bytes body), {| so_Size := len; so_ContentHash := hash |}) ∧
      ∀ id', id' ≠ id → Get id' s' = Get id' s) ∧
  ((memoryStorageMaxPutBodyBytes < len)%Z →
    ∃ e, Put id body s = (Err e, s) ∧ errors_Is e ErrCorruptArchive = true) ∧
  (∀ e, (len ≤ memoryStorageMaxPutBodyBytes)%Z → rd_err body = Some e → Put id body s = (Err e, s)).
Proof.
  intros Hc len hash. unfold Put, put_check. rewrite Hc. unfold put_read, read_limited.
  change (Z.of_nat (String.length (rd_bytes body))) with len. split_and!.
  - intros Hlen Herr. rewrite decide_True by lia. rewrite Herr.
    change (Z.of_nat (String.length (rd_bytes body))) with len. rewrite decide_False by lia.
    unfold Hash, put_commit. cbn [rd_err bytes_reader rd_bytes]. rewrite Hc.
    eexists. split; [done|]. unfold Get. cbn [closed blobs]. rewrite Hc. split.
    + by rewrite lookup_insert_eq.
    + intros id' Hne. by rewrite lookup_insert_ne.
  - intros Hlen. rewrite decide_False by lia. rewrite decide_True.
    + eexists. split; [done|]. by rewrite Is_wrap.
    + rewrite substring_length by lia. unfold memoryStorageMaxPutBodyBytes. lia.
  - intros e Hlen Herr. rewrite decide_True by lia. by rewrite Herr.
Qed.

Lemma put_spec_witness :
  ∃ s', Put "plg_1" sample_zip NewPluginStorage =
          (Ok {| so_Size := 2; so_ContentHash := "sha256:" +:+ hex_encode (sha256 "PK") |}, s') ∧
    Get "plg_1" s' = Ok (bytes_reader "PK",
          {| so_Size := 2; so_ContentHash := "sha256:" +:+ hex_encode (sha256 "PK") |}) ∧
    ∀ id', id' ≠ "plg_1" → Get id' s' = Get id' NewPluginStorage.
Proof.
  apply (proj1 (put_spec "plg_1" sample_zip NewPluginStorage eq_refl)); [|reflexivity].
  vm_compute. discriminate.
Defined.
End StorageConcurrency.
