(* ===== verification/Manifest.v ===== *)
(** * Plugin manifests (pkg/manager/plugin/manifest.go)

    [ValidateManifest] and its helpers. Go ranges over maps in an unspecified
    order, which decides the order of the collected errors; [MapRange] is that
    order, and [validate_manifest_iff] shows that whether a manifest is accepted
    does not depend on it. [ParseManifest] is a parameter's result ([toml.Unmarshal]
    of go-toml) followed by validation. *)

From S2P Require Import Prelude GoString GoError GoValue GoPath WorkspaceTypes PluginTypes.
From Stdlib Require Import Ascii.
From stdpp Require Import options.

Module Manifest.

Definition manifestSchemaV1 : Z := 1.
Definition maxMetadataWalkNodes : Z := 4096.

Definition is_plugin_name_char (c : ascii) : bool := is_lower c || is_digit c || is_dash c.

(** [pluginNamePattern], [^[a-z0-9-]{1,64}$] *)
Definition pluginNamePattern (s : string) : bool := matches_class is_plugin_name_char 1 64 s.

Definition isSafeArchivePath (p : string) : bool :=
  if decide (p = "" ∨ strings_Contains p (bytes_of [92]) = true) then false
  else if strings_HasPrefix p "/" then false
  else if existsb (λ seg, bool_decide (seg = "" ∨ seg = "." ∨ seg = "..")) (strings_Split slash p)
  then false
  else
    let clean := path_Clean p in
    if decide (clean = "." ∨ clean = "/") then false
    else if decide (strings_HasPrefix clean "../" = true ∨ clean = "..") then false
    else if strings_Contains ("/" +:+ clean +:+ "/") "/../" then false
    else true.

(** ** Free-form metadata *)

(** The type name [%T] prints. *)
Definition type_name (v : any) : string :=
  match v with
  | AMap _ => "map[string]interface {}"
  | ASlice _ => "[]interface {}"
  | AOther t _ => t
  | _ => ""
  end.

Definition is_scalar (v : any) : bool :=
  match v with
  | ANil | ABool _ | AString _ | AInt _ _ | AFloat32 _ | AFloat64 _ => true
  | _ => false
  end.

Definition validateScalar (v : any) : result unit :=
  if is_scalar v then Ok () else Err (Errorf ("non-scalar array value type " +:+ type_name v)).

Definition errNodes : error :=
  Errorf_w "" ErrInvalidManifest (": plugin.metadata exceeds " +:+ strconv_Itoa maxMetadataWalkNodes +:+ " nodes").
Definition errLevels : error :=
  Errorf_w "" ErrInvalidManifest
    (": plugin.metadata exceeds " +:+ strconv_Itoa (Z.of_nat maxMetadataNestingDepth) +:+ " nesting levels").

(** The loop over an array's items; the budget the source decrements through a
    pointer is threaded through and returned. *)
Fixpoint validate_items (keyPath : string) (idx : Z) (l : list any) (budget : Z) : result Z :=
  match l with
  | [] => Ok budget
  | item :: l' =>
    if decide (budget ≤ 0)%Z then Err errNodes else
    match validateScalar item with
    | Err e => Err (Errorf_w (keyPath +:+ "[" +:+ strconv_Itoa idx +:+ "]: ") e "")
    | Ok _ => validate_items keyPath (idx + 1) l' (budget - 1)
    end
  end.

Section walk.
Context `{!MapRange}.

(** [validateMetadataValueBounded], given the walk of a nested map. *)
Definition validateMetadataValueBounded (walk : gomap any → string → Z → result Z)
    (value : any) (keyPath : string) (budget : Z) : result Z :=
  match value with
  | ASlice l => validate_items keyPath 0 (default [] l) budget
  | AMap m => walk m keyPath budget
  | AOther t _ => Err (Errorf (keyPath +:+ " has unsupported type " +:+ t))
  | _ => Ok budget
  end.

(** The loop of [walkMetadata] over the entries in range order. *)
Fixpoint walk_entries (walk : gomap any → string → Z → result Z) (prefix : string)
    (l : list (string * any)) (budget : Z) : result Z :=
  match l with
  | [] => Ok budget
  | (key, value) :: l' =>
    if decide (strings_TrimSpace key = "") then Err (Errorf (prefix +:+ " has an empty key"))
    else if decide (budget ≤ 0)%Z then Err errNodes
    else match validateMetadataValueBounded walk value (prefix +:+ "." +:+ key) (budget - 1) with
         | Err e => Err e
         | Ok budget' => walk_entries walk prefix l' budget'
         end
  end.

(** [levels] is [33 - depth]: the source's guard [depth > 32] is [levels = 0]. *)
Fixpoint walkMetadata (levels : nat) (meta : gomap any) (prefix : string) (budget : Z) : result Z :=
  match levels with
  | 0 => Err errLevels
  | S levels' => walk_entries (walkMetadata levels') prefix (range_ meta) budget
  end.

Definition validateMetadataBounded (meta : gomap any) (prefix : string) : result unit :=
  match walkMetadata (S maxMetadataNestingDepth) meta prefix maxMetadataWalkNodes with
  | Err e => Err e
  | Ok _ => Ok ()
  end.

(** ** The manifest *)

(** The errors [validateSection] appends for one entry. *)
Definition entry_errors (section : ManifestSection) (kv : string * ManifestEntry) : list error :=
  let '(key, entry) := kv in
  (if decide (strings_TrimSpace key = "") then [Errorf (section +:+ " entry key is empty")] else []) ++
  (if decide (strings_TrimSpace (me_Path entry) = "")
   then [Errorf (section +:+ "." +:+ key +:+ ".path is required")]
   else if isSafeArchivePath (me_Path entry) then []
   else [Errorf (section +:+ "." +:+ key +:+ ".path is invalid: " +:+ strconv_Quote (me_Path entry))]).

Definition validateSection (section : ManifestSection) (entries : gomap ManifestEntry) : list error :=
  range_ entries ≫= entry_errors section.

Definition ValidateManifest (m : Manifest) : result unit :=
  let errs :=
    (if decide (mf_SchemaVersion m ≠ manifestSchemaV1)
     then [Errorf ("schema_version must be " +:+ strconv_Itoa manifestSchemaV1)] else []) ++
    (if pluginNamePattern (mp_Name (mf_Plugin m)) then []
     else [ENew "plugin.name must match [a-z0-9-]{1,64}"]) ++
    (if decide (1024 < String.length (mp_Description (mf_Plugin m)))
     then [ENew "plugin.description exceeds 1024 chars"] else []) ++
    (match validateMetadataBounded (mp_Metadata (mf_Plugin m)) "plugin.metadata" with
     | Err e => [e] | Ok _ => [] end) ++
    validateSection SectionSkills (mf_Skills m) ++
    validateSection SectionRules (mf_Rules m) ++
    validateSection SectionHooks (mf_Hooks m) ++
    validateSection SectionSubagents (mf_Subagents m) ++
    validateSection SectionMCPs (mf_MCPs m) in
  match errors_Join errs with
  | Some e => Err (Errorf_w2 "" ErrInvalidManifest ": " e)
  | None => Ok ()
  end.

(** [toml.Unmarshal] is code of go-toml: its result is the argument. *)
Definition ParseManifest (unmarshal : string → result Manifest) (data : string) : result Manifest :=
  match unmarshal data with
  | Err e => Err (Errorf_w "" ErrInvalidManifest (": parse toml: " +:+ Error e))
  | Ok m => match ValidateManifest m with
            | Err e => Err e
            | Ok _ => Ok m
            end
  end.
End walk.
End Manifest.

(** ** What validation accepts *)

Module ManifestSpec.
Import Manifest.

Definition blank (s : string) : Prop := strings_TrimSpace s = "".
#[export] Instance blank_dec s : Decision (blank s).
Proof. unfold blank. apply _. Defined.

(** Metadata with [levels] levels of nesting left: no blank key, arrays of scalars
    only, and no value of a type outside the allowed ones. *)
Inductive metadata_ok : nat → gomap any → Prop :=
| metadata_ok_intro levels m :
    (∀ k v, gm_get m k = Some v → ¬ blank k ∧ value_ok levels v) → metadata_ok (S levels) m
with value_ok : nat → any → Prop :=
| value_ok_scalar levels v : is_scalar v = true → value_ok levels v
| value_ok_slice levels l : Forall (λ v, is_scalar v = true) (default [] l) → value_ok levels (ASlice l)
| value_ok_map levels m : metadata_ok levels m → value_ok levels (AMap m).

(** The nodes the walk charges: one per map entry and one per array item. *)
Fixpoint any_nodes (v : any) : nat :=
  match v with
  | AMap (Some g) => map_fold (λ _ v n, S (any_nodes v) + n) 0 g
  | ASlice (Some l) => length l
  | _ => 0
  end.

Definition meta_nodes (m : gomap any) : nat := any_nodes (AMap m).

Definition entry_nodes (l : list (string * any)) : nat :=
  foldr (λ kv n, S (any_nodes kv.2) + n) 0 l.

Section spec.
Context `{!MapRange}.

Lemma meta_nodes_range m : meta_nodes m = entry_nodes (range_ m).
Proof.
  destruct m as [g|]; [|done]. unfold meta_nodes. simpl. rewrite map_fold_foldr. unfold entry_nodes.
  assert (foldr (λ kv n, S (any_nodes kv.2) + n) 0 (map_to_list g) =
          foldr (λ kv n, S (any_nodes kv.2) + n) 0 (range g)) as <-.
  { apply (foldr_permutation eq); [solve_proper| |by rewrite range_perm].
    intros; simpl; lia. }
  induction (map_to_list g) as [|[k v] l IH]; [done|]. simpl. by rewrite IH.
Qed.

Lemma validate_items_iff keyPath idx l b b' :
  validate_items keyPath idx l b = Ok b' ↔
  Forall (λ v, is_scalar v = true) l ∧ (b' = b - Z.of_nat (length l))%Z ∧
  (l = [] ∨ Z.of_nat (length l) ≤ b)%Z.
Proof.
  revert idx b. induction l as [|v l IH]; intros idx b; simpl.
  { split; [intros [= <-]; split_and!; [done|lia|by left]|]. intros (_ & -> & _). f_equal. lia. }
  rewrite Forall_cons. unfold validateScalar. case_decide as Hb.
  { split; [done|]. intros (_ & _ & [?|?]); [done|lia]. }
  destruct (is_scalar v); [|by split; [|intros [[] _]]]. rewrite IH. split.
  - intros (Hl & -> & Hn). split_and!; [done..|lia|]. right. destruct Hn as [->|Hn]; simpl; lia.
  - intros ([_ Hl] & -> & Hn). split_and!; [done|lia|].
    destruct l; [by left|right]. destruct Hn as [?|Hn]; [done|lia].
Qed.

Definition walk_spec (levels : nat) : Prop := ∀ m prefix b b', (0 ≤ b)%Z →
  walkMetadata levels m prefix b = Ok b' ↔
  metadata_ok levels m ∧ (Z.of_nat (meta_nodes m) ≤ b)%Z ∧ b' = (b - Z.of_nat (meta_nodes m))%Z.

Lemma value_iff levels v keyPath b b' :
  walk_spec levels → (0 ≤ b)%Z →
  validateMetadataValueBounded (walkMetadata levels) v keyPath b = Ok b' ↔
  value_ok levels v ∧ (Z.of_nat (any_nodes v) ≤ b)%Z ∧ b' = (b - Z.of_nat (any_nodes v))%Z.
Proof.
  intros Hwalk Hb.
  assert (∀ v', is_scalar v' = true → any_nodes v' = 0 →
    Ok b = Ok (E := error) b' ↔ value_ok levels v' ∧ (Z.of_nat (any_nodes v') ≤ b)%Z ∧
      b' = (b - Z.of_nat (any_nodes v'))%Z) as Hleaf.
  { intros v' Hs Hn. rewrite Hn. split.
    - intros [= <-]. split_and!; [by constructor|lia|lia].
    - intros (_ & _ & ->). f_equal. lia. }
  destruct v as [| | | | | |m|l|t n]; simpl validateMetadataValueBounded;
    try (by apply Hleaf).
  - rewrite (Hwalk m keyPath b b' Hb). change (any_nodes (AMap m)) with (meta_nodes m).
    split; intros (Hok & ?); (split; [|done]); [by constructor|].
    inversion Hok; subst; [done|]. done.
  - rewrite validate_items_iff.
    assert (any_nodes (ASlice l) = length (default [] l)) as -> by (by destruct l).
    split.
    + intros (Hl & -> & Hn). split_and!; [by constructor| |done].
      destruct Hn as [->|?]; simpl; lia.
    + intros (Hok & Hn & ->). split_and!; [|done|by right].
      inversion Hok; subst; done.
  - split; [done|]. intros (Hok & _). inversion Hok; subst; done.
Qed.

Lemma walk_entries_iff levels prefix l b b' :
  walk_spec levels → (0 ≤ b)%Z →
  walk_entries (walkMetadata levels) prefix l b = Ok b' ↔
  Forall (λ kv, ¬ blank kv.1 ∧ value_ok levels kv.2) l ∧
  (Z.of_nat (entry_nodes l) ≤ b)%Z ∧ b' = (b - Z.of_nat (entry_nodes l))%Z.
Proof.
  intros Hwalk. revert b. induction l as [|[k v] l IH]; intros b Hb; simpl walk_entries; simpl entry_nodes.
  { split; [intros [= <-]; split_and!; [done|lia|lia]|]. intros (_ & _ & ->). f_equal. lia. }
  rewrite Forall_cons. simpl fst. simpl snd.
  change (strings_TrimSpace k = "") with (blank k). case_decide as Hk; [by split; [|intros [[[]] _]]|].
  case_decide as Hb0; [split; [done|intros (_ & ? & _); lia]|].
  assert (0 ≤ b - 1)%Z as Hb1 by lia.
  destruct (validateMetadataValueBounded _ v _ (b - 1)) as [b1|e] eqn:Hv.
  - apply value_iff in Hv as (Hok & Hn & ->); [|done..].
    rewrite IH by lia. split.
    + intros (Hl & Hn' & ->). split_and!; [done..|lia|lia].
    + intros ((_ & Hl) & Hn' & ->). split_and!; [done|lia|lia].
  - split; [done|]. intros (((_ & Hok) & _) & Hn & _). exfalso.
    assert (validateMetadataValueBounded (walkMetadata levels) v (prefix +:+ "." +:+ k) (b - 1) =
            Ok (b - 1 - Z.of_nat (any_nodes v))%Z) as Hv'
      by (apply value_iff; [done|done|split_and!; [done|lia|lia]]).
    congruence.
Qed.

Lemma walkMetadata_iff levels : walk_spec levels.
Proof.
  induction levels as [|levels IH]; intros m prefix b b' Hb; simpl walkMetadata.
  { split; [done|]. intros (Hok & _). inversion Hok. }
  rewrite walk_entries_iff, meta_nodes_range by done. rewrite Forall_forall.
  assert ((∀ kv, kv ∈ range_ m → ¬ blank kv.1 ∧ value_ok levels kv.2) ↔ metadata_ok (S levels) m) as ->;
    [|done]. split.
  - intros Hl. constructor. intros k v Hkv. by apply (Hl (k, v)), elem_of_range.
  - intros Hok [k v] Hkv%elem_of_range. inversion Hok; subst. simpl. eauto.
Qed.

(** A path the archive code may use: relative, no backslash, no element that is
    empty or a dot. *)
Definition safe_path (p : string) : Prop :=
  p ≠ "" ∧ strings_Contains p (bytes_of [92]) = false ∧ Forall plain_seg (strings_Split slash p).

Definition entry_ok (kv : string * ManifestEntry) : Prop :=
  ¬ blank kv.1 ∧ ¬ blank (me_Path kv.2) ∧ isSafeArchivePath (me_Path kv.2) = true.

Definition section_ok (entries : gomap ManifestEntry) : Prop :=
  ∀ k e, gm_get entries k = Some e → entry_ok (k, e).

Record manifest_ok (m : Manifest) : Prop := {
  ok_schema : mf_SchemaVersion m = 1%Z;
  ok_name : pluginNamePattern (mp_Name (mf_Plugin m)) = true;
  ok_description : String.length (mp_Description (mf_Plugin m)) ≤ 1024;
  ok_metadata : metadata_ok 33 (mp_Metadata (mf_Plugin m));
  ok_nodes : (Z.of_nat (meta_nodes (mp_Metadata (mf_Plugin m))) ≤ 4096)%Z;
  ok_sections : Forall section_ok [mf_Skills m; mf_Rules m; mf_Hooks m; mf_Subagents m; mf_MCPs m];
}.

Lemma entry_errors_nil section kv : entry_errors section kv = [] ↔ entry_ok kv.
Proof.
  destruct kv as [k e]. unfold entry_errors, entry_ok. simpl.
  change (strings_TrimSpace ?s = "") with (blank s).
  rewrite app_nil. repeat case_decide; destruct (isSafeArchivePath _); intuition discriminate.
Qed.

Lemma validateSection_nil section entries : validateSection section entries = [] ↔ section_ok entries.
Proof.
  unfold validateSection, section_ok. split.
  - intros Hnil k e Hke. apply (entry_errors_nil section).
    apply elem_of_range in Hke. apply elem_of_nil_inv.
    intros x Hx. apply (not_elem_of_nil (A := error) x). rewrite <-Hnil.
    apply list_elem_of_bind. eauto.
  - intros Hok. apply elem_of_nil_inv. intros x (kv & Hx & Hkv)%list_elem_of_bind.
    destruct kv as [k e]. apply elem_of_range, Hok, (entry_errors_nil section) in Hkv.
    rewrite Hkv in Hx. by apply not_elem_of_nil in Hx.
Qed.

Lemma validateMetadataBounded_iff m prefix :
  validateMetadataBounded m prefix = Ok () ↔
  metadata_ok 33 m ∧ (Z.of_nat (meta_nodes m) ≤ 4096)%Z.
Proof.
  unfold validateMetadataBounded, maxMetadataNestingDepth, maxMetadataWalkNodes.
  pose proof (walkMetadata_iff 33 m prefix 4096%Z) as Hw.
  destruct (walkMetadata 33 m prefix 4096) as [b|e].
  - split; [intros _|done]. destruct (Hw b ltac:(lia)) as [Hw' _]. by destruct (Hw' eq_refl) as (?&?&?).
  - split; [done|]. intros [Hok Hn]. exfalso.
    destruct (Hw (4096 - Z.of_nat (meta_nodes m))%Z ltac:(lia)) as [_ Hw'].
    discriminate (Hw' (conj Hok (conj Hn eq_refl))).
Qed.
Lemma isSafe_iff p : isSafeArchivePath p = true ↔ safe_path p.
Proof.
  unfold isSafeArchivePath, safe_path.
  set (bad := λ seg, bool_decide (seg = "" ∨ seg = "." ∨ seg = "..")).
  assert (∀ l, existsb bad l = false ↔ Forall plain_seg l) as Hbad.
  { induction l as [|s l IH]; [done|]. simpl. rewrite orb_false_iff, IH, Forall_cons.
    unfold bad, plain_seg. rewrite bool_decide_eq_false. tauto. }
  case_decide as H1; [split; [done|]; intros (? & ? & ?); destruct H1; congruence|].
  assert (strings_HasPrefix p "/" = true → ¬ Forall plain_seg (strings_Split slash p)) as Habs.
  { unfold strings_HasPrefix. intros [s ->]%prefix_spec Hs.
    change ("/" +:+ s) with ("" +:+ String slash s) in Hs. rewrite strings_Split_app in Hs.
    inversion Hs as [|?? [Hne _] _]. done. }
  destruct (strings_HasPrefix p "/") eqn:Habs'.
  { split; [done|]. intros (_ & _ & Hs). by destruct Habs. }
  destruct (existsb bad (strings_Split slash p)) eqn:Hex.
  { split; [done|]. intros (_ & _ & Hs%Hbad). congruence. }
  apply Hbad in Hex as Hs. rewrite path_Clean_plain by done.
  assert (".." ∉ strings_Split slash p) as Hdd.
  { intros Hin. rewrite Forall_forall in Hs. by destruct (Hs _ Hin) as (_ & _ & []). }
  rewrite decide_False; [rewrite decide_False|].
  - split; [intros _|].
    { split_and!; [tauto| |done]. destruct (strings_Contains p _); tauto. }
    intros _. destruct (strings_Contains ("/" +:+ p +:+ "/") "/../") eqn:Hc; [|done].
    exfalso. apply strings_Contains_spec in Hc as (x & y & E).
    apply (f_equal (strings_Split slash)) in E.
    change ("/" +:+ p +:+ "/") with ("" +:+ String slash (p +:+ String slash "")) in E.
    change ("/../" +:+ y) with (String slash (".." +:+ String slash y)) in E.
    rewrite !strings_Split_app in E.
    assert (".." ∈ strings_Split slash "" ++ strings_Split slash p ++ strings_Split slash "") as Hin.
    { rewrite E. apply elem_of_app. right. by left. }
    change (strings_Split slash "") with [""] in Hin.
    apply elem_of_app in Hin as [Hin|[Hin|Hin]%elem_of_app]; [|done|];
      by apply list_elem_of_singleton in Hin.
  - intros [Hp| ->]; [|apply Hdd; by left].
    apply prefix_spec in Hp as [s ->]. apply Hdd.
    change ("../" +:+ s) with (".." +:+ String slash s). rewrite strings_Split_app. by left.
  - intros [->| ->]; [|done].
    rewrite Forall_forall in Hs. destruct (Hs ".") as (_ & [] & _); [by left|done].
Qed.

Lemma nil_decide (P : Prop) `{Decision P} (e : error) : (if decide P then [e] else []) = [] ↔ ¬ P.
Proof. by case_decide. Qed.
Lemma nil_bool (b : bool) (e : error) : (if b then [] else [e]) = [] ↔ b = true.
Proof. by destruct b. Qed.
Lemma metadata_nil m prefix :
  (match validateMetadataBounded m prefix with Err e => [e] | Ok _ => [] end) = [] ↔
  metadata_ok 33 m ∧ (Z.of_nat (meta_nodes m) ≤ 4096)%Z.
Proof.
  rewrite <-(validateMetadataBounded_iff m prefix). by destruct (validateMetadataBounded _ _) as [[]|].
Qed.

Lemma ValidateManifest_iff m : ValidateManifest m = Ok () ↔ manifest_ok m.
Proof.
  unfold ValidateManifest. set (errs := _ ++ _).
  assert (errs = [] ↔ manifest_ok m) as <-; [|by destruct errs].
  unfold errs. rewrite !app_nil, !validateSection_nil, !nil_decide, nil_bool, metadata_nil.
  split.
  - intros (?&?&?&[??]&?). destruct_and!. split; [by apply dec_stable|done|lia|done..|].
    by rewrite !Forall_cons, Forall_nil.
  - intros [????? Hs]. rewrite !Forall_cons in Hs. destruct Hs as (?&?&?&?&?&_).
    split_and!; try done; [by intros []|lia].
Qed.

(** C40. [ValidateManifest] accepts exactly the well-formed manifests: schema 1, a
    plugin name matching the pattern, a description of at most 1024 bytes, metadata
    at most 32 levels deep with at most 4096 nodes, no blank key and scalar arrays
    only, and in every section non-blank keys with safe relative paths. The answer
    does not depend on the order in which Go ranges over the maps, and every
    rejection is an [ErrInvalidManifest]. *)
Theorem validate_manifest_iff (m : Manifest) :
  (ValidateManifest m = Ok () ↔ manifest_ok m) ∧
  (∀ e, ValidateManifest m = Err e → errors_Is e ErrInvalidManifest = true).
Proof.
  split; [apply ValidateManifest_iff|]. unfold ValidateManifest.
  intros e. destruct (errors_Join _); [|done]. intros [= <-]. rewrite Is_wrap2. reflexivity.
Qed.

Lemma safe_not_abs p : safe_path p → strings_HasPrefix p "/" = false.
Proof.
  intros (_ & _ & Hs). destruct (strings_HasPrefix p "/") eqn:Hp; [|done].
  unfold strings_HasPrefix in Hp. apply prefix_spec in Hp as [s ->].
  change ("/" +:+ s) with ("" +:+ String slash s) in Hs. rewrite strings_Split_app in Hs.
  inversion Hs as [|?? [Hn _] _]. by destruct Hn.
Qed.

Lemma safe_clean p : safe_path p → path_Clean p = p.
Proof. intros Hs. apply path_Clean_plain; [by apply safe_not_abs|]. apply Hs. Qed.

(** [isSafeArchivePath] accepts exactly the non-empty relative paths without
    backslashes none of whose elements is empty, [.] or [..]; such a path is its own
    [path.Clean], so the checks on the cleaned path never reject anything further. *)
Theorem safe_archive_path_iff (p : string) :
  (isSafeArchivePath p = true ↔ safe_path p) ∧
  (isSafeArchivePath p = true → path_Clean p = p).
Proof.
  split; [apply isSafe_iff|]. by intros Hs%isSafe_iff%safe_clean.
Qed.
End spec.

(** *** A manifest, accepted and rejected *)

Definition sample_manifest (path : string) (meta : gomap any) : Manifest := {|
  mf_SchemaVersion := 1;
  mf_Plugin := {| mp_Name := "git-tools"; mp_Description := ""; mp_Metadata := meta |};
  mf_Skills := Some {["commit" := {| me_Description := ""; me_DisplayName := ""; me_Path := path |}]};
  mf_Rules := None; mf_Hooks := None; mf_Subagents := None; mf_MCPs := None |}.

Lemma validate_manifest_iff_witness :
  manifest_ok (sample_manifest "skills/commit.md" (Some {["team" := AString "a"]})) ∧
  ¬ manifest_ok (sample_manifest "skills/../../etc" None).
Proof.
  split.
  - apply (proj1 (validate_manifest_iff (H := canonical_range) _)). vm_compute. reflexivity.
  - intros Hok. apply (proj1 (validate_manifest_iff (H := canonical_range) _)) in Hok.
    vm_compute in Hok. discriminate Hok.
Defined.

Lemma safe_archive_path_iff_witness :
  safe_path "skills/commit.md" ∧ path_Clean "skills/commit.md" = "skills/commit.md".
Proof.
  split.
  - apply (proj1 (safe_archive_path_iff "skills/commit.md")). vm_compute. reflexivity.
  - apply (proj2 (safe_archive_path_iff "skills/commit.md")). vm_compute. reflexivity.
Defined.

(** *** Cloning validated metadata *)

(** A chain of [n] nested tables around a string. *)
Fixpoint nested (n : nat) : gomap any :=
  match n with
  | 0 => Some {["leaf" := AString "x"]}
  | S n' => Some {["t" := AMap (nested n')]}
  end.

Lemma metadata_depth levels m : metadata_ok levels m → any_depth (AMap m) ≤ S levels.
Proof.
  revert m. induction levels as [|levels IH]; intros m Hok; inversion Hok as [? ? Hkv]; subst.
  destruct m as [g|]; [|simpl; lia].
  assert (∀ k v, g !! k = Some v → any_depth v ≤ S levels) as Hv.
  { intros k v Hv. destruct (Hkv k v Hv) as [_ Hval].
    inversion Hval as [? ? Hs|? l Hl|? m' Hm]; subst.
    - destruct v; simpl in *; done || lia.
    - destruct l as [l|]; simpl in *; [|lia].
      assert (foldr (λ v n, any_depth v `max` n) 0 l = 0) as ->; [|lia].
      clear -Hl. induction Hl as [|x l Hx _ IHl]; [done|]. simpl. rewrite IHl. by destruct x.
    - by apply IH. }
  simpl. apply le_n_S. clear -Hv. revert Hv.
  apply (map_fold_weak_ind (λ n g, (∀ k v, g !! k = Some v → any_depth v ≤ S levels) → n ≤ S levels)).
  - lia.
  - intros i x g' n Hi IHn Hv. apply Nat.max_lub.
    + apply (Hv i). apply lookup_insert_eq.
    + apply IHn. intros k v Hk. apply (Hv k). rewrite lookup_insert_ne; [done|]. congruence.
Qed.

Lemma nested_ok n : metadata_ok (S n) (nested n).
Proof.
  induction n as [|n IH]; constructor; intros k v Hk; simpl in Hk;
    apply lookup_singleton_Some in Hk as [<- <-].
  - split; [vm_compute; discriminate|]. by constructor.
  - split; [vm_compute; discriminate|]. by apply value_ok_map.
Qed.

Lemma metadata_ok_weaken n n' m : n ≤ n' → metadata_ok n m → metadata_ok n' m.
Proof.
  revert n' m. induction n as [|n IH]; intros n' m Hn Hok; [by inversion Hok|].
  destruct n' as [|n']; [lia|]. inversion Hok as [? ? Hkv]; subst. constructor.
  intros k v Hk. destruct (Hkv k v Hk) as [Hb Hv]. split; [done|].
  inversion Hv; subst; [by constructor|by constructor|].
  apply value_ok_map. apply IH; [lia|done].
Qed.

(** The same chain after its string was dropped. *)
Fixpoint lost (n : nat) : gomap any :=
  match n with
  | 0 => Some {["leaf" := ANil]}
  | S n' => Some {["t" := AMap (lost n')]}
  end.

(** Metadata the validator accepts with one level of nesting to spare is cloned
    in full by the repositories' depth-bounded clone; but at the last level the
    validator still accepts, the clone drops the values: a manifest passes
    [ValidateManifest] and its stored copy has lost data. *)
Theorem metadata_clone_bound `{!MapRange} (m : gomap any) :
  (metadata_ok 31 m → AMap (cloneMetadata m) ≡ AMap m) ∧
  (let deep := sample_manifest "skills/commit.md" (nested 32) in
   ValidateManifest deep = Ok () ∧ ¬ AMap (cloneMetadata (nested 32)) ≡ AMap (nested 32)).
Proof.
  split; [|split].
  - intros Hok%metadata_depth. rewrite cloneMetadata_deep by done.
    unfold cloneMapAny. rewrite <-deepCloneAny_map. apply deepCloneAny_eqv.
  - apply ValidateManifest_iff, (ValidateManifest_iff (H := canonical_range)).
    vm_compute. reflexivity.
  - assert (AMap (cloneMetadata (nested 32)) = deepCloneAny (AMap (lost 32))) as -> by (vm_compute; reflexivity).
    intros Hab%deepCloneAny_canonical. revert Hab. vm_compute. discriminate.
Qed.

Lemma metadata_clone_bound_witness :
  AMap (cloneMetadata (nested 3)) ≡ AMap (nested 3).
Proof.
  apply (proj1 (metadata_clone_bound (H := canonical_range) (nested 3))).
  apply (metadata_ok_weaken 4); [lia|]. apply nested_ok.
Defined.
End ManifestSpec.
