(* ===== verification/Proc.v ===== *)
(** * Effectful procedures

    A Go function that calls its collaborators (repositories, factories, specs, the
    clock, contexts) is a finite tree of such calls, [proc E A]: [E X] is the type
    of the calls answered by an [X]. What the collaborators do is not fixed here.
    [execs] runs a procedure against any relation from calls and states to answers
    and states, [run] against an executable handler; [traces] is the instance whose
    state is the list of calls made and answers received, which states the order of
    effects and resource discipline whatever the collaborators answer. *)

From S2P Require Import Prelude.
From stdpp Require Import options.

Inductive proc (E : Type → Type) (A : Type) : Type :=
| Ret (a : A)
| Do {X : Type} (e : E X) (k : X → proc E A).
Arguments Ret {_ _} _.
Arguments Do {_ _ _} _ _.

Section monad.
Context {E : Type → Type}.

#[export] Instance proc_ret : MRet (proc E) := λ A a, Ret a.

Fixpoint proc_bind_ {A B : Type} (f : A → proc E B) (p : proc E A) : proc E B :=
  match p with
  | Ret a => f a
  | Do e k => Do e (λ x, proc_bind_ f (k x))
  end.

#[export] Instance proc_bind : MBind (proc E) := λ A B, proc_bind_.

(** One call, returning its answer. *)
Definition call {X : Type} (e : E X) : proc E X := Do e Ret.
End monad.

(** [defer f()] around a body. *)
Definition deferred {E A} (f : proc E unit) (body : proc E A) : proc E A :=
  r ← body; _ ← f; mret r.

Section exec.
Context {E : Type → Type} {S : Type}.

(** What the collaborators may answer, and the state they leave. *)
Definition answers : Type := ∀ X : Type, E X → S → X → S → Prop.

Fixpoint execs (H : answers) {A} (p : proc E A) (s : S) (a : A) (s' : S) : Prop :=
  match p with
  | Ret b => a = b ∧ s' = s
  | Do e k => ∃ x s1, H _ e s x s1 ∧ execs H (k x) s1 a s'
  end.

Lemma execs_ret (H : answers) {A} (b : A) s a s' : execs H (mret b) s a s' ↔ a = b ∧ s' = s.
Proof. done. Qed.

Lemma execs_call (H : answers) {X} (e : E X) s x s' : execs H (call e) s x s' ↔ H X e s x s'.
Proof.
  simpl. split; [by intros (y & s1 & Hy & -> & ->)|]. intros Hx. by exists x, s'.
Qed.

Lemma execs_call_inv (H : answers) {X} (e : E X) s x s' : execs H (call e) s x s' → H X e s x s'.
Proof. apply execs_call. Qed.

Lemma execs_bind (H : answers) {A B} (p : proc E A) (f : A → proc E B) s b s' :
  execs H (p ≫= f) s b s' ↔ ∃ a s1, execs H p s a s1 ∧ execs H (f a) s1 b s'.
Proof.
  revert s. induction p as [a|X e k IH]; intros s.
  - simpl. split; [intros Hf; by exists a, s|]. by intros (a' & s1 & [-> ->] & Hf).
  - change (Do e k ≫= f) with (Do e (λ x, k x ≫= f)). cbn [execs]. split.
    + intros (x & s1 & Hx & Hk). apply IH in Hk as (a & s2 & Ha & Hf). eauto 10.
    + intros (a & s2 & (x & s1 & Hx & Ha) & Hf). exists x, s1. split; [done|].
      apply IH. eauto.
Qed.

(** A state invariant every call keeps is kept by the procedure. *)
Lemma execs_invariant (H : answers) (I : S → Prop) {A} (p : proc E A) s a s' :
  (∀ X (e : E X) s x s', I s → H X e s x s' → I s') → I s → execs H p s a s' → I s'.
Proof.
  intros HI. revert s. induction p as [b|X e k IH]; intros s Hs; simpl.
  - by intros [_ ->].
  - intros (x & s1 & Hx & Hk). eapply IH; [|exact Hk]. by eapply HI.
Qed.

(** An executable collaborator. *)
Definition handler : Type := ∀ X : Type, E X → S → X * S.

Fixpoint run (h : handler) {A} (p : proc E A) (s : S) : A * S :=
  match p with
  | Ret a => (a, s)
  | Do e k => let '(x, s1) := h _ e s in run h (k x) s1
  end.

Definition answers_of (h : handler) : answers := λ X e s x s', h X e s = (x, s').

Lemma execs_run h {A} (p : proc E A) s a s' : execs (answers_of h) p s a s' ↔ run h p s = (a, s').
Proof.
  revert s. induction p as [b|X e k IH]; intros s; simpl.
  - split; [by intros [-> ->]|by intros [= -> ->]].
  - unfold answers_of. destruct (h X e s) as [x s1]. split.
    + intros (? & ? & [= <- <-] & Hk). by apply IH.
    + intros Hk. exists x, s1. split; [done|]. by apply IH.
Qed.

Lemma run_bind h {A B} (p : proc E A) (f : A → proc E B) s :
  run h (p ≫= f) s = let '(a, s1) := run h p s in run h (f a) s1.
Proof.
  revert s. induction p as [a|X e k IH]; intros s; [done|].
  change (Do e k ≫= f) with (Do e (λ x, k x ≫= f)). simpl. destruct (h X e s). apply IH.
Qed.
Lemma run_call_bind h {X A} (e : E X) (f : X → proc E A) s :
  run h (call e ≫= f) s = let '(x, s1) := h X e s in run h (f x) s1.
Proof. done. Qed.

Lemma run_mret h {A} (a : A) s : run h (mret a) s = (a, s).
Proof. done. Qed.
End exec.
Arguments answers : clear implicits.
Arguments handler : clear implicits.

(** Two procedures running at once: each entry of the schedule lets one of them make
    its next call; a finished one is skipped. *)
Fixpoint interleave {E : Type → Type} {S A B : Type} (h : handler E S) (schedule : list bool)
    (p : proc E A) (q : proc E B) (s : S) : proc E A * proc E B * S :=
  match schedule with
  | [] => (p, q, s)
  | true :: schedule' =>
    match p with
    | Ret _ => interleave h schedule' p q s
    | Do e k => let '(x, s1) := h _ e s in interleave h schedule' (k x) q s1
    end
  | false :: schedule' =>
    match q with
    | Ret _ => interleave h schedule' p q s
    | Do e k => let '(x, s1) := h _ e s in interleave h schedule' p (k x) s1
    end
  end.

Definition returned {E : Type → Type} {A} (p : proc E A) : option A :=
  match p with Ret a => Some a | Do _ _ => None end.

(** ** Traces *)

(** A call that was made, with its answer. *)
Inductive event (E : Type → Type) : Type :=
| Ev {X : Type} (e : E X) (x : X).
Arguments Ev {_ _} _ _.

Section traces.
Context {E : Type → Type}.

Definition record_event : answers E (list (event E)) := λ X e t x t', t' = t ++ [Ev e x].

(** [p] can make the calls [t] and return [a]. *)
Definition traces {A} (p : proc E A) (t : list (event E)) (a : A) : Prop :=
  execs record_event p [] a t.

Lemma execs_record_app {A} (p : proc E A) t0 t a :
  execs record_event p t0 a t ↔ ∃ t1, t = t0 ++ t1 ∧ traces p t1 a.
Proof.
  unfold traces. revert t0 t. induction p as [b|X e k IH]; intros t0 t; simpl.
  - split; [intros [-> ->]; exists []; rewrite app_nil_r; by split_and!|].
    intros (t1 & -> & -> & ->). rewrite app_nil_r. by split_and!.
  - split.
    + intros (x & s1 & -> & (t1 & -> & Ht)%IH). exists (Ev e x :: t1). rewrite <-app_assoc.
      split; [done|]. exists x, [Ev e x]. split; [done|]. apply IH. by exists t1.
    + intros (t1 & -> & x & s1 & -> & (t2 & -> & Ht)%IH). exists x, (t0 ++ [Ev e x]).
      split; [done|]. apply IH. exists t2. split; [|done]. rewrite <-!app_assoc; done.
Qed.

Lemma traces_ret {A} (b : A) t a : traces (Ret b) t a ↔ t = [] ∧ a = b.
Proof. unfold traces. simpl. tauto. Qed.

Lemma traces_do {X A} (e : E X) (k : X → proc E A) t a :
  traces (Do e k) t a ↔ ∃ x t', t = Ev e x :: t' ∧ traces (k x) t' a.
Proof.
  unfold traces. simpl. split.
  - intros (x & s1 & -> & (t' & -> & Ht)%execs_record_app). by exists x, t'.
  - intros (x & t' & -> & Ht). exists x, [Ev e x]. split; [done|].
    apply execs_record_app. by exists t'.
Qed.

Lemma traces_call {X} (e : E X) t x : traces (call e) t x ↔ t = [Ev e x].
Proof.
  unfold call. rewrite traces_do. split.
  - intros (y & t' & -> & [-> ->]%traces_ret). done.
  - intros ->. exists x, []. by rewrite traces_ret.
Qed.

Lemma traces_bind {A B} (p : proc E A) (f : A → proc E B) t b :
  traces (p ≫= f) t b ↔ ∃ t1 t2 a, t = t1 ++ t2 ∧ traces p t1 a ∧ traces (f a) t2 b.
Proof.
  unfold traces. rewrite execs_bind. split.
  - intros (a & t1 & Ha & (t2 & -> & Hb)%execs_record_app). by exists t1, t2, a.
  - intros (t1 & t2 & a & -> & Ha & Hb). exists a, t1. split; [done|].
    apply execs_record_app. by exists t2.
Qed.
Lemma traces_call_bind {X A} (e : E X) (k : X → proc E A) t a :
  traces (call e ≫= k) t a ↔ ∃ x t', t = Ev e x :: t' ∧ traces (k x) t' a.
Proof. apply traces_do. Qed.

Lemma traces_mret {A} (b : A) t a : traces (mret b) t a ↔ t = [] ∧ a = b.
Proof. apply traces_ret. Qed.
End traces.

(** Unfold the next step of a trace hypothesis: a call, a return or a sub-procedure. *)
Ltac trace_step H :=
  lazymatch type of H with
  | traces (call _ ≫= _) _ _ =>
      let x := fresh "x" in let t := fresh "t" in
      apply traces_call_bind in H as (x & t & -> & H)
  | traces (mret _) _ _ => apply traces_mret in H as [-> ->]
  | traces (_ ≫= _) _ _ =>
      let t1 := fresh "t" in let t2 := fresh "t" in let a := fresh "a" in let H1 := fresh "Hsub" in
      apply traces_bind in H as (t1 & t2 & a & -> & H1 & H)
  end.

(** Answering calls with a fixed function and recording them. *)
Definition tracer {E : Type → Type} (o : ∀ X, E X → X) : handler E (list (event E)) :=
  λ X e t, (o X e, t ++ [Ev e (o X e)]).

Lemma run_tracer {E : Type → Type} {A} (o : ∀ X, E X → X) (p : proc E A) t a :
  run (tracer o) p [] = (a, t) → traces p t a.
Proof.
  unfold traces. generalize (@nil (event E)). induction p as [b|X e k IH]; intros t0; simpl.
  - by intros [= -> ->].
  - intros Hk%IH. by exists (o X e), (t0 ++ [Ev e (o X e)]).
Qed.

(** ** Events selected from a trace *)

Section selection.
Context {E : Type → Type}.
Implicit Types (f : event E → bool).

(** How many events of a trace satisfy a test. *)
Definition count_ev f (t : list (event E)) : nat := length (filter (λ e, f e = true) t).

Lemma count_ev_nil f : count_ev f [] = 0.
Proof. done. Qed.
Lemma count_ev_cons f e t : count_ev f (e :: t) = (if f e then 1 else 0) + count_ev f t.
Proof.
  unfold count_ev. rewrite filter_cons. destruct (f e); [by rewrite decide_True|by rewrite decide_False].
Qed.
Lemma count_ev_app f t1 t2 : count_ev f (t1 ++ t2) = count_ev f t1 + count_ev f t2.
Proof. unfold count_ev. by rewrite filter_app, length_app. Qed.

(** No event of the procedure's traces satisfies [f]. *)
Fixpoint never f {A} (p : proc E A) : Prop :=
  match p with
  | Ret _ => True
  | Do e k => ∀ x, f (Ev e x) = false ∧ never f (k x)
  end.

Lemma never_count f {A} (p : proc E A) t a : never f p → traces p t a → count_ev f t = 0.
Proof.
  revert t. induction p as [b|X e k IH]; intros t Hn.
  - by intros [-> _]%traces_ret.
  - intros (x & t' & -> & Ht)%traces_do. destruct (Hn x) as [Hf Hn'].
    rewrite count_ev_cons, Hf. by apply (IH x).
Qed.

Lemma never_bind f {A B} (p : proc E A) (g : A → proc E B) :
  never f p → (∀ a, never f (g a)) → never f (p ≫= g).
Proof.
  intros Hp Hg. induction p as [a|X e k IH]; [by apply Hg|].
  change (Do e k ≫= g) with (Do e (λ x, k x ≫= g)). intros x. destruct (Hp x) as [? ?].
  split; [done|]. by apply IH.
Qed.

Lemma never_call_bind f {X A} (e : E X) (k : X → proc E A) :
  (∀ x, f (Ev e x) = false) → (∀ x, never f (k x)) → never f (call e ≫= k).
Proof. intros He Hk x. split; [apply He|apply Hk]. Qed.

(** Every event the procedure can cause satisfies [P]. *)
Fixpoint always (P : event E → Prop) {A} (p : proc E A) : Prop :=
  match p with
  | Ret _ => True
  | Do e k => ∀ x, P (Ev e x) ∧ always P (k x)
  end.

Lemma always_Forall (P : event E → Prop) {A} (p : proc E A) t a :
  always P p → traces p t a → Forall P t.
Proof.
  revert t. induction p as [b|X e k IH]; intros t Hn.
  - by intros [-> _]%traces_ret.
  - intros (x & t' & -> & Ht)%traces_do. destruct (Hn x). constructor; [done|]. by apply (IH x).
Qed.

Lemma always_bind (P : event E → Prop) {A B} (p : proc E A) (g : A → proc E B) :
  always P p → (∀ a, always P (g a)) → always P (p ≫= g).
Proof.
  intros Hp Hg. induction p as [a|X e k IH]; [by apply Hg|].
  change (Do e k ≫= g) with (Do e (λ x, k x ≫= g)). intros x. destruct (Hp x) as [? ?].
  split; [done|]. by apply IH.
Qed.

Lemma always_call_bind (P : event E → Prop) {X A} (e : E X) (k : X → proc E A) :
  (∀ x, P (Ev e x)) → (∀ x, always P (k x)) → always P (call e ≫= k).
Proof. intros He Hk x. split; [apply He|apply Hk]. Qed.

Lemma never_notin f {A} (p : proc E A) t a e : never f p → traces p t a → f e = true → e ∉ t.
Proof.
  intros Hn Ht Hf Hin. pose proof (never_count f p t a Hn Ht) as Hc.
  apply length_zero_iff_nil in Hc. assert (e ∈ filter (λ e, f e = true) t) as Hin'.
  { by apply list_elem_of_filter. }
  rewrite Hc in Hin'. by apply not_elem_of_nil in Hin'.
Qed.
End selection.

(** Walk through a procedure and discharge [never] call by call; sub-procedures are
    left to the hint database. *)
Ltac never_go :=
  repeat (cbn beta; lazymatch goal with
  | |- never _ (call _ ≫= _) => apply never_call_bind; [done|intros ?]
  | |- never _ (call _) => by intros ?
  | |- never _ (mret _) => exact I
  | |- never _ (if decide _ then _ else _) => case_decide
  | |- never _ (match ?x with _ => _ end) => destruct x
  | |- never _ (match ?x with _ => _ end _) => destruct x
  | |- never _ (let _ := _ in _) => cbn zeta
  | |- never _ (_ ≫= _) => apply never_bind; [|intros ?]
  | |- never _ _ => solve [auto with ana]
  end).

(** ** Protocols

    [advance] is an automaton over the calls and their answers; where it is undefined
    a call is not allowed. [follows] says that a procedure, started in a state of the
    automaton, only makes allowed calls, and what holds when it returns. *)
Section protocol.
Context {E : Type → Type} {T : Type} (advance : T → ∀ X, E X → X → option T).

Fixpoint follows (t : T) {A} (p : proc E A) (Post : A → T → Prop) : Prop :=
  match p with
  | Ret a => Post a t
  | Do e k => ∀ x, ∃ t', advance t _ e x = Some t' ∧ follows t' (k x) Post
  end.

Lemma follows_bind {A B} t (p : proc E A) (f : A → proc E B) (Post : B → T → Prop) :
  follows t p (λ a t', follows t' (f a) Post) → follows t (p ≫= f) Post.
Proof.
  revert t. induction p as [a|X e k IH]; intros t; [done|].
  change (Do e k ≫= f) with (Do e (λ x, k x ≫= f)). intros H x.
  destruct (H x) as (t' & Ht & Hk). exists t'. split; [done|]. by apply IH.
Qed.

Lemma follows_call_bind {X A} t (e : E X) (k : X → proc E A) (Post : A → T → Prop) :
  (∀ x, ∃ t', advance t _ e x = Some t' ∧ follows t' (k x) Post) → follows t (call e ≫= k) Post.
Proof. done. Qed.

Lemma follows_mono {A} t (p : proc E A) (P Q : A → T → Prop) :
  (∀ a t', P a t' → Q a t') → follows t p P → follows t p Q.
Proof.
  intros HPQ. revert t. induction p as [a|X e k IH]; intros t; simpl; [apply HPQ|].
  intros H x. destruct (H x) as (t' & Ht & Hk). exists t'. split; [done|]. by apply IH.
Qed.

Lemma follows_deferred {A} t (f : proc E unit) (body : proc E A) (Post : A → T → Prop) :
  follows t body (λ a t', follows t' f (λ _ t'', Post a t'')) → follows t (deferred f body) Post.
Proof.
  intros H. unfold deferred. apply follows_bind. eapply follows_mono; [|exact H].
  intros a t' Hf. apply follows_bind. eapply follows_mono; [|exact Hf]. done.
Qed.
End protocol.

(** ** States on the way

    [passes] holds of the states a procedure is in between two of its calls, the first
    and the last one included: what is left when it is cut off. [safe] proves an
    invariant of them together with a postcondition. *)
Section safety.
Context {E : Type → Type} {S : Type} (H : answers E S).

Fixpoint passes {A} (p : proc E A) (s s1 : S) : Prop :=
  s1 = s ∨ match p with
           | Ret _ => False
           | Do e k => ∃ x s', H _ e s x s' ∧ passes (k x) s' s1
           end.

Lemma execs_passes {A} (p : proc E A) s a s1 : execs H p s a s1 → passes p s s1.
Proof.
  revert s. induction p as [b|X e k IH]; intros s; simpl; [by intros [_ ->]; left|].
  intros (x & s' & Hx & Hp). right. exists x, s'. split; [done|]. by apply IH.
Qed.

Context (I : S → Prop).

Fixpoint safe {A} (p : proc E A) (s : S) (Post : A → S → Prop) : Prop :=
  I s ∧ match p with
        | Ret a => Post a s
        | Do e k => ∀ x s', H _ e s x s' → safe (k x) s' Post
        end.

Lemma safe_passes {A} (p : proc E A) s Post s1 : safe p s Post → passes p s s1 → I s1.
Proof.
  revert s. induction p as [a|X e k IH]; intros s; simpl.
  - by intros [? _] [->|[]].
  - intros [? Hk] [->|(x & s' & Hx & Hp)]; [done|]. eapply IH; [by apply Hk|done].
Qed.

Lemma safe_execs {A} (p : proc E A) s Post a s1 : safe p s Post → execs H p s a s1 → Post a s1.
Proof.
  revert s. induction p as [b|X e k IH]; intros s; simpl.
  - by intros [_ ?] [-> ->].
  - intros [_ Hk] (x & s' & Hx & Hp). eapply IH; [by apply Hk|done].
Qed.

Lemma safe_mono {A} (p : proc E A) s (P Q : A → S → Prop) :
  (∀ a s', I s' → P a s' → Q a s') → safe p s P → safe p s Q.
Proof.
  intros HPQ. revert s. induction p as [a|X e k IH]; intros s; simpl; intros [HI Hk]; (split; [done|]).
  - by apply HPQ.
  - intros x s' Hx. apply IH. by apply Hk.
Qed.

Lemma safe_bind {A B} (p : proc E A) (f : A → proc E B) s Post :
  safe p s (λ a s', safe (f a) s' Post) → safe (p ≫= f) s Post.
Proof.
  revert s. induction p as [a|X e k IH]; intros s; [by intros [_ ?]|].
  change (Do e k ≫= f) with (Do e (λ x, k x ≫= f)). intros [HI Hk]. split; [done|].
  intros x s' Hx. apply IH. by apply Hk.
Qed.

Lemma safe_call_bind {X A} (e : E X) (k : X → proc E A) s Post :
  I s → (∀ x s', H _ e s x s' → safe (k x) s' Post) → safe (call e ≫= k) s Post.
Proof. done. Qed.

Lemma safe_mret {A} (a : A) s (Post : A → S → Prop) : I s → Post a s → safe (mret a) s Post.
Proof. done. Qed.

Lemma safe_bind_inv {A B} (p : proc E A) (f : A → proc E B) s Post :
  safe (p ≫= f) s Post → safe p s (λ a s', safe (f a) s' Post).
Proof.
  revert s. induction p as [a|X e k IH]; intros s.
  - intros Hs. split; [|exact Hs]. change (Ret a ≫= f) with (f a) in Hs. by destruct (f a), Hs.
  - change (Do e k ≫= f) with (Do e (λ x, k x ≫= f)). intros [HI Hk]. split; [done|].
    intros x s' Hx. apply IH. by apply Hk.
Qed.

Lemma safe_deferred {A} (f : proc E unit) (body : proc E A) s Post :
  safe body s (λ a s', safe f s' (λ _ s'', Post a s'')) → safe (deferred f body) s Post.
Proof.
  intros Hb. unfold deferred. apply safe_bind. eapply safe_mono; [|exact Hb].
  intros a s' _ Hf. apply safe_bind. eapply safe_mono; [|exact Hf]. by intros u s'' ? ?.
Qed.
End safety.

Lemma safe_weaken {E : Type → Type} {S : Type} (H : answers E S) (I J : S → Prop) {A} (p : proc E A) s Post :
  (∀ s, I s → J s) → safe H I p s Post → safe H J p s Post.
Proof.
  intros HIJ. revert s. induction p as [a|X e k IH]; intros s [HI Hk]; (split; [by apply HIJ|]); [done|].
  intros x s' Hx. apply IH. by apply Hk.
Qed.

(** ** Procedures behind the calls

    Where every call of [E] is itself a procedure over calls of [F]. *)
Section interp.
Context {E F : Type → Type} (h : ∀ X, E X → proc F X).

Fixpoint interp {A} (p : proc E A) : proc F A :=
  match p with
  | Ret a => Ret a
  | Do e k => h _ e ≫= (λ x, interp (k x))
  end.

Context {S : Type} (H : answers F S) (I : S → Prop).

Lemma safe_interp_call {X A} (e : E X) (k : X → proc E A) s Post :
  safe H I (h X e) s (λ x s', safe H I (interp (k x)) s' Post) → safe H I (interp (call e ≫= k)) s Post.
Proof. apply safe_bind. Qed.

Lemma safe_interp_bind {A B} (p : proc E A) (f : A → proc E B) s Post :
  safe H I (interp p) s (λ a s', safe H I (interp (f a)) s' Post) → safe H I (interp (p ≫= f)) s Post.
Proof.
  revert s. induction p as [a|X e k IH]; intros s; [by intros [_ ?]|].
  change (Do e k ≫= f) with (Do e (λ x, k x ≫= f)). intros Hs%safe_bind_inv. apply safe_bind.
  eapply safe_mono; [|exact Hs]. intros x s' _. apply IH.
Qed.
End interp.

(** What an executable collaborator does is among what the answers allow. *)
Lemma execs_handler {E : Type → Type} {S : Type} (H : answers E S) (h : handler E S) {A} (p : proc E A) s a s' :
  (∀ X (e : E X) s, H X e s (h X e s).1 (h X e s).2) → run h p s = (a, s') → execs H p s a s'.
Proof.
  intros Hh. revert s. induction p as [b|X e k IH]; intros s; simpl; [by intros [= -> ->]|].
  specialize (Hh X e s). destruct (h X e s) as [x s1]. intros Hr. exists x, s1. split; [done|]. by apply IH.
Qed.
