(* ===== verification/Logs.v ===== *)
(** * Loggers in contexts (pkg/logs)

    A context carries a logger, and the package has a default one for contexts that carry
    none. [FromContext] finds the logger set last ([from_context_spec]). The logger of the
    package itself writes through slog: its methods are calls of slog, which formats and
    filters the records. *)

From S2P Require Import Prelude GoString GoError GoValue Proc.
From stdpp Require Import options.
Set Default Proof Using "Type*".

Module Logs.

(** ** Contexts *)

(** What a context has under a key: the package's own key, or another one. *)
Inductive context (Logger : Type) :=
| Background
| WithLogger (parent : context Logger) (logger : Logger)
| WithOther (parent : context Logger) (key : nat).
Arguments Background {_}.
Arguments WithLogger {_} _ _.
Arguments WithOther {_} _ _.

(** A call that may panic. *)
Inductive outcome (A : Type) := Returns (a : A) | Panics (msg : string).
Arguments Returns {_} _.
Arguments Panics {_} _.

Section loggers.
Context {Logger : Type}.
Variable With : list any → Logger → Logger.      (* the method of the interface *)

(** [ctx.Value(loggerKey)] *)
Fixpoint value_logger (c : context Logger) : option Logger :=
  match c with
  | Background => None
  | WithLogger _ l => Some l
  | WithOther c' _ => value_logger c'
  end.

(** A nil interface value is [None]; the variable [defaultLogger] is passed along. *)
Definition Default (defaultLogger : Logger) : Logger := defaultLogger.

Definition SetDefault (defaultLogger : Logger) (logger : option Logger) : outcome Logger :=
  match logger with
  | None => Panics "logs: SetDefault(nil)"
  | Some l => Returns l
  end.

Definition IntoContext (c : option (context Logger)) (logger : option Logger) : outcome (context Logger) :=
  match logger with
  | None => Panics "logs: IntoContext(nil Logger)"
  | Some l => Returns (WithLogger (default Background c) l)
  end.

Definition NewContext (defaultLogger : Logger) (keysAndValues : list any) : outcome (context Logger) :=
  IntoContext (Some Background) (Some (With keysAndValues (Default defaultLogger))).

Definition FromContext (defaultLogger : Logger) (c : option (context Logger)) : Logger :=
  match c with
  | None => Default defaultLogger
  | Some c => default (Default defaultLogger) (value_logger c)
  end.

(** ** The logger of a context *)

(** Values other than loggers put around a context. *)
Inductive extends (c : context Logger) : context Logger → Prop :=
| ext_here : extends c c
| ext_other c' key : extends c c' → extends c (WithOther c' key).

Lemma extends_logger c c' : extends c c' → value_logger c' = value_logger c.
Proof. by induction 1. Qed.

(** [FromContext] finds the logger last put into the context, whatever else was put
    around it, and otherwise the default of the moment; it never panics, and
    [NewContext] keeps the default it was made with. *)
Lemma from_context_spec (d d' l : Logger) (c : option (context Logger)) (kvs : list any) :
  (∀ c1 c2, IntoContext c (Some l) = Returns c1 → extends c1 c2 → FromContext d (Some c2) = l) ∧
  (∀ c1, extends Background c1 → FromContext d (Some c1) = d) ∧ FromContext d None = d ∧
  (∀ c1 c2, NewContext d kvs = Returns c1 → extends c1 c2 → FromContext d' (Some c2) = With kvs d).
Proof.
  split_and!; [| |done|].
  - intros c1 c2 [= <-] He. simpl. by rewrite (extends_logger _ _ He).
  - intros c1 He. simpl. by rewrite (extends_logger _ _ He).
  - intros c1 c2 [= <-] He. simpl. by rewrite (extends_logger _ _ He).
Qed.
End loggers.

(** ** The logger over slog *)

(** [*slog.Logger]: the attributes added so far. *)
Record slogLogger := { sl_attrs : list (list any) }.

Definition LevelDebug : Z := -4.
Definition LevelInfo : Z := 0.
Definition LevelWarn : Z := 4.
Definition LevelError : Z := 8.
Definition LevelFatal : Z := 12.

Inductive slog_call : Type → Type :=
| Log (attrs : list (list any)) (level : Z) (msg : string) (keysAndValues : list any) : slog_call unit
| Exit (code : Z) : slog_call unit.

(** A nil pointer is [None]. *)
Definition NewSlog (logger : option slogLogger) : outcome slogLogger :=
  match logger with
  | None => Panics "logs: NewSlog(nil)"
  | Some l => Returns l
  end.

Definition Debug (l : slogLogger) (msg : string) (kvs : list any) : proc slog_call unit := call (Log (sl_attrs l) LevelDebug msg kvs).
Definition Info (l : slogLogger) (msg : string) (kvs : list any) : proc slog_call unit := call (Log (sl_attrs l) LevelInfo msg kvs).
Definition Warn (l : slogLogger) (msg : string) (kvs : list any) : proc slog_call unit := call (Log (sl_attrs l) LevelWarn msg kvs).
Definition LogError (l : slogLogger) (msg : string) (kvs : list any) : proc slog_call unit := call (Log (sl_attrs l) LevelError msg kvs).

Definition Fatal (l : slogLogger) (msg : string) (kvs : list any) : proc slog_call unit :=
  _ ← call (Log (sl_attrs l) LevelFatal msg kvs);
  call (Exit 1).

Definition slog_With (kvs : list any) (l : slogLogger) : slogLogger :=
  if decide (length kvs = 0) then l else {| sl_attrs := sl_attrs l ++ [kvs] |}.

(** The default logger: records from [LevelInfo] on, and the level of a fatal one is
    written as a word. *)
Definition default_enabled (level : Z) : bool := bool_decide (LevelInfo ≤ level)%Z.
Inductive attr_value := VLevel (level : Z) | VString (s : string) | VOther.
Definition ReplaceAttr (a : string * attr_value) : string * attr_value :=
  if decide (a.1 = "level") then
    match a.2 with
    | VLevel level => if decide (level = LevelFatal) then ("level", VString "FATAL") else a
    | _ => a
    end
  else a.

(** A fatal message is written, even by the default logger, before the process exits. *)
Lemma fatal_spec l msg kvs t u :
  traces (Fatal l msg kvs) t u →
  t = [Ev (Log (sl_attrs l) LevelFatal msg kvs) (); Ev (Exit 1) ()] ∧ default_enabled LevelFatal = true.
Proof.
  intros H. split; [|done]. unfold Fatal in H. trace_step H. apply traces_call in H as ->. by destruct x, u.
Qed.
End Logs.
