(* ===== verification/WorkspaceWorld.v ===== *)
(** * The collaborators of the workspace package

    What the controller and the probe scheduler call: the repository, the plugin
    storage, the registered agent specs and infra factories, archive readers, the
    clock and contexts. They are Go interfaces or code outside the package, so each
    call is an event whose answer is not fixed ([Proc]). Handles (ops, bodies,
    readers) are numbers; a spec, its layout and a factory are named by the type
    they are registered under, since the sets do not change after they are built.
    Logging is left out. *)

From S2P Require Import Prelude GoString GoError GoValue WorkspaceTypes PluginTypes Proc.
From stdpp Require Import options.

(** A context: a caller's, or one derived with a timeout or a cancel function. *)
Inductive ctx : Type :=
| CtxParent (n : nat)
| CtxTimeout (parent : ctx) (d : Z)
| CtxCancel (parent : ctx) (n : nat).

Definition second : Z := 10 ^ 9.
Definition minute : Z := 60 * second.

(** repo_write_context.go *)
Definition defaultRepoWriteTimeout : Z := 5 * second.
Definition newRepoWriteContext (parent : ctx) : ctx := CtxTimeout parent defaultRepoWriteTimeout.

(** [agent.ProbeResult], [agent.AttachedPluginRef], [agent.WorkspaceSummary] and
    [agent.InstallParams] *)
Record ProbeResult := {
  pr_Healthy : bool;
  pr_Latency : Z;
  pr_Detail : gomap string;
  pr_Error : option WorkspaceError;
}.

Record AttachedPluginRef := {
  apr_PluginID : PluginID;
  apr_Name : string;
  apr_ContentHash : string;
}.

Record WorkspaceSummary := {
  ws_ID : WorkspaceID;
  ws_Namespace : Namespace;
  ws_Alias : Alias;
  ws_AgentType : AgentType;
  ws_InfraType : InfraType;
  ws_Plugins : list AttachedPluginRef;
}.

Record InstallParams := {
  ip_Workspace : WorkspaceSummary;
  ip_UserParams : gomap any;
}.

(** The atomic counters of the probe scheduler. *)
Inductive counter := TicksRun | ProbesAttempted | ProbesHealthy | ProbesFailed | Overruns.

Abbreviation Ops := nat (only parsing).
Abbreviation Body := nat (only parsing).
Abbreviation Reader := nat (only parsing).

Inductive wcall : Type → Type :=
| Now : wcall Time
| CtxErr (c : ctx) : wcall (option error)
| CancelCtx (c : ctx) : wcall unit
(** [select] on [time.After(d)] and [c.Done()]: [None] when the delay elapsed, else
    [c.Err()], which is not nil once [Done] is closed *)
| WaitDelay (c : ctx) (d : Z) : wcall (option error)
| RepoGet (c : ctx) (id : WorkspaceID) : wcall (result Workspace)
| RepoList (c : ctx) (o : WorkspaceTypes.ListOptions) : wcall (result (list Workspace * string))
| RepoUpdate (c : ctx) (w : Workspace) : wcall (result unit)
| RepoUpdateStatusCAS (c : ctx) (id : WorkspaceID) (wr : StatusWriter) (expect next : Status)
    (e : option WorkspaceError) (t : Time) : wcall (result unit)
| RepoDelete (c : ctx) (id : WorkspaceID) : wcall (result unit)
| FactoryGet (t : InfraType) : wcall bool
| FactoryBuild (c : ctx) (t : InfraType) (options : gomap any) : wcall (result Ops)
| OpsInit (c : ctx) (o : Ops) : wcall (result unit)
| OpsOpen (c : ctx) (o : Ops) : wcall (result unit)
| OpsClear (c : ctx) (o : Ops) : wcall (result unit)
| SpecGet (t : AgentType) : wcall bool
| SpecInstall (c : ctx) (t : AgentType) (o : Ops) (p : InstallParams) : wcall (result unit)
| SpecUninstall (c : ctx) (t : AgentType) (o : Ops) : wcall (result unit)
| SpecProbe (c : ctx) (t : AgentType) (o : Ops) : wcall (ProbeResult * option error)
| StorageGet (c : ctx) (id : PluginID) : wcall (result (Body * StoredObject))
| BodyClose (b : Body) : wcall (result unit)
| OpenZip (c : ctx) (b : Body) (sizeHint maxSize : Z) : wcall (result Reader)
| ReaderManifest (r : Reader) : wcall Manifest
| ReaderClose (r : Reader) : wcall (result unit)
(** the type assertion [layout.(agent.PluginLayoutDirectoryKey)] on the spec's layout *)
| LayoutHasKey (t : AgentType) : wcall bool
| LayoutKey (t : AgentType) (m : Manifest) : wcall (result string)
| LayoutApply (c : ctx) (t : AgentType) (o : Ops) (m : Manifest) (r : Reader) : wcall (result (list string))

(** the controller's own queue and flags, modelled in [Controller] *)
| CtlStopped : wcall bool
| CtlTakeQueued (id : WorkspaceID) : wcall (option nat)
| CtlCancelRun (ticket : nat) : wcall unit
| CtlWaitIdle (c : ctx) (id : WorkspaceID) : wcall (result unit)
(** [Add(1)] on a counter *)
| Count (k : counter) : wcall unit.

Abbreviation wproc := (proc wcall).
Abbreviation wevent := (event wcall).

(** [errors.Is(err, target)] of an error value that may be nil. *)
Definition is_err (e : option error) (target : error) : bool :=
  match e with None => false | Some e => errors_Is e target end.

(** ** The failures both components record (controller.go) *)

Definition ErrAgentTypeUnknown : error := ENew "agent: agent type unknown".
Definition ErrInfraTypeUnknown : error := ENew "infraops: infra type unknown".
Definition ErrInvalidPluginLayout : error := ENew "agent: invalid plugin layout".

Definition failureCode (phase : string) (err : error) : string :=
  if errors_Is err ErrInstallTimeout then "install.timeout"
  else if errors_Is err ErrPluginNotFound || errors_Is err ErrStorageNotFound
       then phase +:+ ".plugin_not_found"
  else if errors_Is err ErrPluginContentHashMismatch then phase +:+ ".plugin_hash_mismatch"
  else if errors_Is err ErrInfraTypeUnknown then phase +:+ ".infra_type_unknown"
  else if errors_Is err ErrAgentTypeUnknown then phase +:+ ".agent_type_unknown"
  else phase +:+ ".error".

Definition failureForShutdown (now : Time) : option WorkspaceError :=
  Some {| we_Code := "shutdown"; we_Message := "controller stopped"; we_Phase := "install";
          we_RecordedAt := now |}.

Definition failureFromError (now : Time) (phase : string) (err : option error) : option WorkspaceError :=
  match err with
  | None => None
  | Some err => Some {| we_Code := failureCode phase err; we_Message := Error err; we_Phase := phase;
                        we_RecordedAt := now |}
  end.

Definition failureFromProbeResult (now : Time) (r : ProbeResult) : option WorkspaceError :=
  match cloneError (pr_Error r) with
  | Some err => Some {|
      we_Phase := if decide (we_Phase err = "") then "probe" else we_Phase err;
      we_RecordedAt := if decide (we_RecordedAt err = 0%Z) then now else we_RecordedAt err;
      we_Code := if decide (we_Code err = "") then "probe.unhealthy" else we_Code err;
      we_Message := if decide (we_Message err = "") then "probe reported unhealthy" else we_Message err |}
  | None => Some {| we_Code := "probe.unhealthy"; we_Message := "probe reported unhealthy";
                    we_Phase := "probe"; we_RecordedAt := now |}
  end.

Definition cloneInstallParams (p : InstallParams) : InstallParams :=
  {| ip_Workspace := ip_Workspace p; ip_UserParams := cloneMapAny (ip_UserParams p) |}.

(** A world in which every collaborator succeeds and the probe reports healthy. *)
Definition all_good : ∀ X, wcall X → X := λ X e,
  match e in wcall X return X with
  | Now => 0%Z
  | CtxErr _ => None
  | CancelCtx _ => ()
  | WaitDelay _ _ => None
  | RepoGet _ _ => Err ErrWorkspaceNotFound
  | RepoList _ _ => Ok ([], "")
  | RepoUpdate _ _ | RepoUpdateStatusCAS _ _ _ _ _ _ _ | RepoDelete _ _ => Ok ()
  | FactoryGet _ => true
  | FactoryBuild _ _ _ => Ok 1
  | OpsInit _ _ | OpsOpen _ _ | OpsClear _ _ => Ok ()
  | SpecGet _ => true
  | SpecInstall _ _ _ _ | SpecUninstall _ _ _ => Ok ()
  | SpecProbe _ _ _ => ({| pr_Healthy := true; pr_Latency := 0; pr_Detail := None; pr_Error := None |}, None)
  | StorageGet _ _ => Err ErrStorageNotFound
  | BodyClose _ | ReaderClose _ => Ok ()
  | OpenZip _ _ _ _ => Ok 1
  | ReaderManifest _ => zero_manifest
  | LayoutHasKey _ => false
  | LayoutKey _ _ => Ok ""
  | LayoutApply _ _ _ _ _ => Ok []
  | CtlStopped => false
  | CtlTakeQueued _ => None
  | CtlCancelRun _ => ()
  | CtlWaitIdle _ _ => Ok ()
  | Count _ => ()
  end.
