(* ===== verification/Install.v ===== *)
(** * Installing and deleting a workspace (pkg/manager/workspace/controller.go)

    The effectful half of the controller: what one worker does for one job
    ([runInstall], with [attachPlugins], [retryRepoWrite], [transitionToFailed]) and
    the teardown in [Controller.Delete]. Each is a procedure over the calls of
    [WorkspaceWorld]; the queue and the worker pool are in [Controller]. *)

From S2P Require Import Prelude GoString GoError GoValue WorkspaceTypes PluginTypes Proc WorkspaceWorld.
From stdpp Require Import options.

Module Install.

(** The fields of [Controller] an install reads. *)
Record config := {
  installTimeout : Z;
  maxPluginSize : Z;
  probeTimeout : Z;
}.

Record installJob := {
  job_workspace : Workspace;
  job_params : InstallParams;
}.

Definition repoRetryBackoff : list Z := [250 * 10 ^ 6; 750 * 10 ^ 6]%Z.

(** ** Repository writes with retries *)

Fixpoint retry_loop (repoCtx : ctx) (fn : ctx → wproc (result unit)) (delays : list Z) (err : error)
    : wproc (result unit) :=
  match delays with
  | [] => mret (Err err)
  | delay :: delays' =>
    done_ ← call (WaitDelay repoCtx delay);
    match done_ with
    | Some e => mret (Err e)
    | None =>
      r ← fn repoCtx;
      match r with
      | Ok _ => mret (Ok ())
      | Err err' => retry_loop repoCtx fn delays' err'
      end
    end
  end.

Definition retryRepoWrite (repoCtx : ctx) (fn : ctx → wproc (result unit)) : wproc (result unit) :=
  r ← fn repoCtx;
  match r with
  | Ok _ => mret (Ok ())
  | Err err => retry_loop repoCtx fn repoRetryBackoff err
  end.

(** A compare-and-swap by the controller that treats a lost race as done. *)
Definition cas_from_init (id : WorkspaceID) (next : Status) (statusErr : option WorkspaceError)
    (lastProbeAt : Time) (c : ctx) : wproc (result unit) :=
  r ← call (RepoUpdateStatusCAS c id StatusWriterController StatusInit next statusErr lastProbeAt);
  mret match r with
       | Err e => if errors_Is e ErrStatusPreconditionFailed then Ok () else Err e
       | Ok _ => Ok ()
       end.

(** A write that still fails after the retries is only logged. *)
Definition transitionToFailed (repoCtx : ctx) (id : WorkspaceID) (statusErr : option WorkspaceError)
    (lastProbeAt : Time) : wproc unit :=
  _ ← retryRepoWrite repoCtx (cas_from_init id StatusFailed statusErr lastProbeAt);
  mret ().

Definition classifyFailure (c : ctx) (phase : string) (err : error) : wproc (option WorkspaceError) :=
  e1 ← call (CtxErr c);
  if is_err e1 DeadlineExceeded || errors_Is err DeadlineExceeded then
    now ← call Now;
    mret (failureFromError now phase (Some (Errorf_w "" ErrInstallTimeout (": " +:+ Error err))))
  else
    e2 ← call (CtxErr c);
    if is_err e2 Canceled || errors_Is err Canceled then
      now ← call Now; mret (failureForShutdown now)
    else
      now ← call Now; mret (failureFromError now phase (Some err)).

(** ** Attaching plugins *)

(** [closeReaders]: close errors are dropped. The source sets the reader of an entry
    to nil once it is closed, so the entries to close are the ones listed. *)
Fixpoint closeReaders (opened : list (AttachedPlugin * Reader)) : wproc unit :=
  match opened with
  | [] => mret ()
  | (_, r) :: opened' => _ ← call (ReaderClose r); closeReaders opened'
  end.

(** The first loop: fetch, check and open every archive before anything is placed. *)
Fixpoint open_plugins (maxSize : Z) (c : ctx) (plugins : list AttachedPlugin)
    (opened : list (AttachedPlugin * Reader)) : wproc (result (list (AttachedPlugin * Reader))) :=
  match plugins with
  | [] => mret (Ok opened)
  | ref :: plugins' =>
    got ← call (StorageGet c (ap_PluginID ref));
    match got with
    | Err err =>
      _ ← closeReaders opened;
      mret (Err (if errors_Is err ErrStorageNotFound
                 then Errorf_w "" ErrPluginNotFound (": " +:+ strconv_Quote (ap_PluginID ref))
                 else err))
    | Ok (body, obj) =>
      if decide (so_ContentHash obj ≠ ap_ContentHash ref) then
        _ ← call (BodyClose body);
        _ ← closeReaders opened;
        mret (Err (Errorf_w "" ErrPluginContentHashMismatch
                     (" for plugin " +:+ strconv_Quote (ap_PluginID ref) +:+ ": snapshot " +:+
                      strconv_Quote (ap_ContentHash ref) +:+ " storage " +:+
                      strconv_Quote (so_ContentHash obj))))
      else
        o ← call (OpenZip c body (so_Size obj) maxSize);
        cl ← call (BodyClose body);
        match o, cl with
        | Err openErr, Err closeErr =>
            _ ← closeReaders opened;
            mret (match errors_Join [openErr; closeErr] with Some e => Err e | None => Ok [] end)
        | Err openErr, Ok _ => _ ← closeReaders opened; mret (Err openErr)
        | Ok reader, Err closeErr =>
            _ ← call (ReaderClose reader);
            _ ← closeReaders opened;
            mret (Err closeErr)
        | Ok reader, Ok _ => open_plugins maxSize c plugins' (opened ++ [(ref, reader)])
        end
    end
  end.

(** The second loop: two plugins of the batch must not claim one directory. *)
Fixpoint check_keys (t : AgentType) (todo : list (AttachedPlugin * Reader)) (seen : list string)
    : wproc (result unit) :=
  match todo with
  | [] => mret (Ok ())
  | (_, r) :: todo' =>
    m ← call (ReaderManifest r);
    k ← call (LayoutKey t m);
    match k with
    | Err e => mret (Err e)
    | Ok dir =>
      if decide (dir = "") then check_keys t todo' seen
      else if decide (dir ∈ seen)
      then mret (Err (Errorf_w "" ErrInvalidPluginLayout
                        (": duplicate plugin layout directory " +:+ strconv_Quote dir)))
      else check_keys t todo' (dir :: seen)
    end
  end.

(** The third loop: place each plugin and close its reader. *)
Fixpoint apply_plugins (c : ctx) (t : AgentType) (ops : Ops) (todo : list (AttachedPlugin * Reader))
    (attached : list AttachedPlugin) : wproc (result (list AttachedPlugin)) :=
  match todo with
  | [] => mret (Ok attached)
  | (ref, r) :: todo' =>
    m ← call (ReaderManifest r);
    placed ← call (LayoutApply c t ops m r);
    cl ← call (ReaderClose r);
    match placed, cl with
    | Err applyErr, Err closeErr =>
        _ ← closeReaders todo';
        mret (match errors_Join [applyErr; closeErr] with Some e => Err e | None => Ok [] end)
    | Err applyErr, Ok _ => _ ← closeReaders todo'; mret (Err applyErr)
    | Ok _, Err closeErr => _ ← closeReaders todo'; mret (Err closeErr)
    | Ok paths, Ok _ =>
        apply_plugins c t ops todo'
          (attached ++ [{| ap_PluginID := ap_PluginID ref; ap_Name := ap_Name ref;
                           ap_ContentHash := ap_ContentHash ref; ap_PlacedPaths := paths |}])
    end
  end.

Definition attachPlugins (maxSize : Z) (c : ctx) (ops : Ops) (t : AgentType)
    (plugins : list AttachedPlugin) : wproc (result (list AttachedPlugin)) :=
  if decide (length plugins = 0) then mret (Ok []) else
  o ← open_plugins maxSize c plugins [];
  match o with
  | Err e => mret (Err e)
  | Ok opened =>
    hasKey ← call (LayoutHasKey t);
    k ← (if (hasKey : bool) then check_keys t opened [] else mret (Ok ()));
    match k with
    | Err e => _ ← closeReaders opened; mret (Err e)
    | Ok _ => apply_plugins c t ops opened []
    end
  end.

(** ** One install *)

Section install.
Variable cfg : config.

Definition cleanupStaleInstallEffects (c : ctx) (ops : Ops) : wproc unit :=
  _ ← call (OpsClear c ops); mret ().

(** After a healthy probe: reload the row, persist the plugins, mark it healthy. *)
Definition finalize (persistCtx installCtx : ctx) (id : WorkspaceID) (ops : Ops)
    (attachedPlugins : list AttachedPlugin) (probedAt : Time) : wproc unit :=
  got ← call (RepoGet persistCtx id);
  match got with
  | Err err =>
    now ← call Now;
    transitionToFailed persistCtx id
      (failureFromError now "install" (Some (Errorf_w "reload before finalize: " err ""))) 0
  | Ok latest =>
    if decide (w_Status latest ≠ StatusInit) then
      if bool_decide (w_Status latest = StatusFailed) &&
         match w_StatusError latest with
         | Some e => bool_decide (we_Code e = "install.timeout")
         | None => false
         end
      then mret ()
      else cleanupStaleInstallEffects installCtx ops
    else
      now ← call Now;
      let latest := set_plugins latest attachedPlugins now in
      upd ← retryRepoWrite persistCtx (λ c, call (RepoUpdate c latest));
      match upd with
      | Err err =>
        now ← call Now;
        transitionToFailed persistCtx id
          (failureFromError now "install" (Some (Errorf_w "persist attached plugins: " err ""))) 0
      | Ok _ =>
        st ← retryRepoWrite persistCtx (cas_from_init (w_ID latest) StatusHealthy None probedAt);
        match st with
        | Err err =>
          now ← call Now;
          transitionToFailed persistCtx id
            (failureFromError now "status" (Some (Errorf_w "mark healthy after install: " err ""))) 0
        | Ok _ => mret ()
        end
      end
  end.

Definition confirm_probe (persistCtx installCtx : ctx) (id : WorkspaceID) (t : AgentType) (ops : Ops)
    (attachedPlugins : list AttachedPlugin) : wproc unit :=
  let probeCtx := CtxTimeout installCtx (probeTimeout cfg) in
  probed ← call (SpecProbe probeCtx t ops);
  let '(result, err) := probed : ProbeResult * option error in
  probedAt ← call Now;
  match err with
  | Some err =>
    failure ← classifyFailure probeCtx "probe" err;
    _ ← call (CancelCtx probeCtx);
    transitionToFailed persistCtx id failure probedAt
  | None =>
    _ ← call (CancelCtx probeCtx);
    if pr_Healthy result then finalize persistCtx installCtx id ops attachedPlugins probedAt
    else
      now ← call Now;
      transitionToFailed persistCtx id (failureFromProbeResult now result) probedAt
  end.

(** Failing an install phase with a classified error. *)
Definition fail_install (persistCtx installCtx : ctx) (id : WorkspaceID) (err : error) : wproc unit :=
  failure ← classifyFailure installCtx "install" err;
  transitionToFailed persistCtx id failure 0.

Definition fail_unknown (persistCtx : ctx) (id : WorkspaceID) (sentinel : error) (t : string) : wproc unit :=
  now ← call Now;
  transitionToFailed persistCtx id
    (failureFromError now "install" (Some (Errorf_w "" sentinel (": " +:+ strconv_Quote t)))) 0.

Definition install_steps (persistCtx installCtx : ctx) (job : installJob) : wproc unit :=
  let w := job_workspace job in
  let id := w_ID w in
  known ← call (FactoryGet (w_InfraType w));
  if negb known then fail_unknown persistCtx id ErrInfraTypeUnknown (w_InfraType w) else
  built ← call (FactoryBuild installCtx (w_InfraType w) (w_InfraOptions w));
  match built with
  | Err err => fail_install persistCtx installCtx id err
  | Ok ops =>
    ini ← call (OpsInit installCtx ops);
    match ini with
    | Err err => fail_install persistCtx installCtx id err
    | Ok _ =>
      known ← call (SpecGet (w_AgentType w));
      if negb known then fail_unknown persistCtx id ErrAgentTypeUnknown (w_AgentType w) else
      att ← attachPlugins (maxPluginSize cfg) installCtx ops (w_AgentType w) (w_Plugins w);
      match att with
      | Err err => fail_install persistCtx installCtx id err
      | Ok attachedPlugins =>
        ins ← call (SpecInstall installCtx (w_AgentType w) ops (job_params job));
        match ins with
        | Err err => fail_install persistCtx installCtx id err
        | Ok _ => confirm_probe persistCtx installCtx id (w_AgentType w) ops attachedPlugins
        end
      end
    end
  end.

Definition runInstall (job : installJob) (parent : ctx) : wproc unit :=
  let persistCtx := newRepoWriteContext parent in
  deferred (call (CancelCtx persistCtx))
    (perr ← call (CtxErr parent);
     match perr with
     | Some _ =>
       now ← call Now;
       transitionToFailed persistCtx (w_ID (job_workspace job)) (failureForShutdown now) 0
     | None =>
       let installCtx := CtxTimeout parent (installTimeout cfg) in
       deferred (call (CancelCtx installCtx)) (install_steps persistCtx installCtx job)
     end).
End install.

(** ** [Controller.Delete]

    Cleanup failures are logged; the row is deleted whatever they were. *)
Definition Delete (c : ctx) (id : WorkspaceID) : wproc (result unit) :=
  stop ← call CtlStopped;
  if (stop : bool) then mret (Err ErrControllerShutdown) else
  cancelFn ← call (CtlTakeQueued id);
  _ ← match cancelFn with Some ticket => call (CtlCancelRun ticket) | None => mret () end;
  idle ← call (CtlWaitIdle c id);
  match idle with
  | Err err => mret (Err (Errorf_w ("workspace delete wait install " +:+ strconv_Quote id +:+ ": ") err ""))
  | Ok _ =>
    got ← call (RepoGet c id);
    match got with
    | Err err => mret (Err err)
    | Ok row =>
      known ← call (FactoryGet (w_InfraType row));
      if negb known then call (RepoDelete c id) else
      built ← call (FactoryBuild c (w_InfraType row) (w_InfraOptions row));
      match built with
      | Err _ => call (RepoDelete c id)
      | Ok ops =>
        spec ← call (SpecGet (w_AgentType row));
        opened ← call (OpsOpen c ops);
        _ ← match opened with
            | Err _ => mret ()
            | Ok _ => if (spec : bool) then
                        _ ← call (SpecUninstall c (w_AgentType row) ops); mret ()
                      else mret ()
            end;
        _ ← call (OpsClear c ops);
        call (RepoDelete c id)
      end
    end
  end.

End Install.
