(* ===== verification/WorkspaceRun.v ===== *)
(** * Running the workspace procedures against the in-memory repository

    [with_repo I] answers repository calls with [WorkspaceRepository] and lets the
    other collaborators answer anything; before each call the other clients of the
    repository may have taken any number of [I] steps. [repo_handler] is an
    executable instance without interference. *)

From S2P Require Import Prelude GoString GoError GoValue WorkspaceTypes PluginTypes Proc WorkspaceWorld.
From S2P Require Import WorkspaceRepo.
From stdpp Require Import options.

Module WorkspaceRun.
Import WorkspaceRepository WorkspaceInvariant WorkspaceRepoSpec.

(** One call against the repository; the time a status write records is the
    repository's own [time.Now()]. *)
Definition repo_call {X} (e : wcall X) : repo → X → repo → Prop :=
  match e in wcall X return repo → X → repo → Prop with
  | RepoGet _ id => λ r x r', x = Get id r ∧ r' = r
  | RepoList _ o => λ r x r', x = List_ o r ∧ r' = r
  | RepoUpdate _ w => λ r x r', (x, r') = run_op (OpUpdate w) r
  | RepoUpdateStatusCAS _ id wr ex nx e t => λ r x r',
      ∃ now, (x, r') = run_op (OpCAS id wr ex nx e t now) r
  | RepoDelete _ id => λ r x r', (x, r') = run_op (OpDelete id) r
  | _ => λ r _ r', r' = r
  end.

Definition with_repo (I : relation repo) : answers wcall repo := λ X e r x r',
  ∃ r1, rtc I r r1 ∧ repo_call e r1 x r'.

(** Steps of other clients that do not insert a row with this id. *)
Inductive quiet (id : WorkspaceID) : relation repo :=
| quiet_op o r : (∀ w, o = OpInsert w → w_ID w ≠ id) → quiet id r (run_op o r).2.

(** The operation a repository call performs. *)
Lemma repo_call_op {X} (e : wcall X) r x r' :
  repo_call e r x r' → r' = r ∨ ∃ o, (∀ w, o ≠ OpInsert w) ∧ r' = (run_op o r).2.
Proof.
  destruct e; cbn [repo_call]; intros H; try (by left); try (left; apply H).
  - right. exists (OpUpdate w). split; [done|]. by rewrite <-H.
  - right. destruct H as [now H]. eexists (OpCAS _ _ _ _ _ _ now). split; [done|]. by rewrite <-H.
  - right. exists (OpDelete id). split; [done|]. by rewrite <-H.
Qed.

Lemma quiet_inv id r r' : repo_inv r → rtc (quiet id) r r' → repo_inv r'.
Proof.
  intros Hr Hq. induction Hq as [|r r1 r' [o r0 _] _ IH]; [done|]. apply IH, run_op_inv, Hr.
Qed.

Lemma with_repo_inv id X (e : wcall X) r x r' :
  repo_inv r → with_repo (quiet id) X e r x r' → repo_inv r'.
Proof.
  intros Hr (r1 & Hq & Hc). apply (quiet_inv id) in Hq; [|done].
  apply repo_call_op in Hc as [->|(o & _ & ->)]; [done|]. by apply run_op_inv.
Qed.

(** ** Settled workspaces

    A workspace is settled when it can no longer be [init]: it left [init] or was
    deleted, or the repository was closed. *)
Definition settled (id : WorkspaceID) (r : repo) : Prop :=
  closed r = true ∨ ∀ w, byID r !! id = Some w → w_Status w ≠ StatusInit.

Lemma settled_op id o r :
  repo_inv r → (∀ w, o = OpInsert w → w_ID w ≠ id) → settled id r → settled id (run_op o r).2.
Proof.
  intros Hr Ho [Hc|Hs]; [left; by apply run_op_closed|right].
  intros w' Hw'. destruct (byID r !! id) as [w|] eqn:Hw.
  - destruct (run_op_row o r id w w' Hr Hw Hw') as [_ Hst].
    specialize (Hs w eq_refl).
    destruct Hst as [->|[(E & _)|[[_ ->]|[_ ->]]]]; [done|congruence|done|done].
  - rewrite (run_op_absent o r id Ho Hw Hr) in Hw'. done.
Qed.

Lemma settled_quiet id r r' : repo_inv r → rtc (quiet id) r r' → settled id r → settled id r'.
Proof.
  intros Hr Hq. induction Hq as [|r r1 r' [o r0 Ho] _ IH]; [done|]. intros Hs.
  apply IH; [by apply run_op_inv|]. by apply settled_op.
Qed.

Lemma settled_call id X (e : wcall X) r x r' :
  repo_inv r → settled id r → with_repo (quiet id) X e r x r' → settled id r'.
Proof.
  intros Hr Hs (r1 & Hq & Hc). pose proof (quiet_inv _ _ _ Hr Hq) as Hr1.
  apply settled_quiet in Hq; [|done|done].
  apply repo_call_op in Hc as [->|(o & Ho & ->)]; [done|].
  apply settled_op; [done| |done]. intros w E. by destruct (Ho w).
Qed.

(** Procedures after which the workspace is settled, from any state. *)
Definition settles (id : WorkspaceID) {A} (p : wproc A) : Prop := ∀ r a r',
  repo_inv r → execs (with_repo (quiet id)) p r a r' → settled id r'.

Lemma execs_inv id {A} (p : wproc A) r a r' :
  repo_inv r → execs (with_repo (quiet id)) p r a r' → repo_inv r'.
Proof.
  intros Hr. apply (execs_invariant _ repo_inv); [|done]. intros X e s x s'. apply with_repo_inv.
Qed.

Lemma settled_execs id {A} (p : wproc A) r a r' :
  repo_inv r → settled id r → execs (with_repo (quiet id)) p r a r' → settled id r'.
Proof.
  intros Hr Hs Hp.
  assert (repo_inv r' ∧ settled id r') as [_ ?]; [|done].
  eapply (execs_invariant _ (λ s, repo_inv s ∧ settled id s)); [|done|exact Hp].
  intros X e s x s' [Hi Hse] Hx. split; [by eapply with_repo_inv|by eapply settled_call].
Qed.

Lemma settles_first id {A B} (p : wproc A) (f : A → wproc B) : settles id p → settles id (p ≫= f).
Proof.
  intros Hp r b r' Hr (a & r1 & H1 & H2)%execs_bind.
  eapply settled_execs; [by eapply execs_inv|by eapply Hp|done].
Qed.

Lemma settles_then id {A B} (p : wproc A) (f : A → wproc B) :
  (∀ a, settles id (f a)) → settles id (p ≫= f).
Proof.
  intros Hf r b r' Hr (a & r1 & H1 & H2)%execs_bind.
  eapply (Hf a r1); [by eapply execs_inv|done].
Qed.

Lemma settles_deferred id {A} (f : wproc unit) (p : wproc A) : settles id p → settles id (deferred f p).
Proof. intros Hp. by apply settles_first. Qed.

(** A compare-and-swap of this row from [init] by the controller settles it, whatever
    it answers. *)
Lemma settles_cas id c nx e t :
  writer_edge StatusWriterController StatusInit nx →
  settles id (call (RepoUpdateStatusCAS c id StatusWriterController StatusInit nx e t)).
Proof.
  intros Hed r x r' Hr (r1 & Hq & now & Hx)%execs_call_inv.
  change (run_op _ r1) with (UpdateStatusCAS id StatusWriterController StatusInit nx e t now r1) in Hx.
  destruct (UpdateStatusCAS_cases id StatusWriterController StatusInit nx e t now r1)
    as [[e' E]|(row & Hcl & Hrow & Hst & _ & E)].
  - rewrite E in Hx. injection Hx as -> ->.
    destruct (closed r1) eqn:Hcl; [by left|right]. intros w Hw Hst.
    rewrite (UpdateStatusCAS_ok _ _ _ _ _ _ _ _ w) in E by done. done.
  - rewrite E in Hx. injection Hx as -> ->. right. intros w Hw.
    rewrite put_row_lookup, decide_True in Hw by done. injection Hw as <-. simpl.
    pose proof (writer_edge_ne _ _ _ Hed). done.
Qed.

(** Reading this row outside [init] settles it. *)
Lemma get_settled id c r w r' :
  repo_inv r → execs (with_repo (quiet id)) (call (RepoGet c id)) r (Ok w) r' →
  w_Status w ≠ StatusInit → settled id r'.
Proof.
  intros Hr (r1 & Hq & Hx & ->)%execs_call_inv Hst. right. intros w' Hw'.
  unfold Get in Hx. destruct (closed r1); [done|]. rewrite Hw' in Hx. injection Hx as ->. done.
Qed.

Lemma get_row id c r w r' :
  repo_inv r → execs (with_repo (quiet id)) (call (RepoGet c id)) r (Ok w) r' → w_ID w = id.
Proof.
  intros Hr (r1 & Hq & Hx & ->)%execs_call_inv. pose proof (quiet_inv _ _ _ Hr Hq) as Hr1.
  unfold Get in Hx. destruct (closed r1); [done|].
  destruct (byID r1 !! id) as [row|] eqn:Hrow; [|done]. injection Hx as ->.
  by destruct (inv_row r1 Hr1 _ _ Hrow).
Qed.

(** ** An executable collaborator without interference *)

Definition repo_handler (now : Time) (others : ∀ X, wcall X → X) : handler wcall repo := λ X e,
  match e in wcall X return repo → X * repo with
  | Now => λ r, (now, r)
  | RepoGet _ id => λ r, (Get id r, r)
  | RepoList _ o => λ r, (List_ o r, r)
  | RepoUpdate _ w => λ r, run_op (OpUpdate w) r
  | RepoUpdateStatusCAS _ id wr ex nx e t => λ r, run_op (OpCAS id wr ex nx e t now) r
  | RepoDelete _ id => λ r, run_op (OpDelete id) r
  | e => λ r, (others _ e, r)
  end.

Lemma repo_handler_sound now others I {A} (p : wproc A) r a r' :
  run (repo_handler now others) p r = (a, r') → execs (with_repo I) p r a r'.
Proof.
  revert r. induction p as [b|X e k IH]; intros r; simpl; [by intros [= -> ->]|].
  destruct (repo_handler now others X e r) as [x r1] eqn:Hx. intros Hk%IH.
  exists x, r1. split; [|done]. exists r. split; [apply rtc_refl|].
  destruct e; simpl in *; simplify_eq; try done; try (by split); by eexists.
Qed.
End WorkspaceRun.
