(* ===== verification/InstallSpec.v ===== *)
(** * What an install guarantees

    Resource discipline of [attachPlugins], bounded retries, the order of effects
    that leads to a healthy workspace, and that every install ends with the
    workspace out of [init], run against the in-memory repository with other
    clients interleaving. *)

From S2P Require Import Prelude GoString GoError GoValue WorkspaceTypes PluginTypes Proc WorkspaceWorld.
From S2P Require Import WorkspaceRepo WorkspaceRun Install.
From stdpp Require Import options.

(** ** Bodies and readers *)

Module InstallResources.
Import Install.

Definition opens_body (b : Body) (e : wevent) : bool :=
  match e with
  | Ev (StorageGet _ _) (Ok (b', _)) => bool_decide (b' = b)
  | _ => false
  end.
Definition closes_body (b : Body) (e : wevent) : bool :=
  match e with Ev (BodyClose b') _ => bool_decide (b' = b) | _ => false end.
Definition opens_reader (r : Reader) (e : wevent) : bool :=
  match e with
  | Ev (OpenZip _ _ _ _) (Ok r') => bool_decide (r' = r)
  | _ => false
  end.
Definition closes_reader (r : Reader) (e : wevent) : bool :=
  match e with Ev (ReaderClose r') _ => bool_decide (r' = r) | _ => false end.

(** Opened and not yet closed, over a trace. *)
Definition bodies_held (b : Body) (t : list wevent) : Z :=
  Z.of_nat (count_ev (opens_body b) t) - Z.of_nat (count_ev (closes_body b) t).
Definition readers_held (r : Reader) (t : list wevent) : Z :=
  Z.of_nat (count_ev (opens_reader r) t) - Z.of_nat (count_ev (closes_reader r) t).

(** How often a reader occurs among opened plugins. *)
Definition occurs (r : Reader) (l : list (AttachedPlugin * Reader)) : Z :=
  Z.of_nat (length (filter (λ x, x.2 = r) l)).

Lemma occurs_nil r : occurs r [] = 0%Z.
Proof. done. Qed.
Lemma occurs_cons r a r' l : occurs r ((a, r') :: l) = ((if bool_decide (r' = r) then 1 else 0) + occurs r l)%Z.
Proof.
  unfold occurs. rewrite filter_cons. simpl. case_decide; case_bool_decide; try done. simpl. lia.
Qed.
Lemma occurs_snoc r a r' l : occurs r (l ++ [(a, r')]) = ((if bool_decide (r' = r) then 1 else 0) + occurs r l)%Z.
Proof.
  unfold occurs. rewrite filter_app, length_app, filter_cons, filter_nil. simpl.
  case_decide; case_bool_decide; try done; simpl; lia.
Qed.

(** A trace that leaves no body open and [n] more readers open. *)
Definition leaves (b : Body) (r : Reader) (n : Z) (t : list wevent) : Prop :=
  bodies_held b t = 0%Z ∧ readers_held r t = n.

Ltac counts := unfold leaves, bodies_held, readers_held in *;
  repeat first [rewrite count_ev_cons in * | rewrite count_ev_app in * | rewrite count_ev_nil in *];
  simpl in *.

Lemma leaves_app b r n1 n2 t1 t2 : leaves b r n1 t1 → leaves b r n2 t2 → leaves b r (n1 + n2) (t1 ++ t2).
Proof. counts. lia. Qed.

Lemma closeReaders_leaves b r opened t u :
  traces (closeReaders opened) t u → leaves b r (- occurs r opened) t.
Proof.
  revert t. induction opened as [|[a r'] opened IH]; intros t Ht; cbn [closeReaders] in Ht.
  - trace_step Ht. done.
  - trace_step Ht. apply IH in Ht. rewrite occurs_cons. counts. case_bool_decide; lia.
Qed.

Lemma open_plugins_leaves b r maxSize c plugins opened t res :
  traces (open_plugins maxSize c plugins opened) t res →
  leaves b r (match res with Ok opened' => occurs r opened' | Err _ => 0 end - occurs r opened) t.
Proof.
  revert opened t. induction plugins as [|ref plugins IH]; intros opened t Ht; cbn [open_plugins] in Ht.
  { trace_step Ht. rewrite Z.sub_diag. done. }
  trace_step Ht. destruct x as [[body obj]|err].
  - case_decide.
    + do 3 trace_step Ht. apply (closeReaders_leaves b r) in Hsub. counts. case_bool_decide; lia.
    + do 2 trace_step Ht. destruct x as [rd|oe], x0 as [[]|ce].
      * apply IH in Ht. rewrite occurs_snoc in Ht. counts.
        repeat case_bool_decide; destruct res; lia.
      * do 3 trace_step Ht. apply (closeReaders_leaves b r) in Hsub. counts.
        repeat case_bool_decide; lia.
      * do 2 trace_step Ht. apply (closeReaders_leaves b r) in Hsub. counts.
        repeat case_bool_decide; lia.
      * do 2 trace_step Ht. apply (closeReaders_leaves b r) in Hsub. counts.
        repeat case_bool_decide; lia.
  - do 2 trace_step Ht. apply (closeReaders_leaves b r) in Hsub. counts. lia.
Qed.

Lemma check_keys_leaves b r t0 todo seen t res :
  traces (check_keys t0 todo seen) t res → leaves b r 0 t.
Proof.
  revert seen t. induction todo as [|[a r'] todo IH]; intros seen t Ht; cbn [check_keys] in Ht.
  { by trace_step Ht. }
  do 2 trace_step Ht. destruct x0 as [dir|e]; [|trace_step Ht; by counts].
  case_decide; [apply IH in Ht; by counts|].
  case_decide; [trace_step Ht; by counts|apply IH in Ht; by counts].
Qed.

Lemma apply_plugins_leaves b r c t0 ops todo attached t res :
  traces (apply_plugins c t0 ops todo attached) t res → leaves b r (- occurs r todo) t.
Proof.
  revert attached t. induction todo as [|[a r'] todo IH]; intros attached t Ht; cbn [apply_plugins] in Ht.
  { by trace_step Ht. }
  do 3 trace_step Ht. rewrite occurs_cons.
  destruct x0 as [paths|ae], x1 as [[]|ce].
  - apply IH in Ht. counts. case_bool_decide; lia.
  - do 2 trace_step Ht. apply (closeReaders_leaves b r) in Hsub. counts. case_bool_decide; lia.
  - do 2 trace_step Ht. apply (closeReaders_leaves b r) in Hsub. counts. case_bool_decide; lia.
  - do 2 trace_step Ht. apply (closeReaders_leaves b r) in Hsub. counts. case_bool_decide; lia.
Qed.

(** C31. [attachPlugins] leaks nothing and closes nothing twice: whatever the
    storage, the archive opener and the layout answer, and whichever of its branches
    it takes, every body it fetched and every reader it opened is closed exactly as
    often as it was obtained when it returns. *)
Theorem attach_closes_everything (maxSize : Z) (c : ctx) (ops : Ops) (t0 : AgentType)
    (plugins : list AttachedPlugin) (t : list wevent) (res : result (list AttachedPlugin))
    (b : Body) (r : Reader) :
  traces (attachPlugins maxSize c ops t0 plugins) t res →
  count_ev (closes_body b) t = count_ev (opens_body b) t ∧
  count_ev (closes_reader r) t = count_ev (opens_reader r) t.
Proof.
  intros Ht. assert (leaves b r 0 t) as Hl; [|counts; lia].
  unfold attachPlugins in Ht. case_decide; [by trace_step Ht|].
  trace_step Ht. apply (open_plugins_leaves b r) in Hsub. rewrite occurs_nil in Hsub. destruct a as [opened|e].
  - trace_step Ht. trace_step Ht.
    assert (leaves b r 0 t2) as Hk.
    { destruct x; [by eapply check_keys_leaves|by trace_step Hsub0]. }
    destruct a as [[]|e].
    + apply (apply_plugins_leaves b r) in Ht. counts. lia.
    + do 2 trace_step Ht. apply (closeReaders_leaves b r) in Hsub1. counts. lia.
  - trace_step Ht. counts. lia.
Qed.
(** One plugin, stored with the hash the workspace expects, whose layout fails. *)
Definition failing_layout : ∀ X, wcall X → X := λ X e,
  match e in wcall X return X with
  | StorageGet _ _ => Ok (3, {| so_Size := 2; so_ContentHash := "sha256:00" |})
  | OpenZip _ _ _ _ => Ok 7
  | LayoutApply _ _ _ _ _ => Err Canceled
  | e => all_good _ e
  end.

Definition sample_plugins : list AttachedPlugin :=
  [{| ap_PluginID := "plg_1"; ap_Name := "git"; ap_ContentHash := "sha256:00"; ap_PlacedPaths := [] |};
   {| ap_PluginID := "plg_2"; ap_Name := "lint"; ap_ContentHash := "sha256:00"; ap_PlacedPaths := [] |}].

Definition attach_run : list wevent :=
  (run (tracer failing_layout) (attachPlugins 100 (CtxParent 0) 1 "claude-code" sample_plugins) []).2.

Lemma attach_closes_everything_witness :
  count_ev (opens_reader 7) attach_run = 2 ∧
  count_ev (closes_body 3) attach_run = count_ev (opens_body 3) attach_run ∧
  count_ev (closes_reader 7) attach_run = count_ev (opens_reader 7) attach_run.
Proof.
  split; [reflexivity|].
  apply (attach_closes_everything 100 (CtxParent 0) 1 "claude-code" sample_plugins attach_run (Err Canceled)).
  apply (run_tracer failing_layout). vm_compute. reflexivity.
Defined.
End InstallResources.

(** ** Every install ends *)

Module InstallTerminal.
Import Install WorkspaceRun.
Import WorkspaceRepository WorkspaceInvariant WorkspaceRepoSpec.

Section terminal.
Variable id : WorkspaceID.

Lemma settles_cas_from_init nx e t c :
  nx = StatusHealthy ∨ nx = StatusFailed → settles id (cas_from_init id nx e t c).
Proof. intros Hnx. apply settles_first, settles_cas. left. by split_and!. Qed.

Lemma settles_retry c fn : settles id (fn c) → settles id (retryRepoWrite c fn).
Proof. intros Hfn. by apply settles_first. Qed.

Lemma settles_failed c e t : settles id (transitionToFailed c id e t).
Proof. apply settles_first, settles_retry, settles_cas_from_init. by right. Qed.

Lemma settles_fail_install pc ic err : settles id (fail_install pc ic id err).
Proof. apply settles_then. intros e. apply settles_failed. Qed.

Lemma settles_fail_unknown pc sentinel t : settles id (fail_unknown pc id sentinel t).
Proof. apply settles_then. intros now. apply settles_failed. Qed.

Lemma settles_finalize pc ic ops att t : settles id (finalize pc ic id ops att t).
Proof.
  intros r a r' Hr (got & r1 & Hget & Hrest)%execs_bind.
  pose proof (execs_inv _ _ _ _ _ Hr Hget) as Hr1. destruct got as [latest|err].
  - case_decide as Hst.
    + pose proof (get_settled _ _ _ _ _ Hr Hget Hst) as Hs. by eapply settled_execs.
    + apply get_row in Hget as Hid; [|done]. revert a r' Hrest. generalize r1, Hr1.
      intros r2 Hr2 a r'. revert r2 a r' Hr2. change (settles id (
        now ← call Now;
        let latest := set_plugins latest att now in
        upd ← retryRepoWrite pc (λ c, call (RepoUpdate c latest));
        match upd with
        | Err err =>
          now ← call Now;
          transitionToFailed pc id
            (failureFromError now "install" (Some (Errorf_w "persist attached plugins: " err ""))) 0
        | Ok _ =>
          st ← retryRepoWrite pc (cas_from_init (w_ID latest) StatusHealthy None t);
          match st with
          | Err err =>
            now ← call Now;
            transitionToFailed pc id
              (failureFromError now "status" (Some (Errorf_w "mark healthy after install: " err ""))) 0
          | Ok _ => mret ()
          end
        end)).
      apply settles_then. intros now. apply settles_then. intros [[]|err].
      * apply settles_first, settles_retry. simpl w_ID. rewrite Hid.
        apply settles_cas_from_init. by left.
      * apply settles_then. intros now'. apply settles_failed.
  - revert Hrest. apply (settles_then id (call Now)); [|done]. intros now. apply settles_failed.
Qed.

Lemma settles_confirm cfg pc ic t ops att : settles id (confirm_probe cfg pc ic id t ops att).
Proof.
  apply settles_then. intros [result [err|]]; apply settles_then; intros probedAt.
  - apply settles_then. intros e. apply settles_then. intros _. apply settles_failed.
  - apply settles_then. intros _. destruct (pr_Healthy result); [apply settles_finalize|].
    apply settles_then. intros now. apply settles_failed.
Qed.

Lemma settles_steps cfg pc ic job :
  w_ID (job_workspace job) = id → settles id (install_steps cfg pc ic job).
Proof.
  intros Hid. unfold install_steps. cbn zeta. rewrite Hid.
  apply settles_then. intros [|]; [|apply settles_fail_unknown]. cbn [negb].
  apply settles_then. intros [ops|e]; [|apply settles_fail_install].
  apply settles_then. intros [[]|e]; [|apply settles_fail_install].
  apply settles_then. intros [|]; [|apply settles_fail_unknown]. cbn [negb].
  apply settles_then. intros [att|e]; [|apply settles_fail_install].
  apply settles_then. intros [[]|e]; [|apply settles_fail_install].
  apply settles_confirm.
Qed.

Lemma settles_install cfg job parent :
  w_ID (job_workspace job) = id → settles id (runInstall cfg job parent).
Proof.
  intros Hid. apply settles_deferred, settles_then. intros [e|].
  - apply settles_then. intros now. rewrite Hid. apply settles_failed.
  - by apply settles_deferred, settles_steps.
Qed.
End terminal.

(** An install of [job] can take the repository from [r] to [r'], with other clients'
    operations in between. *)
Definition installs (cfg : config) (job : installJob) (parent : ctx) (r r' : repo) : Prop :=
  execs (with_repo (quiet (w_ID (job_workspace job)))) (runInstall cfg job parent) r () r'.

(** C1. Every install ends: run against the in-memory repository, whatever the
    other collaborators answer and whatever other clients of the repository do in
    between (short of inserting the id anew), an install can return, and when it
    does the workspace is out of [init] for good, deleted, or the repository closed. *)
Theorem install_ends_terminal (cfg : config) (job : installJob) (parent : ctx) (r : repo) :
  reachable r →
  (∃ r', installs cfg job parent r r') ∧
  ∀ r', installs cfg job parent r r' → settled (w_ID (job_workspace job)) r'.
Proof.
  intros Hr%reachable_repo_inv. split.
  - destruct (run (repo_handler 0 all_good) (runInstall cfg job parent) r) as [[] r'] eqn:Hrun.
    exists r'. by eapply repo_handler_sound.
  - intros r'. by apply (settles_install _ cfg job parent eq_refl r () r').
Qed.

Definition sample_config : config :=
  {| installTimeout := 10 * minute; maxPluginSize := 2 ^ 28; probeTimeout := 5 * second |}.

Definition sample_job : installJob := {|
  job_workspace := sample_row "wsp_1" "default" "alpha" StatusInit;
  job_params := {| ip_Workspace := {| ws_ID := "wsp_1"; ws_Namespace := "default"; ws_Alias := "alpha";
                      ws_AgentType := "claude-code"; ws_InfraType := "localdir"; ws_Plugins := [] |};
                   ip_UserParams := None |} |}.

Lemma install_ends_terminal_witness :
  let final := (run (repo_handler 9 all_good) (runInstall sample_config sample_job (CtxParent 0)) sample_repo).2 in
  settled "wsp_1" final ∧ (w_Status <$> byID final !! "wsp_1") = Some StatusHealthy.
Proof.
  split; [|vm_compute; reflexivity].
  apply (install_ends_terminal sample_config sample_job (CtxParent 0) sample_repo sample_reachable).
  apply (repo_handler_sound 9 all_good). vm_compute. reflexivity.
Defined.
End InstallTerminal.

(** ** The order of effects *)

Module InstallOrder.
Import Install.
Import WorkspaceRepoSpec.

Definition is_healthy_cas (e : wevent) : bool :=
  match e with
  | Ev (RepoUpdateStatusCAS _ _ _ _ nx _ _) _ => bool_decide (nx = StatusHealthy)
  | _ => false
  end.

(** *** Retries *)

Lemma retry_loop_ok c fn delays err t :
  traces (retry_loop c fn delays err) t (Ok ()) → ∃ t1 t2, t = t1 ++ t2 ∧ traces (fn c) t2 (Ok ()).
Proof.
  revert err t. induction delays as [|d delays IH]; intros err t Ht; cbn [retry_loop] in Ht.
  { by apply traces_mret in Ht as [_ ?]. }
  apply traces_call_bind in Ht as ([e|] & t' & -> & Ht); [by apply traces_mret in Ht as [_ ?]|].
  apply traces_bind in Ht as (ta & tb & [[]|e] & -> & Ha & Ht).
  - apply traces_mret in Ht as [-> _]. exists [Ev (WaitDelay c d) None], ta. by rewrite app_nil_r.
  - destruct (IH e tb Ht) as (t1 & t2 & -> & H2).
    exists (Ev (WaitDelay c d) None :: ta ++ t1), t2. by rewrite <-app_comm_cons, <-app_assoc.
Qed.

(** A retried write that succeeds ends with a successful attempt. *)
Lemma retry_ok c fn t :
  traces (retryRepoWrite c fn) t (Ok ()) → ∃ t1 t2, t = t1 ++ t2 ∧ traces (fn c) t2 (Ok ()).
Proof.
  intros (ta & tb & [[]|e] & -> & Ha & Ht)%traces_bind.
  - apply traces_mret in Ht as [-> _]. exists [], ta. by rewrite app_nil_r.
  - destruct (retry_loop_ok _ _ _ _ _ Ht) as (t1 & t2 & -> & H2).
    exists (ta ++ t1), t2. by rewrite <-app_assoc.
Qed.

Lemma retry_never f c fn :
  (∀ d x, f (Ev (WaitDelay c d) x) = false) → never f (fn c) → never f (retryRepoWrite c fn).
Proof.
  intros Hw Hfn. apply never_bind; [done|]. intros [[]|e]; [exact I|].
  generalize repoRetryBackoff. intros delays. revert e.
  induction delays as [|d delays IH]; intros e; [exact I|]. apply never_call_bind; [apply Hw|].
  intros [e'|]; [exact I|]. apply never_bind; [done|]. intros [[]|e']; [exact I|apply IH].
Qed.

Section never.
Set Default Proof Using "Type*".
Variable f : wevent → bool.
Hypothesis f_wait : ∀ c d x, f (Ev (WaitDelay c d) x) = false.
Hypothesis f_now : ∀ x, f (Ev Now x) = false.
Hypothesis f_err : ∀ c x, f (Ev (CtxErr c) x) = false.
Hypothesis f_cancel : ∀ c x, f (Ev (CancelCtx c) x) = false.
Hypothesis f_failed : ∀ c id wr ex e t x, f (Ev (RepoUpdateStatusCAS c id wr ex StatusFailed e t) x) = false.

Lemma failed_never c id e t : never f (transitionToFailed c id e t).
Proof.
  apply never_bind; [|done]. apply retry_never; [done|]. apply never_call_bind; [done|]. by intros x.
Qed.

Lemma classify_never c ph err : never f (classifyFailure c ph err).
Proof.
  unfold classifyFailure. apply never_call_bind; [done|]. intros e1.
  destruct (is_err e1 DeadlineExceeded || errors_Is err DeadlineExceeded); [by apply never_call_bind|].
  apply never_call_bind; [done|]. intros e2.
  destruct (is_err e2 Canceled || errors_Is err Canceled); by apply never_call_bind.
Qed.

Lemma fail_install_never pc ic id err : never f (fail_install pc ic id err).
Proof. apply never_bind; [apply classify_never|]. intros e. apply failed_never. Qed.

Lemma fail_unknown_never pc id sn t : never f (fail_unknown pc id sn t).
Proof. apply never_call_bind; [done|]. intros now. apply failed_never. Qed.
End never.

(** No step of attaching plugins writes to the repository. *)
Definition is_repo_write (e : wevent) : bool :=
  match e with
  | Ev (RepoUpdateStatusCAS _ _ _ _ _ _ _) _ | Ev (RepoUpdate _ _) _ | Ev (RepoDelete _ _) _ => true
  | _ => false
  end.

Lemma closeReaders_never opened : never is_repo_write (closeReaders opened).
Proof. induction opened as [|[a r] opened IH]; [done|]. by apply never_call_bind. Qed.
#[local] Hint Resolve closeReaders_never : ana.

Lemma open_plugins_never maxSize c plugins opened : never is_repo_write (open_plugins maxSize c plugins opened).
Proof.
  revert opened. induction plugins as [|ref plugins IH]; intros opened; [done|].
  cbn [open_plugins]. never_go.
Qed.

Lemma check_keys_never t todo seen : never is_repo_write (check_keys t todo seen).
Proof.
  revert seen. induction todo as [|[a r] todo IH]; intros seen; [done|]. cbn [check_keys]. never_go.
Qed.

Lemma apply_plugins_never c t ops todo att : never is_repo_write (apply_plugins c t ops todo att).
Proof.
  revert att. induction todo as [|[a r] todo IH]; intros att; [done|]. cbn [apply_plugins]. never_go.
Qed.
#[local] Hint Resolve open_plugins_never check_keys_never apply_plugins_never : ana.

Lemma attach_never maxSize c ops t plugins : never is_repo_write (attachPlugins maxSize c ops t plugins).
Proof. unfold attachPlugins. never_go. Qed.

Lemma retry_always (P : wevent → Prop) c fn :
  (∀ d x, P (Ev (WaitDelay c d) x)) → always P (fn c) → always P (retryRepoWrite c fn).
Proof.
  intros Hw Hfn. apply always_bind; [done|]. intros [[]|e]; [exact I|].
  generalize repoRetryBackoff. intros delays. revert e.
  induction delays as [|d delays IH]; intros e; [exact I|]. apply always_call_bind; [apply Hw|].
  intros [e'|]; [exact I|]. apply always_bind; [done|]. intros [[]|e']; [exact I|apply IH].
Qed.

Lemma healthy_retry pc id pt t res e :
  traces (retryRepoWrite pc (cas_from_init id StatusHealthy None pt)) t res →
  e ∈ t → is_healthy_cas e = true →
  ∃ x, e = Ev (RepoUpdateStatusCAS pc id StatusWriterController StatusInit StatusHealthy None pt) x.
Proof.
  intros Ht. set (P := λ e, is_healthy_cas e = true → ∃ x, e =
    Ev (RepoUpdateStatusCAS pc id StatusWriterController StatusInit StatusHealthy None pt) x).
  assert (Forall P t) as HP; [|rewrite Forall_forall in HP; apply HP].
  eapply always_Forall; [|exact Ht]. apply retry_always; [done|].
  apply always_call_bind; [|done]. intros x _. by exists x.
Qed.

Ltac no_healthy H Hin Hh :=
  exfalso; refine (never_notin is_healthy_cas _ _ _ _ _ H Hh Hin).

Lemma healthy_finalize pc ic id ops att pt t u e :
  traces (finalize pc ic id ops att pt) t u → e ∈ t → is_healthy_cas e = true →
  ∃ latest now x, w_Status latest = StatusInit ∧
    e = Ev (RepoUpdateStatusCAS pc (w_ID latest) StatusWriterController StatusInit StatusHealthy None pt) x ∧
    [Ev (RepoGet pc id) (Ok latest); Ev (RepoUpdate pc (set_plugins latest att now)) (Ok ()); e]
      `sublist_of` t.
Proof.
  unfold finalize. intros (got & t1 & -> & Ht)%traces_call_bind Hin Hh.
  apply elem_of_cons in Hin as [->|Hin]; [done|]. destruct got as [latest|err].
  - destruct (decide (w_Status latest ≠ StatusInit)) as [Hst|Hst].
    { exfalso. revert Hin. eapply (never_notin is_healthy_cas); [|exact Ht|done].
      destruct (_ && _); [done|]. by apply never_call_bind. }
    apply dec_stable in Hst.
    apply traces_call_bind in Ht as (now & t2 & -> & Ht).
    apply elem_of_cons in Hin as [->|Hin]; [done|]. cbn zeta in Ht.
    apply traces_bind in Ht as (t3 & t4 & upd & -> & Hupd & Ht).
    apply elem_of_app in Hin as [Hin|Hin].
    { exfalso. revert Hin. eapply (never_notin is_healthy_cas); [|exact Hupd|done].
      apply retry_never; [done|]. by intros x. }
    destruct upd as [[]|err].
    + apply retry_ok in Hupd as (t5 & t6 & -> & Hupd). apply traces_call in Hupd as ->.
      apply traces_bind in Ht as (t7 & t8 & st & -> & Hst' & Ht).
      apply elem_of_app in Hin as [Hin|Hin].
      * destruct (healthy_retry _ _ _ _ _ _ Hst' Hin Hh) as [x ->]. exists latest, now, x.
        split_and!; [done|done|]. apply sublist_skip, sublist_cons.
        rewrite <-app_assoc. apply sublist_inserts_l. simpl. apply sublist_skip.
        apply sublist_inserts_r. by apply singleton_sublist_l.
      * exfalso. revert Hin. eapply (never_notin is_healthy_cas); [|exact Ht|done].
        destruct st as [[]|err]; [done|]. apply never_call_bind; [done|]. intros now'.
        by apply failed_never.
    + exfalso. revert Hin. eapply (never_notin is_healthy_cas); [|exact Ht|done].
      apply never_call_bind; [done|]. intros now'. by apply failed_never.
  - exfalso. revert Hin. eapply (never_notin is_healthy_cas); [|exact Ht|done].
    apply never_call_bind; [done|]. intros now. by apply failed_never.
Qed.

Ltac excluded H := exfalso; match goal with Hin : _ ∈ _, Hh : is_healthy_cas _ = true |- _ =>
  revert Hin; eapply (never_notin is_healthy_cas); [|exact H|exact Hh] end.

Lemma healthy_confirm cfg pc ic id at_ ops att t u e :
  traces (confirm_probe cfg pc ic id at_ ops att) t u → e ∈ t → is_healthy_cas e = true →
  ∃ res latest now pt x, pr_Healthy res = true ∧ w_Status latest = StatusInit ∧
    e = Ev (RepoUpdateStatusCAS pc (w_ID latest) StatusWriterController StatusInit StatusHealthy None pt) x ∧
    [Ev (SpecProbe (CtxTimeout ic (probeTimeout cfg)) at_ ops) (res, None);
     Ev (RepoGet pc id) (Ok latest); Ev (RepoUpdate pc (set_plugins latest att now)) (Ok ()); e]
      `sublist_of` t.
Proof.
  unfold confirm_probe. cbn zeta. intros ([res err] & t1 & -> & Ht)%traces_call_bind Hin Hh.
  apply elem_of_cons in Hin as [->|Hin]; [done|].
  apply traces_call_bind in Ht as (pt & t2 & -> & Ht).
  apply elem_of_cons in Hin as [->|Hin]; [done|]. destruct err as [err|].
  { excluded Ht. apply never_bind; [by apply classify_never|]. intros f.
    apply never_call_bind; [done|]. intros _. by apply failed_never. }
  apply traces_call_bind in Ht as (n & t3 & -> & Ht).
  apply elem_of_cons in Hin as [->|Hin]; [done|].
  destruct (pr_Healthy res) eqn:Hres.
  - destruct (healthy_finalize _ _ _ _ _ _ _ _ _ Ht Hin Hh) as (latest & now & x & Hst & -> & Hsub).
    exists res, latest, now, pt, x. split_and!; [done..|].
    by apply sublist_skip, sublist_cons, sublist_cons.
  - excluded Ht. apply never_call_bind; [done|]. intros now. by apply failed_never.
Qed.

Lemma write_not_healthy {A} (p : wproc A) : never is_repo_write p → never is_healthy_cas p.
Proof.
  induction p as [|X e k IH]; [done|]. intros Hn x. destruct (Hn x) as [Hf Hk].
  split; [|by apply IH]. by destruct e.
Qed.

(** The outcomes an install needs, in this order, before it marks the workspace
    healthy with the event [cas]. *)
Definition success_path (cfg : config) (ic pc : ctx) (job : installJob) (ops : Ops)
    (res : ProbeResult) (latest : Workspace) (att : list AttachedPlugin) (now : Time)
    (cas : wevent) : list wevent :=
  let w := job_workspace job in
  [Ev (FactoryBuild ic (w_InfraType w) (w_InfraOptions w)) (Ok ops);
   Ev (OpsInit ic ops) (Ok ());
   Ev (SpecInstall ic (w_AgentType w) ops (job_params job)) (Ok ());
   Ev (SpecProbe (CtxTimeout ic (probeTimeout cfg)) (w_AgentType w) ops) (res, None);
   Ev (RepoGet pc (w_ID w)) (Ok latest);
   Ev (RepoUpdate pc (set_plugins latest att now)) (Ok ());
   cas].

Lemma healthy_steps cfg pc ic job t u e :
  traces (install_steps cfg pc ic job) t u → e ∈ t → is_healthy_cas e = true →
  ∃ ops res latest att now pt x, pr_Healthy res = true ∧ w_Status latest = StatusInit ∧
    e = Ev (RepoUpdateStatusCAS pc (w_ID latest) StatusWriterController StatusInit StatusHealthy None pt) x ∧
    success_path cfg ic pc job ops res latest att now e `sublist_of` t ∧
    ∃ t1, traces (attachPlugins (maxPluginSize cfg) ic ops (w_AgentType (job_workspace job))
                    (w_Plugins (job_workspace job))) t1 (Ok att).
Proof.
  unfold install_steps. cbn zeta. intros (known & t1 & -> & Ht)%traces_call_bind Hin Hh.
  apply elem_of_cons in Hin as [->|Hin]; [done|].
  destruct known; cbn [negb] in Ht; [|excluded Ht; by apply fail_unknown_never].
  apply traces_call_bind in Ht as ([ops|err] & t2 & -> & Ht);
    (apply elem_of_cons in Hin as [->|Hin]; [done|]); [|excluded Ht; by apply fail_install_never].
  apply traces_call_bind in Ht as ([[]|err] & t3 & -> & Ht);
    (apply elem_of_cons in Hin as [->|Hin]; [done|]); [|excluded Ht; by apply fail_install_never].
  apply traces_call_bind in Ht as (known & t4 & -> & Ht).
  apply elem_of_cons in Hin as [->|Hin]; [done|].
  destruct known; cbn [negb] in Ht; [|excluded Ht; by apply fail_unknown_never].
  apply traces_bind in Ht as (t5 & t6 & [att|err] & -> & Hatt & Ht);
    (apply elem_of_app in Hin as [Hin|Hin]; [excluded Hatt; apply write_not_healthy, attach_never|]);
    [|excluded Ht; by apply fail_install_never].
  apply traces_call_bind in Ht as ([[]|err] & t7 & -> & Ht);
    (apply elem_of_cons in Hin as [->|Hin]; [done|]); [|excluded Ht; by apply fail_install_never].
  destruct (healthy_confirm _ _ _ _ _ _ _ _ _ _ Ht Hin Hh)
    as (res & latest & now & pt & x & Hres & Hst & -> & Hsub).
  exists ops, res, latest, att, now, pt, x. split_and!; [done..| |by exists t5].
  by apply sublist_cons, sublist_skip, sublist_skip, sublist_cons, sublist_inserts_l, sublist_skip.
Qed.

(** C2. A workspace becomes healthy only through a complete install: whenever an
    install asks the repository for [healthy], that request is the controller's
    compare-and-swap from [init] on the row just read in [init], and before it, in
    this order, the ops were built, initialised, the agent installed and probed
    healthy, and the row's update with the plugins that [attachPlugins] returned
    was accepted. *)
Theorem healthy_only_after_success (cfg : config) (job : installJob) (parent : ctx)
    (t : list wevent) (e : wevent) :
  traces (runInstall cfg job parent) t () → e ∈ t → is_healthy_cas e = true →
  let pc := newRepoWriteContext parent in
  let ic := CtxTimeout parent (installTimeout cfg) in
  ∃ ops res latest att now pt x, pr_Healthy res = true ∧ w_Status latest = StatusInit ∧
    e = Ev (RepoUpdateStatusCAS pc (w_ID latest) StatusWriterController StatusInit StatusHealthy None pt) x ∧
    success_path cfg ic pc job ops res latest att now e `sublist_of` t ∧
    ∃ t1, traces (attachPlugins (maxPluginSize cfg) ic ops (w_AgentType (job_workspace job))
                    (w_Plugins (job_workspace job))) t1 (Ok att).
Proof.
  unfold runInstall, deferred. cbn zeta. intros (t1 & t2 & [] & -> & Ht & Hd)%traces_bind Hin Hh.
  apply elem_of_app in Hin as [Hin|Hin]; [|excluded Hd; by apply never_call_bind].
  apply traces_call_bind in Ht as (perr & t3 & -> & Ht).
  apply elem_of_cons in Hin as [->|Hin]; [done|]. destruct perr as [perr|].
  { excluded Ht. apply never_call_bind; [done|]. intros now. by apply failed_never. }
  apply traces_bind in Ht as (t4 & t5 & [] & -> & Ht & Hd').
  apply elem_of_app in Hin as [Hin|Hin]; [|excluded Hd'; by apply never_call_bind].
  destruct (healthy_steps _ _ _ _ _ _ _ Ht Hin Hh)
    as (ops & res & latest & att & now & pt & x & ? & ? & ? & Hsub & ?).
  exists ops, res, latest, att, now, pt, x. split_and!; [done..| |done].
  rewrite <-app_comm_cons. by apply sublist_cons, sublist_inserts_r, sublist_inserts_r.
Qed.
(** A world in which everything succeeds and the row is found in [init]. *)
Definition good_world : ∀ X, wcall X → X := λ X e,
  match e in wcall X return X with
  | RepoGet _ id => Ok (sample_row id "default" "alpha" StatusInit)
  | e => all_good _ e
  end.

Definition good_run : list wevent :=
  (run (tracer good_world)
     (runInstall InstallTerminal.sample_config InstallTerminal.sample_job (CtxParent 0)) []).2.

Lemma healthy_only_after_success_witness :
  ∃ e, e ∈ good_run ∧ is_healthy_cas e = true ∧
  ∃ ops res latest att now, success_path InstallTerminal.sample_config
     (CtxTimeout (CtxParent 0) (10 * minute)) (newRepoWriteContext (CtxParent 0))
     InstallTerminal.sample_job ops res latest att now e `sublist_of` good_run.
Proof.
  pose (e := Ev (RepoUpdateStatusCAS (newRepoWriteContext (CtxParent 0)) "wsp_1" StatusWriterController
               StatusInit StatusHealthy None 0) (Ok ()) : wevent).
  assert (e ∈ good_run) as Hin by (vm_compute; repeat constructor).
  exists e. split; [exact Hin|]. split; [reflexivity|].
  destruct (healthy_only_after_success InstallTerminal.sample_config InstallTerminal.sample_job
    (CtxParent 0) good_run e) as (ops & res & latest & att & now & pt & x & _ & _ & _ & Hsub & _);
    [|exact Hin|reflexivity|by exists ops, res, latest, att, now].
  apply (run_tracer good_world). vm_compute. reflexivity.
Defined.

(** *** How often a write is attempted *)

Definition is_wait (e : wevent) : bool := match e with Ev (WaitDelay _ _) _ => true | _ => false end.

Definition attempts (t : list wevent) : nat := count_ev (λ e, negb (is_wait e)) t.

(** A repository write that was answered without error. *)
Definition write_ok (e : wevent) : bool :=
  match e with
  | Ev (RepoUpdate _ _) (Ok _) | Ev (RepoUpdateStatusCAS _ _ _ _ _ _ _) (Ok _)
  | Ev (RepoDelete _ _) (Ok _) => true
  | _ => false
  end.

(** The calls [retryRepoWrite] is given in the source. *)
Definition is_write (w : wcall (result unit)) : Prop :=
  (∃ c row, w = RepoUpdate c row) ∨ ∃ c id wr ex nx e t, w = RepoUpdateStatusCAS c id wr ex nx e t.

Lemma is_write_ok w x : is_write w → write_ok (Ev w x) = is_ok x ∧ is_wait (Ev w x) = false.
Proof. by intros [(? & ? & ->)|(? & ? & ? & ? & ? & ? & ? & ->)]; destruct x. Qed.

(** What a retry loop with [n] delays left can do. *)
Definition retried (c : ctx) (w : wcall (result unit)) (n : nat) (t : list wevent) (res : result unit) : Prop :=
  attempts t ≤ n ∧
  Forall (λ e, is_wait e = true ∨ ∃ x, e = Ev w x) t ∧
  (res = Ok () ↔ Exists (λ e, write_ok e = true) t) ∧
  (∀ e, res = Err e → attempts t = n ∨ ∃ d, Ev (WaitDelay c d) (Some e) ∈ t).

Lemma retry_loop_retried c w delays err t res :
  is_write w → traces (retry_loop c (λ _, call w) delays err) t res → retried c w (length delays) t res.
Proof.
  intros Hw. revert err t. induction delays as [|d delays IH]; intros err t Ht; cbn [retry_loop] in Ht.
  { apply traces_mret in Ht as [-> ->]. split_and!; [done|done| |by left].
    by rewrite Exists_nil. }
  apply traces_call_bind in Ht as ([e|] & t1 & -> & Ht).
  { apply traces_mret in Ht as [-> ->]. split_and!; [vm_compute; lia|by repeat constructor| |].
    - rewrite Exists_cons, Exists_nil. by split; [|intros [|]].
    - intros e' [= <-]. right. exists d. by left. }
  apply traces_call_bind in Ht as (x & t2 & -> & Ht). destruct (is_write_ok w x Hw) as [Hok Hwait].
  assert (attempts (Ev (WaitDelay c d) None :: Ev w x :: t2) = S (attempts t2)) as Hatt.
  { unfold attempts. by rewrite !count_ev_cons, Hwait. }
  unfold retried. rewrite Hatt, !Exists_cons, Hok. destruct x as [[]|e].
  - apply traces_mret in Ht as [-> ->]. split_and!; [vm_compute; lia| | |done].
    + constructor; [by left|]. constructor; [right; by eexists|done].
    + split; [intros _; right; by left|done].
  - apply IH in Ht as (Hn & Hall & Hres & Herr). split_and!.
    + simpl. lia.
    + constructor; [by left|]. constructor; [right; by eexists|done].
    + rewrite Hres. split; [auto|]. by intros [?|[?|?]].
    + intros e' He. destruct (Herr e' He) as [->|[d' Hd]]; [by left|].
      right. exists d'. by do 2 right.
Qed.

(** Repository writes are retried a bounded number of times: the write the
    caller gave is attempted between one and three times with nothing else but the
    back-off delays in between; the result is nil exactly when some attempt
    succeeded; and an error is returned only after three attempts or when the
    context ended during a delay, then the context's error. *)
Theorem retry_write_bounded (c : ctx) (w : wcall (result unit)) (t : list wevent) (res : result unit) :
  is_write w → traces (retryRepoWrite c (λ _, call w)) t res →
  1 ≤ attempts t ≤ 3 ∧
  Forall (λ e, is_wait e = true ∨ ∃ x, e = Ev w x) t ∧
  (res = Ok () ↔ Exists (λ e, write_ok e = true) t) ∧
  (∀ e, res = Err e → attempts t = 3 ∨ ∃ d, Ev (WaitDelay c d) (Some e) ∈ t).
Proof.
  intros Hw (x & t1 & -> & Ht)%traces_call_bind. destruct (is_write_ok w x Hw) as [Hok Hwait].
  assert (attempts (Ev w x :: t1) = S (attempts t1)) as Hatt.
  { unfold attempts. by rewrite count_ev_cons, Hwait. }
  rewrite Hatt, Exists_cons, Hok. destruct x as [[]|e].
  - apply traces_mret in Ht as [-> ->]. split_and!; [vm_compute; lia|vm_compute; lia| | |done].
    + constructor; [right; by eexists|done].
    + split; [intros _; by left|done].
  - apply retry_loop_retried in Ht as (Hn & Hall & Hres & Herr); [|done]. simpl in Hn. split_and!.
    + lia.
    + lia.
    + constructor; [right; by eexists|done].
    + rewrite Hres. split; [auto|]. by intros [?|?].
    + intros e' He. destruct (Herr e' He) as [->|[d' Hd]]; [by left|]. right. exists d'. by right.
Qed.

(** A repository that always fails. *)
Definition failing_world : ∀ X, wcall X → X := λ X e,
  match e in wcall X return X with
  | RepoUpdate _ _ => Err Canceled
  | e => all_good _ e
  end.

Definition failing_write : wcall (result unit) :=
  RepoUpdate (CtxParent 0) (sample_row "wsp_1" "default" "alpha" StatusInit).
Definition failing_run : list wevent :=
  (run (tracer failing_world) (retryRepoWrite (CtxParent 0) (λ _, call failing_write)) []).2.

Lemma retry_write_bounded_witness :
  attempts failing_run = 3 ∧ ¬ Exists (λ e, write_ok e = true) failing_run.
Proof.
  split; [reflexivity|].
  assert (traces (retryRepoWrite (CtxParent 0) (λ _, call failing_write)) failing_run (Err Canceled))
    as Hrun by (apply (run_tracer failing_world); vm_compute; reflexivity).
  destruct (retry_write_bounded (CtxParent 0) failing_write failing_run (Err Canceled)
              ltac:(left; by do 2 eexists) Hrun) as (_ & _ & Hok & _).
  intros Hex. apply Hok in Hex. discriminate Hex.
Defined.
End InstallOrder.

(** ** Deletion *)

Module DeleteSpec.
Import Install WorkspaceRun.
Import WorkspaceRepository WorkspaceInvariant WorkspaceRepoSpec.

(** Calls that touch the workspace's infrastructure or its row. *)
Definition is_teardown (e : wevent) : bool :=
  match e with
  | Ev (FactoryBuild _ _ _) _ | Ev (OpsOpen _ _) _ | Ev (OpsClear _ _) _
  | Ev (SpecUninstall _ _ _) _ | Ev (RepoDelete _ _) _ => true
  | _ => false
  end.

(** The row was read. *)
Definition got_row (e : wevent) : bool := match e with Ev (RepoGet _ _) (Ok _) => true | _ => false end.

(** After the wait: the row's deletion comes last. *)
Lemma delete_rest_last c id t res :
  traces (got ← call (RepoGet c id);
    match got with
    | Err err => mret (Err err)
    | Ok row =>
      known ← call (FactoryGet (w_InfraType row));
      if negb known then call (RepoDelete c id) else
      built ← call (FactoryBuild c (w_InfraType row) (w_InfraOptions row));
      match built with
      | Err _ => call (RepoDelete c id)
      | Ok ops =>
        spec ← call (SpecGet (w_AgentType row));
        opened ← call (OpsOpen c ops);
        _ ← match opened with
            | Err _ => mret ()
            | Ok _ => if (spec : bool) then
                        _ ← call (SpecUninstall c (w_AgentType row) ops); mret ()
                      else mret ()
            end;
        _ ← call (OpsClear c ops);
        call (RepoDelete c id)
      end
    end) t res →
  (∃ e, e ∈ t ∧ got_row e = true) → last t = Some (Ev (RepoDelete c id) res).
Proof.
  intros (got & t1 & -> & Ht)%traces_call_bind. destruct got as [row|err].
  - intros _. apply traces_call_bind in Ht as (known & t2 & -> & Ht).
    destruct known; cbn [negb] in Ht; [|by apply traces_call in Ht as ->].
    apply traces_call_bind in Ht as ([ops|err] & t3 & -> & Ht); [|by apply traces_call in Ht as ->].
    do 2 apply traces_call_bind in Ht as (? & ? & -> & Ht).
    apply traces_bind in Ht as (t4 & t5 & [] & -> & _ & Ht).
    apply traces_call_bind in Ht as (? & ? & -> & Ht). apply traces_call in Ht as ->.
    rewrite !last_cons, last_app. done.
  - apply traces_mret in Ht as [-> ->]. by intros (e & ->%list_elem_of_singleton & He).
Qed.

(** [Delete] is best effort on the infrastructure and strict on the order:
    whatever the factory, the agent spec and the ops answer, once the row was read
    its last call is the repository's [Delete] of that id, whose answer it returns;
    and nothing of the workspace is touched before the wait for running installs
    returned without error. *)
Theorem delete_best_effort (c : ctx) (id : WorkspaceID) (t : list wevent) (res : result unit) :
  traces (Install.Delete c id) t res →
  ((∃ e, e ∈ t ∧ got_row e = true) → last t = Some (Ev (RepoDelete c id) res)) ∧
  (∀ e, e ∈ t → is_teardown e = true → [Ev (CtlWaitIdle c id) (Ok ()); e] `sublist_of` t).
Proof.
  unfold Install.Delete. intros (stop & t1 & -> & Ht)%traces_call_bind. destruct stop.
  { apply traces_mret in Ht as [-> ->].
    split; [by intros (e & ->%list_elem_of_singleton & He)|by intros e ->%list_elem_of_singleton]. }
  apply traces_call_bind in Ht as (fn & t2 & -> & Ht).
  apply traces_bind in Ht as (t3 & t4 & [] & -> & Hc & Ht).
  apply traces_call_bind in Ht as (idle & t5 & -> & Ht).
  assert (∀ f e, (∀ k x, f (Ev (CtlCancelRun k) x) = false) → f e = true → e ∉ t3) as Ht3.
  { intros f e Hf He. eapply (never_notin f); [|exact Hc|exact He].
    destruct fn; [by intros x|exact I]. }
  assert (∀ f e, e ∈ Ev CtlStopped false :: Ev (CtlTakeQueued id) fn :: t3 ++ Ev (CtlWaitIdle c id) idle :: t5 →
    (∀ k x, f (Ev (CtlCancelRun k) x) = false) → f (Ev CtlStopped false) = false →
    f (Ev (CtlTakeQueued id) fn) = false → f (Ev (CtlWaitIdle c id) idle) = false →
    f e = true → e ∈ t5) as Hlate.
  { intros f e Hin Hf H1 H2 H3 He.
    apply elem_of_cons in Hin as [->|Hin]; [congruence|].
    apply elem_of_cons in Hin as [->|Hin]; [congruence|].
    apply elem_of_app in Hin as [Hin|Hin]; [by destruct (Ht3 f e Hf He)|].
    apply elem_of_cons in Hin as [->|Hin]; [congruence|done]. }
  split.
  - intros (e & Hin & He). apply (Hlate got_row) in Hin; [|done..].
    destruct idle as [[]|err]; [|apply traces_mret in Ht as [-> _]; by apply not_elem_of_nil in Hin].
    apply delete_rest_last in Ht; [|by exists e]. by rewrite !last_cons, last_app, last_cons, Ht.
  - intros e Hin He. apply (Hlate is_teardown) in Hin; [|done..].
    destruct idle as [[]|err]; [|apply traces_mret in Ht as [-> _]; by apply not_elem_of_nil in Hin].
    do 2 apply sublist_cons. apply sublist_inserts_l, sublist_skip. by apply singleton_sublist_l.
Qed.

Definition delete_run : list wevent :=
  (run (tracer InstallOrder.good_world) (Install.Delete (CtxParent 0) "wsp_1") []).2.

Lemma delete_best_effort_witness :
  last delete_run = Some (Ev (RepoDelete (CtxParent 0) "wsp_1") (Ok ())) ∧ length delete_run = 11.
Proof.
  split; [|reflexivity].
  assert (traces (Install.Delete (CtxParent 0) "wsp_1") delete_run (Ok ())) as Hrun
    by (apply (run_tracer InstallOrder.good_world); vm_compute; reflexivity).
  apply (proj1 (delete_best_effort (CtxParent 0) "wsp_1" delete_run (Ok ()) Hrun)).
  exists (Ev (RepoGet (CtxParent 0) "wsp_1") (Ok (sample_row "wsp_1" "default" "alpha" StatusInit))).
  split; [vm_compute; repeat constructor|reflexivity].
Defined.
End DeleteSpec.
