(* ===== verification/Controller.v ===== *)
(** * The controller's queue and worker pool (pkg/manager/workspace/controller.go)

    The mutable half of the controller: the job queue, the two maps that track
    running installs, the lifecycle flags and the worker goroutines. Every critical
    section of the source's mutex, every atomic counter update and every cancel call
    is one step; workers and clients interleave in any order. What a worker does
    between dequeuing a job and finishing it is [Install.runInstall].

    Jobs carry a ticket, the number of the [Submit] that accepted them, and the state
    records which tickets were finished or dropped: neither exists in the source,
    both only observe. The ticket also names the job's cancel function. *)

From S2P Require Import Prelude GoString GoError WorkspaceTypes WorkspaceWorld Install.
From stdpp Require Import options.

Module Controller.
Import Install.

(** Where a worker goroutine is in [worker] and [runOneInstall]. *)
Inductive wstate :=
| Waiting                                   (* in dequeue *)
| Dequeued (ticket : nat) (id : WorkspaceID) (* dequeue returned a job *)
| Running (ticket : nat) (id : WorkspaceID)  (* inflight.Add(1) done, in runInstall *)
| Cancelled (ticket : nat) (id : WorkspaceID) (* runInstall returned, jobCancel() called *)
| Finished                                  (* finishTrackedInstall done *)
| Exited.                                   (* returned, deferred decrement done *)

Record ctl := {
  queue : list (nat * installJob);
  started : bool;
  stopped : bool;
  installCancel : gmap WorkspaceID nat;
  installRunning : gmap WorkspaceID Z;
  cancelled : gset nat;          (* job contexts whose cancel function was called *)
  rootCancelled : bool;          (* c.cancel() was called *)
  workersRemaining : Z;
  workersDone : bool;            (* close(c.workersDone) happened *)
  inflight : Z;
  workers : list wstate;
  submitted : nat;
  finished : list nat;
  dropped : list nat;
}.

(** [ControllerConfig]; a collaborator is either given or nil. *)
Record ControllerConfig := {
  cc_Repo : bool;
  cc_PluginStorage : bool;
  cc_AgentSpecs : bool;
  cc_Factories : bool;
  cc_InstallTimeout : Z;
  cc_InstallWorkers : Z;
  cc_MaxPluginSize : Z;
  cc_ProbeTimeout : Z;
}.

Definition defaultInstallTimeout : Z := 10 * minute.
Definition defaultInstallWorkers : Z := 4.
Definition defaultMaxPluginSize : Z := 256 * 2 ^ 20.
Definition defaultProbeConfirmTimeout : Z := 5 * second.

Definition or_default (x d : Z) : Z := if decide (x ≤ 0)%Z then d else x.

(** The settings [NewController] keeps: those an install reads and the number of
    workers. The rest of its result is the empty pool [NewController] below. *)
Definition NewControllerSettings (cfg : ControllerConfig) : result (config * Z) :=
  if negb (cc_Repo cfg) then Err (ENew "workspace controller: nil repo")
  else if negb (cc_PluginStorage cfg) then Err (ENew "workspace controller: nil plugin storage")
  else if negb (cc_AgentSpecs cfg) then Err (ENew "workspace controller: nil agent specs")
  else if negb (cc_Factories cfg) then Err (ENew "workspace controller: nil factories")
  else Ok ({| installTimeout := or_default (cc_InstallTimeout cfg) defaultInstallTimeout;
              maxPluginSize := or_default (cc_MaxPluginSize cfg) defaultMaxPluginSize;
              probeTimeout := or_default (cc_ProbeTimeout cfg) defaultProbeConfirmTimeout |},
           or_default (cc_InstallWorkers cfg) defaultInstallWorkers).

(** The settings of every controller are positive: the [0 < n] of the theorems. *)
Lemma settings_positive cfg c n :
  NewControllerSettings cfg = Ok (c, n) →
  (0 < n)%Z ∧ (0 < installTimeout c)%Z ∧ (0 < maxPluginSize c)%Z ∧ (0 < probeTimeout c)%Z.
Proof.
  unfold NewControllerSettings. repeat (destruct (_ cfg); [|done]). intros [= <- <-]. simpl.
  unfold or_default, defaultInstallTimeout, defaultInstallWorkers, defaultMaxPluginSize,
    defaultProbeConfirmTimeout, minute, second.
  split_and!; case_decide; lia.
Qed.

Definition NewController : ctl := {|
  queue := []; started := false; stopped := false; installCancel := ∅; installRunning := ∅;
  cancelled := ∅; rootCancelled := false; workersRemaining := 0; workersDone := false;
  inflight := 0; workers := []; submitted := 0; finished := []; dropped := [] |}.

(** ** Critical sections *)

(** [Start]: the caller's context only carries values, so it is left out. *)
Definition Start (installWorkers : nat) (s : ctl) : result unit * ctl :=
  if stopped s then (Err ErrControllerShutdown, s)
  else if started s then (Ok (), s)
  else (Ok (), {|
    queue := queue s; started := true; stopped := stopped s; installCancel := installCancel s;
    installRunning := installRunning s; cancelled := cancelled s; rootCancelled := rootCancelled s;
    workersRemaining := Z.of_nat installWorkers; workersDone := workersDone s;
    inflight := inflight s; workers := replicate installWorkers Waiting;
    submitted := submitted s; finished := finished s; dropped := dropped s |}).

(** [Submit]; [ctxErr] is what [ctx.Err()] answers. *)
Definition Submit (ctxErr : option error) (w : Workspace) (params : InstallParams) (s : ctl)
    : result unit * ctl :=
  match ctxErr with
  | Some e => (Err e, s)
  | None =>
    if negb (started s) || stopped s then (Err ErrControllerShutdown, s)
    else (Ok (), {|
      queue := queue s ++ [(submitted s, {| job_workspace := cloneWorkspace w;
                                            job_params := cloneInstallParams params |})];
      started := started s; stopped := stopped s; installCancel := installCancel s;
      installRunning := installRunning s; cancelled := cancelled s; rootCancelled := rootCancelled s;
      workersRemaining := workersRemaining s; workersDone := workersDone s; inflight := inflight s;
      workers := workers s; submitted := S (submitted s); finished := finished s;
      dropped := dropped s |})
  end.

(** The first critical section of [Stop]. *)
Definition stop_flag (s : ctl) : ctl := {|
  queue := queue s; started := started s; stopped := true; installCancel := installCancel s;
  installRunning := installRunning s; cancelled := cancelled s; rootCancelled := rootCancelled s;
  workersRemaining := workersRemaining s; workersDone := workersDone s; inflight := inflight s;
  workers := workers s; submitted := submitted s; finished := finished s; dropped := dropped s |}.

(** [cancel()] in [Stop]: every job context derives from this one. *)
Definition cancel_root (s : ctl) : ctl := {|
  queue := queue s; started := started s; stopped := stopped s; installCancel := installCancel s;
  installRunning := installRunning s; cancelled := cancelled s; rootCancelled := true;
  workersRemaining := workersRemaining s; workersDone := workersDone s; inflight := inflight s;
  workers := workers s; submitted := submitted s; finished := finished s; dropped := dropped s |}.

(** What a caller that waits for the workers to end may be answered in this state, its
    context having ended with [ctxErr] or not; nothing when it goes on waiting. When both
    channels of the [select] are ready, either of them is taken. *)
Definition waitWorkersShutdown (ctxErr : option error) (s : ctl) : list (result unit) :=
  if started s then
    (if workersDone s then [Ok ()] else []) ++ match ctxErr with Some err => [Err err] | None => [] end
  else [Ok ()].

Definition job_id (j : nat * installJob) : WorkspaceID := w_ID (job_workspace j.2).

(** The queue without the jobs of [id], and the cancel function of a running one. *)
Definition takeAndCancelQueuedInstalls (id : WorkspaceID) (s : ctl) : option nat * ctl :=
  (installCancel s !! id, {|
    queue := filter (λ j, job_id j ≠ id) (queue s);
    started := started s; stopped := stopped s; installCancel := installCancel s;
    installRunning := installRunning s; cancelled := cancelled s; rootCancelled := rootCancelled s;
    workersRemaining := workersRemaining s; workersDone := workersDone s; inflight := inflight s;
    workers := workers s; submitted := submitted s; finished := finished s;
    dropped := dropped s ++ (filter (λ j, job_id j = id) (queue s)).*1 |}).

(** Calling a cancel function that [takeAndCancelQueuedInstalls] or [dequeue] gave. *)
Definition cancel_job (t : nat) (s : ctl) : ctl := {|
  queue := queue s; started := started s; stopped := stopped s; installCancel := installCancel s;
  installRunning := installRunning s; cancelled := {[t]} ∪ cancelled s;
  rootCancelled := rootCancelled s; workersRemaining := workersRemaining s;
  workersDone := workersDone s; inflight := inflight s; workers := workers s;
  submitted := submitted s; finished := finished s; dropped := dropped s |}.

Definition running_of (id : WorkspaceID) (s : ctl) : Z := default 0%Z (installRunning s !! id).

(** The loop condition of [waitInstallIdle]. *)
Definition install_idle (id : WorkspaceID) (s : ctl) : bool := bool_decide (¬ 0 < running_of id s)%Z.

(** [finishTrackedInstall] *)
Definition finishTrackedInstall (id : WorkspaceID) (s : ctl) : ctl :=
  let n := (running_of id s - 1)%Z in
  {| queue := queue s; started := started s; stopped := stopped s;
     installCancel := if decide (n ≤ 0)%Z then delete id (installCancel s) else installCancel s;
     installRunning := if decide (n ≤ 0)%Z then delete id (installRunning s)
                       else <[id := n]> (installRunning s);
     cancelled := cancelled s; rootCancelled := rootCancelled s;
     workersRemaining := workersRemaining s; workersDone := workersDone s; inflight := inflight s;
     workers := workers s; submitted := submitted s; finished := finished s; dropped := dropped s |}.

Inductive dequeued :=
| DWait                                  (* back to queueCond.Wait() *)
| DExit                                  (* ok = false *)
| DJob (t : nat) (j : installJob).

Definition dequeue (s : ctl) : dequeued * ctl :=
  match queue s with
  | [] => if stopped s then (DExit, s) else (DWait, s)
  | (t, job) :: queue' =>
    let id := w_ID (job_workspace job) in
    (DJob t job, {|
      queue := queue'; started := started s; stopped := stopped s;
      installCancel := <[id := t]> (installCancel s);
      installRunning := <[id := (running_of id s + 1)%Z]> (installRunning s);
      cancelled := match installCancel s !! id with
                   | Some prev => {[prev]} ∪ cancelled s
                   | None => cancelled s
                   end;
      rootCancelled := rootCancelled s; workersRemaining := workersRemaining s;
      workersDone := workersDone s; inflight := inflight s; workers := workers s;
      submitted := submitted s; finished := finished s; dropped := dropped s |})
  end.

Definition set_worker (i : nat) (w : wstate) (s : ctl) : ctl := {|
  queue := queue s; started := started s; stopped := stopped s; installCancel := installCancel s;
  installRunning := installRunning s; cancelled := cancelled s; rootCancelled := rootCancelled s;
  workersRemaining := workersRemaining s; workersDone := workersDone s; inflight := inflight s;
  workers := <[i := w]> (workers s); submitted := submitted s; finished := finished s;
  dropped := dropped s |}.

(** [c.inflight.Add(d)] *)
Definition add_inflight (d : Z) (s : ctl) : ctl := {|
  queue := queue s; started := started s; stopped := stopped s; installCancel := installCancel s;
  installRunning := installRunning s; cancelled := cancelled s; rootCancelled := rootCancelled s;
  workersRemaining := workersRemaining s; workersDone := workersDone s; inflight := (inflight s + d)%Z;
  workers := workers s; submitted := submitted s; finished := finished s; dropped := dropped s |}.

Definition record_finished (t : nat) (s : ctl) : ctl := {|
  queue := queue s; started := started s; stopped := stopped s; installCancel := installCancel s;
  installRunning := installRunning s; cancelled := cancelled s; rootCancelled := rootCancelled s;
  workersRemaining := workersRemaining s; workersDone := workersDone s; inflight := inflight s;
  workers := workers s; submitted := submitted s; finished := finished s ++ [t];
  dropped := dropped s |}.

(** The deferred function of [worker]: the last worker closes [workersDone]. *)
Definition worker_exit (s : ctl) : ctl :=
  let n := (workersRemaining s - 1)%Z in
  {| queue := queue s; started := started s; stopped := stopped s; installCancel := installCancel s;
     installRunning := installRunning s; cancelled := cancelled s; rootCancelled := rootCancelled s;
     workersRemaining := n; workersDone := if decide (n = 0)%Z then true else workersDone s;
     inflight := inflight s; workers := workers s; submitted := submitted s;
     finished := finished s; dropped := dropped s |}.

(** [CountInflight] *)
Definition CountInflight (s : ctl) : Z := inflight s.

(** ** One step of worker [i] *)

Definition worker_step (i : nat) (s : ctl) : option ctl :=
  match workers s !! i with
  | Some Waiting =>
    match dequeue s with
    | (DWait, _) => None
    | (DExit, s') => Some (worker_exit (set_worker i Exited s'))
    | (DJob t j, s') => Some (set_worker i (Dequeued t (w_ID (job_workspace j))) s')
    end
  | Some (Dequeued t id) => Some (add_inflight 1 (set_worker i (Running t id) s))
  | Some (Running t id) => Some (cancel_job t (set_worker i (Cancelled t id) s))
  | Some (Cancelled t id) =>
      Some (record_finished t (finishTrackedInstall id (set_worker i Finished s)))
  | Some Finished => Some (add_inflight (-1) (set_worker i Waiting s))
  | Some Exited | None => None
  end.

Section system.
(** The number of workers, positive after [NewController]'s defaults. *)
Variable installWorkers : nat.

(** What the clients do: everything but submitting, and submitting. *)
Inductive client_step : ctl → ctl → Prop :=
| client_start s : client_step s (Start installWorkers s).2
| client_stop s : client_step s (stop_flag s)
| client_cancel_root s : client_step s (cancel_root s)
| client_take id s : client_step s (takeAndCancelQueuedInstalls id s).2
| client_cancel t s : client_step s (cancel_job t s).

Inductive step : ctl → ctl → Prop :=
| step_client s s' : client_step s s' → step s s'
| step_submit e w p s : step s (Submit e w p s).2
| step_worker i s s' : worker_step i s = Some s' → step s s'.

Definition reachable (s : ctl) : Prop := rtc step NewController s.
End system.

End Controller.

(** ** The invariant of the pool *)

Module ControllerInvariant.
Import Install Controller.

(** The job a worker holds, if it is between [dequeue] and [finishTrackedInstall]. *)
Definition held (w : wstate) : option (nat * WorkspaceID) :=
  match w with
  | Dequeued t id | Running t id | Cancelled t id => Some (t, id)
  | _ => None
  end.

Definition holds (id : WorkspaceID) (w : wstate) : bool :=
  match held w with Some (_, id') => if decide (id' = id) then true else false | None => false end.

Lemma holds_none id w : held w = None → holds id w = false.
Proof. unfold holds. by intros ->. Qed.
Lemma holds_same id w t : held w = Some (t, id) → holds id w = true.
Proof. unfold holds. intros ->. by rewrite decide_True. Qed.
Lemma holds_ext id w w' : held w = held w' → holds id w = holds id w'.
Proof. unfold holds. by intros ->. Qed.
Lemma holds_other id id' w t : held w = Some (t, id') → id' ≠ id → holds id w = false.
Proof. unfold holds. intros -> Hne. by rewrite decide_False. Qed.

(** Between the two updates of [inflight]. *)
Definition active (w : wstate) : bool :=
  match w with Running _ _ | Cancelled _ _ | Finished => true | _ => false end.

Definition exited (w : wstate) : bool := match w with Exited => true | _ => false end.

(** How many workers run an install of [id]. *)
Definition busy (id : WorkspaceID) (s : ctl) : nat := count_if (holds id) (workers s).

Definition held_tickets (s : ctl) : list nat := (omap held (workers s)).*1.

Record ctl_inv (n : nat) (s : ctl) : Prop := {
  i_running id : installRunning s !! id =
    if decide (busy id s = 0) then None else Some (Z.of_nat (busy id s));
  i_cancel id : is_Some (installCancel s !! id) ↔ is_Some (installRunning s !! id);
  i_inflight : inflight s = Z.of_nat (count_if active (workers s));
  i_started : started s = true →
    length (workers s) = n ∧
    workersRemaining s = (Z.of_nat n - Z.of_nat (count_if exited (workers s)))%Z ∧
    (workersDone s = true ↔ count_if exited (workers s) = n);
  i_unstarted : started s = false → workers s = [] ∧ queue s = [] ∧ workersDone s = false;
  i_exited : 0 < count_if exited (workers s) → stopped s = true ∧ queue s = [];
  i_tickets : (queue s).*1 ++ held_tickets s ++ finished s ++ dropped s ≡ₚ seq 0 (submitted s);
}.

#[local] Arguments seq : simpl never.
#[local] Arguments count_if : simpl never.

Section invariant.
Variable n : nat.
Hypothesis n_pos : 0 < n.
Set Default Proof Using "Type*".

Lemma new_controller_inv : ctl_inv n NewController.
Proof.
  split; simpl; try done.
  - intros id. rewrite !lookup_empty. done.
  - unfold count_if. simpl. lia.
Qed.

Lemma Start_inv s : ctl_inv n s → ctl_inv n (Start n s).2.
Proof.
  intros Hs. unfold Start. destruct (stopped s) eqn:Hstop; [done|].
  destruct (started s) eqn:Hstart; [done|].
  destruct Hs as [Hr Hc Hi _ Hu He Ht]. destruct (Hu Hstart) as (Hw & Hq & Hd).
  unfold busy, held_tickets in *. rewrite Hw in *. split; simpl; try done.
  - intros id. unfold busy. simpl. rewrite count_if_replicate. apply Hr.
  - by rewrite count_if_replicate.
  - intros _. rewrite length_replicate, count_if_replicate, Hd. simpl. split_and!; [done|lia|].
    split; [done|]. intros E. exfalso. lia.
  - rewrite count_if_replicate. simpl. lia.
  - unfold held_tickets. simpl. rewrite <-Ht. f_equiv.
    assert (omap held (replicate n Waiting) = []) as ->; [|done]. clear. by induction n.
Qed.

Lemma Submit_inv e w p s : ctl_inv n s → ctl_inv n (Submit e w p s).2.
Proof.
  intros Hs. unfold Submit. destruct e as [e|]; [done|].
  destruct (started s) eqn:Hstart; [|done]. destruct (stopped s) eqn:Hstop; [done|]. simpl.
  destruct Hs as [Hr Hc Hi Hst Hu He Ht]. split; simpl; try done.
  - intros _. by apply Hst.
  - intros Hex. destruct (He Hex). congruence.
  - unfold held_tickets in *. simpl. rewrite seq_S, fmap_app. simpl. rewrite <-Ht.
    solve_Permutation.
Qed.

Lemma take_inv id s : ctl_inv n s → ctl_inv n (takeAndCancelQueuedInstalls id s).2.
Proof.
  intros [Hr Hc Hi Hst Hu He Ht]. split; simpl; try done.
  - intros Hf. destruct (Hu Hf) as (? & -> & ?). done.
  - intros Hex. destruct (He Hex) as [? ->]. done.
  - unfold held_tickets in *. simpl. rewrite <-Ht.
    rewrite <-(filter_app_complement (λ j, job_id j = id) (queue s)) at 3.
    rewrite fmap_app. solve_Permutation.
Qed.

Lemma client_inv s s' : client_step n s s' → ctl_inv n s → ctl_inv n s'.
Proof.
  destruct 1; intros Hs; [by apply Start_inv| | |by apply take_inv|];
    destruct Hs as [Hr Hc Hi Hst Hu He Ht]; split; simpl; try done.
  intros Hex. by destruct (He Hex).
Qed.

(** The counts and tickets of the pool, split at one worker. *)
Lemma worker_split s i w : workers s !! i = Some w →
  ∃ rest, (∀ p, count_if p (workers s) = (if p w then 1 else 0) + count_if p rest) ∧
    (∀ w' p, count_if p (<[i:=w']> (workers s)) = (if p w' then 1 else 0) + count_if p rest) ∧
    held_tickets s ≡ₚ (omap held (w :: rest)).*1 ∧
    (∀ w', (omap held (<[i:=w']> (workers s))).*1 ≡ₚ (omap held (w' :: rest)).*1).
Proof.
  intros Hw. destruct (list_update_perm _ _ _ Hw) as (rest & Hold & Hnew). exists rest. split_and!.
  - intros p. by rewrite Hold, count_if_cons.
  - intros w' p. by rewrite (Hnew w'), count_if_cons.
  - unfold held_tickets. by rewrite Hold.
  - intros w'. by rewrite (Hnew w').
Qed.

Lemma dequeue_inv i s t j queue' :
  ctl_inv n s → workers s !! i = Some Waiting → queue s = (t, j) :: queue' →
  ctl_inv n (set_worker i (Dequeued t (w_ID (job_workspace j))) (dequeue s).2).
Proof.
  intros [Hr Hc Hi Hst Hu He Ht] Hw Hq.
  destruct (worker_split s i _ Hw) as (rest & Hold & Hnew & Htold & Htnew).
  unfold dequeue. rewrite Hq. set (id := w_ID (job_workspace j)).
  split; simpl; unfold busy, held_tickets in *; simpl in *.
  - intros id'. rewrite Hnew, lookup_insert. unfold running_of.
    rewrite !Hr, !Hold, !(holds_none _ Waiting) by done. simpl. case_decide as Hd.
    + subst id'. rewrite (holds_same id (Dequeued t id) t) by done.
      rewrite (decide_False (P := 1 + _ = 0)) by lia. f_equal. case_decide as Hz; simpl; lia.
    + by rewrite (holds_other id' id (Dequeued t id) t).
  - intros id'. rewrite !lookup_insert. case_decide; [by split; eexists|apply Hc].
  - rewrite Hnew. rewrite Hi, Hold. done.
  - intros Hs. destruct (Hst Hs) as (Hl & Hwr & Hdone). rewrite Hnew, length_insert.
    rewrite Hold in *. done.
  - intros Hf. destruct (Hu Hf) as (_ & E & _). congruence.
  - rewrite Hnew. rewrite Hold in He. simpl. intros Hex. destruct (He Hex) as [_ E]. congruence.
  - rewrite Htnew, <-Ht, Htold, Hq. simpl. solve_Permutation.
Qed.

(** A worker that moves between states holding the same job changes only
    [inflight]. *)
Lemma move_inv i s w w' d :
  ctl_inv n s → workers s !! i = Some w → held w = held w' → exited w = exited w' →
  (d = Z.of_nat (if active w' then 1 else 0) - Z.of_nat (if active w then 1 else 0))%Z →
  ctl_inv n (add_inflight d (set_worker i w' s)).
Proof.
  intros [Hr Hc Hi Hst Hu He Ht] Hw Hheld Hexit ->.
  destruct (worker_split s i _ Hw) as (rest & Hold & Hnew & Htold & Htnew).
  split; simpl; unfold busy, held_tickets in *; simpl in *; try done.
  - intros id. by rewrite Hnew, Hr, Hold, (holds_ext id w w').
  - rewrite Hnew, Hi, Hold. lia.
  - intros Hs. rewrite Hnew, length_insert, <-Hexit, <-Hold. by apply Hst.
  - intros Hf. destruct (Hu Hf) as (E & _). by rewrite E in Hw.
  - rewrite Hnew, <-Hexit, <-Hold. done.
  - rewrite Htnew, <-Ht, Htold. simpl. by rewrite Hheld.
Qed.

Lemma finish_inv i s t id :
  ctl_inv n s → workers s !! i = Some (Cancelled t id) →
  ctl_inv n (record_finished t (finishTrackedInstall id (set_worker i Finished s))).
Proof.
  intros [Hr Hc Hi Hst Hu He Ht] Hw.
  destruct (worker_split s i _ Hw) as (rest & Hold & Hnew & Htold & Htnew).
  unfold finishTrackedInstall.
  set (m := (running_of id (set_worker i Finished s) - 1)%Z).
  assert (m = Z.of_nat (count_if (holds id) rest)) as Hm.
  { unfold m, running_of. simpl. rewrite Hr. unfold busy.
    rewrite Hold, (holds_same id (Cancelled t id) t) by done. rewrite decide_False by lia.
    simpl. lia. }
  split; simpl; unfold busy, held_tickets in *; simpl in *; try done.
  - intros id'. rewrite Hnew, (holds_none _ Finished) by done. simpl. specialize (Hr id').
    rewrite Hold in Hr. destruct (decide (id = id')) as [<-|Hne].
    + destruct (decide (m ≤ 0)%Z) as [Hz|Hz].
      * rewrite lookup_delete_eq, decide_True by lia. done.
      * rewrite lookup_insert_eq, decide_False by lia. by rewrite Hm.
    + rewrite (holds_other id' id (Cancelled t id) t) in Hr by done.
      destruct (decide (m ≤ 0)%Z); [rewrite lookup_delete_ne by done|rewrite lookup_insert_ne by done];
        apply Hr.
  - intros id'. destruct (decide (m ≤ 0)%Z) as [Hz|Hz].
    + rewrite !lookup_delete. case_decide; [done|apply Hc].
    + rewrite lookup_insert, Hc. case_decide as Hd; [subst id'|done].
      rewrite Hr, Hold, (holds_same id (Cancelled t id) t) by done. rewrite decide_False by lia.
      split; by eexists.
  - rewrite Hnew, Hi, Hold. done.
  - intros Hs. rewrite Hnew, length_insert. specialize (Hst Hs). rewrite Hold in Hst. done.
  - intros Hf. destruct (Hu Hf) as (E & _). by rewrite E in Hw.
  - rewrite Hnew. rewrite Hold in He. done.
  - rewrite Htnew, <-Ht, Htold. simpl. solve_Permutation.
Qed.

Lemma exit_inv i s :
  ctl_inv n s → workers s !! i = Some Waiting → queue s = [] → stopped s = true →
  ctl_inv n (worker_exit (set_worker i Exited s)).
Proof.
  intros [Hr Hc Hi Hst Hu He Ht] Hw Hq Hstop.
  destruct (worker_split s i _ Hw) as (rest & Hold & Hnew & Htold & Htnew).
  split; simpl; unfold busy, held_tickets in *; simpl in *; try done.
  - intros id. rewrite Hnew, Hr, Hold. done.
  - rewrite Hnew, Hi, Hold. done.
  - intros Hs. destruct (Hst Hs) as (Hl & Hwr & Hdone). rewrite Hnew, length_insert. rewrite Hold in *.
    simpl in *. split_and!; [done|lia|].
    pose proof (count_if_le (λ _, true) (workers s)) as Hle. rewrite Hold in Hle. simpl in Hle.
    pose proof (count_if_le_count exited (λ _, true) rest ltac:(done)) as Hle'.
    case_decide as Hz; [split; [intros _; lia|done]|]. rewrite Hdone. split; lia.
  - intros Hf. destruct (Hu Hf) as (E & _). by rewrite E in Hw.
  - rewrite Htnew, <-Ht, Htold. done.
Qed.

Lemma worker_step_inv i s s' : worker_step i s = Some s' → ctl_inv n s → ctl_inv n s'.
Proof.
  unfold worker_step. intros Hstep Hs. destruct (workers s !! i) as [w|] eqn:Hw; [|done].
  destruct w as [|t id|t id|t id| |]; [|injection Hstep as <-..|done].
  - destruct (queue s) as [|[t j] q] eqn:Hq; unfold dequeue in Hstep; rewrite Hq in Hstep.
    + destruct (stopped s) eqn:Hstop; [|done]. injection Hstep as <-. by apply exit_inv.
    + injection Hstep as <-. pose proof (dequeue_inv i s t j q Hs Hw Hq) as Hinv.
      unfold dequeue in Hinv. by rewrite Hq in Hinv.
  - by apply (move_inv i s (Dequeued t id)).
  - pose proof (move_inv i s (Running t id) (Cancelled t id) 0 Hs Hw eq_refl eq_refl eq_refl) as Hinv.
    destruct Hinv as [Hr Hc Hi Hst Hu He Ht]. split; try done.
    simpl in *. by rewrite Z.add_0_r in Hi.
  - by apply finish_inv.
  - by apply (move_inv i s Finished).
Qed.

Lemma step_inv s s' : step n s s' → ctl_inv n s → ctl_inv n s'.
Proof.
  destruct 1 as [s s' Hc|e w p s|i s s' Hw].
  - by apply client_inv.
  - by apply Submit_inv.
  - by apply (worker_step_inv i).
Qed.

Lemma reachable_inv s : reachable n s → ctl_inv n s.
Proof.
  revert s. apply (rtc_ind_r (R := step n) (ctl_inv n)); [apply new_controller_inv|].
  intros s1 s2 _ Hstep. by apply step_inv.
Qed.
End invariant.

End ControllerInvariant.

(** ** What the pool guarantees *)

Module ControllerSpec.
Import Install Controller ControllerInvariant.

#[local] Arguments count_if : simpl never.

(** Every job is in exactly one place. *)
Definition places (s : ctl) : list nat := (queue s).*1 ++ held_tickets s ++ finished s ++ dropped s.

(** C3. The bookkeeping of the pool is exact in every reachable state, whatever
    clients and workers did. [installRunning] has an entry for a workspace exactly
    when some worker is between dequeuing and finishing an install of it, and the
    entry is the number of those workers; so [waitInstallIdle] may return for a
    workspace exactly when there is none. A cancel function is registered exactly for
    the workspaces with a running install. [CountInflight] is exactly the number of
    workers between the two updates of the counter, one made right after [dequeue] and
    the other after [finishTrackedInstall], and so lies between zero and the number of
    workers. Every accepted job is exactly once in the queue, with a worker, finished or
    dropped. *)
Theorem pool_accounting (n : nat) (s : ctl) :
  0 < n → reachable n s →
  (∀ id, installRunning s !! id =
     if decide (busy id s = 0) then None else Some (Z.of_nat (busy id s))) ∧
  (∀ id, install_idle id s = true ↔ ∀ w, w ∈ workers s → holds id w = false) ∧
  (∀ id, is_Some (installCancel s !! id) ↔ busy id s ≠ 0) ∧
  CountInflight s = Z.of_nat (count_if active (workers s)) ∧
  (0 ≤ CountInflight s ≤ Z.of_nat n)%Z ∧
  places s ≡ₚ seq 0 (submitted s).
Proof.
  intros Hn Hs%reachable_inv; [|done]. destruct Hs as [Hr Hc Hi Hst Hu He Ht]. split_and!.
  - done.
  - intros id. unfold install_idle, running_of. rewrite bool_decide_eq_true, Hr.
    rewrite <-count_if_zero. change (count_if (holds id) (workers s)) with (busy id s).
    case_decide as Hz; simpl; lia.
  - intros id. rewrite Hc, Hr. case_decide as Hz; [split; [by intros []|done]|].
    split; [done|by eexists].
  - done.
  - unfold CountInflight. lia.
  - unfold CountInflight. rewrite Hi. destruct (started s) eqn:Hs.
    + destruct (Hst eq_refl) as (<- & _). pose proof (count_if_le active (workers s)). lia.
    + destruct (Hu eq_refl) as (-> & _). rewrite count_if_nil. lia.
  - done.
Qed.

(** One worker, one job submitted, dequeued and running. *)
Definition demo_row : Workspace := {|
  w_ID := "wsp_1"; w_Namespace := "default"; w_Alias := "alpha"; w_AgentType := "claude-code";
  w_InfraType := "localdir"; w_InfraOptions := None; w_InstallParams := None; w_Plugins := [];
  w_Status := StatusInit; w_StatusError := None; w_Description := ""; w_Labels := None;
  w_LastProbeAt := 0; w_CreatedAt := 0; w_UpdatedAt := 0 |}%Z.
Definition demo_params : InstallParams := {|
  ip_Workspace := {| ws_ID := "wsp_1"; ws_Namespace := "default"; ws_Alias := "alpha";
    ws_AgentType := "claude-code"; ws_InfraType := "localdir"; ws_Plugins := [] |};
  ip_UserParams := None |}.

Definition demo_queued : ctl := (Submit None demo_row demo_params (Start 1 NewController).2).2.
Definition demo_dequeued : ctl := default demo_queued (worker_step 0 demo_queued).
Definition demo_running : ctl := default demo_dequeued (worker_step 0 demo_dequeued).

Lemma demo_reachable : reachable 1 demo_running.
Proof.
  eapply rtc_l; [apply step_client, client_start|].
  eapply rtc_l; [apply (step_submit 1 None demo_row demo_params)|].
  eapply rtc_l; [by apply (step_worker 1 0 demo_queued demo_dequeued)|].
  eapply rtc_l; [by apply (step_worker 1 0 demo_dequeued demo_running)|apply rtc_refl].
Qed.

Lemma pool_accounting_witness :
  installRunning demo_running !! "wsp_1" = Some 1%Z ∧
  (¬ ∀ w, w ∈ workers demo_running → holds "wsp_1" w = false) ∧ CountInflight demo_running = 1%Z ∧
  (0 ≤ CountInflight demo_running ≤ 1)%Z.
Proof.
  destruct (pool_accounting 1 demo_running ltac:(lia) demo_reachable)
    as (Hrun & Hidle & _ & Hact & Hcount & _).
  split; [exact (Hrun "wsp_1")|].
  split; [|split; [exact Hact|exact Hcount]].
  intros Hno. apply Hidle in Hno. vm_compute in Hno. discriminate Hno.
Defined.

(** *** Shutting down *)

Definition is_waiting (w : wstate) : bool := match w with Waiting => true | _ => false end.
Definition is_dequeued (w : wstate) : bool := match w with Dequeued _ _ => true | _ => false end.
Definition is_running (w : wstate) : bool := match w with Running _ _ => true | _ => false end.
Definition is_cancelled (w : wstate) : bool := match w with Cancelled _ _ => true | _ => false end.
Definition is_finished (w : wstate) : bool := match w with Finished => true | _ => false end.

(** An upper bound on the worker steps left once nothing is submitted any more. *)
Definition work_left (s : ctl) : nat :=
  5 * length (queue s) + count_if is_waiting (workers s) + 5 * count_if is_dequeued (workers s) +
  4 * count_if is_running (workers s) + 3 * count_if is_cancelled (workers s) +
  2 * count_if is_finished (workers s).

Lemma worker_step_decreases i s s' : worker_step i s = Some s' → S (work_left s') = work_left s.
Proof.
  unfold worker_step. intros Hstep. destruct (workers s !! i) as [w|] eqn:Hw; [|done].
  destruct (list_update_perm _ _ _ Hw) as (rest & Hold & Hnew).
  unfold work_left. rewrite Hold, !count_if_cons.
  destruct w as [|t id|t id|t id| |]; [|injection Hstep as <-; simpl; rewrite Hnew, !count_if_cons; simpl; lia..|done].
  unfold dequeue in Hstep. destruct (queue s) as [|[t j] q] eqn:Hq.
  - destruct (stopped s); [|done]. injection Hstep as <-. simpl.
    rewrite Hnew, !count_if_cons, Hq. simpl. lia.
  - injection Hstep as <-. simpl. rewrite Hnew, !count_if_cons. simpl. lia.
Qed.

Lemma worker_step_flags i s s' :
  worker_step i s = Some s' → started s' = started s ∧ stopped s' = stopped s ∧
  submitted s' = submitted s.
Proof.
  unfold worker_step. intros Hstep. destruct (workers s !! i) as [w|]; [|done].
  destruct w as [|t id|t id|t id| |]; [|by injection Hstep as <-..|done].
  unfold dequeue in Hstep. destruct (queue s) as [|[t j] q].
  - destruct (stopped s) eqn:E; [|done]. injection Hstep as <-. by rewrite <-E.
  - by injection Hstep as <-.
Qed.

(** Once stopped, a worker that has not exited can take a step. *)
Lemma stopped_can_step s i w :
  stopped s = true → workers s !! i = Some w → exited w = false → is_Some (worker_step i s).
Proof.
  intros Hstop Hw Hex. unfold worker_step. rewrite Hw.
  destruct w as [|t id|t id|t id| |]; [|by eexists..|done].
  unfold dequeue. destruct (queue s) as [|[t j] q]; [rewrite Hstop|]; by eexists.
Qed.

Definition some_worker (s s' : ctl) : Prop := ∃ i, worker_step i s = Some s'.

Lemma workers_done_drained n s :
  0 < n → reachable n s → workersDone s = true →
  queue s = [] ∧ finished s ++ dropped s ≡ₚ seq 0 (submitted s).
Proof.
  intros Hn Hs%reachable_inv Hdone; [|done]. destruct Hs as [Hr Hc Hi Hst Hu He Ht].
  destruct (started s) eqn:Hs; [|destruct (Hu eq_refl) as (_ & _ & E); congruence].
  destruct (Hst eq_refl) as (Hlen & _ & Hd). apply Hd in Hdone.
  destruct He as [_ Hq]; [lia|]. split; [done|]. rewrite <-Ht, Hq. simpl.
  unfold held_tickets. rewrite <-Hlen in Hdone. apply count_if_all in Hdone.
  assert (omap held (workers s) = []) as ->; [|done].
  clear -Hdone. induction Hdone as [|w l Hw _ IH]; [done|]. by destruct w.
Qed.

(** A caller that is told of success finds no worker and no job left; without a context
    that ends it is told nothing else. *)
Lemma wait_answers_spec n ctxErr s r :
  0 < n → reachable n s → r ∈ waitWorkersShutdown ctxErr s →
  (r = Ok () ∧ queue s = [] ∧ Forall (λ w, exited w = true) (workers s)) ∨ ∃ err, ctxErr = Some err ∧ r = Err err.
Proof.
  intros Hn Hr Hin. pose proof (reachable_inv n Hn s Hr) as [_ _ _ Hst Hu _ _]. unfold waitWorkersShutdown in Hin.
  destruct (started s) eqn:Hs.
  - apply elem_of_app in Hin as [Hin|Hin]; [left|right].
    + destruct (workersDone s) eqn:Hd; [|by apply not_elem_of_nil in Hin]. apply list_elem_of_singleton in Hin as ->.
      destruct (workers_done_drained n s Hn Hr Hd) as [Hq _]. split_and!; [done|done|].
      destruct (Hst eq_refl) as (Hl & _ & Hd'). apply count_if_all. rewrite Hl. by apply Hd'.
    + destruct ctxErr as [err|]; [|by apply not_elem_of_nil in Hin]. apply list_elem_of_singleton in Hin as ->. by exists err.
  - apply list_elem_of_singleton in Hin as ->. left. destruct (Hu eq_refl) as (Hw & Hq & _).
    split_and!; [done|done|]. rewrite Hw. constructor.
Qed.

Lemma drain_exists n s :
  0 < n → reachable n s → started s = true → stopped s = true →
  ∃ s', rtc some_worker s s' ∧ reachable n s' ∧ workersDone s' = true ∧ submitted s' = submitted s.
Proof.
  intros Hn. remember (work_left s) as m eqn:Hm. revert s Hm.
  induction m as [|m IH]; intros s Hm Hr Hstart Hstop.
  all: destruct (workersDone s) eqn:Hd; [exists s; split_and!; [apply rtc_refl|done..]|].
  all: assert (∃ i w, workers s !! i = Some w ∧ exited w = false) as (i & w & Hw & Hex)
         by (destruct (reachable_inv n Hn s Hr) as [_ _ _ Hst _ _ _];
             destruct (Hst Hstart) as (Hl & _ & Hd');
             destruct (decide (Forall (λ w, exited w = true) (workers s))) as [Hall|Hno];
             [apply count_if_all in Hall; rewrite Hl in Hall; apply Hd' in Hall; congruence|];
             apply not_Forall_Exists in Hno; [|apply _];
             apply Exists_exists in Hno as (w & Hin & Hw); apply list_elem_of_lookup in Hin as [i Hi];
             exists i, w; split; [done|by apply not_true_is_false]).
  all: destruct (stopped_can_step s i w Hstop Hw Hex) as [s1 Hs1].
  all: pose proof (worker_step_decreases i s s1 Hs1) as Hdec.
  - lia.
  - destruct (worker_step_flags i s s1 Hs1) as (E1 & E2 & E3).
    destruct (IH s1) as (s' & Hsteps & Hr' & Hd' & Hsub).
    + lia.
    + eapply rtc_r; [exact Hr|]. by apply (step_worker n i).
    + congruence.
    + congruence.
    + exists s'. split_and!; [eapply rtc_l; [by exists i|done]|done|done|congruence].
Qed.

(** Stopping drains the pool: in a stopped, started controller the workers
    alone can always run on until [workersDone] is closed, each of their steps
    brings that strictly closer (no more than [work_left] steps are ever left), and
    when it is closed the queue is empty and every job ever accepted has been
    finished by a worker or dropped by a [Delete]: none is lost. *)
Theorem stop_drains (n : nat) (s : ctl) :
  0 < n → reachable n s → started s = true → stopped s = true →
  (∃ s', rtc some_worker s s' ∧ workersDone s' = true) ∧
  (∀ s', some_worker s s' → work_left s' < work_left s) ∧
  (workersDone s = true → queue s = [] ∧ finished s ++ dropped s ≡ₚ seq 0 (submitted s)).
Proof.
  intros Hn Hr Hstart Hstop. split_and!.
  - destruct (drain_exists n s Hn Hr Hstart Hstop) as (s' & ? & _ & ? & _). by exists s'.
  - intros s' [i Hi]. apply worker_step_decreases in Hi. lia.
  - by apply (workers_done_drained n).
Qed.

Lemma stop_drains_witness :
  work_left (stop_flag demo_running) = 4 ∧
  ∃ s', rtc some_worker (stop_flag demo_running) s' ∧ workersDone s' = true.
Proof.
  split; [reflexivity|].
  apply (stop_drains 1 (stop_flag demo_running)); [lia| |reflexivity|reflexivity].
  eapply rtc_r; [apply demo_reachable|]. apply step_client, client_stop.
Defined.

(** *** Deleting a workspace *)

(** Steps in which no job of [id] is submitted. *)
Inductive step_without (id : WorkspaceID) (n : nat) : ctl → ctl → Prop :=
| without_client s s' : client_step n s s' → step_without id n s s'
| without_submit e w p s : w_ID w ≠ id → step_without id n s (Submit e w p s).2
| without_worker i s s' : worker_step i s = Some s' → step_without id n s s'.

Lemma step_without_step id n s s' : step_without id n s s' → step n s s'.
Proof. destruct 1; [by apply step_client|apply step_submit|by eapply step_worker]. Qed.

Definition not_queued (id : WorkspaceID) (s : ctl) : Prop := Forall (λ j, job_id j ≠ id) (queue s).

Lemma not_queued_step id n s s' : step_without id n s s' → not_queued id s → not_queued id s'.
Proof.
  unfold not_queued. destruct 1 as [s s' Hc|e w p s Hne|i s s' Hw]; intros Hq.
  - destruct Hc; simpl; try done.
    + unfold Start. destruct (stopped s); [done|]. by destruct (started s).
    + apply Forall_forall. intros j [_ Hj]%list_elem_of_filter. by eapply Forall_forall in Hq.
  - unfold Submit. destruct e; [done|]. destruct (negb _ || _); [done|]. simpl.
    apply Forall_app. split; [done|]. by constructor.
  - unfold worker_step in Hw. destruct (workers s !! i) as [w|]; [|done].
    destruct w as [|t id'|t id'|t id'| |]; [|by injection Hw as <-..|done].
    unfold dequeue in Hw. destruct (queue s) as [|[t j] q] eqn:Eq.
    + destruct (stopped s); [|done]. injection Hw as <-. simpl. by rewrite Eq.
    + injection Hw as <-. simpl. by apply Forall_cons in Hq as [_ ?].
Qed.

Lemma busy_step id n s s' :
  step_without id n s s' → not_queued id s → busy id s = 0 → busy id s' = 0.
Proof.
  destruct 1 as [s s' Hc|e w p s Hne|i s s' Hw]; intros Hq Hb.
  - destruct Hc; simpl; try done.
    unfold Start. destruct (stopped s) eqn:E; [done|]. destruct (started s); [done|].
    unfold busy. simpl. by rewrite count_if_replicate.
  - unfold Submit. destruct e; [done|]. by destruct (negb _ || _).
  - unfold worker_step in Hw. destruct (workers s !! i) as [w|] eqn:Ew; [|done].
    destruct (list_update_perm _ _ _ Ew) as (rest & Hold & Hnew).
    unfold busy in *. rewrite Hold, count_if_cons in Hb.
    destruct w as [|t id'|t id'|t id'| |];
      [|injection Hw as <-; cbn [workers add_inflight cancel_job record_finished finishTrackedInstall set_worker];
        rewrite Hnew, count_if_cons..|done].
    2-3: done.
    2: destruct (holds id (Cancelled t id')); [done|by rewrite holds_none].
    2: by rewrite holds_none in Hb |- *.
    unfold dequeue in Hw. destruct (queue s) as [|[t j] q] eqn:Eq.
    + destruct (stopped s); [|done]. injection Hw as <-. simpl. rewrite Hnew, count_if_cons. done.
    + injection Hw as <-. simpl. rewrite Hnew, count_if_cons.
      unfold not_queued in Hq. rewrite Eq in Hq. apply Forall_cons in Hq as [Hj _].
      rewrite (holds_other id (w_ID (job_workspace j)) _ t) by done. simpl in *. lia.
Qed.

(** C4. Deletion excludes installs: after [Delete] has taken the queued jobs of a
    workspace and found it idle, no worker runs an install of that workspace and
    none is queued, for as long as nobody submits one; whatever else happens
    between the two sections and afterwards. *)
Theorem delete_excludes_install (n : nat) (id : WorkspaceID) (s s1 s2 : ctl) :
  0 < n → reachable n s →
  rtc (step_without id n) (takeAndCancelQueuedInstalls id s).2 s1 →
  install_idle id s1 = true →
  rtc (step_without id n) s1 s2 →
  not_queued id s2 ∧ ∀ w, w ∈ workers s2 → holds id w = false.
Proof.
  intros Hn Hr H1 Hidle H2.
  set (s0 := (takeAndCancelQueuedInstalls id s).2) in *.
  assert (reachable n s0) as Hr0 by (eapply rtc_r; [exact Hr|apply step_client, client_take]).
  assert (not_queued id s0) as Hq0.
  { apply Forall_forall. simpl. by intros j [Hj _]%list_elem_of_filter. }
  assert (∀ s s', rtc (step_without id n) s s' → reachable n s → not_queued id s →
    reachable n s' ∧ not_queued id s' ∧ (busy id s = 0 → busy id s' = 0)) as Hrun.
  { clear. intros s s' Hsteps. induction Hsteps as [s|s s1 s' Hstep _ IH]; intros Hr Hq; [done|].
    destruct IH as (? & ? & Hb).
    - eapply rtc_r; [exact Hr|by eapply step_without_step].
    - by eapply not_queued_step.
    - split_and!; [done|done|]. intros Hz. apply Hb. by eapply busy_step. }
  destruct (Hrun _ _ H1 Hr0 Hq0) as (Hr1 & Hq1 & _).
  destruct (Hrun _ _ H2 Hr1 Hq1) as (_ & Hq2 & Hb). split; [done|].
  apply count_if_zero. apply Hb. destruct (reachable_inv n Hn s1 Hr1) as [Hrun1 _ _ _ _ _ _].
  unfold install_idle, running_of in Hidle. apply bool_decide_eq_true in Hidle.
  rewrite Hrun1 in Hidle. case_decide; [done|]. simpl in Hidle. lia.
Qed.
Lemma delete_excludes_install_witness :
  not_queued "wsp_1" (takeAndCancelQueuedInstalls "wsp_1" demo_queued).2 ∧
  ∀ w, w ∈ workers (takeAndCancelQueuedInstalls "wsp_1" demo_queued).2 → holds "wsp_1" w = false.
Proof.
  apply (delete_excludes_install 1 "wsp_1" demo_queued
           (takeAndCancelQueuedInstalls "wsp_1" demo_queued).2); [lia| |apply rtc_refl|reflexivity|apply rtc_refl].
  eapply rtc_l; [apply step_client, client_start|].
  eapply rtc_l; [apply (step_submit 1 None demo_row demo_params)|apply rtc_refl].
Defined.
End ControllerSpec.
