(* ===== verification/Scheduler.v ===== *)
(** * The probe scheduler (pkg/manager/workspace/scheduler.go)

    Defaults, lifecycle, and the work of one tick: list all rows, fail installs that
    timed out, then probe the healthy and failed rows with a bounded pool of
    workers. [tick_plan], [probeOne] and [recordProbeOutcome] are procedures over
    the calls of [WorkspaceWorld]; [pool] is the hand-over of rows to workers. *)

From S2P Require Import Prelude GoString GoError GoValue WorkspaceTypes Paging PluginTypes Proc WorkspaceWorld.
From stdpp Require Import options.

Module Scheduler.

Definition defaultProbeInterval : Z := 30 * second.
Definition defaultProbeWorkers : Z := 4.
Definition defaultProbeTimeout : Z := 5 * second.
Definition defaultInstallTimeout : Z := 10 * minute.
Definition listPageSize : Z := 100.

(** [ProbeSchedulerConfig]; a collaborator is either given or nil. *)
Record ProbeSchedulerConfig := {
  pc_Repo : bool;
  pc_AgentSpecs : bool;
  pc_Factories : bool;
  pc_Interval : Z;
  pc_Workers : Z;
  pc_Timeout : Z;
  pc_InstallTimeout : Z;
}.

(** The settings [ProbeScheduler] keeps. *)
Record settings := {
  interval : Z;
  workers : Z;
  timeout : Z;
  installTimeout : Z;
}.

Definition NewProbeScheduler (cfg : ProbeSchedulerConfig) : result settings :=
  if negb (pc_Repo cfg) then Err (ENew "workspace scheduler: nil repo")
  else if negb (pc_AgentSpecs cfg) then Err (ENew "workspace scheduler: nil agent specs")
  else if negb (pc_Factories cfg) then Err (ENew "workspace scheduler: nil factories")
  else Ok {|
    interval := if decide (pc_Interval cfg ≤ 0)%Z then defaultProbeInterval else pc_Interval cfg;
    workers := if decide (pc_Workers cfg ≤ 0)%Z then defaultProbeWorkers else pc_Workers cfg;
    timeout := if decide (pc_Timeout cfg ≤ 0)%Z then defaultProbeTimeout else pc_Timeout cfg;
    installTimeout := if decide (pc_InstallTimeout cfg ≤ 0)%Z then defaultInstallTimeout
                      else pc_InstallTimeout cfg |}.

(** ** Lifecycle

    One loop goroutine, its context and the channel it closes when it returns. *)

Inductive loop_state := NoLoop | Looping | LoopDone.

Record life := {
  started : bool;
  stopped : bool;
  cancelled : bool;
  loop : loop_state;
}.

Definition Start (s : life) : result unit * life :=
  if stopped s then (Err ErrSchedulerShutdown, s)
  else if started s then (Ok (), s)
  else (Ok (), {| started := true; stopped := stopped s; cancelled := false; loop := Looping |}).

(** The critical section of [Stop] with the [cancel()] after it; [None] tells the
    caller to wait for the loop, [Some] is a result returned at once. *)
Definition Stop (s : life) : option (result unit) * life :=
  if stopped s then (if started s then None else Some (Ok ()), s)
  else
    let s' := {| started := started s; stopped := true; cancelled := started s; loop := loop s |} in
    (if started s then None else Some (Ok ()), s').

(** The loop returns when it finds its context done. *)
Definition loop_exit (s : life) : life :=
  match loop s with
  | Looping => if cancelled s
               then {| started := started s; stopped := stopped s; cancelled := cancelled s; loop := LoopDone |}
               else s
  | _ => s
  end.

(** [ProbeStats], the counters modulo their width, over the events so far. *)
Record ProbeStats := {
  ps_TicksRun : Z;
  ps_ProbesAttempted : Z;
  ps_ProbesHealthy : Z;
  ps_ProbesFailed : Z;
  ps_Overruns : Z;
}.

Definition counts (k : counter) (e : wevent) : bool :=
  match e with
  | Ev (Count k') _ =>
    match k, k' with
    | TicksRun, TicksRun | ProbesAttempted, ProbesAttempted | ProbesHealthy, ProbesHealthy
    | ProbesFailed, ProbesFailed | Overruns, Overruns => true
    | _, _ => false
    end
  | _ => false
  end.

Definition Stats (t : list wevent) : ProbeStats :=
  let c k := (Z.of_nat (count_ev (counts k) t) mod 2 ^ 64)%Z in
  {| ps_TicksRun := c TicksRun; ps_ProbesAttempted := c ProbesAttempted;
     ps_ProbesHealthy := c ProbesHealthy; ps_ProbesFailed := c ProbesFailed;
     ps_Overruns := c Overruns |}.

(** ** A tick *)

Definition list_options (cursor : string) : WorkspaceTypes.ListOptions := {|
  lo_Namespace := ""; lo_AgentType := ""; lo_InfraType := ""; lo_Status := ""; lo_Labels := None;
  lo_Limit := listPageSize; lo_Cursor := cursor |}.

(** [listAll]; [None] is running out of fuel. *)
Fixpoint listAll (fuel : nat) (c : ctx) (cursor : string) (rows : list Workspace)
    : wproc (option (result (list Workspace))) :=
  match fuel with
  | 0 => mret None
  | S fuel' =>
    r ← call (RepoList c (list_options cursor));
    match r with
    | Err err => mret (Some (Err err))
    | Ok (page, next) =>
      if decide (next = "") then mret (Some (Ok (rows ++ page)))
      else listAll fuel' c next (rows ++ page)
    end
  end.

(** [now.Sub(t)]: a duration is an int64 and the difference saturates. *)
Definition time_Sub (a b : Time) : Z := Z.max int64_min (Z.min int64_max (a - b)).

Definition installTimedOut (cfg : settings) (now : Time) (row : Workspace) : bool :=
  if decide (w_Status row ≠ StatusInit ∨ (installTimeout cfg ≤ 0)%Z) then false
  else bool_decide (time_Sub now (w_CreatedAt row) > installTimeout cfg)%Z.

Section tick.
Variable cfg : settings.

(** The loop over the rows: [seen] skips repeated ids, an expired install is failed,
    healthy and failed rows are collected. Write errors are only logged. *)
Fixpoint scan_rows (c : ctx) (now : Time) (rows : list Workspace) (seen : gset WorkspaceID)
    (probeRows : list Workspace) : wproc (list Workspace) :=
  match rows with
  | [] => mret probeRows
  | row :: rows' =>
    if decide (w_ID row ∈ seen) then scan_rows c now rows' seen probeRows else
    let seen := {[w_ID row]} ∪ seen in
    if decide (w_Status row = StatusInit) then
      _ ← (if installTimedOut cfg now row then
             let persistCtx := newRepoWriteContext c in
             _ ← call (RepoUpdateStatusCAS persistCtx (w_ID row) StatusWriterScheduler StatusInit
                         StatusFailed (failureFromError now "install" (Some ErrInstallTimeout)) 0);
             call (CancelCtx persistCtx)
           else mret ());
      scan_rows c now rows' seen probeRows
    else if decide (w_Status row = StatusHealthy ∨ w_Status row = StatusFailed) then
      scan_rows c now rows' seen (probeRows ++ [row])
    else scan_rows c now rows' seen probeRows
  end.

(** [runTick] up to the worker pool: the rows to probe. *)
Definition tick_plan (fuel : nat) (c : ctx) : wproc (option (result (list Workspace))) :=
  _ ← call (Count TicksRun);
  listed ← listAll fuel c "" [];
  match listed with
  | None => mret None
  | Some (Err err) => mret (Some (Err err))
  | Some (Ok rows) =>
    now ← call Now;
    probeRows ← scan_rows c now rows ∅ [];
    mret (Some (Ok probeRows))
  end.

(** ** Recording an outcome *)

Definition transitionProbeStatus (c : ctx) (row : Workspace) (next : Status)
    (statusErr : option WorkspaceError) (probedAt : Time) : wproc (result unit) :=
  call (RepoUpdateStatusCAS c (w_ID row) StatusWriterScheduler (w_Status row) next statusErr probedAt).

(** [updated.LastProbeAt = probedAt; updated.UpdatedAt = now; updated.StatusError = e] *)
Definition probed_row (latest : Workspace) (newStatus : Status) (statusErr : option WorkspaceError)
    (probedAt now : Time) : Workspace :=
  let latest := cloneWorkspace latest in {|
    w_ID := w_ID latest; w_Namespace := w_Namespace latest; w_Alias := w_Alias latest;
    w_AgentType := w_AgentType latest; w_InfraType := w_InfraType latest;
    w_InfraOptions := w_InfraOptions latest; w_InstallParams := w_InstallParams latest;
    w_Plugins := w_Plugins latest; w_Status := w_Status latest;
    w_StatusError := if decide (newStatus = StatusHealthy) then None else cloneError statusErr;
    w_Description := w_Description latest; w_Labels := w_Labels latest;
    w_LastProbeAt := probedAt; w_CreatedAt := w_CreatedAt latest; w_UpdatedAt := now |}.

Definition recordProbeOutcome (c : ctx) (row : Workspace) (newStatus : Status)
    (statusErr : option WorkspaceError) (probedAt : Time) : wproc unit :=
  let persistCtx := newRepoWriteContext c in
  deferred (call (CancelCtx persistCtx))
    (if decide (w_Status row ≠ newStatus) then
       _ ← transitionProbeStatus persistCtx row newStatus statusErr probedAt; mret ()
     else
       got ← call (RepoGet persistCtx (w_ID row));
       match got with
       | Err _ => mret ()
       | Ok latest =>
         if decide (w_Status latest ≠ newStatus) then mret () else
         now ← call Now;
         _ ← call (RepoUpdate persistCtx (probed_row latest newStatus statusErr probedAt now));
         mret ()
       end).

(** ** One probe *)

Definition probe_failed (c : ctx) (row : Workspace) (err : error) : wproc unit :=
  now1 ← call Now;
  now2 ← call Now;
  _ ← recordProbeOutcome c row StatusFailed (failureFromError now1 "probe" (Some err)) now2;
  call (Count ProbesFailed).

(** [probeCtx.Err() != nil && ctx.Err() != nil] *)
Definition both_done (probeCtx c : ctx) : wproc bool :=
  e1 ← call (CtxErr probeCtx);
  match e1 with
  | None => mret false
  | Some _ => e2 ← call (CtxErr c); mret match e2 with Some _ => true | None => false end
  end.

(** A factory or open error is a failed probe, unless the tick itself ended. *)
Definition probe_setup_failed (probeCtx c : ctx) (row : Workspace) (err : error) : wproc unit :=
  done_ ← both_done probeCtx c;
  if (done_ : bool) then mret () else probe_failed c row err.

(** After [Probe] returned. *)
Definition probe_result (probeCtx c : ctx) (row : Workspace) (probedAt : Time)
    (result : ProbeResult) (err : option error) : wproc unit :=
  e1 ← call (CtxErr probeCtx);
  e2 ← match e1 with None => mret None | Some _ => call (CtxErr probeCtx) end;
  if match e1 with None => false | Some _ => is_err e2 Canceled end then mret () else
  stopping ← (if is_err err Canceled then
                e ← call (CtxErr c); mret match e with Some _ => true | None => false end
              else mret false);
  if (stopping : bool) then mret () else
  match err with
  | None =>
    if pr_Healthy result then
      _ ← recordProbeOutcome c row StatusHealthy None probedAt;
      call (Count ProbesHealthy)
    else
      now ← call Now;
      _ ← recordProbeOutcome c row StatusFailed (failureFromProbeResult now result) probedAt;
      call (Count ProbesFailed)
  | Some err =>
    now ← call Now;
    _ ← recordProbeOutcome c row StatusFailed (failureFromError now "probe" (Some err)) probedAt;
    call (Count ProbesFailed)
  end.

Definition probeOne (c : ctx) (row : Workspace) : wproc unit :=
  _ ← call (Count ProbesAttempted);
  known ← call (FactoryGet (w_InfraType row));
  if negb known
  then probe_failed c row (Errorf_w "" ErrInfraTypeUnknown (": " +:+ strconv_Quote (w_InfraType row)))
  else
    let probeCtx := CtxTimeout c (timeout cfg) in
    deferred (call (CancelCtx probeCtx))
      (built ← call (FactoryBuild probeCtx (w_InfraType row) (w_InfraOptions row));
       match built with
       | Err err => probe_setup_failed probeCtx c row err
       | Ok ops =>
         opened ← call (OpsOpen probeCtx ops);
         match opened with
         | Err err => probe_setup_failed probeCtx c row err
         | Ok _ =>
           known ← call (SpecGet (w_AgentType row));
           if negb known
           then probe_failed c row (Errorf_w "" ErrAgentTypeUnknown (": " +:+ strconv_Quote (w_AgentType row)))
           else
             probedAt ← call Now;
             probed ← call (SpecProbe probeCtx (w_AgentType row) ops);
             let '(result, err) := probed : ProbeResult * option error in
             probe_result probeCtx c row probedAt result err
         end
       end).
End tick.

(** ** The worker pool of a tick

    The tick's goroutine offers the rows one after the other on an unbuffered
    channel, which hands a row to a worker that is ready to receive; it stops
    offering when its context is done. A worker probes the row it got ([probeOne]
    between [hand_over] and [probe_done]), and exits once the channel is closed. *)

Inductive worker :=
| Ready
| Probing (row : Workspace)
| Gone.

Record pool := {
  rows_left : list Workspace;     (* not yet handed over *)
  jobs_closed : bool;
  pool_workers : list worker;
  probed : list Workspace;        (* probeOne returned *)
}.

(** [workerCount] and the goroutines it starts. *)
Definition workerCount (workers : Z) (probeRows : list Workspace) : Z :=
  Z.min workers (Z.of_nat (length probeRows)).

Definition start_pool (workers : Z) (probeRows : list Workspace) : pool := {|
  rows_left := probeRows; jobs_closed := false;
  pool_workers := replicate (Z.to_nat (workerCount workers probeRows)) Ready; probed := [] |}.

Inductive pool_step : pool → pool → Prop :=
| hand_over p row rows i :
    jobs_closed p = false → rows_left p = row :: rows → pool_workers p !! i = Some Ready →
    pool_step p {| rows_left := rows; jobs_closed := false;
                   pool_workers := <[i := Probing row]> (pool_workers p); probed := probed p |}
| probe_done p row i :
    pool_workers p !! i = Some (Probing row) →
    pool_step p {| rows_left := rows_left p; jobs_closed := jobs_closed p;
                   pool_workers := <[i := Ready]> (pool_workers p); probed := probed p ++ [row] |}
| close_all p :
    jobs_closed p = false → rows_left p = [] →
    pool_step p {| rows_left := []; jobs_closed := true; pool_workers := pool_workers p;
                   probed := probed p |}
| worker_gone p i :
    jobs_closed p = true → pool_workers p !! i = Some Ready →
    pool_step p {| rows_left := rows_left p; jobs_closed := jobs_closed p;
                   pool_workers := <[i := Gone]> (pool_workers p); probed := probed p |}.

(** The context ended while a row was offered. *)
Inductive cancel_step : pool → pool → Prop :=
| close_early p row rows :
    jobs_closed p = false → rows_left p = row :: rows →
    cancel_step p {| rows_left := rows_left p; jobs_closed := true; pool_workers := pool_workers p;
                     probed := probed p |}.

(** [wg.Wait()] returned. *)
Definition pool_finished (p : pool) : Prop :=
  jobs_closed p = true ∧ Forall (λ w, w = Gone) (pool_workers p).

End Scheduler.
