(* ===== verification/SchedulerSpec.v ===== *)
(** * What the probe scheduler guarantees

    The watchdog of a tick against the in-memory repository, the recording of a
    probe's outcome, what a probe may write, its counters, and the worker pool. *)

From S2P Require Import Prelude GoString GoError GoValue WorkspaceTypes Paging PluginTypes Proc WorkspaceWorld.
From S2P Require Import WorkspaceRepo WorkspaceRun Scheduler.
From stdpp Require Import options.

Module SchedulerWatchdog.
Import Scheduler WorkspaceRun.
Import WorkspaceRepository WorkspaceInvariant WorkspaceListing WorkspaceRepoSpec.

Section watchdog.
Variable now : Time.
Variable others : ∀ X, wcall X → X.
Abbreviation h := (repo_handler now others).

Definition all_selected : WorkspaceTypes.ListOptions := list_options "".

(** [listAll] is the pagination loop of the interface, with the page size of the source. *)
Lemma listAll_drain fuel c cursor rows r :
  run h (listAll fuel c cursor rows) r = (drain fuel r all_selected listPageSize cursor rows, r).
Proof.
  revert cursor rows. induction fuel as [|fuel IH]; intros cursor rows; [done|].
  cbn [listAll drain]. rewrite run_bind. simpl run at 1.
  change (page r all_selected listPageSize cursor) with (List_ (list_options cursor) r).
  destruct (List_ (list_options cursor) r) as [[pg next]|e]; [|done].
  case_decide; [done|]. apply IH.
Qed.

(** The row the watchdog leaves in place of [w]. *)
Definition expire (cfg : settings) (w : Workspace) : Workspace :=
  if decide (w_Status w = StatusInit ∧ installTimedOut cfg now w = true)
  then set_status w StatusFailed 0 now (failureFromError now "install" (Some ErrInstallTimeout))
  else w.

Definition probed_status (s : Status) : Prop := s = StatusHealthy ∨ s = StatusFailed.
#[export] Instance probed_status_dec s : Decision (probed_status s).
Proof. unfold probed_status. apply _. Defined.

Lemma scan_row_run cfg c row w0 r :
  closed r = false → byID r !! w_ID row = Some w0 → row = cloneWorkspace w0 →
  w_Status row = StatusInit →
  ∃ u r1, run h (if installTimedOut cfg now row then
                   _ ← call (RepoUpdateStatusCAS (newRepoWriteContext c) (w_ID row) StatusWriterScheduler StatusInit
                               StatusFailed (failureFromError now "install" (Some ErrInstallTimeout)) 0);
                   call (CancelCtx (newRepoWriteContext c))
                 else mret ()) r = (u, r1) ∧
    closed r1 = false ∧ (repo_inv r → repo_inv r1) ∧
    ∀ id, byID r1 !! id = if decide (w_ID row = id) then Some (expire cfg w0) else byID r !! id.
Proof.
  intros Hcl Hw0 Hrow Hst. assert (w_Status w0 = StatusInit) as Hst0 by (by subst row).
  assert (installTimedOut cfg now w0 = installTimedOut cfg now row) as Et by (by subst row).
  unfold expire. rewrite Et. destruct (installTimedOut cfg now row).
  - rewrite run_bind. simpl run at 1. rewrite decide_True by done.
    rewrite (UpdateStatusCAS_ok _ _ _ _ _ _ _ _ w0) by (first [done|by right; split; [|left]]).
    eexists _, _. split; [done|]. split; [done|]. split.
    + intros Hr. pose proof (run_op_inv (OpCAS (w_ID row) StatusWriterScheduler StatusInit StatusFailed
        (failureFromError now "install" (Some ErrInstallTimeout)) 0 now) r Hr) as Hinv.
      cbn [run_op] in Hinv.
      by rewrite (UpdateStatusCAS_ok _ _ _ _ _ _ _ _ w0) in Hinv
        by (first [done|by right; split; [|left]]).
    + intros id. apply put_row_lookup.
  - exists (), r. rewrite decide_False by (by intros []). split_and!; [done..|].
    intros id. case_decide; [by subst id|done].
Qed.

(** Scanning: every scanned row is expired in place if it timed out, nothing else
    changes, and the healthy and failed rows are collected in order. *)
Lemma scan_rows_run cfg c rows seen acc r :
  repo_inv r → closed r = false →
  NoDup (w_ID <$> rows) → (∀ w, w ∈ rows → w_ID w ∉ seen) →
  (∀ w, w ∈ rows → ∃ w0, byID r !! w_ID w = Some w0 ∧ w = cloneWorkspace w0) →
  ∃ r', run h (scan_rows cfg c now rows seen acc) r =
      (acc ++ filter (λ w, probed_status (w_Status w)) rows, r') ∧
    closed r' = false ∧
    ∀ id, byID r' !! id = (if decide (id ∈ w_ID <$> rows) then expire cfg <$> byID r !! id else byID r !! id).
Proof.
  revert seen acc r. induction rows as [|row rows IH]; intros seen acc r Hr Hcl Hnd Hseen Hrows.
  { exists r. rewrite app_nil_r. split_and!; [done..|]. intros id.
    rewrite decide_False; [done|]. apply not_elem_of_nil. }
  rewrite fmap_cons in Hnd. apply NoDup_cons in Hnd as [Hni Hnd].
  destruct (Hrows row ltac:(by left)) as (w0 & Hw0 & Erow).
  assert (w_ID row ∉ seen) as Hns by (apply Hseen; by left).
  assert (∀ w, w ∈ rows → w_ID w ≠ w_ID row) as Hne.
  { intros w Hw Heq. apply Hni. rewrite <-Heq. by apply list_elem_of_fmap_2. }
  assert (∀ w, w ∈ rows → w_ID w ∉ {[w_ID row]} ∪ seen) as Hseen'.
  { intros w Hw [Heq%elem_of_singleton|Hin]%elem_of_union; [by apply (Hne w Hw)|].
    revert Hin. apply Hseen. by right. }
  assert (∀ (r1 : repo), (∀ id, w_ID row ≠ id → byID r1 !! id = byID r !! id) →
    ∀ w, w ∈ rows → ∃ w0, byID r1 !! w_ID w = Some w0 ∧ w = cloneWorkspace w0) as Hrows'.
  { intros r1 Hr1 w Hw. rewrite Hr1 by (intros E; by apply (Hne w Hw)). apply Hrows. by right. }
  change (w_ID <$> row :: rows) with (w_ID row :: (w_ID <$> rows)).
  cbn [scan_rows]. rewrite decide_False by done. cbn zeta.
  destruct (decide (w_Status row = StatusInit)) as [Hst|Hst].
  - destruct (scan_row_run cfg c row w0 r Hcl Hw0 Erow Hst) as (u & r1 & Hrun & Hcl1 & Hinv1 & Hby1).
    rewrite run_bind, Hrun.
    destruct (IH ({[w_ID row]} ∪ seen) acc r1) as (r' & -> & Hcl' & Hby'); [by apply Hinv1|done|done|done| |].
    { apply Hrows'. intros id Hid. by rewrite Hby1, decide_False. }
    exists r'. split.
    { rewrite filter_cons, decide_False; [done|]. rewrite Hst. by intros []. }
    split; [done|]. intros id. rewrite Hby', !Hby1.
    destruct (decide (w_ID row = id)) as [<-|Hd].
    + rewrite decide_False by done. rewrite decide_True by (by left). by rewrite Hw0.
    + destruct (decide (id ∈ w_ID <$> rows)).
      * by rewrite decide_True by (by right).
      * rewrite decide_False; [done|]. by intros [|]%elem_of_cons.
  - assert (expire cfg w0 = w0) as Hexp.
    { unfold expire. rewrite decide_False; [done|]. intros [E _]. apply Hst. by subst row. }
    assert (∀ acc', ∃ r', run h (scan_rows cfg c now rows ({[w_ID row]} ∪ seen) acc') r =
        (acc' ++ filter (λ w, probed_status (w_Status w)) rows, r') ∧ closed r' = false ∧
        ∀ id, byID r' !! id = (if decide (id ∈ w_ID row :: (w_ID <$> rows)) then expire cfg <$> byID r !! id
                               else byID r !! id)) as Hrest.
    { intros acc'. destruct (IH ({[w_ID row]} ∪ seen) acc' r) as (r' & -> & Hcl' & Hby');
        [done|done|done|done|by apply Hrows'|]. exists r'. split_and!; [done..|]. intros id.
      rewrite Hby'. destruct (decide (id ∈ w_ID <$> rows)).
      - by rewrite decide_True by (by right).
      - destruct (decide (w_ID row = id)) as [<-|Hd].
        + rewrite decide_True by (by left). rewrite Hw0. simpl. by rewrite Hexp.
        + rewrite decide_False; [done|]. by intros [|]%elem_of_cons. }
    rewrite filter_cons. change (w_Status row = StatusHealthy ∨ w_Status row = StatusFailed)
      with (probed_status (w_Status row)).
    destruct (decide (probed_status (w_Status row))).
    + destruct (Hrest (acc ++ [row])) as (r' & Hrun & H2). exists r'.
      rewrite Hrun, <-app_assoc. done.
    + apply Hrest.
Qed.
Lemma rows_NoDup_id r o : repo_inv r → NoDup (w_ID <$> selection r o).
Proof.
  intros Hr. apply NoDup_fmap_2_strong; [|eapply NoDup_fmap_1, selection_NoDup_key; done].
  intros x y Hx Hy. apply selection_elem in Hx as (i & x0 & Hx & _ & ->).
  apply selection_elem in Hy as (j & y0 & Hy & _ & ->). simpl. intros E.
  destruct (inv_row r Hr _ _ Hx) as [Ex _], (inv_row r Hr _ _ Hy) as [Ey _]. congruence.
Qed.

Lemma all_selected_matches w : row_matches all_selected w = true.
Proof.
  unfold row_matches, all_selected, list_options. cbn [lo_Namespace lo_AgentType lo_InfraType lo_Status lo_Labels].
  do 4 (rewrite decide_False by (by intros [])). done.
Qed.

(** The watchdog half of a tick, alone on the repository: it lists every row,
    marks exactly the rows still in [init] after the install timeout as failed with
    the install-timeout error, leaves every other row as it was, and hands exactly
    the healthy and failed rows, each once, to the probe workers. *)
Theorem watchdog_tick (cfg : settings) (c : ctx) (r : repo) (fuel : nat) :
  reachable r → closed r = false → nul_free r → size (byID r) < fuel →
  ∃ rows r', run h (tick_plan cfg fuel c) r = (Some (Ok rows), r') ∧
    (∀ id, byID r' !! id = expire cfg <$> byID r !! id) ∧
    NoDup (w_ID <$> rows) ∧
    ∀ w, w ∈ rows ↔ ∃ id w0, byID r !! id = Some w0 ∧ probed_status (w_Status w0) ∧ w = cloneWorkspace w0.
Proof.
  intros Hr%reachable_repo_inv Hcl Hnul Hfuel.
  assert (drain fuel r all_selected listPageSize "" [] = Some (Ok (selection r all_selected))) as Hdrain.
  { rewrite (drain_complete fuel r all_selected listPageSize); [done|by split_and!|done|].
    eapply Nat.le_lt_trans; [|exact Hfuel]. change (length (selection r all_selected) ≤ size (byID r)).
    unfold selection, rows_of. rewrite merge_sort_Permutation, length_fmap, length_filter.
    by rewrite length_fmap, length_map_to_list. }
  assert (∀ w, w ∈ selection r all_selected → ∃ w0, byID r !! w_ID w = Some w0 ∧ w = cloneWorkspace w0) as Hsel.
  { intros w (id & w0 & Hid & _ & ->)%selection_elem. exists w0. split; [|done].
    simpl. by destruct (inv_row r Hr _ _ Hid) as [-> _]. }
  destruct (scan_rows_run cfg c (selection r all_selected) ∅ [] r Hr Hcl (rows_NoDup_id r _ Hr))
    as (r' & Hscan & _ & Hby); [set_solver|done|].
  exists (filter (λ w, probed_status (w_Status w)) (selection r all_selected)), r'. split_and!.
  - unfold tick_plan. rewrite run_call_bind. cbn [repo_handler].
    rewrite run_bind, listAll_drain, Hdrain. rewrite run_call_bind. cbn [repo_handler].
    by rewrite run_bind, Hscan.
  - intros id. rewrite Hby. case_decide as Hd; [done|].
    destruct (byID r !! id) as [w0|] eqn:Hw0; [|done]. exfalso. apply Hd.
    apply list_elem_of_fmap. exists (cloneWorkspace w0). split.
    + simpl. by destruct (inv_row r Hr _ _ Hw0) as [-> _].
    + apply selection_elem. exists id, w0. split_and!; [done| |done]. apply all_selected_matches.
  - eapply sublist_NoDup; [apply (rows_NoDup_id r all_selected Hr)|].
    apply fmap_sublist, sublist_filter.
  - intros w. rewrite list_elem_of_filter, selection_elem. split.
    + intros (Hp & id & w0 & Hid & _ & ->). exists id, w0. done.
    + intros (id & w0 & Hid & Hp & ->). split; [done|]. exists id, w0.
      split_and!; [done|apply all_selected_matches|done].
Qed.

(** *** Recording an outcome *)

Definition outcome_error (newStatus : Status) (e : option WorkspaceError) : option WorkspaceError :=
  if decide (newStatus = StatusHealthy) then None else e.

Lemma probed_edge from to :
  probed_status from → probed_status to → from ≠ to → writer_edge StatusWriterScheduler from to.
Proof.
  intros [-> | ->] [-> | ->] Hne; try done; right; (split; [done|]); [by right; left|by right; right].
Qed.

(** What recording does to the repository. *)
Definition recorded (row : Workspace) (newStatus : Status) (e : option WorkspaceError)
    (probedAt : Time) (r : repo) : repo :=
  match byID r !! w_ID row with
  | Some w =>
    if decide (w_Status w = w_Status row) then
      if decide (w_Status row ≠ newStatus)
      then put_row (w_ID row) (set_status w newStatus probedAt now (outcome_error newStatus e)) r
      else (Update (probed_row (cloneWorkspace w) newStatus e probedAt now) r).2
    else r
  | None => r
  end.

Lemma record_run c row newStatus e probedAt r :
  closed r = false → probed_status (w_Status row) → probed_status newStatus →
  run h (recordProbeOutcome c row newStatus e probedAt) r = ((), recorded row newStatus e probedAt r).
Proof.
  intros Hcl Hfrom Hto. unfold recordProbeOutcome, deferred, recorded. cbn zeta. rewrite run_bind.
  destruct (decide (w_Status row ≠ newStatus)) as [Hne|Heq].
  - unfold transitionProbeStatus. rewrite run_call_bind. cbn [repo_handler run_op].
    destruct (byID r !! w_ID row) as [w|] eqn:Hw.
    + destruct (decide (w_Status w = w_Status row)) as [Hst|Hst].
      * by rewrite (UpdateStatusCAS_ok _ _ _ _ _ _ _ _ w) by (first [done|by apply probed_edge]).
      * unfold UpdateStatusCAS. by rewrite Hcl, Hw, decide_True.
    + unfold UpdateStatusCAS. by rewrite Hcl, Hw.
  - apply dec_stable in Heq. rewrite run_call_bind. cbn [repo_handler].
    unfold Get. rewrite Hcl. destruct (byID r !! w_ID row) as [w|] eqn:Hw; [|done].
    destruct (decide (w_Status w = w_Status row)) as [Hst|Hst].
    + rewrite decide_False by (simpl; intros []; congruence).
      rewrite !run_call_bind. cbn [repo_handler run_op]. rewrite !run_call_bind.
      cbn [repo_handler run_op]. by destruct (Update _ r).
    + by rewrite decide_True by (simpl; congruence).
Qed.

(** Recording a probe's outcome: when the stored row still has the status the
    probe started from, afterwards the repository answers with that row, its status,
    probe time and error set to the outcome (no error when healthy) and nothing else
    changed; when another writer has changed the status meanwhile, or deleted the
    row, the outcome is dropped and the repository is untouched. *)
Theorem record_outcome_spec (c : ctx) (row : Workspace) (newStatus : Status)
    (e : option WorkspaceError) (probedAt : Time) (r : repo) :
  reachable r → closed r = false → probed_status (w_Status row) → probed_status newStatus →
  let r' := (run h (recordProbeOutcome c row newStatus e probedAt) r).2 in
  match byID r !! w_ID row with
  | Some w =>
    if decide (w_Status w = w_Status row)
    then Get (w_ID row) r' =
           Ok (cloneWorkspace (set_status w newStatus probedAt now (outcome_error newStatus e)))
    else r' = r
  | None => r' = r
  end.
Proof.
  intros Hr%reachable_repo_inv Hcl Hfrom Hto. cbn zeta. rewrite record_run by done. unfold recorded. simpl.
  destruct (byID r !! w_ID row) as [w|] eqn:Hw; [|done].
  destruct (inv_row r Hr _ _ Hw) as (Hid & _ & Hknown).
  destruct (decide (w_Status w = w_Status row)) as [Hst|Hst]; [|done].
  destruct (decide (w_Status row ≠ newStatus)) as [Hne|Heq].
  - unfold Get. simpl closed. by rewrite Hcl, put_row_lookup, decide_True.
  - apply dec_stable in Heq. set (w' := probed_row (cloneWorkspace w) newStatus e probedAt now).
    unfold Update. change (w_ID w') with (w_ID w). change (w_Status w') with (w_Status w).
    rewrite Hcl, Hid, Hw. rewrite decide_False by (by intros []).
    unfold validateKnownStatus. rewrite decide_True by done.
    unfold validateImmutableFields. do 4 (rewrite decide_False by (by intros [])).
    simpl. unfold Get. simpl closed. rewrite Hcl, Hid, put_row_lookup, decide_True by done.
    f_equal. unfold cloneWorkspace, outcome_error, set_status. simpl.
    by rewrite !cloneMapAny_idemp, !cloneLabels_idemp, !cloneAttachedPlugins_id, !cloneError_id, Hid, <-Heq, <-Hst.
Qed.
End watchdog.

Definition sample_settings : settings :=
  {| interval := 30 * second; workers := 4; timeout := 5 * second; installTimeout := 10 * minute |}.

(** The first sample row was installed; the second waits since time 5. *)
Definition half_installed : repo :=
  (UpdateStatusCAS "wsp_1" StatusWriterController StatusInit StatusHealthy None 6 6 sample_repo).2.

Lemma half_installed_reachable : reachable half_installed.
Proof.
  eapply rtc_r; [apply sample_reachable|].
  apply (repo_step_op (OpCAS "wsp_1" StatusWriterController StatusInit StatusHealthy None 6 6)).
Qed.

Lemma half_installed_nul_free : nul_free half_installed.
Proof.
  intros id w Hw. revert id w Hw.
  apply (bool_decide_unpack (map_Forall (λ _ w, has_byte NUL (w_Namespace w) = false) (byID half_installed))).
  vm_compute. exact I.
Qed.

Lemma watchdog_tick_witness :
  ∃ rows r', run (repo_handler (20 * minute) all_good) (tick_plan sample_settings 3 (CtxParent 0)) half_installed =
      (Some (Ok rows), r') ∧
    (∀ id, byID r' !! id = expire (20 * minute) sample_settings <$> byID half_installed !! id) ∧
    NoDup (w_ID <$> rows) ∧
    ∀ w, w ∈ rows ↔ ∃ id w0, byID half_installed !! id = Some w0 ∧ probed_status (w_Status w0) ∧
                             w = cloneWorkspace w0.
Proof.
  apply (watchdog_tick (20 * minute) all_good sample_settings (CtxParent 0) half_installed 3);
    [apply half_installed_reachable|reflexivity|apply half_installed_nul_free|].
  apply Nat.ltb_lt. vm_compute. reflexivity.
Defined.

Lemma record_outcome_spec_witness :
  let row := cloneWorkspace (sample_row "wsp_1" "default" "alpha" StatusHealthy) in
  let r' := (run (repo_handler 9 all_good)
               (recordProbeOutcome (CtxParent 0) row StatusFailed None 8) half_installed).2 in
  w_Status <$> byID half_installed !! "wsp_1" = Some StatusHealthy ∧
  match byID half_installed !! "wsp_1" with
  | Some w =>
    if decide (w_Status w = w_Status row)
    then Get "wsp_1" r' = Ok (cloneWorkspace (set_status w StatusFailed 8 9 (outcome_error StatusFailed None)))
    else r' = half_installed
  | None => r' = half_installed
  end.
Proof.
  split; [vm_compute; reflexivity|].
  apply (record_outcome_spec 9 all_good (CtxParent 0)
           (cloneWorkspace (sample_row "wsp_1" "default" "alpha" StatusHealthy)) StatusFailed None 8 half_installed);
    [apply half_installed_reachable|reflexivity|by left|by right].
Defined.
End SchedulerWatchdog.

(** ** What one probe may write, and its counters *)

Module ProbeEffects.
Import Scheduler.

(** The writes a probe of [row] may make: a compare-and-swap by the scheduler from
    the status it read, for the probed row, or the update of a row it read back with the
    outcome's status. *)
Definition guarded_write (row : Workspace) (e : wevent) : Prop :=
  match e with
  | Ev (RepoUpdateStatusCAS _ id wr ex nx _ _) _ =>
      id = w_ID row ∧ wr = StatusWriterScheduler ∧ ex = w_Status row ∧ nx ≠ ex ∧
      (nx = StatusHealthy ∨ nx = StatusFailed)
  | Ev (RepoUpdate _ w) _ => w_Status w = w_Status row
  | Ev (RepoDelete _ _) _ => False
  | _ => True
  end.

Lemma record_guarded c row nx e pt :
  nx = StatusHealthy ∨ nx = StatusFailed → always (guarded_write row) (recordProbeOutcome c row nx e pt).
Proof.
  intros Hnx. unfold recordProbeOutcome, deferred. cbn zeta. apply always_bind; [|by intros ??].
  destruct (decide (w_Status row ≠ nx)) as [Hne|Heq].
  - apply always_call_bind; [|done]. intros x. simpl. auto.
  - apply dec_stable in Heq. apply always_call_bind; [done|]. intros [latest|err]; [|done].
    destruct (decide (w_Status latest ≠ nx)) as [|Hl]; [done|]. apply dec_stable in Hl.
    apply always_call_bind; [done|]. intros now. apply always_call_bind; [|done].
    intros x. simpl. congruence.
Qed.

Lemma failed_guarded c row err : always (guarded_write row) (probe_failed c row err).
Proof.
  do 2 (apply always_call_bind; [done|intros ?]).
  apply always_bind; [by apply record_guarded; right|]. by intros ??.
Qed.

Lemma setup_guarded pc c row err : always (guarded_write row) (probe_setup_failed pc c row err).
Proof.
  apply always_bind; [|intros [|]; [done|apply failed_guarded]].
  apply always_call_bind; [done|]. intros [e|]; [|done]. by apply always_call_bind.
Qed.

Lemma result_guarded pc c row pt res err : always (guarded_write row) (probe_result pc c row pt res err).
Proof.
  apply always_call_bind; [done|]. intros e1. apply always_bind; [destruct e1; [by intros x|done]|].
  intros e2. destruct (match e1 with None => false | Some _ => is_err e2 Canceled end); [done|].
  apply always_bind; [destruct (is_err err Canceled); [by apply always_call_bind|done]|].
  intros [|]; [done|]. destruct err as [err|]; [|destruct (pr_Healthy res)].
  - apply always_call_bind; [done|]. intros now. apply always_bind; [by apply record_guarded; right|by intros ??].
  - apply always_bind; [by apply record_guarded; left|by intros ??].
  - apply always_call_bind; [done|]. intros now. apply always_bind; [by apply record_guarded; right|by intros ??].
Qed.

Lemma probe_guarded cfg c row : always (guarded_write row) (probeOne cfg c row).
Proof.
  apply always_call_bind; [done|]. intros _. apply always_call_bind; [done|]. intros [|]; cbn [negb];
    [|apply failed_guarded].
  apply always_bind; [|by intros ??]. apply always_call_bind; [done|].
  intros [ops|err]; [|apply setup_guarded]. apply always_call_bind; [done|].
  intros [[]|err]; [|apply setup_guarded]. apply always_call_bind; [done|]. intros [|]; cbn [negb];
    [|apply failed_guarded].
  apply always_call_bind; [done|]. intros pt. apply always_call_bind; [done|]. intros [res err].
  apply result_guarded.
Qed.
(** *** Counters *)

Definition outcomes (t : list wevent) : nat :=
  count_ev (counts ProbesHealthy) t + count_ev (counts ProbesFailed) t.
Definition attempted (t : list wevent) : nat := count_ev (counts ProbesAttempted) t.

(** Some context answered that it had ended. *)
Definition ended_ev (e : wevent) : bool := match e with Ev (CtxErr _) (Some _) => true | _ => false end.
Definition ended (t : list wevent) : Prop := Exists (λ e, ended_ev e = true) t.

(** No further attempt, and one outcome counted unless a context ended. *)
Definition accounted (t : list wevent) : Prop :=
  attempted t = 0 ∧ (outcomes t = 1 ∨ outcomes t = 0 ∧ ended t).

Definition plain (e : wevent) : Prop := ∀ k, counts k e = false.

Lemma plain_app t1 t2 : Forall plain t1 → accounted t2 → accounted (t1 ++ t2).
Proof.
  intros Hp [Ha Ho]. unfold accounted, attempted, outcomes in *. rewrite !count_ev_app.
  assert (∀ k, count_ev (counts k) t1 = 0) as Hz.
  { intros k. induction Hp as [|e t Hk _ IH]; [done|]. by rewrite count_ev_cons, Hk, IH. }
  rewrite !Hz. split; [done|]. destruct Ho as [Ho|[Ho He]]; [by left|right]. split; [done|].
  apply Exists_app. by right.
Qed.

Lemma plain_cons e t : plain e → accounted t → accounted (e :: t).
Proof. intros He. apply (plain_app [e]). by constructor. Qed.

Lemma app_plain t1 t2 : accounted t1 → Forall plain t2 → accounted (t1 ++ t2).
Proof.
  intros [Ha Ho] Hp. unfold accounted, attempted, outcomes in *. rewrite !count_ev_app.
  assert (∀ k, count_ev (counts k) t2 = 0) as Hz.
  { intros k. induction Hp as [|e t Hk _ IH]; [done|]. by rewrite count_ev_cons, Hk, IH. }
  rewrite !Hz, !Nat.add_0_r. split; [done|]. destruct Ho as [Ho|[Ho He]]; [by left|right]. split; [done|].
  apply Exists_app. by left.
Qed.

Lemma record_plain c row nx e pt : always plain (recordProbeOutcome c row nx e pt).
Proof.
  unfold recordProbeOutcome, deferred. cbn zeta. apply always_bind; [|by intros ??].
  destruct (decide (w_Status row ≠ nx)) as [Hne|Heq]; [by apply always_call_bind|].
  apply always_call_bind; [done|]. intros [latest|err]; [|done].
  destruct (decide (w_Status latest ≠ nx)) as [|Hl]; [done|].
  apply always_call_bind; [done|]. intros now. by apply always_call_bind.
Qed.

(** Recording an outcome and counting it. *)
Lemma recorded_accounted c row nx e pt k t :
  k = ProbesHealthy ∨ k = ProbesFailed →
  traces (_ ← recordProbeOutcome c row nx e pt; call (Count k)) t () → accounted t.
Proof.
  intros Hk (t1 & t2 & [] & -> & H1 & ->%traces_call)%traces_bind.
  apply plain_app; [by eapply always_Forall, H1; apply record_plain|].
  destruct Hk as [-> | ->]; (split; [done|by left]).
Qed.

Lemma failed_accounted c row err t : traces (probe_failed c row err) t () → accounted t.
Proof.
  intros (x & t1 & -> & (y & t2 & -> & Ht)%traces_call_bind)%traces_call_bind.
  do 2 (apply plain_cons; [done|]). eapply recorded_accounted, Ht. by right.
Qed.

Lemma both_done_plain pc c t b : traces (both_done pc c) t b → Forall plain t ∧ (b = true → ended t).
Proof.
  intros (e1 & t1 & -> & Ht)%traces_call_bind. destruct e1 as [e1|].
  - apply traces_call_bind in Ht as (e2 & t2 & -> & [-> ->]%traces_mret).
    split; [by repeat constructor|]. intros _. by left.
  - apply traces_mret in Ht as [-> ->]. split; [by repeat constructor|done].
Qed.

Lemma ended_accounted t : Forall plain t → ended t → accounted t.
Proof.
  intros Hp He.
  assert (∀ k, count_ev (counts k) t = 0) as Hz.
  { intros k. clear He. induction Hp as [|e t Hk _ IH]; [done|]. by rewrite count_ev_cons, Hk, IH. }
  unfold accounted, attempted, outcomes. rewrite !Hz. split; [done|]. by right.
Qed.

Lemma setup_accounted pc c row err t : traces (probe_setup_failed pc c row err) t () → accounted t.
Proof.
  intros (t1 & t2 & b & -> & [Hp He]%both_done_plain & Ht)%traces_bind. destruct b.
  - apply traces_mret in Ht as [-> _]. rewrite app_nil_r. by apply ended_accounted; [|apply He].
  - apply plain_app; [done|]. by eapply failed_accounted.
Qed.

Lemma result_accounted pc c row pt res err t : traces (probe_result pc c row pt res err) t () → accounted t.
Proof.
  intros (e1 & t1 & -> & Ht)%traces_call_bind.
  apply traces_bind in Ht as (t2 & t3 & e2 & -> & H2 & Ht).
  assert (Forall plain t2) as Hp2.
  { destruct e1; [apply traces_call in H2 as ->; by constructor|by apply traces_mret in H2 as [-> _]]. }
  destruct (match e1 with None => false | Some _ => is_err e2 Canceled end) eqn:Hc.
  { apply traces_mret in Ht as [-> _]. rewrite app_nil_r. destruct e1 as [e1|]; [|done].
    apply ended_accounted; [by constructor|by left]. }
  rewrite app_comm_cons. apply plain_app; [by constructor|].
  apply traces_bind in Ht as (t4 & t5 & b & -> & H4 & Ht).
  assert (Forall plain t4 ∧ (b = true → ended t4)) as [Hp4 He4].
  { destruct (is_err err Canceled); [|apply traces_mret in H4 as [-> ->]; by split].
    apply traces_call_bind in H4 as (e & t6 & -> & [-> ->]%traces_mret).
    split; [by constructor|]. destruct e; [intros _; by left|done]. }
  destruct b.
  { apply traces_mret in Ht as [-> _]. rewrite app_nil_r. by apply ended_accounted; [|apply He4]. }
  apply plain_app; [done|]. destruct err as [err|]; [|destruct (pr_Healthy res)].
  - apply traces_call_bind in Ht as (now & t6 & -> & Ht). apply plain_cons; [done|].
    eapply recorded_accounted, Ht. by right.
  - eapply recorded_accounted, Ht. by left.
  - apply traces_call_bind in Ht as (now & t6 & -> & Ht). apply plain_cons; [done|].
    eapply recorded_accounted, Ht. by right.
Qed.

(** C32. A probe writes only what it observed and is counted once: every repository
    write is the scheduler's compare-and-swap from the status the probed row was
    read with, to healthy or failed, or the update of the row as read back with that
    same status; the attempt is counted exactly once, and exactly one outcome is
    counted unless a context had ended, in which case none may be. *)
Theorem probe_effects (cfg : settings) (c : ctx) (row : Workspace) (t : list wevent) :
  traces (probeOne cfg c row) t () →
  Forall (guarded_write row) t ∧ attempted t = 1 ∧ outcomes t ≤ 1 ∧ (outcomes t = 0 → ended t).
Proof.
  intros Ht. split; [eapply always_Forall; [apply (probe_guarded cfg c row)|exact Ht]|].
  apply traces_call_bind in Ht as (u & t1 & -> & Ht).
  assert (accounted t1) as [Ha Ho].
  { apply traces_call_bind in Ht as (known & t2 & -> & Ht). apply plain_cons; [done|].
    destruct known; cbn [negb] in Ht; [|by eapply failed_accounted].
    apply traces_bind in Ht as (t3 & t4 & [] & -> & Ht & H4). apply app_plain.
    2: { apply traces_call_bind in H4 as (x & t5 & -> & [-> _]%traces_mret). by constructor. }
    apply traces_call_bind in Ht as ([ops|err] & t5 & -> & Ht);
      (apply plain_cons; [done|]); [|by eapply setup_accounted].
    apply traces_call_bind in Ht as ([[]|err] & t6 & -> & Ht);
      (apply plain_cons; [done|]); [|by eapply setup_accounted].
    apply traces_call_bind in Ht as (known & t7 & -> & Ht). apply plain_cons; [done|].
    destruct known; cbn [negb] in Ht; [|by eapply failed_accounted].
    apply traces_call_bind in Ht as (pt & t8 & -> & Ht). apply plain_cons; [done|].
    apply traces_call_bind in Ht as ([res err] & t9 & -> & Ht). apply plain_cons; [done|].
    by eapply result_accounted. }
  unfold attempted, outcomes in *. rewrite !count_ev_cons. simpl. split_and!; [lia|lia|].
  intros Hz. destruct Ho as [Ho|[_ He]]; [lia|]. by right.
Qed.

Definition probe_run : list wevent :=
  (run (tracer all_good) (probeOne SchedulerWatchdog.sample_settings (CtxParent 0)
     (WorkspaceRepoSpec.sample_row "wsp_1" "default" "alpha" StatusFailed)) []).2.

Lemma probe_effects_witness :
  outcomes probe_run = 1 ∧ attempted probe_run = 1 ∧
  Forall (guarded_write (WorkspaceRepoSpec.sample_row "wsp_1" "default" "alpha" StatusFailed)) probe_run.
Proof.
  split; [reflexivity|].
  destruct (probe_effects SchedulerWatchdog.sample_settings (CtxParent 0)
    (WorkspaceRepoSpec.sample_row "wsp_1" "default" "alpha" StatusFailed) probe_run) as (Hg & Ha & _);
    [|by split].
  apply (run_tracer all_good). vm_compute. reflexivity.
Defined.
End ProbeEffects.


(** ** The worker pool *)

Module PoolSpec.
Import Scheduler.

Definition probing (w : worker) : list Workspace := match w with Probing row => [row] | _ => [] end.
Definition in_flight (p : pool) : list Workspace := mjoin (probing <$> pool_workers p).

#[global] Instance worker_eq_dec_gone w : Decision (w = Gone).
Proof. destruct w; (left; done) || (right; done). Defined.

Definition worker_rank (w : worker) : nat := match w with Gone => 0 | Ready => 1 | Probing _ => 2 end.
Definition ranks (ws : list worker) : nat := sum_list_with worker_rank ws.

(** Strictly decreases with every step. *)
Definition pool_rank (p : pool) : nat :=
  2 * length (rows_left p) + (if jobs_closed p then 0 else 1) + ranks (pool_workers p).

Record pool_inv (rows : list Workspace) (n : nat) (p : pool) : Prop := {
  pi_rows : in_flight p ++ probed p ++ rows_left p ≡ₚ rows;
  pi_len : length (pool_workers p) = n;
  pi_open : jobs_closed p = false → Forall (λ w, w ≠ Gone) (pool_workers p);
}.

Lemma in_flight_insert ws i w w' :
  ws !! i = Some w →
  probing w ++ mjoin (probing <$> <[i := w']> ws) ≡ₚ probing w' ++ mjoin (probing <$> ws).
Proof.
  revert i. induction ws as [|x ws IH]; intros [|i]; [done..| |]; cbn.
  - intros [= ->]. solve_Permutation.
  - intros Hi. specialize (IH _ Hi). rewrite !(assoc_L (++)), (Permutation_app_comm (probing w)).
    rewrite <-(assoc_L (++)), IH. solve_Permutation.
Qed.

Lemma ranks_insert ws i w w' :
  ws !! i = Some w → worker_rank w + ranks (<[i := w']> ws) = worker_rank w' + ranks ws.
Proof.
  unfold ranks. revert i. induction ws as [|x ws IH]; intros [|i] Hi; try done; simpl in *.
  - simplify_eq. lia.
  - specialize (IH _ Hi). lia.
Qed.

Lemma in_flight_le ws : length (mjoin (probing <$> ws)) ≤ length ws.
Proof.
  induction ws as [|w ws IH]; [done|]. csimpl. rewrite length_app.
  destruct w; cbn [probing length]; lia.
Qed.

Definition any_step (p p' : pool) : Prop := pool_step p p' ∨ cancel_step p p'.

Lemma any_step_inv rows n p p' : any_step p p' → pool_inv rows n p → pool_inv rows n p'.
Proof.
  intros [[q row rs i Hc Hl Hi|q row i Hi|q Hc Hl|q i Hc Hi]|[q row rs Hc Hl]] [Hrows Hlen Hopen];
    unfold in_flight in *; split; cbn in *;
    rewrite ?length_insert; try done.
  - rewrite <-Hrows, Hl. pose proof (in_flight_insert _ _ _ (Probing row) Hi) as Hp. simpl in Hp.
    rewrite Hp. solve_Permutation.
  - intros _. by apply Forall_insert; [apply Hopen|].
  - rewrite <-Hrows. pose proof (in_flight_insert _ _ _ Ready Hi) as Hp. simpl in Hp.
    rewrite <-Hp. solve_Permutation.
  - intros Hc. by apply Forall_insert; [apply Hopen|].
  - by rewrite <-Hrows, Hl.
  - pose proof (in_flight_insert _ _ _ Gone Hi) as Hp. simpl in Hp. by rewrite Hp.
  - intros Hf. congruence.
Qed.

Lemma any_step_rank p p' : any_step p p' → pool_rank p' < pool_rank p.
Proof.
  unfold pool_rank.
  intros [[q row rs i Hc Hl Hi|q row i Hi|q Hc Hl|q i Hc Hi]|[q row rs Hc Hl]];
    cbn [rows_left jobs_closed pool_workers]; rewrite ?Hc, ?Hl; simpl length; try lia.
  - pose proof (ranks_insert _ _ _ (Probing row) Hi). cbn [worker_rank] in *. lia.
  - pose proof (ranks_insert _ _ _ Ready Hi). cbn [worker_rank] in *. lia.
  - pose proof (ranks_insert _ _ _ Gone Hi). cbn [worker_rank] in *. lia.
Qed.

Lemma start_inv workers rows :
  pool_inv rows (Z.to_nat (workerCount workers rows)) (start_pool workers rows).
Proof.
  split; cbn; [|by rewrite length_replicate|intros _; by apply Forall_replicate].
  unfold in_flight. cbn. by induction (Z.to_nat _).
Qed.

(** A pool with workers that is not finished can take a step of its own. *)
Lemma pool_progress rows n p :
  0 < n → pool_inv rows n p → ¬ pool_finished p → ∃ p', pool_step p p'.
Proof.
  intros Hn [_ Hlen Hopen] Hnf. destruct (jobs_closed p) eqn:Hc.
  - assert (¬ Forall (λ w, w = Gone) (pool_workers p)) as Hw by (intros H; by apply Hnf).
    apply not_Forall_Exists in Hw; [|apply _].
    apply Exists_exists in Hw as ([|row|] & [i Hi]%list_elem_of_lookup & Hg); [| |by destruct Hg].
    + eexists. by eapply worker_gone.
    + eexists. by eapply probe_done.
  - destruct (rows_left p) as [|row rs] eqn:Hl; [eexists; by apply close_all|].
    destruct (lookup_lt_is_Some_2 (pool_workers p) 0) as [w Hw]; [lia|].
    pose proof (proj1 (Forall_lookup _ _) (Hopen eq_refl) _ _ Hw) as Hg. destruct w as [|r|]; [| |done].
    + eexists. by eapply hand_over.
    + eexists. by eapply probe_done.
Qed.

Lemma steps_inv rows n p p' : rtc any_step p p' → pool_inv rows n p → pool_inv rows n p'.
Proof. induction 1 as [|? ? ? Hs _ IH]; [done|]. intros Hi. by eapply IH, any_step_inv. Qed.

(** Without a cancellation the channel is closed only when no row is left. *)
Lemma closed_means_done p p' :
  rtc pool_step p p' → (jobs_closed p = true → rows_left p = []) → jobs_closed p' = true → rows_left p' = [].
Proof.
  induction 1 as [|? ? ? Hs _ IH]; [done|]. intros H0. apply IH.
  destruct Hs; cbn in *; intros; try done; by apply H0.
Qed.

(** C33. The pool of a tick probes every row exactly once: at every moment each row
    is with one worker, done, or not yet handed out, never twice; at most as many rows are
    in flight as there are workers; every schedule, cancelled or not, is finite and
    the pool is never stuck before it has finished; and when it has finished
    without a cancellation, the probed rows are the tick's rows. *)
Theorem pool_probes_once (workers : Z) (rows : list Workspace) (p : pool) :
  rows ≠ [] → (0 < workers)%Z → rtc any_step (start_pool workers rows) p →
  in_flight p ++ probed p ++ rows_left p ≡ₚ rows ∧
  (Z.of_nat (length (in_flight p)) ≤ workers)%Z ∧
  (∀ p', any_step p p' → pool_rank p' < pool_rank p) ∧
  (pool_finished p ∨ ∃ p', pool_step p p') ∧
  (pool_finished p → probed p ++ rows_left p ≡ₚ rows) ∧
  (rtc pool_step (start_pool workers rows) p → pool_finished p → probed p ≡ₚ rows).
Proof.
  intros Hne Hw Hr. pose proof (steps_inv _ _ _ _ Hr (start_inv workers rows)) as Hinv.
  pose proof (pi_rows _ _ _ Hinv) as Hrows. pose proof (pi_len _ _ _ Hinv) as Hlen.
  assert (0 < length rows) as Hl by (destruct rows; simpl; [done|lia]).
  assert (pool_finished p → in_flight p = []) as Hfin.
  { intros [_ Hg]. unfold in_flight. clear Hinv Hrows Hlen Hr.
    induction Hg as [|w ws -> _ IH]; [done|]. exact IH. }
  unfold workerCount in Hlen. split_and!; [done| | | | |].
  - pose proof (in_flight_le (pool_workers p)). unfold in_flight. lia.
  - intros p' Hs. by apply any_step_rank.
  - destruct (decide (jobs_closed p = true ∧ Forall (λ w, w = Gone) (pool_workers p))) as [Hf|Hnf].
    + by left.
    + right. eapply pool_progress; [|exact Hinv|done]. unfold workerCount. lia.
  - intros Hf. by rewrite <-Hrows, Hfin.
  - intros Hp Hf. rewrite <-Hrows, (Hfin Hf). destruct Hf as [Hc _].
    by rewrite (closed_means_done _ _ Hp), app_nil_r.
Qed.

Definition two_rows : list Workspace :=
  [WorkspaceRepoSpec.sample_row "wsp_1" "default" "alpha" StatusHealthy;
   WorkspaceRepoSpec.sample_row "wsp_2" "default" "beta" StatusFailed].

Definition sample_pool : pool := {|
  rows_left := []; jobs_closed := true; pool_workers := [Gone]; probed := two_rows |}.

Lemma sample_pool_reached : rtc pool_step (start_pool 1 two_rows) sample_pool.
Proof.
  do 2 (eapply rtc_l; [eapply (hand_over _ _ _ 0); reflexivity|];
        eapply rtc_l; [eapply (probe_done _ _ 0); reflexivity|]).
  eapply rtc_l; [apply close_all; reflexivity|].
  eapply rtc_l; [eapply (worker_gone _ 0); reflexivity|]. reflexivity.
Qed.

Lemma pool_probes_once_witness : pool_finished sample_pool ∧ probed sample_pool ≡ₚ two_rows.
Proof.
  assert (pool_finished sample_pool) as Hf by (split; [done|by constructor]). split; [done|].
  destruct (pool_probes_once 1 two_rows sample_pool) as (_ & _ & _ & _ & _ & H); [done|lia| |].
  - eapply rtc_subrel; [|apply sample_pool_reached]. by left.
  - apply H; [apply sample_pool_reached|done].
Defined.
End PoolSpec.
