(* ===== verification/SchedulerLoop.v ===== *)
(** * The probe scheduler's loop (pkg/manager/workspace/scheduler.go, [loop])

    A ticker that holds at most one tick, the loop that runs a tick for it and looks for
    another one behind it, and the clients that start and stop the scheduler. What a
    tick does is in [Scheduler]; here it is a span of time. [loop_spec]: ticks run one at
    a time, between start and stop, and an overrun is counted exactly for a tick that the
    ticker fired in. *)

From S2P Require Import Prelude GoError WorkspaceTypes Scheduler.
From stdpp Require Import options.
Set Default Proof Using "Type*".

Module SchedulerLoop.
Import Scheduler.

(** Where the loop's goroutine is: not started; at its [select]; in [runTick]; behind it,
    at the [select] with the default; returned. *)
Inductive loop_at := NotStarted | Selecting | Ticking | Behind | Exited.

Record sched := {
  l_life : life;
  l_at : loop_at;
  l_tick : bool;             (* a tick waits in [ticker.C] *)
  l_run : nat;               (* ticksRun *)
  l_overruns : nat;
  l_fired : nat;             (* how often the ticker fired *)
  l_since : bool;            (* it fired since the current tick was taken *)
}.

Definition new_sched : sched :=
  {| l_life := {| started := false; stopped := false; cancelled := false; loop := NoLoop |};
     l_at := NotStarted; l_tick := false; l_run := 0; l_overruns := 0; l_fired := 0; l_since := false |}.

Definition set_place (s : sched) (l : life) (a : loop_at) : sched :=
  {| l_life := l; l_at := a; l_tick := l_tick s; l_run := l_run s; l_overruns := l_overruns s; l_fired := l_fired s;
     l_since := l_since s |}.

(** The loop is looping while its goroutine has not returned. *)
Definition place_of (l : life) : loop_at :=
  match loop l with NoLoop => NotStarted | Looping => Selecting | LoopDone => Exited end.

Inductive loop_label := Fired | Overrun | TickTaken | OtherStep.

Inductive loop_step (s : sched) : loop_label → sched → Prop :=
| l_start : loop (l_life s) = NoLoop → loop_step s OtherStep (set_place s (Start (l_life s)).2 (place_of (Start (l_life s)).2))
| l_start_again : loop (l_life s) ≠ NoLoop → loop_step s OtherStep (set_place s (Start (l_life s)).2 (l_at s))
| l_stop : loop_step s OtherStep (set_place s (Stop (l_life s)).2 (l_at s))
| l_fire : l_at s ≠ NotStarted → l_at s ≠ Exited →
    loop_step s Fired {| l_life := l_life s; l_at := l_at s; l_tick := true; l_run := l_run s; l_overruns := l_overruns s;
                         l_fired := S (l_fired s); l_since := true |}
| l_exit : l_at s = Selecting → cancelled (l_life s) = true →
    loop_step s OtherStep (set_place s (loop_exit (l_life s)) Exited)
| l_take : l_at s = Selecting → l_tick s = true →
    loop_step s TickTaken {| l_life := l_life s; l_at := Ticking; l_tick := false; l_run := S (l_run s);
                             l_overruns := l_overruns s; l_fired := l_fired s; l_since := false |}
| l_ticked : l_at s = Ticking → loop_step s OtherStep (set_place s (l_life s) Behind)
| l_overrun : l_at s = Behind → l_tick s = true →
    loop_step s Overrun {| l_life := l_life s; l_at := Selecting; l_tick := false; l_run := l_run s;
                           l_overruns := S (l_overruns s); l_fired := l_fired s; l_since := l_since s |}
| l_on_time : l_at s = Behind → l_tick s = false → loop_step s OtherStep (set_place s (l_life s) Selecting).

Definition reachable : sched → Prop := rtc (λ s s', ∃ l, loop_step s l s') new_sched.

(** ** The invariant *)

Record loop_inv (s : sched) : Prop := {
  li_loop : match loop (l_life s) with
            | NoLoop => l_at s = NotStarted
            | Looping => l_at s ≠ NotStarted ∧ l_at s ≠ Exited
            | LoopDone => l_at s = Exited
            end;
  li_started : started (l_life s) = true ↔ loop (l_life s) ≠ NoLoop;
  li_stopped : cancelled (l_life s) = true → stopped (l_life s) = true ∧ started (l_life s) = true;
  li_done : loop (l_life s) = LoopDone → cancelled (l_life s) = true;
  li_running : stopped (l_life s) = true → started (l_life s) = true → cancelled (l_life s) = true;
  li_since : l_at s = Ticking ∨ l_at s = Behind → l_tick s = l_since s;
  li_fired : l_run s + l_overruns s + (if l_tick s then 1 else 0) ≤ l_fired s;
  li_overruns : l_overruns s + (match l_at s with Ticking | Behind => 1 | _ => 0 end) ≤ l_run s;
  li_fresh : l_at s = NotStarted → l_run s = 0;
}.

Lemma new_sched_inv : loop_inv new_sched.
Proof. split; simpl; try done; try lia. Qed.

Lemma loop_inv_step s l s' : loop_inv s → loop_step s l s' → loop_inv s'.
Proof.
  intros [H1 H2 H3 H4 H5 H6 H7 H8 H9] Hs. destruct Hs.
  all: destruct s as [[st sp ca lo] at_ tk run ov fi si]; simpl in *; subst.
  all: unfold Start, Stop, loop_exit, set_place, place_of; simpl.
  all: try destruct lo; destruct sp, st; try destruct at_; simpl in *; try done; try (by destruct H1).
  all: try (exfalso; intuition congruence).
  all: split; simpl; try done; try lia; try (intuition (congruence || lia)).
Qed.

Lemma reachable_loop_inv s : reachable s → loop_inv s.
Proof.
  unfold reachable. intros H. remember new_sched as s0 eqn:E. assert (loop_inv s0) as H0 by (subst; apply new_sched_inv).
  clear E. induction H as [s|s s1 s2 [l Hs] _ IH]; [done|]. by eapply IH, loop_inv_step.
Qed.

(** What [Stop] waits for: the scheduler was never started, or its loop has returned. *)
Definition quiet (s : sched) : Prop :=
  stopped (l_life s) = true ∧ (started (l_life s) = false ∨ loop (l_life s) = LoopDone).

Lemma quiet_place s : loop_inv s → quiet s → l_at s = NotStarted ∨ l_at s = Exited.
Proof.
  intros [H1 H2 _ _ _ _ _ _ _] [_ [Hs|Hd]].
  - left. destruct (loop (l_life s)); [done|exfalso..]; assert (started (l_life s) = true) by (by apply H2); congruence.
  - rewrite Hd in H1. by right.
Qed.

Lemma quiet_step s l s' : loop_inv s → quiet s → loop_step s l s' → quiet s' ∧ l_run s' = l_run s.
Proof.
  intros Hi Hq Hs. destruct (quiet_place s Hi Hq) as [Hp|Hp]; destruct Hq as [Hst Hl];
    destruct Hs; simpl in *; try congruence; (split; [|done]); unfold quiet, Start, Stop; simpl; rewrite ?Hst; by split.
Qed.

Lemma quiet_stays s s' : loop_inv s → quiet s → rtc (λ s s', ∃ l, loop_step s l s') s s' → l_run s' = l_run s.
Proof.
  intros Hi Hq H. induction H as [s|s s1 s2 [l Hs] _ IH]; [done|].
  destruct (quiet_step _ _ _ Hi Hq Hs) as [Hq' <-]. apply IH; [by eapply loop_inv_step|done].
Qed.

(** However the ticker, the loop and the clients of a scheduler interleave: every
    tick that runs and every overrun that is counted answers a firing of the ticker of its
    own, and a tick counts at most one overrun; a tick is followed by an overrun exactly
    when the ticker fired after it was taken. When [Stop] returns without an error no tick
    is running, and none will run. After [Stop] the loop can return as soon as its tick is
    over. *)
Theorem loop_spec (s : sched) :
  reachable s →
  (l_run s + l_overruns s ≤ l_fired s ∧ l_overruns s ≤ l_run s) ∧
  (l_at s = Behind → (∃ s', loop_step s Overrun s') ↔ l_since s = true) ∧
  (quiet s → l_at s ≠ Ticking ∧ ∀ s', rtc (λ s s', ∃ l, loop_step s l s') s s' → l_run s' = l_run s) ∧
  (stopped (l_life s) = true → l_at s = Selecting → ∃ s', loop_step s OtherStep s' ∧ quiet s').
Proof.
  intros Hr%reachable_loop_inv. pose proof Hr as [H1 H2 H3 H4 H5 H6 H7 H8 H9]. split_and!.
  - lia.
  - lia.
  - intros Hb. rewrite <-(H6 (or_intror Hb)). split.
    + intros [s' Hs]. by inversion Hs.
    + intros Ht. eexists. by apply l_overrun.
  - intros Hq. destruct (quiet_place s Hr Hq) as [-> | ->]; (split; [done|]); intros s'; by apply quiet_stays.
  - intros Hst Hsel. assert (loop (l_life s) = Looping) as Hl.
    { destruct (loop (l_life s)) eqn:E; [congruence|done|congruence]. }
    assert (started (l_life s) = true) as Hs by (apply H2; congruence). specialize (H5 Hst Hs).
    eexists. split; [by apply l_exit|]. split; simpl; unfold loop_exit; rewrite Hl, H5; [done|by right].
Qed.

(** *** A tick that takes longer than the interval *)

Definition late_sched : sched :=
  {| l_life := {| started := true; stopped := false; cancelled := false; loop := Looping |}; l_at := Behind;
     l_tick := true; l_run := 1; l_overruns := 0; l_fired := 2; l_since := true |}.

Lemma late_reached : reachable late_sched.
Proof.
  unfold reachable. eapply rtc_l; [eexists; by eapply l_start|].
  eapply rtc_l; [eexists; by eapply l_fire|]. eapply rtc_l; [eexists; by eapply l_take|].
  eapply rtc_l; [eexists; by eapply l_fire|]. eapply rtc_l; [eexists; by eapply l_ticked|]. apply rtc_refl.
Qed.

Lemma loop_spec_witness : ∃ s', loop_step late_sched Overrun s'.
Proof. refine (proj2 (proj1 (proj2 (loop_spec late_sched late_reached)) eq_refl) eq_refl). Defined.
End SchedulerLoop.
