(* ===== verification/ManagerTypes.v ===== *)
(** * The manager's public types (pkg/manager/types.go, pkg/manager/idgen.go)

    Requests, the public views of rows, the validators, the package's clone helpers
    and the identifiers it generates. *)

From S2P Require Import Prelude GoString GoError GoValue GoPath WorkspaceTypes PluginTypes.
From Stdlib Require Import Ascii.
From stdpp Require Import options.

Definition ErrDuplicatePluginRef : error := ENew "manager: duplicate plugin ref".
Definition ErrWorkspaceDirConflict : error := ENew "manager: workspace dir conflict".
Definition ErrShutdown : error := ENew "manager: shutdown".
Definition ErrUnsupportedDownloadURL : error := ENew "manager: unsupported download URL".

(** ** Requests *)

(** An [io.Reader] given by a client: what each of its reads delivers, in order, and
    how it ends ([None] is [io.EOF]). *)
Record content := {
  cn_chunks : list string;
  cn_err : option error;
}.

Record CreatePluginRequest := {
  cp_Namespace : Namespace;
  cp_Name : string;
  cp_Description : string;
  cp_Content : option content;    (* an interface, possibly nil *)
}.

Record ListPluginsOptions := {
  lp_Namespace : Namespace;
  lp_NameLike : string;
  lp_Limit : Z;
  lp_Cursor : string;
}.

Record DownloadURLOptions := { du_TTL : Z }.

Record PluginRef := { ref_ID : PluginID }.

Record CreateWorkspaceRequest := {
  cw_Namespace : Namespace;
  cw_Alias : Alias;
  cw_AgentType : AgentType;
  cw_InfraType : InfraType;
  cw_InfraOptions : gomap any;
  cw_InstallParams : gomap any;
  cw_Plugins : list PluginRef;
  cw_Description : string;
  cw_Labels : gomap string;
}.

Record ListWorkspacesOptions := {
  lw_Namespace : Namespace;
  lw_AgentType : AgentType;
  lw_InfraType : InfraType;
  lw_Status : Status;
  lw_Labels : gomap string;
  lw_Limit : Z;
  lw_Cursor : string;
}.

(** ** Validation *)

Definition defaultNamespace : Namespace := "default".

Definition namespacePattern (s : string) : bool :=
  matches_class (λ c, is_lower c || is_digit c || is_dash c) 1 32 s.
Definition aliasPattern (s : string) : bool :=
  matches_head_class (λ c, is_upper c || is_lower c)
    (λ c, is_upper c || is_lower c || is_digit c || is_underscore c || is_dash c) 0 63 s.

Definition normalizeNamespace (namespace : Namespace) : Namespace :=
  if decide (namespace = "") then defaultNamespace else namespace.

Definition validateNamespace (namespace : Namespace) : result unit :=
  if namespacePattern namespace then Ok ()
  else Err (Errorf ("invalid namespace " +:+ strconv_Quote namespace)).

Definition validateAlias (alias : Alias) : result unit :=
  if aliasPattern alias then Ok () else Err (Errorf ("invalid alias " +:+ strconv_Quote alias)).

Definition validateDescription (description : string) : result unit :=
  if decide (1024 < Z.of_nat (String.length description))%Z
  then Err (Errorf "description exceeds 1024 chars") else Ok ().

(** ** Public views

    The manager has its own copies of the row types; times and identifiers convert
    as they are. *)

Module View.

Record Plugin := {
  ID : PluginID;
  Namespace_ : Namespace;
  Name : string;
  Description : string;
  Manifest_ : Manifest;
  ContentHash : string;
  Size : Z;
  CreatedAt : Time;
  UpdatedAt : Time;
}.

Record WorkspaceError := {
  Code : string;
  Message : string;
  Phase : string;
  RecordedAt : Time;
}.

Record AttachedPlugin := {
  at_PluginID : PluginID;
  at_Name : string;
  at_ContentHash : string;
  at_PlacedPaths : list string;
}.

Record Workspace := {
  v_ID : WorkspaceID;
  v_Namespace : Namespace;
  v_Alias : Alias;
  v_AgentType : AgentType;
  v_InfraType : InfraType;
  v_InfraOptions : gomap any;
  v_InstallParams : gomap any;
  v_Plugins : list AttachedPlugin;
  v_Status : Status;
  v_StatusError : option WorkspaceError;
  v_Description : string;
  v_Labels : gomap string;
  v_LastProbeAt : Time;
  v_CreatedAt : Time;
  v_UpdatedAt : Time;
}.

Definition cloneManifestEntries (m : gomap ManifestEntry) : gomap ManifestEntry :=
  gm_map (λ e, e) m.

(** The manager's [cloneManifest] clones metadata with the unbounded [cloneMapAny]. *)
Definition cloneManifest (m : Manifest) : Manifest := {|
  mf_SchemaVersion := mf_SchemaVersion m;
  mf_Plugin := {| mp_Name := mp_Name (mf_Plugin m);
                  mp_Description := mp_Description (mf_Plugin m);
                  mp_Metadata := cloneMapAny (mp_Metadata (mf_Plugin m)) |};
  mf_Skills := cloneManifestEntries (mf_Skills m);
  mf_Rules := cloneManifestEntries (mf_Rules m);
  mf_Hooks := cloneManifestEntries (mf_Hooks m);
  mf_Subagents := cloneManifestEntries (mf_Subagents m);
  mf_MCPs := cloneManifestEntries (mf_MCPs m) |}.

Definition clonePluginValue (p : Plugin) : Plugin := {|
  ID := ID p; Namespace_ := Namespace_ p; Name := Name p; Description := Description p;
  Manifest_ := cloneManifest (Manifest_ p); ContentHash := ContentHash p; Size := Size p;
  CreatedAt := CreatedAt p; UpdatedAt := UpdatedAt p |}.

(** Elements are copied; a non-empty list of paths is copied too. *)
Definition cloneAttachedPlugins (l : list AttachedPlugin) : list AttachedPlugin :=
  match l with
  | [] => []
  | _ => (λ p, {| at_PluginID := at_PluginID p; at_Name := at_Name p;
                  at_ContentHash := at_ContentHash p; at_PlacedPaths := at_PlacedPaths p |}) <$> l
  end.

Definition cloneWorkspaceError (e : option WorkspaceError) : option WorkspaceError :=
  match e with
  | None => None
  | Some e => Some {| Code := Code e; Message := Message e; Phase := Phase e; RecordedAt := RecordedAt e |}
  end.

Definition cloneWorkspaceValue (w : Workspace) : Workspace := {|
  v_ID := v_ID w; v_Namespace := v_Namespace w; v_Alias := v_Alias w;
  v_AgentType := v_AgentType w; v_InfraType := v_InfraType w;
  v_InfraOptions := cloneMapAny (v_InfraOptions w);
  v_InstallParams := cloneMapAny (v_InstallParams w);
  v_Plugins := cloneAttachedPlugins (v_Plugins w);
  v_Status := v_Status w; v_StatusError := cloneWorkspaceError (v_StatusError w);
  v_Description := v_Description w; v_Labels := cloneLabels (v_Labels w);
  v_LastProbeAt := v_LastProbeAt w; v_CreatedAt := v_CreatedAt w; v_UpdatedAt := v_UpdatedAt w |}.

(** *** From rows (manager.go) *)

Definition workspaceErrorFromRow (e : option WorkspaceTypes.WorkspaceError) : option WorkspaceError :=
  match e with
  | None => None
  | Some e => Some {| Code := we_Code e; Message := we_Message e; Phase := we_Phase e;
                      RecordedAt := we_RecordedAt e |}
  end.

Definition pluginFromRow (row : PluginTypes.Plugin) : Plugin :=
  clonePluginValue {|
    ID := p_ID row; Namespace_ := p_Namespace row; Name := p_Name row;
    Description := p_Description row; Manifest_ := cloneManifest (p_Manifest row);
    ContentHash := p_ContentHash row; Size := p_Size row;
    CreatedAt := p_CreatedAt row; UpdatedAt := p_UpdatedAt row |}.

Definition workspaceFromRow (row : WorkspaceTypes.Workspace) : Workspace :=
  let attached := (λ item, {|
    at_PluginID := ap_PluginID item; at_Name := ap_Name item;
    at_ContentHash := ap_ContentHash item; at_PlacedPaths := ap_PlacedPaths item |}) <$> w_Plugins row in
  cloneWorkspaceValue {|
    v_ID := w_ID row; v_Namespace := w_Namespace row; v_Alias := w_Alias row;
    v_AgentType := w_AgentType row; v_InfraType := w_InfraType row;
    v_InfraOptions := cloneMapAny (w_InfraOptions row);
    v_InstallParams := cloneMapAny (w_InstallParams row);
    v_Plugins := attached; v_Status := w_Status row;
    v_StatusError := workspaceErrorFromRow (w_StatusError row);
    v_Description := w_Description row; v_Labels := cloneLabels (w_Labels row);
    v_LastProbeAt := w_LastProbeAt row; v_CreatedAt := w_CreatedAt row;
    v_UpdatedAt := w_UpdatedAt row |}.
End View.

(** ** Generated identifiers

    [randomToken]: the base32 text, without padding and in lower case, of 16 random
    bytes: 25 groups of five bits and a last one of three bits padded with zeros. *)

Definition idEntropyBytes : nat := 16.

(** The lower-cased alphabet of [base32.StdEncoding]. *)
Definition base32_digit (d : nat) : ascii := ascii_of_nat (if decide (d < 26) then 97 + d else 24 + d).

Fixpoint byte_bits (n k : nat) : list bool :=
  match k with
  | 0 => []
  | S k' => Nat.testbit n k' :: byte_bits n k'
  end.

Definition bits_of (s : string) : list bool :=
  mjoin ((λ c, byte_bits (nat_of_ascii c) 8) <$> String.list_ascii_of_string s).

Definition bits_value (b : list bool) : nat := fold_left (λ n (x : bool), 2 * n + if x then 1 else 0) b 0.

Fixpoint base32_groups (fuel : nat) (b : list bool) : string :=
  match fuel, b with
  | S fuel', _ :: _ =>
    String (base32_digit (bits_value (take 5 (b ++ replicate 4 false)))) (base32_groups fuel' (drop 5 b))
  | _, _ => EmptyString
  end.

(** The groups consume five bits each, so the number of bits is fuel enough. *)
Definition base32_lower (s : string) : string := base32_groups (length (bits_of s)) (bits_of s).

Example base32_ex1 : base32_lower "foobar" = "mzxw6ytboi".
Proof. reflexivity. Qed.
Example base32_ex2 : base32_lower "f" = "my".
Proof. reflexivity. Qed.

Definition PluginIDOf (entropy : string) : PluginID := "plg_" +:+ base32_lower entropy.
Definition WorkspaceIDOf (entropy : string) : WorkspaceID := "wsp_" +:+ base32_lower entropy.

(** ** Facts *)

Lemma validateNamespace_ok ns u : validateNamespace ns = Ok u → namespacePattern ns = true.
Proof. unfold validateNamespace. by destruct (namespacePattern ns). Qed.

(** A valid namespace has no NUL byte, which is what listing cursors rely on. *)
Lemma namespace_no_nul ns : namespacePattern ns = true → has_byte "000"%char ns = false.
Proof.
  unfold namespacePattern, matches_class. intros [Hc _]%andb_true_iff.
  by eapply all_chars_has_byte.
Qed.

Lemma cloneAttachedPlugins_view l : View.cloneAttachedPlugins l = l.
Proof.
  destruct l as [|p l]; [done|]. unfold View.cloneAttachedPlugins.
  rewrite (list_fmap_ext _ id), list_fmap_id; [done|]. by intros i [].
Qed.
