(* ===== verification/Manager.v ===== *)
(** * The manager facade (pkg/manager/manager.go)

    Every public method is a procedure over the manager's calls: those of the
    workspace package ([W]), the plugin repository and blob store, the id generator,
    the controller and scheduler, and the facade's own admission gate and mutex.
    [Gate] gives the critical sections of the gate; logging is left out. *)

From S2P Require Import Prelude GoString GoError GoValue GoPath WorkspaceTypes PluginTypes PluginStorage.
From S2P Require Import Proc WorkspaceWorld Install ManagerTypes.
From stdpp Require Import options.

(** [context.Background()]. *)
Definition Background : ctx := CtxParent 0.

(** ** The admission gate

    [stopInProgress], [shutDown] and the counter of [apiWg]; each function is one
    critical section of [mu]. *)

Module Gate.

Record gate := {
  stopInProgress : bool;
  shutDown : bool;
  inflight : nat;
}.

Definition open_gate : gate := {| stopInProgress := false; shutDown := false; inflight := 0 |}.

(** [beginOp]: whether the call is admitted. *)
Definition beginOp (g : gate) : bool * gate :=
  if shutDown g || stopInProgress g then (false, g)
  else (true, {| stopInProgress := stopInProgress g; shutDown := shutDown g;
                 inflight := S (inflight g) |}).

(** [apiWg.Done] *)
Definition endOp (g : gate) : gate :=
  {| stopInProgress := stopInProgress g; shutDown := shutDown g; inflight := pred (inflight g) |}.

(** [Start]'s check *)
Definition start_allowed (g : gate) : bool := negb (shutDown g || stopInProgress g).

Inductive stop_decision := AlreadyDown | InProgress | Proceed.

(** [Stop]'s first critical section *)
Definition stop_enter (g : gate) : stop_decision * gate :=
  if shutDown g then (AlreadyDown, g)
  else if stopInProgress g then (InProgress, g)
  else (Proceed, {| stopInProgress := true; shutDown := shutDown g; inflight := inflight g |}).

(** [Stop]'s last critical section *)
Definition stop_done (g : gate) : gate :=
  {| stopInProgress := stopInProgress g; shutDown := true; inflight := inflight g |}.
End Gate.

Module Manager.
Import Gate.

Inductive mcall : Type → Type :=
| W {X : Type} (e : wcall X) : mcall X
| NewPluginID : mcall PluginID
| NewWorkspaceID : mcall WorkspaceID
(** the critical sections of [Gate] *)
| BeginOp : mcall bool
| EndOp : mcall unit
| StartAllowed : mcall bool
| StopEnter : mcall stop_decision
| StopDone : mcall unit
(** [apiWg.Wait()] against [ctx.Done()]: [None] when the counter reached zero *)
| WaitApi (c : ctx) : mcall (option error)
(** [createWorkspaceMu] *)
| LockCreate : mcall unit
| UnlockCreate : mcall unit
| PluginGet (c : ctx) (id : PluginID) : mcall (result Plugin)
| PluginGetByName (c : ctx) (ns : Namespace) (name : string) : mcall (result Plugin)
| PluginList (c : ctx) (o : PluginTypes.ListOptions) : mcall (result (list Plugin * string))
| PluginInsert (c : ctx) (p : Plugin) : mcall (result unit)
| PluginUpdate (c : ctx) (p : Plugin) : mcall (result unit)
| PluginDelete (c : ctx) (id : PluginID) : mcall (result unit)
| BlobPut (c : ctx) (id : PluginID) (body : string) : mcall (result StoredObject)
| BlobGet (c : ctx) (id : PluginID) : mcall (result (reader * StoredObject))
(** [Close] of the reader [BlobGet] returned *)
| BlobClose : mcall unit
| BlobDelete (c : ctx) (id : PluginID) : mcall (result unit)
| BlobPresign (c : ctx) (id : PluginID) (ttl : Z) (method : string) : mcall (result string)
| OpenZipReader (body : string) : mcall (result Reader)
| WorkspaceInsert (c : ctx) (w : Workspace) : mcall (result unit)
| WorkspaceGetByAlias (c : ctx) (ns : Namespace) (al : Alias) : mcall (result Workspace)
| FactoryTypes : mcall (list InfraType)
| SpecTypes : mcall (list AgentType)
| CtlSubmit (w : Workspace) (p : InstallParams) : mcall (result unit)
| CtlStart : mcall (result unit)
| CtlStop (c : ctx) : mcall (result unit)
| SchStart : mcall (result unit)
| SchStop (c : ctx) : mcall (result unit)
| CloseWorkspaceRepo : mcall (result unit)
| ClosePluginRepo : mcall (result unit)
| ClosePluginStorage : mcall (result unit).

Abbreviation mproc := (proc mcall).

(** The workspace package's procedures, run by the manager. *)
Fixpoint lift {A} (p : wproc A) : mproc A :=
  match p with
  | Ret a => Ret a
  | Do e k => Do (W e) (λ x, lift (k x))
  end.

(** [fmt.Errorf("%s: %w", op, err)] *)
Definition wrap (op : string) (e : error) : error := Errorf_w (op +:+ ": ") e "".

(** [if err != nil { return fmt.Errorf("%s: %w", op, err) }] *)
Definition must {A B} (op : string) (r : result A) (k : A → mproc (result B)) : mproc (result B) :=
  match r with Err e => mret (Err (wrap op e)) | Ok a => k a end.

(** [done, err := m.beginOp(op); if err != nil { return err }; defer done()] *)
Definition gated {A} (op : string) (fail : error → A) (body : mproc A) : mproc A :=
  ok ← call BeginOp;
  if (ok : bool) then deferred (call EndOp) body else mret (fail (wrap op ErrShutdown)).

(** ** Uploads *)

Definition defaultPluginUploadLimit : Z := 64 * 2 ^ 20.

(** At most [n] bytes of a chunk. *)
Definition take_bytes (n : Z) (chunk : string) : string :=
  if decide (Z.of_nat (String.length chunk) ≤ n)%Z then chunk
  else String.substring 0 (Z.to_nat n) chunk.

(** [copyWithContext] into a buffer, from the client's reader behind an
    [io.LimitedReader] with [n] bytes left: the limited reader ends at zero and never
    reads further. *)
Fixpoint copyWithContext (c : ctx) (n : Z) (chunks : list string) (end_ : option error) (buf : string)
    : mproc (result string) :=
  e ← call (W (CtxErr c));
  match e with
  | Some err => mret (Err err)
  | None =>
    if decide (n ≤ 0)%Z then mret (Ok buf) else
    match chunks with
    | [] => mret match end_ with None => Ok buf | Some err => Err err end
    | chunk :: chunks' =>
      let data := take_bytes n chunk in
      copyWithContext c (n - Z.of_nat (String.length data)) chunks' end_ (buf +:+ data)
    end
  end.

Definition readPluginBody (c : ctx) (r : content) : mproc (result string) :=
  body ← copyWithContext c (defaultPluginUploadLimit + 1) (cn_chunks r) (cn_err r) "";
  mret match body with
       | Err err => Err err
       | Ok buf =>
         if decide (Z.of_nat (String.length buf) > defaultPluginUploadLimit)%Z
         then Err (Errorf_w "" ErrCorruptArchive
                     (": compressed payload exceeds " +:+ strconv_Itoa defaultPluginUploadLimit +:+ " bytes"))
         else Ok buf
       end.

(** [readAllAndClose] *)
Definition readAllAndClose (r : reader) : mproc (result string) :=
  deferred (call BlobClose) (mret match rd_err r with Some err => Err err | None => Ok (rd_bytes r) end).

Definition restorePluginBlob (c : ctx) (id : PluginID) (body : string) : mproc (result unit) :=
  r ← call (BlobPut c id body);
  mret match r with Err err => Err err | Ok _ => Ok () end.

Definition opCreatePlugin := "manager create_plugin".

(** The archive's manifest. *)
Definition read_manifest (body : string) : mproc (result Manifest) :=
  opened ← call (OpenZipReader body);
  match opened with
  | Err err => mret (Err (wrap opCreatePlugin err))
  | Ok reader =>
    manifest ← call (W (ReaderManifest reader));
    closed ← call (W (ReaderClose reader));
    mret match closed with Err err => Err (wrap opCreatePlugin err) | Ok _ => Ok manifest end
  end.

(** The blob an overwrite replaces, kept for a rollback. *)
Definition read_old_blob (c : ctx) (id : PluginID) : mproc (result string) :=
  got ← call (BlobGet c id);
  match got with
  | Err err => mret (Err (Errorf_w (opCreatePlugin +:+ ": read previous plugin blob " +:+
                                    strconv_Quote id +:+ ": ") err ""))
  | Ok (oldReader, _) =>
    r ← readAllAndClose oldReader;
    mret match r with
         | Err err => Err (Errorf_w (opCreatePlugin +:+ ": buffer previous plugin blob " +:+
                                     strconv_Quote id +:+ ": ") err "")
         | Ok old => Ok old
         end
  end.

(** The metadata write after the blob was stored, with its rollback. *)
Definition write_row (c : ctx) (row : Plugin) (old : option string) : mproc (result View.Plugin) :=
  match old with
  | Some oldBody =>
    updated ← call (PluginUpdate c row);
    match updated with
    | Ok _ => mret (Ok (View.pluginFromRow row))
    | Err err =>
      rolled ← restorePluginBlob Background (p_ID row) oldBody;
      mret match rolled with
           | Ok _ => Err (wrap opCreatePlugin err)
           | Err rollbackErr =>
             match errors_Join [err; rollbackErr] with
             | Some joined => Err (wrap opCreatePlugin joined)
             | None => Err (wrap opCreatePlugin err)
             end
           end
    end
  | None =>
    inserted ← call (PluginInsert c row);
    match inserted with
    | Ok _ => mret (Ok (View.pluginFromRow row))
    | Err err =>
      _ ← call (BlobDelete Background (p_ID row));
      mret (Err (wrap opCreatePlugin err))
    end
  end.

(** [CreatePlugin] from the lookup by name on; [existing] is the row to overwrite. *)
Definition store_plugin (c : ctx) (namespace : Namespace) (name description : string)
    (manifest : Manifest) (body : string) (existing : option Plugin) : mproc (result View.Plugin) :=
  newID ← call NewPluginID;
  now ← call (W Now);
  let id := match existing with Some p => p_ID p | None => newID end in
  let createdAt := match existing with Some p => p_CreatedAt p | None => now end in
  old ← match existing with
        | Some _ => r ← read_old_blob c id; mret (Some <$> r)
        | None => mret (Ok None)
        end;
  match old with
  | Err err => mret (Err err)
  | Ok oldBody =>
    put ← call (BlobPut c id body);
    must opCreatePlugin put (λ stored,
      updatedAt ← call (W Now);
      write_row c {| p_ID := id; p_Namespace := namespace; p_Name := name; p_Description := description;
                     p_Manifest := View.cloneManifest manifest; p_ContentHash := so_ContentHash stored;
                     p_Size := so_Size stored; p_CreatedAt := createdAt; p_UpdatedAt := updatedAt |} oldBody)
  end.

Definition CreatePlugin (c : ctx) (req : CreatePluginRequest) : mproc (result View.Plugin) :=
  gated opCreatePlugin Err (
    e ← call (W (CtxErr c));
    match e with
    | Some err => mret (Err (wrap opCreatePlugin err))
    | None =>
      let namespace := normalizeNamespace (cp_Namespace req) in
      must opCreatePlugin (validateNamespace namespace) (λ _,
      match cp_Content req with
      | None => mret (Err (Errorf (opCreatePlugin +:+ ": nil content")))
      | Some content =>
        read ← readPluginBody c content;
        must opCreatePlugin read (λ body,
        got ← read_manifest body;
        match got with
        | Err err => mret (Err err)
        | Ok manifest =>
          let name := if decide (cp_Name req = "") then mp_Name (mf_Plugin manifest) else cp_Name req in
          if decide (name ≠ mp_Name (mf_Plugin manifest))
          then mret (Err (Errorf (opCreatePlugin +:+ ": plugin name " +:+ strconv_Quote name +:+
                                  " does not match manifest " +:+
                                  strconv_Quote (mp_Name (mf_Plugin manifest)))))
          else
            let description := if decide (cp_Description req = "")
                               then mp_Description (mf_Plugin manifest) else cp_Description req in
            must opCreatePlugin (validateDescription description) (λ _,
            found ← call (PluginGetByName c namespace name);
            match found with
            | Ok existing => store_plugin c namespace name description manifest body (Some existing)
            | Err err =>
              if errors_Is err ErrPluginNotFound
              then store_plugin c namespace name description manifest body None
              else mret (Err (wrap opCreatePlugin err))
            end)
        end)
      end)
    end).

(** ** The other plugin methods *)

Definition opGetPlugin := "manager get_plugin".
Definition GetPlugin (c : ctx) (id : PluginID) : mproc (result View.Plugin) :=
  gated opGetPlugin Err (
    row ← call (PluginGet c id);
    must opGetPlugin row (λ row, mret (Ok (View.pluginFromRow row)))).

Definition opGetPluginByName := "manager get_plugin_by_name".
Definition GetPluginByName (c : ctx) (namespace : Namespace) (name : string) : mproc (result View.Plugin) :=
  gated opGetPluginByName Err (
    let namespace := normalizeNamespace namespace in
    must opGetPluginByName (validateNamespace namespace) (λ _,
    row ← call (PluginGetByName c namespace name);
    must opGetPluginByName row (λ row, mret (Ok (View.pluginFromRow row))))).

(** An empty namespace filter stays empty. *)
Definition list_namespace (namespace : Namespace) : result Namespace :=
  if decide (namespace = "") then Ok "" else
  let namespace := normalizeNamespace namespace in
  match validateNamespace namespace with Err e => Err e | Ok _ => Ok namespace end.

Definition opListPlugins := "manager list_plugins".
Definition ListPlugins (c : ctx) (opts : ListPluginsOptions) : mproc (result (list View.Plugin * string)) :=
  gated opListPlugins Err (
    must opListPlugins (list_namespace (lp_Namespace opts)) (λ namespace,
    listed ← call (PluginList c {| plo_Namespace := namespace; plo_NameLike := lp_NameLike opts;
                                   plo_Limit := lp_Limit opts; plo_Cursor := lp_Cursor opts |});
    must opListPlugins listed (λ page : list Plugin * string, mret (Ok (View.pluginFromRow <$> page.1, page.2))))).

Definition opDeletePlugin := "manager delete_plugin".
(** A failed blob deletion is only logged. *)
Definition DeletePlugin (c : ctx) (id : PluginID) : mproc (result unit) :=
  gated opDeletePlugin Err (
    row ← call (PluginGet c id);
    must opDeletePlugin row (λ row,
    deleted ← call (PluginDelete c (p_ID row));
    must opDeletePlugin deleted (λ _,
    _ ← call (BlobDelete c (p_ID row));
    mret (Ok ())))).

Definition opGetPluginDownloadURL := "manager get_plugin_download_url".
Definition httpMethodGet := "GET".
Definition GetPluginDownloadURL (c : ctx) (id : PluginID) (opts : DownloadURLOptions) : mproc (result string) :=
  gated opGetPluginDownloadURL Err (
    row ← call (PluginGet c id);
    must opGetPluginDownloadURL row (λ _,
    url ← call (BlobPresign c id (du_TTL opts) httpMethodGet);
    mret match url with
         | Ok url => Ok url
         | Err err => if errors_Is err ErrUnsupported
                      then Err (wrap opGetPluginDownloadURL ErrUnsupportedDownloadURL)
                      else Err (wrap opGetPluginDownloadURL err)
         end)).

(** ** Infra and agents *)

(** [fmt.Errorf("%s: %w: %q", op, err, s)] *)
Definition wrap_quoted (op : string) (e : error) (s : string) : error :=
  Errorf_w (op +:+ ": ") e (": " +:+ strconv_Quote s).

Definition opNewInfraOps := "manager new_infra_ops".
Definition NewInfraOps (c : ctx) (infraType : InfraType) (options : gomap any) : mproc (result Ops) :=
  gated opNewInfraOps Err (
    known ← call (W (FactoryGet infraType));
    if negb known then mret (Err (wrap_quoted opNewInfraOps ErrInfraTypeUnknown infraType)) else
    built ← call (W (FactoryBuild c infraType (cloneMapAny options)));
    must opNewInfraOps built (λ ops, mret (Ok ops))).

Definition InfraTypes : mproc (list InfraType) := call FactoryTypes.
Definition AgentTypes : mproc (list AgentType) := call SpecTypes.

(** ** Workspaces *)

Definition localdirInfraType : InfraType := "localdir".
Definition infraOptionDir := "dir".

(** [filepath.Clean] is [path.Clean] on the systems localdir supports. *)
Definition localdirDirOption (options : gomap any) : option string :=
  match gm_get options infraOptionDir with
  | Some (AString dir) => if decide (dir = "") then None else Some (path_Clean dir)
  | _ => None
  end.

(** A row of the page that uses the wanted directory. *)
Definition dir_conflict (wantDir : string) (rows : list Workspace) : option Workspace :=
  snd <$> list_find (λ row, localdirDirOption (w_InfraOptions row) = Some wantDir) rows.

Definition uniqueness_options (infraType : InfraType) (cursor : string) : WorkspaceTypes.ListOptions := {|
  lo_Namespace := ""; lo_AgentType := ""; lo_InfraType := infraType; lo_Status := ""; lo_Labels := None;
  lo_Limit := 200; lo_Cursor := cursor |}.

(** The page loop of [ensureWorkspaceInfraUniqueness]; [None] is running out of fuel. *)
Fixpoint scan_dirs (fuel : nat) (c : ctx) (infraType : InfraType) (wantDir cursor : string)
    : mproc (option (result unit)) :=
  match fuel with
  | 0 => mret None
  | S fuel' =>
    listed ← call (W (RepoList c (uniqueness_options infraType cursor)));
    match listed with
    | Err err => mret (Some (Err err))
    | Ok (rows, next) =>
      match dir_conflict wantDir rows with
      | Some row => mret (Some (Err (Errorf_w "" ErrWorkspaceDirConflict
          (": " +:+ strconv_Quote wantDir +:+ " already used by workspace " +:+ strconv_Quote (w_ID row)))))
      | None => if decide (next = "") then mret (Some (Ok ()))
                else scan_dirs fuel' c infraType wantDir next
      end
    end
  end.

Definition ensureWorkspaceInfraUniqueness (fuel : nat) (c : ctx) (req : CreateWorkspaceRequest)
    : mproc (option (result unit)) :=
  if decide (cw_InfraType req ≠ localdirInfraType) then mret (Some (Ok ())) else
  match localdirDirOption (cw_InfraOptions req) with
  | None => mret (Some (Ok ()))
  | Some wantDir => scan_dirs fuel c (cw_InfraType req) wantDir ""
  end.

Fixpoint resolve_refs (c : ctx) (refs : list PluginRef) (seen : gset PluginID)
    (attached : list AttachedPlugin) (installRefs : list AttachedPluginRef)
    : mproc (result (list AttachedPlugin * list AttachedPluginRef)) :=
  match refs with
  | [] => mret (Ok (attached, installRefs))
  | ref :: refs' =>
    if decide (ref_ID ref = "") then mret (Err (Errorf_w "" ErrPluginNotFound ": empty plugin id"))
    else if decide (ref_ID ref ∈ seen)
    then mret (Err (Errorf_w "" ErrDuplicatePluginRef (": " +:+ strconv_Quote (ref_ID ref))))
    else
      got ← call (PluginGet c (ref_ID ref));
      match got with
      | Err err => mret (Err err)
      | Ok row =>
        resolve_refs c refs' ({[ref_ID ref]} ∪ seen)
          (attached ++ [{| ap_PluginID := ref_ID ref; ap_Name := p_Name row;
                           ap_ContentHash := p_ContentHash row; ap_PlacedPaths := [] |}])
          (installRefs ++ [{| apr_PluginID := ref_ID ref; apr_Name := p_Name row;
                              apr_ContentHash := p_ContentHash row |}])
      end
  end.

Definition resolveAttachedPlugins (c : ctx) (refs : list PluginRef)
    : mproc (result (list AttachedPlugin * list AttachedPluginRef)) :=
  resolve_refs c refs ∅ [] [].

Definition opCreateWorkspace := "manager create_workspace".

(** The row a request creates. *)
Definition new_row (req : CreateWorkspaceRequest) (namespace : Namespace) (id : WorkspaceID) (now : Time)
    (attached : list AttachedPlugin) : Workspace := {|
  w_ID := id; w_Namespace := namespace; w_Alias := cw_Alias req; w_AgentType := cw_AgentType req;
  w_InfraType := cw_InfraType req; w_InfraOptions := cloneMapAny (cw_InfraOptions req);
  w_InstallParams := cloneMapAny (cw_InstallParams req); w_Plugins := attached; w_Status := StatusInit;
  w_StatusError := None; w_Description := cw_Description req; w_Labels := cloneLabels (cw_Labels req);
  w_LastProbeAt := 0; w_CreatedAt := now; w_UpdatedAt := now |}.

Definition install_params (req : CreateWorkspaceRequest) (row : Workspace) (refs : list AttachedPluginRef)
    : InstallParams := {|
  ip_Workspace := {| ws_ID := w_ID row; ws_Namespace := w_Namespace row; ws_Alias := w_Alias row;
                     ws_AgentType := w_AgentType row; ws_InfraType := w_InfraType row; ws_Plugins := refs |};
  ip_UserParams := cloneMapAny (cw_InstallParams req) |}.

(** From the insertion on: a row whose install cannot be queued is deleted again. *)
Definition insert_and_submit (c : ctx) (req : CreateWorkspaceRequest) (row : Workspace)
    (refs : list AttachedPluginRef) : mproc (result View.Workspace) :=
  inserted ← call (WorkspaceInsert c row);
  must opCreateWorkspace inserted (λ _,
  submitted ← call (CtlSubmit row (install_params req row refs));
  match submitted with
  | Ok _ => mret (Ok (View.workspaceFromRow row))
  | Err err =>
    deleted ← call (W (RepoDelete Background (w_ID row)));
    mret match deleted with
         | Ok _ => Err (wrap opCreateWorkspace err)
         | Err deleteErr =>
           match errors_Join [err; deleteErr] with
           | Some joined => Err (wrap opCreateWorkspace joined)
           | None => Err (wrap opCreateWorkspace err)
           end
         end
  end).

(** The part of [CreateWorkspace] that holds [createWorkspaceMu]. *)
Definition create_locked (fuel : nat) (c : ctx) (req : CreateWorkspaceRequest) (namespace : Namespace)
    : mproc (option (result View.Workspace)) :=
  unique ← ensureWorkspaceInfraUniqueness fuel c req;
  match unique with
  | None => mret None
  | Some (Err err) => mret (Some (Err (wrap opCreateWorkspace err)))
  | Some (Ok _) =>
    resolved ← resolveAttachedPlugins c (cw_Plugins req);
    r ← must opCreateWorkspace resolved (λ '(attached, refs),
          now ← call (W Now);
          id ← call NewWorkspaceID;
          insert_and_submit c req (new_row req namespace id now attached) refs);
    mret (Some r)
  end.

(** The checks of [CreateWorkspace] that need no call. *)
Definition validate_create (req : CreateWorkspaceRequest) : result Namespace :=
  let namespace := normalizeNamespace (cw_Namespace req) in
  match validateNamespace namespace with Err e => Err e | Ok _ =>
  match validateAlias (cw_Alias req) with Err e => Err e | Ok _ =>
  match validateDescription (cw_Description req) with Err e => Err e | Ok _ => Ok namespace
  end end end.

Definition CreateWorkspace (fuel : nat) (c : ctx) (req : CreateWorkspaceRequest)
    : mproc (option (result View.Workspace)) :=
  gated opCreateWorkspace (λ e, Some (Err e)) (
    e ← call (W (CtxErr c));
    match e with
    | Some err => mret (Some (Err (wrap opCreateWorkspace err)))
    | None =>
      match validate_create req with
      | Err err => mret (Some (Err (wrap opCreateWorkspace err)))
      | Ok namespace =>
        spec ← call (W (SpecGet (cw_AgentType req)));
        if negb spec
        then mret (Some (Err (wrap_quoted opCreateWorkspace ErrAgentTypeUnknown (cw_AgentType req)))) else
        factory ← call (W (FactoryGet (cw_InfraType req)));
        if negb factory
        then mret (Some (Err (wrap_quoted opCreateWorkspace ErrInfraTypeUnknown (cw_InfraType req)))) else
        _ ← call LockCreate;
        deferred (call UnlockCreate) (create_locked fuel c req namespace)
      end
    end).

Definition opGetWorkspace := "manager get_workspace".
Definition GetWorkspace (c : ctx) (id : WorkspaceID) : mproc (result View.Workspace) :=
  gated opGetWorkspace Err (
    row ← call (W (RepoGet c id));
    must opGetWorkspace row (λ row, mret (Ok (View.workspaceFromRow row)))).

Definition opGetWorkspaceByAlias := "manager get_workspace_by_alias".
Definition GetWorkspaceByAlias (c : ctx) (namespace : Namespace) (alias : Alias)
    : mproc (result View.Workspace) :=
  gated opGetWorkspaceByAlias Err (
    let namespace := normalizeNamespace namespace in
    must opGetWorkspaceByAlias (validateNamespace namespace) (λ _,
    must opGetWorkspaceByAlias (validateAlias alias) (λ _,
    row ← call (WorkspaceGetByAlias c namespace alias);
    must opGetWorkspaceByAlias row (λ row, mret (Ok (View.workspaceFromRow row)))))).

Definition opListWorkspaces := "manager list_workspaces".
Definition ListWorkspaces (c : ctx) (opts : ListWorkspacesOptions)
    : mproc (result (list View.Workspace * string)) :=
  gated opListWorkspaces Err (
    must opListWorkspaces (list_namespace (lw_Namespace opts)) (λ namespace,
    listed ← call (W (RepoList c {| lo_Namespace := namespace; lo_AgentType := lw_AgentType opts;
                                    lo_InfraType := lw_InfraType opts; lo_Status := lw_Status opts;
                                    lo_Labels := cloneLabels (lw_Labels opts);
                                    lo_Limit := lw_Limit opts; lo_Cursor := lw_Cursor opts |}));
    must opListWorkspaces listed (λ page : list Workspace * string, mret (Ok (View.workspaceFromRow <$> page.1, page.2))))).

Definition opDeleteWorkspace := "manager delete_workspace".
Definition DeleteWorkspace (c : ctx) (id : WorkspaceID) : mproc (result unit) :=
  gated opDeleteWorkspace Err (
    deleted ← lift (Install.Delete c id);
    must opDeleteWorkspace deleted (λ _, mret (Ok ()))).

(** ** Start and stop *)

Definition opStart := "manager start".
Definition Start (c : ctx) : mproc (result unit) :=
  e ← call (W (CtxErr c));
  match e with
  | Some err => mret (Err (wrap opStart err))
  | None =>
    allowed ← call StartAllowed;
    if negb allowed then mret (Err (wrap opStart ErrShutdown)) else
    ctl ← call CtlStart;
    must opStart ctl (λ _,
    sch ← call SchStart;
    match sch with
    | Ok _ => mret (Ok ())
    | Err err =>
      stopped ← call (CtlStop Background);
      mret match stopped with
           | Ok _ => Err (wrap opStart err)
           | Err stopErr => match errors_Join [err; stopErr] with
                            | Some joined => Err (wrap opStart joined)
                            | None => Err (wrap opStart err)
                            end
           end
    end)
  end.

(** [errs = append(errs, fmt.Errorf("<what>: %w", err))] *)
Definition note {A} (what : string) (r : result A) : list error :=
  match r with Err err => [wrap what err] | Ok _ => [] end.

Definition opStop := "manager stop".
Definition Stop (c : ctx) : mproc (result unit) :=
  e ← call (W (CtxErr c));
  match e with
  | Some err => mret (Err (wrap opStop err))
  | None =>
    d ← call StopEnter;
    match d with
    | AlreadyDown => mret (Ok ())
    | InProgress => mret (Err (Errorf (opStop +:+ ": shutdown already in progress")))
    | Proceed =>
      sch ← call (SchStop c);
      ctl ← call (CtlStop c);
      drained ← call (WaitApi c);
      _ ← call CloseWorkspaceRepo;
      _ ← call ClosePluginRepo;
      _ ← call ClosePluginStorage;
      _ ← call StopDone;
      let errs := note "scheduler stop" sch ++ note "controller stop" ctl ++
                  match drained with Some err => [wrap "api drain" err] | None => [] end in
      mret match errors_Join errs with
           | None => Ok ()
           | Some joined => Err (wrap opStop joined)
           end
    end
  end.

End Manager.
