(* ===== verification/UploadSpec.v ===== *)
(** * Plugin uploads against the in-memory repository and blob store

    [PluginUpload] runs the manager's plugin methods with [PluginRepository] and
    [PluginStorage] behind them, where any call made with the client's context may
    also fail without an effect: uploads are all-or-nothing and keep every row's
    hash and size those of its blob. [UploadRace] shows that two uploads of one name
    at the same time do not. *)

From S2P Require Import Prelude GoString GoError GoValue GoPath WorkspaceTypes PluginTypes Sha256.
From S2P Require Import PluginRepo PluginStorage Proc WorkspaceWorld ManagerTypes Manager.
From stdpp Require Import options.

#[local] Opaque sha256 hex_encode.

Module PluginUpload.
Import PluginRepository PluginInvariant StorageConcurrency Manager.

Record pstate := {
  prepo : PluginRepository.repo;
  pstore : PluginStorage.storage;
}.

(** One call on the two stores. A generated id is new to both. *)
Definition plugin_call {X} (e : mcall X) : pstate → X → pstate → Prop :=
  match e in mcall X return pstate → X → pstate → Prop with
  | NewPluginID => λ s x s', s' = s ∧ byID (prepo s) !! x = None ∧ PluginStorage.blobs (pstore s) !! x = None
  | PluginGet _ id => λ s x s', s' = s ∧ x = Get id (prepo s)
  | PluginGetByName _ ns name => λ s x s', s' = s ∧ x = GetByName ns name (prepo s)
  | PluginList _ o => λ s x s', s' = s ∧ x = List_ o (prepo s)
  | PluginInsert _ p => λ s x s', pstore s' = pstore s ∧ Insert p (prepo s) = (x, prepo s')
  | PluginUpdate _ p => λ s x s', pstore s' = pstore s ∧ Update p (prepo s) = (x, prepo s')
  | PluginDelete _ id => λ s x s', pstore s' = pstore s ∧ Delete id (prepo s) = (x, prepo s')
  | BlobPut _ id body => λ s x s', prepo s' = prepo s ∧
      PluginStorage.Put id (bytes_reader body) (pstore s) = (x, pstore s')
  | BlobGet _ id => λ s x s', s' = s ∧ x = PluginStorage.Get id (pstore s)
  | BlobDelete _ id => λ s x s', prepo s' = prepo s ∧ PluginStorage.Delete id (pstore s) = (x, pstore s')
  | BlobPresign _ id _ _ => λ s x s', s' = s ∧ x = PluginStorage.PresignURL id (pstore s)
  | _ => λ s _ s', s' = s
  end.

(** A call given the client's context may fail instead, whatever the error. *)
Definition may_fail {X} (e : mcall X) : X → Prop :=
  match e in mcall X return X → Prop with
  | PluginGet c _ | PluginGetByName c _ _ => λ x, c ≠ Background ∧ is_ok x = false
  | PluginList c _ => λ x, c ≠ Background ∧ is_ok x = false
  | PluginInsert c _ | PluginUpdate c _ => λ x, c ≠ Background ∧ is_ok x = false
  | PluginDelete c _ => λ x, c ≠ Background ∧ is_ok x = false
  | BlobPut c _ _ => λ x, c ≠ Background ∧ is_ok x = false
  | BlobGet c _ => λ x, c ≠ Background ∧ is_ok x = false
  | BlobDelete c _ => λ x, c ≠ Background ∧ is_ok x = false
  | BlobPresign c _ _ _ => λ x, c ≠ Background ∧ is_ok x = false
  | _ => λ _, False
  end.

Definition faulty : answers mcall pstate := λ X e s x s', plugin_call e s x s' ∨ (may_fail e x ∧ s' = s).

(** Every row describes the blob stored under its id. *)
Definition described (s : pstate) : Prop :=
  ∀ id p, byID (prepo s) !! id = Some p →
    ∃ b, PluginStorage.blobs (pstore s) !! id = Some b ∧
      p_ContentHash p = so_ContentHash (PluginStorage.mb_object b) ∧
      p_Size p = so_Size (PluginStorage.mb_object b).

Record plugins_ok (s : pstate) : Prop := {
  po_repo : repo_inv (prepo s);
  po_store : store_ok (pstore s);
  po_described : described s;
}.

(** ** Calls that write *)

Definition writes (e : event mcall) : bool :=
  match e with
  | Ev (PluginInsert _ _) _ | Ev (PluginUpdate _ _) _ | Ev (PluginDelete _ _) _
  | Ev (BlobPut _ _ _) _ | Ev (BlobDelete _ _) _ => true
  | _ => false
  end.

Lemma read_call X (e : mcall X) s x s' : writes (Ev e x) = false → faulty X e s x s' → s' = s.
Proof. destruct e; cbn; intros Hw [H|H]; try done; try apply H. Qed.

Lemma read_only {A} (p : mproc A) s a s' : never writes p → execs faulty p s a s' → s' = s.
Proof.
  revert s. induction p as [b|X e k IH]; intros s Hn; [by intros [_ ->]|].
  intros (x & s1 & Hx & Hk). destruct (Hn x) as [Hw Hn']. apply read_call in Hx as ->; [|done].
  by eapply IH.
Qed.

Lemma gated_inv {A} op (fail : error → A) (body : mproc A) s a s' :
  execs faulty (gated op fail body) s a s' → (s' = s ∧ ∃ e, a = fail e) ∨ execs faulty body s a s'.
Proof.
  intros (ok & s1 & Hok%execs_call_inv & H)%execs_bind.
  apply read_call in Hok as ->; [|done]. destruct ok.
  - apply execs_bind in H as (b & s1 & Hb & (u & s2 & Hu%execs_call_inv & -> & ->)%execs_bind).
    apply read_call in Hu as ->; [|done]. by right.
  - destruct H as [-> ->]. left. split; [done|]. by eexists.
Qed.

Lemma must_inv {A B} op (r : result A) (k : A → mproc (result B)) s b s' :
  execs faulty (must op r k) s b s' → (s' = s ∧ ∃ e, r = Err e ∧ b = Err (wrap op e)) ∨ ∃ a, r = Ok a ∧ execs faulty (k a) s b s'.
Proof. destruct r as [a|e]; [eauto|]. intros [-> ->]. eauto 10. Qed.

(** ** The body of an upload *)

Definition total (chunks : list string) : string := foldr String.append "" chunks.

(** What was read is a prefix of what the client sent, cut at the limit. *)
Lemma copy_spec c n chunks end_ buf s b s' :
  execs faulty (copyWithContext c n chunks end_ buf) s (Ok b) s' →
  ∃ d, b = buf +:+ d ∧ ((Z.of_nat (String.length d) < n)%Z → d = total chunks ∧ end_ = None).
Proof.
  revert n buf s. induction chunks as [|chunk chunks IH]; intros n buf s.
  - intros (e & s1 & _ & H)%execs_bind. destruct e; [by destruct H|].
    case_decide as Hn; destruct H as [H ->].
    + injection H as ->. exists "". rewrite append_nil_r. split; [done|]. simpl. lia.
    + destruct end_; [done|]. injection H as ->. exists "". by rewrite append_nil_r.
  - intros (e & s1 & _ & H)%execs_bind. destruct e; [by destruct H|].
    case_decide as Hn.
    + destruct H as [H ->]. injection H as ->. exists "". rewrite append_nil_r. split; [done|]. simpl. lia.
    + apply IH in H as (d & -> & Hd). eexists (_ +:+ d). rewrite append_assoc. split; [done|].
      rewrite append_length. cbn [total foldr]. intros Hlt. destruct Hd as [-> ->]; [lia|].
      unfold take_bytes in *. case_decide as Hle; [done|]. rewrite substring_length in Hlt by lia. lia.
Qed.

Lemma copy_reads c n chunks end_ buf : never writes (copyWithContext c n chunks end_ buf).
Proof.
  revert n buf. induction chunks as [|chunk chunks IH]; intros n buf;
    (apply never_call_bind; [done|]; intros [e|]; [done|]); case_decide; [done..| |]; [done|apply IH].
Qed.

Lemma read_body_spec c r s x s' :
  execs faulty (readPluginBody c r) s x s' →
  s' = s ∧ ∀ body, x = Ok body → body = total (cn_chunks r) ∧ cn_err r = None ∧
    (Z.of_nat (String.length body) ≤ defaultPluginUploadLimit)%Z.
Proof.
  intros (b & s1 & Hb & Hx)%execs_bind.
  pose proof (read_only _ _ _ _ (copy_reads _ _ _ _ _) Hb) as ->. destruct Hx as [-> ->].
  split; [done|]. intros body. destruct b as [b|]; [|done]. case_decide as Hlim; [done|].
  intros [= <-]. apply copy_spec in Hb as (d & -> & Hd). change ("" +:+ d) with d in *.
  destruct Hd as [-> ->]; [lia|]. split_and!; [done|done|lia].
Qed.

(** ** Writing a blob and putting an old one back *)

Definition object_of (body : string) : StoredObject :=
  {| so_Size := Z.of_nat (String.length body);
     so_ContentHash := "sha256:" +:+ hex_encode (sha256 body) |}.
Definition blob_of (body : string) : PluginStorage.memoryBlob :=
  {| PluginStorage.mb_body := body; PluginStorage.mb_object := object_of body |}.
Definition with_blob (id : PluginID) (body : string) (st : PluginStorage.storage) : PluginStorage.storage :=
  {| PluginStorage.blobs := <[id := blob_of body]> (PluginStorage.blobs st);
     PluginStorage.closed := PluginStorage.closed st |}.

Lemma put_cases id body st :
  (∃ e, PluginStorage.Put id (bytes_reader body) st = (Err e, st)) ∨
  (PluginStorage.closed st = false ∧
   (Z.of_nat (String.length body) ≤ PluginStorage.memoryStorageMaxPutBodyBytes)%Z ∧
   PluginStorage.Put id (bytes_reader body) st = (Ok (object_of body), with_blob id body st)).
Proof.
  unfold PluginStorage.Put, PluginStorage.put_check.
  destruct (PluginStorage.closed st) eqn:Hc; [left; by eexists|].
  destruct (PluginStorage.put_read (bytes_reader body)) as [[data obj]|e] eqn:Hr; [|left; by eexists].
  right. split; [done|]. pose proof Hr as Hr'. apply put_read_ok in Hr' as ([Hh Hs] & _ & ->).
  cbn in Hh, Hs. injection Hh as Hh Hz. rewrite <-Hz in Hs. split; [done|].
  unfold PluginStorage.put_commit, with_blob, blob_of, object_of. rewrite Hc, Hh, Hz. by destruct obj.
Qed.

Lemma put_ok id body st :
  PluginStorage.closed st = false →
  (Z.of_nat (String.length body) ≤ PluginStorage.memoryStorageMaxPutBodyBytes)%Z →
  PluginStorage.Put id (bytes_reader body) st = (Ok (object_of body), with_blob id body st).
Proof.
  intros Hc Hs. unfold PluginStorage.Put, PluginStorage.put_check, PluginStorage.put_read, read_limited.
  rewrite Hc. cbn [rd_bytes bytes_reader rd_err]. rewrite decide_True by lia. rewrite decide_False by lia.
  unfold Hash. cbn [rd_err rd_bytes bytes_reader]. unfold PluginStorage.put_commit, with_blob, blob_of, object_of.
  by rewrite Hc.
Qed.

(** A blob of a sound store is what its body determines. *)
Lemma blob_determined st id b :
  store_ok st → PluginStorage.blobs st !! id = Some b →
  b = blob_of (PluginStorage.mb_body b) ∧
  (Z.of_nat (String.length (PluginStorage.mb_body b)) ≤ PluginStorage.memoryStorageMaxPutBodyBytes)%Z.
Proof.
  intros Hst Hb. destruct (Hst id b Hb) as [Hh Hs]. destruct b as [body [sz h]]. cbn in *.
  injection Hh as <- <-. by split.
Qed.

(** Restoring the body a blob had undoes an overwrite. *)
Lemma restore_undoes st id b body :
  store_ok st → PluginStorage.closed st = false → PluginStorage.blobs st !! id = Some b →
  PluginStorage.Put id (bytes_reader (PluginStorage.mb_body b)) (with_blob id body st) = (Ok (object_of (PluginStorage.mb_body b)), st).
Proof.
  intros Hst Hc Hb. destruct (blob_determined _ _ _ Hst Hb) as [Hd Hs].
  rewrite put_ok by done. f_equal. unfold with_blob. simpl. rewrite insert_insert_eq, <-Hd, insert_id by done.
  by destruct st.
Qed.

(** Deleting a new blob undoes its storing. *)
Lemma delete_undoes st id body :
  PluginStorage.closed st = false → PluginStorage.blobs st !! id = None →
  PluginStorage.Delete id (with_blob id body st) = (Ok (), st).
Proof.
  intros Hc Hb. unfold PluginStorage.Delete, with_blob. simpl. rewrite Hc. f_equal.
  rewrite delete_insert_id by done. rewrite <-Hc. by destruct st.
Qed.

Lemma with_blob_ok st id body :
  store_ok st → (Z.of_nat (String.length body) ≤ PluginStorage.memoryStorageMaxPutBodyBytes)%Z →
  store_ok (with_blob id body st).
Proof. intros Hst Hs. by apply map_Forall_insert_2. Qed.

(** Calls under [context.Background()] do not fail by themselves. *)
Lemma background_call X (e : mcall X) s x s' :
  faulty X e s x s' → ¬ may_fail e x → plugin_call e s x s'.
Proof. intros [H|[H _]] Hn; [done|]. by destruct Hn. Qed.

Definition stored_in (s : pstate) (id : PluginID) (body : string) : pstate :=
  {| prepo := prepo s; pstore := with_blob id body (pstore s) |}.

Lemma stored_in_back s id body st :
  st = pstore s → {| prepo := prepo (stored_in s id body); pstore := st |} = s.
Proof. intros ->. by destruct s. Qed.

(** What a rollback can rely on: the blob the write replaced. *)
Definition replaces (s : pstate) (id : PluginID) (old : option string) : Prop :=
  match old with
  | Some body => ∃ b, PluginStorage.blobs (pstore s) !! id = Some b ∧ PluginStorage.mb_body b = body
  | None => PluginStorage.blobs (pstore s) !! id = None
  end.

Definition row_written (row : Plugin) (old : option string) (r r' : repo) : Prop :=
  match old with Some _ => Update row r | None => Insert row r end = (Ok (), r').

Lemma pstate_eq (s s' : pstate) : prepo s = prepo s' → pstore s = pstore s' → s = s'.
Proof. destruct s, s'. simpl. by intros -> ->. Qed.

(** The metadata write either succeeded or left the state alone. *)
Lemma row_call c row old st u s1 :
  faulty _ (match old with Some _ => PluginUpdate c row | None => PluginInsert c row end) st u s1 →
  (u = Ok () ∧ pstore s1 = pstore st ∧ row_written row old (prepo st) (prepo s1)) ∨
  ((∃ e, u = Err e) ∧ s1 = st).
Proof.
  unfold row_written. destruct old; intros [[Hp Hu]|[[_ Hu] ->]]; try (right; by destruct u; eauto);
    [destruct (plugin_Update_cases row (prepo st)) as [[e E]|(ex & _ & _ & _ & E)]
    |destruct (plugin_Insert_cases row (prepo st)) as [[e E]|(_ & _ & _ & E)]];
    rewrite E in Hu |- *; injection Hu as <- Hu;
    solve [right; split; [by eexists|by apply pstate_eq]|left; split_and!; [done|done|by rewrite Hu]].
Qed.

Lemma write_row_spec c row old body s r s' :
  store_ok (pstore s) → PluginStorage.closed (pstore s) = false → replaces s (p_ID row) old →
  execs faulty (write_row c row old) (stored_in s (p_ID row) body) r s' →
  (∃ e, r = Err e) ∧ s' = s ∨
  r = Ok (View.pluginFromRow row) ∧ pstore s' = with_blob (p_ID row) body (pstore s) ∧
    row_written row old (prepo s) (prepo s').
Proof.
  intros Hst Hc Hold. destruct old as [old|]; cbn [write_row];
    intros (u & s1 & Hu%execs_call_inv & H)%execs_bind.
  - apply (row_call c row (Some old)) in Hu as [(-> & Hp & Hr)|[[e ->] ->]].
    { destruct H as [-> ->]. by right. }
    destruct Hold as (b & Hb & <-). left.
    apply execs_bind in H as (rolled & s2 & Hrb & H).
    apply execs_bind in Hrb as (x & s3 & Hx%execs_call_inv & -> & ->).
    apply background_call in Hx as [Hp Hx]; [|by intros []]. cbn in Hx.
    rewrite restore_undoes in Hx by done. injection Hx as <- Hx.
    destruct H as [-> ->]. split; [by eexists|]. by apply pstate_eq.
  - apply (row_call c row None) in Hu as [(-> & Hp & Hr)|[[e ->] ->]].
    { destruct H as [-> ->]. by right. }
    apply execs_bind in H as (x & s2 & Hx%execs_call_inv & -> & ->).
    apply background_call in Hx as [Hp Hx]; [|by intros []]. cbn in Hx.
    rewrite delete_undoes in Hx by done. injection Hx as <- Hx. left.
    split; [by eexists|]. by apply pstate_eq.
Qed.

Lemma read_old_reads c id : never writes (read_old_blob c id).
Proof.
  apply never_call_bind; [done|]. intros [[rd obj]|e]; [|done]. apply never_bind; [|by intros ?].
  unfold readAllAndClose, deferred. by never_go.
Qed.

Lemma read_old_spec c id s old s' :
  execs faulty (read_old_blob c id) s (Ok old) s' → replaces s id (Some old).
Proof.
  intros (x & s1 & Hx%execs_call_inv & H)%execs_bind. destruct x as [[rd obj]|e]; [|by destruct H].
  destruct Hx as [[-> Hx]|[[_ Hx] _]]; [|done]. unfold PluginStorage.Get in Hx.
  destruct (PluginStorage.closed (pstore s)); [done|].
  destruct (PluginStorage.blobs (pstore s) !! id) as [b|] eqn:Hb; [|done]. injection Hx as -> ->.
  apply execs_bind in H as (z & s2 & Hz & [Hres ->]).
  apply execs_bind in Hz as (y & s3 & [-> ->] & (u & s4 & _ & -> & ->)%execs_bind).
  cbn in Hres. injection Hres as ->. by exists b.
Qed.

(** The row an upload writes. *)
Definition uploaded (namespace : Namespace) (name : string) (body : string) (row : Plugin) : Prop :=
  p_Namespace row = namespace ∧ p_Name row = name ∧
  p_ContentHash row = so_ContentHash (object_of body) ∧ p_Size row = so_Size (object_of body).

Lemma store_plugin_spec c ns name desc mf body ex s r s' :
  store_ok (pstore s) →
  execs faulty (store_plugin c ns name desc mf body ex) s r s' →
  (∃ e, r = Err e) ∧ s' = s ∨
  ∃ row old, r = Ok (View.pluginFromRow row) ∧ pstore s' = with_blob (p_ID row) body (pstore s) ∧
    row_written row old (prepo s) (prepo s') ∧ uploaded ns name body row ∧
    (Z.of_nat (String.length body) ≤ PluginStorage.memoryStorageMaxPutBodyBytes)%Z ∧
    PluginStorage.closed (pstore s) = false ∧
    match ex with
    | Some p => is_Some old ∧ p_ID row = p_ID p ∧ p_CreatedAt row = p_CreatedAt p
    | None => old = None ∧ PluginStorage.blobs (pstore s) !! p_ID row = None
    end.
Proof.
  intros Hst (newID & s1 & Hid%execs_call_inv & (now & s2 & Hnow%execs_call_inv & H)%execs_bind)%execs_bind.
  destruct Hid as [(-> & Hfresh & Hnoblob)|[[] _]]. apply read_call in Hnow as ->; [|done].
  apply execs_bind in H as (old & s2 & Hold & H).
  assert (s2 = s) as ->.
  { destruct ex; [|by destruct Hold as [_ ->]]. apply execs_bind in Hold as (o & s3 & Ho & [_ ->]).
    eapply read_only, Ho. apply read_old_reads. }
  destruct old as [old|e]; [|destruct H as [-> ->]; left; by eauto].
  assert (replaces s (match ex with Some p => p_ID p | None => newID end) old ∧
          (is_Some ex ↔ is_Some old)) as [Hrep Hiff].
  { destruct ex as [p|].
    - apply execs_bind in Hold as (o & s3 & Ho & [Hr ->]). destruct o as [o|]; [|done]. injection Hr as ->.
      split; [by eapply read_old_spec|done].
    - destruct Hold as [[= ->] _]. by split. }
  apply execs_bind in H as (put & s2 & Hput%execs_call_inv & H).
  set (id := match ex with Some p => p_ID p | None => newID end) in *.
  apply must_inv in H as [[-> (e & -> & ->)]|(stored & -> & H)].
  { left. split; [by eexists|]. destruct Hput as [[Hp Hput]|[_ ->]]; [|done]. cbn in Hput.
    destruct (put_cases id body (pstore s)) as [[e' E]|(_ & _ & E)]; rewrite E in Hput; [|done].
    injection Hput as _ Hs. by apply pstate_eq. }
  apply execs_bind in H as (t & s3 & Ht%execs_call_inv & H). apply read_call in Ht as ->; [|done].
  destruct Hput as [[Hp Hput]|[[_ Hput] _]]; [|done]. cbn in Hput.
  destruct (put_cases id body (pstore s)) as [[e' E]|(Hc & Hlen & E)]; rewrite E in Hput; [done|].
  injection Hput as <- Hs. assert (s2 = stored_in s id body) as -> by (by apply pstate_eq).
  match type of H with execs _ (write_row _ ?row _) _ _ _ =>
    apply (write_row_spec c row old body s) in H as [?|(-> & Hs' & Hrow)]; [by left| |done..] end.
  right. eexists _, old. split_and!; [done|done|exact Hrow|done|done|done|].
  destruct ex as [p|]; simpl; [split_and!; [by apply Hiff|done..]|].
  split; [|done]. destruct old; [|done]. by destruct (proj2 Hiff).
Qed.

(** What a successful metadata write does to the repository. *)
Lemma row_written_effect row old r r' :
  repo_inv r → row_written row old r r' →
  repo_inv r' ∧ closed r' = false ∧
  (∃ st, byID r' = <[p_ID row := st]> (byID r) ∧ key st = key row ∧ p_ID st = p_ID row ∧
         p_ContentHash st = p_ContentHash row ∧ p_Size st = p_Size row) ∧
  (∀ id p, byID r !! id = Some p → key p = key row → id = p_ID row ∧ is_Some old).
Proof.
  intros Hr Hw. destruct old as [old|]; unfold row_written in Hw.
  - split; [pose proof (plugin_Update_inv row r Hr) as Hi; by rewrite Hw in Hi|].
    destruct (plugin_Update_cases row r) as [[e E]|(ex & Hc & Hex & Hk & E)]; rewrite E in Hw; [done|].
    injection Hw as <-. destruct (inv_row r Hr _ _ Hex) as [Hid _]. cbn [byID closed].
    split_and!; [done| |].
    + rewrite Hid. eexists. split; [reflexivity|]. by split_and!.
    + intros id p Hp E'. split; [|done]. apply Hk. rewrite <-E'. by apply (inv_row r Hr).
  - split; [pose proof (plugin_Insert_inv row r Hr) as Hi; by rewrite Hw in Hi|].
    destruct (plugin_Insert_cases row r) as [[e E]|(Hc & _ & Hk & E)]; rewrite E in Hw; [done|].
    injection Hw as <-. cbn [byID closed]. split_and!; [done|eexists; split; [reflexivity|]; by split_and!|].
    intros id p Hp E'. apply (inv_row r Hr) in Hp as [_ Hp]. congruence.
Qed.

(** The rest of an upload only reads. *)
Lemma manifest_reads body : never writes (read_manifest body).
Proof. unfold read_manifest. by never_go. Qed.

Lemma create_plugin_spec c req s r s' :
  store_ok (pstore s) → execs faulty (CreatePlugin c req) s r s' →
  (∃ e, r = Err e) ∧ s' = s ∨
  ∃ content name desc mf ex, cp_Content req = Some content ∧ cn_err content = None ∧
    let body := total (cn_chunks content) in
    let ns := normalizeNamespace (cp_Namespace req) in
    (Z.of_nat (String.length body) ≤ defaultPluginUploadLimit)%Z ∧
    match ex with Some p => GetByName ns name (prepo s) = Ok p | None => True end ∧
    execs faulty (store_plugin c ns name desc mf body ex) s r s'.
Proof.
  intros Hst [[-> [e ->]]|H]%gated_inv; [left; by eauto|].
  apply execs_bind in H as (e & s1 & He%execs_call_inv & H). apply read_call in He as ->; [|done].
  destruct e as [e|]; [destruct H as [-> ->]; left; by eauto|].
  apply must_inv in H as [[-> (e & _ & ->)]|([] & _ & H)]; [left; by eauto|].
  destruct (cp_Content req) as [content|] eqn:Hcn; [|destruct H as [-> ->]; left; by eauto].
  apply execs_bind in H as (read & s1 & [-> Hread]%read_body_spec & H).
  apply must_inv in H as [[-> (e & _ & ->)]|(body & -> & H)]; [left; by eauto|].
  destruct (Hread body eq_refl) as (-> & Hend & Hlim).
  apply execs_bind in H as (got & s1 & Hgot & H).
  apply read_only in Hgot as ->; [|apply manifest_reads].
  destruct got as [mf|e]; [|destruct H as [-> ->]; left; by eauto].
  cbn zeta in H. case_decide as Hname; [destruct H as [-> ->]; left; by eauto|].
  apply must_inv in H as [[-> (e & _ & ->)]|([] & _ & H)]; [left; by eauto|].
  apply execs_bind in H as (found & s1 & Hf%execs_call_inv & H).
  assert (s1 = s) as -> by (by eapply read_call, Hf).
  destruct found as [ex|e].
  - right. exists content. do 3 eexists. exists (Some ex). do 2 (split; [done|]). cbn zeta.
    split; [done|]. split; cycle 1; [exact H|]. by destruct Hf as [[_ Hf]|[[_ Hf] _]].
  - destruct (errors_Is e ErrPluginNotFound); [|destruct H as [-> ->]; left; by eauto].
    right. exists content. do 3 eexists. exists None. do 2 (split; [done|]). cbn zeta.
    split; [done|]. split; [done|exact H].
Qed.

(** C7. An upload is all-or-nothing. Whatever the client sends, and whichever calls
    made with its context fail, the stores stay consistent: every row describes the
    blob under its id. If [CreatePlugin] fails, both stores are exactly as before. If
    it succeeds, the whole content was read to its end and is within the limit, the
    blob under the plugin's id is that content with its length and SHA-256, the row
    answers to the normalised name with that hash and size, all other rows and blobs
    are as before, and a plugin that already had the name keeps its id and creation
    time. *)
Theorem create_plugin_atomic (c : ctx) (req : CreatePluginRequest) (s s' : pstate) (r : result View.Plugin) :
  plugins_ok s → execs faulty (CreatePlugin c req) s r s' →
  plugins_ok s' ∧
  match r with
  | Err _ => s' = s
  | Ok p => ∃ content row, cp_Content req = Some content ∧ cn_err content = None ∧
      let body := total (cn_chunks content) in
      let ns := normalizeNamespace (cp_Namespace req) in
      (Z.of_nat (String.length body) ≤ defaultPluginUploadLimit)%Z ∧
      PluginStorage.Get (View.ID p) (pstore s') = Ok (bytes_reader body, object_of body) ∧
      GetByName ns (View.Name p) (prepo s') = Ok row ∧ p_ID row = View.ID p ∧
      p_ContentHash row = so_ContentHash (object_of body) ∧ p_Size row = so_Size (object_of body) ∧
      (∀ id, id ≠ View.ID p → byID (prepo s') !! id = byID (prepo s) !! id ∧
         PluginStorage.blobs (pstore s') !! id = PluginStorage.blobs (pstore s) !! id) ∧
      (∀ id old, byID (prepo s) !! id = Some old → key old = (ns, View.Name p) →
         View.ID p = id ∧ View.CreatedAt p = p_CreatedAt old)
  end.
Proof.
  intros [Hr Hst Hd] [[[e ->] ->]|(content & name & desc & mf & ex & Hcn & Hend & H)]%create_plugin_spec;
    [by split|..|done].
  cbn zeta in H. destruct H as (Hlim & Hex & H).
  apply store_plugin_spec in H as [[[e ->] ->]|(row & old & -> & Hps & Hw & Hu & Hlen & Hc & Hold)];
    [by split| |done].
  destruct Hu as (Hns & Hnm & Hh & Hz).
  destruct (row_written_effect _ _ _ _ Hr Hw) as (Hr' & Hc' & (st & Hby & Hk & Hid & Hsh & Hsz) & Hkeys).
  set (body := total (cn_chunks content)) in *.
  assert (∀ id, id ≠ p_ID row → byID (prepo s') !! id = byID (prepo s) !! id ∧
    PluginStorage.blobs (pstore s') !! id = PluginStorage.blobs (pstore s) !! id) as Hoth.
  { intros id Hne. rewrite Hby, Hps. unfold with_blob. cbn [PluginStorage.blobs].
    by rewrite !lookup_insert_ne. }
  assert (byID (prepo s') !! p_ID row = Some st) as Hst'.
  { rewrite Hby. apply lookup_insert_eq. }
  assert (PluginStorage.blobs (pstore s') !! p_ID row = Some (blob_of body)) as Hbl.
  { rewrite Hps. apply lookup_insert_eq. }
  split.
  { split; [done|rewrite Hps; by apply with_blob_ok|].
    intros id p. destruct (decide (id = p_ID row)) as [->|Hne].
    - rewrite Hst'. intros [= <-]. exists (blob_of body). cbn. by rewrite Hsh, Hsz.
    - destruct (Hoth id Hne) as [-> ->]. apply Hd. }
  exists content, (clonePlugin st). split; [done|]. split; [done|]. cbn zeta.
  change (View.ID (View.pluginFromRow row)) with (p_ID row).
  change (View.Name (View.pluginFromRow row)) with (p_Name row).
  change (View.CreatedAt (View.pluginFromRow row)) with (p_CreatedAt row).
  assert (key row = (normalizeNamespace (cp_Namespace req), p_Name row)) as Hkey.
  { unfold key. by rewrite Hns. }
  split_and!; [done| | |done|by etrans|by etrans|done|].
  - unfold PluginStorage.Get. rewrite Hbl, Hps. cbn [with_blob PluginStorage.closed]. by rewrite Hc.
  - apply (PluginRepoSpec.GetByName_iff (prepo s')); [done|done|]. exists (p_ID row), st.
    split_and!; [done|by rewrite Hk|done].
  - rewrite <-Hkey. intros id p Hp Hkp. destruct (Hkeys id p Hp Hkp) as [-> Hso]. split; [done|].
    destruct ex as [p'|]; [|by destruct Hold as [-> _]; destruct Hso].
    destruct Hold as (_ & Hpid & ->). destruct (inv_row _ Hr _ _ Hp) as [Hpi _].
    assert (PluginRepository.closed (prepo s) = false) as Hcs.
    { unfold row_written in Hw. destruct old; [|done].
      by destruct (plugin_Update_cases row (prepo s)) as [[e E]|(? & ? & _)]; [rewrite E in Hw|]. }
    rewrite <-Hns in Hex.
    apply (PluginRepoSpec.GetByName_iff (prepo s)) in Hex as (id' & p0 & Hp0 & _ & ->); [|done|done].
    destruct (inv_row _ Hr _ _ Hp0) as [Hp0i _]. simpl in Hpid. rewrite Hp0i in Hpid. subst id'.
    rewrite Hp in Hp0. by injection Hp0 as ->.
Qed.

(** *** An executable collaborator that never fails *)

Definition in_use (s : pstate) : gset PluginID := dom (byID (prepo s)) ∪ dom (PluginStorage.blobs (pstore s)).

Definition set_prepo (s : pstate) {X} (p : X * repo) : X * pstate :=
  (p.1, {| prepo := p.2; pstore := pstore s |}).
Definition set_pstore (s : pstate) {X} (p : X * PluginStorage.storage) : X * pstate :=
  (p.1, {| prepo := prepo s; pstore := p.2 |}).

(** Every archive has the manifest [mf]. *)
Definition plugin_handler (mf : Manifest) : handler mcall pstate := λ X e,
  match e in mcall X return pstate → X * pstate with
  | @W X e => λ s, (match e in wcall X return X with ReaderManifest _ => mf | e => all_good _ e end, s)
  | NewPluginID => λ s, (fresh (in_use s), s)
  | NewWorkspaceID => λ s, ("wsp_1", s)
  | BeginOp => λ s, (true, s)
  | StartAllowed => λ s, (true, s)
  | StopEnter => λ s, (Gate.Proceed, s)
  | WaitApi _ => λ s, (None, s)
  | EndOp | StopDone | LockCreate | UnlockCreate | BlobClose => λ s, ((), s)
  | PluginGet _ id => λ s, (Get id (prepo s), s)
  | PluginGetByName _ ns name => λ s, (GetByName ns name (prepo s), s)
  | PluginList _ o => λ s, (List_ o (prepo s), s)
  | PluginInsert _ p => λ s, set_prepo s (Insert p (prepo s))
  | PluginUpdate _ p => λ s, set_prepo s (Update p (prepo s))
  | PluginDelete _ id => λ s, set_prepo s (Delete id (prepo s))
  | BlobPut _ id body => λ s, set_pstore s (PluginStorage.Put id (bytes_reader body) (pstore s))
  | BlobGet _ id => λ s, (PluginStorage.Get id (pstore s), s)
  | BlobDelete _ id => λ s, set_pstore s (PluginStorage.Delete id (pstore s))
  | BlobPresign _ id _ _ => λ s, (PluginStorage.PresignURL id (pstore s), s)
  | OpenZipReader _ => λ s, (Ok 1, s)
  | WorkspaceInsert _ _ => λ s, (Ok (), s)
  | WorkspaceGetByAlias _ _ _ => λ s, (Err ErrWorkspaceNotFound, s)
  | FactoryTypes | SpecTypes => λ s, ([], s)
  | CtlSubmit _ _ | CtlStart | SchStart => λ s, (Ok (), s)
  | CtlStop _ | SchStop _ => λ s, (Ok (), s)
  | CloseWorkspaceRepo | ClosePluginRepo | ClosePluginStorage => λ s, (Ok (), s)
  end.

Lemma plugin_handler_sound mf {A} (p : mproc A) s a s' :
  run (plugin_handler mf) p s = (a, s') → execs faulty p s a s'.
Proof.
  revert s. induction p as [b|X e k IH]; intros s; simpl; [by intros [= -> ->]|].
  destruct (plugin_handler mf X e s) as [x s1] eqn:Hx. intros Hk%IH.
  exists x, s1. split; [|done]. left.
  destruct e; cbn in Hx |- *; unfold set_prepo, set_pstore in Hx; simplify_eq; cbn;
    rewrite <-?surjective_pairing; try done.
  assert (fresh (in_use s1) ∉ in_use s1) as Hf by apply is_fresh. unfold in_use in Hf at 2.
  split; [done|]. split; apply not_elem_of_dom; set_solver.
Qed.

Definition manifest_of (name : string) : Manifest := {|
  mf_SchemaVersion := 1; mf_Plugin := {| mp_Name := name; mp_Description := ""; mp_Metadata := None |};
  mf_Skills := None; mf_Rules := None; mf_Hooks := None; mf_Subagents := None; mf_MCPs := None |}%Z.

Definition upload (chunks : list string) : CreatePluginRequest := {|
  cp_Namespace := ""; cp_Name := "git"; cp_Description := "";
  cp_Content := Some {| cn_chunks := chunks; cn_err := None |} |}.

Definition no_plugins : pstate :=
  {| prepo := NewPluginRepository; pstore := PluginStorage.NewPluginStorage |}.

Lemma no_plugins_ok : plugins_ok no_plugins.
Proof.
  split.
  - apply plugin_reachable_repo_inv. apply rtc_refl.
  - apply map_Forall_empty.
  - intros id p. cbn. by rewrite lookup_empty.
Qed.

(** A first upload, then an overwrite of it. *)
Definition once : result View.Plugin * pstate :=
  run (plugin_handler (manifest_of "git")) (CreatePlugin (CtxParent 1) (upload ["P"; "K"])) no_plugins.
Definition twice : result View.Plugin * pstate :=
  run (plugin_handler (manifest_of "git")) (CreatePlugin (CtxParent 1) (upload ["PK2"])) once.2.

Lemma create_plugin_atomic_witness :
  ∃ q, twice.1 = Ok q ∧ plugins_ok once.2 ∧ plugins_ok twice.2 ∧
    PluginStorage.Get (View.ID q) (pstore twice.2) = Ok (bytes_reader "PK2", object_of "PK2").
Proof.
  assert (is_ok twice.1 = true) as Hok by (vm_compute; reflexivity).
  destruct once as [r1 s1] eqn:E1, twice as [[q|e] s2] eqn:E2; [|done].
  exists q. split; [done|].
  unfold twice in E2. rewrite E1 in E2. unfold once in E1.
  apply plugin_handler_sound in E1. apply plugin_handler_sound in E2.
  destruct (create_plugin_atomic _ _ _ _ _ no_plugins_ok E1) as [Hok1 _].
  destruct (create_plugin_atomic _ _ _ _ _ Hok1 E2) as [Hok2 (cn & row & Hc & _ & _ & Hg & _)].
  injection Hc as <-. split; [done|]. split; [done|exact Hg].
Defined.
End PluginUpload.

(** ** Two uploads at once *)

Module UploadRace.
Import PluginUpload Manager.

(** The hash the row of a name records, and the hash of the blob under the row's id. *)
Definition row_hash (s : pstate) (name : string) : string :=
  match PluginRepository.GetByName defaultNamespace name (prepo s) with
  | Ok p => p_ContentHash p
  | Err _ => ""
  end.
Definition blob_hash (s : pstate) (name : string) : string :=
  match PluginRepository.GetByName defaultNamespace name (prepo s) with
  | Ok p => match PluginStorage.Get (p_ID p) (pstore s) with
            | Ok (_, obj) => so_ContentHash obj
            | Err _ => ""
            end
  | Err _ => ""
  end.

(** Two clients overwrite the plugin [once] stored, under a schedule of their calls. *)
Definition race (schedule : list bool)
    : option (result View.Plugin) * option (result View.Plugin) * pstate :=
  let '(p, q, s) := interleave (plugin_handler (manifest_of "git")) schedule
    (CreatePlugin (CtxParent 1) (upload ["PK2"])) (CreatePlugin (CtxParent 2) (upload ["PK3"])) once.2 in
  (returned p, returned q, s).

(** The first client stores its blob, the second does its whole upload, then the
    first writes its row. *)
Definition between_blob_and_row : list bool :=
  replicate 14 true ++ replicate 16 false ++ replicate 3 true.

Definition mismatched (r : option (result View.Plugin) * option (result View.Plugin) * pstate) : bool :=
  match r with
  | (Some (Ok _), Some (Ok _), s) => bool_decide (row_hash s "git" ≠ blob_hash s "git")
  | _ => false
  end.

(** The guarantee is per upload only: the blob and the row are written by two
    calls with nothing held in between, so there is a schedule of two uploads of the
    same name that both succeed and leave the name's row with a hash that is not the
    hash of its blob. *)
Theorem concurrent_uploads_mismatch :
  ∃ schedule v1 v2 s, race schedule = (Some (Ok v1), Some (Ok v2), s) ∧
    row_hash s "git" ≠ blob_hash s "git".
Proof.
  exists between_blob_and_row.
  assert (mismatched (race between_blob_and_row) = true) as H by (vm_compute; reflexivity).
  destruct (race between_blob_and_row) as [[[[v1|]|] [[v2|]|]] s]; try done.
  exists v1, v2, s. split; [done|]. by apply bool_decide_eq_true in H.
Qed.
End UploadRace.
