(* ===== verification/CreationSpec.v ===== *)
(** * Creating workspaces against the in-memory repository

    [WorkspaceCreation] runs [CreateWorkspace] with [WorkspaceRepository] behind it.
    Any number of creations run at once, interleaved call by call with each other and
    with the controller, the scheduler and deletions; [createWorkspaceMu] is part of the
    state, taken and given back by the calls of [CreateWorkspace]. No two localdir
    workspaces ever share a directory: each creation is shown to insert only while it
    holds the mutex ([steady]), so that the check it makes before still holds when it
    inserts. [CreationResult] runs a creation alone: it either adds exactly the requested
    row and queues its install, or leaves no trace. *)

From S2P Require Import Prelude GoString GoError GoValue GoPath WorkspaceTypes PluginTypes PluginStorage.
From S2P Require Import WorkspaceRepo Proc WorkspaceWorld ManagerTypes Manager.
From stdpp Require Import options.

Module WorkspaceCreation.
Import WorkspaceRepository WorkspaceInvariant WorkspaceListing WorkspaceRepoSpec Manager.

(** The repository, the installs the controller accepted, what the plugin repository
    answers for an id, and the registered agent specs and infra factories. *)
Record wstate := {
  rows : repo;
  queued : list (Workspace * InstallParams);
  plugins : PluginID → result Plugin;
  agents : AgentType → bool;
  factories : InfraType → bool;
}.

Definition set_rows (s : wstate) (r : repo) : wstate := {|
  rows := r; queued := queued s; plugins := plugins s; agents := agents s; factories := factories s |}.
Definition set_queue (s : wstate) (q : list (Workspace * InstallParams)) : wstate := {|
  rows := rows s; queued := q; plugins := plugins s; agents := agents s; factories := factories s |}.
Definition set_plugins (s : wstate) (ps : PluginID → result Plugin) : wstate := {|
  rows := rows s; queued := queued s; plugins := ps; agents := agents s; factories := factories s |}.

(** One call. A generated id is new to the repository; the other collaborators may
    answer anything. Whether the mutex can be taken is left to [lock_step]. *)
Definition ws_call {X} (e : mcall X) : wstate → X → wstate → Prop :=
  match e in mcall X return wstate → X → wstate → Prop with
  | NewWorkspaceID => λ s x s', s' = s ∧ byID (rows s) !! x = None
  | WorkspaceInsert _ w => λ s x s', ∃ r, Insert w (rows s) = (x, r) ∧ s' = set_rows s r
  | WorkspaceGetByAlias _ ns al => λ s x s', s' = s ∧ x = GetByAlias ns al (rows s)
  | CtlSubmit w p => λ s x s', s' = if is_ok x then set_queue s (queued s ++ [(w, p)]) else s
  | PluginGet _ id => λ s x s', s' = s ∧ x = plugins s id
  | @W X e =>
      match e in wcall X return wstate → X → wstate → Prop with
      | RepoGet _ id => λ s x s', s' = s ∧ x = Get id (rows s)
      | RepoList _ o => λ s x s', s' = s ∧ x = List_ o (rows s)
      | RepoDelete _ id => λ s x s', ∃ r, Delete id (rows s) = (x, r) ∧ s' = set_rows s r
      | RepoUpdate _ w => λ s x s', ∃ r, Update w (rows s) = (x, r) ∧ s' = set_rows s r
      | RepoUpdateStatusCAS _ id wr ex nx e t => λ s x s',
          ∃ now r, UpdateStatusCAS id wr ex nx e t now (rows s) = (x, r) ∧ s' = set_rows s r
      | SpecGet t => λ s x s', s' = s ∧ x = agents s t
      | FactoryGet t => λ s x s', s' = s ∧ x = factories s t
      | _ => λ s _ s', s' = s
      end
  | _ => λ s _ s', s' = s
  end.

(** Before each call the other clients of the repository may have taken [I] steps. *)
Definition with_others (I : relation wstate) : answers mcall wstate := λ X e s x s',
  ∃ s1, rtc I s s1 ∧ ws_call e s1 x s'.

Definition nobody : relation wstate := λ _ _, False.

(** The other clients of the repository while a creation holds the mutex: any operation
    but an insertion; updates keep the directory option of the row they replace. *)
Inductive other_client : relation wstate :=
| other_op o s :
    (∀ w, o ≠ OpInsert w) →
    (∀ w ex, o = OpUpdate w → byID (rows s) !! w_ID w = Some ex →
       localdirDirOption (w_InfraOptions w) = localdirDirOption (w_InfraOptions ex)) →
    other_client s (set_rows s (run_op o (rows s)).2)
| other_queue s q : other_client s (set_queue s q)
| other_plugins s ps : other_client s (set_plugins s ps).

Lemma nobody_id s s' : rtc nobody s s' → s' = s.
Proof. by inversion 1. Qed.

(** ** Directory options *)

Lemma dir_clone m : localdirDirOption (cloneMapAny m) = localdirDirOption m.
Proof.
  unfold localdirDirOption, cloneMapAny. rewrite gm_get_map.
  destruct (gm_get m infraOptionDir) as [v|]; [|done].
  destruct v as [| | | | | |[g|]|[l|]|]; cbn [fmap option_fmap option_map]; try done.
  rewrite deepCloneAny_map. done.
Qed.

(** The directory a row occupies. *)
Definition dir_of (w : Workspace) : option string :=
  if decide (w_InfraType w = localdirInfraType) then localdirDirOption (w_InfraOptions w) else None.

Lemma dir_of_clone w : dir_of (cloneWorkspace w) = dir_of w.
Proof. unfold dir_of. cbn. case_decide; [|done]. apply dir_clone. Qed.

Definition one_per_dir (r : repo) : Prop :=
  ∀ id1 id2 w1 w2 d, byID r !! id1 = Some w1 → byID r !! id2 = Some w2 →
    dir_of w1 = Some d → dir_of w2 = Some d → id1 = id2.

(** No row occupies [d]. *)
Definition dir_free (d : string) (r : repo) : Prop :=
  ∀ id w, byID r !! id = Some w → dir_of w ≠ Some d.

Definition valid_namespaces (r : repo) : Prop :=
  ∀ id w, byID r !! id = Some w → namespacePattern (w_Namespace w) = true.

Lemma valid_nul_free r : valid_namespaces r → nul_free r.
Proof. intros Hv id w Hw. eapply namespace_no_nul, Hv, Hw. Qed.

(** Every row of [r'] was in [r] with the same key and directory. *)
Definition shrinks (r r' : repo) : Prop :=
  ∀ id w', byID r' !! id = Some w' →
    ∃ w, byID r !! id = Some w ∧ identity w' = identity w ∧ dir_of w' = dir_of w.

Lemma shrinks_refl r : shrinks r r.
Proof. intros id w Hw. by exists w. Qed.

Lemma shrinks_trans r1 r2 r3 : shrinks r1 r2 → shrinks r2 r3 → shrinks r1 r3.
Proof.
  intros H12 H23 id w3 H3. destruct (H23 id w3 H3) as (w2 & H2 & ? & ?).
  destruct (H12 id w2 H2) as (w1 & H1 & ? & ?). exists w1. split_and!; [done|congruence..].
Qed.

Lemma identity_ns w w' : identity w' = identity w → w_Namespace w' = w_Namespace w ∧ w_Alias w' = w_Alias w.
Proof. by intros [=]. Qed.

Lemma shrinks_one_per_dir r r' : shrinks r r' → one_per_dir r → one_per_dir r'.
Proof.
  intros Hs Ho id1 id2 w1 w2 d H1 H2 D1 D2.
  destruct (Hs _ _ H1) as (u1 & ? & _ & E1), (Hs _ _ H2) as (u2 & ? & _ & E2).
  apply (Ho id1 id2 u1 u2 d); congruence.
Qed.

Lemma shrinks_free d r r' : shrinks r r' → dir_free d r → dir_free d r'.
Proof.
  intros Hs Hf id w Hw. destruct (Hs _ _ Hw) as (u & Hu & _ & ->). by eapply Hf.
Qed.

Lemma shrinks_valid r r' : shrinks r r' → valid_namespaces r → valid_namespaces r'.
Proof.
  intros Hs Hv id w Hw. destruct (Hs _ _ Hw) as (u & Hu & [-> _]%identity_ns & _). by eapply Hv.
Qed.

(** *** The other clients only shrink *)

Lemma update_options w r ex w' :
  repo_inv r → byID r !! w_ID w = Some ex → byID (Update w r).2 !! w_ID w = Some w' →
  localdirDirOption (w_InfraOptions w) = localdirDirOption (w_InfraOptions ex) →
  localdirDirOption (w_InfraOptions w') = localdirDirOption (w_InfraOptions ex).
Proof.
  intros Hr Hex Hw' Hd. destruct (inv_row r Hr _ _ Hex) as [Hid _]. unfold Update in Hw'.
  destruct (closed r); [cbn in Hw'; congruence|]. rewrite Hex in Hw'.
  case_decide; [cbn in Hw'; congruence|].
  destruct (validateKnownStatus _); [|cbn in Hw'; congruence].
  destruct (validateImmutableFields _ _); [|cbn in Hw'; congruence].
  cbn [snd] in Hw'. rewrite put_row_lookup, decide_True in Hw' by done. injection Hw' as <-.
  cbn. by rewrite dir_clone.
Qed.

Lemma run_op_options o r id w w' :
  repo_inv r → (∀ w, o ≠ OpInsert w) →
  (∀ w ex, o = OpUpdate w → byID r !! w_ID w = Some ex →
     localdirDirOption (w_InfraOptions w) = localdirDirOption (w_InfraOptions ex)) →
  byID r !! id = Some w → byID (run_op o r).2 !! id = Some w' →
  localdirDirOption (w_InfraOptions w') = localdirDirOption (w_InfraOptions w).
Proof.
  intros Hr Hni Hup Hw. destruct o as [w0|w0|id0 s e t now|id0 wr ex nx e t now|id0|]; cbn [run_op].
  - by destruct (Hni w0).
  - destruct (decide (w_ID w0 = id)) as [<-|Hne].
    { intros Hw'. eapply update_options; [done..|]. by apply Hup. }
    destruct (Update_cases w0 r) as [[e ->]|(ex & w1 & -> & _ & Hex & _)]; [cbn; congruence|].
    destruct (inv_row r Hr _ _ Hex) as [Hexid _]. cbn [snd].
    rewrite put_row_lookup, decide_False by congruence. congruence.
  - destruct (UpdateStatus_cases id0 s e t now r) as [[e' ->]|(row & _ & Hrow & _ & _ & ->)]; [cbn; congruence|].
    cbn [snd]. rewrite put_row_lookup. case_decide as Hd; [|congruence]. intros [= <-]. cbn. congruence.
  - destruct (UpdateStatusCAS_cases id0 wr ex nx e t now r)
      as [[e' ->]|(row & _ & Hrow & _ & _ & ->)]; [cbn; congruence|].
    cbn [snd]. rewrite put_row_lookup. case_decide as Hd; [|congruence]. intros [= <-]. cbn. congruence.
  - destruct (Delete_cases id0 r) as [[e ->]|(row & _ & _ & ->)]; [cbn; congruence|]. cbn.
    rewrite lookup_delete. case_decide; [done|congruence].
  - cbn. congruence.
Qed.

Lemma run_op_shrinks o r :
  repo_inv r → (∀ w, o ≠ OpInsert w) →
  (∀ w ex, o = OpUpdate w → byID r !! w_ID w = Some ex →
     localdirDirOption (w_InfraOptions w) = localdirDirOption (w_InfraOptions ex)) →
  shrinks r (run_op o r).2.
Proof.
  intros Hr Hni Hup id w' Hw'. destruct (byID r !! id) as [w|] eqn:Hw.
  - exists w. split; [done|]. destruct (run_op_row o r id w w' Hr Hw Hw') as [Hid _].
    split; [done|]. unfold dir_of. injection Hid as _ _ _ _ -> _.
    case_decide; [|done]. by eapply run_op_options.
  - rewrite run_op_absent in Hw'; [done| |done|done]. intros w0 E. by destruct (Hni w0).
Qed.

(** The states a creation can rely on. *)
Definition sound (s : wstate) : Prop := repo_inv (rows s) ∧ valid_namespaces (rows s).

Lemma other_shrinks s s' : other_client s s' → sound s → sound s' ∧ shrinks (rows s) (rows s').
Proof.
  intros [o s0 Hni Hup|s0 q|s0 ps] [Hr Hv]; cbn; [|by split; [|apply shrinks_refl]..].
  pose proof (run_op_shrinks o (rows s0) Hr Hni Hup) as Hs.
  split; [|done]. split; [by apply run_op_inv|by eapply shrinks_valid].
Qed.

Lemma others_shrink s s' : rtc other_client s s' → sound s → sound s' ∧ shrinks (rows s) (rows s').
Proof.
  induction 1 as [s|s s1 s' H1 _ IH]; intros Hs; [split; [done|apply shrinks_refl]|].
  destruct (other_shrinks _ _ H1 Hs) as [Hs1 H01]. destruct (IH Hs1) as [Hs' H1'].
  split; [done|]. by eapply shrinks_trans.
Qed.

(** ** One page covers its range *)

Lemma after_cursor_clone o c w : after_cursor o c (cloneWorkspace w) = after_cursor o c w.
Proof. done. Qed.

Lemma page_covers o r c pg next id w :
  repo_inv r → List_ o r = Ok (pg, next) → parseWorkspaceCursor (lo_Cursor o) = Ok c →
  byID r !! id = Some w → row_matches o w = true → after_cursor o c w = true →
  cloneWorkspace w ∈ pg ∨
  ∃ l, l ∈ pg ∧ next = encodeCursor (w_Namespace l) (w_Alias l) ∧ row_lt l w.
Proof.
  intros Hr Hl Hc Hw Hm Ha. unfold List_ in Hl. destruct (closed r); [done|]. rewrite Hc in Hl.
  set (lim := if decide (lo_Limit o ≤ 0)%Z then 50%Z else lo_Limit o) in Hl.
  set (P := λ row, row_matches o row = true ∧ after_cursor o c row = true) in Hl.
  set (sorted := merge_sort row_le (cloneWorkspace <$> filter P (rows_of r))) in *.
  assert (cloneWorkspace w ∈ sorted) as Hin.
  { unfold sorted. rewrite merge_sort_Permutation. apply list_elem_of_fmap. exists w. split; [done|].
    apply list_elem_of_filter. split; [done|]. apply elem_of_rows. by exists id. }
  case_decide as Hlen; [apply nil_length_inv in Hlen; rewrite Hlen in Hin; by apply not_elem_of_nil in Hin|].
  injection Hl as <- <-. set (n := Z.to_nat _).
  assert (StronglySorted row_lt sorted) as Hsort.
  { unfold sorted, P. rewrite (sort_filter_after r o (λ row, after_cursor o c row = true)) by done.
    apply StronglySorted_filter. by apply selection_sorted. }
  rewrite <-(take_drop n sorted) in Hin, Hsort.
  apply elem_of_app in Hin as [Hin|Hin]; [by left|right].
  destruct (decide (Z.min lim (Z.of_nat (length sorted)) < Z.of_nat (length sorted))%Z) as [Hlt|Hge].
  2: { rewrite drop_ge in Hin by (unfold n; lia). by apply not_elem_of_nil in Hin. }
  assert (0 < lim)%Z as Hlim by (unfold lim; case_decide; lia).
  destruct (last (take n sorted)) as [l|] eqn:Hlast.
  2: { apply last_None, (f_equal length) in Hlast. rewrite length_take in Hlast. unfold n in Hlast.
       cbn in Hlast. lia. }
  assert (l ∈ take n sorted) as Hl.
  { apply last_Some in Hlast as [l' ->]. apply elem_of_app. right. by apply list_elem_of_singleton. }
  exists l. split_and!; [done|done|]. by apply (StronglySorted_app_1_elem_of row_lt _ _ l (cloneWorkspace w) Hsort).
Qed.

Lemma page_elem o r pg next l :
  List_ o r = Ok (pg, next) → l ∈ pg → ∃ id w, byID r !! id = Some w ∧ l = cloneWorkspace w.
Proof.
  unfold List_. destruct (closed r); [done|]. destruct (parseWorkspaceCursor (lo_Cursor o)); [|done].
  case_decide; [intros [= <- <-] []%not_elem_of_nil|]. intros [= <- <-] Hl.
  eapply elem_of_sublist in Hl; [|apply sublist_take]. rewrite merge_sort_Permutation in Hl.
  apply list_elem_of_fmap in Hl as (w & -> & [_ [id Hw]%elem_of_rows]%list_elem_of_filter). eauto.
Qed.

(** ** The directory scan *)

(** Every row occupying [d] comes strictly after the cursor. *)
Definition scanned (d cursor : string) (r : repo) : Prop :=
  ∀ id w, byID r !! id = Some w → dir_of w = Some d →
    cursor = "" ∨ ∃ ns al, cursor = encodeCursor ns al ∧ has_byte NUL ns = false ∧
      (0 < compareNamespaceAlias (w_Namespace w) (w_Alias w) ns al)%Z.

Lemma scanned_shrinks d cursor r r' : shrinks r r' → scanned d cursor r → scanned d cursor r'.
Proof.
  intros Hs Hr id w Hw Hd. destruct (Hs _ _ Hw) as (u & Hu & [-> ->]%identity_ns & Hud).
  apply (Hr id u Hu). congruence.
Qed.

Lemma dir_of_localdir w d :
  dir_of w = Some d → w_InfraType w = localdirInfraType ∧ localdirDirOption (w_InfraOptions w) = Some d.
Proof. unfold dir_of. by case_decide. Qed.

Lemma scanned_cursor d cursor r id w :
  scanned d cursor r → byID r !! id = Some w → dir_of w = Some d →
  ∃ c, parseWorkspaceCursor cursor = Ok c ∧
    after_cursor (uniqueness_options localdirInfraType cursor) c w = true.
Proof.
  intros Hs Hw Hd. destruct (Hs id w Hw Hd) as [->|(ns & al & -> & Hn & Hlt)]; [by exists ("", "")|].
  exists (ns, al). split; [by apply parse_encode|]. unfold after_cursor. cbn.
  case_decide as Hle; [|done]. destruct Hle. lia.
Qed.

(** A row occupying [d] is still ahead of the scan, so the page shows it or the next
    cursor stands before it. *)
Lemma scanned_page d cursor r pg next :
  repo_inv r → valid_namespaces r → scanned d cursor r →
  List_ (uniqueness_options localdirInfraType cursor) r = Ok (pg, next) → dir_conflict d pg = None →
  if decide (next = "") then dir_free d r else scanned d next r.
Proof.
  intros Hr Hv Hs Hl Hnone.
  assert (∀ id w, byID r !! id = Some w → dir_of w = Some d →
    ∃ l, l ∈ pg ∧ next = encodeCursor (w_Namespace l) (w_Alias l) ∧ row_lt l w) as Hahead.
  { intros id w Hw Hd. destruct (scanned_cursor _ _ _ _ _ Hs Hw Hd) as (c & Hc & Ha).
    destruct (dir_of_localdir _ _ Hd) as [Hi Ho].
    destruct (page_covers _ r c pg next id w Hr Hl Hc Hw) as [Hin|?]; [|done| |done].
    - unfold row_matches. cbn. rewrite Hi. repeat (rewrite decide_False by (by intros [])). done.
    - unfold dir_conflict in Hnone. apply fmap_None, list_find_None in Hnone.
      rewrite Forall_forall in Hnone. destruct (Hnone _ Hin). cbn. by rewrite dir_clone. }
  case_decide as Hnext.
  - intros id w Hw Hd. destruct (Hahead id w Hw Hd) as (l & _ & -> & _).
    by apply encodeCursor_nonempty in Hnext.
  - intros id w Hw Hd. right. destruct (Hahead id w Hw Hd) as (l & Hl' & -> & Hlt).
    exists (w_Namespace l), (w_Alias l). split; [done|].
    apply (page_elem _ _ _ _ _ Hl) in Hl' as (id' & w0 & Hw0 & ->).
    split; [exact (valid_nul_free r Hv id' w0 Hw0)|].
    unfold row_lt in Hlt. rewrite compare_antisym. lia.
Qed.

(** *** Calls that insert or update nothing *)

(** What a creation may only do while it holds the mutex. *)
Definition changes (e : event mcall) : bool :=
  match e with
  | Ev (WorkspaceInsert _ _) _ | Ev (W (RepoUpdate _ _)) _ | Ev UnlockCreate _ => true
  | _ => false
  end.

(** Any other call is one the others could have made. *)
Lemma call_other X (e : mcall X) s x s' :
  changes (Ev e x) = false → ws_call e s x s' → rtc other_client s s'.
Proof.
  intros Hch Hc. assert (∀ o, (∀ w, o ≠ OpInsert w) → (∀ w, o ≠ OpUpdate w) →
    rtc other_client s (set_rows s (run_op o (rows s)).2)) as Hop.
  { intros o Hi Hu. apply rtc_once, other_op; [done|]. intros w ex E. by destruct (Hu w). }
  assert (s' = s → rtc other_client s s') as Hsame by (intros ->; apply rtc_refl).
  destruct e; cbn in Hc; try done; try (by apply Hsame); try (by apply Hsame, Hc).
  - destruct e; cbn in Hc; try done; try (by apply Hsame); try (by apply Hsame, Hc).
    + destruct Hc as (now & r & E & ->).
      pose proof (Hop (OpCAS id wr expect next e t now)) as H. cbn [run_op] in H. rewrite E in H. by apply H.
    + destruct Hc as (r & E & ->). pose proof (Hop (OpDelete id)) as H. cbn [run_op] in H.
      rewrite E in H. by apply H.
  - subst s'. destruct (is_ok x); [apply rtc_once, other_queue|apply rtc_refl].
Qed.

Lemma call_shrinks X (e : mcall X) s x s' :
  changes (Ev e x) = false → ws_call e s x s' → sound s → sound s' ∧ shrinks (rows s) (rows s').
Proof. intros Hch Hc%call_other; [|done]. by apply others_shrink. Qed.

Lemma execs_shrinks {A} (p : mproc A) s a s' :
  never changes p → sound s → execs (with_others other_client) p s a s' →
  sound s' ∧ shrinks (rows s) (rows s').
Proof.
  revert s. induction p as [b|X e k IH]; intros s Hn Hs; [intros [_ ->]; split; [done|apply shrinks_refl]|].
  intros (x & s1 & (s0 & Ho & Hx) & Hk). destruct (Hn x) as [Hch Hn'].
  destruct (others_shrink _ _ Ho Hs) as [Hs0 H0]. destruct (call_shrinks _ _ _ _ _ Hch Hx Hs0) as [Hs1 H1].
  destruct (IH x s1 Hn' Hs1 Hk) as [Hs' H']. split; [done|]. eauto using shrinks_trans.
Qed.

Lemma scan_dirs_spec fuel c d cursor s s' :
  sound s → scanned d cursor (rows s) →
  execs (with_others other_client) (scan_dirs fuel c localdirInfraType d cursor) s (Some (Ok ())) s' →
  sound s' ∧ dir_free d (rows s').
Proof.
  revert cursor s. induction fuel as [|fuel IH]; intros cursor s Hs Hsc; [by intros []|].
  intros (listed & s1 & (s0 & Ho & -> & ->)%execs_call_inv & H)%execs_bind.
  destruct (others_shrink _ _ Ho Hs) as [[Hr0 Hv0] Hsh]. apply (scanned_shrinks _ _ _ _ Hsh) in Hsc.
  destruct (List_ _ (rows s0)) as [[pg next]|e] eqn:Hl; [|by destruct H].
  destruct (dir_conflict d pg) as [w|] eqn:Hd; [by destruct H|].
  pose proof (scanned_page _ _ _ _ _ Hr0 Hv0 Hsc Hl Hd) as Hnext.
  destruct (decide (next = "")); [destruct H as [_ ->]; by split|].
  by apply (IH next s0).
Qed.

(** ** The invariant *)

Record dirs_inv (s : wstate) : Prop := {
  di_sound : sound s;
  di_dirs : one_per_dir (rows s);
}.

Lemma shrinks_inv s s' : sound s' → shrinks (rows s) (rows s') → dirs_inv s → dirs_inv s'.
Proof. intros Hs Hsh [_ Hd]. split; [done|]. by eapply shrinks_one_per_dir. Qed.

Lemma others_inv s s' : rtc other_client s s' → dirs_inv s → dirs_inv s'.
Proof. intros Ho Hi. destruct (others_shrink _ _ Ho (di_sound _ Hi)) as [Hs Hsh]. by eapply shrinks_inv. Qed.

Lemma call_inv X (e : mcall X) s x s' :
  changes (Ev e x) = false → ws_call e s x s' → dirs_inv s → dirs_inv s'.
Proof. intros Hch Hc%call_other; [|done]. by apply others_inv. Qed.

(** What others do between the calls of the holder of the mutex. *)
Abbreviation amid := (with_others other_client).

Lemma never_safe {A} (p : mproc A) s :
  never changes p → dirs_inv s → safe amid dirs_inv p s (λ a s', execs amid p s a s').
Proof.
  revert s. induction p as [b|X e k IH]; intros s Hn Hi; [by split|]. split; [done|].
  intros x s' Hx. destruct (Hn x) as [Hch Hn']. destruct Hx as (s0 & Ho & Hc).
  assert (dirs_inv s') as Hi' by (eapply call_inv; [done..|by eapply others_inv]).
  eapply safe_mono; [|by apply IH]. intros a s1 _ Hk. exists x, s'. split; [by exists s0|done].
Qed.

(** Inserting a row with a valid namespace whose directory is free. *)
Lemma insert_inv w s x r :
  dirs_inv s → namespacePattern (w_Namespace w) = true →
  (∀ d, dir_of w = Some d → dir_free d (rows s)) → Insert w (rows s) = (x, r) →
  dirs_inv (set_rows s r).
Proof.
  intros [[Hr Hv] Hd] Hns Hfree HI. pose proof (Insert_inv w _ Hr) as Hr'. rewrite HI in Hr'.
  destruct (Insert_cases w (rows s)) as [[e E]|(_ & _ & _ & _ & E)]; rewrite E in HI; injection HI as <- <-;
    [by destruct s|].
  split; [split; [done|]|]; cbn.
  - intros id w'. cbn. rewrite lookup_insert. case_decide; [|apply Hv]. by intros [= <-].
  - intros id1 id2 w1 w2 d. cbn. rewrite !lookup_insert.
    case_decide as E1; case_decide as E2; intros H1 H2 D1 D2; simplify_eq; try done.
    + rewrite dir_of_clone in D1. by destruct (Hfree d D1 id2 w2).
    + rewrite dir_of_clone in D2. by destruct (Hfree d D2 id1 w1).
    + by eapply Hd.
Qed.

Lemma insert_and_submit_safe c req row refs s :
  dirs_inv s → namespacePattern (w_Namespace row) = true →
  (∀ d, dir_of row = Some d → dir_free d (rows s)) →
  safe amid dirs_inv (insert_and_submit c req row refs) s (λ _ _, True).
Proof.
  intros Hi Hns Hfree. apply safe_call_bind; [done|]. intros x s' (s0 & Ho & r & HI & ->).
  destruct (others_shrink _ _ Ho (di_sound _ Hi)) as [Hs0 Hsh].
  assert (dirs_inv (set_rows s0 r)) as Hi'.
  { eapply insert_inv, HI; [by eapply shrinks_inv|done|].
    intros d Hdir. eapply shrinks_free; [done|]. by apply Hfree. }
  eapply safe_mono; [|apply never_safe; [|done]]; [done|]. destruct x; [|done]. cbn [must].
  apply never_call_bind; [done|]. intros [u|e]; [done|]. by apply never_call_bind.
Qed.

(** Events the parts of a creation do not cause, whatever else they do. *)
Lemma scan_never f fuel c t d cursor :
  (∀ c o x, f (Ev (W (RepoList c o)) x) = false) → never f (scan_dirs fuel c t d cursor).
Proof.
  intros Hf. revert cursor. induction fuel as [|fuel IH]; intros cursor; [done|].
  apply never_call_bind; [done|]. intros [[pg next]|e]; [|done].
  destruct (dir_conflict d pg); [done|]. case_decide; [done|apply IH].
Qed.

Lemma ensure_never f fuel c req :
  (∀ c o x, f (Ev (W (RepoList c o)) x) = false) → never f (ensureWorkspaceInfraUniqueness fuel c req).
Proof.
  intros Hf. unfold ensureWorkspaceInfraUniqueness. case_decide; [done|].
  destruct (localdirDirOption _); [by apply scan_never|done].
Qed.

Lemma resolve_never f c refs seen attached installRefs :
  (∀ c id x, f (Ev (PluginGet c id) x) = false) → never f (resolve_refs c refs seen attached installRefs).
Proof.
  intros Hf. revert seen attached installRefs. induction refs as [|ref refs IH]; intros seen attached installRefs; [done|].
  cbn [resolve_refs]. case_decide; [done|]. case_decide; [done|].
  apply never_call_bind; [done|]. intros [row|e]; [apply IH|done].
Qed.

(** What the uniqueness check establishes for the requested row. *)
Lemma ensure_spec fuel c req s s' :
  sound s → execs amid (ensureWorkspaceInfraUniqueness fuel c req) s (Some (Ok ())) s' →
  ∀ ns id now attached d, dir_of (new_row req ns id now attached) = Some d → dir_free d (rows s').
Proof.
  intros Hs H. unfold ensureWorkspaceInfraUniqueness in H.
  case_decide as Hloc.
  { intros ns id now attached d Hd. by apply dir_of_localdir in Hd as [Hd _]. }
  rewrite Hloc in H.
  destruct (localdirDirOption (cw_InfraOptions req)) as [want|] eqn:Hw.
  - apply scan_dirs_spec in H as [_ Hf]; [|done|by intros ????; left].
    intros ns id now attached d [_ Hd]%dir_of_localdir.
    cbn in Hd. rewrite dir_clone, Hw in Hd. by injection Hd as <-.
  - intros ns id now attached d [_ Hd]%dir_of_localdir. cbn in Hd. by rewrite dir_clone, Hw in Hd.
Qed.

(** What the holder of the mutex does: the check still holds when the row is inserted. *)
Lemma create_locked_safe fuel c req ns s :
  dirs_inv s → namespacePattern ns = true →
  safe amid dirs_inv (create_locked fuel c req ns) s (λ _ _, True).
Proof.
  intros Hi Hns. apply safe_bind. eapply safe_mono; [|apply never_safe; [by apply ensure_never|done]].
  intros unique s1 Hi1 Hu. destruct unique as [[[]|e]|]; [|by split..].
  pose proof (ensure_spec _ _ _ _ _ (di_sound _ Hi) Hu) as Hfree.
  apply safe_bind. eapply safe_mono; [|apply never_safe; [by apply resolve_never|done]].
  intros resolved s2 Hi2 Hres.
  destruct (execs_shrinks _ _ _ _ (resolve_never changes _ _ _ _ _ ltac:(done)) (di_sound _ Hi1) Hres) as [_ H12].
  apply safe_bind. apply (safe_mono _ _ _ _ (λ _ _, True)); [by intros a s' H _; apply safe_mret|].
  destruct resolved as [[attached refs]|e]; [|by split]. cbn [must].
  apply safe_call_bind; [done|]. intros now s3 (s0 & Ho & ->).
  destruct (others_shrink _ _ Ho (di_sound _ Hi2)) as [Hs0 H20].
  pose proof (shrinks_inv _ _ Hs0 H20 Hi2) as Hi0.
  apply safe_call_bind; [done|]. intros id s4 (s5 & Ho5 & -> & _).
  destruct (others_shrink _ _ Ho5 Hs0) as [Hs5 H05].
  apply insert_and_submit_safe; [by eapply shrinks_inv|done|].
  intros d Hdir. do 3 (eapply shrinks_free; [eassumption|]). by eapply Hfree.
Qed.

Lemma validate_create_ok req ns : validate_create req = Ok ns → namespacePattern ns = true.
Proof.
  unfold validate_create. destruct (validateNamespace _) as [u|] eqn:Hn; [|done].
  destruct (validateAlias _); [|done]. destruct (validateDescription _); [|done]. intros [= <-].
  by eapply validateNamespace_ok.
Qed.

(** ** Creations running at once *)

(** The manager: what it works on, which of the calls holds [createWorkspaceMu], and what
    every call of [CreateWorkspace] still has to do. *)
Record manager := {
  store : wstate;
  createWorkspaceMu : option nat;
  running : list (mproc (option (result View.Workspace)));
}.

(** The mutex after a call of thread [i]; a call that cannot be made now has to wait.
    Unlocking a mutex nobody holds ends the process. *)
Definition lock_step (i : nat) {X} (e : mcall X) (mu : option nat) : option (option nat) :=
  match e with
  | LockCreate => match mu with None => Some (Some i) | Some _ => None end
  | UnlockCreate => match mu with None => None | Some _ => Some None end
  | _ => Some mu
  end.

Definition advance (i : nat) (p : mproc (option (result View.Workspace))) (mu : option nat) (s : wstate)
    (m : manager) : manager :=
  {| store := s; createWorkspaceMu := mu; running := <[i := p]> (running m) |}.

(** [CreateWorkspace] is called; one of the running calls makes its next step; another
    client does something. *)
Inductive manager_step : relation manager :=
| step_create fuel c req m :
    manager_step m {| store := store m; createWorkspaceMu := createWorkspaceMu m;
                      running := running m ++ [CreateWorkspace fuel c req] |}
| step_run i X (e : mcall X) k x mu s m :
    running m !! i = Some (Do e k) → lock_step i e (createWorkspaceMu m) = Some mu →
    ws_call e (store m) x s → manager_step m (advance i (k x) mu s m)
| step_other s m :
    other_client (store m) s →
    manager_step m {| store := s; createWorkspaceMu := createWorkspaceMu m; running := running m |}.

Definition fresh_store (ps : PluginID → result Plugin) (specs : AgentType → bool) (fs : InfraType → bool)
    : wstate := {|
  rows := NewWorkspaceRepository; queued := []; plugins := ps; agents := specs; factories := fs |}.

Definition fresh_manager (s : wstate) : manager :=
  {| store := s; createWorkspaceMu := None; running := [] |}.

(** *** The discipline of a call

    [steady own p s]: with the mutex ([own]) or without it, what is left of the call keeps
    the invariant. Without the mutex anything that keeps the invariant may have happened
    before the next call, and that call may neither insert nor update; with it only the
    other clients have moved. A call that returns does not hold the mutex. *)

Definition lock_own (own : bool) {X} (e : mcall X) : option bool :=
  match e with
  | LockCreate => if own then None else Some true
  | UnlockCreate => if own then Some false else None
  | _ => Some own
  end.

Definition rely (own : bool) (s s1 : wstate) : Prop :=
  if own then rtc other_client s s1 else dirs_inv s1.

Fixpoint steady {A} (own : bool) (p : mproc A) (s : wstate) : Prop :=
  dirs_inv s ∧
  match p with
  | Ret _ => own = false
  | Do e k => (own = false → ∀ x, changes (Ev e x) = false) ∧
      ∀ own' s1 x s', lock_own own e = Some own' → rely own s s1 → ws_call e s1 x s' → steady own' (k x) s'
  end.

Lemma steady_inv {A} own (p : mproc A) s : steady own p s → dirs_inv s.
Proof. by destruct p, 1. Qed.

Lemma steady_rely {A} own (p : mproc A) s s1 : rely own s s1 → steady own p s → steady own p s1.
Proof.
  intros Hr Hp. assert (dirs_inv s1) as Hi.
  { destruct own; [|done]. by eapply others_inv, steady_inv. }
  destruct p as [a|X e k]; destruct Hp as [_ Hp]; (split; [done|]); [done|].
  destruct Hp as [Hg Hk]. split; [done|]. intros own' s2 x s' Hown Hr2. apply Hk; [done|].
  destruct own; [exact (transitivity (R := rtc other_client) Hr Hr2)|done].
Qed.

Lemma steady_assoc {A B C} own (p : mproc A) (f : A → mproc B) (g : B → mproc C) s :
  steady own (p ≫= λ a, f a ≫= g) s → steady own ((p ≫= f) ≫= g) s.
Proof.
  revert own s. induction p as [a|X e k IH]; intros own s; [done|]. intros [Hi [Hg Hk]].
  split; [done|]. split; [done|]. intros own' s1 x s' Hown Hr Hc. by eapply IH, Hk.
Qed.

Definition mutex_event (e : event mcall) : bool :=
  match e with Ev LockCreate _ | Ev UnlockCreate _ => true | _ => false end.

Lemma lock_own_other X (e : mcall X) x own : mutex_event (Ev e x) = false → lock_own own e = Some own.
Proof. by destruct e. Qed.

(** Outside the critical section. *)
Lemma steady_call {X A} (e : mcall X) (f : X → mproc A) s :
  dirs_inv s → (∀ x, changes (Ev e x) = false) → (∀ x, mutex_event (Ev e x) = false) →
  (∀ x s', dirs_inv s' → steady false (f x) s') → steady false (call e ≫= f) s.
Proof.
  intros Hi Hch Hmu Hf. split; [done|]. split; [done|]. intros own' s1 x s' Hown Hr Hc.
  rewrite (lock_own_other _ _ x) in Hown by done. injection Hown as <-.
  apply Hf. by eapply call_inv.
Qed.

(** Inside it. *)
Lemma steady_inside {A B} (p : mproc A) (f : A → mproc B) s Post :
  never mutex_event p → safe amid dirs_inv p s Post →
  (∀ a s', dirs_inv s' → Post a s' → steady true (f a) s') → steady true (p ≫= f) s.
Proof.
  revert s. induction p as [a|X e k IH]; intros s Hn Hs Hf; [destruct Hs; by apply Hf|].
  destruct Hs as [Hi Hk]. split; [done|]. split; [done|]. intros own' s1 x s' Hown Hr Hc.
  destruct (Hn x) as [Hmu Hn']. rewrite (lock_own_other _ _ x) in Hown by done. injection Hown as <-.
  apply (IH x); [done| |done]. apply Hk. by exists s1.
Qed.

Lemma create_locked_mutex fuel c req ns : never mutex_event (create_locked fuel c req ns).
Proof.
  apply never_bind; [by apply ensure_never|]. intros [[u|e]|]; [|done..].
  apply never_bind; [by apply resolve_never|]. intros resolved. apply never_bind; [|done].
  destruct resolved as [[attached refs]|e]; [|done]. cbn [must].
  apply never_call_bind; [done|]. intros now. apply never_call_bind; [done|]. intros id.
  apply never_call_bind; [done|]. intros [u'|e]; [|done]. cbn [must].
  apply never_call_bind; [done|]. intros [u''|e]; [done|]. by apply never_call_bind.
Qed.

(** The critical section takes the mutex, keeps the invariant and gives it back. *)
Lemma critical_steady {B} fuel c req ns (f : option (result View.Workspace) → mproc B) s :
  dirs_inv s → namespacePattern ns = true → (∀ a s', dirs_inv s' → steady false (f a) s') →
  steady false ((_ ← call LockCreate; deferred (call UnlockCreate) (create_locked fuel c req ns)) ≫= f) s.
Proof.
  intros Hi Hns Hf. apply steady_assoc. split; [done|]. split; [done|].
  intros own' s1 x s' [= <-] Hr Hc. cbn in Hc. subst s'. apply steady_assoc.
  eapply steady_inside; [apply create_locked_mutex|by apply create_locked_safe|].
  intros a s' Hi' _. split; [done|]. split; [done|]. intros own' s2 y s3 [= <-] Hr' Hc. cbn in Hc. subst s3.
  apply Hf. by eapply others_inv.
Qed.

Lemma create_steady fuel c req s : dirs_inv s → steady false (CreateWorkspace fuel c req) s.
Proof.
  intros Hi. apply steady_call; [done..|]. clear s Hi. intros [|] s Hi; [|by split].
  assert (∀ (a : option (result View.Workspace)) s', dirs_inv s' →
    steady false (_ ← call EndOp; mret a) s') as Hend.
  { intros a s' Hi'. by apply steady_call; [..|by split]. }
  apply steady_assoc, steady_call; [done..|]. clear s Hi. intros [e|] s Hi; [by apply Hend|].
  destruct (validate_create req) as [ns|e] eqn:Hv; [|by apply Hend]. apply validate_create_ok in Hv.
  apply steady_assoc, steady_call; [done..|]. clear s Hi. intros [|] s Hi; cbn [negb]; [|by apply Hend].
  apply steady_assoc, steady_call; [done..|]. clear s Hi. intros [|] s Hi; cbn [negb]; [|by apply Hend].
  by apply critical_steady.
Qed.

(** *** The invariant of the manager *)

Definition owns (m : manager) (i : nat) : bool := bool_decide (createWorkspaceMu m = Some i).

Record manager_ok (m : manager) : Prop := {
  mo_dirs : dirs_inv (store m);
  mo_holder i : createWorkspaceMu m = Some i → i < length (running m);
  mo_steady i p : running m !! i = Some p → steady (owns m i) p (store m);
}.

Lemma owns_at mu s ps i : owns {| store := s; createWorkspaceMu := mu; running := ps |} i = bool_decide (mu = Some i).
Proof. done. Qed.

(** Who holds the mutex after a step of thread [i]. *)
Lemma lock_step_own X (e : mcall X) i mu mu' x :
  lock_step i e mu = Some mu' →
  (bool_decide (mu = Some i) = false → changes (Ev e x) = false) →
  lock_own (bool_decide (mu = Some i)) e = Some (bool_decide (mu' = Some i)) ∧
  (mu' = mu ∨ mu' = Some i ∧ mu = None ∨ mu' = None ∧ mu = Some i).
Proof.
  intros Hl Hg. destruct e; try (injection Hl as <-; split; [done|by left]); cbn in Hl.
  - destruct mu; [done|]. injection Hl as <-. rewrite bool_decide_false, bool_decide_true by done. auto.
  - destruct mu as [j|]; [|done]. injection Hl as <-.
    destruct (bool_decide_reflect (Some j = Some i)) as [E|E]; [|by specialize (Hg eq_refl)].
    injection E as ->. rewrite bool_decide_false by done. auto.
Qed.

Lemma run_ok i X (e : mcall X) k x mu s m :
  running m !! i = Some (Do e k) → lock_step i e (createWorkspaceMu m) = Some mu →
  ws_call e (store m) x s → manager_ok m → manager_ok (advance i (k x) mu s m).
Proof.
  intros Hrun Hl Hc [Hi Hh Hst]. pose proof (Hst i _ Hrun) as [_ [Hg Hk]].
  destruct (lock_step_own _ e i _ _ x Hl (λ H, Hg H x)) as [Hown Hmu].
  assert (rely (owns m i) (store m) (store m)) as Hrefl by (unfold rely; case_match; [apply rtc_refl|done]).
  pose proof (Hk _ _ x s Hown Hrefl Hc) as Hnew. pose proof (steady_inv _ _ _ Hnew) as Hi'.
  split; cbn; [done| |].
  - intros j E. rewrite length_insert. destruct Hmu as [->|[[-> _]|[-> _]]]; [by apply Hh| |done].
    injection E as <-. by eapply lookup_lt_Some.
  - intros j p. rewrite list_lookup_insert_Some. unfold owns. cbn.
    intros [(-> & <- & _)|(Hne & Hj)]; [exact Hnew|].
    pose proof (Hst j p Hj) as Hp. unfold owns in Hp.
    destruct (decide (createWorkspaceMu m = Some j)) as [E|E].
    + assert (mu = Some j) as -> by (destruct Hmu as [->|[[_ ?]|[_ ?]]]; [done|congruence..]).
      rewrite !bool_decide_true in * by done. eapply steady_rely; [|exact Hp].
      assert (owns m i = false) as Hf by (unfold owns; rewrite E; by apply bool_decide_false; intros [= ?]).
      eapply call_other; [by apply Hg|done].
    + rewrite (bool_decide_false (createWorkspaceMu m = Some j)) in Hp by done.
      rewrite bool_decide_false by (destruct Hmu as [->|[[-> _]|[-> _]]]; congruence).
      by eapply steady_rely.
Qed.

Lemma manager_step_ok m m' : manager_step m m' → manager_ok m → manager_ok m'.
Proof.
  destruct 1 as [fuel c req m|i X e k x mu s m Hrun Hl Hc|s m Ho]; [|by eapply run_ok|]; intros [Hi Hh Hst].
  - split; cbn; [done| |].
    + intros i Hm. rewrite length_app. cbn. specialize (Hh i Hm). lia.
    + intros i p [Hp|[Hle Hp]]%lookup_app_Some; [by apply Hst|].
      apply list_lookup_singleton_Some in Hp as [Hz <-]. unfold owns. cbn.
      rewrite bool_decide_false; [by apply create_steady|]. intros Hm%Hh. lia.
  - pose proof (others_inv _ _ (rtc_once _ _ Ho) Hi) as Hi'. split; cbn; [done..|].
    intros i p Hp. apply (steady_rely _ _ (store m)); [|by apply Hst].
    unfold rely, owns. cbn. case_match; [by apply rtc_once|done].
Qed.

Lemma manager_inv ps specs fs m :
  rtc manager_step (fresh_manager (fresh_store ps specs fs)) m → dirs_inv (store m).
Proof.
  intros Hm. apply mo_dirs. revert m Hm. apply (rtc_ind_r (R := manager_step) manager_ok).
  - split; cbn; [|done|by intros ??; rewrite lookup_nil].
    split; [split; [apply new_inv|]|]; by intros ?*; rewrite ?lookup_empty.
  - intros m1 m2 _. by apply manager_step_ok.
Qed.

(** C13. No two localdir workspaces share a directory. Any number of [CreateWorkspace]
    calls run at once, interleaved with each other call by call; the mutex is taken by
    [LockCreate], which waits while another call holds it, and given back by
    [UnlockCreate]. Between any two of these calls status writes, updates and deletions
    by the controller, the scheduler and other methods may happen. In every state the
    manager reaches from an empty repository, rows whose cleaned [dir] options are equal
    are one and the same row. What is relied on of the others: they insert no rows
    (only [CreateWorkspace] does), and a row they update keeps its [dir] option. *)
Theorem localdir_dirs_exclusive (ps : PluginID → result Plugin) (specs : AgentType → bool)
    (fs : InfraType → bool) (m : manager) (id1 id2 : WorkspaceID) (w1 w2 : Workspace) (d : string) :
  rtc manager_step (fresh_manager (fresh_store ps specs fs)) m →
  byID (rows (store m)) !! id1 = Some w1 → byID (rows (store m)) !! id2 = Some w2 →
  dir_of w1 = Some d → dir_of w2 = Some d → id1 = id2.
Proof. intros [_ Ho]%manager_inv. apply Ho. Qed.
End WorkspaceCreation.

(** ** A creation on its own *)

Module CreationResult.
Import WorkspaceRepository WorkspaceInvariant WorkspaceListing WorkspaceRepoSpec Manager WorkspaceCreation.

Abbreviation alone := (with_others nobody).

Lemma alone_call X (e : mcall X) s x s' : alone X e s x s' → ws_call e s x s'.
Proof. intros (s1 & ->%nobody_id & H). done. Qed.

Definition effect (e : event mcall) : bool :=
  match e with
  | Ev (WorkspaceInsert _ _) _ | Ev (CtlSubmit _ _) _ | Ev (W (RepoUpdate _ _)) _
  | Ev (W (RepoUpdateStatusCAS _ _ _ _ _ _ _)) _ | Ev (W (RepoDelete _ _)) _ => true
  | _ => false
  end.

Lemma effectless_call X (e : mcall X) s x s' : effect (Ev e x) = false → alone X e s x s' → s' = s.
Proof.
  intros He Hc%alone_call. destruct e; cbn in Hc; try done; try apply Hc.
  destruct e; cbn in Hc; try done; apply Hc.
Qed.

Lemma effectless {A} (p : mproc A) s a s' : never effect p → execs alone p s a s' → s' = s.
Proof.
  revert s. induction p as [b|X e k IH]; intros s Hn; [by intros [_ ->]|].
  intros (x & s1 & Hx & Hk). destruct (Hn x) as [Hw Hn']. apply effectless_call in Hx as ->; [|done].
  by eapply IH.
Qed.

(** The scan needs no more rounds than there are rows. *)
Lemma scan_terminates fuel c d o n cursor s a s' :
  sound s → closed (rows s) = false →
  o = uniqueness_options localdirInfraType "" → cursor_pos (rows s) o n cursor →
  length (selection (rows s) o) - n < fuel →
  execs alone (scan_dirs fuel c localdirInfraType d cursor) s a s' → is_Some a.
Proof.
  intros [Hr Hv] Hc Ho. revert n cursor. induction fuel as [|fuel IH]; intros n cursor Hpos Hfuel; [lia|].
  intros (listed & s1 & [-> ->]%execs_call_inv%alone_call & H)%execs_bind.
  destruct (List_page (rows s) o 200 n cursor Hr Hc (valid_nul_free _ Hv)) as (next & Hl & Hnext); [lia|done|].
  subst o. change (with_page _ _ _) with (uniqueness_options localdirInfraType cursor) in Hl.
  rewrite Hl in H. destruct (dir_conflict d _); [by destruct H as [-> _]|].
  destruct (decide (_ + _ < _)) as [Hmore|Hmore] in Hnext; [|subst next; by destruct H as [-> _]].
  destruct Hnext as [Hne Hpos']. rewrite decide_False in H by done. eapply IH, H; [exact Hpos'|lia].
Qed.

Lemma ensure_terminates fuel c req s a s' :
  sound s → size (byID (rows s)) < fuel →
  execs alone (ensureWorkspaceInfraUniqueness fuel c req) s a s' → is_Some a.
Proof.
  intros Hs Hfuel H. unfold ensureWorkspaceInfraUniqueness in H.
  case_decide as Hl; [by destruct H as [-> _]|].
  rewrite Hl in H. destruct (localdirDirOption _) as [d|]; [|by destruct H as [-> _]].
  destruct (closed (rows s)) eqn:Hc.
  - destruct fuel; [lia|]. apply execs_bind in H as (listed & s1 & [-> ->]%execs_call_inv%alone_call & H).
    unfold List_ in H. rewrite Hc in H. by destruct H as [-> _].
  - eapply (scan_terminates fuel c d _ 0 "" s); [done|done|reflexivity|by left| |exact H].
    eapply Nat.le_lt_trans; [|exact Hfuel]. rewrite Nat.sub_0_r.
    unfold selection, rows_of. rewrite merge_sort_Permutation, length_fmap, length_filter.
    by rewrite length_fmap, length_map_to_list.
Qed.

(** The attached plugin of a reference: its name and content hash as the plugin repository
    has them, not placed yet. *)
Definition attached_for (ps : PluginID → result Plugin) (ref : PluginRef) (att : AttachedPlugin) : Prop :=
  ref_ID ref ≠ "" ∧ ∃ p, ps (ref_ID ref) = Ok p ∧
    att = {| ap_PluginID := ref_ID ref; ap_Name := p_Name p; ap_ContentHash := p_ContentHash p;
             ap_PlacedPaths := [] |}.

(** What the agent's install is told of an attached plugin. *)
Definition install_ref (att : AttachedPlugin) : AttachedPluginRef := {|
  apr_PluginID := ap_PluginID att; apr_Name := ap_Name att; apr_ContentHash := ap_ContentHash att |}.

Lemma resolve_spec c refs seen attached installRefs s att irefs s' :
  execs alone (resolve_refs c refs seen attached installRefs) s (Ok (att, irefs)) s' →
  ∃ att1, att = attached ++ att1 ∧ irefs = installRefs ++ (install_ref <$> att1) ∧
    Forall2 (attached_for (plugins s)) refs att1 ∧ NoDup (ref_ID <$> refs) ∧
    (∀ ref, ref ∈ refs → ref_ID ref ∉ seen).
Proof.
  revert seen attached installRefs s. induction refs as [|ref refs IH]; intros seen attached installRefs s.
  { intros [[= -> ->] _]. exists []. cbn. rewrite !app_nil_r. split_and!; [done..|constructor|].
    by intros ref ?%not_elem_of_nil. }
  cbn [resolve_refs]. case_decide as Hne; [by intros []|]. case_decide as Hseen; [by intros []|].
  intros (got & s1 & Hgot%execs_call_inv%alone_call & H)%execs_bind. cbn in Hgot. destruct Hgot as [-> ->].
  destruct (plugins s (ref_ID ref)) as [row|e] eqn:Hrow; [|by destruct H].
  apply IH in H as (att1 & -> & -> & Hf & Hnd & Hall). rewrite <-!(assoc_L (++)).
  eexists (_ :: att1). split_and!; [done..| | |].
  - constructor; [|done]. split; [done|]. by exists row.
  - cbn. constructor; [|done]. intros (ref' & Heq & Hin)%list_elem_of_fmap.
    apply (Hall ref' Hin), elem_of_union_l. rewrite <-Heq. by apply elem_of_singleton.
  - intros ref' [->|Hin]%elem_of_cons; [done|]. intros Hs. by apply (Hall ref' Hin), elem_of_union_r.
Qed.

(** The repository with one more row. *)
Definition with_row (w : Workspace) (r : repo) : repo :=
  {| byID := <[w_ID w := w]> (byID r); idByAliasKey := <[key w := w_ID w]> (idByAliasKey r);
     closed := closed r |}.

Lemma delete_with_row w r :
  closed r = false → byID r !! w_ID w = None → idByAliasKey r !! key w = None →
  Delete (w_ID w) (with_row w r) = (Ok (), r).
Proof.
  intros Hc Hid Hk. unfold Delete, with_row. cbn. rewrite Hc, lookup_insert_eq.
  change (workspaceAliasKey (w_Namespace w) (w_Alias w)) with (key w).
  rewrite !delete_insert_id by done. rewrite <-Hc. by destruct r.
Qed.

(** The state with one more row and its install queued. *)
Definition with_install (w : Workspace) (p : InstallParams) (s : wstate) : wstate :=
  set_queue (set_rows s (with_row w (rows s))) (queued s ++ [(w, p)]).

(** The row is added and its install queued, or nothing changed. A row that is its own
    clone is stored as it is. *)
Lemma submit_spec c req row refs s a s' :
  cloneWorkspace row = row → execs alone (insert_and_submit c req row refs) s a s' →
  (∃ e, a = Err e) ∧ s' = s ∨
  a = Ok (View.workspaceFromRow row) ∧ closed (rows s) = false ∧ byID (rows s) !! w_ID row = None ∧
    idByAliasKey (rows s) !! key row = None ∧ s' = with_install row (install_params req row refs) s.
Proof.
  intros Hclone (x & s1 & (r & HI & ->)%execs_call_inv%alone_call & H)%execs_bind.
  destruct (Insert_cases row (rows s)) as [[e E]|(Hc & Hid & _ & Hk & E)]; rewrite E in HI; injection HI as <- <-.
  { destruct H as [-> ->]. left. split; [by eexists|]. by destruct s. }
  rewrite Hclone in H.
  change {| byID := <[w_ID row := _]> _; idByAliasKey := _; closed := _ |} with (with_row row (rows s)) in H.
  cbn [must] in H. apply execs_bind in H as (sub & s2 & Hsub%execs_call_inv%alone_call & H). cbn in Hsub.
  destruct sub as [u|e]; [destruct H as [-> ->]; right; by split_and!|]. cbn in Hsub. subst s2.
  apply execs_bind in H as (del & s3 & (r & HD & ->)%execs_call_inv%alone_call & H). cbn in HD.
  rewrite delete_with_row in HD by done. injection HD as <- <-. destruct H as [-> ->].
  left. split; [by eexists|]. by destruct s.
Qed.

(** The row of an accepted request, field by field, and what had to hold for it. *)
Record accepted (req : CreateWorkspaceRequest) (s : wstate) (row : Workspace) : Prop := {
  ac_new : byID (rows s) !! w_ID row = None ∧ idByAliasKey (rows s) !! key row = None;
  ac_Namespace : w_Namespace row = normalizeNamespace (cw_Namespace req);
  ac_Alias : w_Alias row = cw_Alias req;
  ac_AgentType : w_AgentType row = cw_AgentType req;
  ac_InfraType : w_InfraType row = cw_InfraType req;
  ac_InfraOptions : w_InfraOptions row = cloneMapAny (cw_InfraOptions req);
  ac_InstallParams : w_InstallParams row = cloneMapAny (cw_InstallParams req);
  ac_Plugins : Forall2 (attached_for (plugins s)) (cw_Plugins req) (w_Plugins row);
  ac_Status : w_Status row = StatusInit;
  ac_StatusError : w_StatusError row = None;
  ac_Description : w_Description row = cw_Description req;
  ac_Labels : w_Labels row = cloneLabels (cw_Labels req);
  ac_LastProbeAt : w_LastProbeAt row = 0%Z;
  ac_CreatedAt : w_CreatedAt row = w_UpdatedAt row;
  ac_names_valid : namespacePattern (w_Namespace row) = true ∧ aliasPattern (w_Alias row) = true;
  ac_description_fits : (Z.of_nat (String.length (w_Description row)) ≤ 1024)%Z;
  ac_types_known : agents s (w_AgentType row) = true ∧ factories s (w_InfraType row) = true;
  ac_plugins_once : NoDup (ref_ID <$> cw_Plugins req);
  ac_dir_free : ∀ d, dir_of row = Some d → dir_free d (rows s);
}.

(** What the agent's install is given. *)
Definition params_of (row : Workspace) : InstallParams := {|
  ip_Workspace := {|
    ws_ID := w_ID row; ws_Namespace := w_Namespace row; ws_Alias := w_Alias row;
    ws_AgentType := w_AgentType row; ws_InfraType := w_InfraType row;
    ws_Plugins := install_ref <$> w_Plugins row |};
  ip_UserParams := w_InstallParams row |}.

(** The answer shows the row. *)
Record shown (row : Workspace) (v : View.Workspace) : Prop := {
  sh_ID : View.v_ID v = w_ID row;
  sh_Namespace : View.v_Namespace v = w_Namespace row;
  sh_Alias : View.v_Alias v = w_Alias row;
  sh_AgentType : View.v_AgentType v = w_AgentType row;
  sh_InfraType : View.v_InfraType v = w_InfraType row;
  sh_InfraOptions : View.v_InfraOptions v = w_InfraOptions row;
  sh_InstallParams : View.v_InstallParams v = w_InstallParams row;
  sh_Plugins : View.v_Plugins v = (λ p, {|
    View.at_PluginID := ap_PluginID p; View.at_Name := ap_Name p;
    View.at_ContentHash := ap_ContentHash p; View.at_PlacedPaths := ap_PlacedPaths p |}) <$> w_Plugins row;
  sh_Status : View.v_Status v = w_Status row;
  sh_StatusError : View.v_StatusError v = None;
  sh_Description : View.v_Description v = w_Description row;
  sh_Labels : View.v_Labels v = w_Labels row;
  sh_times : View.v_LastProbeAt v = w_LastProbeAt row ∧ View.v_CreatedAt v = w_CreatedAt row ∧
             View.v_UpdatedAt v = w_UpdatedAt row;
}.

(** A successful creation: the row joined the repository, its install the queue, and
    nothing else changed. *)
Definition created (req : CreateWorkspaceRequest) (s s' : wstate) (v : View.Workspace) : Prop :=
  ∃ row, accepted req s row ∧ shown row v ∧ s' = with_install row (params_of row) s.

Definition creation_outcome (req : CreateWorkspaceRequest) (s s' : wstate)
    (a : option (result View.Workspace)) : Prop :=
  match a with
  | None => False
  | Some (Err _) => s' = s
  | Some (Ok v) => created req s s' v
  end.

Lemma new_row_clone req ns id now attached :
  cloneWorkspace (new_row req ns id now attached) = new_row req ns id now attached.
Proof.
  unfold cloneWorkspace, new_row. cbn. by rewrite !cloneMapAny_idemp, cloneLabels_idemp, cloneAttachedPlugins_id.
Qed.

Lemma new_row_shown req ns id now attached :
  shown (new_row req ns id now attached) (View.workspaceFromRow (new_row req ns id now attached)).
Proof.
  split; cbn; rewrite ?cloneMapAny_idemp, ?cloneLabels_idemp; try done.
  apply cloneAttachedPlugins_view.
Qed.

(** What was checked before the mutex was taken. *)
Definition checked (req : CreateWorkspaceRequest) (s : wstate) (ns : Namespace) : Prop :=
  validate_create req = Ok ns ∧ agents s (cw_AgentType req) = true ∧ factories s (cw_InfraType req) = true.

Lemma validate_create_accepts req ns :
  validate_create req = Ok ns →
  ns = normalizeNamespace (cw_Namespace req) ∧ namespacePattern ns = true ∧
  aliasPattern (cw_Alias req) = true ∧ (Z.of_nat (String.length (cw_Description req)) ≤ 1024)%Z.
Proof.
  intros Hv. pose proof (validate_create_ok _ _ Hv) as Hns. unfold validate_create in Hv.
  destruct (validateNamespace _); [|done]. unfold validateAlias in Hv.
  destruct (aliasPattern (cw_Alias req)); [|done]. unfold validateDescription in Hv.
  case_decide; [done|]. injection Hv as <-. split_and!; [done..|lia].
Qed.

Lemma new_row_accepted req s ns id now attached :
  checked req s ns → Forall2 (attached_for (plugins s)) (cw_Plugins req) attached →
  NoDup (ref_ID <$> cw_Plugins req) → byID (rows s) !! id = None →
  idByAliasKey (rows s) !! key (new_row req ns id now attached) = None →
  (∀ d, dir_of (new_row req ns id now attached) = Some d → dir_free d (rows s)) →
  accepted req s (new_row req ns id now attached).
Proof.
  intros ((-> & ? & ? & ?)%validate_create_accepts & ? & ?) Hatt Hnd Hid Hk Hdir. by split; cbn.
Qed.

Lemma alone_amid {A} (p : mproc A) s a s' : execs alone p s a s' → execs amid p s a s'.
Proof.
  revert s. induction p as [b|X e k IH]; intros s; [done|]. intros (x & s1 & Hx%alone_call & Hk%IH).
  exists x, s1. split; [|done]. exists s. by split; [apply rtc_refl|].
Qed.

Lemma create_locked_spec fuel c req ns s a s' :
  sound s → size (byID (rows s)) < fuel → checked req s ns →
  execs alone (create_locked fuel c req ns) s a s' → creation_outcome req s s' a.
Proof.
  intros Hs Hfuel Hv (unique & s1 & Hu & H)%execs_bind.
  pose proof (ensure_terminates _ _ _ _ _ _ Hs Hfuel Hu) as [u ->].
  pose proof (effectless _ _ _ _ (ensure_never effect _ _ _ ltac:(done)) Hu) as ->.
  destruct u as [[]|e]; [|by destruct H as [-> ->]].
  apply alone_amid in Hu. pose proof (ensure_spec _ _ _ _ _ Hs Hu) as Hfree.
  apply execs_bind in H as (resolved & s2 & Hres & H).
  pose proof (effectless _ _ _ _ (resolve_never effect _ _ _ _ _ ltac:(done)) Hres) as ->.
  apply execs_bind in H as (r & s3 & Hr & [-> ->]).
  destruct resolved as [[attached refs]|e]; [|by destruct Hr as [-> ->]]. cbn [must] in Hr.
  apply resolve_spec in Hres as (att1 & -> & -> & Hatt & Hnd & _).
  apply execs_bind in Hr as (now & s4 & Hnow & (id & s5 & Hid & Hins)%execs_bind).
  apply effectless in Hnow as ->; [|by intros ?]. apply effectless in Hid as ->; [|by intros ?].
  apply submit_spec in Hins as [[[e ->] ->]|(-> & _ & Hid & Hk & ->)]; [done| |apply new_row_clone].
  eexists. split; [|split; [apply new_row_shown|done]]. apply new_row_accepted; [done..|].
  intros d. apply Hfree.
Qed.

(** C24. On its own, [CreateWorkspace] always answers, and either it fails and leaves
    the repository, the install queue and everything else exactly as they were (a row
    whose install was refused is taken back), or it succeeds. Then exactly one row was
    added: in [init], without error or probe, under an id and a namespace and alias no row
    had, with the requested agent and infra type (both registered), infra options, install
    parameters, description (at most 1024 bytes), labels and plugins (each reference once,
    in order, with the name and hash the plugin repository has, and no placed path yet),
    both timestamps the same, and, for a localdir row, a directory no row used. Exactly one
    install was queued: that row with the summary of it and the requested parameters. The
    answer shows every field of the row. *)
Theorem create_workspace_spec (fuel : nat) (c : ctx) (req : CreateWorkspaceRequest) (s s' : wstate)
    (a : option (result View.Workspace)) :
  repo_inv (rows s) → valid_namespaces (rows s) → size (byID (rows s)) < fuel →
  execs alone (CreateWorkspace fuel c req) s a s' →
  match a with
  | None => False
  | Some (Err _) => s' = s
  | Some (Ok v) => created req s s' v
  end.
Proof.
  intros Hr Hvn Hfuel (ok & s1 & Hok & H)%execs_bind. apply effectless in Hok as ->; [|by intros ?].
  destruct ok; [|by destruct H as [-> ->]].
  apply execs_bind in H as (a0 & s0 & H & (u & s2 & Hend & -> & ->)%execs_bind).
  apply effectless in Hend as ->; [|by intros ?]. change (creation_outcome req s s0 a0).
  apply execs_bind in H as (e & s1 & He & H). apply effectless in He as ->; [|by intros ?].
  destruct e as [e|]; [by destruct H as [-> ->]|].
  destruct (validate_create req) as [ns|e] eqn:Hv; [|by destruct H as [-> ->]].
  apply execs_bind in H as (spec & s1 & [-> Hspec]%execs_call_inv%alone_call & H).
  destruct spec; cbn [negb] in H; [|by destruct H as [-> ->]].
  apply execs_bind in H as (fac & s1 & [-> Hfac]%execs_call_inv%alone_call & H).
  destruct fac; cbn [negb] in H; [|by destruct H as [-> ->]].
  apply execs_bind in H as (lk & s1 & Hlk & H). apply effectless in Hlk as ->; [|by intros ?].
  apply execs_bind in H as (a1 & s3 & H & (u2 & s4 & Hun & -> & ->)%execs_bind).
  apply effectless in Hun as ->; [|by intros ?]. by eapply create_locked_spec.
Qed.

(** *** An executable collaborator *)

Definition set_result {X} (s : wstate) (p : X * repo) : X * wstate := (p.1, set_rows s p.2).

(** Where [ws_call] leaves the answer open, [o] gives it; the controller accepts installs
    iff [accepts]. *)
Definition creation_handler (accepts : bool) (o : ∀ X, mcall X → X) : handler mcall wstate := λ X e,
  match e in mcall X return wstate → X * wstate with
  | NewWorkspaceID => λ s, (fresh (dom (byID (rows s)) : gset WorkspaceID), s)
  | WorkspaceInsert _ w => λ s, set_result s (Insert w (rows s))
  | WorkspaceGetByAlias _ ns al => λ s, (GetByAlias ns al (rows s), s)
  | CtlSubmit w p => λ s, if accepts then (Ok (), set_queue s (queued s ++ [(w, p)]))
                          else (Err ErrControllerShutdown, s)
  | PluginGet _ id => λ s, (plugins s id, s)
  | BeginOp => λ s, (true, s)
  | @W X e => λ s,
      match e in wcall X return X * wstate with
      | RepoGet _ id => (Get id (rows s), s)
      | RepoList _ o => (List_ o (rows s), s)
      | RepoDelete _ id => set_result s (Delete id (rows s))
      | RepoUpdate _ w => set_result s (Update w (rows s))
      | RepoUpdateStatusCAS _ id wr ex nx e t => set_result s (UpdateStatusCAS id wr ex nx e t 0 (rows s))
      | SpecGet t => (agents s t, s)
      | FactoryGet t => (factories s t, s)
      | e => (all_good _ e, s)
      end
  | e => λ s, (o _ e, s)
  end.

Lemma creation_handler_call accepts o X (e : mcall X) s :
  ws_call e s (creation_handler accepts o X e s).1 (creation_handler accepts o X e s).2.
Proof.
  destruct e; cbn; try done.
  - destruct e; cbn; try done; eexists; rewrite <-?surjective_pairing; try done.
    eexists. by rewrite <-surjective_pairing.
  - split; [done|]. apply not_elem_of_dom. apply is_fresh.
  - eexists. by rewrite <-surjective_pairing.
  - by destruct accepts.
Qed.

Lemma creation_handler_sound accepts o I {A} (p : mproc A) s a s' :
  run (creation_handler accepts o) p s = (a, s') → execs (with_others I) p s a s'.
Proof.
  apply execs_handler. intros X e s0. exists s0. split; [apply rtc_refl|]. apply creation_handler_call.
Qed.

(** One step of call [i]; nothing when it has returned or waits for the mutex. *)
Definition run_step (accepts : bool) (o : ∀ X, mcall X → X) (i : nat) (m : manager) : option manager :=
  match running m !! i with
  | Some (Do e k) =>
    match lock_step i e (createWorkspaceMu m) with
    | Some mu => let '(x, s) := creation_handler accepts o _ e (store m) in Some (advance i (k x) mu s m)
    | None => None
    end
  | _ => None
  end.

Lemma run_step_sound accepts o i m m' : run_step accepts o i m = Some m' → manager_step m m'.
Proof.
  unfold run_step. destruct (running m !! i) as [[a|X e k]|] eqn:Hi; [done| |done].
  destruct (lock_step i e (createWorkspaceMu m)) as [mu|] eqn:Hl; [|done].
  pose proof (creation_handler_call accepts o X e (store m)) as Hc.
  destruct (creation_handler accepts o X e (store m)) as [x s]. intros [= <-].
  by eapply step_run.
Qed.

(** The calls step as scheduled; a call that cannot step is passed over. *)
Fixpoint run_schedule (accepts : bool) (o : ∀ X, mcall X → X) (schedule : list nat) (m : manager) : manager :=
  match schedule with
  | [] => m
  | i :: schedule' => run_schedule accepts o schedule' (default m (run_step accepts o i m))
  end.

Lemma run_schedule_sound accepts o schedule m : rtc manager_step m (run_schedule accepts o schedule m).
Proof.
  revert m. induction schedule as [|i schedule IH]; intros m; [apply rtc_refl|]. cbn.
  destruct (run_step accepts o i m) as [m'|] eqn:E; [|apply IH].
  eapply rtc_l; [by eapply run_step_sound|apply IH].
Qed.

Definition answers_nothing : ∀ X, mcall X → X := λ X e,
  match e in mcall X return X with
  | W e => all_good _ e
  | NewPluginID | NewWorkspaceID => ""
  | BeginOp | StartAllowed => true
  | StopEnter => Gate.Proceed
  | WaitApi _ => None
  | EndOp | StopDone | LockCreate | UnlockCreate | BlobClose => ()
  | FactoryTypes | SpecTypes => []
  | PluginGet _ _ => Err ErrPluginNotFound
  | PluginGetByName _ _ _ => Err ErrPluginNotFound
  | PluginList _ _ => Ok ([], "")
  | PluginInsert _ _ | PluginUpdate _ _ => Ok ()
  | PluginDelete _ _ => Ok ()
  | BlobPut _ _ _ => Err ErrStorageClosed
  | BlobGet _ _ => Err ErrStorageNotFound
  | BlobDelete _ _ => Ok ()
  | BlobPresign _ _ _ _ => Err ErrUnsupported
  | OpenZipReader _ => Err ErrCorruptArchive
  | WorkspaceInsert _ _ => Ok ()
  | WorkspaceGetByAlias _ _ _ => Err ErrWorkspaceNotFound
  | CtlSubmit _ _ | CtlStart | SchStart => Ok ()
  | CtlStop _ | SchStop _ => Ok ()
  | CloseWorkspaceRepo | ClosePluginRepo | ClosePluginStorage => Ok ()
  end.

Definition in_dir (alias dir : string) : CreateWorkspaceRequest := {|
  cw_Namespace := ""; cw_Alias := alias; cw_AgentType := "claude-code"; cw_InfraType := localdirInfraType;
  cw_InfraOptions := Some {[infraOptionDir := AString dir]}; cw_InstallParams := None; cw_Plugins := [];
  cw_Description := ""; cw_Labels := None |}.

Definition sample_store : wstate :=
  fresh_store (λ _, Err ErrPluginNotFound) (λ t, bool_decide (t = "claude-code"))
    (λ t, bool_decide (t = localdirInfraType)).

(** Three requests at once; the second names the first one's directory another way. *)
Definition three_calls : manager := {|
  store := sample_store; createWorkspaceMu := None;
  running := (λ '(alias, dir), CreateWorkspace 5 (CtxParent 1) (in_dir alias dir)) <$>
             [("alpha", "/srv/a"); ("beta", "/srv/./b/../a"); ("gamma", "/srv/b")] |}.

(** Their steps in turn: all of them are past the checks before the first one inserts. *)
Definition round_robin : list nat := mjoin (replicate 40 [0; 1; 2]).

Definition after3 : manager := run_schedule true answers_nothing round_robin three_calls.

Lemma after3_reached : rtc manager_step (fresh_manager sample_store) after3.
Proof.
  transitivity three_calls; [|apply run_schedule_sound].
  do 3 (eapply rtc_l; [apply step_create|]). apply rtc_refl.
Qed.

Definition is_created (a : option (result View.Workspace)) : bool :=
  match a with Some (Ok _) => true | _ => false end.

Example creations :
  (λ p, is_created <$> returned p) <$> running after3 = [Some true; Some false; Some true].
Proof. vm_compute. reflexivity. Qed.

Lemma localdir_dirs_exclusive_witness :
  ∃ id w, byID (rows (store after3)) !! id = Some w ∧ dir_of w = Some "/srv/a" ∧
    ∀ id2 w2, byID (rows (store after3)) !! id2 = Some w2 → dir_of w2 = Some "/srv/a" → id2 = id.
Proof.
  assert (existsb (λ p, bool_decide (dir_of p.2 = Some "/srv/a")) (map_to_list (byID (rows (store after3)))) = true)
    as ([id w] & Hin & Hd)%existsb_exists by (vm_compute; reflexivity).
  apply bool_decide_eq_true in Hd. apply list_elem_of_In, elem_of_map_to_list in Hin.
  exists id, w. split; [done|]. split; [done|]. intros id2 w2 H2 D2.
  exact (localdir_dirs_exclusive _ _ _ after3 id2 id w2 w "/srv/a" after3_reached H2 Hin D2 Hd).
Defined.

Definition create (accepts : bool) (req : CreateWorkspaceRequest) (s : wstate)
    : option (result View.Workspace) * wstate :=
  run (creation_handler accepts answers_nothing) (CreateWorkspace 5 (CtxParent 1) req) s.

Lemma create_execs I accepts req s a s' :
  create accepts req s = (a, s') → execs (with_others I) (CreateWorkspace 5 (CtxParent 1) req) s a s'.
Proof. apply creation_handler_sound. Qed.

(** One more request, which the controller accepts or refuses. *)
Lemma create_workspace_spec_witness :
  (∃ v s', create true (in_dir "delta" "/srv/d") (store after3) = (Some (Ok v), s') ∧
     created (in_dir "delta" "/srv/d") (store after3) s' v) ∧
  ∃ e, create false (in_dir "delta" "/srv/d") (store after3) = (Some (Err e), store after3).
Proof.
  destruct (manager_inv _ _ _ _ after3_reached) as [[Hr Hv] _].
  assert (size (byID (rows (store after3))) < 5) as Hsz by (apply Nat.ltb_lt; vm_compute; reflexivity).
  split.
  - assert (is_created (create true (in_dir "delta" "/srv/d") (store after3)).1 = true) as Ha
      by (vm_compute; reflexivity).
    destruct (create true (in_dir "delta" "/srv/d") (store after3)) as [a s'] eqn:E.
    pose proof (create_workspace_spec 5 (CtxParent 1) (in_dir "delta" "/srv/d") (store after3) s' a Hr Hv Hsz
                  (create_execs nobody true _ (store after3) a s' E)) as H.
    destruct a as [[v|e]|]; [|discriminate Ha..]. exists v, s'. exact (conj eq_refl H).
  - assert (is_created (create false (in_dir "delta" "/srv/d") (store after3)).1 = false) as Ha
      by (vm_compute; reflexivity).
    destruct (create false (in_dir "delta" "/srv/d") (store after3)) as [a s'] eqn:E.
    pose proof (create_workspace_spec 5 (CtxParent 1) (in_dir "delta" "/srv/d") (store after3) s' a Hr Hv Hsz
                  (create_execs nobody false _ (store after3) a s' E)) as H.
    destruct a as [[v|e]|]; [discriminate Ha| |destruct H]. exists e. exact (f_equal (pair _) H).
Defined.
End CreationResult.
