(* ===== verification/ShutdownSpec.v ===== *)
(** * Shutting the manager down

    [Stop] of [Manager] against the admission gate: any number of [Stop] calls run at
    once, interleaved call by call, while clients enter and leave API calls. At most one
    [Stop] ever gets past the gate; it drains the API calls and closes the backends. The
    others are refused while it is on its way and return nil at once when it is done,
    whatever came of it. [advance] is the protocol a [Stop] follows, [stop_follows] that it
    does, [world_inv] ties the steps of all of them to the gate. *)

From S2P Require Import Prelude GoString GoError GoValue WorkspaceTypes PluginTypes PluginStorage.
From S2P Require Import Proc WorkspaceWorld ManagerTypes Manager.
From stdpp Require Import options.

Module Shutdown.
Import Gate Manager.

Inductive backend := WorkspaceRepo | PluginRepo | PluginStore.

(** The gate, the backends closed so far, and whether one of them was closed while an
    API call was in flight. *)
Record gstate := {
  gate_of : gate;
  closes : list backend;
  closed_busy : bool;
}.

Definition set_gate (s : gstate) (g : gate) : gstate :=
  {| gate_of := g; closes := closes s; closed_busy := closed_busy s |}.

Definition close_backend (b : backend) (s : gstate) : gstate :=
  {| gate_of := gate_of s; closes := closes s ++ [b];
     closed_busy := closed_busy s || bool_decide (0 < inflight (gate_of s)) |}.

(** One call; collaborators other than the gate may answer anything. Waiting for the API
    calls ends well only when none is in flight. *)
Definition gate_call {X} (e : mcall X) : gstate → X → gstate → Prop :=
  match e in mcall X return gstate → X → gstate → Prop with
  | BeginOp => λ s x s', x = (beginOp (gate_of s)).1 ∧ s' = set_gate s (beginOp (gate_of s)).2
  | EndOp => λ s _ s', s' = set_gate s (endOp (gate_of s))
  | StartAllowed => λ s x s', x = start_allowed (gate_of s) ∧ s' = s
  | StopEnter => λ s x s', x = (stop_enter (gate_of s)).1 ∧ s' = set_gate s (stop_enter (gate_of s)).2
  | StopDone => λ s _ s', s' = set_gate s (stop_done (gate_of s))
  | WaitApi _ => λ s x s', s' = s ∧ (x = None → inflight (gate_of s) = 0)
  | CloseWorkspaceRepo => λ s _ s', s' = close_backend WorkspaceRepo s
  | ClosePluginRepo => λ s _ s', s' = close_backend PluginRepo s
  | ClosePluginStorage => λ s _ s', s' = close_backend PluginStore s
  | _ => λ s _ s', s' = s
  end.

(** ** Stops and clients at once *)

(** [stops] is what every call of [Stop] still has to do; [proceeded] remembers which of
    them the gate let through. *)
Record world := {
  gst : gstate;
  stops : list (mproc (result unit));
  proceeded : option nat;
}.

Definition let_through (i : nat) {X} (e : mcall X) : X → option nat → option nat :=
  match e in mcall X return X → option nat → option nat with
  | StopEnter => λ d now, match d with Proceed => Some i | _ => now end
  | _ => λ _ now, now
  end.

Definition set_gst (w : world) (s : gstate) : world :=
  {| gst := s; stops := stops w; proceeded := proceeded w |}.

Inductive world_step : relation world :=
| world_begin w : world_step w (set_gst w (set_gate (gst w) (beginOp (gate_of (gst w))).2))
| world_end w :
    0 < inflight (gate_of (gst w)) → world_step w (set_gst w (set_gate (gst w) (endOp (gate_of (gst w)))))
| world_stop c w :
    world_step w {| gst := gst w; stops := stops w ++ [Stop c]; proceeded := proceeded w |}
| world_run i X (e : mcall X) k x s w :
    stops w !! i = Some (Do e k) → gate_call e (gst w) x s →
    world_step w {| gst := s; stops := <[i := k x]> (stops w); proceeded := let_through i e x (proceeded w) |}.

Definition quiet_world : world := {|
  gst := {| gate_of := open_gate; closes := []; closed_busy := false |}; stops := []; proceeded := None |}.

(** ** The protocol of a stop *)

(** Where a [Stop] stands; [drained]: whether the wait for the API calls was over and ended
    well, [closed]: the backends it has closed. *)
Inductive role :=
| Idle
| SawDown
| Refused
| Stopping (drained : option bool) (closed : list backend)
| Done (drained : bool).

Definition every_backend : list backend := [WorkspaceRepo; PluginRepo; PluginStore].

#[export] Instance backend_eq_dec : EqDecision backend.
Proof. solve_decision. Defined.

Definition close_role (b : backend) (t : role) : option role :=
  match t with Stopping (Some d) l => Some (Stopping (Some d) (l ++ [b])) | _ => None end.

Definition advance (t : role) X (e : mcall X) : X → option role :=
  match e in mcall X return X → option role with
  | @W X e =>
      match e in wcall X return X → option role with
      | CtxErr _ => λ _, match t with Idle => Some Idle | _ => None end
      | _ => λ _, None
      end
  | StopEnter => λ d,
      match t, d with
      | Idle, Proceed => Some (Stopping None [])
      | Idle, AlreadyDown => Some SawDown
      | Idle, InProgress => Some Refused
      | _, _ => None
      end
  | SchStop _ | CtlStop _ => λ _, match t with Stopping None [] => Some t | _ => None end
  | WaitApi _ => λ x, match t with Stopping None [] => Some (Stopping (Some (bool_decide (x = None))) []) | _ => None end
  | CloseWorkspaceRepo => λ _, close_role WorkspaceRepo t
  | ClosePluginRepo => λ _, close_role PluginRepo t
  | ClosePluginStorage => λ _, close_role PluginStore t
  | StopDone => λ _,
      match t with Stopping (Some d) l => if decide (l = every_backend) then Some (Done d) else None | _ => None end
  | _ => λ _, None
  end.

(** What a [Stop] may answer where it stands. *)
Definition finished (r : result unit) (t : role) : Prop :=
  match t with
  | Idle | Refused => is_ok r = false
  | SawDown => True
  | Stopping _ _ => False
  | Done drained => is_ok r = true → drained = true
  end.

Lemma note_app_none {A B} (a : result A) (b : result B) (d : option error) :
  errors_Join (note "scheduler stop" a ++ note "controller stop" b ++
               match d with Some err => [wrap "api drain" err] | None => [] end) = None → d = None.
Proof. by destruct a, b, d. Qed.

Lemma stop_follows c : follows advance Idle (Stop c) finished.
Proof.
  intros e. exists Idle. split; [done|]. destruct e as [e|]; [done|].
  intros d. destruct d; [by exists SawDown|by exists Refused|].
  eexists. split; [done|]. intros sch. eexists. split; [done|]. intros ctl. eexists. split; [done|].
  intros drained. eexists. split; [done|]. intros r1. eexists. split; [done|]. intros r2. eexists. split; [done|].
  intros r3. eexists. split; [done|]. intros u. exists (Done (bool_decide (drained = None))). split; [done|]. cbn.
  destruct (errors_Join _) as [joined|] eqn:Hj; [done|]. intros _. apply note_app_none in Hj as ->. done.
Qed.

(** ** The invariant *)

(** The gate as the [Stop] that was let through finds it. *)
Definition consistent (s : gstate) (t : role) : Prop :=
  stopInProgress (gate_of s) = true ∧
  match t with
  | Stopping d l => shutDown (gate_of s) = false ∧ closes s = l ∧
      match d with
      | None => l = [] ∧ closed_busy s = false
      | Some d => d = true → inflight (gate_of s) = 0 ∧ closed_busy s = false
      end ∧ (l = [] → closed_busy s = false)
  | Done d => shutDown (gate_of s) = true ∧ closes s = every_backend ∧
      (d = true → inflight (gate_of s) = 0 ∧ closed_busy s = false)
  | _ => False
  end.

Definition stopping (t : role) : bool :=
  match t with Stopping _ _ | Done _ => true | _ => false end.

(** The gate before any [Stop] was let through. *)
Definition untouched (s : gstate) : Prop :=
  stopInProgress (gate_of s) = false ∧ shutDown (gate_of s) = false ∧ closes s = [] ∧ closed_busy s = false.

Record roles_ok (w : world) (roles : list role) : Prop := {
  ro_follow : Forall2 (λ p t, follows advance t p finished) (stops w) roles;
  ro_state : match proceeded w with
             | None => untouched (gst w)
             | Some i => ∃ t, roles !! i = Some t ∧ consistent (gst w) t
             end;
  ro_only j t : roles !! j = Some t → stopping t = true → proceeded w = Some j;
  ro_down j : roles !! j = Some SawDown → shutDown (gate_of (gst w)) = true;
}.

Definition world_inv (w : world) : Prop := ∃ roles, roles_ok w roles.

(** Clients entering and leaving. *)
Lemma client_ok w s roles :
  gate_of s = (beginOp (gate_of (gst w))).2 ∨ gate_of s = endOp (gate_of (gst w)) →
  closes s = closes (gst w) → closed_busy s = closed_busy (gst w) →
  roles_ok w roles → roles_ok (set_gst w s) roles.
Proof.
  intros Hg Hc Hb [Hf Hs Ho Hd].
  assert (stopInProgress (gate_of s) = stopInProgress (gate_of (gst w)) ∧
          shutDown (gate_of s) = shutDown (gate_of (gst w)) ∧
          (stopInProgress (gate_of (gst w)) = true → inflight (gate_of s) ≤ inflight (gate_of (gst w))))
    as (Hsip & Hsd & Hin).
  { unfold beginOp in Hg. destruct (shutDown (gate_of (gst w))) eqn:E1, (stopInProgress (gate_of (gst w))) eqn:E2;
      cbn in Hg; destruct Hg as [->| ->]; cbn; rewrite ?E1, ?E2; split_and!; done || lia. }
  split; cbn; [done| |done|].
  - destruct (proceeded w) as [i|].
    + destruct Hs as (t & Ht & Hs1 & Hs2). exists t. split; [done|]. unfold consistent. rewrite Hsip, Hsd, Hc, Hb.
      specialize (Hin Hs1). split; [done|].
      destruct t as [| | |[d|] l|d]; try done; intuition lia.
    + destruct Hs as (? & ? & ? & ?). unfold untouched. by rewrite Hsip, Hsd, Hc, Hb.
  - intros j Hj. rewrite Hsd. by eapply Hd.
Qed.

(** A step of a [Stop] that was not let through. *)
Lemma idle_moves X (e : mcall X) x t' s s' :
  advance Idle X e x = Some t' → gate_call e s x s' →
  s' = s ∧ (t' = Idle ∨ t' = Refused ∨ t' = SawDown ∧ shutDown (gate_of s) = true) ∧
    (∀ i now, let_through i e x now = now) ∨
  t' = Stopping None [] ∧ (untouched s → consistent s' t') ∧ stopInProgress (gate_of s) = false ∧
    (∀ i now, let_through i e x now = Some i).
Proof.
  intros Ha Hc. destruct e; try done.
  - destruct e; try done. injection Ha as <-. cbn in Hc. subst s'. left. auto.
  - destruct Hc as [Hx ->]. unfold stop_enter in *. destruct s as [[sip sd n] cl b]. cbn in *.
    destruct sd, sip; cbn in *; subst x; injection Ha as <-; [left; auto 10..|right].
    split_and!; [done| |done..]. intros (_ & _ & ? & ?). unfold consistent. cbn in *. by subst.
Qed.

(** A step of the one that was. *)
Lemma stops_advance X (e : mcall X) x d l t' s s' :
  advance (Stopping d l) X e x = Some t' → gate_call e s x s' → consistent s (Stopping d l) →
  stopping t' = true ∧ consistent s' t' ∧ ∀ i now, let_through i e x now = now.
Proof.
  intros Ha Hc (Hsip & Hsd & Hcl & Hd & Hb).
  assert (∀ b, close_role b (Stopping d l) = Some t' → s' = close_backend b s →
    stopping t' = true ∧ consistent s' t') as Hclose.
  { intros b Hr ->. destruct d as [d|]; [|done]. injection Hr as <-. split; [done|]. unfold consistent. cbn.
    split_and!; [done|done|by rewrite Hcl| |by intros [_ ?]%app_nil]. intros Htrue.
    destruct (Hd Htrue) as [Hz ->]. split; [done|]. rewrite Hz. done. }
  destruct e; try done; try (destruct (Hclose _ Ha Hc); done);
    unfold consistent; cbn in Ha, Hc.
  - by destruct e.
  - destruct d as [d|], l as [|b0 l]; try done. case_decide as Hl; [|done]. injection Ha as <-. subst s'.
    cbn. split_and!; try done. cbn. by rewrite Hcl.
  - destruct d as [d|], l as [|b0 l]; try done. injection Ha as <-. destruct Hc as [-> Hx]. cbn.
    split_and!; try done. intros Htrue%bool_decide_eq_true. split; [by apply Hx|by apply Hb].
  - destruct d as [d|], l as [|b0 l]; try done. injection Ha as <-. subst s'. cbn.
    destruct Hd as [_ Hd]. by split_and!.
  - destruct d as [d|], l as [|b0 l]; try done. injection Ha as <-. subst s'. cbn.
    destruct Hd as [_ Hd]. by split_and!.
Qed.

Lemma roles_run i X (e : mcall X) k x s w roles :
  stops w !! i = Some (Do e k) → gate_call e (gst w) x s → roles_ok w roles →
  world_inv {| gst := s; stops := <[i := k x]> (stops w); proceeded := let_through i e x (proceeded w) |}.
Proof.
  intros Hi Hc [Hf Hs Ho Hd]. destruct (Forall2_lookup_l _ _ _ _ _ Hf Hi) as (t & Ht & Hfol).
  destruct (Hfol x) as (t' & Ha & Hfol'). exists (<[i := t']> roles).
  assert (i < length roles) as Hlen by (by eapply lookup_lt_Some).
  assert (Forall2 (λ p t, follows advance t p finished) (<[i:=k x]> (stops w)) (<[i:=t']> roles)) as Hf'
    by (by apply Forall2_insert).
  destruct (stopping t) eqn:Hst.
  - pose proof (Ho _ _ Ht Hst) as Hp. rewrite Hp in Hs. destruct Hs as (t0 & Ht0 & Hcon).
    assert (t0 = t) as -> by congruence. destruct t as [| | |d l|d]; try done.
    2: { by destruct e; try done; destruct e. }
    destruct (stops_advance _ _ _ _ _ _ _ _ Ha Hc Hcon) as (Hst' & Hcon' & Hthr).
    split; cbn; [done| | |].
    + rewrite Hthr, Hp. exists t'. split; [by apply list_lookup_insert_eq|done].
    + intros j tj. rewrite Hthr, Hp, list_lookup_insert_Some. intros [(-> & <- & _)|(Hne & Hj)]; [done|].
      intros E. rewrite <-Hp. by eapply Ho.
    + intros j. rewrite list_lookup_insert_Some. intros [(-> & -> & _)|(Hne & Hj)]; [done|].
      destruct Hcon as (_ & Hsd & _). specialize (Hd j Hj). congruence.
  - destruct t; try done; [|by destruct e; try done; destruct e..].
    destruct (idle_moves _ _ _ _ _ _ Ha Hc) as [(-> & Hcase & Hthr)|(-> & Hcon & Hsip & Hthr)].
    + assert (stopping t' = false) as Hst' by (by destruct Hcase as [->|[->|[-> _]]]).
      split; cbn; [done| | |].
      * rewrite Hthr. destruct (proceeded w) as [j|]; [|done]. destruct Hs as (tj & Hj & Hcon). exists tj.
        split; [|done]. rewrite list_lookup_insert_ne; [done|]. intros <-. assert (tj = Idle) as -> by congruence.
        by destruct Hcon.
      * intros j tj. rewrite Hthr, list_lookup_insert_Some. intros [(-> & <- & _)|(Hne & Hj)]; [congruence|].
        by apply Ho.
      * intros j. rewrite list_lookup_insert_Some. intros [(-> & -> & _)|(Hne & Hj)]; [|by eapply Hd].
        destruct Hcase as [?|[?|[_ ?]]]; done.
    + destruct (proceeded w) as [j|] eqn:Hp; [destruct Hs as (tj & _ & [E _]); congruence|].
      split; cbn; rewrite ?Hp; [done| | |].
      * rewrite Hthr. exists (Stopping None []). split; [by apply list_lookup_insert_eq|by apply Hcon].
      * intros j tj. rewrite Hthr, list_lookup_insert_Some. intros [(-> & <- & _)|(Hne & Hj)]; [done|].
        intros E. specialize (Ho _ _ Hj E). congruence.
      * intros j. rewrite list_lookup_insert_Some. intros [(-> & ? & _)|(Hne & Hj)]; [done|].
        destruct Hs as (_ & Hsd & _). specialize (Hd j Hj). congruence.
Qed.

Lemma stop_called c w roles :
  roles_ok w roles → roles_ok {| gst := gst w; stops := stops w ++ [Stop c]; proceeded := proceeded w |} (roles ++ [Idle]).
Proof.
  intros [Hf Hs Ho Hd]. split; cbn.
  - apply Forall2_app; [done|]. by repeat constructor; apply stop_follows.
  - destruct (proceeded w) as [i|]; [|done]. destruct Hs as (t & Ht & Hc). exists t. split; [|done].
    by apply lookup_app_l_Some.
  - intros j t [Hj|[_ Hj]]%lookup_app_Some; [by eapply Ho|].
    by apply list_lookup_singleton_Some in Hj as [_ <-].
  - intros j [Hj|[_ Hj]]%lookup_app_Some; [by eapply Hd|]. by apply list_lookup_singleton_Some in Hj as [_ ?].
Qed.

Lemma world_step_ok w w' : world_step w w' → world_inv w → world_inv w'.
Proof.
  intros Hw [roles Hr]. destruct Hw as [w|w _|c w|i X e k x s w Hi Hc].
  - exists roles. by apply client_ok; [left|..].
  - exists roles. by apply client_ok; [right|..].
  - eexists. by apply stop_called.
  - by eapply roles_run.
Qed.

Lemma world_reached w : rtc world_step quiet_world w → world_inv w.
Proof.
  revert w. apply (rtc_ind_r (R := world_step) world_inv).
  - exists []. split; cbn; [constructor|done|by intros ??|by intros ?].
  - intros w1 w2 _. by apply world_step_ok.
Qed.

(** ** What a stop leaves *)

Definition is_down (s : gstate) : Prop :=
  shutDown (gate_of s) = true ∧ closes s = every_backend ∧ (beginOp (gate_of s)).1 = false.

Definition quiesced (s : gstate) : Prop :=
  is_down s ∧ inflight (gate_of s) = 0 ∧ closed_busy s = false.

Lemma down_refuses s : shutDown (gate_of s) = true → (beginOp (gate_of s)).1 = false.
Proof. unfold beginOp. by intros ->. Qed.

(** Once down, every backend was closed. *)
Lemma down_closed w : world_inv w → shutDown (gate_of (gst w)) = true → is_down (gst w).
Proof.
  intros [roles [Hf Hs Ho Hd]] Hsd. split; [done|]. split; [|by apply down_refuses].
  destruct (proceeded w) as [i|]; [|destruct Hs as (_ & E & _); congruence].
  destruct Hs as (t & _ & _ & Hc). destruct t as [| | |d l|d]; try done; [|by destruct Hc as (_ & ? & _)].
  destruct Hc as [E _]. congruence.
Qed.

Lemma returned_role w i r :
  world_inv w → stops w !! i = Some (Ret r) → ∃ t, finished r t ∧
    (stopping t = true → proceeded w = Some i) ∧ (t = SawDown → shutDown (gate_of (gst w)) = true) ∧
    (proceeded w = Some i → consistent (gst w) t).
Proof.
  intros [roles [Hf Hs Ho Hd]] Hi. destruct (Forall2_lookup_l _ _ _ _ _ Hf Hi) as (t & Ht & Hfol).
  exists t. split_and!; [done|by apply Ho| |].
  - intros ->. by eapply Hd.
  - intros Hp. rewrite Hp in Hs. destruct Hs as (t0 & Ht0 & Hc). by assert (t0 = t) as <- by congruence.
Qed.

Lemma returned_down w i r :
  world_inv w → stops w !! i = Some (Ret r) → is_ok r = true ∨ proceeded w = Some i → is_down (gst w).
Proof.
  intros Hw Hi Hr. apply down_closed; [done|].
  destruct (returned_role w i r Hw Hi) as (t & Hfin & Ho & Hd & Hc).
  destruct t as [| | |d l|d]; cbn in Hfin; try done.
  - destruct Hr as [Hr|Hp]; [congruence|]. by destruct (Hc Hp).
  - by apply Hd.
  - destruct Hr as [Hr|Hp]; [congruence|]. by destruct (Hc Hp).
  - by destruct (Hc (Ho eq_refl)) as (_ & ? & _).
Qed.

Lemma proceeded_quiesced w i :
  world_inv w → stops w !! i = Some (Ret (Ok ())) → proceeded w = Some i → quiesced (gst w).
Proof.
  intros Hw Hi Hp. split; [by eapply returned_down; eauto|].
  destruct (returned_role w i _ Hw Hi) as (t & Hfin & _ & _ & Hc). specialize (Hc Hp).
  destruct t as [| | |d l|d]; cbn in Hfin; try done; try by destruct Hc.
  destruct Hc as (_ & _ & _ & Hd). apply Hd. by apply Hfin.
Qed.

(** What a step does not take back. *)
Lemma step_persists w w' i r :
  world_inv w → world_step w w' → stops w !! i = Some (Ret r) →
  stops w' !! i = Some (Ret r) ∧ (proceeded w = Some i → proceeded w' = Some i).
Proof.
  intros [roles [_ Hs _ _]] Hw Hi. destruct Hw as [w|w _|c w|j X e k x s w Hj Hc]; cbn; [done..| |].
  - split; [by apply lookup_app_l_Some|done].
  - split; [rewrite list_lookup_insert_ne; [done|intros ->; congruence]|]. intros Hp. rewrite Hp in Hs |- *.
    destruct Hs as (t & _ & Hsip & _). destruct e; try done. destruct Hc as [-> _]. cbn.
    unfold stop_enter. rewrite Hsip. by destruct (shutDown _).
Qed.

Lemma steps_persist w w' i r :
  world_inv w → rtc world_step w w' → stops w !! i = Some (Ret r) →
  world_inv w' ∧ stops w' !! i = Some (Ret r) ∧ (proceeded w = Some i → proceeded w' = Some i).
Proof.
  intros Hw H. induction H as [w|w w1 w' Hs _ IH]; intros Hi; [done|].
  destruct (step_persists _ _ _ _ Hw Hs Hi) as [Hi1 Hp1].
  destruct (IH (world_step_ok _ _ Hs Hw) Hi1) as (Hw' & Hi' & Hp'). split_and!; [done..|auto].
Qed.

(** C14. Stopping the manager, with any number of [Stop] calls at once and clients entering
    and leaving API calls between any two of their steps. The [Stop] the gate let through
    ([proceeded]; there is at most one, ever), once it has returned nil, has quiesced the
    manager for good: it is down, each backend was closed exactly once and only after the
    last API call had left, none is in flight and none is ever admitted again. When that
    [Stop] returned an error, or when any other [Stop] returned nil (it found the manager
    down), the manager is down for good, every backend was closed and no call is admitted;
    but calls may still be in flight then ([nil_with_call_in_flight]). Before a [Stop] was
    let through nothing is closed and the gate is open. *)
Theorem stop_quiesces (w : world) :
  rtc world_step quiet_world w →
  (∀ i, proceeded w = Some i → stops w !! i = Some (Ret (Ok ())) →
     ∀ w2, rtc world_step w w2 → quiesced (gst w2)) ∧
  (∀ i r, stops w !! i = Some (Ret r) → is_ok r = true ∨ proceeded w = Some i →
     ∀ w2, rtc world_step w w2 → is_down (gst w2)) ∧
  (proceeded w = None → closes (gst w) = [] ∧ (beginOp (gate_of (gst w))).1 = true).
Proof.
  intros Hw%world_reached. split_and!.
  - intros i Hp Hi w2 H2. destruct (steps_persist _ _ _ _ Hw H2 Hi) as (Hw2 & Hi2 & Hp2).
    eapply proceeded_quiesced; [done..|by apply Hp2].
  - intros i r Hi Hr w2 H2. destruct (steps_persist _ _ _ _ Hw H2 Hi) as (Hw2 & Hi2 & Hp2).
    eapply returned_down; [done..|]. destruct Hr; [by left|right; by apply Hp2].
  - intros Hp. destruct Hw as [roles [_ Hs _ _]]. rewrite Hp in Hs. destruct Hs as (E1 & E2 & E3 & _).
    split; [done|]. unfold beginOp. by rewrite E1, E2.
Qed.

(** *** Two executions: a call is in flight when the stop begins *)

Definition fine : result unit := Ok ().

(** The next call of stop [i] is answered [x]. *)
Ltac stop_step i x := eapply rtc_l; [by eapply (world_run i _ _ _ x)|cbn].

(** The call leaves while the stop waits for it. *)
Lemma drained_stop : ∃ w, rtc world_step quiet_world w ∧ proceeded w = Some 0 ∧ stops w = [Ret (Ok ())].
Proof.
  eexists. split.
  - eapply rtc_l; [apply world_begin|]. eapply rtc_l; [apply (world_stop (CtxParent 1))|]. cbn.
    stop_step 0 (@None error). stop_step 0 Proceed. stop_step 0 fine. stop_step 0 fine.
    eapply rtc_l; [apply world_end; cbn; lia|]. cbn.
    stop_step 0 (@None error). stop_step 0 fine. stop_step 0 fine. stop_step 0 fine. stop_step 0 tt.
    apply rtc_refl.
  - done.
Qed.

(** The context of the stop ends first: it fails and closes the backends under the call. A
    second [Stop] then returns nil while that call is still in flight. *)
Lemma nil_with_call_in_flight : ∃ w e,
  rtc world_step quiet_world w ∧ stops w = [Ret (Err e); Ret (Ok ())] ∧
  inflight (gate_of (gst w)) = 1 ∧ closed_busy (gst w) = true.
Proof.
  eexists _, _. split.
  - eapply rtc_l; [apply world_begin|]. eapply rtc_l; [apply (world_stop (CtxParent 1))|]. cbn.
    stop_step 0 (@None error). stop_step 0 Proceed. stop_step 0 fine. stop_step 0 fine.
    stop_step 0 (Some (ENew "context deadline exceeded")).
    stop_step 0 fine. stop_step 0 fine. stop_step 0 fine. stop_step 0 tt.
    eapply rtc_l; [apply (world_stop (CtxParent 2))|]. cbn.
    stop_step 1 (@None error). stop_step 1 AlreadyDown. apply rtc_refl.
  - done.
Qed.

Lemma stop_quiesces_witness :
  ∃ w, stops w = [Ret (Ok ())] ∧ shutDown (gate_of (gst w)) = true ∧ inflight (gate_of (gst w)) = 0.
Proof.
  destruct drained_stop as (w & Hw & Hp & Hs).
  destruct (stop_quiesces w Hw) as [Hq _].
  destruct (Hq 0 Hp ltac:(rewrite Hs; reflexivity) w (rtc_refl _ _)) as [[Hd _] [Hz _]].
  exists w. exact (conj Hs (conj Hd Hz)).
Defined.
End Shutdown.
