(* ===== verification/Registration.v ===== *)
(** * Registration and wiring

    The agent spec set with its validators (pkg/manager/agent/specset.go,
    pkg/manager/agent/types.go), the infra factory set
    (pkg/manager/infraops/infraops.go) and the manager's builder
    (pkg/manager/manager.go). A set's mutex makes each method one atomic function;
    specs and factories are code outside these files, represented by what the
    registration reads of them. *)

From S2P Require Import Prelude GoString GoError GoValue GoPath WorkspaceTypes PluginTypes.
From S2P Require Import WorkspaceWorld Install Controller Scheduler Manager.
From stdpp Require Import options.

Module Registration.

Definition ErrAgentTypeConflict : error := ENew "agent: agent type conflict".
Definition ErrInvalidAgentType : error := ENew "agent: invalid agent type".
Definition ErrInvalidAgentSpec : error := ENew "agent: invalid agent spec".
Definition ErrInvalidProtocolDescriptor : error := ENew "agent: invalid protocol descriptor".
Definition ErrInfraTypeConflict : error := ENew "infraops: infra type conflict".

(** ** Validators *)

Definition agentTypePattern (s : string) : bool :=
  matches_head_class is_lower (λ c, is_lower c || is_digit c || is_dash c) 0 31 s.

Definition ValidateAgentType (agentType : AgentType) : result unit :=
  if agentTypePattern agentType then Ok ()
  else Err (Errorf_w "" ErrInvalidAgentType (": " +:+ strconv_Quote agentType)).

Record ProtocolDescriptor := {
  pd_Kind : string;
  pd_Detail : gomap any;
}.

Definition ProtocolKindCLI := "cli".
Definition ProtocolKindREST := "rest".
Definition ProtocolKindSocket := "socket".

(** [math.IsNaN(f) || math.IsInf(f, 0)]: the exponent bits are all ones. *)
Definition nonfinite32 (bits : Z) : bool := bool_decide (Z.land (Z.shiftr bits 23) 255 = 255)%Z.
Definition nonfinite64 (bits : Z) : bool := bool_decide (Z.land (Z.shiftr bits 52) 2047 = 2047)%Z.

(** [%v] of a non-finite float. *)
Definition nonfinite_text (fraction_bits bits : Z) : string :=
  if decide (Z.land bits (2 ^ fraction_bits - 1) ≠ 0)%Z then "NaN"
  else if Z.testbit bits (if decide (fraction_bits = 23)%Z then 31 else 63) then "-Inf" else "+Inf".

Section json.
Context `{!MapRange}.

Fixpoint validate_elems (f : any → result unit) (idx : Z) (l : list any) : result unit :=
  match l with
  | [] => Ok ()
  | v :: l' =>
    match f v with
    | Err e => Err (Errorf_w ("array[" +:+ strconv_Itoa idx +:+ "]: ") e "")
    | Ok _ => validate_elems f (idx + 1) l'
    end
  end.

Fixpoint validate_members (f : any → result unit) (l : list (string * any)) : result unit :=
  match l with
  | [] => Ok ()
  | (key, v) :: l' =>
    if decide (key = "") then Err (ENew "empty map key") else
    match f v with
    | Err e => Err (Errorf_w ("map[" +:+ strconv_Quote key +:+ "]: ") e "")
    | Ok _ => validate_members f l'
    end
  end.

(** Recursion through slices and maps; [validateJSONCompatibleValue] gives it one
    more unit of fuel than the value is deep. Slices and maps of other element types
    than [any], which reflection also accepts, are no values of [any]. *)
Fixpoint validate_json (fuel : nat) (v : any) : result unit :=
  match fuel with
  | 0 => Err (Errorf "out of fuel")
  | S fuel' =>
    match v with
    | ANil | ABool _ | AString _ | AInt _ _ => Ok ()
    | AFloat32 bits => if nonfinite32 bits
                       then Err (Errorf ("non-finite float32 " +:+ nonfinite_text 23 bits)) else Ok ()
    | AFloat64 bits => if nonfinite64 bits
                       then Err (Errorf ("non-finite float64 " +:+ nonfinite_text 52 bits)) else Ok ()
    | ASlice l => validate_elems (validate_json fuel') 0 (default [] l)
    | AMap m => validate_members (validate_json fuel') (range_ m)
    | AOther t _ => Err (Errorf ("unsupported type " +:+ t))
    end
  end.

Definition validateJSONCompatibleValue (v : any) : result unit := validate_json (S (any_depth v)) v.

Fixpoint validate_detail (l : list (string * any)) : result unit :=
  match l with
  | [] => Ok ()
  | (k, v) :: l' =>
    if decide (k = "") then Err (Errorf_w "" ErrInvalidProtocolDescriptor ": empty detail key") else
    match validateJSONCompatibleValue v with
    | Err e => Err (Errorf_w2 "" ErrInvalidProtocolDescriptor (": detail[" +:+ strconv_Quote k +:+ "]: ") e)
    | Ok _ => validate_detail l'
    end
  end.

Definition ValidateProtocolDescriptor (desc : ProtocolDescriptor) : result unit :=
  if decide (pd_Kind desc = "") then Err (Errorf_w "" ErrInvalidProtocolDescriptor ": empty kind")
  else if decide (pd_Kind desc = ProtocolKindCLI ∨ pd_Kind desc = ProtocolKindREST ∨
                  pd_Kind desc = ProtocolKindSocket)
  then validate_detail (range_ (pd_Detail desc))
  else Err (Errorf_w "" ErrInvalidProtocolDescriptor (": unsupported kind " +:+ strconv_Quote (pd_Kind desc))).

End json.

(** ** The spec set *)

(** What [Register] asks a spec for. *)
Record AgentSpec := {
  as_Type : AgentType;
  as_DisplayName : string;
  as_PluginLayout : bool;      (* not nil *)
  as_ProtocolDescriptor : ProtocolDescriptor;
}.

Abbreviation SpecSet := (gmap AgentType AgentSpec).

Definition NewSpecSet : SpecSet := ∅.

Section specset.
Context `{!MapRange}.

Definition SpecSet_Register (spec : option AgentSpec) (s : SpecSet) : result unit * SpecSet :=
  match spec with
  | None => (Err (Errorf_w "" ErrInvalidAgentSpec ": nil spec"), s)
  | Some spec =>
    match ValidateAgentType (as_Type spec) with
    | Err e => (Err e, s)
    | Ok _ =>
      if decide (as_DisplayName spec = "")
      then (Err (Errorf_w "" ErrInvalidAgentSpec (": empty display name for " +:+ strconv_Quote (as_Type spec))), s)
      else if negb (as_PluginLayout spec)
      then (Err (Errorf_w "" ErrInvalidPluginLayout (": " +:+ strconv_Quote (as_Type spec))), s)
      else match ValidateProtocolDescriptor (as_ProtocolDescriptor spec) with
      | Err e => (Err e, s)
      | Ok _ =>
        match s !! as_Type spec with
        | Some _ => (Err (Errorf_w "" ErrAgentTypeConflict (": " +:+ strconv_Quote (as_Type spec))), s)
        | None => (Ok (), <[as_Type spec := spec]> s)
        end
      end
    end
  end.

Definition SpecSet_Get (t : AgentType) (s : SpecSet) : option AgentSpec := s !! t.

(** The keys in the order of [slices.Sort]. *)
Definition SpecSet_Types (s : SpecSet) : list AgentType := merge_sort String.le (map_to_list s).*1.

Definition SpecSet_Len (s : SpecSet) : nat := size s.

Definition Lookup (t : AgentType) (s : SpecSet) : result AgentSpec :=
  match SpecSet_Get t s with
  | None => Err (Errorf_w "" ErrAgentTypeUnknown (": " +:+ strconv_Quote t))
  | Some spec => Ok spec
  end.

Definition IsTypeConflict (err : option error) : bool := is_err err ErrAgentTypeConflict.
End specset.

(** ** The factory set

    A factory is a function value the set only stores. *)

Abbreviation FactorySet F := (gmap InfraType F).

Section factories.
Context {Factory : Type}.

Definition NewFactorySet : FactorySet Factory := ∅.

Definition FactorySet_Register (infraType : InfraType) (f : Factory) (s : FactorySet Factory) : result unit * FactorySet Factory :=
  match s !! infraType with
  | Some _ => (Err ErrInfraTypeConflict, s)
  | None => (Ok (), <[infraType := f]> s)
  end.

Definition FactorySet_Get (infraType : InfraType) (s : FactorySet Factory) : option Factory := s !! infraType.

Definition FactorySet_Types (s : FactorySet Factory) : list InfraType := merge_sort String.le (map_to_list s).*1.

(** ** The builder *)

Record Builder := {
  b_PluginRepository : bool;        (* not nil *)
  b_PluginStorage : bool;
  b_WorkspaceRepository : bool;
  b_InstallTimeout : Z;
  b_InstallWorkers : Z;
  b_ProbeInterval : Z;
  b_ProbeWorkers : Z;
  b_ProbeTimeout : Z;
  b_agentSpecs : list (option AgentSpec);
  b_infraFactories : list (InfraType * option Factory);
  b_built : bool;
}.

Definition NewBuilder : Builder := {|
  b_PluginRepository := false; b_PluginStorage := false; b_WorkspaceRepository := false;
  b_InstallTimeout := 0; b_InstallWorkers := 0; b_ProbeInterval := 0; b_ProbeWorkers := 0;
  b_ProbeTimeout := 0; b_agentSpecs := []; b_infraFactories := []; b_built := false |}%Z.

Definition set_specs (b : Builder) (l : list (option AgentSpec)) : Builder := {|
  b_PluginRepository := b_PluginRepository b; b_PluginStorage := b_PluginStorage b;
  b_WorkspaceRepository := b_WorkspaceRepository b; b_InstallTimeout := b_InstallTimeout b;
  b_InstallWorkers := b_InstallWorkers b; b_ProbeInterval := b_ProbeInterval b;
  b_ProbeWorkers := b_ProbeWorkers b; b_ProbeTimeout := b_ProbeTimeout b;
  b_agentSpecs := l; b_infraFactories := b_infraFactories b; b_built := b_built b |}.

Definition set_factories (b : Builder) (l : list (InfraType * option Factory)) : Builder := {|
  b_PluginRepository := b_PluginRepository b; b_PluginStorage := b_PluginStorage b;
  b_WorkspaceRepository := b_WorkspaceRepository b; b_InstallTimeout := b_InstallTimeout b;
  b_InstallWorkers := b_InstallWorkers b; b_ProbeInterval := b_ProbeInterval b;
  b_ProbeWorkers := b_ProbeWorkers b; b_ProbeTimeout := b_ProbeTimeout b;
  b_agentSpecs := b_agentSpecs b; b_infraFactories := l; b_built := b_built b |}.

Definition consume (b : Builder) : Builder := {|
  b_PluginRepository := b_PluginRepository b; b_PluginStorage := b_PluginStorage b;
  b_WorkspaceRepository := b_WorkspaceRepository b; b_InstallTimeout := b_InstallTimeout b;
  b_InstallWorkers := b_InstallWorkers b; b_ProbeInterval := b_ProbeInterval b;
  b_ProbeWorkers := b_ProbeWorkers b; b_ProbeTimeout := b_ProbeTimeout b;
  b_agentSpecs := b_agentSpecs b; b_infraFactories := b_infraFactories b; b_built := true |}.

Definition RegisterAgentSpec (spec : option AgentSpec) (b : Builder) : Builder :=
  set_specs b (b_agentSpecs b ++ [spec]).
Definition RegisterInfraType (infraType : InfraType) (f : option Factory) (b : Builder) : Builder :=
  set_factories b (b_infraFactories b ++ [(infraType, f)]).

(** What a manager is built with. *)
Record manager := {
  m_agentSpecs : SpecSet;
  m_infraFactories : FactorySet Factory;
  m_controller : Install.config * Z;
  m_scheduler : Scheduler.settings;
}.

Definition opBuild := "manager build".
Definition errBuilderConsumed : error := ENew "manager: builder already used".

Section build.
Context `{!MapRange}.

Fixpoint register_specs (l : list (option AgentSpec)) (s : SpecSet) : result SpecSet :=
  match l with
  | [] => Ok s
  | spec :: l' => match SpecSet_Register spec s with
                  | (Err e, _) => Err (Manager.wrap opBuild e)
                  | (Ok _, s') => register_specs l' s'
                  end
  end.

Fixpoint register_factories (l : list (InfraType * option Factory)) (s : FactorySet Factory)
    : result (FactorySet Factory) :=
  match l with
  | [] => Ok s
  | (t, None) :: _ => Err (Errorf (opBuild +:+ ": nil infra factory for " +:+ strconv_Quote t))
  | (t, Some f) :: l' => match FactorySet_Register t f s with
                         | (Err e, _) => Err (Manager.wrap opBuild e)
                         | (Ok _, s') => register_factories l' s'
                         end
  end.

(** [Build] with the two collaborators' constructors; the warnings about empty sets
    are only logged. *)
Definition wire (b : Builder) : result manager :=
  if negb (b_PluginRepository b) then Err (Errorf (opBuild +:+ ": nil plugin repository"))
  else if negb (b_PluginStorage b) then Err (Errorf (opBuild +:+ ": nil plugin storage"))
  else if negb (b_WorkspaceRepository b) then Err (Errorf (opBuild +:+ ": nil workspace repository"))
  else
    specs ← register_specs (b_agentSpecs b) NewSpecSet;
    factories ← register_factories (b_infraFactories b) NewFactorySet;
    match Controller.NewControllerSettings {|
      Controller.cc_Repo := b_WorkspaceRepository b; Controller.cc_PluginStorage := b_PluginStorage b;
      Controller.cc_AgentSpecs := true; Controller.cc_Factories := true;
      Controller.cc_InstallTimeout := b_InstallTimeout b; Controller.cc_InstallWorkers := b_InstallWorkers b;
      Controller.cc_MaxPluginSize := 0; Controller.cc_ProbeTimeout := b_ProbeTimeout b |} with
    | Err e => Err (Manager.wrap opBuild e)
    | Ok controller =>
      match Scheduler.NewProbeScheduler {|
        Scheduler.pc_Repo := b_WorkspaceRepository b; Scheduler.pc_AgentSpecs := true;
        Scheduler.pc_Factories := true; Scheduler.pc_Interval := b_ProbeInterval b;
        Scheduler.pc_Workers := b_ProbeWorkers b; Scheduler.pc_Timeout := b_ProbeTimeout b;
        Scheduler.pc_InstallTimeout := b_InstallTimeout b |} with
      | Err e => Err (Manager.wrap opBuild e)
      | Ok scheduler => Ok {| m_agentSpecs := specs; m_infraFactories := factories;
                              m_controller := controller; m_scheduler := scheduler |}
      end
    end.

(** [Build] and the builder it leaves; [None] is a nil builder. *)
Definition Build (b : option Builder) : result manager * option Builder :=
  match b with
  | None => (Err (Errorf (opBuild +:+ ": nil builder")), None)
  | Some b =>
    if b_built b then (Err (Errorf_w (opBuild +:+ ": ") errBuilderConsumed ""), Some b)
    else (wire (consume b), Some (consume b))
  end.
End build.
End factories.
Arguments Builder : clear implicits.
Arguments manager : clear implicits.
End Registration.
