(* ===== verification/RegistrationSpec.v ===== *)
(** * What registration and wiring guarantee

    Which values a protocol descriptor may carry, what a spec set holds after any
    sequence of registrations, what [Build] wires, and that generated identifiers
    are as unique as the random bytes they encode. *)

From S2P Require Import Prelude GoString GoError GoValue GoPath WorkspaceTypes PluginTypes ManagerTypes.
From S2P Require Import WorkspaceWorld Install Controller Scheduler Manager Registration.
From Stdlib Require Import Ascii.
From stdpp Require Import options.

Module RegistrationSpec.
Import Registration.

(** ** JSON-compatible values *)

Inductive json_value : any → Prop :=
| json_nil : json_value ANil
| json_bool b : json_value (ABool b)
| json_string s : json_value (AString s)
| json_int k n : json_value (AInt k n)
| json_float32 bits : nonfinite32 bits = false → json_value (AFloat32 bits)
| json_float64 bits : nonfinite64 bits = false → json_value (AFloat64 bits)
| json_slice l : Forall json_value (default [] l) → json_value (ASlice l)
| json_map m : (∀ k v, gm_get m k = Some v → k ≠ "" ∧ json_value v) → json_value (AMap m).

Definition descriptor_ok (desc : ProtocolDescriptor) : Prop :=
  (pd_Kind desc = ProtocolKindCLI ∨ pd_Kind desc = ProtocolKindREST ∨ pd_Kind desc = ProtocolKindSocket) ∧
  ∀ k v, gm_get (pd_Detail desc) k = Some v → k ≠ "" ∧ json_value v.

Definition is_nil {A} (r : result A) : Prop := is_ok r = true.

Section json.
Context {HR : MapRange}.
Set Default Proof Using "Type*".

Lemma elems_iff f idx l : is_nil (validate_elems f idx l) ↔ Forall (λ v, is_nil (f v)) l.
Proof.
  unfold is_nil. revert idx. induction l as [|v l IH]; intros idx; cbn; [by split|].
  rewrite Forall_cons. destruct (f v); cbn; [rewrite IH; tauto|]. split; [done|]. by intros [].
Qed.

Lemma members_iff f l :
  is_nil (validate_members f l) ↔ Forall (λ kv, kv.1 ≠ "" ∧ is_nil (f kv.2)) l.
Proof.
  unfold is_nil. induction l as [|[k v] l IH]; cbn; [by split|].
  rewrite Forall_cons. cbn. case_decide; cbn; [split; [done|]; by intros [[] _]|].
  destruct (f v); cbn; [rewrite IH; tauto|]. split; [done|]. by intros [[] _].
Qed.

Lemma json_slice_inv l : json_value (ASlice l) ↔ Forall json_value (default [] l).
Proof. split; [by inversion 1|apply json_slice]. Qed.

Lemma json_map_inv m : json_value (AMap m) ↔ ∀ k v, gm_get m k = Some v → k ≠ "" ∧ json_value v.
Proof. split; [by inversion 1|apply json_map]. Qed.

Lemma depth_in_slice l v : v ∈ default [] l → any_depth v < any_depth (ASlice l).
Proof. destruct l as [l|]; [apply any_depth_slice|by intros ?%not_elem_of_nil]. Qed.

Lemma depth_in_map m k v : gm_get m k = Some v → any_depth v < any_depth (AMap m).
Proof. destruct m as [g|]; [apply any_depth_map|done]. Qed.

(** Any fuel above the depth decides the same. *)
Lemma validate_json_iff fuel v : any_depth v < fuel → is_nil (validate_json fuel v) ↔ json_value v.
Proof.
  revert v. induction fuel as [|fuel IH]; intros v Hd; [lia|].
  destruct v as [|b|s|k n|bits|bits|m|l|t i]; cbn [validate_json];
    try (split; [intros _; by constructor|done]).
  - destruct (nonfinite32 bits) eqn:E; [|split; [intros _; by constructor|done]].
    split; [done|]. inversion 1; congruence.
  - destruct (nonfinite64 bits) eqn:E; [|split; [intros _; by constructor|done]].
    split; [done|]. inversion 1; congruence.
  - rewrite members_iff, Forall_forall, json_map_inv. split.
    + intros Hm k v Hk. destruct (Hm (k, v)) as [? Hv]; [by apply elem_of_range|]. split; [done|].
      apply IH; [|done]. pose proof (depth_in_map _ _ _ Hk). lia.
    + intros Hm [k v] Hk%elem_of_range. destruct (Hm k v Hk) as [? Hv]. split; [done|].
      cbn [snd]. apply IH; [|done]. pose proof (depth_in_map _ _ _ Hk). lia.
  - rewrite elems_iff, !Forall_forall, json_slice_inv, Forall_forall. split; intros Hs v Hv; specialize (Hs v Hv);
      apply depth_in_slice in Hv; revert Hs; apply IH; lia.
  - split; [done|]. by inversion 1.
Qed.

Lemma detail_iff l :
  is_nil (validate_detail l) ↔ Forall (λ kv, kv.1 ≠ "" ∧ json_value kv.2) l.
Proof.
  induction l as [|[k v] l IH]; [by split|]. cbn [validate_detail]. rewrite Forall_cons. cbn [fst snd].
  assert (is_nil (validateJSONCompatibleValue v) ↔ json_value v) as Hj by (apply validate_json_iff; lia).
  rewrite <-IH, <-Hj. unfold is_nil. case_decide; [split; [done|]; by intros [[] _]|].
  destruct (validateJSONCompatibleValue v); cbn; [tauto|]. split; [done|]. by intros [[] _].
Qed.

Lemma descriptor_iff desc : is_nil (ValidateProtocolDescriptor desc) ↔ descriptor_ok desc.
Proof.
  unfold ValidateProtocolDescriptor, descriptor_ok. case_decide as Hne.
  { split; [done|]. rewrite Hne. by intros [[|[|]] _]. }
  case_decide as Hk; [|split; [done|]; tauto].
  rewrite detail_iff, Forall_forall. split.
  - intros Hd. split; [done|]. intros k v Hkv. apply (Hd (k, v)). by apply elem_of_range.
  - intros [_ Hd] [k v] Hkv%elem_of_range. by apply Hd.
Qed.
End json.

(** In whatever order the maps are ranged over, a protocol descriptor is
    accepted exactly when its kind is one of the three and every detail, at any
    nesting depth, is a nil, boolean, string, integer, finite float, slice or map,
    with no empty key anywhere. *)
Theorem validate_descriptor_iff (R : MapRange) (desc : ProtocolDescriptor) :
  is_nil (ValidateProtocolDescriptor desc) ↔ descriptor_ok desc.
Proof. apply descriptor_iff. Qed.

(** ** The spec set *)

(** What [Register] requires of a spec besides a free type. *)
Definition registrable (spec : AgentSpec) : Prop :=
  agentTypePattern (as_Type spec) = true ∧ as_DisplayName spec ≠ "" ∧ as_PluginLayout spec = true ∧
  descriptor_ok (as_ProtocolDescriptor spec).

Section specset.
Context {HR : MapRange}.
Set Default Proof Using "Type*".

Lemma register_cases spec s :
  (∃ e, SpecSet_Register (Some spec) s = (Err e, s) ∧ (¬ registrable spec ∨ is_Some (s !! as_Type spec))) ∨
  (registrable spec ∧ s !! as_Type spec = None ∧
   SpecSet_Register (Some spec) s = (Ok (), <[as_Type spec := spec]> s)).
Proof.
  unfold SpecSet_Register, registrable, ValidateAgentType.
  destruct (agentTypePattern (as_Type spec)); [|left; eexists; split; [done|left; by intros []]].
  case_decide as Hn; [left; eexists; split; [done|left; tauto]|].
  destruct (as_PluginLayout spec); cbn [negb]; [|left; eexists; split; [done|left; by intros (_ & _ & ? & _)]].
  pose proof (descriptor_iff (as_ProtocolDescriptor spec)) as Hd. unfold is_nil in Hd.
  destruct (ValidateProtocolDescriptor _) as [[]|e]; cbn in Hd.
  - destruct (s !! as_Type spec) eqn:Hs; [left; eexists; split; [done|by right]|right].
    split_and!; try done. by apply Hd.
  - left. eexists. split; [done|]. left. intros (_ & _ & _ & Hx). by apply Hd in Hx.
Qed.

(** The set after a sequence of registrations whose errors are ignored. *)
Definition registrations (l : list (option AgentSpec)) : SpecSet :=
  fold_left (λ s spec, (SpecSet_Register spec s).2) l NewSpecSet.

Definition first_registrable (l : list (option AgentSpec)) (t : AgentType) (spec : AgentSpec) : Prop :=
  ∃ l1 l2, l = l1 ++ Some spec :: l2 ∧ as_Type spec = t ∧ registrable spec ∧
    ∀ spec', Some spec' ∈ l1 → as_Type spec' = t → ¬ registrable spec'.

Lemma first_extend l o t spec : first_registrable l t spec → first_registrable (l ++ [o]) t spec.
Proof. intros (l1 & l2 & -> & ? & ? & ?). exists l1, (l2 ++ [o]). by rewrite <-app_assoc. Qed.

Lemma first_last l o t spec :
  first_registrable (l ++ [o]) t spec ↔
  first_registrable l t spec ∨
  (o = Some spec ∧ as_Type spec = t ∧ registrable spec ∧
   ∀ spec', Some spec' ∈ l → as_Type spec' = t → ¬ registrable spec').
Proof.
  split; [|intros [?|(-> & ? & ? & ?)]; [by apply first_extend|by exists l, []]].
  intros (l1 & l2 & E & Ht & Hr & Hb). destruct l2 as [|x l2 _] using rev_ind.
  - right. apply app_inj_tail in E as [-> ->]. by split_and!.
  - left. rewrite app_comm_cons, app_assoc in E. apply app_inj_tail in E as [-> _]. by exists l1, l2.
Qed.

Lemma registrations_snoc l o :
  registrations (l ++ [o]) = (SpecSet_Register o (registrations l)).2.
Proof. unfold registrations. by rewrite fold_left_app. Qed.

Lemma registered_some l spec :
  Some spec ∈ l → registrable spec → is_Some (registrations l !! as_Type spec).
Proof.
  induction l as [|o l IH] using rev_ind; [by intros ?%not_elem_of_nil|].
  rewrite registrations_snoc. intros [Hin|Hin%list_elem_of_singleton]%elem_of_app Hr.
  - destruct o as [sp|]; [|by apply IH].
    destruct (register_cases sp (registrations l)) as [(e & -> & _)|(_ & _ & ->)]; cbn; [by apply IH|].
    rewrite lookup_insert. case_decide; [by eexists|by apply IH].
  - subst o. destruct (register_cases spec (registrations l)) as [(e & -> & [?|?])|(_ & _ & ->)]; cbn; [done..|].
    rewrite lookup_insert_eq. by eexists.
Qed.

Lemma registrations_get l t spec : registrations l !! t = Some spec ↔ first_registrable l t spec.
Proof.
  revert t spec. induction l as [|o l IH] using rev_ind; intros t spec.
  { unfold registrations, NewSpecSet. cbn [fold_left]. rewrite lookup_empty. split; [done|]. intros (l1 & l2 & E & _). by destruct l1. }
  rewrite registrations_snoc, first_last, <-IH.
  destruct o as [sp|]; [|split; [by left|by intros [?|[? _]]]].
  destruct (register_cases sp (registrations l)) as [(e & -> & Hbad)|(Hreg & Hnone & ->)]; cbn [snd].
  - split; [by left|]. intros [?|([= ->] & Ht & Hr & Hb)]; [done|]. exfalso.
    destruct Hbad as [Hbad|[sp' Hsp']]; [done|]. apply IH in Hsp' as (l1 & l2 & -> & Ht' & Hr' & _).
    apply (Hb sp'); [|congruence|done]. apply elem_of_app. right. by left.
  - rewrite lookup_insert. case_decide as Ht.
    + split; [intros [= ->]; right; split_and!; try done|by intros [?|([= ->] & _)]; [congruence|]].
      intros spec' Hin Ht' Hr'. destruct (registered_some _ _ Hin Hr') as [x Hx]. congruence.
    + split; [by left|]. by intros [?|([= ->] & ? & _)].
Qed.

#[local] Instance string_le_total : Total String.le.
Proof. apply _. Qed.

Lemma types_spec (s : SpecSet) :
  StronglySorted String.le (SpecSet_Types s) ∧ NoDup (SpecSet_Types s) ∧
  length (SpecSet_Types s) = SpecSet_Len s ∧ ∀ t, t ∈ SpecSet_Types s ↔ is_Some (SpecSet_Get t s).
Proof.
  unfold SpecSet_Types, SpecSet_Len, SpecSet_Get. split_and!.
  - apply (StronglySorted_merge_sort String.le).
  - rewrite merge_sort_Permutation. apply NoDup_fst_map_to_list.
  - by rewrite merge_sort_Permutation, length_fmap, length_map_to_list.
  - intros t. rewrite merge_sort_Permutation, list_elem_of_fmap. split.
    + intros ([t' sp] & -> & H%elem_of_map_to_list). by eexists.
    + intros [sp H%elem_of_map_to_list]. by exists (t, sp).
Qed.
End specset.

(** The first valid registration of a type wins: after any sequence of
    registrations, nil and invalid specs included, [Get] of a type returns exactly
    the first spec of that type that satisfied every rule, and [Types] lists exactly
    the types that have one, sorted, each once, [Len] of them. *)
Theorem spec_set_first_wins (R : MapRange) (l : list (option AgentSpec)) :
  let s := registrations l in
  (∀ t spec, SpecSet_Get t s = Some spec ↔ first_registrable l t spec) ∧
  StronglySorted String.le (SpecSet_Types s) ∧ NoDup (SpecSet_Types s) ∧
  length (SpecSet_Types s) = SpecSet_Len s ∧
  ∀ t, t ∈ SpecSet_Types s ↔ ∃ spec, first_registrable l t spec.
Proof.
  intros s. destruct (types_spec s) as (Hs & Hn & Hl & Hi). split; [intros t spec; apply registrations_get|].
  split_and!; [done..|]. intros t. rewrite Hi. unfold is_Some, SpecSet_Get.
  split; intros [spec H]; exists spec; by apply registrations_get.
Qed.

(** ** The builder *)

Section build.
Context {HR : MapRange} {F : Type}.
Set Default Proof Using "Type*".
Implicit Types (b : Builder F) (m : manager F).

(** Keys free after an insertion. *)
Lemma free_after_insert {V W} (key_ : V → string) (l : list V) (s : gmap string W) t w :
  Forall (λ x, <[t := w]> s !! key_ x = None) l ↔ (t ∉ (key_ <$> l)) ∧ Forall (λ x, s !! key_ x = None) l.
Proof.
  rewrite !Forall_forall, list_elem_of_fmap. split.
  - intros Hn. split.
    + intros (x & -> & Hx). specialize (Hn x Hx). by rewrite lookup_insert_eq in Hn.
    + intros x Hx. specialize (Hn x Hx). cbn in Hn. rewrite lookup_insert in Hn. by case_decide.
  - intros [Hni Hn] x Hx. rewrite lookup_insert_ne; [by apply Hn|]. intros ->. apply Hni. by exists x.
Qed.

Lemma inserted_lookup {V W} (key_ : V → string) (val : V → W) (l : list V) (s : gmap string W) t w :
  NoDup (key_ <$> l) → Forall (λ x, s !! key_ x = None) l →
  fold_left (λ s x, <[key_ x := val x]> s) l s !! t = Some w ↔
  s !! t = Some w ∨ ∃ x, x ∈ l ∧ key_ x = t ∧ val x = w.
Proof.
  revert s. induction l as [|x l IH]; intros s Hnd Hn; cbn.
  { split; [by left|]. by intros [?|(x & ?%not_elem_of_nil & _)]. }
  apply NoDup_cons in Hnd as [Hni Hnd]. apply Forall_cons in Hn as [Hx Hn].
  rewrite IH; [|done|by apply free_after_insert]. rewrite lookup_insert. case_decide as Ht.
  - split.
    + intros [[= <-]|(y & ? & ? & ?)]; right; [exists x|exists y]; split_and!; try done; [by left|by right].
    + intros [?|(y & [->|?]%elem_of_cons & Hy & <-)]; [congruence|by left|right; by exists y].
  - split.
    + intros [?|(y & ? & ? & ?)]; [by left|right; exists y]. split_and!; [by right|done|done].
    + intros [?|(y & [->|?]%elem_of_cons & Hy & <-)]; [by left|done|right; by exists y].
Qed.

(** Registering in order succeeds iff everything is valid and no type repeats. *)
Lemma register_specs_iff l s s' :
  register_specs l s = Ok s' ↔
  ∃ specs, l = Some <$> specs ∧ Forall registrable specs ∧ NoDup (as_Type <$> specs) ∧
    Forall (λ spec, s !! as_Type spec = None) specs ∧
    s' = fold_left (λ s spec, <[as_Type spec := spec]> s) specs s.
Proof.
  revert s. induction l as [|o l IH]; intros s; cbn [register_specs].
  { split; [intros [= <-]; exists []; cbn; split_and!; try done; constructor|].
    intros ([|sp specs] & E & _ & _ & _ & ->); done. }
  destruct o as [sp|]; [|split; [done|]; by intros ([|? ?] & [=] & _)].
  destruct (register_cases sp s) as [(e & -> & Hbad)|(Hreg & Hnone & ->)].
  - split; [done|]. intros ([|sp' specs] & E & Hr & _ & Hn & _); [done|]. cbn in E. injection E as <- ->.
    apply Forall_cons in Hr as [Hr _]. apply Forall_cons in Hn as [Hn _].
    destruct Hbad as [?|[? ?]]; [done|congruence].
  - rewrite IH. split.
    + intros (specs & -> & Hr & Hnd & [Hni Hn]%free_after_insert & ->). exists (sp :: specs).
      split_and!; [done|by constructor|by constructor|by constructor|done].
    + intros ([|sp' specs] & E & Hr & Hnd & Hn & ->); [done|]. cbn in E. injection E as <- ->.
      exists specs. apply Forall_cons in Hr as [_ Hr]. apply NoDup_cons in Hnd as [Hni Hnd].
      apply Forall_cons in Hn as [_ Hn]. split_and!; [done..|by apply free_after_insert|done].
Qed.

Lemma register_factories_iff (l : list (InfraType * option F)) s s' :
  register_factories l s = Ok s' ↔
  ∃ fs : list (InfraType * F), l = (λ p, (p.1, Some p.2)) <$> fs ∧ NoDup (fst <$> fs) ∧
    Forall (λ p, s !! p.1 = None) fs ∧ s' = fold_left (λ s p, <[p.1 := p.2]> s) fs s.
Proof.
  revert s. induction l as [|[t o] l IH]; intros s; cbn [register_factories].
  { split; [intros [= <-]; exists []; cbn; split_and!; try done; constructor|].
    intros ([|p fs] & E & _ & _ & ->); done. }
  destruct o as [f|]; [|split; [done|]; by intros ([|? ?] & [=] & _)].
  unfold FactorySet_Register. destruct (s !! t) as [f0|] eqn:Ht.
  - split; [done|]. intros ([|p fs] & E & _ & Hn & _); [done|]. cbn in E. injection E as -> -> ->.
    apply Forall_cons in Hn as [Hn _]. congruence.
  - rewrite IH. split.
    + intros (fs & -> & Hnd & [Hni Hn]%(free_after_insert fst) & ->). exists ((t, f) :: fs).
      split_and!; [done|by constructor|by constructor|done].
    + intros ([|[t' f'] fs] & E & Hnd & Hn & ->); [done|]. cbn in E. injection E as <- <- ->.
      exists fs. cbn in Hnd. apply NoDup_cons in Hnd as [Hni Hnd].
      apply Forall_cons in Hn as [_ Hn]. split_and!; [done..|by apply (free_after_insert fst)|done].
Qed.

(** What [Build] needs. *)
Definition buildable b : Prop :=
  b_built b = false ∧ b_PluginRepository b = true ∧ b_PluginStorage b = true ∧ b_WorkspaceRepository b = true ∧
  (∃ specs, b_agentSpecs b = Some <$> specs ∧ Forall registrable specs ∧ NoDup (as_Type <$> specs)) ∧
  (∃ fs : list (InfraType * F), b_infraFactories b = (λ p, (p.1, Some p.2)) <$> fs ∧ NoDup (fst <$> fs)).

(** What the manager it returns is made of. *)
Definition wired b m : Prop :=
  (∀ t spec, SpecSet_Get t (m_agentSpecs m) = Some spec ↔ Some spec ∈ b_agentSpecs b ∧ as_Type spec = t) ∧
  (∀ t f, FactorySet_Get t (m_infraFactories m) = Some f ↔ (t, Some f) ∈ b_infraFactories b) ∧
  (0 < (m_controller m).2)%Z ∧ (0 < Install.installTimeout (m_controller m).1)%Z ∧
  Install.installTimeout (m_controller m).1 = Scheduler.installTimeout (m_scheduler m) ∧
  Install.probeTimeout (m_controller m).1 = Scheduler.timeout (m_scheduler m) ∧
  (0 < Scheduler.workers (m_scheduler m))%Z ∧ (0 < Scheduler.interval (m_scheduler m))%Z.

Lemma wire_spec b :
  b_built b = false → match wire b with Ok m => buildable b ∧ wired b m | Err _ => ¬ buildable b end.
Proof.
  intros Hb. unfold wire, buildable.
  destruct (b_PluginRepository b); cbn [negb]; [|by intros (_ & ? & _)].
  destruct (b_PluginStorage b); cbn [negb]; [|by intros (_ & _ & ? & _)].
  destruct (b_WorkspaceRepository b); cbn [negb]; [|by intros (_ & _ & _ & ? & _)].
  destruct (register_specs (b_agentSpecs b) NewSpecSet) as [specs|e] eqn:Hs; cbn [mbind res_bind].
  2: { intros (_ & _ & _ & _ & (specs & E & Hr & Hnd) & _).
       assert (∃ s', register_specs (b_agentSpecs b) NewSpecSet = Ok s') as [s' Hs']; [|congruence].
       eexists. apply register_specs_iff. exists specs. split_and!; [done..| |done].
       apply Forall_forall. intros x _. apply lookup_empty. }
  destruct (register_factories (b_infraFactories b) NewFactorySet) as [facs|e] eqn:Hf; cbn [mbind res_bind].
  2: { intros (_ & _ & _ & _ & _ & (fs & E & Hnd)).
       assert (∃ s', register_factories (b_infraFactories b) NewFactorySet = Ok s') as [s' Hs']; [|congruence].
       eexists. apply register_factories_iff. exists fs. split_and!; [done..| |done].
       apply Forall_forall. intros x _. apply lookup_empty. }
  apply register_specs_iff in Hs as (sl & Esl & Hr & Hnd & Hn & ->).
  apply register_factories_iff in Hf as (fl & Efl & Hndf & Hnf & ->).
  unfold Controller.NewControllerSettings, Scheduler.NewProbeScheduler.
  cbn [negb Controller.cc_Repo Controller.cc_PluginStorage Controller.cc_AgentSpecs Controller.cc_Factories
       Scheduler.pc_Repo Scheduler.pc_AgentSpecs Scheduler.pc_Factories].
  split; [split_and!; eauto|]. unfold wired, SpecSet_Get, FactorySet_Get. cbn.
  split; [|split].
  - intros t spec. rewrite (inserted_lookup as_Type id) by done. unfold NewSpecSet. rewrite lookup_empty, Esl.
    rewrite list_elem_of_fmap. split.
    + intros [?|(x & ? & ? & <-)]; [done|]. eauto.
    + intros [(x & [= <-] & ?) ?]. right. eauto.
  - intros t f. rewrite (inserted_lookup fst snd) by done. unfold NewFactorySet. rewrite lookup_empty, Efl.
    rewrite list_elem_of_fmap. split.
    + intros [?|([t' f'] & ? & <- & <-)]; [done|]. by eexists.
    + intros ([t' f'] & [= -> ->] & ?). right. by eexists.
  - unfold Controller.or_default, Controller.defaultInstallTimeout, Controller.defaultInstallWorkers,
      Controller.defaultProbeConfirmTimeout, Scheduler.defaultInstallTimeout, Scheduler.defaultProbeInterval,
      Scheduler.defaultProbeWorkers, Scheduler.defaultProbeTimeout, minute, second.
    split_and!; repeat case_decide; try done; lia.
Qed.

Lemma consumed_build b : b_built b = true → Build (Some b) = (Err (Errorf_w (opBuild +:+ ": ") errBuilderConsumed ""), Some b).
Proof. intros Hb. unfold Build. by rewrite Hb. Qed.
End build.

(** [Build] succeeds exactly for an unused builder with its three backends, only
    valid agent specs with distinct types, and only non-nil factories with distinct
    types; the manager then knows exactly these specs and factories, controller and
    scheduler share the install and probe timeouts, and every worker count, interval
    and timeout is positive. Whatever the outcome, the builder cannot be used again. *)
Theorem build_wires (R : MapRange) (F : Type) (b : Builder F) :
  match (Build (Some b)).1 with
  | Ok m => buildable b ∧ wired b m
  | Err _ => ¬ buildable b
  end ∧
  ∃ b', (Build (Some b)).2 = Some b' ∧
    Build (Some b') = (Err (Errorf_w (opBuild +:+ ": ") errBuilderConsumed ""), Some b').
Proof.
  destruct (b_built b) eqn:Hb.
  - rewrite (consumed_build b Hb). split; [intros [? _]; congruence|]. exists b. split; [done|].
    by apply consumed_build.
  - unfold Build at 1 2. rewrite Hb. split; [exact (wire_spec b Hb)|]. exists (consume b). split; [done|].
    by apply consumed_build.
Qed.

(** ** Generated identifiers *)

Module Ids.

Lemma byte_value c : bits_value (byte_bits (nat_of_ascii c) 8) = nat_of_ascii c.
Proof.
  assert (forallb (λ n, bool_decide (bits_value (byte_bits n 8) = n)) (seq 0 256) = true) as H
    by (vm_compute; reflexivity).
  rewrite forallb_forall in H. eapply bool_decide_eq_true_1, H, in_seq.
  pose proof (nat_ascii_bounded c). lia.
Qed.

Lemma bits_value_snoc b x : bits_value (b ++ [x]) = 2 * bits_value b + (if x then 1 else 0).
Proof. unfold bits_value. by rewrite fold_left_app. Qed.

Lemma bits_value_inj b1 b2 : length b1 = length b2 → bits_value b1 = bits_value b2 → b1 = b2.
Proof.
  revert b2. induction b1 as [|x b1 IH] using rev_ind; intros b2.
  - by destruct b2.
  - destruct b2 as [|y b2 _] using rev_ind; rewrite ?length_app; cbn; [lia|].
    rewrite !bits_value_snoc. intros Hl Hv.
    assert (x = y) as <- by (destruct x, y; (done || lia)). f_equal. apply IH; [lia|]. destruct x; lia.
Qed.

Lemma bits_value_bound b : bits_value b < 2 ^ length b.
Proof.
  induction b as [|x b IH] using rev_ind; [cbn; lia|].
  rewrite bits_value_snoc, length_app. replace (length b + length [x]) with (S (length b)) by (cbn; lia).
  rewrite Nat.pow_succ_r'. destruct x; lia.
Qed.

Lemma digit_spec d : d < 32 →
  (is_lower (base32_digit d) || in_range "2" "7" (base32_digit d)) = true ∧
  nat_of_ascii (base32_digit d) = if decide (d < 26) then 97 + d else 24 + d.
Proof.
  intros Hd. assert (forallb (λ d, (is_lower (base32_digit d) || in_range "2" "7" (base32_digit d)) &&
    bool_decide (nat_of_ascii (base32_digit d) = if decide (d < 26) then 97 + d else 24 + d)) (seq 0 32) = true) as H
    by (vm_compute; reflexivity).
  rewrite forallb_forall in H. specialize (H d). rewrite andb_true_iff, bool_decide_eq_true in H.
  apply H, in_seq. lia.
Qed.

Lemma digit_inj d1 d2 : d1 < 32 → d2 < 32 → base32_digit d1 = base32_digit d2 → d1 = d2.
Proof.
  intros H1 H2 E. destruct (digit_spec d1 H1) as [_ E1], (digit_spec d2 H2) as [_ E2].
  rewrite E, E2 in E1. repeat case_decide; lia.
Qed.

(** The five bits of a group. *)
Definition group (b : list bool) : list bool := take 5 (b ++ replicate 4 false).

Lemma group_length x b : length (group (x :: b)) = 5.
Proof. unfold group. rewrite length_take, length_app, length_replicate. cbn [length]. lia. Qed.

Lemma group_prefix b : take 5 b = take (length b) (group b).
Proof.
  unfold group. rewrite take_take. destruct (decide (length b ≤ 5)).
  - rewrite Nat.min_l, take_app_length by lia. by rewrite take_ge by lia.
  - by rewrite Nat.min_r, take_app_le by lia.
Qed.

Lemma groups_inj fuel b1 b2 :
  length b1 = length b2 → length b1 ≤ fuel → base32_groups fuel b1 = base32_groups fuel b2 → b1 = b2.
Proof.
  revert b1 b2. induction fuel as [|fuel IH]; intros [|x b1] [|y b2] Hl Hf; cbn in Hl, Hf; try done; try lia.
  intros [= Hd Hrest]. rewrite <-(take_drop 5 (x :: b1)), <-(take_drop 5 (y :: b2)).
  pose proof (group_length x b1) as L1. pose proof (group_length y b2) as L2.
  f_equal.
  - rewrite !group_prefix. f_equal; [cbn; lia|].
    apply bits_value_inj; [congruence|]. apply digit_inj; [| |exact Hd].
    + pose proof (bits_value_bound (group (x :: b1))) as B. rewrite L1 in B. exact B.
    + pose proof (bits_value_bound (group (y :: b2))) as B. rewrite L2 in B. exact B.
  - apply IH; [rewrite !length_drop; cbn; lia|rewrite length_drop; cbn; lia|exact Hrest].
Qed.

Lemma groups_format fuel b :
  length b ≤ fuel →
  String.length (base32_groups fuel b) = (length b + 4) / 5 ∧
  all_chars (λ c, is_lower c || in_range "2" "7" c) (base32_groups fuel b) = true.
Proof.
  revert b. induction fuel as [|fuel IH]; intros [|x b] Hf; cbn in Hf; try (by split); try lia.
  cbn [base32_groups]. destruct (IH (drop 5 (x :: b))) as [Hl Hc]; [rewrite length_drop; cbn; lia|].
  split.
  - cbn [String.length]. rewrite Hl, length_drop. cbn [length].
    destruct (decide (S (length b) ≤ 5)).
    + replace (S (length b) - 5 + 4) with 4 by lia. change (4 / 5) with 0.
      apply (Nat.div_unique _ _ _ (S (length b) + 4 - 5)); lia.
    + replace (S (length b) + 4) with (S (length b) - 5 + 4 + 1 * 5) by lia. rewrite Nat.div_add by lia. lia.
  - cbn [all_chars]. rewrite Hc, andb_true_r. apply digit_spec.
    pose proof (bits_value_bound (group (x :: b))) as B. rewrite group_length in B. exact B.
Qed.

Lemma byte_bits_length n k : length (byte_bits n k) = k.
Proof. induction k as [|k IH]; [done|]. cbn. by rewrite IH. Qed.

Lemma bits_of_cons c s : bits_of (String c s) = byte_bits (nat_of_ascii c) 8 ++ bits_of s.
Proof. done. Qed.

Lemma bits_of_length s : length (bits_of s) = 8 * String.length s.
Proof.
  induction s as [|c s IH]; [done|]. rewrite bits_of_cons, length_app, byte_bits_length, IH.
  cbn [String.length]. lia.
Qed.

Lemma bits_of_inj s1 s2 : bits_of s1 = bits_of s2 → s1 = s2.
Proof.
  revert s2. induction s1 as [|c s1 IH]; intros [|d s2]; try done.
  rewrite !bits_of_cons. intros [Hc Hs]%app_inj_1; [|by rewrite !byte_bits_length].
  f_equal; [|by apply IH]. apply (f_equal bits_value) in Hc. rewrite !byte_value in Hc.
  by rewrite <-(ascii_nat_embedding c), Hc, ascii_nat_embedding.
Qed.

Lemma base32_inj s1 s2 :
  String.length s1 = String.length s2 → base32_lower s1 = base32_lower s2 → s1 = s2.
Proof.
  unfold base32_lower. intros Hl E. apply bits_of_inj.
  assert (length (bits_of s1) = length (bits_of s2)) as Hb by (rewrite !bits_of_length; lia).
  rewrite <-Hb in E. by apply groups_inj in E.
Qed.

(** Generated identifiers are as unique as the 16 random bytes they encode: equal
    identifiers come from equal bytes, plugin and workspace identifiers never
    coincide, and after the prefix there are always 26 characters from [a-z2-7]. *)
Theorem generated_ids_unique (e1 e2 : string) :
  String.length e1 = idEntropyBytes → String.length e2 = idEntropyBytes →
  (PluginIDOf e1 = PluginIDOf e2 → e1 = e2) ∧ (WorkspaceIDOf e1 = WorkspaceIDOf e2 → e1 = e2) ∧
  PluginIDOf e1 ≠ WorkspaceIDOf e2 ∧
  matches_class (λ c, is_lower c || in_range "2" "7" c) 26 26 (base32_lower e1) = true.
Proof.
  intros H1 H2. unfold PluginIDOf, WorkspaceIDOf. split_and!.
  - intros E%(inj _). apply base32_inj; [congruence|done].
  - intros E%(inj _). apply base32_inj; [congruence|done].
  - done.
  - unfold matches_class, base32_lower.
    destruct (groups_format (length (bits_of e1)) (bits_of e1)) as [Hl ->]; [done|].
    rewrite Hl, bits_of_length, H1. done.
Qed.

Definition entropy (c : ascii) : string := String.string_of_list_ascii (replicate 16 c).

Lemma generated_ids_unique_witness :
  PluginIDOf (entropy "a") ≠ WorkspaceIDOf (entropy "b") ∧
  matches_class (λ c, is_lower c || in_range "2" "7" c) 26 26 (base32_lower (entropy "a")) = true.
Proof. apply (generated_ids_unique (entropy "a") (entropy "b")); reflexivity. Defined.
End Ids.
End RegistrationSpec.
