(* ===== verification/Directive.v ===== *)
(** * Route directives (pkg/orchestrator/protocol/protocol.go)

    The explicit directive [{to #alias}] that may open a message: [Format] renders
    it, [ParseDirective] looks for it in the first line that is not blank. The
    source matches one anchored pattern whose classes do not overlap with what
    follows them, so the greedy match is the only one; [match_directive] runs it from
    left to right and [match_directive_iff] ties it to the pattern read as a grammar. *)

From S2P Require Import Prelude GoString GoError GoPath.
From Stdlib Require Import Ascii.
From stdpp Require Import options.

Module Directive.

Record RouteDirective := {
  TargetAlias : string;
  Payload : string;
  IsExplicit : bool;
  RawHeader : string;
}.

Definition ErrInvalidRouteDirective : error := ENew "invalid route directive".

Definition CR : ascii := "013".
Definition LF : ascii := "010".

(** ** Scanning *)

(** [\s] of the pattern: tab, line feed, form feed, carriage return, space. *)
Definition is_re_space (c : ascii) : bool :=
  bool_decide (c ∈ ["009"; "010"; "012"; "013"; "032"]%char).

(** The cut set of [strings.TrimLeft]. *)
Definition is_blank (c : ascii) : bool := bool_decide (c ∈ ["032"; "009"; "012"]%char).

Definition is_alias_char (c : ascii) : bool :=
  is_upper c || is_lower c || is_digit c || is_underscore c || is_dash c.

(** The longest prefix of bytes in [p], and the rest. *)
Fixpoint span (p : ascii → bool) (s : string) : string * string :=
  match s with
  | String c s' => if p c then let '(a, b) := span p s' in (String c a, b) else ("", s)
  | EmptyString => ("", "")
  end.

Fixpoint strip_prefix (pre s : string) : option string :=
  match pre, s with
  | EmptyString, _ => Some s
  | String c pre', String d s' => if decide (c = d) then strip_prefix pre' s' else None
  | String _ _, EmptyString => None
  end.

(** [strings.ReplaceAll] for a non-empty [old]; [skip] bytes of a match remain. *)
Fixpoint replace_go (old new : string) (skip : nat) (s : string) : string :=
  match s, skip with
  | EmptyString, _ => ""
  | String _ s', S skip' => replace_go old new skip' s'
  | String c s', 0 =>
    if strings_HasPrefix s old
    then new +:+ replace_go old new (pred (String.length old)) s'
    else String c (replace_go old new 0 s')
  end.

Definition strings_ReplaceAll (s old new : string) : string := replace_go old new 0 s.

(** A letter's lower case. Bytes outside ASCII stay as they are: the result is only
    compared with ASCII text, which no letter outside ASCII is lowered to but [k] and
    [i], and these are not asked for. *)
Definition to_lower (c : ascii) : ascii :=
  if is_upper c then ascii_of_nat (nat_of_ascii c + 32) else c.

Fixpoint strings_ToLower (s : string) : string :=
  match s with
  | EmptyString => ""
  | String c s' => String (to_lower c) (strings_ToLower s')
  end.

(** ** The operations *)

(** The pattern on one line: white space, [{to], at least one white space, [#], a
    group of 1 to 64 alias bytes, a closing brace, white space, a group with the rest. *)
Definition match_directive (line : string) : option (string * string) :=
  s ← strip_prefix "{to" (span is_re_space line).2;
  let '(gap, s) := span is_re_space s in
  if decide (gap = "") then None else
  s ← strip_prefix "#" s;
  let '(alias, s) := span is_alias_char s in
  if decide (1 ≤ String.length alias ≤ 64) then
    s ← strip_prefix "}" s;
    Some (alias, (span is_re_space s).2)
  else None.

Definition Format (alias : string) : string := "{to #" +:+ alias +:+ "}".

Definition ExampleHeader (alias : string) : string := Format alias.

Definition normalizeLineEndings (body : string) : string :=
  let body := strings_ReplaceAll body (String CR (String LF "")) (String LF "") in
  strings_ReplaceAll body (String CR "") (String LF "").

(** [None] is the index -1. *)
Fixpoint firstNonEmptyLineIndex (lines : list string) : option nat :=
  match lines with
  | [] => None
  | line :: lines' =>
    if decide (strings_TrimSpace line ≠ "") then Some 0 else S <$> firstNonEmptyLineIndex lines'
  end.

Definition appearsLikeDirective (line : string) : bool :=
  let trimmed := (span is_blank line).2 in
  let lower := strings_ToLower trimmed in
  match strip_prefix "{to" lower with
  | None => false
  | Some EmptyString => true
  | Some (String c _) => bool_decide (c ∈ ["032"; "009"; "012"; "#"; "}"]%char)
  end.

(** The payload: what follows the header on its line, then the lines below. *)
Definition join_payload (rest : string) (payloadLines : list string) : string :=
  match payloadLines with
  | [] => rest
  | _ => if decide (rest = "") then strings_Join payloadLines (String LF "")
         else rest +:+ String LF (strings_Join payloadLines (String LF ""))
  end.

Definition plain (body : string) : RouteDirective :=
  {| TargetAlias := ""; Payload := body; IsExplicit := false; RawHeader := "" |}.

Definition ParseDirective (body : string) : result RouteDirective :=
  let lines := strings_Split LF (normalizeLineEndings body) in
  match firstNonEmptyLineIndex lines with
  | None => Ok (plain body)
  | Some idx =>
    let header := default "" (lines !! idx) in
    match match_directive header with
    | Some (alias, rest) =>
      Ok {| TargetAlias := alias; Payload := join_payload rest (drop (S idx) lines);
            IsExplicit := true; RawHeader := header |}
    | None =>
      if appearsLikeDirective header
      then Err (Errorf_w "parse directive: " ErrInvalidRouteDirective "")
      else Ok (plain body)
    end
  end.

Example parse_ex1 :
  ParseDirective (String CR (String LF "  {to  #team-1}hello")) =
  Ok {| TargetAlias := "team-1"; Payload := "hello"; IsExplicit := true;
        RawHeader := "  {to  #team-1}hello" |}.
Proof. reflexivity. Qed.

Example parse_ex2 :
  ParseDirective "{TO #x} y" = Err (Errorf_w "parse directive: " ErrInvalidRouteDirective "") ∧
  ParseDirective "{today} y" = Ok (plain "{today} y").
Proof. split; reflexivity. Qed.
End Directive.

(** ** The pattern as a grammar *)

Module DirectiveSpec.
Import Directive.

Definition starts_with (p : ascii → bool) (s : string) : bool :=
  match s with String c _ => p c | EmptyString => false end.

Definition alias_ok (alias : string) : bool := matches_class is_alias_char 1 64 alias.

(** A line of the pattern's language with its two groups; the white space before the
    second group is as long as it can be. *)
Inductive directive_line : string → string → string → Prop :=
| DirectiveLine (lead gap alias trail rest : string) :
    all_chars is_re_space lead = true →
    all_chars is_re_space gap = true → gap ≠ "" →
    alias_ok alias = true →
    all_chars is_re_space trail = true →
    starts_with is_re_space rest = false →
    directive_line (lead +:+ "{to" +:+ gap +:+ "#" +:+ alias +:+ "}" +:+ trail +:+ rest) alias rest.

(** [span] takes exactly the bytes of the class. *)
Lemma span_app p a s :
  all_chars p a = true → starts_with p s = false → span p (a +:+ s) = (a, s).
Proof.
  intros Ha Hs. induction a as [|c a IH].
  - rewrite append_nil_l. destruct s as [|c s]; [done|]. simpl in *. by rewrite Hs.
  - simpl in Ha. apply andb_true_iff in Ha as [Hc Ha]. rewrite append_cons. simpl.
    by rewrite Hc, IH.
Qed.

Lemma span_spec p s a b :
  span p s = (a, b) → s = a +:+ b ∧ all_chars p a = true ∧ starts_with p b = false.
Proof.
  revert a b. induction s as [|c s IH]; intros a b; simpl; [by intros [= <- <-]|].
  destruct (p c) eqn:Hc; [|by intros [= <- <-]; simpl; rewrite Hc].
  destruct (span p s) as [a' b'] eqn:E. intros [= <- <-].
  destruct (IH _ _ eq_refl) as (-> & Ha & Hb). split; [done|]. simpl. by rewrite Hc.
Qed.

Lemma strip_prefix_spec pre s t : strip_prefix pre s = Some t ↔ s = pre +:+ t.
Proof.
  revert s. induction pre as [|c pre IH]; intros s; simpl.
  - rewrite append_nil_l. split; congruence.
  - rewrite append_cons. destruct s as [|d s]; [done|].
    case_decide as Hd; [subst; rewrite IH; split; congruence|]. split; congruence.
Qed.

Lemma strip_prefix_app pre t : strip_prefix pre (pre +:+ t) = Some t.
Proof. by apply strip_prefix_spec. Qed.

(** A blank text is made of the bytes of white space runes. *)

Lemma all_chars_app p a b : all_chars p (a +:+ b) = all_chars p a && all_chars p b.
Proof.
  induction a as [|c a IH]; [done|]. rewrite append_cons. simpl. by rewrite IH, andb_assoc.
Qed.

Lemma has_byte_all c s : has_byte c s = negb (all_chars (λ d, bool_decide (d ≠ c)) s).
Proof.
  induction s as [|d s IH]; [done|]. simpl. rewrite IH.
  repeat case_bool_decide; try done; congruence.
Qed.

Lemma string_drop_app r s : string_drop (String.length r) (r +:+ s) = s.
Proof. induction r as [|c r IH]; [by destruct s|]. rewrite append_cons. simpl. done. Qed.

Lemma trim_left_all p runes fuel s :
  Forall (λ r, all_chars p r = true) runes →
  all_chars p (trim_left_fuel runes fuel s) = true → all_chars p s = true.
Proof.
  intros Hr. revert s. induction fuel as [|fuel IH]; intros s; simpl; [done|].
  unfold leading_space. destruct (filter _ runes) as [|r l] eqn:E; simpl; [done|].
  assert (r ∈ filter (λ r, String.prefix r s = true) runes) as [[t ->]%prefix_spec Hin]%list_elem_of_filter
    by (rewrite E; constructor).
  rewrite string_drop_app. intros H%IH. rewrite all_chars_app, H.
  by rewrite (proj1 (Forall_forall _ _) Hr r Hin).
Qed.

Lemma TrimSpace_blank p s :
  Forall (λ r, all_chars p r = true) space_runes → strings_TrimSpace s = "" → all_chars p s = true.
Proof.
  intros Hr H. unfold strings_TrimSpace, strings_TrimRightSpace in H.
  apply (trim_left_all p space_runes (String.length s)); [done|].
  change (all_chars p (strings_TrimLeftSpace s) = true). rewrite <-all_chars_rev.
  eapply (trim_left_all p (String.rev <$> space_runes)).
  - apply Forall_fmap. eapply Forall_impl; [exact Hr|]. intros r Hp. simpl. by rewrite all_chars_rev.
  - rewrite <-all_chars_rev. unfold compose. by rewrite H.
Qed.

(** The header line of a rendered directive is not blank. *)
Lemma brace_not_blank a b : strings_TrimSpace (a +:+ String "{" b) ≠ "".
Proof.
  intros H. apply (TrimSpace_blank (λ d, bool_decide (d ≠ "{"%char))) in H.
  - by rewrite all_chars_app, andb_comm in H.
  - by apply (bool_decide_unpack _).
Qed.

Lemma match_directive_complete line alias rest :
  directive_line line alias rest → match_directive line = Some (alias, rest).
Proof.
  intros [lead gap al trail rst Hlead Hgap Hne Hal Htrail Hrest].
  unfold alias_ok, matches_class in Hal.
  apply andb_true_iff in Hal as [Hal Hlen%bool_decide_eq_true]. unfold match_directive.
  rewrite span_app by done. cbn [snd]. rewrite strip_prefix_app. cbn [mbind option_bind].
  rewrite span_app by done. rewrite decide_False by done.
  rewrite strip_prefix_app. cbn [mbind option_bind].
  rewrite span_app by done. rewrite decide_True by done.
  rewrite strip_prefix_app. cbn [mbind option_bind]. by rewrite span_app.
Qed.

Lemma match_directive_sound line alias rest :
  match_directive line = Some (alias, rest) → directive_line line alias rest.
Proof.
  unfold match_directive. destruct (span is_re_space line) as [lead s0] eqn:E0.
  apply span_spec in E0 as (-> & Hlead & _). cbn [snd].
  destruct (strip_prefix "{to" s0) as [s1|] eqn:E1; [|done]. apply strip_prefix_spec in E1 as ->.
  cbn [mbind option_bind]. destruct (span is_re_space s1) as [gap s2] eqn:E2.
  apply span_spec in E2 as (-> & Hgap & _). case_decide as Hne; [done|].
  destruct (strip_prefix "#" s2) as [s3|] eqn:E3; [|done]. apply strip_prefix_spec in E3 as ->.
  cbn [mbind option_bind]. destruct (span is_alias_char s3) as [al s4] eqn:E4.
  apply span_spec in E4 as (-> & Hal & _). case_decide as Hlen; [|done].
  destruct (strip_prefix "}" s4) as [s5|] eqn:E5; [|done]. apply strip_prefix_spec in E5 as ->.
  cbn [mbind option_bind]. destruct (span is_re_space s5) as [trail rst] eqn:E6.
  apply span_spec in E6 as (-> & Htrail & Hrst). cbn [snd]. intros [= <- <-].
  constructor; try done. unfold alias_ok, matches_class. by rewrite Hal, bool_decide_true.
Qed.

Lemma match_directive_iff line alias rest :
  match_directive line = Some (alias, rest) ↔ directive_line line alias rest.
Proof. split; [apply match_directive_sound|apply match_directive_complete]. Qed.

Lemma Split_line a b :
  has_byte LF a = false →
  strings_Split LF (a +:+ b) =
  (a +:+ default "" (head (strings_Split LF b))) :: tail (strings_Split LF b).
Proof.
  intros Ha. induction a as [|c a IH].
  - rewrite !append_nil_l. pose proof (strings_Split_nonempty LF b).
    by destruct (strings_Split LF b).
  - simpl in Ha. apply orb_false_iff in Ha as [Hc%bool_decide_eq_false Ha].
    rewrite !append_cons. simpl. rewrite decide_False by done. by rewrite IH.
Qed.

(** Lines in front of a text. *)
Definition below (lines : list string) (s : string) : string :=
  foldr (λ l s, l +:+ String LF s) s lines.

Lemma Split_below lines s :
  Forall (λ l, has_byte LF l = false) lines → strings_Split LF (below lines s) = lines ++ strings_Split LF s.
Proof.
  induction 1 as [|l lines Hl _ IH]; [done|]. simpl. rewrite Split_line by done.
  simpl. by rewrite IH, append_nil_r.
Qed.

Lemma first_nonempty_below lines header rest :
  Forall (λ l, strings_TrimSpace l = "") lines → strings_TrimSpace header ≠ "" →
  firstNonEmptyLineIndex (lines ++ header :: rest) = Some (length lines).
Proof.
  intros Hl Hh. induction Hl as [|l lines Hl _ IH]; simpl; [by rewrite decide_True|].
  rewrite decide_False by (rewrite Hl; congruence). by rewrite IH.
Qed.

(** The payload is put together again from the lines it was split into. *)
Lemma join_payload_split payload :
  starts_with is_re_space payload = false →
  join_payload (default "" (head (strings_Split LF payload))) (tail (strings_Split LF payload)) = payload.
Proof.
  intros Hp. rewrite <-(strings_Join_Split LF payload) at 3.
  pose proof (strings_Split_nonempty LF payload).
  destruct (strings_Split LF payload) as [|hd [|x tl]] eqn:E; [done|done|].
  unfold join_payload. simpl head. simpl tail. simpl default. rewrite (strings_Join_cons hd) by done.
  case_decide as Hd; [|done]. subst hd. destruct payload as [|c payload]; [done|].
  simpl in E, Hp. case_decide as Hc; [by subst|].
  destruct (strings_Split LF payload); simplify_eq.
Qed.

Lemma first_line_no_space s :
  starts_with is_re_space s = false →
  starts_with is_re_space (default "" (head (strings_Split LF s))) = false.
Proof.
  destruct s as [|c s]; [done|]. simpl. intros Hc. case_decide as Hd; [done|].
  by destruct (strings_Split LF s).
Qed.

Lemma blank_is_space s :
  all_chars is_blank s = true → all_chars is_re_space s = true ∧ has_byte LF s = false.
Proof.
  intros H. split; [|by eapply all_chars_has_byte].
  induction s as [|c s IH]; [done|]. simpl in *. apply andb_true_iff in H as [Hc H].
  rewrite IH by done. rewrite andb_true_r. unfold is_blank, is_re_space in *.
  apply bool_decide_eq_true in Hc. apply bool_decide_eq_true.
  rewrite !elem_of_cons in *. tauto.
Qed.

(** The line that carries a rendered directive, up to the payload. *)
Definition header_of (lead alias trail : string) : string := lead +:+ Format alias +:+ trail.

Lemma header_no_LF lead alias trail :
  all_chars is_blank lead = true → alias_ok alias = true → all_chars is_blank trail = true →
  has_byte LF (header_of lead alias trail) = false.
Proof.
  intros [_ Hl]%blank_is_space Ha [_ Ht]%blank_is_space. unfold header_of, Format.
  apply andb_true_iff in Ha as [Ha _].
  apply (all_chars_has_byte _ LF) in Ha; [|done].
  rewrite !has_byte_app, Hl, Ha, Ht. done.
Qed.

(** The lines below a header that has nothing else on its line. *)
Lemma join_payload_below payload :
  join_payload "" (strings_Split LF payload) = payload.
Proof.
  rewrite <-(strings_Join_Split LF payload) at 2. unfold join_payload.
  pose proof (strings_Split_nonempty LF payload). by destruct (strings_Split LF payload).
Qed.

(** The payload where the caller puts it: on the lines below the header ([own_line]), or
    right behind it and on. *)
Definition after_header (own_line : bool) (payload : string) : string :=
  if own_line then String LF payload else payload.

(** What of the payload stands on the header's line. *)
Definition on_header_line (own_line : bool) (payload : string) : string :=
  if own_line then "" else default "" (head (strings_Split LF payload)).

Lemma Split_after_header own_line h payload :
  has_byte LF h = false →
  strings_Split LF (h +:+ after_header own_line payload) =
  (h +:+ on_header_line own_line payload) ::
    (if own_line then strings_Split LF payload else tail (strings_Split LF payload)).
Proof. intros Hh. rewrite Split_line by done. by destruct own_line. Qed.

Lemma on_header_line_no_space own_line payload :
  own_line = true ∨ starts_with is_re_space payload = false →
  starts_with is_re_space (on_header_line own_line payload) = false.
Proof. destruct own_line; [done|]. intros [?|?]; [done|]. by apply first_line_no_space. Qed.

Lemma join_after_header own_line payload :
  own_line = true ∨ starts_with is_re_space payload = false →
  join_payload (on_header_line own_line payload)
    (if own_line then strings_Split LF payload else tail (strings_Split LF payload)) = payload.
Proof.
  destruct own_line; [intros _; apply join_payload_below|].
  intros [?|?]; [done|]. by apply join_payload_split.
Qed.

(** C30. Routing a message round-trips: a text of blank lines, a directive rendered by
    [Format] with white space around it, and a payload parses, whatever line endings
    carried it, to an explicit directive with that alias, exactly that payload (with its
    line endings normalised) and the header's own line. The payload is either on the lines
    below the header line ([own_line]), and then it is any text whatever, or it begins on
    the header line, and then with a byte that is not white space (white space there
    belongs to the header). *)
Theorem directive_roundtrip (body : string) (blanks : list string) (own_line : bool)
    (lead alias trail payload : string) :
  normalizeLineEndings body = below blanks (header_of lead alias trail +:+ after_header own_line payload) →
  Forall (λ l, has_byte LF l = false ∧ strings_TrimSpace l = "") blanks →
  all_chars is_blank lead = true → alias_ok alias = true → all_chars is_blank trail = true →
  own_line = true ∨ starts_with is_re_space payload = false →
  ParseDirective body = Ok {|
    TargetAlias := alias; Payload := payload; IsExplicit := true;
    RawHeader := header_of lead alias trail +:+ on_header_line own_line payload |}.
Proof.
  intros Hbody [HLF Hblank]%Forall_and Hlead Halias Htrail Hpay. unfold ParseDirective.
  rewrite Hbody, Split_below by done. rewrite Split_after_header by (by apply header_no_LF).
  rewrite first_nonempty_below; [|done|unfold header_of; rewrite append_assoc; apply brace_not_blank].
  rewrite list_lookup_middle by done. cbn [default].
  rewrite (match_directive_complete _ alias (on_header_line own_line payload)).
  - rewrite drop_app_ge, Nat.sub_succ_l, Nat.sub_diag by lia. cbn [drop].
    by rewrite join_after_header.
  - unfold header_of, Format. rewrite !append_assoc.
    apply (DirectiveLine lead " " alias trail); try done; try (by apply blank_is_space).
    by apply on_header_line_no_space.
Qed.

(** The payload behind the header, and the payload below it. *)
Lemma directive_roundtrip_witness :
  ParseDirective (below [" "; ""] (header_of "" "team-1" " " +:+ "run" +:+ String CR (String LF "  tests"))) =
  Ok {| TargetAlias := "team-1"; Payload := "run" +:+ String LF "  tests"; IsExplicit := true;
        RawHeader := "{to #team-1} run" |} ∧
  ParseDirective (header_of "" "team-1" "" +:+ String CR (String LF "  run the tests")) =
  Ok {| TargetAlias := "team-1"; Payload := "  run the tests"; IsExplicit := true;
        RawHeader := "{to #team-1}" |}.
Proof.
  split.
  - apply (directive_roundtrip _ [" "; ""] false "" "team-1" " " ("run" +:+ String LF "  tests"));
      [reflexivity| |reflexivity..|right; reflexivity]. repeat constructor.
  - apply (directive_roundtrip _ [] true "" "team-1" "" "  run the tests");
      [reflexivity| |reflexivity..|left; reflexivity]. constructor.
Defined.
End DirectiveSpec.
