(* ===== verification/Registry.v ===== *)
(** * The workspace registry (pkg/orchestrator/registry/registry.go)

    The catalog messages are routed by. [RuntimeConfig] is the reflection half of the
    file: a configuration is a graph of Go values in the caller's memory, checked for
    cycles and then copied. [Registry] is the catalog: every method runs under the
    registry's mutex and is one function of the state. *)

From S2P Require Import Prelude GoString GoError GoPath.
From Stdlib Require Import Ascii.
From stdpp Require Import options.

Module RuntimeConfig.

(** What [runtimeValueRef] tells objects apart by: a type and an address. *)
Definition ref : Type := string * Z.
#[export] Instance ref_eq_dec : EqDecision ref := prod_eq_dec.
#[export] Instance ref_countable : Countable ref := prod_countable.

(** A [reflect.Value], by its kind. Pointers, maps and slices refer to the memory; a
    slice also has a length. [RNil] is a nil interface, pointer, map or slice, and
    [RLeaf] any value of another kind. A struct field is marked when it is exported. *)
Inductive rval :=
| RLeaf (text : string)
| RNil
| RIface (v : rval)
| RPtr (r : ref)
| RMap (r : ref)
| RSlice (r : ref) (len : nat)
| RArray (vs : list rval)
| RStruct (fields : list (bool * rval)).

(** The memory: what a pointer points to, the entries of a map in the order a range
    visits them, the cells of an array from a slice's first element on. *)
Record heap := {
  cells : gmap ref rval;
  maps : gmap ref (list (rval * rval));
  arrays : gmap ref (list rval);
}.

Section memory.
Variable h : heap.

Definition deref (r : ref) : rval := default RNil (cells h !! r).
Definition entries (r : ref) : list (rval * rval) := default [] (maps h !! r).
Definition elements_of (r : ref) (len : nat) : list rval := take len (default [] (arrays h !! r)).

(** The values [detectRuntimeConfigCycle] goes on with, in its order: the element of
    an interface or pointer, each key and value of a map, elements, all fields. *)
Definition parts (v : rval) : list rval :=
  match v with
  | RLeaf _ | RNil => []
  | RIface v => [v]
  | RPtr r => [deref r]
  | RMap r => entries r ≫= λ kv, [kv.1; kv.2]
  | RSlice r len => elements_of r len
  | RArray vs => vs
  | RStruct fields => fields.*2
  end.

Definition ref_of (v : rval) : option ref :=
  match v with
  | RPtr r | RMap r | RSlice r _ => Some r
  | _ => None
  end.

(** ** The cycle check *)

Record marks := { visiting : gset ref; visited : gset ref }.

Definition enter (r : ref) (m : marks) : marks :=
  {| visiting := {[r]} ∪ visiting m; visited := visited m |}.

(** The deferred function. *)
Definition leave (r : ref) (m : marks) : marks :=
  {| visiting := visiting m ∖ {[r]}; visited := {[r]} ∪ visited m |}.

(** A loop that returns true at the first part for which the check does; [None] is
    the check running out of fuel. *)
Fixpoint seek (check : rval → marks → option (bool * marks)) (vs : list rval) (m : marks)
    : option (bool * marks) :=
  match vs with
  | [] => Some (false, m)
  | v :: vs' =>
    '(found, m) ← check v m;
    if (found : bool) then Some (true, m) else seek check vs' m
  end.

Fixpoint detectRuntimeConfigCycle (fuel : nat) (v : rval) (m : marks) : option (bool * marks) :=
  match fuel with
  | 0 => None
  | S fuel' =>
    match ref_of v with
    | Some r =>
      if decide (r ∈ visiting m) then Some (true, m)
      else if decide (r ∈ visited m) then Some (false, m)
      else
        '(found, m) ← seek (detectRuntimeConfigCycle fuel') (parts v) (enter r m);
        Some (found, leave r m)
    | None => seek (detectRuntimeConfigCycle fuel') (parts v) m
    end
  end.

Definition hasRuntimeConfigCycle (fuel : nat) (cfg : rval) : option bool :=
  match cfg with
  | RNil => Some false
  | _ => fst <$> detectRuntimeConfigCycle fuel cfg {| visiting := ∅; visited := ∅ |}
  end.
End memory.

(** ** Copies

    A copy consists of objects of its own, so it is a tree; what a copy shares with
    its source, map keys and unexported fields, is [TShared]. *)
Inductive tree :=
| TLeaf (text : string)
| TNil
| TIface (t : tree)
| TPtr (typ : string) (t : tree)
| TMap (typ : string) (entries : list (rval * tree))
| TSlice (typ : string) (ts : list tree)
| TArray (ts : list tree)
| TStruct (ts : list tree)
| TShared (v : rval).

Section cloning.
Variable h : heap.

(** [None] is running out of fuel. *)
Fixpoint cloneReflectValue (fuel : nat) (v : rval) : option tree :=
  match fuel with
  | 0 => None
  | S fuel' =>
    match v with
    | RLeaf s => Some (TLeaf s)
    | RNil => Some TNil
    | RIface v => TIface <$> cloneReflectValue fuel' v
    | RPtr r => TPtr r.1 <$> cloneReflectValue fuel' (deref h r)
    | RMap r => TMap r.1 <$> mapM (λ kv, pair kv.1 <$> cloneReflectValue fuel' kv.2) (entries h r)
    | RSlice r len => TSlice r.1 <$> mapM (cloneReflectValue fuel') (elements_of h r len)
    | RArray vs => TArray <$> mapM (cloneReflectValue fuel') vs
    | RStruct fields =>
      TStruct <$> mapM (λ f : bool * rval, if f.1 then cloneReflectValue fuel' f.2
                                           else Some (TShared f.2)) fields
    end
  end.

(** [cloneRuntimeConfig] and [cloneRuntimeValue]: a nil map stays nil, and so does a
    nil value in it. *)
Definition cloneRuntimeConfig (fuel : nat) (cfg : rval) : option tree := cloneReflectValue fuel cfg.
End cloning.

(** Copying a copy. *)
Fixpoint copy (t : tree) : tree :=
  match t with
  | TLeaf s => TLeaf s
  | TNil => TNil
  | TIface t => TIface (copy t)
  | TPtr typ t => TPtr typ (copy t)
  | TMap typ kvs => TMap typ ((λ kv, (kv.1, copy kv.2)) <$> kvs)
  | TSlice typ ts => TSlice typ (copy <$> ts)
  | TArray ts => TArray (copy <$> ts)
  | TStruct ts => TStruct (copy <$> ts)
  | TShared v => TShared v
  end.
End RuntimeConfig.

Module Registry.
Import RuntimeConfig.

Definition RuntimeKindChatAPI := "chat_api".
Definition RuntimeKindResumableCLI := "resumable_cli".
Definition RuntimeKindSocketSession := "socket_session".

Definition ErrAliasNotFound : error := ENew "alias not found".
Definition ErrWorkspaceNotFound : error := ENew "workspace not found".
Definition ErrWorkspaceDisabled : error := ENew "workspace disabled".
Definition ErrAliasConflict : error := ENew "alias conflict".
Definition ErrInvalidWorkspace : error := ENew "invalid workspace".
Definition ErrNoDefaultWorkspace : error := ENew "no default workspace".

(** [C] is how a configuration is held: a value in the caller's memory ([rval]) or the
    registry's own copy ([tree]). *)
Record Workspace (C : Type) := {
  WorkspaceID : string;
  Alias : string;
  RuntimeType : string;
  RuntimeKind : string;
  Description : string;
  Enabled : bool;
  IsDefaultEntry : bool;
  Config : C;
}.
Arguments WorkspaceID {_} _.
Arguments Alias {_} _.
Arguments RuntimeType {_} _.
Arguments RuntimeKind {_} _.
Arguments Description {_} _.
Arguments Enabled {_} _.
Arguments IsDefaultEntry {_} _.
Arguments Config {_} _.

Definition zero_workspace : Workspace tree := {|
  WorkspaceID := ""; Alias := ""; RuntimeType := ""; RuntimeKind := ""; Description := "";
  Enabled := false; IsDefaultEntry := false; Config := TNil |}.

Definition set_config {C D} (ws : Workspace C) (c : D) : Workspace D := {|
  WorkspaceID := WorkspaceID ws; Alias := Alias ws; RuntimeType := RuntimeType ws;
  RuntimeKind := RuntimeKind ws; Description := Description ws; Enabled := Enabled ws;
  IsDefaultEntry := IsDefaultEntry ws; Config := c |}.

Definition set_default (ws : Workspace tree) (b : bool) : Workspace tree := {|
  WorkspaceID := WorkspaceID ws; Alias := Alias ws; RuntimeType := RuntimeType ws;
  RuntimeKind := RuntimeKind ws; Description := Description ws; Enabled := Enabled ws;
  IsDefaultEntry := b; Config := Config ws |}.

Definition set_enabled (ws : Workspace tree) (b : bool) : Workspace tree := {|
  WorkspaceID := WorkspaceID ws; Alias := Alias ws; RuntimeType := RuntimeType ws;
  RuntimeKind := RuntimeKind ws; Description := Description ws; Enabled := b;
  IsDefaultEntry := IsDefaultEntry ws; Config := Config ws |}.

Definition cloneWorkspace (ws : Workspace tree) : Workspace tree := set_config ws (copy (Config ws)).

(** [aliasPattern], one or more of the alias bytes *)
Definition is_alias_char (c : ascii) : bool :=
  is_upper c || is_lower c || is_digit c || is_underscore c || is_dash c.
Definition aliasPattern (s : string) : bool := all_chars is_alias_char s && bool_decide (s ≠ "").

Definition known_kind (k : string) : bool :=
  bool_decide (k = RuntimeKindChatAPI ∨ k = RuntimeKindResumableCLI ∨ k = RuntimeKindSocketSession).

(** [None] is running out of fuel in the check or the copy. *)
Definition validateWorkspace (fuel : nat) (h : heap) (ws : Workspace rval)
    : option (result (Workspace tree)) :=
  let invalid := Some (Err ErrInvalidWorkspace) in
  let id := strings_TrimSpace (WorkspaceID ws) in
  if decide (id = "") then invalid else
  let alias := strings_TrimSpace (Alias ws) in
  if decide (alias = "") then invalid
  else if decide (64 < String.length alias) then invalid
  else if negb (aliasPattern alias) then invalid else
  let runtimeType := strings_TrimSpace (RuntimeType ws) in
  if decide (runtimeType = "") then invalid
  else if negb (known_kind (RuntimeKind ws)) then invalid
  else if decide (256 < utf8_RuneCount (Description ws)) then invalid
  else
    cyclic ← hasRuntimeConfigCycle h fuel (Config ws);
    if (cyclic : bool) then invalid else
    config ← cloneRuntimeConfig h fuel (Config ws);
    Some (Ok {| WorkspaceID := id; Alias := alias; RuntimeType := runtimeType;
                RuntimeKind := RuntimeKind ws; Description := Description ws;
                Enabled := Enabled ws; IsDefaultEntry := IsDefaultEntry ws; Config := config |}).

Section catalog.
Variable Agent : Type.

(** What a factory returns: an agent or nil, and an error or nil. *)
Definition AgentFactory := Workspace tree → option Agent * option error.

Definition wrapFactory (factory : AgentFactory) : AgentFactory := λ ws,
  match factory (cloneWorkspace ws) with
  | (_, Some err) => (None, Some err)
  | (None, None) =>
    (None, Some (Errorf_w ("agent factory for workspace " +:+ strconv_Quote (WorkspaceID ws) +:+ ": ")
                   ErrInvalidWorkspace ""))
  | (Some agent, None) => (Some agent, None)
  end.

Record MemoryRegistry := {
  byID : gmap string (Workspace tree);
  byAlias : gmap string string;
  factories : gmap string AgentFactory;
  defaultID : string;
}.

Definition NewMemory : MemoryRegistry :=
  {| byID := ∅; byAlias := ∅; factories := ∅; defaultID := "" |}.

Definition set_byID (r : MemoryRegistry) (m : gmap string (Workspace tree)) : MemoryRegistry :=
  {| byID := m; byAlias := byAlias r; factories := factories r; defaultID := defaultID r |}.

(** Clears the flag of the current default; the row is a zero one if it is missing. *)
Definition demote (r : MemoryRegistry) : MemoryRegistry :=
  set_byID r (<[defaultID r := set_default (default zero_workspace (byID r !! defaultID r)) false]> (byID r)).

Definition Register (fuel : nat) (h : heap) (ws : Workspace rval) (factory : option AgentFactory)
    (r : MemoryRegistry) : option (result unit * MemoryRegistry) :=
  let q := strconv_Quote in
  let trimmedID := strings_TrimSpace (WorkspaceID ws) in
  match factory with
  | None => Some (Err (Errorf_w ("register workspace " +:+ q trimmedID +:+ ": ") ErrInvalidWorkspace ""), r)
  | Some factory =>
    validated ← validateWorkspace fuel h ws;
    match validated with
    | Err err => Some (Err (Errorf_w ("register workspace " +:+ q trimmedID +:+ ": ") err ""), r)
    | Ok normalized =>
      let id := WorkspaceID normalized in
      match byID r !! id with
      | Some _ =>
        Some (Err (Errorf_w ("register workspace " +:+ q id +:+ ": duplicate workspace id: ")
                     ErrInvalidWorkspace ""), r)
      | None =>
        match byAlias r !! Alias normalized with
        | Some existingID =>
          Some (Err (Errorf_w ("register alias " +:+ q (Alias normalized) +:+ " for workspace " +:+ q id +:+
                               " conflicts with workspace " +:+ q existingID +:+ ": ") ErrAliasConflict ""), r)
        | None =>
          let normalized := set_config normalized (copy (Config normalized)) in
          let storedFactory := wrapFactory factory in
          let r := if decide (IsDefaultEntry normalized = true ∧ defaultID r ≠ "" ∧ defaultID r ≠ id)
                   then demote r else r in
          Some (Ok (), {|
            byID := <[id := normalized]> (byID r);
            byAlias := <[Alias normalized := id]> (byAlias r);
            factories := <[id := storedFactory]> (factories r);
            defaultID := if IsDefaultEntry normalized then id else defaultID r |})
        end
      end
    end
  end.

Definition Update (fuel : nat) (h : heap) (ws : Workspace rval) (r : MemoryRegistry)
    : option (result unit * MemoryRegistry) :=
  let q := strconv_Quote in
  validated ← validateWorkspace fuel h ws;
  match validated with
  | Err err =>
    Some (Err (Errorf_w ("update workspace " +:+ q (strings_TrimSpace (WorkspaceID ws)) +:+ ": ") err ""), r)
  | Ok normalized =>
    let id := WorkspaceID normalized in
    match byID r !! id with
    | None => Some (Err (Errorf_w ("update workspace " +:+ q id +:+ ": ") ErrWorkspaceNotFound ""), r)
    | Some existing =>
      if decide (Alias normalized ≠ Alias existing) then
        Some (Err (Errorf_w ("update workspace " +:+ q id +:+ " alias " +:+ q (Alias normalized) +:+ ": ")
                     ErrInvalidWorkspace ""), r)
      else
        let normalized := set_config normalized (copy (Config normalized)) in
        let '(r, newDefault) :=
          if decide (IsDefaultEntry normalized = true ∧ defaultID r ≠ "" ∧ defaultID r ≠ id)
          then (demote r, id)
          else if IsDefaultEntry normalized then (r, id)
          else if decide (defaultID r = id) then (r, "")
          else (r, defaultID r) in
        Some (Ok (), {| byID := <[id := normalized]> (byID r); byAlias := byAlias r;
                        factories := factories r; defaultID := newDefault |})
    end
  end.

Definition switch (what : string) (on : bool) (workspaceID : string) (r : MemoryRegistry)
    : result unit * MemoryRegistry :=
  let trimmedID := strings_TrimSpace workspaceID in
  match byID r !! trimmedID with
  | None => (Err (Errorf_w (what +:+ " workspace " +:+ strconv_Quote trimmedID +:+ ": ") ErrWorkspaceNotFound ""), r)
  | Some ws =>
    if decide (Enabled ws = on) then (Ok (), r)
    else (Ok (), set_byID r (<[trimmedID := set_enabled ws on]> (byID r)))
  end.

Definition Disable := switch "disable" false.
Definition Enable := switch "enable" true.

Definition lookupByIDLocked (workspaceID : string) (r : MemoryRegistry)
    : result (Workspace tree * AgentFactory) :=
  let q := strconv_Quote workspaceID in
  match byID r !! workspaceID with
  | None => Err (Errorf_w ("lookup workspace " +:+ q +:+ ": ") ErrWorkspaceNotFound "")
  | Some ws =>
    if negb (Enabled ws) then Err (Errorf_w ("lookup workspace " +:+ q +:+ ": ") ErrWorkspaceDisabled "") else
    match factories r !! workspaceID with
    | None => Err (Errorf_w ("lookup workspace " +:+ q +:+ " factory: ") ErrInvalidWorkspace "")
    | Some factory => Ok (cloneWorkspace ws, factory)
    end
  end.

Definition LookupByAlias (alias : string) (r : MemoryRegistry) : result (Workspace tree * AgentFactory) :=
  let trimmedAlias := strings_TrimSpace alias in
  match byAlias r !! trimmedAlias with
  | None => Err (Errorf_w ("lookup alias " +:+ strconv_Quote trimmedAlias +:+ ": ") ErrAliasNotFound "")
  | Some workspaceID => lookupByIDLocked workspaceID r
  end.

Definition LookupByID (workspaceID : string) (r : MemoryRegistry) : result (Workspace tree * AgentFactory) :=
  lookupByIDLocked (strings_TrimSpace workspaceID) r.

Definition Default (r : MemoryRegistry) : result (Workspace tree * AgentFactory) :=
  if decide (defaultID r = "") then Err ErrNoDefaultWorkspace else lookupByIDLocked (defaultID r) r.

(** The order [sort.Slice] is given. *)
Definition alias_le (a b : Workspace tree) : Prop := (strings_Compare (Alias a) (Alias b) ≤ 0)%Z.
#[export] Instance alias_le_dec : RelDecision alias_le.
Proof. unfold alias_le. intros a b. apply _. Defined.

Definition List_ (r : MemoryRegistry) : list (Workspace tree) :=
  merge_sort alias_le (cloneWorkspace <$> (map_to_list (byID r)).*2).
End catalog.
End Registry.
