(* ===== verification/RegistrySpec.v ===== *)
(** * What the workspace registry guarantees

    [CycleCheck]: the check of configurations answers, accepts exactly the graphs
    without a cycle, and what it accepts can be copied, as long as no two slices of one
    type share their first element; [slices_hide_a_cycle] is what goes wrong when two
    do. [Routing]: the catalog's maps agree, and every lookup is a search in its
    listing. *)

From S2P Require Import Prelude GoString GoError GoPath Registry.
From stdpp Require Import options.
Set Default Proof Using "Type*".

Module CycleCheck.
Import RuntimeConfig.

(** [b] is directly below [a]. *)
Definition child (h : heap) (a b : rval) : Prop := b ∈ parts h a.

Definition reach (h : heap) : relation rval := rtc (child h).

Definition cyclic (h : heap) (v : rval) : Prop := ∃ w, reach h v w ∧ tc (child h) w w.

(** A type and an address determine the object: no two slices below [v] that share
    their first element have different lengths. *)
Definition keyed (h : heap) (v : rval) : Prop := ∀ a b r,
  reach h v a → reach h v b → ref_of a = Some r → ref_of b = Some r → a = b.

Lemma sn_no_loop h w : sn (child h) w → ¬ tc (child h) w w.
Proof.
  induction 1 as [w _ IH]. intros Hc. inversion Hc as [? ? Hww | ? y ? Hwy Hyw]; subst.
  - exact (IH w Hww Hc).
  - apply (IH y Hwy). eapply tc_r; [exact Hyw|exact Hwy].
Qed.

Lemma sn_acyclic h v : sn (child h) v → ¬ cyclic h v.
Proof.
  intros Hv (w & Hvw & Hw). apply (sn_no_loop h w); [|exact Hw].
  clear Hw. induction Hvw as [|v y w Hvy _ IH]; [done|]. apply IH. by apply Hv.
Qed.

(** ** Soundness of both answers *)

Section check.
Context (h : heap).
Local Abbreviation detect := (detectRuntimeConfigCycle h).

(** [seek] is a loop over a property of its steps. *)
Lemma seek_ind (check : rval → marks → option (bool * marks)) (P : rval → marks → bool → marks → Prop)
    (I : marks → Prop) vs m b m' :
  (∀ v m b m', v ∈ vs → I m → check v m = Some (b, m') → P v m b m' ∧ (b = false → I m')) →
  I m → seek check vs m = Some (b, m') →
  if b then ∃ v m1 , v ∈ vs ∧ I m1 ∧ P v m1 true m'
  else I m' ∧ ∀ v, v ∈ vs → ∃ m1 m2, P v m1 false m2.
Proof.
  intros Hstep. revert m. induction vs as [|v vs IH]; intros m Hm; simpl.
  { intros [= <- <-]. split; [done|]. by intros v ?%elem_of_nil. }
  destruct (check v m) as [[b1 m1]|] eqn:E; [|done]. simpl.
  destruct (Hstep v m b1 m1) as [HP HI]; [by left|done..|]. destruct b1.
  - intros [= <- <-]. exists v, m. split_and!; [by left|done..].
  - intros Hs. apply IH in Hs; [| |by apply HI].
    + destruct b.
      * destruct Hs as (v' & m2 & Hv & Hm2 & HP'). exists v', m2. split_and!; [by right|done..].
      * destruct Hs as [Hm' Hall]. split; [done|].
        intros v' [->|Hv]%elem_of_cons; [eauto|by apply Hall].
    + intros v' m2 b2 m3 Hv. apply Hstep. by right.
Qed.

Lemma enter_leave r m : r ∉ visiting m → ∀ m', visiting m' = visiting (enter r m) →
  visiting (leave r m') = visiting m.
Proof.
  intros Hr m' Hm'. simpl. rewrite Hm'. apply set_eq. intros x. simpl.
  rewrite elem_of_difference, elem_of_union, elem_of_singleton. split; [tauto|].
  intros Hx. split; [by right|congruence].
Qed.

Lemma detect_visiting fuel v m b m' : detect fuel v m = Some (b, m') → visiting m' = visiting m.
Proof.
  revert v m b m'. induction fuel as [|fuel IH]; intros v m b m'; simpl; [done|].
  assert (∀ vs m b m', seek (detect fuel) vs m = Some (b, m') → visiting m' = visiting m) as Hseek.
  { clear m b m'. intros vs. induction vs as [|u vs IHvs]; intros m b m'; simpl; [by intros [= _ ->]|].
    destruct (detect fuel u m) as [[b1 m1]|] eqn:E; [|done]. simpl. apply IH in E.
    destruct b1; [by intros [= _ <-]|]. intros H%IHvs. congruence. }
  destruct (ref_of v) as [r|]; [|apply Hseek].
  case_decide as Hin; [by intros [= _ <-]|]. case_decide; [by intros [= _ <-]|].
  destruct (seek _ _ _) as [[b1 m1]|] eqn:E; [|done]. simpl. intros [= _ <-].
  apply Hseek in E. by apply enter_leave.
Qed.

Lemma seek_visiting fuel vs m b m' : seek (detect fuel) vs m = Some (b, m') → visiting m' = visiting m.
Proof.
  revert m. induction vs as [|u vs IH]; intros m; simpl; [by intros [= _ ->]|].
  destruct (detect fuel u m) as [[b1 m1]|] eqn:E; [|done]. simpl. apply detect_visiting in E.
  destruct b1; [by intros [= _ <-]|]. intros H%IH. congruence.
Qed.

Context (root : rval) (Hkeyed : keyed h root).

(** Objects the check has finished with lead nowhere for ever. *)
Definition done_ok (m : marks) : Prop := ∀ a r,
  reach h root a → ref_of a = Some r → r ∈ visited m → sn (child h) a.

(** Objects it is inside of lead to the current value. *)
Definition path_ok (m : marks) (v : rval) : Prop := ∀ a r,
  reach h root a → ref_of a = Some r → r ∈ visiting m → tc (child h) a v.

Lemma reach_part v u : reach h root v → u ∈ parts h v → reach h root u.
Proof. intros Hv Hu. eapply rtc_r; [exact Hv|exact Hu]. Qed.

Lemma detect_false fuel v m m' :
  reach h root v → done_ok m → detect fuel v m = Some (false, m') → sn (child h) v ∧ done_ok m'.
Proof.
  revert v m m'. induction fuel as [|fuel IH]; intros v m m' Hv Hm; simpl; [done|].
  assert (∀ m m', done_ok m → seek (detect fuel) (parts h v) m = Some (false, m') →
    sn (child h) v ∧ done_ok m') as Hseek.
  { clear m m' Hm. intros m m' Hm Hs.
    apply (seek_ind _ (λ v _ b _, b = false → sn (child h) v) done_ok) in Hs as [Hm' Hall]; [|clear Hs|done].
    - split; [|done]. constructor. intros u Hu. destruct (Hall u Hu) as (_ & _ & Hu'). by apply Hu'.
    - intros u m1 b m2 Hu Hm1 E. split; intros ->;
        eapply IH in E; try exact Hm1; try (by eapply reach_part); tauto. }
  destruct (ref_of v) as [r|] eqn:Hr; [|by apply Hseek].
  case_decide; [done|]. case_decide as Hdone.
  { intros [= <-]. split; [|done]. by eapply Hm. }
  destruct (seek _ _ _) as [[b m1]|] eqn:E; [|done]. simpl. intros [= -> <-].
  apply Hseek in E as [Hsn Hm1]; [|exact Hm]. split; [done|].
  intros a r' Ha Hra [->%elem_of_singleton|Hin]%elem_of_union.
  - by rewrite (Hkeyed a v r Ha Hv Hra Hr).
  - by eapply Hm1.
Qed.

Lemma detect_true fuel v m m' :
  reach h root v → path_ok m v → detect fuel v m = Some (true, m') → cyclic h v.
Proof.
  revert v m m'. induction fuel as [|fuel IH]; intros v m m' Hv Hm; simpl; [done|].
  assert (∀ m m', (∀ u, u ∈ parts h v → path_ok m u) →
    seek (detect fuel) (parts h v) m = Some (true, m') → cyclic h v) as Hseek.
  { clear m m' Hm. intros m m' Hm Hs.
    apply (seek_ind _ (λ u _ b _, b = true → cyclic h u) (λ m1, visiting m1 = visiting m)) in Hs
      as (u & _ & Hu & _ & Hc); [|clear Hs|done].
    - destruct (Hc eq_refl) as (w & Huw & Hw). exists w. split; [|done]. by eapply rtc_l.
    - intros u m1 b m2 Hu Hm1 E. split; [|intros _; apply detect_visiting in E; congruence].
      intros ->. eapply IH; [by eapply reach_part| |exact E].
      intros a r Ha Hra. rewrite Hm1. by apply Hm. }
  destruct (ref_of v) as [r|] eqn:Hr.
  - case_decide as Hin.
    { intros _. exists v. split; [constructor|]. by eapply Hm. }
    case_decide; [done|]. destruct (seek _ _ _) as [[b m1]|] eqn:E; [|done]. simpl.
    intros [= -> <-]. eapply Hseek; [|exact E].
    intros u Hu a r' Ha Hra [->%elem_of_singleton|Hin']%elem_of_union.
    + rewrite (Hkeyed a v r Ha Hv Hra Hr). by apply tc_once.
    + eapply tc_r; [by eapply Hm|exact Hu].
  - apply Hseek. intros u Hu a r Ha Hra Hin. eapply tc_r; [by eapply Hm|exact Hu].
Qed.
End check.

(** ** The check answers

    Every object is entered once on a path, and between two objects the check only
    goes down inside a value: the number of objects times the depth of the values in
    memory bounds the depth of the recursion. *)

Fixpoint vdepth (v : rval) : nat :=
  match v with
  | RIface v => S (vdepth v)
  | RArray vs => S (max_list (vdepth <$> vs))
  | RStruct fields => S (max_list ((λ f, vdepth f.2) <$> fields))
  | _ => 0
  end.

Definition memory_refs (h : heap) : gset ref := dom (cells h) ∪ dom (maps h) ∪ dom (arrays h).

Definition memory_values (h : heap) : list rval :=
  (map_to_list (cells h)).*2 ++
  ((map_to_list (maps h)).*2 ≫= λ kvs, kvs ≫= λ kv, [kv.1; kv.2]) ++
  mjoin (map_to_list (arrays h)).*2.

Definition memory_depth (h : heap) : nat := max_list (vdepth <$> memory_values h).

Definition enough (h : heap) (v : rval) (m : marks) : nat :=
  2 + vdepth v + size (memory_refs h ∖ visiting m) * S (memory_depth h).

Lemma max_list_le (f : rval → nat) v vs : v ∈ vs → f v ≤ max_list (f <$> vs).
Proof. intros Hv. apply max_list_elem_of_le. by apply list_elem_of_fmap_2. Qed.

Lemma lookup_value {A} (m : gmap ref A) r a : m !! r = Some a → a ∈ (map_to_list m).*2.
Proof. intros H. apply list_elem_of_fmap. exists (r, a). split; [done|]. by apply elem_of_map_to_list. Qed.

(** What is below an object is in memory, or the object is not and nothing is. *)
Lemma object_parts h v r u :
  ref_of v = Some r → u ∈ parts h v → (r ∈ memory_refs h ∧ vdepth u ≤ memory_depth h) ∨ u = RNil.
Proof.
  intros Hr Hu. unfold memory_refs.
  assert (r ∈ dom (cells h) ∪ dom (maps h) ∪ dom (arrays h) → u ∈ memory_values h →
    (r ∈ dom (cells h) ∪ dom (maps h) ∪ dom (arrays h) ∧ vdepth u ≤ memory_depth h) ∨ u = RNil) as Hin.
  { intros Hd Hv. left. split; [done|]. by apply max_list_le. }
  unfold memory_values in Hin. rewrite !elem_of_union, !elem_of_dom, !elem_of_app in Hin.
  rewrite !elem_of_union, !elem_of_dom.
  destruct v as [| | |r'|r'|r' len| |]; simplify_eq/=.
  - apply list_elem_of_singleton in Hu as ->. unfold deref in *.
    destruct (cells h !! r) as [u|] eqn:E; [|by right]. apply Hin; [eauto|].
    left. by eapply lookup_value.
  - unfold entries in Hu. destruct (maps h !! r) as [kvs|] eqn:E; simpl in Hu; [|by apply elem_of_nil in Hu].
    apply Hin; [eauto|]. right. left. apply list_elem_of_bind. exists kvs. split; [done|].
    by eapply lookup_value.
  - unfold elements_of in Hu. destruct (arrays h !! r) as [us|] eqn:E; simpl in Hu;
      [|by rewrite take_nil in Hu; apply elem_of_nil in Hu].
    apply elem_of_take in Hu as (i & Hu & _). apply Hin; [eauto|]. right. right.
    apply list_elem_of_join. exists us. split; [by eapply list_elem_of_lookup_2|by eapply lookup_value].
Qed.

Lemma inner_parts h v u : ref_of v = None → u ∈ parts h v → vdepth u < vdepth v.
Proof.
  destruct v as [| |v| | | |vs|fs]; simpl; intros Hr Hu; try done; try (by apply elem_of_nil in Hu).
  - apply list_elem_of_singleton in Hu as ->. lia.
  - apply Nat.lt_succ_r. by apply max_list_le.
  - apply Nat.lt_succ_r. apply list_elem_of_fmap in Hu as (f & -> & Hf).
    apply max_list_elem_of_le. apply list_elem_of_fmap. by exists f.
Qed.

Lemma detect_answers h fuel v m :
  enough h v m ≤ fuel → is_Some (detectRuntimeConfigCycle h fuel v m).
Proof.
  revert v m. induction fuel as [|fuel IH]; intros v m Hfuel; [unfold enough in Hfuel; lia|]. simpl.
  assert (∀ m', (∀ u, u ∈ parts h v → u = RNil ∨ enough h u m' ≤ fuel) →
    is_Some (seek (detectRuntimeConfigCycle h fuel) (parts h v) m')) as Hseek.
  { assert (1 ≤ fuel) as Hone by (unfold enough in Hfuel; lia).
    intros m' Hall. revert m' Hall. generalize (parts h v) as vs. intros vs.
    induction vs as [|u vs IHvs]; intros m' Hall; simpl; [eauto|].
    assert (is_Some (detectRuntimeConfigCycle h fuel u m')) as [[b m1] E].
    { destruct (Hall u) as [->|Hu]; [by left| |by apply IH]. destruct fuel; [lia|]. simpl. eauto. }
    rewrite E. simpl. destruct b; [eauto|]. apply IHvs. intros u' Hu'.
    unfold enough. rewrite (detect_visiting _ _ _ _ _ _ E). apply Hall. by right. }
  destruct (ref_of v) as [r|] eqn:Hr.
  - repeat (case_decide; [eauto|]). destruct (Hseek (enter r m)) as [[b m1] ->]; [|simpl; eauto].
    intros u Hu. unfold enough in *. simpl visiting. destruct (object_parts h v r u Hr Hu) as [[Hin Hd] | ->].
    + right. replace (memory_refs h ∖ ({[r]} ∪ visiting m)) with ((memory_refs h ∖ visiting m) ∖ {[r]}).
      * rewrite size_difference by (apply singleton_subseteq_l, elem_of_difference; done).
        rewrite size_singleton.
        assert (size (memory_refs h ∖ visiting m) ≠ 0); [|nia].
        intros He%size_empty_inv. apply (not_elem_of_empty (C:=gset ref) r). rewrite <-He.
        by apply elem_of_difference.
      * apply set_eq. intros x. rewrite !elem_of_difference, elem_of_union. tauto.
    + by left.
  - apply Hseek. intros u Hu. right. apply (inner_parts h v u Hr) in Hu. unfold enough in *. lia.
Qed.

(** ** What is accepted can be copied *)

Definition answers_eventually {A} (f : nat → option A) : Prop := ∃ n, ∀ fuel, n ≤ fuel → is_Some (f fuel).

Lemma eventually_mapM {A B} (f : nat → A → option B) l :
  (∀ x, x ∈ l → answers_eventually (λ fuel, f fuel x)) → answers_eventually (λ fuel, mapM (f fuel) l).
Proof.
  induction l as [|x l IH]; intros Hl.
  - exists 0. intros fuel _. by eexists.
  - destruct (Hl x) as [n Hn]; [by left|]. destruct IH as [k Hk]; [intros y Hy; apply Hl; by right|].
    exists (n `max` k). intros fuel Hfuel. apply mapM_is_Some. constructor; [apply Hn; lia|].
    apply mapM_is_Some, Hk. lia.
Qed.

Lemma eventually_step {A B} (f : nat → option A) (g : A → B) (k : nat → option B) :
  (∀ fuel, k (S fuel) = g <$> f fuel) → answers_eventually f → answers_eventually k.
Proof.
  intros Hk [n Hn]. exists (S n). intros [|fuel] Hfuel; [lia|]. rewrite Hk.
  apply fmap_is_Some, Hn. lia.
Qed.

Lemma clone_answers h v : sn (child h) v → answers_eventually (λ fuel, cloneReflectValue h fuel v).
Proof.
  induction 1 as [v _ IH]. unfold flip, child in IH. destruct v as [s| |v|r|r|r len|vs|fs].
  - exists 1. intros [|fuel] ?; [lia|]. simpl. eauto.
  - exists 1. intros [|fuel] ?; [lia|]. simpl. eauto.
  - eapply (eventually_step _ TIface); [done|]. apply IH. simpl. by left.
  - eapply (eventually_step _ (TPtr r.1)); [done|]. apply IH. simpl. by left.
  - eapply (eventually_step _ (TMap r.1)); [done|].
    apply (eventually_mapM (λ fuel kv, pair kv.1 <$> cloneReflectValue h fuel kv.2)).
    intros kv Hkv. destruct (IH kv.2) as [n Hn].
    { simpl. apply list_elem_of_bind. exists kv. split; [|done]. right. by left. }
    exists n. intros fuel Hfuel. by apply fmap_is_Some, Hn.
  - eapply (eventually_step _ (TSlice r.1)); [done|]. by apply eventually_mapM.
  - eapply (eventually_step _ TArray); [done|]. by apply eventually_mapM.
  - eapply (eventually_step _ TStruct); [done|].
    apply (eventually_mapM (λ fuel (f : bool * rval),
      if f.1 then cloneReflectValue h fuel f.2 else Some (TShared f.2))).
    intros f Hf. destruct (IH f.2) as [n Hn].
    { simpl. apply list_elem_of_fmap. by exists f. }
    exists n. intros fuel Hfuel. destruct (f.1); [by apply Hn|eauto].
Qed.

(** C28. The cycle check of a runtime configuration always answers, with fuel for every
    object in memory and the depth of the values in it; it reports a cycle exactly when
    the configuration has one; and a configuration it accepts can be copied. Addresses
    must tell the objects apart, which slices of one array with different lengths do
    not. *)
Theorem cycle_check_iff (h : heap) (cfg : rval) (fuel : nat) :
  keyed h cfg → enough h cfg {| visiting := ∅; visited := ∅ |} ≤ fuel →
  ∃ b, hasRuntimeConfigCycle h fuel cfg = Some b ∧ (b = true ↔ cyclic h cfg) ∧
    (b = false → answers_eventually (λ fuel, cloneRuntimeConfig h fuel cfg)).
Proof.
  intros Hkeyed Hfuel. set (m := {| visiting := ∅; visited := ∅ |}) in *.
  assert (∃ b, hasRuntimeConfigCycle h fuel cfg = Some b ∧
    (b = true → cyclic h cfg) ∧ (b = false → sn (child h) cfg)) as (b & Hb & Ht & Hf).
  { destruct (detect_answers h fuel cfg m Hfuel) as [[b m'] E].
    assert ((b = true → cyclic h cfg) ∧ (b = false → sn (child h) cfg)) as Hb.
    { split; intros ->.
      - eapply (detect_true h cfg Hkeyed); [constructor| |exact E].
        intros a r _ _ Hin. by apply elem_of_empty in Hin.
      - refine (proj1 (detect_false h cfg Hkeyed fuel cfg m m' _ _ E)); [constructor|].
        intros a r _ _ Hin. by apply elem_of_empty in Hin. }
    exists b. split; [|exact Hb]. unfold hasRuntimeConfigCycle. fold m. rewrite E.
    destruct cfg; try done. destruct fuel; [done|]. simpl in E. injection E as <- _. done. }
  exists b. split; [done|]. split; [split; [done|]|].
  - intros Hc. destruct b; [done|]. by apply sn_acyclic in Hf.
  - intros Hbf. by apply clone_answers, Hf.
Qed.

(** Samples: a map that shares a pointer twice, and the same with the pointer's object
    leading back to the map. *)
Definition sample_heap (target : rval) : heap := {|
  cells := {[ ("*node", 8%Z) := RStruct [(true, target); (false, RNil)] ]};
  maps := {[ ("map", 1%Z) := [(RLeaf "a", RIface (RPtr ("*node", 8%Z)));
                              (RLeaf "b", RIface (RSlice ("[]any", 4%Z) 2))] ]};
  arrays := {[ ("[]any", 4%Z) := [RIface (RPtr ("*node", 8%Z)); RIface (RLeaf "x")] ]} |}.

Definition sample_config : rval := RMap ("map", 1%Z).
Definition sample_leaf : rval := RIface (RLeaf "y").

Lemma sample_keyed : keyed (sample_heap sample_leaf) sample_config.
Proof.
  set (h := sample_heap sample_leaf).
  assert (∀ v, reach h sample_config v → v ∈ [sample_config; RLeaf "a"; RIface (RPtr ("*node", 8%Z));
    RPtr ("*node", 8%Z); RStruct [(true, sample_leaf); (false, RNil)]; sample_leaf; RLeaf "y"; RNil;
    RLeaf "b"; RIface (RSlice ("[]any", 4%Z) 2); RSlice ("[]any", 4%Z) 2; RIface (RLeaf "x"); RLeaf "x"]) as Hin.
  { intros v Hv. revert v Hv. refine (rtc_ind_r _ _ _ _); [by left|]. intros x y _ Hxy IH.
    unfold child in Hxy. rewrite !elem_of_cons in IH. destruct_or!; [subst x..|by apply elem_of_nil in IH].
    all: match type of Hxy with
         | ?z ∈ ?vs => let l := eval vm_compute in vs in change (z ∈ l) in Hxy
         end; rewrite ?elem_of_cons, ?elem_of_nil in Hxy; destruct_or?; subst; try done;
      rewrite !elem_of_cons; tauto. }
  intros a b r Ha Hb Hra Hrb. apply Hin in Ha, Hb. rewrite !elem_of_cons in Ha, Hb.
  rewrite !elem_of_nil in Ha, Hb. destruct_or!; subst; simplify_eq/=; done.
Qed.

Lemma cycle_check_iff_witness :
  ∃ b, hasRuntimeConfigCycle (sample_heap sample_leaf) 40 sample_config = Some b ∧
    (b = true ↔ cyclic (sample_heap sample_leaf) sample_config) ∧
    (b = false → answers_eventually (λ fuel, cloneRuntimeConfig (sample_heap sample_leaf) fuel sample_config)).
Proof.
  apply (cycle_check_iff (sample_heap sample_leaf) sample_config 40); [apply sample_keyed|].
  apply Nat.leb_le. vm_compute. reflexivity.
Defined.

Example cycle_check_ex1 : hasRuntimeConfigCycle (sample_heap sample_leaf) 40 sample_config = Some false.
Proof. vm_compute. reflexivity. Qed.

Example cycle_check_ex2 : hasRuntimeConfigCycle (sample_heap sample_config) 40 sample_config = Some true.
Proof. vm_compute. reflexivity. Qed.

(** A configuration [cfg] with [s := []any{"x", cfg}] under ["b"] and [s[:1]] under
    ["a"]: both slices have the same type and address, so once the first is done the
    second is skipped, and with it the way back to [cfg]. *)
Definition aliased_heap : heap := {|
  cells := ∅;
  maps := {[ ("map", 1%Z) := [(RLeaf "a", RIface (RSlice ("[]any", 2%Z) 1));
                              (RLeaf "b", RIface (RSlice ("[]any", 2%Z) 2))] ]};
  arrays := {[ ("[]any", 2%Z) := [RIface (RLeaf "x"); RIface sample_config] ]} |}.

(** The check accepts the configuration, for any fuel that lets it answer, although it
    has a cycle; the copy that follows never ends. *)
Theorem slices_hide_a_cycle :
  cyclic aliased_heap sample_config ∧
  hasRuntimeConfigCycle aliased_heap 10 sample_config = Some false ∧
  ∀ fuel, cloneRuntimeConfig aliased_heap fuel sample_config = None.
Proof.
  split_and!.
  - exists sample_config. split; [constructor|].
    apply (tc_l _ _ (RIface (RSlice ("[]any", 2%Z) 2))); [vm_compute; repeat constructor|].
    apply (tc_l _ _ (RSlice ("[]any", 2%Z) 2)); [vm_compute; repeat constructor|].
    apply (tc_l _ _ (RIface sample_config)); [vm_compute; repeat constructor|].
    apply tc_once. vm_compute; repeat constructor.
  - vm_compute. reflexivity.
  - intros fuel. induction fuel as [fuel IH] using lt_wf_ind.
    assert (∀ n, n < fuel → cloneReflectValue aliased_heap n sample_config = None) as Hrec by exact IH.
    destruct fuel as [|fuel]; [done|]. unfold cloneRuntimeConfig.
    change (cloneReflectValue aliased_heap (S fuel) sample_config) with
      (TMap "map" <$> mapM (λ kv, pair kv.1 <$> cloneReflectValue aliased_heap fuel kv.2)
         [(RLeaf "a", RIface (RSlice ("[]any", 2%Z) 1)); (RLeaf "b", RIface (RSlice ("[]any", 2%Z) 2))]).
    assert (cloneReflectValue aliased_heap fuel (RIface (RSlice ("[]any", 2%Z) 2)) = None) as Hb.
    { destruct fuel as [|[|[|fuel]]]; [done..|].
      assert (cloneReflectValue aliased_heap (S fuel) (RIface sample_config) = None) as Hc.
      { simpl. rewrite Hrec by lia. done. }
      change (cloneReflectValue aliased_heap (S (S (S fuel))) (RIface (RSlice ("[]any", 2%Z) 2))) with
        (TIface <$> (TSlice "[]any" <$> mapM (cloneReflectValue aliased_heap (S fuel))
           [RIface (RLeaf "x"); RIface sample_config])).
      cbn [mapM]. rewrite Hc. destruct (cloneReflectValue aliased_heap (S fuel) (RIface (RLeaf "x"))); reflexivity. }
    cbn [mapM fst snd]. rewrite Hb. destruct (cloneReflectValue aliased_heap fuel (RIface (RSlice ("[]any", 2%Z) 1))); reflexivity.
Qed.
End CycleCheck.

Module Routing.
Import RuntimeConfig Registry.

Section routing.
Context {Agent : Type}.
Implicit Types (r : MemoryRegistry Agent).

(** ** Histories *)

Inductive registry_step : relation (MemoryRegistry Agent) :=
| StepRegister fuel h ws factory r out r' :
    Register Agent fuel h ws factory r = Some (out, r') → registry_step r r'
| StepUpdate fuel h ws r out r' :
    Update Agent fuel h ws r = Some (out, r') → registry_step r r'
| StepDisable id r : registry_step r (Disable Agent id r).2
| StepEnable id r : registry_step r (Enable Agent id r).2.

Definition registered (r : MemoryRegistry Agent) : Prop := rtc registry_step (NewMemory Agent) r.

(** ** The invariant *)

Record registry_inv r : Prop := {
  inv_row id w : byID _ r !! id = Some w →
    WorkspaceID w = id ∧ id ≠ "" ∧ byAlias _ r !! Alias w = Some id ∧
    is_Some (factories _ r !! id) ∧ (IsDefaultEntry w = true ↔ defaultID _ r = id);
  inv_alias a id : byAlias _ r !! a = Some id → ∃ w, byID _ r !! id = Some w ∧ Alias w = a;
  inv_default : defaultID _ r ≠ "" → is_Some (byID _ r !! defaultID _ r) }.

(** Every row but [id]'s is in [m] as it was, its flag telling whether it is [d]. *)
Definition others r (id d : string) (m : gmap string (Workspace tree)) : Prop := ∀ id', id' ≠ id →
  option_Forall2 (λ w w', WorkspaceID w' = WorkspaceID w ∧ Alias w' = Alias w ∧
                          (IsDefaultEntry w' = true ↔ d = id')) (byID _ r !! id') (m !! id').

Lemma others_keep r id d :
  registry_inv r → (∀ id', id' ≠ id → id' ≠ "" → (defaultID _ r = id' ↔ d = id')) →
  others r id d (byID _ r).
Proof.
  intros Hr Hd id' Hne. destruct (byID _ r !! id') as [w|] eqn:E; constructor.
  destruct (inv_row r Hr id' w E) as (_ & Hid & _ & _ & Hdef). rewrite Hdef. split_and!; try done; by apply Hd.
Qed.

Lemma others_demote r id :
  registry_inv r → defaultID _ r ≠ "" → defaultID _ r ≠ id → others r id id (byID _ (demote _ r)).
Proof.
  intros Hr Hd Hne id' Hid'. destruct (inv_default r Hr Hd) as [w Hw].
  unfold demote. simpl. rewrite Hw. simpl. rewrite lookup_insert. case_decide as Hdec.
  - subst id'. rewrite Hw. constructor. simpl. split_and!; done.
  - destruct (byID _ r !! id') as [w'|] eqn:E; constructor. split_and!; try done.
    destruct (inv_row r Hr id' w' E) as (_ & _ & _ & _ & ->). split; congruence.
Qed.

(** Storing a row under its id and alias. *)
Lemma put_inv r (n : Workspace tree) m fs d :
  registry_inv r → WorkspaceID n ≠ "" → others r (WorkspaceID n) d m →
  (byID _ r !! WorkspaceID n = None ∧ byAlias _ r !! Alias n = None ∨
   byAlias _ r !! Alias n = Some (WorkspaceID n)) →
  (∀ id, is_Some (factories _ r !! id) → is_Some (fs !! id)) → is_Some (fs !! WorkspaceID n) →
  (IsDefaultEntry n = true ↔ d = WorkspaceID n) →
  (d ≠ "" → d = WorkspaceID n ∨ d = defaultID _ r) →
  registry_inv {| byID := <[WorkspaceID n := n]> m; byAlias := <[Alias n := WorkspaceID n]> (byAlias _ r);
                  factories := fs; defaultID := d |}.
Proof.
  intros Hr Hid Hm Halias Hfs Hfn Hdef Hd. split; simpl.
  - intros id w. rewrite lookup_insert. case_decide as E; intros Hw.
    + simplify_eq. split_and!; try done; [by rewrite lookup_insert_eq|apply Hdef..].
    + specialize (Hm id ltac:(congruence)). rewrite Hw in Hm. inversion Hm as [w0 w' (Hi & Ha & Hf) E0|]; subst.
      symmetry in E0. destruct (inv_row r Hr id w0 E0) as (Hi0 & Hne & Ha0 & Hf0 & _).
      do 2 (split; [congruence|]). split; [|split; [by apply Hfs|tauto]].
      rewrite Ha, lookup_insert. case_decide as Ea; [|done].
      rewrite Ea in Halias. destruct Halias as [[_ Hnone]|Hsome]; congruence.
  - intros a id. rewrite lookup_insert. case_decide as Ea; intros H.
    + simplify_eq. exists n. by rewrite lookup_insert_eq.
    + apply (inv_alias r Hr) in H as (w & Hw & Hwa). destruct (decide (id = WorkspaceID n)) as [->|Hne].
      * destruct (inv_row r Hr _ _ Hw) as (_ & _ & Hback & _).
        destruct Halias as [[Hnone _]|Hsome]; [congruence|].
        apply (inv_alias r Hr) in Hsome as (w1 & Hw1 & Ha1). rewrite Hw in Hw1. simplify_eq.
      * specialize (Hm id Hne). rewrite Hw in Hm. inversion Hm as [w0 w' (Hi & Ha & Hf) E0 E1|]; subst.
        exists w'. rewrite lookup_insert_ne by congruence. by split.
  - intros Hne. rewrite lookup_insert. case_decide as E; [eauto|].
    destruct (Hd Hne) as [->|Hdr]; [done|]. subst d. destruct (inv_default r Hr Hne) as [w Hw].
    specialize (Hm (defaultID _ r) ltac:(congruence)). rewrite Hw in Hm. inversion Hm; eauto.
Qed.

Lemma validated_id fuel h ws n : validateWorkspace fuel h ws = Some (Ok n) → WorkspaceID n ≠ "".
Proof.
  unfold validateWorkspace. repeat (case_decide || case_match); try done.
  destruct (hasRuntimeConfigCycle _ _ _) as [[]|]; simpl; try done.
  destruct (cloneRuntimeConfig _ _ _); simpl; [|done]. intros [= <-]. done.
Qed.

Lemma registry_Register_inv fuel h ws factory r out r' :
  Register Agent fuel h ws factory r = Some (out, r') → registry_inv r → registry_inv r'.
Proof.
  unfold Register. destruct factory as [factory|]; [|by intros [= _ <-]].
  destruct (validateWorkspace fuel h ws) as [[n|e]|] eqn:Hn; simpl; [|by intros [= _ <-]|done].
  apply validated_id in Hn. destruct (byID _ r !! WorkspaceID n) eqn:Hid; [by intros [= _ <-]|].
  destruct (byAlias _ r !! Alias n) eqn:Ha; [by intros [= _ <-]|]. intros [= _ <-] Hr.
  set (row := set_config n (copy (Config n))).
  change (WorkspaceID n) with (WorkspaceID row) in *. change (Alias n) with (Alias row) in *.
  change (IsDefaultEntry n) with (IsDefaultEntry row) in *.
  assert (defaultID _ r ≠ WorkspaceID row) as Hfresh.
  { intros E. destruct (inv_default r Hr) as [w Hw]; [congruence|]. congruence. }
  set (r0 := if decide _ then demote _ r else r).
  assert (byAlias _ r0 = byAlias _ r ∧ factories _ r0 = factories _ r ∧ defaultID _ r0 = defaultID _ r)
    as (-> & -> & ->) by (unfold r0; by case_decide).
  apply put_inv; try done.
  - unfold r0. destruct (IsDefaultEntry row); case_decide as Hd; try (by destruct Hd).
    + apply others_demote; tauto.
    + apply others_keep; [done|]. intros id' Hne Hne'.
      assert (defaultID _ r = "") as -> by (apply dec_stable; tauto). split; congruence.
    + by apply others_keep.
  - by left.
  - intros id [f Hf]. rewrite lookup_insert. case_decide; eauto.
  - by rewrite lookup_insert_eq.
  - destruct (IsDefaultEntry row); [done|]. split; [done|]. by intros.
  - destruct (IsDefaultEntry row); auto.
Qed.

Lemma registry_Update_inv fuel h ws r out r' :
  Update Agent fuel h ws r = Some (out, r') → registry_inv r → registry_inv r'.
Proof.
  unfold Update. destruct (validateWorkspace fuel h ws) as [[n|e]|] eqn:Hn; simpl; [|by intros [= _ <-]|done].
  apply validated_id in Hn. destruct (byID _ r !! WorkspaceID n) as [ex|] eqn:Hid; [|by intros [= _ <-]].
  case_decide as Halias; [by intros [= _ <-]|].
  set (row := set_config n (copy (Config n))).
  change (WorkspaceID n) with (WorkspaceID row) in *. change (Alias n) with (Alias row) in *.
  change (IsDefaultEntry n) with (IsDefaultEntry row) in *.
  intros Hout Hr. destruct (inv_row r Hr _ _ Hid) as (_ & _ & Hback & Hfac & _). rewrite <-Halias in Hback.
  assert (∀ m d, others r (WorkspaceID row) d m → (IsDefaultEntry row = true ↔ d = WorkspaceID row) →
    (d ≠ "" → d = WorkspaceID row ∨ d = defaultID _ r) →
    registry_inv {| byID := <[WorkspaceID row := row]> m; byAlias := byAlias _ r;
                    factories := factories _ r; defaultID := d |}) as Hput.
  { intros m d Hm Hd Hd'. rewrite <-(insert_id (byAlias _ r) _ _ Hback). apply put_inv; try done. by right. }
  destruct (IsDefaultEntry row) eqn:Hdef.
  - case_decide as Hd; simplify_eq.
    + apply Hput; [apply others_demote; tauto|done|by left].
    + apply Hput; [|done|by left]. apply others_keep; [done|]. intros id' Hne Hne'.
      destruct (decide (defaultID _ r = "")) as [->|Hdr]; [split; congruence|].
      assert (defaultID _ r = WorkspaceID row) as -> by (apply dec_stable; tauto). done.
  - rewrite decide_False in Hout by (by intros []). case_decide as Hd; simplify_eq.
    + apply Hput; [|split; [done|intros E; by rewrite <-E in Hn]|done].
      apply others_keep; [done|]. intros id' Hne Hne'. rewrite Hd. split; congruence.
    + apply Hput; [by apply others_keep| |auto]. split; [done|]. by intros.
Qed.

Lemma registry_switch_inv what on id r : registry_inv r → registry_inv (switch Agent what on id r).2.
Proof.
  intros Hr. unfold switch. destruct (byID _ r !! _) as [w|] eqn:Hw; [|done]. case_decide; [done|].
  simpl. destruct (inv_row r Hr _ _ Hw) as (Hid & Hne & Hback & Hfac & Hdef). unfold set_byID.
  rewrite <-(insert_id (byAlias _ r) _ _ Hback). rewrite <-Hid at 1 2.
  change (WorkspaceID w) with (WorkspaceID (set_enabled w on)) at 1 2.
  change (Alias w) with (Alias (set_enabled w on)).
  apply put_inv; try done; simpl; rewrite ?Hid; try done.
  - apply others_keep; done.
  - by right.
  - auto.
Qed.

Lemma registered_inv r : registered r → registry_inv r.
Proof.
  apply (rtc_ind_r registry_inv).
  - split; simpl; intros; simplify_map_eq; done.
  - intros y z _ Hstep Hy. destruct Hstep; [by eapply registry_Register_inv|by eapply registry_Update_inv|by apply registry_switch_inv..].
Qed.

(** ** Copies of copies *)

Lemma copy_list (ts : list tree) : Forall (λ t, copy t = t) ts → copy <$> ts = ts.
Proof. induction 1 as [|t ts Ht _ IH]; [done|]. by rewrite fmap_cons, Ht, IH. Qed.

Fixpoint copy_id (t : tree) : copy t = t.
Proof.
  assert (∀ ts, Forall (λ t, copy t = t) ts) as Hts
    by (fix IHl 1; intros [|u ts]; constructor; [apply copy_id|apply IHl]).
  destruct t as [s| |t|typ t|typ kvs|typ ts|ts|ts|v]; simpl.
  - done.
  - done.
  - by rewrite copy_id.
  - by rewrite copy_id.
  - f_equal. clear Hts. revert kvs. fix IHl 1. intros [|[k u] kvs]; [done|].
    rewrite fmap_cons. simpl. by rewrite copy_id, IHl.
  - by rewrite copy_list.
  - by rewrite copy_list.
  - by rewrite copy_list.
  - done.
Qed.

Lemma cloneWorkspace_id (w : Workspace tree) : cloneWorkspace w = w.
Proof. destruct w. unfold cloneWorkspace, set_config. simpl. by rewrite copy_id. Qed.

(** ** The listing *)

Lemma listing_elem r w : w ∈ List_ Agent r ↔ ∃ id, byID _ r !! id = Some w.
Proof.
  unfold List_. rewrite merge_sort_Permutation. rewrite (list_fmap_ext _ id), list_fmap_id
    by (intros; apply cloneWorkspace_id).
  rewrite list_elem_of_fmap. split.
  - intros ([id w'] & -> & Hin%elem_of_map_to_list). by exists id.
  - intros [id Hid]. exists (id, w). split; [done|]. by apply elem_of_map_to_list.
Qed.

Lemma listing_nodup r : registry_inv r → NoDup (List_ Agent r).
Proof.
  intros Hr. unfold List_. rewrite merge_sort_Permutation. rewrite (list_fmap_ext _ id), list_fmap_id
    by (intros; apply cloneWorkspace_id).
  apply NoDup_fmap_2_strong; [|apply NoDup_map_to_list].
  intros [i v] [j w] Hi%elem_of_map_to_list Hj%elem_of_map_to_list. simpl. intros ->.
  f_equal. apply (inv_row r Hr) in Hi as [<- _], Hj as [<- _]. done.
Qed.

#[local] Instance alias_le_total : Total alias_le.
Proof.
  intros a b. unfold alias_le. rewrite (strings_Compare_antisym (Alias a)).
  destruct (strings_Compare_range (Alias a) (Alias b)) as [->|[->| ->]]; lia.
Qed.

#[local] Instance alias_le_trans : Transitive alias_le.
Proof. intros a b c. unfold alias_le. rewrite !strings_Compare_le. apply String.le_po. Qed.

(** Two rows of the listing with one alias, id or default flag are one. *)
Lemma listing_alias_inj r v w :
  registry_inv r → v ∈ List_ Agent r → w ∈ List_ Agent r → Alias v = Alias w → v = w.
Proof.
  intros Hr [i Hi]%listing_elem [j Hj]%listing_elem Ha.
  destruct (inv_row r Hr _ _ Hi) as (_ & _ & Bi & _), (inv_row r Hr _ _ Hj) as (_ & _ & Bj & _). congruence.
Qed.

Lemma listing_sorted r :
  registry_inv r → StronglySorted (λ v w, strings_Compare (Alias v) (Alias w) < 0)%Z (List_ Agent r).
Proof.
  intros Hr. apply (StronglySorted_strict alias_le).
  - apply (StronglySorted_merge_sort alias_le).
  - by apply listing_nodup.
  - intros v w Hv Hw Hle Hne. unfold alias_le in Hle.
    destruct (decide (strings_Compare (Alias v) (Alias w) = 0)%Z) as [E%strings_Compare_eq|]; [|lia].
    destruct Hne. by eapply listing_alias_inj.
Qed.

(** ** Lookups as searches *)

Definition search (P : Workspace tree → Prop) `{∀ w, Decision (P w)} r : option (Workspace tree) :=
  head (filter P (List_ Agent r)).

Lemma search_unique (P : Workspace tree → Prop) `{∀ w, Decision (P w)} r w :
  w ∈ List_ Agent r → P w → (∀ v, v ∈ List_ Agent r → P v → v = w) → search P r = Some w.
Proof.
  unfold search. intros Hw HP Huniq.
  destruct (filter P (List_ Agent r)) as [|v l] eqn:E.
  - assert (w ∈ filter P (List_ Agent r)) as Hin by (by apply list_elem_of_filter).
    rewrite E in Hin. by apply elem_of_nil in Hin.
  - assert (v ∈ filter P (List_ Agent r)) as [HPv Hv]%list_elem_of_filter by (rewrite E; by left).
    simpl. f_equal. by apply Huniq.
Qed.

Lemma search_none (P : Workspace tree → Prop) `{∀ w, Decision (P w)} r :
  (∀ v, v ∈ List_ Agent r → ¬ P v) → search P r = None.
Proof.
  intros Hnone. unfold search. destruct (filter P (List_ Agent r)) as [|v l] eqn:E; [done|].
  assert (v ∈ filter P (List_ Agent r)) as [HPv Hv]%list_elem_of_filter by (rewrite E; by left).
  by destruct (Hnone v).
Qed.

(** The answer to a lookup that found [found] in the listing: an error that is
    [missing] if it found nothing, that the workspace is disabled if it is, and else
    the workspace with its factory. *)
Definition routes r (found : option (Workspace tree)) (missing : error)
    (answer : result (Workspace tree * AgentFactory Agent)) : Prop :=
  match found with
  | None => ∃ e, answer = Err e ∧ errors_Is e missing = true
  | Some w =>
    if Enabled w then ∃ f, factories _ r !! WorkspaceID w = Some f ∧ answer = Ok (w, f)
    else ∃ e, answer = Err e ∧ errors_Is e ErrWorkspaceDisabled = true
  end.

Lemma locked_routes r id w missing :
  registry_inv r → byID _ r !! id = Some w → routes r (Some w) missing (lookupByIDLocked Agent id r).
Proof.
  intros Hr Hw. destruct (inv_row r Hr _ _ Hw) as (Hid & _ & _ & [f Hf] & _).
  unfold routes, lookupByIDLocked. rewrite Hw. destruct (Enabled w); simpl.
  - exists f. rewrite Hf, Hid, Hf, cloneWorkspace_id. done.
  - eexists. split; [done|]. by rewrite Is_wrap.
Qed.

Lemma missing_routes r pre e post missing :
  errors_Is e missing = true → routes r None missing (Err (Errorf_w pre e post)).
Proof. intros He. eexists. split; [done|]. by rewrite Is_wrap. Qed.

(** C27. Routing is a search in the catalog. In every state the registry's methods can
    reach, the listing has each registered workspace once, strictly ordered by alias,
    and at most one default; a lookup by alias, by id or for the default answers with
    the workspace of the listing that matches and the factory stored for it,
    refuses a disabled one, and reports the documented error when nothing matches. *)
Theorem routing_is_search r :
  registered r →
  StronglySorted (λ v w, strings_Compare (Alias v) (Alias w) < 0)%Z (List_ Agent r) ∧
  (∀ alias, routes r (search (λ w, Alias w = strings_TrimSpace alias) r) ErrAliasNotFound
                   (LookupByAlias Agent alias r)) ∧
  (∀ id, routes r (search (λ w, WorkspaceID w = strings_TrimSpace id) r) ErrWorkspaceNotFound
                (LookupByID Agent id r)) ∧
  routes r (search (λ w, IsDefaultEntry w = true) r) ErrNoDefaultWorkspace (Default Agent r) ∧
  (∀ v w, v ∈ List_ Agent r → w ∈ List_ Agent r → IsDefaultEntry v = true → IsDefaultEntry w = true → v = w).
Proof.
  intros Hr%registered_inv.
  assert (∀ v id, byID _ r !! id = Some v → IsDefaultEntry v = true → id = defaultID _ r) as Hdef.
  { intros v id Hv Hd. destruct (inv_row r Hr _ _ Hv) as (_ & _ & _ & _ & Hiff). symmetry. by apply Hiff. }
  split_and!.
  - by apply listing_sorted.
  - intros alias. unfold LookupByAlias. destruct (byAlias _ r !! _) as [id|] eqn:Ha.
    + destruct (inv_alias r Hr _ _ Ha) as (w & Hw & Hwa).
      rewrite (search_unique _ _ w); [by apply locked_routes|by apply listing_elem; eauto|done|].
      intros v Hv Hva. eapply listing_alias_inj; [done..|by apply listing_elem; eauto|congruence].
    + rewrite search_none; [by apply missing_routes|]. intros v [id Hv]%listing_elem Hva.
      destruct (inv_row r Hr _ _ Hv) as (_ & _ & Hback & _). congruence.
  - intros id. unfold LookupByID. destruct (byID _ r !! strings_TrimSpace id) as [w|] eqn:Hw.
    + destruct (inv_row r Hr _ _ Hw) as (Hid & _).
      rewrite (search_unique _ _ w); [by apply locked_routes|by apply listing_elem; eauto|done|].
      intros v [j Hv]%listing_elem Hva. destruct (inv_row r Hr _ _ Hv) as (Hj & _). congruence.
    + unfold lookupByIDLocked. rewrite Hw. rewrite search_none; [by apply missing_routes|].
      intros v [j Hv]%listing_elem Hva. destruct (inv_row r Hr _ _ Hv) as (Hj & _). congruence.
  - unfold Default. case_decide as Hd.
    + rewrite search_none; [by eexists|]. intros v [j Hv]%listing_elem Hva.
      destruct (inv_row r Hr _ _ Hv) as (_ & Hne & _). destruct Hne. rewrite (Hdef _ _ Hv Hva). done.
    + destruct (inv_default r Hr Hd) as [w Hw]. destruct (inv_row r Hr _ _ Hw) as (_ & _ & _ & _ & Hiff).
      rewrite (search_unique _ _ w); [by apply locked_routes|by apply listing_elem; eauto|by apply Hiff|].
      intros v [j Hv]%listing_elem Hva. rewrite (Hdef _ _ Hv Hva) in Hv. congruence.
  - intros v w [i Hv]%listing_elem [j Hw]%listing_elem Hdv Hdw.
    rewrite (Hdef _ _ Hv Hdv) in Hv. rewrite (Hdef _ _ Hw Hdw) in Hw. congruence.
Qed.
End routing.

(** A registry of two workspaces, the second the default, the first disabled. *)
Definition sample_workspace (id alias : string) (isDefault : bool) : Workspace rval := {|
  WorkspaceID := id; Alias := alias; RuntimeType := "claude"; RuntimeKind := RuntimeKindResumableCLI;
  Description := ""; Enabled := true; IsDefaultEntry := isDefault; Config := RNil |}.

Definition empty_heap : heap := {| cells := ∅; maps := ∅; arrays := ∅ |}.
Definition sample_factory : AgentFactory nat := λ _, (Some 7, None).

Definition add_sample (id alias : string) (isDefault : bool) (r : MemoryRegistry nat) : MemoryRegistry nat :=
  default r (snd <$> Register nat 5 empty_heap (sample_workspace id alias isDefault) (Some sample_factory) r).

Definition sample_registry : MemoryRegistry nat :=
  (Disable nat "w1" (add_sample "w2" " beta" true (add_sample " w1" "alpha" true (NewMemory nat)))).2.

Lemma sample_registered : registered sample_registry.
Proof.
  unfold sample_registry. eapply rtc_r; [|apply StepDisable].
  assert (∀ r id alias b, is_Some (Register nat 5 empty_heap (sample_workspace id alias b) (Some sample_factory) r) →
    registry_step r (add_sample id alias b r)) as Hstep.
  { intros r id alias b [[out r'] E]. unfold add_sample. rewrite E. by eapply StepRegister. }
  eapply rtc_r; [eapply rtc_once|]; apply Hstep; vm_compute; eauto.
Qed.

Lemma routing_is_search_witness :
  (Alias <$> List_ nat sample_registry = ["alpha"; "beta"] ∧ Enabled <$> List_ nat sample_registry = [false; true]) ∧
  (∀ alias, routes sample_registry (search (λ w, Alias w = strings_TrimSpace alias) sample_registry)
     ErrAliasNotFound (LookupByAlias nat alias sample_registry)).
Proof.
  split; [vm_compute; by split|].
  destruct (routing_is_search sample_registry sample_registered) as (_ & Halias & _). exact Halias.
Defined.
End Routing.
