(* ===== verification/GoFilepath.v ===== *)
(** * Path functions of Go's path and path/filepath, on Unix

    [Dir], [Base], [Join] and [Rel], and what [Clean] computes: [walk] follows the
    elements of a path down and up a stack of directory names, and a cleaned path
    is the stack it ends with ([Clean_walk]), or starts with [..] when the walk leaves
    the directory it began in ([Clean_escapes]). *)

From S2P Require Import Prelude GoString GoPath.
From Stdlib Require Import Ascii.
From stdpp Require Import options.

Definition filepath_IsAbs (p : string) : bool := strings_HasPrefix p "/".

(** The text up to and including the last slash, and the text after it. *)
Fixpoint dir_part (s : string) : string :=
  match s with
  | EmptyString => ""
  | String c s' => if has_byte slash s then String c (dir_part s') else ""
  end.

Fixpoint base_part (s : string) : string :=
  match s with
  | EmptyString => ""
  | String c s' => if has_byte slash s then base_part s' else s
  end.

Fixpoint trim_slashes (s : string) : string :=
  match s with
  | EmptyString => ""
  | String c s' =>
    let r := trim_slashes s' in
    if decide (r = "" ∧ c = slash) then "" else String c r
  end.

Definition filepath_Dir (p : string) : string := path_Clean (dir_part p).

Definition filepath_Base (p : string) : string :=
  if decide (p = "") then "."
  else let b := base_part (trim_slashes p) in if decide (b = "") then "/" else b.

(** [path.Join] and [filepath.Join]: empty elements are left out. *)
Definition path_Join (elems : list string) : string :=
  match filter (λ e, e ≠ "") elems with
  | [] => ""
  | l => path_Clean (strings_Join l "/")
  end.

Definition elements (p : string) : list string := filter (λ s, s ≠ "" ∧ s ≠ ".") (strings_Split slash p).

Fixpoint drop_common (a b : list string) : list string * list string :=
  match a, b with
  | x :: a', y :: b' => if decide (x = y) then drop_common a' b' else (a, b)
  | _, _ => (a, b)
  end.

(** [filepath.Rel]; [None] is its error: one path is absolute and the other is not, or
    the way up from the base is not known. *)
Definition filepath_Rel (basepath targpath : string) : option string :=
  let base := path_Clean basepath in
  let targ := path_Clean targpath in
  if decide (targ = base) then Some "."
  else if decide (filepath_IsAbs base ≠ filepath_IsAbs targ) then None
  else
    let '(up, down) := drop_common (elements base) (elements targ) in
    if decide (head up = Some "..") then None
    else Some (strings_Join (replicate (length up) ".." ++ down) "/").

Example rel_ex1 : filepath_Rel "/a/b" "/a/c/d" = Some "../c/d".
Proof. reflexivity. Qed.
Example rel_ex2 : filepath_Rel "/a" "/a/b/" = Some "b" ∧ filepath_Rel "/" "/a" = Some "a".
Proof. split; reflexivity. Qed.
Example rel_ex3 : filepath_Rel "../a" "b" = None ∧ filepath_Rel "a/b" "." = Some "../..".
Proof. split; reflexivity. Qed.
Example dir_ex1 : filepath_Dir "/a/b" = "/a" ∧ filepath_Dir "a" = "." ∧ filepath_Dir "/a" = "/".
Proof. split_and!; reflexivity. Qed.
Example base_ex1 : filepath_Base "/a/b//" = "b" ∧ filepath_Base "//" = "/" ∧ filepath_Base "a" = "a".
Proof. split_and!; reflexivity. Qed.

(** ** Walking a path *)

(** The stack of names after following the elements, innermost first; [None] once
    the walk goes above its start. *)
Fixpoint walk (stack segs : list string) : option (list string) :=
  match segs with
  | [] => Some stack
  | s :: segs' =>
    if decide (s = "" ∨ s = ".") then walk stack segs'
    else if decide (s = "..") then
      match stack with [] => None | _ :: stack' => walk stack' segs' end
    else walk (s :: stack) segs'
  end.

Definition no_slash (s : string) : Prop := has_byte slash s = false.

(** A directory name: no slash, not empty and not a dot. *)
Definition name (s : string) : Prop := plain_seg s ∧ no_slash s.

Lemma Split_no_slash p : Forall no_slash (strings_Split slash p).
Proof.
  unfold no_slash. induction p as [|c p IH]; simpl; [by repeat constructor|].
  case_decide as Hc; [by constructor|]. destruct (strings_Split slash p) as [|hd tl].
  - constructor; [|done]. simpl. by rewrite bool_decide_false.
  - apply Forall_cons in IH as [Hhd Htl]. constructor; [|done]. simpl. by rewrite bool_decide_false.
Qed.

Lemma Split_one s : no_slash s → strings_Split slash s = [s].
Proof.
  unfold no_slash. induction s as [|c s IH]; simpl; [done|].
  intros [Hc%bool_decide_eq_false Hs]%orb_false_iff. rewrite decide_False by done. by rewrite IH.
Qed.

Lemma Split_Join segs :
  segs ≠ [] → Forall no_slash segs → strings_Split slash (strings_Join segs "/") = segs.
Proof.
  intros Hne Hs. induction Hs as [|s segs Hs _ IH]; [done|].
  destruct segs as [|s2 segs]; [by apply Split_one|].
  rewrite strings_Join_cons by done. change ("/" +:+ ?x) with (String slash x).
  rewrite strings_Split_app, Split_one by done. by rewrite IH.
Qed.

Lemma walk_names stack segs stack' :
  Forall name stack → Forall no_slash segs → walk stack segs = Some stack' → Forall name stack'.
Proof.
  intros Hst Hs. revert stack Hst. induction Hs as [|s segs Hs _ IH]; intros stack Hst; simpl.
  - by intros [= <-].
  - case_decide as H1; [by apply IH|]. case_decide as H2.
    + destruct stack as [|x stack]; [done|]. apply Forall_cons in Hst as [_ Hst]. by apply IH.
    + apply IH. constructor; [|done]. split; [|done]. unfold plain_seg. tauto.
Qed.

Lemma clean_step_walk segs stack stack' :
  Forall name stack → Forall no_slash segs → walk stack segs = Some stack' →
  fold_left (clean_step false) segs stack = stack'.
Proof.
  intros Hst Hs. revert stack Hst. induction Hs as [|s segs Hs _ IH]; intros stack Hst; simpl.
  - by intros [= ->].
  - unfold clean_step at 2. case_decide as H1; [by apply IH|]. case_decide as H2.
    + destruct stack as [|x stack]; [done|]. apply Forall_cons in Hst as [[(_ & _ & Hx) _] Hst].
      rewrite decide_False by done. by apply IH.
    + apply IH. constructor; [|done]. split; [|done]. unfold plain_seg. tauto.
Qed.

(** Going up at the root stays there. *)
Fixpoint walk_root (stack segs : list string) : list string :=
  match segs with
  | [] => stack
  | s :: segs' =>
    if decide (s = "" ∨ s = ".") then walk_root stack segs'
    else if decide (s = "..") then walk_root (tail stack) segs'
    else walk_root (s :: stack) segs'
  end.

Lemma clean_step_root segs stack :
  Forall name stack → Forall no_slash segs →
  fold_left (clean_step true) segs stack = walk_root stack segs ∧ Forall name (walk_root stack segs).
Proof.
  intros Hst Hs. revert stack Hst. induction Hs as [|s segs Hs _ IH]; intros stack Hst; simpl; [done|].
  unfold clean_step at 2. case_decide as H1; [by apply IH|]. case_decide as H2.
  - destruct stack as [|x stack]; [by apply IH|]. apply Forall_cons in Hst as [[(_ & _ & Hx) _] Hst].
    rewrite decide_False by done. by apply IH.
  - apply IH. constructor; [|done]. split; [|done]. unfold plain_seg. tauto.
Qed.

(** Once a walk has left its start, the first element stays [..]. *)
Lemma clean_step_bottom segs out :
  last out = Some ".." → last (fold_left (clean_step false) segs out) = Some "..".
Proof.
  revert out. induction segs as [|s segs IH]; intros out Hout; [done|]. simpl. apply IH.
  unfold clean_step. case_decide; [done|]. case_decide.
  - destruct out as [|x out]; [done|]. case_decide as Hx; [by rewrite last_cons_cons|].
    destruct out; [simpl in Hout; congruence|]. by rewrite last_cons_cons in Hout.
  - destruct out; [done|]. by rewrite last_cons_cons.
Qed.

Lemma clean_step_escapes segs stack :
  Forall name stack → Forall no_slash segs → walk stack segs = None →
  last (fold_left (clean_step false) segs stack) = Some "..".
Proof.
  intros Hst Hs. revert stack Hst. induction Hs as [|s segs Hs _ IH]; intros stack Hst; simpl; [done|].
  unfold clean_step at 2. case_decide as H1; [by apply IH|]. case_decide as H2.
  - destruct stack as [|x stack].
    + intros _. subst s. by apply clean_step_bottom.
    + apply Forall_cons in Hst as [[(_ & _ & Hx) _] Hst]. rewrite decide_False by done. by apply IH.
  - apply IH. constructor; [|done]. split; [|done]. unfold plain_seg. tauto.
Qed.

Lemma Clean_walk p stack :
  filepath_IsAbs p = false → walk [] (strings_Split slash p) = Some stack →
  path_Clean p = match stack with [] => "." | _ => strings_Join (rev stack) "/" end.
Proof.
  unfold filepath_IsAbs, path_Clean. intros -> Hw.
  rewrite (clean_step_walk _ [] stack); [|done|apply Split_no_slash|done].
  destruct stack as [|s stack]; [done|]. destruct (rev (s :: stack)) eqn:E; [|done].
  apply (f_equal length) in E. by rewrite length_rev in E.
Qed.

Lemma Clean_escapes p :
  filepath_IsAbs p = false → walk [] (strings_Split slash p) = None →
  ∃ rest, path_Clean p = strings_Join (".." :: rest) "/".
Proof.
  unfold filepath_IsAbs, path_Clean. intros -> Hw.
  apply clean_step_escapes in Hw; [|done|apply Split_no_slash].
  apply last_Some in Hw as [l Hl]. rewrite Hl, rev_app_distr. simpl. by exists (rev l).
Qed.

Lemma Clean_abs p :
  filepath_IsAbs p = true →
  path_Clean p = "/" +:+ strings_Join (rev (walk_root [] (strings_Split slash p))) "/" ∧
  Forall name (walk_root [] (strings_Split slash p)).
Proof.
  unfold filepath_IsAbs, path_Clean. intros ->.
  destruct (clean_step_root (strings_Split slash p) []) as [-> Hn]; [done|apply Split_no_slash|].
  by split.
Qed.

(** ** Absolute clean paths as lists of names *)

Definition abs_path (segs : list string) : string := "/" +:+ strings_Join segs "/".

Lemma filter_names segs : Forall name segs → filter (λ s, s ≠ "" ∧ s ≠ ".") segs = segs.
Proof. intros H. apply filter_all. eapply Forall_impl; [exact H|]. intros s [(? & ? & ?) _]. done. Qed.

Lemma elements_abs segs : Forall name segs → elements (abs_path segs) = segs.
Proof.
  intros H. unfold elements, abs_path. change ("/" +:+ ?x) with (String slash x). simpl.
  rewrite filter_cons_False by tauto. destruct segs as [|s segs]; [done|].
  rewrite Split_Join; [by apply filter_names|done|]. eapply Forall_impl; [exact H|]. by intros x [].
Qed.

Lemma walk_root_names stack segs : Forall name segs → walk_root stack segs = rev segs ++ stack.
Proof.
  intros H. revert stack. induction H as [|s segs [(Hn & Hd & Hdd) _] _ IH]; intros stack; simpl; [done|].
  rewrite decide_False by tauto. rewrite decide_False by done. rewrite IH. by rewrite <-(assoc_L (++)).
Qed.

Lemma walk_root_skip stack segs : walk_root stack ("" :: segs) = walk_root stack segs.
Proof. done. Qed.

Lemma Clean_abs_path segs : Forall name segs → path_Clean (abs_path segs) = abs_path segs.
Proof.
  intros H. destruct (Clean_abs (abs_path segs)) as [-> _].
  { unfold filepath_IsAbs, abs_path. by destruct (strings_Join segs "/"). }
  unfold abs_path at 2. f_equal. unfold abs_path. change ("/" +:+ ?x) with (String slash x). simpl.
  destruct segs as [|s segs]; [done|].
  rewrite Split_Join; [|done|eapply Forall_impl; [exact H|by intros x []]].
  rewrite walk_root_names by done. by rewrite app_nil_r, rev_involutive.
Qed.

Lemma abs_path_inj a b : Forall name a → Forall name b → abs_path a = abs_path b → a = b.
Proof. intros Ha Hb E. by rewrite <-(elements_abs a Ha), E, elements_abs. Qed.

(** A clean absolute path. *)
Lemma Clean_abs_names p : filepath_IsAbs p = true → ∃ segs, Forall name segs ∧ path_Clean p = abs_path segs.
Proof.
  intros [-> H]%Clean_abs. eexists. split; [|done]. by apply Forall_rev.
Qed.

Lemma has_slash_app a b : has_byte slash (a +:+ String slash b) = true.
Proof.
  induction a as [|c a IH]; [done|]. rewrite append_cons. simpl. by rewrite IH, orb_true_r.
Qed.

Lemma dir_part_app a b : no_slash b → dir_part (a +:+ String slash b) = a +:+ "/".
Proof.
  intros Hb. induction a as [|c a IH].
  - rewrite append_nil_l. simpl. destruct b; [done|]. unfold no_slash in Hb. simpl in *. by rewrite Hb.
  - rewrite !append_cons. cbn [dir_part]. 
    replace (has_byte slash (String c (a +:+ String slash b))) with true; [by rewrite IH|].
    symmetry. apply (has_slash_app (String c a)).
Qed.

Lemma Join_snoc segs s :
  segs ≠ [] → strings_Join (segs ++ [s]) "/" = strings_Join segs "/" +:+ String slash s.
Proof.
  induction segs as [|x segs IH]; [done|]. intros _. destruct segs as [|y segs]; [done|].
  change ((x :: y :: segs) ++ [s]) with (x :: ((y :: segs) ++ [s])).
  rewrite (strings_Join_cons x) by (by destruct segs). rewrite IH by done.
  rewrite (strings_Join_cons x (y :: segs)) by done. by rewrite !append_assoc.
Qed.

Lemma walk_root_app stack a b : walk_root stack (a ++ b) = walk_root (walk_root stack a) b.
Proof.
  revert stack. induction a as [|s a IH]; intros stack; [done|]. simpl.
  repeat case_decide; apply IH.
Qed.

(** A trailing slash makes no difference. *)
Lemma Clean_trailing segs : Forall name segs → path_Clean (abs_path segs +:+ "/") = abs_path segs.
Proof.
  intros H. pose proof (Clean_abs_path segs H) as E.
  assert (filepath_IsAbs (abs_path segs) = true) as Habs
    by (unfold filepath_IsAbs, abs_path; by destruct (strings_Join segs "/")).
  destruct (Clean_abs _ Habs) as [E1 _]. rewrite E1 in E.
  destruct (Clean_abs (abs_path segs +:+ "/")) as [-> _].
  { unfold filepath_IsAbs, abs_path. by destruct (strings_Join segs "/"). }
  rewrite <-E at 2. do 3 f_equal. change "/" with (String slash "").
  rewrite strings_Split_app, walk_root_app. done.
Qed.

Lemma Dir_abs_path segs s : Forall name segs → name s → filepath_Dir (abs_path (segs ++ [s])) = abs_path segs.
Proof.
  intros Hsegs [_ Hs]. unfold filepath_Dir. destruct (decide (segs = [])) as [->|Hne].
  - change (abs_path ([] ++ [s])) with ("" +:+ String slash s). rewrite dir_part_app by done. done.
  - unfold abs_path at 1. rewrite Join_snoc by done. rewrite <-append_assoc, dir_part_app by done.
    by apply Clean_trailing.
Qed.

(** ** Relative paths between absolute ones *)

(** What the source's tests for [..] and the prefix [../] tell. *)
Definition goes_up (p : string) : bool := bool_decide (p = "..") || strings_HasPrefix p "../".

Lemma goes_up_dotdot rest : goes_up (strings_Join (".." :: rest) "/") = true.
Proof.
  unfold goes_up. destruct rest as [|x rest]; [done|]. rewrite strings_Join_cons by done.
  apply orb_true_iff. right. apply prefix_spec. by exists (strings_Join (x :: rest) "/").
Qed.

Lemma goes_up_name s rest : name s → Forall no_slash rest → goes_up (strings_Join (s :: rest) "/") = false.
Proof.
  intros [(Hne & Hd & Hdd) Hs] Hrest. unfold goes_up.
  assert (strings_Split slash (strings_Join (s :: rest) "/") = s :: rest) as E
    by (apply Split_Join; [done|by constructor]).
  apply orb_false_iff. split.
  - apply bool_decide_eq_false. intros Hx. rewrite Hx in E. simpl in E. simplify_eq.
  - apply not_true_iff_false. intros [t Ht]%prefix_spec. rewrite Ht in E.
    change ("../" +:+ t) with (".." +:+ String slash t) in E. rewrite strings_Split_app in E.
    simpl in E. simplify_eq.
Qed.

Lemma drop_common_prefix a c : drop_common a (a ++ c) = ([], c).
Proof. induction a as [|x a IH]; simpl; [by destruct c|]. by rewrite decide_True. Qed.

Lemma drop_common_other a b :
  ¬ a `prefix_of` b → ∃ x up down, drop_common a b = (x :: up, down) ∧ x ∈ a.
Proof.
  revert b. induction a as [|x a IH]; intros b Hp; [by destruct Hp; apply prefix_nil|].
  destruct b as [|y b]; simpl; [exists x, a, []; split; [done|by left]|].
  case_decide as E; [|exists x, a, (y :: b); split; [done|by left]].
  subst y. destruct (IH b) as (z & up & down & E & Hz); [intros Hpb; apply Hp; by apply prefix_cons|].
  exists z, up, down. split; [done|by right].
Qed.

(** From an absolute base, the way to a path goes up unless the path is below it. *)
Lemma Rel_goes_up base targ :
  Forall name base → Forall name targ →
  ∃ rel, filepath_Rel (abs_path base) (abs_path targ) = Some rel ∧
    (goes_up rel = false ↔ base `prefix_of` targ) .
Proof.
  intros Hb Ht. unfold filepath_Rel. rewrite !Clean_abs_path by done. case_decide as E.
  { apply abs_path_inj in E; [|done..]. subst. exists ".". done. }
  rewrite decide_False.
  2: { intros Hne. apply Hne. unfold filepath_IsAbs, abs_path.
       by destruct (strings_Join base "/"), (strings_Join targ "/"). }
  rewrite !elements_abs by done.
  destruct (decide (base `prefix_of` targ)) as [[c ->]|Hnp].
  - rewrite drop_common_prefix. simpl. eexists. split; [done|].
    destruct c as [|s c]; [by rewrite app_nil_r in E|].
    apply Forall_app in Ht as [_ [Hs Hc]%Forall_cons].
    rewrite goes_up_name; [|done|eapply Forall_impl; [exact Hc|by intros x []]].
    split; [|done]. intros _. by apply prefix_app_r.
  - destruct (drop_common_other base targ Hnp) as (x & up & down & -> & Hx). cbv beta iota.
    rewrite decide_False.
    2: { intros [= ->]. eapply Forall_forall in Hb; [|exact Hx]. by destruct Hb as [(_ & _ & ?) _]. }
    eexists. split; [done|].
    change (replicate (length (x :: up)) ".." ++ down) with (".." :: replicate (length up) ".." ++ down).
    by rewrite goes_up_dotdot.
Qed.

(** ** Clean relative paths as lists of names *)

Definition rel_path (segs : list string) : string :=
  match segs with [] => "." | _ => strings_Join segs "/" end.

Lemma names_no_slash segs : Forall name segs → Forall no_slash segs.
Proof. intros H. eapply Forall_impl; [exact H|]. by intros x []. Qed.

Lemma name_not_dot s : name s → s ≠ ".".
Proof. by intros [(_ & ? & _) _]. Qed.

Lemma rel_path_cons s segs : rel_path (s :: segs) = strings_Join (s :: segs) "/".
Proof. done. Qed.

Lemma Split_rel_path segs : segs ≠ [] → Forall name segs → strings_Split slash (rel_path segs) = segs.
Proof. intros Hne H. destruct segs; [done|]. by apply Split_Join, names_no_slash. Qed.

Lemma rel_path_inj a b : Forall name a → Forall name b → rel_path a = rel_path b → a = b.
Proof.
  intros Ha Hb E. destruct (decide (a = [])) as [->|Hna], (decide (b = [])) as [->|Hnb]; [done|..].
  - apply (f_equal (strings_Split slash)) in E. rewrite (Split_rel_path b) in E by done. simpl in E. subst b.
    apply Forall_cons in Hb as [Hb _]. by apply name_not_dot in Hb.
  - apply (f_equal (strings_Split slash)) in E. rewrite (Split_rel_path a) in E by done. simpl in E. subst a.
    apply Forall_cons in Ha as [Ha _]. by apply name_not_dot in Ha.
  - by rewrite <-(Split_rel_path a), E, Split_rel_path.
Qed.

Lemma rel_path_not_abs segs : Forall name segs → filepath_IsAbs (rel_path segs) = false.
Proof.
  intros H. destruct segs as [|s segs]; [done|]. apply not_true_iff_false. unfold filepath_IsAbs.
  intros [t Ht]%prefix_spec. assert (strings_Split slash (rel_path (s :: segs)) = s :: segs) as E by (by apply Split_rel_path).
  rewrite Ht in E. change ("/" +:+ t) with ("" +:+ String slash t) in E. rewrite strings_Split_app in E.
  simpl in E. simplify_eq. apply Forall_cons in H as [[(? & _) _] _]. done.
Qed.

Lemma walk_elements stack segs :
  Forall name (filter (λ s, s ≠ "" ∧ s ≠ ".") segs) →
  walk stack segs = Some (rev (filter (λ s, s ≠ "" ∧ s ≠ ".") segs) ++ stack).
Proof.
  revert stack. induction segs as [|s segs IH]; intros stack; [done|].
  destruct (decide (s ≠ "" ∧ s ≠ ".")) as [Hs|Hs].
  - rewrite filter_cons_True by done. intros [[(Hn & Hd & Hdd) _] H]%Forall_cons. cbn [walk].
    rewrite decide_False by tauto. rewrite decide_False by done. rewrite IH by done. simpl.
    by rewrite <-(assoc_L (++)).
  - rewrite filter_cons_False by done. intros H. cbn [walk]. rewrite decide_True; [by apply IH|].
    destruct (decide (s = "")), (decide (s = ".")); tauto.
Qed.

(** A relative path whose elements, but for empty ones and dots, are names. *)
Lemma Clean_rel p : filepath_IsAbs p = false → Forall name (elements p) → path_Clean p = rel_path (elements p).
Proof.
  intros Ha H. rewrite (Clean_walk p _ Ha (walk_elements [] _ H)). fold (elements p). rewrite app_nil_r.
  destruct (elements p) as [|s segs]; [done|]. pose proof (rev_involutive (s :: segs)) as E.
  destruct (rev (s :: segs)); [done|]. by rewrite E.
Qed.

Lemma elements_app a b : elements (a +:+ String slash b) = elements a ++ elements b.
Proof. unfold elements. by rewrite strings_Split_app, filter_app. Qed.

Lemma elements_rel segs : Forall name segs → elements (rel_path segs) = segs.
Proof.
  intros H. destruct segs as [|s segs]; [done|]. unfold elements. rewrite Split_rel_path by done.
  by apply filter_names.
Qed.

Lemma IsAbs_app a b : a ≠ "" → filepath_IsAbs (a +:+ b) = filepath_IsAbs a.
Proof. unfold filepath_IsAbs. destruct a as [|c a]; [done|]. intros _. rewrite append_cons. cbn.
  by destruct (a +:+ b), a. Qed.

Lemma rel_path_nonempty segs : Forall name segs → rel_path segs ≠ "".
Proof.
  intros H E. destruct segs as [|s segs]; [done|]. apply (f_equal (strings_Split slash)) in E.
  rewrite Split_rel_path in E by done. simpl in E. simplify_eq. apply Forall_cons in H as [[(? & _) _] _]. done.
Qed.

Lemma Join_rel_path segs t : Forall name segs → name t → path_Join [rel_path segs; t] = rel_path (segs ++ [t]).
Proof.
  intros H Ht. pose proof (rel_path_nonempty segs H) as Hne. pose proof Ht as [(Hn & _ & _) _].
  unfold path_Join. rewrite !filter_cons_True by done. cbn [strings_Join filter list_filter].
  change ("/" +:+ t) with (String slash t).
  assert (elements (rel_path segs +:+ String slash t) = segs ++ [t]) as E.
  { rewrite elements_app, elements_rel by done. f_equal. apply (elements_rel [t]). by constructor. }
  rewrite Clean_rel; rewrite ?E; [done| |].
  - rewrite IsAbs_app by done. by apply rel_path_not_abs.
  - apply Forall_app. split; [done|]. by constructor.
Qed.

Lemma Dir_rel_path segs s : Forall name segs → name s → filepath_Dir (rel_path (segs ++ [s])) = rel_path segs.
Proof.
  intros H [_ Hs]. unfold filepath_Dir. destruct (decide (segs = [])) as [->|Hne].
  - simpl. replace (dir_part s) with ""; [done|]. destruct s as [|c s]; [done|].
    unfold no_slash in Hs. cbn [dir_part]. by rewrite Hs.
  - assert (rel_path (segs ++ [s]) = rel_path segs +:+ String slash s) as ->.
    { destruct segs; [done|]. by apply Join_snoc. }
    rewrite dir_part_app by done. change "/" with (String slash "").
    assert (elements (rel_path segs +:+ String slash "") = segs) as E.
    { rewrite elements_app, elements_rel by done. apply app_nil_r. }
    rewrite Clean_rel; rewrite ?E; [done| |done].
    rewrite IsAbs_app by (by apply rel_path_nonempty). by apply rel_path_not_abs.
Qed.

Lemma trim_slashes_last a s : no_slash s → s ≠ "" → trim_slashes (a +:+ s) = a +:+ s.
Proof.
  intros Hs Hne. assert (trim_slashes s = s ∧ trim_slashes s ≠ "") as [E _].
  { revert Hne Hs. induction s as [|c s IH]; [done|]. intros _ Hs. unfold no_slash in Hs. simpl in *.
    apply orb_false_iff in Hs as [Hc%bool_decide_eq_false Hs]. rewrite decide_False by (by intros [_ ->]).
    split; [|done]. destruct s; [done|]. f_equal. by apply IH. }
  induction a as [|c a IH]; [done|]. rewrite append_cons. simpl. rewrite IH.
  rewrite decide_False; [done|]. intros [Hx _]. destruct a; [|done]. by rewrite append_nil_l in Hx.
Qed.

Lemma base_part_no_slash s : no_slash s → base_part s = s.
Proof. unfold no_slash. destruct s as [|c s]; [done|]. cbn [base_part]. by intros ->. Qed.

Lemma base_part_app a s : no_slash s → base_part (a +:+ String slash s) = s.
Proof.
  intros Hs. induction a as [|c a IH].
  - rewrite append_nil_l. simpl. by apply base_part_no_slash.
  - rewrite append_cons. simpl. by rewrite has_slash_app, orb_true_r.
Qed.

Lemma Base_rel_path segs s : Forall name segs → name s → filepath_Base (rel_path (segs ++ [s])) = s.
Proof.
  intros H Hs. pose proof Hs as [(Hn & _ & _) Hns]. unfold filepath_Base.
  rewrite decide_False by (apply rel_path_nonempty, Forall_app; split; [done|by constructor]).
  assert (base_part (trim_slashes (rel_path (segs ++ [s]))) = s) as ->; [|by rewrite decide_False].
  destruct (decide (segs = [])) as [->|Hne].
  - simpl. pose proof (trim_slashes_last "" s Hns Hn) as E. rewrite append_nil_l in E. rewrite E.
    by apply base_part_no_slash.
  - assert (rel_path (segs ++ [s]) = (rel_path segs +:+ "/") +:+ s) as E.
    { rewrite append_assoc. destruct segs; [done|]. by apply Join_snoc. }
    rewrite E, trim_slashes_last by done. rewrite append_assoc. by apply base_part_app.
Qed.

(** Joining two relative paths. *)
Lemma Join_rel_paths a b : Forall name a → Forall name b → path_Join [rel_path a; rel_path b] = rel_path (a ++ b).
Proof.
  intros Ha Hb. pose proof (rel_path_nonempty a Ha) as Hna. pose proof (rel_path_nonempty b Hb) as Hnb.
  unfold path_Join. rewrite !filter_cons_True by done. cbn [strings_Join filter list_filter].
  change ("/" +:+ rel_path b) with (String slash (rel_path b)).
  assert (elements (rel_path a +:+ String slash (rel_path b)) = a ++ b) as E
    by (by rewrite elements_app, !elements_rel).
  rewrite Clean_rel; rewrite ?E; [done| |by apply Forall_app].
  rewrite IsAbs_app by done. by apply rel_path_not_abs.
Qed.

(** A clean path without [..] that is not absolute is a list of names. *)
Lemma Clean_names p :
  filepath_IsAbs (path_Clean p) = false → ".." ∉ strings_Split slash (path_Clean p) →
  ∃ segs, Forall name segs ∧ path_Clean p = rel_path segs.
Proof.
  intros Ha Hdd. destruct (filepath_IsAbs p) eqn:Hp.
  { destruct (Clean_abs p Hp) as [E _]. rewrite E in Ha. unfold filepath_IsAbs in Ha.
    by destruct (strings_Join _ "/"). }
  destruct (walk [] (strings_Split slash p)) as [stack|] eqn:Hw.
  - exists (rev stack). assert (Forall name stack) as Hst by (eapply walk_names; [|apply Split_no_slash|exact Hw]; done).
    split; [by apply Forall_rev|]. rewrite (Clean_walk p stack Hp Hw). destruct stack as [|x stack]; [done|].
    destruct (rev (x :: stack)) eqn:E; [|done]. apply (f_equal length) in E. by rewrite length_rev in E.
  - destruct (Clean_escapes p Hp Hw) as [rest E]. destruct Hdd. rewrite E. destruct rest as [|r rest]; [by left|].
    rewrite strings_Join_cons by done. change ("/" +:+ ?x) with (String slash x). rewrite strings_Split_app. by left.
Qed.
