(* ===== verification/GoNet.v ===== *)
(** * Addresses of Go's net package

    [net.ParseIP] (with the parsers of net/netip behind it), [IP.IsLoopback] and
    [net.JoinHostPort]. An address is its 16 bytes; IPv4 addresses are mapped. *)

From S2P Require Import Prelude GoString GoPath.
From Stdlib Require Import Ascii.
From stdpp Require Import options.

(** [parseIPv4Fields]: four decimal numbers up to 255 without leading zeros. *)
Definition ipv4_field (s : string) : option nat :=
  if negb (all_chars is_digit s) || bool_decide (s = "") then None
  else if strings_HasPrefix s "0" && bool_decide (s ≠ "0") then None
  else if decide (3 < String.length s) then None
  else
    let n := fold_left (λ n c, 10 * n + (nat_of_ascii c - 48)) (String.list_ascii_of_string s) 0 in
    if decide (n ≤ 255) then Some n else None.

Definition parse_ipv4_fields (s : string) : option (list nat) :=
  let parts := strings_Split "." s in
  if decide (length parts = 4) then mapM ipv4_field parts else None.

Definition hex_value (c : ascii) : option nat :=
  let n := nat_of_ascii c in
  if is_digit c then Some (n - 48)
  else if in_range "a" "f" c then Some (n - 87)
  else if in_range "A" "F" c then Some (n - 55)
  else None.

(** The hexadecimal digits a text starts with, and the rest. *)
Fixpoint hex_span (s : string) : list nat * string :=
  match s with
  | EmptyString => ([], "")
  | String c s' =>
    match hex_value c with
    | Some d => let '(ds, rest) := hex_span s' in (d :: ds, rest)
    | None => ([], s)
    end
  end.

(** The loop of [parseIPv6]: the bytes so far, where the ellipsis is, and what is left
    of the text when it ends; [n] is the number of groups it may still read. *)
Fixpoint ipv6_groups (n : nat) (s : string) (ip : list nat) (ellipsis : option nat)
    : option (list nat * option nat * string) :=
  match n with
  | 0 => Some (ip, ellipsis, s)
  | S n' =>
    let '(ds, rest) := hex_span s in
    if decide (length ds = 0 ∨ 4 < length ds) then None else
    let acc := fold_left (λ a d, 16 * a + d) ds 0 in
    match rest with
    | String "." _ =>
      if decide (ellipsis = None ∧ length ip ≠ 12) then None
      else if decide (16 < length ip + 4) then None
      else
        fields ← parse_ipv4_fields s;
        Some (ip ++ fields, ellipsis, "")
    | _ =>
      let ip := ip ++ [acc / 256; acc mod 256] in
      match rest with
      | EmptyString => Some (ip, ellipsis, "")
      | String ":" EmptyString => None
      | String ":" (String ":" rest') =>
        match ellipsis with
        | Some _ => None
        | None =>
          if decide (rest' = "") then Some (ip, Some (length ip), "")
          else ipv6_groups n' rest' ip (Some (length ip))
        end
      | String ":" rest' => ipv6_groups n' rest' ip ellipsis
      | _ => None
      end
    end
  end.

Definition parse_ipv6 (s : string) : option (list nat) :=
  let '(s, ellipsis) := if strings_HasPrefix s "::" then (string_drop 2 s, Some 0) else (s, None) in
  if decide (ellipsis = Some 0 ∧ s = "") then Some (replicate 16 0) else
  '(ip, ellipsis, rest) ← ipv6_groups 8 s [] ellipsis;
  if decide (rest ≠ "") then None
  else if decide (length ip < 16) then
    e ← ellipsis;
    Some (take e ip ++ replicate (16 - length ip) 0 ++ drop e ip)
  else match ellipsis with Some _ => None | None => Some ip end.

(** The first dot or colon decides; a zone is never accepted. *)
Fixpoint address_kind (s : string) : option ascii :=
  match s with
  | EmptyString => None
  | String c s' => if decide (c = "."%char ∨ c = ":"%char) then Some c else address_kind s'
  end.

Definition net_ParseIP (s : string) : option (list nat) :=
  if has_byte "%" s then None
  else match address_kind s with
  | Some "."%char => (λ f, replicate 10 0 ++ [255; 255] ++ f) <$> parse_ipv4_fields s
  | Some _ => parse_ipv6 s
  | None => None
  end.

Definition ip_IsLoopback (ip : list nat) : bool :=
  if decide (take 12 ip = replicate 10 0 ++ [255; 255]) then bool_decide (ip !! 12 = Some 127)
  else bool_decide (ip = replicate 15 0 ++ [1]).

Definition net_JoinHostPort (host port : string) : string :=
  if has_byte ":" host then "[" +:+ host +:+ "]:" +:+ port else host +:+ ":" +:+ port.

Example parse_ip_ex1 : ip_IsLoopback <$> net_ParseIP "127.8.0.1" = Some true.
Proof. reflexivity. Qed.
Example parse_ip_ex2 : ip_IsLoopback <$> net_ParseIP "::1" = Some true.
Proof. reflexivity. Qed.
Example parse_ip_ex3 : ip_IsLoopback <$> net_ParseIP "::ffff:127.0.0.1" = Some true.
Proof. reflexivity. Qed.
Example parse_ip_ex4 : net_ParseIP "127.0.0.01" = None ∧ net_ParseIP "::1%lo" = None ∧ net_ParseIP "1::2::3" = None.
Proof. split_and!; reflexivity. Qed.
Example parse_ip_ex5 : net_ParseIP "1:2:3:4:5:6:7:8" = Some [0;1;0;2;0;3;0;4;0;5;0;6;0;7;0;8].
Proof. reflexivity. Qed.
Example parse_ip_ex6 : net_ParseIP "1:2:3:4:5:6:7::" = Some [0;1;0;2;0;3;0;4;0;5;0;6;0;7;0;0].
Proof. reflexivity. Qed.
Example parse_ip_ex7 : net_ParseIP "fe80::1:203.0.113.9" = Some [254;128;0;0;0;0;0;0;0;0;0;1;203;0;113;9].
Proof. reflexivity. Qed.
