(* ===== verification/LocalDir.v ===== *)
(** * The localdir backend: options, paths, bounded buffers
      (pkg/manager/infraops/localdir/localdir.go)

    The part of the backend that computes: which options it accepts, which
    directories it refuses, which relative paths it lets through, and the buffer
    that caps what a command may print. [os.UserHomeDir] is an argument, and so is what
    a [[]string] value holds, which [any] tells only by its type. *)

From S2P Require Import Prelude GoString GoError GoValue GoPath GoFilepath GoNet.
From Stdlib Require Import Ascii.
From stdpp Require Import options.

Module LocalDir.

Definition ErrInvalidOption : error := ENew "infraops: invalid option".
Definition ErrAlreadyInitialized : error := ENew "infraops: already initialized".
Definition ErrNotInitialized : error := ENew "infraops: not initialized".
Definition ErrPathOutsideDir : error := ENew "infraops: path outside dir".
Definition ErrNotARegularFile : error := ENew "infraops: not a regular file".
Definition ErrCleared : error := ENew "infraops: cleared".
Definition ErrInvalidDir : error := ENew "localdir: invalid dir".
Definition ErrDirNotEmpty : error := ENew "localdir: dir not empty".

Definition typeLocalDir := "localdir".
Definition defaultUmask : Z := 18.                  (* 0o022 *)
Definition defaultRequestLoopbackHost := "127.0.0.1".
Definition execOutputLimit : nat := 8 * 2 ^ 20.
Definition getFileReadChunkSize : nat := 64 * 2 ^ 10.

Record options := {
  dir : string;
  keepDir : bool;
  umask : Z;
  baseEnv : list string;
  requestLoopbackHost : string;
}.

Definition newInvalidDirError (text : string) : error :=
  Errorf_w2 "" ErrInvalidDir (": " +:+ text +:+ ": ") ErrInvalidOption.

(** [fmt.Errorf("%w: localdir option %q<rest>", ErrInvalidOption, key)] *)
Definition bad_option (key rest : string) : error :=
  Errorf_w "" ErrInvalidOption (": localdir option " +:+ strconv_Quote key +:+ rest).

(** ** Integers *)

(** The integer a float64 is, if it is one; its bits are sign, exponent, fraction. *)
Definition float64_integer (bits : Z) : option Z :=
  let e := (Z.shiftr bits 52 mod 2048)%Z in
  let m := (bits mod 2 ^ 52)%Z in
  if decide (e = 2047%Z) then None else
  let mant := if decide (e = 0%Z) then m else (m + 2 ^ 52)%Z in
  let exp := ((if decide (e = 0%Z) then 1 else e) - 1075)%Z in
  let sign := if Z.testbit bits 63 then (-1)%Z else 1%Z in
  if decide (0 ≤ exp)%Z then Some (sign * (mant * 2 ^ exp))%Z
  else if decide (mant mod 2 ^ (- exp) = 0)%Z then Some (sign * (mant / 2 ^ (- exp)))%Z
  else None.

(** Unsigned values above the range of int64 are refused, and floats that are not
    integers in it. *)
Definition toInt64 (v : any) : option Z :=
  match v with
  | AInt (Kuint | Kuint64) n => if decide (int64_max < n)%Z then None else Some n
  | AInt _ n => Some n
  | AFloat64 bits =>
    n ← float64_integer bits;
    if decide (int64_min ≤ n ≤ int64_max)%Z then Some n else None
  | _ => None
  end.

Example toInt64_ex1 : toInt64 (AFloat64 4634204016564240384) = Some 64%Z.
Proof. reflexivity. Qed.
Example toInt64_ex2 : toInt64 (AFloat64 4609434218613702656) = None.        (* 1.5 *)
Proof. reflexivity. Qed.

Definition parseUmask (v : any) : result Z :=
  match toInt64 v with
  | None => Err (bad_option "umask" " must be an integer")
  | Some n => if decide (n < 0 ∨ 511 < n)%Z then Err (bad_option "umask" " out of range") else Ok n
  end.

(** ** Hosts and environments *)

Definition parseLoopbackHost (raw : string) : result string :=
  let host := strings_TrimSpace raw in
  if decide (host = "") then Err (bad_option "request_loopback_host" " must not be empty") else
  match net_ParseIP host with
  | Some ip =>
    if ip_IsLoopback ip then Ok host
    else Err (bad_option "request_loopback_host" " must be a loopback IP")
  | None => Err (bad_option "request_loopback_host" " must be a loopback IP")
  end.

Fixpoint env_items (idx : Z) (items : list any) : result (list string) :=
  match items with
  | [] => Ok []
  | AString s :: items' => rest ← env_items (idx + 1) items'; Ok (s :: rest)
  | _ :: _ => Err (bad_option "base_env" ("[" +:+ strconv_Itoa idx +:+ "] must be string"))
  end.

Section environment.
Variable string_slice : Z → list string.

Definition parseBaseEnv (v : any) : result (list string) :=
  match v with
  | AOther t id => if decide (t = "[]string") then Ok (string_slice id)
                   else Err (bad_option "base_env" " must be []string")
  | ASlice items => env_items 0 (default [] items)
  | _ => Err (bad_option "base_env" " must be []string")
  end.

(** ** Refused directories *)

Definition isChildPath (path parent : string) : bool :=
  match filepath_Rel parent path with
  | None => false
  | Some rel => bool_decide (rel = ".") || (bool_decide (rel ≠ "..") && negb (strings_HasPrefix rel "../"))
  end.

Definition overlapsPath (a b : string) : bool :=
  let a := path_Clean a in
  let b := path_Clean b in
  if decide (a = "/" ∨ b = "/") then bool_decide (a = b)
  else if decide (a = b) then true
  else if isChildPath a b then true
  else isChildPath b a.

(** The loop over the parents of the home directory; each is shorter than its child,
    so the length of the path is fuel enough. *)
Fixpoint parents (fuel : nat) (parent : string) : list string :=
  match fuel with
  | 0 => []
  | S fuel' =>
    if decide (parent = "" ∨ parent = "/" ∨ parent = ".") then []
    else
      let next := filepath_Dir parent in
      path_Clean parent :: (if decide (next = parent) then [] else parents fuel' next)
  end.

Definition denied_dirs (home : result string) : list string :=
  ["/"; path_Clean "/etc"; path_Clean "/usr"; path_Clean "/bin"; path_Clean "/sbin"; path_Clean "/var/log"] ++
  match home with
  | Ok home =>
    if decide (strings_TrimSpace home ≠ "") then
      let home := path_Clean home in
      home :: parents (String.length home) (filepath_Dir home)
    else []
  | Err _ => []
  end.

Definition isDeniedDir (home : result string) (dir : string) : bool :=
  existsb (λ d, bool_decide (d ≠ "") && overlapsPath dir d) (denied_dirs home).

(** ** Options *)

Definition allowed_options : list string := ["dir"; "keep_dir"; "umask"; "base_env"; "request_loopback_host"].

Definition parse_dir (home : result string) (opts : gomap any) : result string :=
  match gm_get opts "dir" with
  | None => Err (newInvalidDirError "missing dir option")
  | Some (AString raw) =>
    let dir := strings_TrimSpace raw in
    if decide (dir = "") then Err (newInvalidDirError "dir must not be empty")
    else if negb (filepath_IsAbs dir) then
      Err (newInvalidDirError ("dir must be absolute: " +:+ strconv_Quote dir))
    else
      let cleanDir := path_Clean dir in
      if isDeniedDir home cleanDir then Err (newInvalidDirError ("dir is denied: " +:+ strconv_Quote cleanDir))
      else Ok cleanDir
  | Some _ => Err (newInvalidDirError "dir must be a string")
  end.

Definition parse_keep_dir (opts : gomap any) : result bool :=
  match gm_get opts "keep_dir" with
  | None => Ok false
  | Some (ABool b) => Ok b
  | Some _ => Err (bad_option "keep_dir" " must be bool")
  end.

Definition parse_loopback (opts : gomap any) : result string :=
  match gm_get opts "request_loopback_host" with
  | None => Ok defaultRequestLoopbackHost
  | Some (AString host) => parseLoopbackHost host
  | Some _ => Err (bad_option "request_loopback_host" " must be string")
  end.

Context `{!MapRange}.

Definition parseOptions (home : result string) (opts : gomap any) : result options :=
  match head (filter (λ kv : string * any, kv.1 ∉ allowed_options) (range_ opts)) with
  | Some (key, _) => Err (bad_option key "")
  | None =>
    cleanDir ← parse_dir home opts;
    keep ← parse_keep_dir opts;
    mask ← match gm_get opts "umask" with None => Ok defaultUmask | Some v => parseUmask v end;
    env ← match gm_get opts "base_env" with None => Ok [] | Some v => parseBaseEnv v end;
    host ← parse_loopback opts;
    Ok {| dir := cleanDir; keepDir := keep; umask := mask; baseEnv := env; requestLoopbackHost := host |}
  end.

(** An instance starts with the parsed options and [Life.new_life]; its HTTP client,
    which never goes through a proxy, is left out. *)
Definition New (home : result string) (opts : gomap any) : result options :=
  parsed ← parseOptions home opts;
  Ok {| dir := dir parsed; keepDir := keepDir parsed; umask := umask parsed; baseEnv := baseEnv parsed;
        requestLoopbackHost := requestLoopbackHost parsed |}.

Definition Factory (home : result string) (opts : gomap any) : result options := New home opts.
End environment.

Definition Type_ (o : options) : string := typeLocalDir.
Definition Dir_ (o : options) : string := dir o.

(** ** Relative paths *)

Definition isPathOutsideRootLexical (path : string) : bool :=
  if filepath_IsAbs path then true
  else let clean := path_Clean path in bool_decide (clean = "..") || strings_HasPrefix clean "../".

Definition sanitizeRelativePath (path : string) : result string :=
  let path := strings_TrimSpace path in
  if decide (path = "") then Err ErrPathOutsideDir
  else if isPathOutsideRootLexical path then Err ErrPathOutsideDir
  else Ok (path_Clean path).

(** The error chain's texts; [errors.Unwrap] follows an error that wraps one other. *)
Fixpoint isPathEscapeError (err : error) : bool :=
  strings_Contains (Error err) "path escapes from parent" ||
  match err with
  | EWrap _ [e] => isPathEscapeError e
  | _ => false
  end.

(** The temporary file beside a target, with the time and the counter's new value. *)
Definition tempSiblingPath (path : string) (unixNano : Z) (id : Z) : string :=
  path_Join [filepath_Dir path;
             "." +:+ filepath_Base path +:+ ".tmp." +:+ strconv_Itoa unixNano +:+ "." +:+ strconv_Itoa id].

(** ** Capped buffers *)

Record cappedBuffer := { max : Z; truncated : bool; buf : string }.

Definition newCappedBuffer (max : Z) : cappedBuffer := {| max := max; truncated := false; buf := "" |}.

(** [Write] always reports the whole of [p] as written. *)
Definition Write (p : string) (b : cappedBuffer) : nat * cappedBuffer :=
  let len := String.length p in
  if decide (len = 0) then (0, b)
  else if decide (max b ≤ 0)%Z then (len, {| max := max b; truncated := true; buf := buf b |})
  else
    let remain := (max b - Z.of_nat (String.length (buf b)))%Z in
    if decide (remain ≤ 0)%Z then (len, {| max := max b; truncated := true; buf := buf b |})
    else if decide (Z.of_nat len ≤ remain)%Z then
      (len, {| max := max b; truncated := truncated b; buf := buf b +:+ p |})
    else (len, {| max := max b; truncated := true;
                  buf := buf b +:+ String.substring 0 (Z.to_nat remain) p |}).

Definition Bytes (b : cappedBuffer) : string := buf b.
Definition Truncated (b : cappedBuffer) : bool := truncated b.
End LocalDir.
