(* ===== verification/LocalDirSpec.v ===== *)
(** * What the localdir backend guarantees about directories and paths

    Which directories a workspace may use ([localdir_dir_iff]), which relative paths
    pass ([sanitize_iff]) and what a capped buffer holds ([capped_output]). *)

From S2P Require Import Prelude GoString GoError GoValue GoPath GoFilepath GoNet LocalDir.
From Stdlib Require Import Ascii.
From stdpp Require Import options.
Set Default Proof Using "Type*".

Module Directories.
Import LocalDir.

(** One path is at or below the other. *)
Definition comparable (a b : list string) : Prop := a `prefix_of` b ∨ b `prefix_of` a.

Lemma abs_path_root segs : Forall name segs → abs_path segs = "/" ↔ segs = [].
Proof.
  intros Hs. split; [|by intros ->]. intros E. by apply (abs_path_inj segs []).
Qed.

Lemma isChildPath_iff a b :
  Forall name a → Forall name b → isChildPath (abs_path a) (abs_path b) = true ↔ b `prefix_of` a.
Proof.
  intros Ha Hb. unfold isChildPath. destruct (Rel_goes_up b a Hb Ha) as (rel & -> & Hrel).
  rewrite <-Hrel. unfold goes_up. destruct (decide (rel = "..")) as [->|Hne]; [done|].
  rewrite (bool_decide_true (rel ≠ "..")) by done. rewrite (bool_decide_false (rel = "..")) by done. simpl.
  destruct (strings_HasPrefix rel "../") eqn:E; simpl; [|by rewrite orb_true_r].
  rewrite orb_false_r. split; [|done]. intros ->%bool_decide_eq_true. done.
Qed.

Lemma overlapsPath_iff a b :
  Forall name a → Forall name b →
  overlapsPath (abs_path a) (abs_path b) = true ↔
  (a = [] ∧ b = []) ∨ (a ≠ [] ∧ b ≠ [] ∧ comparable a b).
Proof.
  intros Ha Hb. unfold overlapsPath, comparable. rewrite !Clean_abs_path by done.
  case_decide as Hroot; rewrite !abs_path_root in Hroot by done.
  - rewrite bool_decide_eq_true. split; [intros ->%abs_path_inj; [tauto|done..]|].
    intros [[-> ->]|(? & ? & _)]; [done|tauto].
  - assert (a ≠ [] ∧ b ≠ []) as [Hra Hrb] by tauto. case_decide as Heq.
    + apply abs_path_inj in Heq as ->; [|done..]. split; [|done]. intros _. right. split_and!; try done. by left.
    + destruct (isChildPath (abs_path a) (abs_path b)) eqn:E1.
      * apply isChildPath_iff in E1; [|done..]. split; [|done]. intros _. right. split_and!; try done. by right.
      * rewrite isChildPath_iff by done. apply not_true_iff_false in E1.
        rewrite isChildPath_iff in E1 by done. split; [intros H; right; split_and!; try done; by left|].
        intros [[? _]|(_ & _ & [H|H])]; done.
Qed.

(** ** The home directory and its parents *)

Lemma name_length s : name s → 1 ≤ String.length s.
Proof. intros [(Hne & _) _]. destruct s; [done|]. simpl. lia. Qed.

Lemma abs_path_length segs : Forall name segs → length segs < String.length (abs_path segs).
Proof.
  intros H. unfold abs_path. change ("/" +:+ ?x) with (String slash x). simpl. apply Nat.lt_succ_r.
  induction H as [|s segs Hs H IH]; [simpl; lia|]. apply name_length in Hs.
  destruct segs as [|s2 segs]; [simpl in *; lia|]. rewrite strings_Join_cons by done.
  rewrite !append_length. simpl. simpl in IH. lia.
Qed.

Lemma parents_elem fuel segs p :
  Forall name segs → length segs ≤ fuel →
  p ∈ parents fuel (abs_path segs) ↔ ∃ d, d ≠ [] ∧ d `prefix_of` segs ∧ p = abs_path d.
Proof.
  revert fuel. induction segs as [|s segs IH] using rev_ind; intros fuel Hs Hf.
  - assert (parents fuel (abs_path []) = []) as -> by (by destruct fuel).
    split; [by intros ?%elem_of_nil|]. intros (d & Hd & ->%prefix_nil_inv & _). done.
  - apply Forall_app in Hs as [Hsegs [Hs _]%Forall_cons].
    rewrite length_app in Hf. simpl in Hf. destruct fuel as [|fuel]; [lia|]. simpl.
    assert (Forall name (segs ++ [s])) as Hall by (apply Forall_app; split; [done|by constructor]).
    rewrite decide_False.
    2: { intros [E|[E|E]]; [done| |done]. apply abs_path_root in E; [|done]. by destruct segs. }
    rewrite Clean_abs_path, Dir_abs_path by done. rewrite decide_False.
    2: { intros E%abs_path_inj; [|done..]. apply (f_equal length) in E. rewrite length_app in E. simpl in E. lia. }
    rewrite elem_of_cons, IH by (done || lia). split.
    + intros [->|(d & Hd & Hp & ->)].
      * exists (segs ++ [s]). split_and!; [by destruct segs|done|done].
      * exists d. split_and!; [done|by apply prefix_app_r|done].
    + intros (d & Hd & Hp & ->). destruct (decide (d = segs ++ [s])) as [->|Hne]; [by left|]. right.
      exists d. split_and!; [done| |done]. destruct Hp as [k Hk].
      destruct k as [|x k] using rev_ind; [by rewrite app_nil_r in Hk|].
      rewrite app_assoc in Hk. apply app_inj_tail in Hk as [-> _]. by apply prefix_app_r.
Qed.

Lemma comparable_head a b : a ≠ [] → b ≠ [] → comparable a b → head a = head b.
Proof. intros Ha Hb [[k ->]|[k ->]]; [by destruct a|by destruct b]. Qed.

(** The directories of the system that are refused besides the root. *)
Definition system_dirs : list (list string) := [["etc"]; ["usr"]; ["bin"]; ["sbin"]; ["var"; "log"]].

(** What is refused because of the home directory: everything under the same top-level
    directory, since the parents of the home directory are refused with what is
    below them. *)
Definition shares_home (home : result string) (segs : list string) : Prop :=
  match home with
  | Ok h => strings_TrimSpace h ≠ "" ∧
            ∃ hs, Forall name hs ∧ path_Clean h = abs_path hs ∧ hs ≠ [] ∧ head segs = head hs
  | Err _ => False
  end.

Definition home_absolute (home : result string) : Prop :=
  match home with Ok h => filepath_IsAbs h = true | Err _ => True end.

Lemma existsb_elem {A} (f : A → bool) l : existsb f l = true ↔ ∃ x, x ∈ l ∧ f x = true.
Proof.
  rewrite existsb_exists. split; intros (x & Hx & Hf); exists x; by rewrite ?list_elem_of_In in *.
Qed.

Lemma refused_abs segs d :
  Forall name segs → Forall name d →
  (bool_decide (abs_path d ≠ "") && overlapsPath (abs_path segs) (abs_path d) = true) ↔
  (segs = [] ∧ d = []) ∨ (segs ≠ [] ∧ d ≠ [] ∧ comparable segs d).
Proof.
  intros Hs Hd. rewrite <-overlapsPath_iff by done. rewrite bool_decide_true by done. done.
Qed.

Lemma denied_home home segs :
  home_absolute home → Forall name segs → segs ≠ [] →
  (∃ d, d ∈ match home with
            | Ok h => if decide (strings_TrimSpace h ≠ "") then
                        path_Clean h :: parents (String.length (path_Clean h)) (filepath_Dir (path_Clean h))
                      else []
            | Err _ => []
            end ∧ bool_decide (d ≠ "") && overlapsPath (abs_path segs) d = true) ↔
  shares_home home segs.
Proof.
  intros Habs Hs Hne. destruct home as [h|e]; simpl.
  2: { split; [|done]. intros (d & Hd%elem_of_nil & _). done. }
  simpl in Habs. destruct (Clean_abs_names h Habs) as (hs & Hhs & Hclean). rewrite Hclean.
  case_decide as Hblank.
  2: { split; [intros (d & Hd%elem_of_nil & _); done|]. by intros [? _]. }
  assert (∀ d, d ∈ abs_path hs :: parents (String.length (abs_path hs)) (filepath_Dir (abs_path hs)) ↔
    d = abs_path hs ∨ ∃ e, e ≠ [] ∧ e `prefix_of` hs ∧ e ≠ hs ∧ d = abs_path e) as Hin.
  { intros d. rewrite elem_of_cons. pose proof (abs_path_length hs Hhs) as Hlen.
    destruct hs as [|s hs' _] using rev_ind.
    - assert (parents (String.length (abs_path [])) (filepath_Dir (abs_path [])) = []) as -> by reflexivity.
      rewrite elem_of_nil. split; [tauto|]. intros [?|(e & He & ->%prefix_nil_inv & _)]; [tauto|done].
    - apply Forall_app in Hhs as [Hhs' [Hn _]%Forall_cons]. rewrite Dir_abs_path by done.
      rewrite parents_elem; [|done|rewrite length_app in Hlen; lia].
      split; (intros [?|H]; [by left|right]).
      + destruct H as (e & He & Hp & ->). exists e. split_and!; [done|by apply prefix_app_r| |done].
        intros ->. apply prefix_length in Hp. rewrite length_app in Hp. simpl in Hp. lia.
      + destruct H as (e & He & [k Hk] & Hneq & ->). exists e. split_and!; [done| |done].
        destruct k as [|x k _] using rev_ind; [by rewrite app_nil_r in Hk|].
        rewrite app_assoc in Hk. apply app_inj_tail in Hk as [-> _]. by apply prefix_app_r. }
  split.
  - intros (d & Hd & Hr). split; [done|]. exists hs. split_and!; try done.
    + intros ->. apply Hin in Hd as [->|(e & He & ->%prefix_nil_inv & _)]; [|done].
      apply refused_abs in Hr; [|done..]. tauto.
    + apply Hin in Hd as [->|(e & He & Hp & _ & ->)].
      * apply refused_abs in Hr; [|done..]. destruct Hr as [[? _]|(_ & Hhne & Hc)]; [done|].
        by apply comparable_head.
      * assert (Forall name e) as Hen by (destruct Hp as [k ->]; by apply Forall_app in Hhs as [? _]).
        apply refused_abs in Hr; [|done..]. destruct Hr as [[? _]|(_ & _ & Hc)]; [done|].
        rewrite (comparable_head segs e) by done. destruct Hp as [k ->]. by destruct e.
  - intros (_ & hs' & Hhs' & Hclean' & Hhne & Hhead).
    apply abs_path_inj in Hclean' as <-; [|done..].
    destruct segs as [|s segs]; [done|]. destruct hs as [|s' hs]; [done|]. simpl in Hhead. simplify_eq.
    apply Forall_cons in Hs as [Hs Hsegs]. apply Forall_cons in Hhs as [_ Hhs].
    exists (abs_path [s']). split.
    + apply Hin. destruct hs as [|x hs]; [by left|]. right. exists [s']. split_and!; try done. by eexists.
    + apply refused_abs; [by constructor|by constructor|]. right. split_and!; try done. right. by exists segs.
Qed.

Lemma denied_iff home segs :
  home_absolute home → Forall name segs →
  isDeniedDir home (abs_path segs) = true ↔
  segs = [] ∨ (∃ d, d ∈ system_dirs ∧ comparable segs d) ∨ shares_home home segs.
Proof.
  intros Habs Hs. unfold isDeniedDir, denied_dirs. rewrite existsb_app, orb_true_iff.
  change ["/"; path_Clean "/etc"; path_Clean "/usr"; path_Clean "/bin"; path_Clean "/sbin"; path_Clean "/var/log"]
    with (abs_path <$> ([] :: system_dirs)).
  assert (Forall (Forall name) ([] :: system_dirs)) as Hsys by (by repeat constructor).
  rewrite !existsb_elem. destruct (decide (segs = [])) as [->|Hne].
  { split; [by left|]. intros _. left. exists (abs_path []). split; [by left|]. reflexivity. }
  rewrite denied_home by done. split.
  - intros [(d & (e & -> & He)%list_elem_of_fmap & Hr)|H]; [|tauto]. right. left.
    rewrite Forall_forall in Hsys. apply refused_abs in Hr; [|done|by apply Hsys].
    destruct Hr as [[? _]|(_ & Hde & Hc)]; [done|]. apply elem_of_cons in He as [->|He]; [done|]. by exists e.
  - intros [?|[(d & Hd & Hc)|H]]; [done| |by right]. left. exists (abs_path d).
    split; [apply list_elem_of_fmap; exists d; split; [done|by right]|].
    rewrite Forall_forall in Hsys. apply refused_abs; [done|apply Hsys; by right|]. right. split_and!; try done.
    intros ->. unfold system_dirs in Hd. by rewrite !elem_of_cons, elem_of_nil in Hd; destruct_or!.
Qed.

(** C29. A workspace directory is accepted exactly when the option is text, its trimmed
    path is absolute, and what it cleans to is not the root, neither contains nor is
    contained in a directory of the system, and is not under the top-level directory
    the user's home is in; the result is the clean path. *)
Theorem localdir_dir_iff (home : result string) (opts : gomap any) (d : string) :
  home_absolute home →
  parse_dir home opts = Ok d ↔
  ∃ raw segs, gm_get opts "dir" = Some (AString raw) ∧ filepath_IsAbs (strings_TrimSpace raw) = true ∧
    Forall name segs ∧ path_Clean (strings_TrimSpace raw) = abs_path segs ∧ d = abs_path segs ∧
    segs ≠ [] ∧ (∀ s, s ∈ system_dirs → ¬ comparable segs s) ∧ ¬ shares_home home segs.
Proof.
  intros Habs. unfold parse_dir. split.
  - destruct (gm_get opts "dir") as [[]|] eqn:E; try done. case_decide as Hempty; [done|].
    destruct (filepath_IsAbs (strings_TrimSpace s)) eqn:Ha; simpl; [|done].
    destruct (Clean_abs_names _ Ha) as (segs & Hsegs & Hclean). rewrite Hclean.
    destruct (isDeniedDir home (abs_path segs)) eqn:Hd; [done|]. intros [= <-].
    apply not_true_iff_false in Hd. rewrite denied_iff in Hd by done.
    exists s, segs. split_and!; try done; [tauto| |tauto]. intros x Hx Hc. apply Hd. eauto.
  - intros (raw & segs & -> & Ha & Hsegs & Hclean & -> & Hne & Hsys & Hhome).
    case_decide as Hempty; [by rewrite Hempty in Ha|]. rewrite Ha, Hclean. simpl.
    destruct (isDeniedDir home (abs_path segs)) eqn:Hd; [|done].
    apply denied_iff in Hd; [|done..]. destruct Hd as [?|[(x & Hx & Hc)|?]]; [done|by destruct (Hsys x)|done].
Qed.

Definition sample_options : gomap any := Some {["dir" := AString " /srv//ws/../work "]}.

Lemma localdir_dir_iff_witness :
  parse_dir (Ok "/home/user") sample_options = Ok "/srv/work" ↔
  ∃ raw segs, gm_get sample_options "dir" = Some (AString raw) ∧ filepath_IsAbs (strings_TrimSpace raw) = true ∧
    Forall name segs ∧ path_Clean (strings_TrimSpace raw) = abs_path segs ∧ "/srv/work" = abs_path segs ∧
    segs ≠ [] ∧ (∀ s, s ∈ system_dirs → ¬ comparable segs s) ∧ ¬ shares_home (Ok "/home/user") segs.
Proof. apply (localdir_dir_iff (Ok "/home/user") sample_options "/srv/work"). reflexivity. Defined.

Example parse_dir_ex1 : parse_dir (Ok "/home/user") sample_options = Ok "/srv/work".
Proof. vm_compute. reflexivity. Qed.

Example parse_dir_ex2 : is_ok (parse_dir (Ok "/home/user") (Some {["dir" := AString "/home/x"]})) = false.
Proof. vm_compute. reflexivity. Qed.

(** ** Relative paths *)

Lemma outside_iff p :
  isPathOutsideRootLexical p = false ↔
  filepath_IsAbs p = false ∧ is_Some (walk [] (strings_Split slash p)).
Proof.
  unfold isPathOutsideRootLexical. destruct (filepath_IsAbs p) eqn:Ha; [split; [done|by intros []]|].
  destruct (walk [] (strings_Split slash p)) as [stack|] eqn:Hw.
  - rewrite (Clean_walk p stack Ha Hw). change (bool_decide (?q = "..") || strings_HasPrefix ?q "../") with (goes_up q).
    split; [eauto|]. intros _. assert (Forall name (rev stack)) as Hst.
    { apply Forall_rev. eapply walk_names; [|apply Split_no_slash|exact Hw]. done. }
    destruct stack as [|x stack]; [done|]. destruct (rev (x :: stack)) as [|s l]; [done|].
    apply Forall_cons in Hst as [Hs Hl]. apply goes_up_name; [done|].
    eapply Forall_impl; [exact Hl|]. by intros y [].
  - destruct (Clean_escapes p Ha Hw) as [rest ->].
    change (bool_decide (?q = "..") || strings_HasPrefix ?q "../") with (goes_up q).
    rewrite goes_up_dotdot. split; [done|]. by intros [_ []].
Qed.

(** A relative path is let through exactly when, trimmed, it is not empty, not
    absolute, and following its elements never goes above the directory it starts in;
    what comes out is the way down to where that walk ends, with no element left that
    is empty or a dot. *)
Theorem sanitize_iff (path q : string) :
  sanitizeRelativePath path = Ok q ↔
  strings_TrimSpace path ≠ "" ∧ filepath_IsAbs (strings_TrimSpace path) = false ∧
  ∃ stack, walk [] (strings_Split slash (strings_TrimSpace path)) = Some stack ∧ Forall name stack ∧
    q = match stack with [] => "." | _ => strings_Join (rev stack) "/" end.
Proof.
  unfold sanitizeRelativePath. set (p := strings_TrimSpace path). case_decide as Hp; [split; [done|tauto]|].
  destruct (isPathOutsideRootLexical p) eqn:Ho.
  - split; [done|]. intros (_ & Ha & stack & Hw & _). exfalso.
    apply not_false_iff_true in Ho. apply Ho, outside_iff. eauto.
  - apply outside_iff in Ho as [Ha [stack Hw]]. rewrite (Clean_walk p stack Ha Hw). split.
    + intros [= <-]. split_and!; try done. exists stack. split_and!; try done.
      eapply walk_names; [|apply Split_no_slash|exact Hw]. done.
    + intros (_ & _ & stack' & Hw' & _ & ->). by rewrite Hw in Hw'; simplify_eq.
Qed.

(** What is let through, as a list of names. *)
Lemma sanitize_names path q : sanitizeRelativePath path = Ok q → ∃ segs, Forall name segs ∧ q = rel_path segs.
Proof.
  unfold sanitizeRelativePath. case_decide; [done|]. destruct (isPathOutsideRootLexical _) eqn:Ho; [done|].
  intros [= <-]. apply outside_iff in Ho as [Ha [stack Hw]]. exists (rev stack).
  assert (Forall name stack) as Hst by (eapply walk_names; [|apply Split_no_slash|exact Hw]; done).
  split; [by apply Forall_rev|]. rewrite (Clean_walk _ stack Ha Hw). destruct stack as [|x stack]; [done|].
  destruct (rev (x :: stack)) eqn:E; [|done]. apply (f_equal length) in E. by rewrite length_rev in E.
Qed.

(** ** Capped buffers *)

Definition written (chunks : list string) : string := foldr String.append "" chunks.

Lemma substring_app_prefix n a b :
  n ≤ String.length a → String.substring 0 n (a +:+ b) = String.substring 0 n a.
Proof.
  revert n. induction a as [|c a IH]; intros n Hn.
  - simpl in Hn. assert (n = 0) as -> by lia. by destruct b.
  - rewrite append_cons. destruct n as [|n]; [done|]. simpl in *. f_equal. apply IH. lia.
Qed.

Lemma substring_app_over n a b :
  String.length a ≤ n → String.substring 0 n (a +:+ b) = a +:+ String.substring 0 (n - String.length a) b.
Proof.
  revert n. induction a as [|c a IH]; intros n Hn.
  - rewrite append_nil_l. simpl. by rewrite Nat.sub_0_r.
  - rewrite append_cons. simpl in *. destruct n as [|n]; [lia|]. simpl. rewrite append_cons. f_equal. apply IH. lia.
Qed.

Lemma substring_all n s : String.length s ≤ n → String.substring 0 n s = s.
Proof.
  revert n. induction s as [|c s IH]; intros n Hn; [by destruct n|]. simpl in Hn.
  destruct n as [|n]; [lia|]. simpl. f_equal. apply IH. lia.
Qed.

(** What a buffer holds after the text [s] was written to it. *)
Definition holds_prefix (n : nat) (s : string) (b : cappedBuffer) : Prop :=
  max b = Z.of_nat n ∧ buf b = String.substring 0 n s ∧ truncated b = bool_decide (n < String.length s).

Lemma Write_prefix n s p b :
  holds_prefix (S n) s b → holds_prefix (S n) (s +:+ p) (Write p b).2 ∧ (Write p b).1 = String.length p.
Proof.
  intros (Hmax & Hbuf & Htr). unfold Write, holds_prefix. rewrite append_length.
  destruct (decide (String.length p = 0)) as [Hlen|Hlen].
  { destruct p; [|discriminate Hlen]. simpl. rewrite append_nil_r, Nat.add_0_r. done. }
  rewrite (decide_False (P := (max b ≤ 0)%Z)) by lia.
  assert (String.length (buf b) = S n `min` String.length s) as Hbl.
  { rewrite Hbuf. destruct (decide (S n ≤ String.length s)); [rewrite substring_length by lia; lia|].
    rewrite substring_all by lia. lia. }
  destruct (decide (max b - Z.of_nat (String.length (buf b)) ≤ 0)%Z) as [Hrem|Hrem]; cbn [fst snd max buf truncated].
  - split; [|done]. split; [done|]. rewrite substring_app_prefix by lia.
    split; [done|]. symmetry. apply bool_decide_eq_true. lia.
  - assert (buf b = s) as Hbs by (rewrite Hbuf; apply substring_all; lia). rewrite Hbs in *.
    rewrite substring_app_over by lia.
    destruct (decide (Z.of_nat (String.length p) ≤ max b - Z.of_nat (String.length s))%Z) as [Hfit|Hfit];
      cbn [fst snd max buf truncated].
    + rewrite substring_all by lia. rewrite Htr. split_and!; try done. apply bool_decide_ext. lia.
    + rewrite bool_decide_true by lia. split_and!; try done. do 2 f_equal. lia.
Qed.

(** However a command's output is cut into writes, the buffer keeps exactly the first
    [S n] bytes of it and is marked when more came. *)
Lemma capped_output n chunks :
  holds_prefix (S n) (written chunks)
    (fold_left (λ b p, (Write p b).2) chunks (newCappedBuffer (Z.of_nat (S n)))).
Proof.
  assert (∀ s b, holds_prefix (S n) s b →
    holds_prefix (S n) (s +:+ written chunks) (fold_left (λ b p, (Write p b).2) chunks b)) as H.
  { induction chunks as [|p chunks IH]; intros s b Hb; simpl; [by rewrite append_nil_r|].
    rewrite <-append_assoc. by apply IH, Write_prefix. }
  apply (H ""). by split_and!.
Qed.
End Directories.
