(* ===== verification/LocalDirOps.v ===== *)
(** * The localdir backend: its operations (pkg/manager/infraops/localdir/localdir.go)

    One instance serves many goroutines. [Life] gives its mutable half: the flags and
    the open root under [o.mu], one function per critical section. [LocalDirOps] gives
    every method as a procedure over these critical sections and the calls to the
    operating system, which go through the directory handle [os.Root] wherever the
    code's do. [Init] and [Open] hold the mutex from [InitEnter] to [InitUnlock];
    every other section ends where it returns. A wait on the condition variable is
    part of the section that starts with it: the section happens when the wait is
    over, or answers with the context's error. Logging is left out. *)

From S2P Require Import Prelude GoString GoError GoValue GoPath GoFilepath GoNet WorkspaceTypes.
From S2P Require Import Proc WorkspaceWorld LocalDir.
From stdpp Require Import options.

Abbreviation root_handle := nat (only parsing).
Abbreviation file_handle := nat (only parsing).

Module Life.
Import LocalDir.

Record life := {
  initialized : bool;
  cleared : bool;
  clearing : bool;
  activeOps : Z;
  root : option root_handle;
  locked : bool;             (* [Init] or [Open] holds the mutex *)
}.

Definition new_life : life := {|
  initialized := false; cleared := false; clearing := false; activeOps := 0; root := None; locked := false |}.

Definition set_clearing (s : life) (b : bool) : life := {|
  initialized := initialized s; cleared := cleared s; clearing := b; activeOps := activeOps s;
  root := root s; locked := locked s |}.

Definition set_locked (s : life) (b : bool) : life := {|
  initialized := initialized s; cleared := cleared s; clearing := clearing s; activeOps := activeOps s;
  root := root s; locked := b |}.

Definition add_ops (s : life) (d : Z) : life := {|
  initialized := initialized s; cleared := cleared s; clearing := clearing s; activeOps := (activeOps s + d)%Z;
  root := root s; locked := locked s |}.

(** [beginOp] after its wait: the root, and the operation is counted. *)
Definition beginOp (s : life) : result root_handle * life :=
  if cleared s then (Err ErrCleared, s)
  else match initialized s, root s with
       | true, Some r => (Ok r, add_ops s 1)
       | _, _ => (Err ErrNotInitialized, s)
       end.

(** The function [beginOp] returns. *)
Definition release (s : life) : life := add_ops s (-1).

(** What [Init] and [Open] find after their wait; when they go on they keep the mutex. *)
Inductive entered := EntCleared | EntInitialized | EntFresh.

Definition init_enter (s : life) : entered * life :=
  if cleared s then (EntCleared, s)
  else if initialized s then (EntInitialized, s)
  else (EntFresh, set_locked s true).

(** [setRootLocked] after its wait, which does not block: the mutex has been held since
    [clearing] was last seen false. [None]: the root was stored. *)
Definition set_root (r : root_handle) (s : life) : option (result unit) * life :=
  if cleared s then (Some (Err ErrCleared), s)
  else if initialized s then (Some (Ok ()), s)
  else (None, {| initialized := true; cleared := cleared s; clearing := clearing s;
                 activeOps := activeOps s; root := Some r; locked := locked s |}).

(** [setRoot] takes the mutex itself; nothing calls it. *)
Definition setRoot (r : root_handle) (s : life) : option (result unit) * life := set_root r s.

(** [Clear] up to its second wait: false when there is nothing left to do. *)
Definition clear_begin (s : life) : bool * life :=
  if cleared s then (false, s) else (true, set_clearing s true).

(** [Clear]'s last section; the root it closes, if there is one. *)
Definition clear_finish (ok : bool) (s : life) : option root_handle * life :=
  (root s, {| initialized := false; cleared := if ok then true else cleared s; clearing := false;
              activeOps := activeOps s; root := None; locked := locked s |}).
End Life.

Module LocalDirOps.
Import LocalDir Life.

(** What [Stat] tells: the kind of a file and which file it is. *)
Inductive file_kind := KRegular | KDir | KSymlink | KOther.
#[export] Instance file_kind_eq_dec : EqDecision file_kind.
Proof. solve_decision. Defined.

Record file_info := { fi_kind : file_kind; fi_id : Z }.

Definition SameFile (a b : file_info) : bool := bool_decide (fi_id a = fi_id b).

(** [os.ErrNotExist] *)
Definition ErrNotExist : error := ENew "file does not exist".

(** What running a command comes to. *)
Inductive run_outcome := RunOk | RunExit (code : Z) | RunFailed (err : error).

Inductive fcall : Type → Type :=
(** critical sections of [o.mu]; an error of the context is one of a wait *)
| BeginOp (c : ctx) : fcall (result root_handle)
| Release : fcall unit
| InitEnter (c : ctx) : fcall (result entered)
| SetRoot (c : ctx) (r : root_handle) : fcall (option (result unit))
| InitUnlock : fcall unit
| ClearBegin (c : ctx) : fcall (result bool)
| ClearDrain (c : ctx) : fcall (result (option root_handle))
(** which also closes the root, if there is one *)
| ClearFinish (ok : bool) : fcall unit
| TmpCounter : fcall Z
(** contexts and the clock *)
| CtxErr (c : ctx) : fcall (option error)
| CancelCtx (c : ctx) : fcall unit
| Now : fcall Z
(** the operating system *)
| OsStat (path : string) : fcall (result file_info)
| OsLstat (path : string) : fcall (result file_info)
| OsReadDir (path : string) : fcall (result (list string))
| OsMkdirAll (path : string) (perm : Z) : fcall (result unit)
| OsRemove (path : string) : fcall (result unit)
| OsOpenRoot (path : string) : fcall (result root_handle)
| OsEnviron : fcall (list string)
(** the open root: the operating system refuses paths that leave it *)
| RootOpen (r : root_handle) (path : string) : fcall (result file_handle)
| RootOpenRoot (r : root_handle) (path : string) : fcall (result root_handle)
| RootStat (r : root_handle) (path : string) : fcall (result file_info)
| RootMkdirAll (r : root_handle) (path : string) (perm : Z) : fcall (result unit)
| RootCreate (r : root_handle) (path : string) (perm : Z) : fcall (result file_handle)
| RootRename (r : root_handle) (from to : string) : fcall (result unit)
| RootRemove (r : root_handle) (path : string) : fcall (result unit)
| RootRemoveAll (r : root_handle) (path : string) : fcall (result unit)
| RootClose (r : root_handle) : fcall (result unit)
(** open files *)
| FileStat (f : file_handle) : fcall (result file_info)
| FileReadDir (f : file_handle) : fcall (result (list string))
| FileSync (f : file_handle) : fcall (result unit)
| FileClose (f : file_handle) : fcall (result unit)
| FileFd (f : file_handle) : fcall Z
| FileRead (f : file_handle) (len : nat) : fcall (string * option error)
(** [io.Copy] to a file from the caller's content, checked against the context *)
| CopyContent (c : ctx) (content : nat) (f : file_handle) : fcall (result unit)
(** processes and HTTP: what a command wrote, and how it ended *)
| RunCommand (c : ctx) (program : string) (args : list string) (dir : string) (env : list string)
    : fcall (list string * list string * run_outcome)
| HttpDo (c : ctx) (scheme host path : string) : fcall (result nat).

Abbreviation fproc := (proc fcall).
Abbreviation fevent := (event fcall).

Definition Background : ctx := CtxParent 0.
Definition ensureContext (c : option ctx) : ctx := default Background c.

Definition is_not_exist (err : error) : bool := errors_Is err ErrNotExist.

(** [fmt.Errorf("<op> %q: %w", path, err)] *)
Definition os_err (op path : string) (err : error) : error :=
  Errorf_w (op +:+ " " +:+ strconv_Quote path +:+ ": ") err "".

(** [if isPathEscapeError(err) { return ErrPathOutsideDir }; return <wrapped>] *)
Definition root_err (op path : string) (err : error) : error :=
  if isPathEscapeError err then ErrPathOutsideDir else os_err op path err.

Definition dirIsEmpty (dir : string) : fproc (result bool) :=
  r ← call (OsReadDir dir);
  mret match r with Err e => Err e | Ok entries => Ok (bool_decide (entries = [])) end.

Section instance.
Variable o : options.

(** ** [Init] and [Open] *)

Definition setRootLocked (c : ctx) (r : root_handle) : fproc (result unit) :=
  stored ← call (SetRoot c r);
  match stored with
  | None => mret (Ok ())
  | Some out => _ ← call (RootClose r); mret out
  end.

Definition not_empty : error :=
  EWrap (Error ErrAlreadyInitialized +:+ ": " +:+ Error ErrDirNotEmpty +:+ ": " +:+ dir o)
    [ErrAlreadyInitialized; ErrDirNotEmpty].

(** [Init] with the mutex held, up to the directory being there and empty. *)
Definition init_dir : fproc (result unit) :=
  let parent := filepath_Dir (dir o) in
  let finish : fproc (result unit) :=
    empty ← dirIsEmpty (dir o);
    mret match empty with
         | Err e => Err (os_err "localdir init final empty check" (dir o) e)
         | Ok true => Ok ()
         | Ok false => Err not_empty
         end in
  parentInfo ← call (OsStat parent);
  match parentInfo with
  | Err e =>
    mret (Err (if is_not_exist e
               then newInvalidDirError ("parent directory does not exist: " +:+ strconv_Quote parent)
               else os_err "localdir init stat parent" parent e))
  | Ok parentInfo =>
    if decide (fi_kind parentInfo ≠ KDir) then
      mret (Err (newInvalidDirError ("parent is not a directory: " +:+ strconv_Quote parent)))
    else
    info ← call (OsLstat (dir o));
    match info with
    | Ok info =>
      if decide (fi_kind info = KSymlink) then
        mret (Err (newInvalidDirError ("dir must not be a symlink: " +:+ strconv_Quote (dir o))))
      else if decide (fi_kind info ≠ KDir) then
        mret (Err (newInvalidDirError ("dir is not a directory: " +:+ strconv_Quote (dir o))))
      else
        empty ← dirIsEmpty (dir o);
        match empty with
        | Err e => mret (Err (os_err "localdir init check empty" (dir o) e))
        | Ok false => mret (Err not_empty)
        | Ok true => finish
        end
    | Err e =>
      if is_not_exist e then
        made ← call (OsMkdirAll (dir o) 493);                                    (* 0o755 *)
        match made with
        | Err e => mret (Err (os_err "localdir init mkdir" (dir o) e))
        | Ok _ => finish
        end
      else mret (Err (os_err "localdir init stat dir" (dir o) e))
    end
  end.

(** Opening the root and storing it. *)
Definition open_root (c : ctx) (op : string) : fproc (result unit) :=
  opened ← call (OsOpenRoot (dir o));
  match opened with
  | Err e => mret (Err (os_err op (dir o) e))
  | Ok r => setRootLocked c r
  end.

Definition Init (c : option ctx) : fproc (result unit) :=
  let c := ensureContext c in
  ended ← call (CtxErr c);
  match ended with
  | Some e => mret (Err e)
  | None =>
    entered ← call (InitEnter c);
    match entered with
    | Err e => mret (Err e)
    | Ok EntCleared => mret (Err ErrCleared)
    | Ok EntInitialized => mret (Err ErrAlreadyInitialized)
    | Ok EntFresh =>
      deferred (call InitUnlock)
        (ready ← init_dir;
         match ready with
         | Err e => mret (Err e)
         | Ok _ => open_root c "localdir init open root"
         end)
    end
  end.

Definition open_dir : fproc (result unit) :=
  info ← call (OsLstat (dir o));
  mret match info with
       | Err e =>
         Err (if is_not_exist e
              then Errorf_w "" ErrNotInitialized (": localdir open missing dir " +:+ strconv_Quote (dir o))
              else os_err "localdir open stat dir" (dir o) e)
       | Ok info =>
         if decide (fi_kind info = KSymlink) then
           Err (newInvalidDirError ("dir must not be a symlink: " +:+ strconv_Quote (dir o)))
         else if decide (fi_kind info ≠ KDir) then
           Err (newInvalidDirError ("dir is not a directory: " +:+ strconv_Quote (dir o)))
         else Ok ()
       end.

Definition Open (c : option ctx) : fproc (result unit) :=
  let c := ensureContext c in
  ended ← call (CtxErr c);
  match ended with
  | Some e => mret (Err e)
  | None =>
    entered ← call (InitEnter c);
    match entered with
    | Err e => mret (Err e)
    | Ok EntCleared => mret (Err ErrCleared)
    | Ok EntInitialized => mret (Ok ())
    | Ok EntFresh =>
      deferred (call InitUnlock)
        (ready ← open_dir;
         match ready with
         | Err e => mret (Err e)
         | Ok _ => open_root c "localdir open root"
         end)
    end
  end.

(** [root, release, err := o.beginOp(ctx); if err != nil { return err }; defer release()] *)
Definition with_root {A} (c : ctx) (body : root_handle → fproc (result A)) : fproc (result A) :=
  begun ← call (BeginOp c);
  match begun with
  | Err e => mret (Err e)
  | Ok r => deferred (call Release) (body r)
  end.

(** ** [PutFile] *)

Definition syncRootDir (r : root_handle) (dir : string) : fproc (result unit) :=
  let dir := if decide (dir = "") then "." else dir in
  opened ← call (RootOpen r dir);
  match opened with
  | Err e => mret (Err (if isPathEscapeError e then ErrPathOutsideDir else e))
  | Ok df => deferred (_ ← call (FileClose df); mret ()) (call (FileSync df))
  end.

(** From the temporary file on; false when the deferred function has to remove it. *)
Definition write_and_rename (c : ctx) (r : root_handle) (path cleanPath parent tmpPath : string)
    (content : nat) (tmpFile : file_handle) : fproc (bool * result unit) :=
  let failed op p e := mret (false, Err (os_err op p e)) in
  copied ← call (CopyContent c content tmpFile);
  match copied with
  | Err e => _ ← call (FileClose tmpFile); failed "localdir putfile copy" path e
  | Ok _ =>
    synced ← call (FileSync tmpFile);
    match synced with
    | Err e => _ ← call (FileClose tmpFile); failed "localdir putfile sync temp" tmpPath e
    | Ok _ =>
      closed ← call (FileClose tmpFile);
      match closed with
      | Err e => failed "localdir putfile close temp" tmpPath e
      | Ok _ =>
        renamed ← call (RootRename r tmpPath cleanPath);
        match renamed with
        | Err e =>
          mret (false, Err (if isPathEscapeError e then ErrPathOutsideDir
            else Errorf_w ("localdir putfile rename " +:+ strconv_Quote tmpPath +:+ " -> " +:+
                           strconv_Quote cleanPath +:+ ": ") e ""))
        | Ok _ =>
          parentSynced ← syncRootDir r parent;
          match parentSynced with
          | Err e => failed "localdir putfile fsync parent" parent e
          | Ok _ => mret (true, Ok ())
          end
        end
      end
    end
  end.

(** [None] is a nil content. *)
Definition put_in (c : ctx) (path : string) (content : option nat) (mode : Z) (r : root_handle)
    : fproc (result unit) :=
  match content with
  | None => mret (Err (Errorf_w "" ErrInvalidOption ": localdir putfile content must not be nil"))
  | Some content =>
    match sanitizeRelativePath path with
    | Err e => mret (Err e)
    | Ok cleanPath =>
      let parent := filepath_Dir cleanPath in
      made ← call (RootMkdirAll r parent (Z.ldiff 493 (umask o)));
      match made with
      | Err e => mret (Err (root_err "localdir putfile mkdir" parent e))
      | Ok _ =>
        id ← call TmpCounter;
        now ← call Now;
        let tmpPath := tempSiblingPath cleanPath now id in
        created ← call (RootCreate r tmpPath (Z.ldiff mode (umask o)));
        match created with
        | Err e => mret (Err (root_err "localdir putfile create temp" tmpPath e))
        | Ok tmpFile =>
          '(kept, out) ← write_and_rename c r path cleanPath parent tmpPath content tmpFile;
          _ ← (if (kept : bool) then mret () else (_ ← call (RootRemove r tmpPath); mret ()));
          mret out
        end
      end
    end
  end.

Definition PutFile (c : option ctx) (path : string) (content : option nat) (mode : Z) : fproc (result unit) :=
  let c := ensureContext c in
  with_root c (put_in c path content mode).

(** ** [GetFile] *)

Record ctxReadCloser := { rc_ctx : ctx; rc_file : file_handle }.

Definition get_in (c : ctx) (path : string) (r : root_handle) : fproc (result ctxReadCloser) :=
  match sanitizeRelativePath path with
  | Err e => mret (Err e)
  | Ok cleanPath =>
    opened ← call (RootOpen r cleanPath);
    match opened with
    | Err e => mret (Err (root_err "localdir getfile open" cleanPath e))
    | Ok f =>
      info ← call (FileStat f);
      match info with
      | Err e => _ ← call (FileClose f); mret (Err (os_err "localdir getfile stat" cleanPath e))
      | Ok info =>
        if decide (fi_kind info ≠ KRegular) then
          _ ← call (FileClose f); mret (Err ErrNotARegularFile)
        else mret (Ok {| rc_ctx := c; rc_file := f |})
      end
    end
  end.

Definition GetFile (c : option ctx) (path : string) : fproc (result ctxReadCloser) :=
  let c := ensureContext c in
  with_root c (get_in c path).

(** [Read] of a buffer of [remain] bytes more: what was read and the error. A read of
    at least one byte leaves less to read, so the buffer's length is fuel enough; a
    longer answer than asked for does not fit the buffer and is cut. *)
Fixpoint read_chunks (fuel : nat) (rd : ctxReadCloser) (remain : nat) (acc : string)
    : fproc (string * option error) :=
  match fuel, remain with
  | 0, _ | _, 0 => mret (acc, None)
  | S fuel', _ =>
    ended ← call (CtxErr (rc_ctx rd));
    match ended with
    | Some e => mret (acc, Some e)
    | None =>
      '(data, err) ← call (FileRead (rc_file rd) (remain `min` getFileReadChunkSize));
      let data := String.substring 0 (remain `min` getFileReadChunkSize) data in
      let acc := acc +:+ data in
      match err with
      | Some e => mret (acc, Some e)
      | None => if decide (data = "") then mret (acc, None)
                else read_chunks fuel' rd (remain - String.length data) acc
      end
    end
  end.

Definition Read (rd : ctxReadCloser) (len : nat) : fproc (string * option error) := read_chunks len rd len "".

Definition Close (rd : ctxReadCloser) : fproc (result unit) := call (FileClose (rc_file rd)).

(** ** [Exec] *)

Record ExecCommand := {
  ec_Program : string;
  ec_Args : list string;
  ec_Env : list string;
  ec_WorkDir : string;
  ec_Stdout : bool;          (* a writer was given *)
  ec_Stderr : bool;
  ec_Timeout : Z;
}.

Record ExecResult := { er_ExitCode : Z; er_Stdout : string; er_Stderr : string; er_Duration : Z }.

Definition is_root_fd (r : root_handle) (rootDot : file_handle) (pathInfo : file_info) : fproc (result unit) :=
  rootInfo ← call (FileStat rootDot);
  mret match rootInfo with
       | Err e => Err (os_err "localdir exec stat root" (dir o) e)
       | Ok rootInfo => if SameFile pathInfo rootInfo then Ok () else Err ErrPathOutsideDir
       end.

(** The working directory and the open file that keeps it; on Linux. *)
Definition resolveExecDir (r : root_handle) (workDir : string) : fproc (result (string * file_handle)) :=
  if decide (workDir ≠ "" ∧ isPathOutsideRootLexical workDir = true) then mret (Err ErrPathOutsideDir) else
  let clean := if decide (workDir = "") then "." else path_Clean workDir in
  opened ← call (RootOpenRoot r clean);
  match opened with
  | Err e => mret (Err (root_err "localdir exec validate workdir" workDir e))
  | Ok subRoot =>
    deferred (_ ← call (RootClose subRoot); mret ())
      (dirFD ← call (RootOpen subRoot ".");
       match dirFD with
       | Err e => mret (Err e)
       | Ok dirFD =>
         fd ← call (FileFd dirFD);
         mret (Ok ("/proc/self/fd/" +:+ strconv_Itoa fd, dirFD))
       end)
  end.

(** The output of a command collected by a capped buffer, chunk by chunk. *)
Definition collect (chunks : list string) : string :=
  Bytes (fold_left (λ b p, (Write p b).2) chunks (newCappedBuffer (Z.of_nat execOutputLimit))).

Definition run_command (c : ctx) (cmd : ExecCommand) (execDir : string) : fproc (result ExecResult) :=
  let timed := bool_decide (0 < ec_Timeout cmd)%Z in
  let runCtx := if timed then CtxTimeout c (ec_Timeout cmd) else c in
  deferred (if timed then call (CancelCtx runCtx) else mret ())
    (env ← call OsEnviron;
     start ← call Now;
     '(outs, errs, outcome) ← call (RunCommand runCtx (ec_Program cmd) (ec_Args cmd) execDir
                                      (env ++ baseEnv o ++ ec_Env cmd));
     stop ← call Now;
     let res code := {| er_ExitCode := code;
       er_Stdout := if ec_Stdout cmd then "" else collect outs;
       er_Stderr := if ec_Stderr cmd then "" else collect errs;
       er_Duration := (stop - start)%Z |} in
     match outcome with
     | RunOk => mret (Ok (res 0%Z))
     | _ =>
       ended ← call (CtxErr runCtx);
       mret match ended, outcome with
            | Some e, _ => Err e
            | None, RunExit code => Ok (res code)
            | None, RunFailed e => Err (os_err "localdir exec run" (ec_Program cmd) e)
            | None, RunOk => Ok (res 0%Z)
            end
     end).

Definition exec_in (c : ctx) (cmd : ExecCommand) (r : root_handle) : fproc (result ExecResult) :=
  pathInfo ← call (OsLstat (dir o));
  match pathInfo with
  | Err e => mret (Err (os_err "localdir exec lstat dir" (dir o) e))
  | Ok pathInfo =>
    if decide (fi_kind pathInfo = KSymlink) then mret (Err ErrPathOutsideDir) else
    rootDot ← call (RootOpen r ".");
    match rootDot with
    | Err e => mret (Err (os_err "localdir exec open root" (dir o) e))
    | Ok rootDot =>
      deferred (_ ← call (FileClose rootDot); mret ())
        (same ← is_root_fd r rootDot pathInfo;
         match same with
         | Err e => mret (Err e)
         | Ok _ =>
           if decide (strings_TrimSpace (ec_Program cmd) = "") then
             mret (Err (Errorf_w "" ErrInvalidOption ": localdir exec program must not be empty"))
           else
             resolved ← resolveExecDir r (ec_WorkDir cmd);
             match resolved with
             | Err e => mret (Err e)
             | Ok (execDir, hold) =>
               deferred (_ ← call (FileClose hold); mret ()) (run_command c cmd execDir)
             end
         end)
    end
  end.

Definition Exec (c : option ctx) (cmd : ExecCommand) : fproc (result ExecResult) :=
  let c := ensureContext c in
  with_root c (exec_in c cmd).

(** ** [Request] *)

(** Of a request only its URL is read; the body and headers go along. *)
Record request := { rq_URL : option (string * string * string) }.

Definition request_in (c : ctx) (port : Z) (req : option request) (_ : root_handle) : fproc (result nat) :=
  let invalid what := mret (Err (Errorf_w "" ErrInvalidOption (": localdir request " +:+ what))) in
  match req with
  | None => invalid "nil request"
  | Some req =>
    if decide (port < 1 ∨ 65535 < port)%Z then invalid ("invalid port " +:+ strconv_Itoa port) else
    match rq_URL req with
    | None => invalid "nil URL"
    | Some (_, _, path) =>
      resp ← call (HttpDo c "http" (net_JoinHostPort (requestLoopbackHost o) (strconv_Itoa port)) path);
      mret match resp with
           | Err e => Err (Errorf_w "infraops request: " e "")
           | Ok resp => Ok resp
           end
    end
  end.

Definition Request (c : option ctx) (port : Z) (req : option request) : fproc (result nat) :=
  let c := ensureContext c in
  with_root c (request_in c port req).

(** ** [Clear] *)

Fixpoint remove_entries (c : ctx) (r : root_handle) (entries : list string) : fproc (result unit) :=
  match entries with
  | [] => mret (Ok ())
  | entry :: entries' =>
    ended ← call (CtxErr c);
    match ended with
    | Some e => mret (Err e)
    | None =>
      removed ← call (RootRemoveAll r entry);
      match removed with
      | Err e => mret (Err (if isPathEscapeError e then ErrPathOutsideDir else e))
      | Ok _ => remove_entries c r entries'
      end
    end
  end.

Definition clearRootContents (c : ctx) (r : root_handle) : fproc (result unit) :=
  opened ← call (RootOpen r ".");
  match opened with
  | Err e => mret (Err (if isPathEscapeError e then ErrPathOutsideDir else e))
  | Ok d =>
    entries ← call (FileReadDir d);
    closed ← call (FileClose d);
    match entries, closed with
    | Err e, _ => mret (Err e)
    | Ok _, Err e => mret (Err e)
    | Ok entries, Ok _ => remove_entries c r entries
    end
  end.

(** [os.Remove(o.dir)], where a path that is gone is as good. *)
Definition remove_dir (what : string) : fproc (result unit) :=
  removed ← call (OsRemove (dir o));
  mret match removed with
       | Ok _ => Ok ()
       | Err e => if is_not_exist e then Ok () else Err (os_err what (dir o) e)
       end.

Definition clearRootHandle (c : ctx) (r : root_handle) : fproc (result unit) :=
  rootInfo ← call (RootStat r ".");
  match rootInfo with
  | Err e => mret (Err (os_err "localdir clear stat root" (dir o) e))
  | Ok rootInfo =>
    contents ← clearRootContents c r;
    match contents with
    | Err e => mret (Err (os_err "localdir clear contents" (dir o) e))
    | Ok _ =>
      if keepDir o then mret (Ok ()) else
      pathInfo ← call (OsLstat (dir o));
      match pathInfo with
      | Err e => mret (if is_not_exist e then Ok () else Err (os_err "localdir clear lstat dir" (dir o) e))
      | Ok pathInfo =>
        if SameFile rootInfo pathInfo then remove_dir "localdir clear remove dir" else mret (Ok ())
      end
    end
  end.

(** Clearing a directory no root is open for; the root it opens is closed at the end. *)
Definition clear_path (c : ctx) : fproc (option root_handle * result unit) :=
  let plain (p : fproc (result unit)) := (out ← p; mret (None, out)) in
  pathInfo ← call (OsLstat (dir o));
  match pathInfo with
  | Err e => mret (None, if is_not_exist e then Ok () else Err (os_err "localdir clear lstat dir" (dir o) e))
  | Ok pathInfo =>
    match fi_kind pathInfo with
    | KSymlink => if keepDir o then mret (None, Ok ()) else plain (remove_dir "localdir clear remove symlink")
    | KDir =>
      opened ← call (OsOpenRoot (dir o));
      match opened with
      | Err e => mret (None, if is_not_exist e then Ok () else Err (os_err "localdir clear open root" (dir o) e))
      | Ok r => out ← clearRootHandle c r; mret (Some r, out)
      end
    | _ =>
      if keepDir o
      then mret (None, Err (newInvalidDirError ("dir is not a directory: " +:+ strconv_Quote (dir o))))
      else plain (remove_dir "localdir clear remove non-dir")
    end
  end.

Definition Clear (c : option ctx) : fproc (result unit) :=
  let c := ensureContext c in
  ended ← call (CtxErr c);
  match ended with
  | Some e => mret (Err e)
  | None =>
    begun ← call (ClearBegin c);
    match begun with
    | Err e => mret (Err e)
    | Ok false => mret (Ok ())
    | Ok true =>
      drained ← call (ClearDrain c);
      match drained with
      | Err e => mret (Err e)
      | Ok currentRoot =>
        '(opened, out) ← match currentRoot with
                         | None => clear_path c
                         | Some r => (out ← clearRootHandle c r; mret (None, out))
                         end;
        _ ← call (ClearFinish (is_ok out));
        _ ← match opened with
            | Some r => (_ ← call (RootClose r); mret ())
            | None => mret ()
            end;
        mret out
      end
    end
  end.
End instance.
End LocalDirOps.
