(* ===== verification/LocalDirLife.v ===== *)
(** * Sharing one localdir instance between goroutines

    Any number of goroutines call the methods of [LocalDirOps] on one instance; their
    critical sections and calls to the operating system interleave. A role records how
    far a goroutine is in the instance's protocol, as the calls it has made tell;
    [advance] is the protocol, every method follows it, and the invariant of the
    shared state gives [clear_excludes_ops]: clearing and working never overlap. *)

From S2P Require Import Prelude GoString GoError GoValue WorkspaceTypes Proc WorkspaceWorld LocalDir LocalDirOps.
From stdpp Require Import options.
Set Default Proof Using "Type*".

Module LocalDirLife.
Import LocalDir Life LocalDirOps.

(** ** The protocol *)

Inductive role :=
| RNone                                   (* outside every section *)
| RInit                                   (* between [InitEnter] and [InitUnlock] *)
| RInitOpen (r : root_handle)             (* holding a root that is not stored yet *)
| RInitDone                               (* the root is stored or closed *)
| ROp (r : root_handle) (subs : list root_handle)   (* between [BeginOp] and [Release] *)
| RDrain                                  (* [Clear] waiting for the operations to end *)
| RClean (cur own : option root_handle)   (* [Clear] removing: the instance's root or its own *)
| RLate (r : root_handle).                (* [Clear] done, its own root still open *)

Definition is_op (ρ : role) : bool := match ρ with ROp _ _ => true | _ => false end.
Definition is_clear (ρ : role) : bool := match ρ with RDrain | RClean _ _ => true | _ => false end.
Definition is_init (ρ : role) : bool :=
  match ρ with RInit | RInitOpen _ | RInitDone => true | _ => false end.

(** The handles only this goroutine has. *)
Definition privates (ρ : role) : list root_handle :=
  match ρ with
  | RInitOpen r | RLate r => [r]
  | ROp _ subs => subs
  | RClean _ (Some r) => [r]
  | _ => []
  end.

(** Which handles a role works through. *)
Definition may_use (ρ : role) (r : root_handle) : bool :=
  match ρ with
  | ROp r' subs => bool_decide (r = r' ∨ r ∈ subs)
  | RClean cur own => bool_decide (cur = Some r ∨ own = Some r)
  | _ => false
  end.

Definition guard (b : bool) (ρ : role) : option role := if b then Some ρ else None.

Definition may_remove (ρ : role) : bool := match ρ with RClean _ _ => true | _ => false end.

Definition advance (ρ : role) (X : Type) (e : fcall X) : X → option role :=
  match e in fcall X return X → option role with
  | BeginOp _ => λ x, match ρ, x with
                      | RNone, Ok r => Some (ROp r [])
                      | RNone, Err _ => Some RNone
                      | _, _ => None
                      end
  | Release => λ _, match ρ with ROp _ [] => Some RNone | _ => None end
  | InitEnter _ => λ x, match ρ, x with
                        | RNone, Ok EntFresh => Some RInit
                        | RNone, _ => Some RNone
                        | _, _ => None
                        end
  | SetRoot _ r => λ x, match ρ, x with
                        | RInitOpen r', None => guard (bool_decide (r = r')) RInitDone
                        | RInitOpen r', Some _ => guard (bool_decide (r = r')) ρ
                        | _, _ => None
                        end
  | InitUnlock => λ _, match ρ with RInit | RInitDone => Some RNone | _ => None end
  | ClearBegin _ => λ x, match ρ, x with
                         | RNone, Ok true => Some RDrain
                         | RNone, _ => Some RNone
                         | _, _ => None
                         end
  | ClearDrain _ => λ x, match ρ, x with
                         | RDrain, Ok cur => Some (RClean cur None)
                         | RDrain, Err _ => Some RNone
                         | _, _ => None
                         end
  | ClearFinish _ => λ _, match ρ with
                          | RClean _ (Some r) => Some (RLate r)
                          | RClean _ None => Some RNone
                          | _ => None
                          end
  | OsOpenRoot _ => λ x, match ρ, x with
                         | RInit, Ok r => Some (RInitOpen r)
                         | RClean None None, Ok r => Some (RClean None (Some r))
                         | RInit, Err _ | RClean None None, Err _ => Some ρ
                         | _, _ => None
                         end
  | RootOpenRoot r _ => λ x, match ρ, x with
                             | ROp r' subs, Ok s => guard (may_use ρ r) (ROp r' (s :: subs))
                             | ROp _ _, Err _ => guard (may_use ρ r) ρ
                             | _, _ => None
                             end
  | RootClose r => λ _, match ρ with
                        | RInitOpen r' => guard (bool_decide (r = r')) RInitDone
                        | RLate r' => guard (bool_decide (r = r')) RNone
                        | ROp r' (s :: subs) => guard (bool_decide (r = s)) (ROp r' subs)
                        | _ => None
                        end
  | RootOpen r _ | RootStat r _ => λ _, guard (may_use ρ r) ρ
  | RootMkdirAll r _ _ | RootCreate r _ _ => λ _, guard (is_op ρ && may_use ρ r) ρ
  | RootRename r _ _ | RootRemove r _ => λ _, guard (is_op ρ && may_use ρ r) ρ
  | RootRemoveAll r _ => λ _, guard (may_remove ρ && may_use ρ r) ρ
  | OsRemove _ => λ _, guard (may_remove ρ) ρ
  | OsMkdirAll _ _ => λ _, guard (is_init ρ) ρ
  | RunCommand _ _ _ _ _ => λ _, guard (is_op ρ) ρ
  | HttpDo _ _ _ _ => λ _, guard (is_op ρ) ρ
  | _ => λ _, Some ρ
  end.

Abbreviation plays := (follows advance).

(** ** Every method follows it *)

Create HintDb localdir.

(** Walks through a procedure call by call. *)
Ltac play :=
  repeat (cbn beta iota; lazymatch goal with
  | |- plays _ (call _ ≫= _) _ => apply follows_call_bind; intros ?
  | |- plays _ (call _) _ => intros ?
  | |- plays _ (deferred _ _) _ => apply follows_deferred
  | |- plays _ (mret _) _ => cbn
  | |- plays _ (Ret _) _ => cbn
  | |- plays _ (if decide _ then _ else _) _ => case_decide
  | |- plays _ (match ?x with _ => _ end) _ => destruct x
  | |- plays _ (let _ := _ in _) _ => cbn zeta
  | |- plays _ ((match ?x with _ => _ end) ≫= _) _ => destruct x
  | |- plays _ ((call _ ≫= _) ≫= _) _ => apply follows_bind
  | |- plays _ (mret _ ≫= _) _ => apply follows_bind
  | |- ∃ t', _ ∧ _ => eexists; split; [solve [simpl; rewrite ?bool_decide_true by (auto; by left); done]|]
  end).

(** A procedure that leaves the role as it is. *)
Definition stays {A} (ρ : role) (p : fproc A) : Prop := plays ρ p (λ _ ρ', ρ' = ρ).

Lemma stays_bind {A B} ρ (p : fproc A) (f : A → fproc B) Post :
  stays ρ p → (∀ a, plays ρ (f a) Post) → plays ρ (p ≫= f) Post.
Proof.
  intros Hp Hf. apply follows_bind. eapply follows_mono; [|exact Hp]. intros a ρ' ->. apply Hf.
Qed.

Lemma dirIsEmpty_stays ρ d : stays ρ (dirIsEmpty d).
Proof. unfold dirIsEmpty, stays. play. done. Qed.

Section methods.
Context (o : options).

Lemma init_dir_stays : stays RInit (init_dir o).
Proof.
  unfold init_dir, stays. apply follows_call_bind. intros [pi|e]; [|by eexists; split].
  eexists. split; [done|]. case_decide; [done|]. apply follows_call_bind. intros [info|e].
  - eexists. split; [done|]. do 2 (case_decide; [done|]).
    apply stays_bind; [apply dirIsEmpty_stays|]. intros [[]|]; try done.
    apply stays_bind; [apply dirIsEmpty_stays|]. by intros [[]|].
  - eexists. split; [done|]. destruct (is_not_exist e); [|done].
    apply follows_call_bind. intros [u|]; eexists; (split; [done|]); [|done].
    apply stays_bind; [apply dirIsEmpty_stays|]. by intros [[]|].
Qed.

Lemma open_root_plays c op : plays RInit (open_root o c op) (λ _ ρ, ρ = RInit ∨ ρ = RInitDone).
Proof.
  unfold open_root, setRootLocked. apply follows_call_bind. intros [r|e]; (eexists; split; [done|]); [|by left].
  apply follows_call_bind. intros [out|]; (eexists; split; [simpl; by rewrite bool_decide_true|]).
  - apply follows_call_bind. intros u. eexists. split; [simpl; by rewrite bool_decide_true|]. by right.
  - by right.
Qed.

Lemma unlock_plays (ρ : role) {A} (Post : A → role → Prop) a :
  ρ = RInit ∨ ρ = RInitDone → Post a RNone → plays ρ (call InitUnlock) (λ _ ρ', Post a ρ').
Proof. intros [-> | ->] HP u; by exists RNone. Qed.

Lemma Init_plays c : stays RNone (Init o c).
Proof.
  unfold Init, stays. apply follows_call_bind. intros [e|]; (eexists; split; [done|]); [done|].
  apply follows_call_bind. intros [[]|e]; (eexists; split; [done|]); try done.
  apply follows_deferred. apply stays_bind; [apply init_dir_stays|]. intros [u|e].
  - eapply follows_mono; [|apply open_root_plays]. intros a ρ Hρ. by apply (unlock_plays _ (λ _ ρ', ρ' = RNone) a).
  - apply (unlock_plays RInit (λ _ ρ', ρ' = RNone) (Err e : result unit)); [by left|done].
Qed.

Lemma Open_plays c : stays RNone (Open o c).
Proof.
  unfold Open, stays. apply follows_call_bind. intros [e|]; (eexists; split; [done|]); [done|].
  apply follows_call_bind. intros [[]|e]; (eexists; split; [done|]); try done.
  apply follows_deferred. apply stays_bind.
  { unfold open_dir, stays. apply follows_call_bind. intros x. by eexists. }
  intros [u|e].
  - eapply follows_mono; [|apply open_root_plays]. intros a ρ Hρ. by apply (unlock_plays _ (λ _ ρ', ρ' = RNone) a).
  - apply (unlock_plays RInit (λ _ ρ', ρ' = RNone) (Err e : result unit)); [by left|done].
Qed.

(** What runs inside an operation gives back the role it was given. *)
Lemma with_root_plays {A} c (body : root_handle → fproc (result A)) :
  (∀ r, stays (ROp r []) (body r)) → stays RNone (with_root c body).
Proof.
  intros Hbody. unfold with_root, stays. apply follows_call_bind.
  intros [r|e]; (eexists; split; [done|]); [|done].
  apply follows_deferred. eapply follows_mono; [|apply Hbody]. intros a ρ' -> u. by exists RNone.
Qed.

(** A call that leaves the role as it is, whatever the answer. *)
Definition idle_call {X} (ρ : role) (e : fcall X) : Prop := ∀ x, advance ρ X e x = Some ρ.

Lemma idle_bind {X A} ρ (e : fcall X) (k : X → fproc A) Post :
  idle_call ρ e → (∀ x, plays ρ (k x) Post) → plays ρ (call e ≫= k) Post.
Proof. intros He Hk x. exists ρ. split; [apply He|apply Hk]. Qed.

Lemma stays_mret {A} ρ (a : A) : stays ρ (mret a).
Proof. done. Qed.

Lemma stays_call {X} ρ (e : fcall X) : idle_call ρ e → stays ρ (call e).
Proof. intros He x. exists ρ. split; [apply He|done]. Qed.

Lemma stays_deferred {A} ρ (f : fproc unit) (body : fproc A) :
  stays ρ body → stays ρ f → stays ρ (deferred f body).
Proof.
  intros Hb Hf. apply follows_deferred. eapply follows_mono; [|exact Hb]. intros a ρ' ->. exact Hf.
Qed.

(** A root handle in use. *)
Lemma use_idle ρ r (P : Prop) `{!Decision P} : may_use ρ r = true → guard (may_use ρ r) ρ = Some ρ.
Proof. by intros ->. Qed.

Lemma op_may_use r subs s : r = s ∨ s ∈ subs → may_use (ROp r subs) s = true.
Proof. intros H. simpl. apply bool_decide_eq_true. destruct H as [->|]; auto. Qed.

Ltac idle := intros ?; simpl; rewrite ?bool_decide_true by (auto; by left); done.

(** Walks through a procedure all of whose calls leave the role as it is. *)
Ltac stay :=
  unfold stays;
  repeat (cbn beta iota zeta; lazymatch goal with
  | |- plays _ (call _ ≫= _) _ => apply idle_bind; [idle|intros ?]
  | |- plays _ (call _) _ => apply stays_call; idle
  | |- plays _ (deferred _ _) _ => apply stays_deferred; unfold stays
  | |- plays _ (mret _) _ => apply stays_mret
  | |- plays _ (if decide _ then _ else _) _ => case_decide
  | |- plays _ (match ?x with _ => _ end) _ => destruct x
  | |- plays _ ((call _ ≫= _) ≫= _) _ => apply stays_bind; [unfold stays|intros ?]
  | |- plays _ (_ ≫= _) _ => apply stays_bind; [try solve [eauto with localdir]; unfold stays|intros ?]
  end).

Lemma syncRootDir_stays r d : stays (ROp r []) (syncRootDir r d).
Proof. unfold syncRootDir. stay. Qed.
Hint Resolve syncRootDir_stays : localdir.

Lemma write_and_rename_stays c r path cleanPath parent tmpPath content f :
  stays (ROp r []) (write_and_rename c r path cleanPath parent tmpPath content f).
Proof. unfold write_and_rename. stay. Qed.
Hint Resolve write_and_rename_stays : localdir.

Lemma PutFile_plays c path content mode : stays RNone (PutFile o c path content mode).
Proof.
  apply with_root_plays. intros r. unfold put_in. stay.
Qed.

Lemma GetFile_plays c path : stays RNone (GetFile c path).
Proof. apply with_root_plays. intros r. unfold get_in. stay. Qed.

Lemma Read_plays rd len : stays RNone (Read rd len).
Proof.
  unfold Read. generalize len at 1. intros fuel. generalize "". revert len.
  induction fuel as [|fuel IH]; intros len acc; [by destruct len|]. destruct len as [|len]; [done|].
  cbn [read_chunks]. apply idle_bind; [done|]. intros [e|]; [done|].
  apply idle_bind; [done|]. intros [data [e|]]; [done|]. case_decide; [done|]. apply IH.
Qed.

Lemma Request_plays c port req : stays RNone (Request o c port req).
Proof. apply with_root_plays. intros r. unfold request_in. stay. Qed.

Lemma is_root_fd_stays r f i : stays (ROp r []) (is_root_fd o r f i).
Proof. unfold is_root_fd. stay. Qed.
Hint Resolve is_root_fd_stays : localdir.

Lemma resolveExecDir_stays r wd : stays (ROp r []) (resolveExecDir r wd).
Proof.
  unfold resolveExecDir, stays. case_decide; [done|]. cbv zeta. apply follows_call_bind.
  intros [s|e]; [|eexists; split; [simpl; by rewrite bool_decide_true by auto|done]].
  exists (ROp r [s]). split; [simpl; by rewrite bool_decide_true by auto|].
  apply follows_deferred. apply follows_call_bind. intros x. exists (ROp r [s]).
  split; [simpl; rewrite bool_decide_true; [done|right; by left]|].
  assert (∀ a : result (string * nat), plays (ROp r [s]) (_ ← call (RootClose s); mret ()) (λ _ ρ', ρ' = ROp r [])) as Hclose.
  { intros a. apply follows_call_bind. intros y. exists (ROp r []). split; [simpl; by rewrite bool_decide_true|done]. }
  destruct x as [fd|e].
  - apply idle_bind; [done|]. intros n. apply (Hclose (Err EOF)).
  - apply (Hclose (Err EOF)).
Qed.
Hint Resolve resolveExecDir_stays : localdir.

Lemma run_command_stays c r cmd d : stays (ROp r []) (run_command o c cmd d).
Proof. unfold run_command. stay. Qed.
Hint Resolve run_command_stays : localdir.

Lemma Exec_plays c cmd : stays RNone (Exec o c cmd).
Proof. apply with_root_plays. intros r. unfold exec_in. stay. apply run_command_stays. Qed.

(** *** Clearing *)

Lemma clean_may_use cur own r : cur = Some r ∨ own = Some r → may_use (RClean cur own) r = true.
Proof. intros H. by apply bool_decide_eq_true. Qed.

Lemma clearRootHandle_stays c cur own r :
  cur = Some r ∨ own = Some r → stays (RClean cur own) (clearRootHandle o c r).
Proof.
  intros Hr. apply clean_may_use in Hr.
  assert (∀ b : bool, b = true → guard b (RClean cur own) = Some (RClean cur own)) as Hg by (by intros ? ->).
  assert (∀ entries, stays (RClean cur own) (remove_entries c r entries)) as Hrem.
  { induction entries as [|e entries IH]; [done|]. cbn [remove_entries]. apply idle_bind; [done|].
    intros [e'|]; [done|]. apply idle_bind; [intros x; by apply Hg|]. intros [u|e']; [apply IH|done]. }
  assert (stays (RClean cur own) (clearRootContents c r)) as Hcont.
  { unfold clearRootContents. apply idle_bind; [intros x; by apply Hg|]. intros [d|e]; [|done].
    apply idle_bind; [done|]. intros entries. apply idle_bind; [done|]. intros closed.
    destruct entries, closed; done || apply Hrem. }
  unfold clearRootHandle. apply idle_bind; [intros x; by apply Hg|]. intros [ri|e]; [|done].
  apply stays_bind; [exact Hcont|]. intros [u|e]; [|done]. destruct (keepDir o); [done|].
  apply idle_bind; [done|]. intros [pi|e]; [|done]. destruct (SameFile ri pi); [|done].
  unfold remove_dir. by apply idle_bind.
Qed.

Lemma clear_path_plays c :
  plays (RClean None None) (clear_path o c) (λ out ρ, ρ = RClean None out.1).
Proof.
  assert (∀ what, plays (RClean None None) (out ← remove_dir o what; mret (@None nat, out))
    (λ out ρ, ρ = RClean None out.1)) as Hrm.
  { intros what. apply stays_bind; [|done]. unfold remove_dir. by apply idle_bind. }
  unfold clear_path. cbv zeta. apply idle_bind; [done|]. intros [pi|e]; [|done].
  destruct (fi_kind pi); try (destruct (keepDir o); [done|apply Hrm]).
  apply follows_call_bind. intros [r|e].
  - exists (RClean None (Some r)). split; [done|].
    apply stays_bind; [|done]. apply clearRootHandle_stays. by right.
  - by eexists.
Qed.

Lemma Clear_plays c : stays RNone (Clear o c).
Proof.
  unfold Clear, stays. apply idle_bind; [done|]. intros [e|]; [done|].
  apply follows_call_bind. intros [[]|e]; (eexists; split; [done|]); try done.
  apply follows_call_bind. intros [cur|e]; (eexists; split; [done|]); [|done].
  apply follows_bind. apply (follows_mono _ _ _ (λ out ρ, ρ = RClean cur out.1 ∧ (cur ≠ None → out.1 = None))).
  - intros [own out] ρ [-> Hown]. apply follows_call_bind. intros u. destruct own as [r|]; cbv beta iota.
    + exists (RLate r). split; [by destruct cur|]. apply follows_bind, follows_call_bind. intros x.
      exists RNone. split; [simpl; by rewrite bool_decide_true|done].
    + exists RNone. split; [by destruct cur|done].
  - destruct cur as [r|].
    + apply stays_bind; [apply clearRootHandle_stays; by left|done].
    + eapply follows_mono; [|apply clear_path_plays]. done.
Qed.
End methods.

(** ** Goroutines sharing the instance *)

Record shared := {
  s_life : life;
  s_issued : gset root_handle;      (* roots the operating system ever handed out *)
  s_closed : gset root_handle;
}.

Definition with_life (s : shared) (l : life) : shared :=
  {| s_life := l; s_issued := s_issued s; s_closed := s_closed s |}.

(** A section runs when the mutex is free and its wait is over; a wait may end with an
    error of the context at any time the mutex is free. The operating system hands out
    new handles and may answer anything else. *)
Definition shared_answers : answers fcall shared := λ X e s,
  let l := s_life s in
  match e in fcall X return X → shared → Prop with
  | BeginOp _ => λ x s', locked l = false ∧
      ((clearing l = false ∧ x = (beginOp l).1 ∧ s' = with_life s (beginOp l).2) ∨ ((∃ e, x = Err e) ∧ s' = s))
  | Release => λ _ s', locked l = false ∧ s' = with_life s (release l)
  | InitEnter _ => λ x s', locked l = false ∧
      ((clearing l = false ∧ x = Ok (init_enter l).1 ∧ s' = with_life s (init_enter l).2) ∨
       ((∃ e, x = Err e) ∧ s' = s))
  | SetRoot _ r => λ x s',
      (x = (set_root r l).1 ∧ s' = with_life s (set_root r l).2) ∨ ((∃ e, x = Some (Err e)) ∧ s' = s)
  | InitUnlock => λ _ s', s' = with_life s (set_locked l false)
  | ClearBegin _ => λ x s', locked l = false ∧
      ((clearing l = false ∧ x = Ok (clear_begin l).1 ∧ s' = with_life s (clear_begin l).2) ∨
       ((∃ e, x = Err e) ∧ s' = s))
  | ClearDrain _ => λ x s', locked l = false ∧
      (((activeOps l ≤ 0)%Z ∧ x = Ok (root l) ∧ s' = s) ∨ ((∃ e, x = Err e) ∧ s' = with_life s (set_clearing l false)))
  | ClearFinish ok => λ _ s', locked l = false ∧
      s' = {| s_life := (clear_finish ok l).2; s_issued := s_issued s;
              s_closed := match (clear_finish ok l).1 with Some r => {[r]} ∪ s_closed s | None => s_closed s end |}
  | OsOpenRoot _ | RootOpenRoot _ _ => λ x s',
      match x with
      | Ok r => (r ∉ s_issued s) ∧ s' = {| s_life := l; s_issued := {[r]} ∪ s_issued s; s_closed := s_closed s |}
      | Err _ => s' = s
      end
  | RootClose r => λ _ s', s' = {| s_life := l; s_issued := s_issued s; s_closed := {[r]} ∪ s_closed s |}
  | _ => λ _ s', s' = s
  end.

Record sys := { sh : shared; gos : list (role * fproc unit) }.

(** A call of a method by some goroutine. *)
Inductive api (o : options) : fproc unit → Prop :=
| ApiInit c : api o (_ ← Init o c; mret ())
| ApiOpen c : api o (_ ← Open o c; mret ())
| ApiPutFile c path content mode : api o (_ ← PutFile o c path content mode; mret ())
| ApiGetFile c path : api o (_ ← GetFile c path; mret ())
| ApiRead rd len : api o (_ ← Read rd len; mret ())
| ApiClose rd : api o (_ ← Close rd; mret ())
| ApiExec c cmd : api o (_ ← Exec o c cmd; mret ())
| ApiRequest c port req : api o (_ ← Request o c port req; mret ())
| ApiClear c : api o (_ ← Clear o c; mret ()).

(** What a call makes of a role. *)
Definition role_after (ρ : role) {X} (e : fcall X) (x : X) : role := default ρ (advance ρ X e x).

Inductive sys_step (o : options) : relation sys :=
| Spawn s p : api o p → sys_step o s {| sh := sh s; gos := gos s ++ [(RNone, p)] |}
| Step s i ρ X (e : fcall X) k x sh' :
    gos s !! i = Some (ρ, Do e k) → shared_answers X e (sh s) x sh' →
    sys_step o s {| sh := sh'; gos := <[i := (role_after ρ e x, k x)]> (gos s) |}.

Definition fresh_sys : sys := {| sh := {| s_life := new_life; s_issued := ∅; s_closed := ∅ |}; gos := [] |}.

Definition sys_reachable (o : options) (s : sys) : Prop := rtc (sys_step o) fresh_sys s.

Lemma api_plays o p : api o p → stays RNone p.
Proof.
  intros []; (apply stays_bind; [|done]).
  - apply Init_plays.
  - apply Open_plays.
  - apply PutFile_plays.
  - apply GetFile_plays.
  - apply Read_plays.
  - by apply stays_call.
  - apply Exec_plays.
  - apply Request_plays.
  - apply Clear_plays.
Qed.

(** ** The invariant *)

Definition role_ok (s : shared) (ρ : role) : Prop :=
  let l := s_life s in
  match ρ with
  | RNone | RDrain | RInitDone | RLate _ => True
  | RInit | RInitOpen _ => root l = None
  | ROp r _ => root l = Some r
  | RClean cur _ => root l = cur ∧ (activeOps l ≤ 0)%Z
  end.

Definition handles (s : shared) (roles : list role) : list root_handle :=
  option_list (root (s_life s)) ++ (roles ≫= privates).

Record sys_inv (s : shared) (roles : list role) : Prop := {
  inv_ops : activeOps (s_life s) = Z.of_nat (count_if is_op roles);
  inv_clear : count_if is_clear roles = if clearing (s_life s) then 1 else 0;
  inv_init : count_if is_init roles = if locked (s_life s) then 1 else 0;
  inv_excl : clearing (s_life s) = true → locked (s_life s) = false;
  inv_roles : Forall (role_ok s) roles;
  inv_root : initialized (s_life s) = bool_decide (is_Some (root (s_life s)));
  inv_cleared : cleared (s_life s) = true → root (s_life s) = None;
  inv_quiet : cleared (s_life s) = true → clearing (s_life s) = false ∧ locked (s_life s) = false;
  inv_nodup : NoDup (handles s roles);
  inv_handles : ∀ r, r ∈ handles s roles → r ∈ s_issued s ∧ r ∉ s_closed s;
  inv_closed : s_closed s ⊆ s_issued s }.

#[local] Instance sys_inv_perm s : Proper ((≡ₚ) ==> iff) (sys_inv s).
Proof.
  assert (∀ a b, a ≡ₚ b → sys_inv s a → sys_inv s b) as H.
  { intros a b E [H1 H2 H3 H4 H5 H6 H7 Hq H8 H9 H10].
    assert (handles s a ≡ₚ handles s b) as Eh by (unfold handles; by rewrite E).
    split; try done; rewrite <-?E, <-?Eh; try done. intros r. rewrite <-Eh. apply H9. }
  intros a b E. split; apply H; [done|by symmetry].
Qed.

Lemma count_if_none {A} (f : A → bool) l x : count_if f l = 0 → x ∈ l → f x = false.
Proof. intros H. by apply count_if_zero. Qed.

(** One step of one goroutine keeps the invariant: a lemma per section or handle call,
    [rest] being the other goroutines. *)

Ltac open_inv H :=
  destruct H as [Hops Hclr Hini Hex Hall Hroot Hcl Hq Hnd Hh Hci];
  apply Forall_cons in Hall as [Hρ Hrest];
  rewrite !count_if_cons in *; cbn [is_op is_clear is_init] in *.

(** The other goroutines' roles stay right when the change cannot concern them. *)
Lemma rest_ok s s' rest :
  Forall (role_ok s) rest → (∀ ρ, ρ ∈ rest → role_ok s ρ → role_ok s' ρ) → Forall (role_ok s') rest.
Proof. rewrite !Forall_forall. auto. Qed.

(** A section that keeps the root and the goroutine's own handles. *)
Lemma life_step s ρ ρ' rest l' :
  sys_inv s (ρ :: rest) → root l' = root (s_life s) → initialized l' = initialized (s_life s) →
  cleared l' = cleared (s_life s) → privates ρ' = privates ρ →
  activeOps l' = Z.of_nat ((if is_op ρ' then 1 else 0) + count_if is_op rest) →
  ((if is_clear ρ' then 1 else 0) + count_if is_clear rest = if clearing l' then 1 else 0) →
  ((if is_init ρ' then 1 else 0) + count_if is_init rest = if locked l' then 1 else 0) →
  (clearing l' = true → locked l' = false) → role_ok (with_life s l') ρ' →
  (cleared (s_life s) = true → clearing l' = false ∧ locked l' = false) →
  (∀ ρ0, ρ0 ∈ rest → role_ok s ρ0 → role_ok (with_life s l') ρ0) →
  sys_inv (with_life s l') (ρ' :: rest).
Proof.
  intros H Hr Hi Hc Hp H1 H2 H3 H4 H5 Hq' H6. open_inv H. split; simpl; rewrite ?count_if_cons, ?Hr, ?Hi, ?Hc; try done.
  - constructor; [done|]. by eapply rest_ok.
  - unfold handles in *. simpl in *. by rewrite Hr, Hp.
  - intros r Hin. apply (Hh r). unfold handles in *. simpl in *. by rewrite Hr, Hp in Hin.
Qed.

(** Nothing but the role changes. *)
Lemma idle_step s ρ ρ' rest :
  sys_inv s (ρ :: rest) → privates ρ' = privates ρ → is_op ρ' = is_op ρ → is_clear ρ' = is_clear ρ →
  is_init ρ' = is_init ρ → role_ok s ρ' → sys_inv s (ρ' :: rest).
Proof.
  intros H Hp Ho Hc Hi Hok. open_inv H. split; rewrite ?count_if_cons, ?Ho, ?Hc, ?Hi; try done.
  - by constructor.
  - unfold handles in *. simpl in *. by rewrite Hp.
  - intros r Hin. apply (Hh r). unfold handles in *. simpl in *. by rewrite Hp in Hin.
Qed.

Lemma with_life_id s : with_life s (s_life s) = s.
Proof. by destruct s. Qed.

Lemma no_role (f : role → bool) rest (ρ : role) n : n + count_if f rest = 0 → ρ ∈ rest → f ρ = false.
Proof. intros H Hin. apply (count_if_none f rest); [lia|done]. Qed.

Lemma begin_op_step s rest c x s' :
  sys_inv s (RNone :: rest) → shared_answers _ (BeginOp c) s x s' →
  sys_inv s' ((match x with Ok r => ROp r [] | Err _ => RNone end) :: rest).
Proof.
  intros H [Hlock [(Hc & -> & ->)|([e ->] & ->)]]; [|done]. unfold beginOp.
  destruct (cleared (s_life s)) eqn:Ecl; [by rewrite with_life_id|].
  destruct (initialized (s_life s)) eqn:Eini, (root (s_life s)) as [r|] eqn:Er;
    try (by rewrite with_life_id). cbn [fst snd].
  eapply life_step; [exact H|done..| | | | | | |]; open_inv H; simpl; rewrite ?Hc in *; try done.
  - lia.
  - intros ρ Hin Hok. pose proof (no_role _ _ _ 0 Hclr Hin). unfold role_ok in *. simpl. by destruct ρ.
Qed.

Lemma release_step s rest r s' :
  sys_inv s (ROp r [] :: rest) → shared_answers _ Release s () s' → sys_inv s' (RNone :: rest).
Proof.
  intros H [Hlock ->]. eapply life_step; [exact H|done..| | | | | | |]; open_inv H; simpl; try done; [lia|].
  intros ρ Hin Hok. unfold role_ok in *. simpl in *. destruct ρ; try done. destruct Hok. lia.
Qed.

Lemma init_enter_step s rest c x s' :
  sys_inv s (RNone :: rest) → shared_answers _ (InitEnter c) s x s' →
  sys_inv s' ((match x with Ok EntFresh => RInit | _ => RNone end) :: rest).
Proof.
  intros H [Hlock [(Hc & -> & ->)|([e ->] & ->)]]; [|done]. unfold init_enter.
  destruct (cleared (s_life s)) eqn:Ecl; [by rewrite with_life_id|].
  destruct (initialized (s_life s)) eqn:Eini; [by rewrite with_life_id|]. cbn [fst snd].
  eapply life_step; [exact H|done..| | | | | | |]; open_inv H; simpl; rewrite ?Hc, ?Hlock in *; try done; try lia.
  - rewrite Eini in Hroot. symmetry in Hroot. apply bool_decide_eq_false in Hroot. by apply eq_None_not_Some.
  - by rewrite Ecl.
Qed.

Lemma init_unlock_step s ρ rest s' :
  ρ = RInit ∨ ρ = RInitDone →
  sys_inv s (ρ :: rest) → shared_answers _ InitUnlock s () s' → sys_inv s' (RNone :: rest).
Proof.
  intros Hρ' H ->. assert (privates ρ = []) as Hp by (by destruct Hρ' as [-> | ->]).
  eapply life_step; [exact H|done|done|done|by rewrite Hp|..]; open_inv H; simpl; try done;
    destruct Hρ' as [-> | ->]; cbn [is_op is_clear is_init] in *; try done;
    solve [destruct (locked (s_life s)); lia | intros [? ?]%Hq; done].
Qed.

Lemma clear_begin_step s rest c x s' :
  sys_inv s (RNone :: rest) → shared_answers _ (ClearBegin c) s x s' →
  sys_inv s' ((match x with Ok true => RDrain | _ => RNone end) :: rest).
Proof.
  intros H [Hlock [(Hc & -> & ->)|([e ->] & ->)]]; [|done]. unfold clear_begin.
  destruct (cleared (s_life s)) eqn:Ecl; [by rewrite with_life_id|]. cbn [fst snd].
  eapply life_step; [exact H|done..| | | | | | |]; open_inv H; simpl; rewrite ?Hc in *; try done; [lia|].
  by rewrite Ecl.
Qed.

Lemma clear_drain_step s rest c x s' :
  sys_inv s (RDrain :: rest) → shared_answers _ (ClearDrain c) s x s' →
  sys_inv s' ((match x with Ok cur => RClean cur None | Err _ => RNone end) :: rest).
Proof.
  intros H [Hlock [(Hops0 & -> & ->)|([e ->] & ->)]].
  - by eapply idle_step.
  - eapply life_step; [exact H|done..| | | | | | |]; open_inv H; simpl; try done.
    all: try (intros Hcc; by destruct (Hq Hcc)).
    destruct (clearing (s_life s)); lia.
Qed.

Lemma clear_finish_step s cur own ok rest s' :
  sys_inv s (RClean cur own :: rest) → shared_answers _ (ClearFinish ok) s () s' →
  sys_inv s' ((match own with Some r => RLate r | None => RNone end) :: rest).
Proof.
  intros H [Hlock ->]. open_inv H. destruct Hρ as [Hcur Hops0].
  assert (count_if is_op rest = 0 ∧ count_if is_init rest = 0 ∧ count_if is_clear rest = 0) as (Ho & Hi & Hc).
  { rewrite Hlock in Hini. destruct (clearing (s_life s)); lia. }
  set (ρ' := match own with Some r => RLate r | None => RNone end).
  assert (privates ρ' = privates (RClean cur own)) as Hp by (by destruct own).
  assert (is_op ρ' = false ∧ is_clear ρ' = false ∧ is_init ρ' = false) as (E1 & E2 & E3) by (by destruct own).
  split; cbn [s_life clear_finish snd activeOps clearing locked root initialized cleared];
    rewrite ?count_if_cons, ?E1, ?E2, ?E3, ?Ho, ?Hc, ?Hi, ?Hlock; try done.
  - lia.
  - constructor; [by destruct own|]. eapply rest_ok; [exact Hrest|]. intros ρ Hin _.
    pose proof (count_if_none _ _ _ Ho Hin). pose proof (count_if_none _ _ _ Hi Hin).
    pose proof (count_if_none _ _ _ Hc Hin). by destruct ρ.
  - unfold handles in *. simpl in *. rewrite Hp. by apply NoDup_app in Hnd as (_ & _ & Hnd).
  - intros r Hin. unfold handles in *. simpl in *. rewrite Hp in Hin.
    assert (r ∈ option_list (root (s_life s)) ++ privates (RClean cur own) ++ (rest ≫= privates)) as Hin'
      by (apply elem_of_app; by right).
    destruct (Hh r Hin') as [His Hcl']. split; [done|].
    destruct (root (s_life s)) as [r0|] eqn:Er; simpl; [|done].
    intros [->%elem_of_singleton|?]%elem_of_union; [|done].
    apply NoDup_app in Hnd as (_ & Hd & _). by apply (Hd r0); [left|].
  - simpl. destruct (root (s_life s)) as [r0|] eqn:Er; [|done]. intros r [->%elem_of_singleton|?]%elem_of_union; [|by apply Hci].
    apply Hh. unfold handles. rewrite Er. by left.
Qed.

(** [setRootLocked]: the new root goes from the goroutine to the instance. *)
Lemma set_root_step s rest c r x s' :
  sys_inv s (RInitOpen r :: rest) → shared_answers _ (SetRoot c r) s x s' →
  sys_inv s' ((match x with None => RInitDone | Some _ => RInitOpen r end) :: rest).
Proof.
  intros H [[-> ->]|([e ->] & ->)]; [|done]. unfold set_root.
  destruct (cleared (s_life s)) eqn:Ecl; [by rewrite with_life_id|].
  destruct (initialized (s_life s)) eqn:Eini; [by rewrite with_life_id|]. cbn [fst snd].
  open_inv H. cbn [role_ok] in Hρ.
  assert (count_if is_init rest = 0 ∧ count_if is_clear rest = 0) as [Hi Hc].
  { destruct (locked (s_life s)); [|lia]. destruct (clearing (s_life s)); [by specialize (Hex eq_refl)|lia]. }
  split; cbn [s_life with_life activeOps clearing locked root initialized cleared];
    rewrite ?count_if_cons; cbn [is_op is_clear is_init]; try done; try lia.
  - constructor; [done|]. eapply rest_ok; [exact Hrest|]. intros ρ Hin Hok.
    pose proof (count_if_none _ _ _ Hi Hin). pose proof (count_if_none _ _ _ Hc Hin).
    unfold role_ok in Hok. rewrite Hρ in Hok. by destruct ρ.
  - unfold handles in *. simpl in *. by rewrite Hρ in Hnd.
  - intros r' Hin. apply Hh. unfold handles in *. simpl in *. by rewrite Hρ.
Qed.

(** A handle the operating system has just made goes to the goroutine that asked. *)
Lemma fresh_step s ρ ρ' rest r s' :
  sys_inv s (ρ :: rest) → privates ρ' = r :: privates ρ → is_op ρ' = is_op ρ → is_clear ρ' = is_clear ρ →
  is_init ρ' = is_init ρ → role_ok s ρ' → r ∉ s_issued s →
  s' = {| s_life := s_life s; s_issued := {[r]} ∪ s_issued s; s_closed := s_closed s |} →
  sys_inv s' (ρ' :: rest).
Proof.
  intros H Hp Ho Hc Hi Hok Hfresh ->. open_inv H.
  assert (handles s (ρ' :: rest) ≡ₚ r :: handles s (ρ :: rest)) as E.
  { unfold handles. rewrite !bind_cons, Hp. symmetry. apply Permutation_middle. }
  split; rewrite ?count_if_cons, ?Ho, ?Hc, ?Hi; try done.
  - constructor; [done|]. by eapply rest_ok.
  - change (NoDup (handles s (ρ' :: rest))). rewrite E. constructor; [|done]. by intros [? _]%Hh.
  - intros r' Hin. change (r' ∈ handles s (ρ' :: rest)) in Hin. rewrite E in Hin. simpl.
    apply elem_of_cons in Hin as [->|[? ?]%Hh]; [|split; [by apply elem_of_union_r|done]].
    split; [by apply elem_of_union_l, elem_of_singleton|]. by intros ?%Hci.
  - simpl. intros r' ?%Hci. by apply elem_of_union_r.
Qed.

(** A goroutine closes a handle of its own. *)
Lemma close_step s ρ ρ' rest r s' :
  sys_inv s (ρ :: rest) → privates ρ = r :: privates ρ' → is_op ρ' = is_op ρ → is_clear ρ' = is_clear ρ →
  is_init ρ' = is_init ρ → role_ok s ρ' →
  s' = {| s_life := s_life s; s_issued := s_issued s; s_closed := {[r]} ∪ s_closed s |} →
  sys_inv s' (ρ' :: rest).
Proof.
  intros H Hp Ho Hc Hi Hok ->. open_inv H.
  assert (handles s (ρ :: rest) ≡ₚ r :: handles s (ρ' :: rest)) as E.
  { unfold handles. rewrite !bind_cons, Hp. symmetry. apply Permutation_middle. }
  rewrite E in Hnd. apply NoDup_cons in Hnd as [Hr Hnd].
  split; rewrite ?count_if_cons, ?Ho, ?Hc, ?Hi; try done.
  - constructor; [done|]. by eapply rest_ok.
  - intros r' Hin. change (r' ∈ handles s (ρ' :: rest)) in Hin. simpl.
    destruct (Hh r') as [??]; [rewrite E; by right|]. split; [done|].
    intros [->%elem_of_singleton|?]%elem_of_union; done.
  - simpl. intros r' [->%elem_of_singleton|?]%elem_of_union; [|by apply Hci]. apply Hh. rewrite E. by left.
Qed.

Lemma guard_Some b ρ ρ' : guard b ρ = Some ρ' → b = true ∧ ρ' = ρ.
Proof. destruct b; simpl; [|done]. by intros [= ->]. Qed.

(** Every call the protocol allows keeps the invariant. *)
Lemma sys_inv_step s ρ rest X (e : fcall X) x s' ρ' :
  sys_inv s (ρ :: rest) → advance ρ X e x = Some ρ' → shared_answers X e s x s' → sys_inv s' (ρ' :: rest).
Proof.
  intros H Hadv Hans. pose proof H as Hinv. destruct H as [_ _ _ _ [Hok _]%Forall_cons _ _ _ _ _ _].
  destruct e; simpl in Hadv;
    try (apply guard_Some in Hadv as [_ ->]; by rewrite Hans);
    try (injection Hadv as <-; by rewrite Hans).
  - destruct ρ; try done. eapply begin_op_step in Hans; [|exact Hinv]. by destruct x; simplify_eq.
  - destruct x, ρ as [| | | |r []| | |]; try done. simplify_eq. by eapply release_step.
  - destruct ρ; try done. eapply init_enter_step in Hans; [|exact Hinv]. by destruct x as [[]|]; simplify_eq.
  - destruct ρ as [| |r'| | | | |]; try done.
    assert (r = r') as -> by (destruct x; apply guard_Some in Hadv as [E _]; by apply bool_decide_eq_true in E).
    eapply set_root_step in Hans; [|exact Hinv]. by destruct x; apply guard_Some in Hadv as [_ ->].
  - destruct x. destruct ρ; simplify_eq; (eapply init_unlock_step; [|exact Hinv|exact Hans]); auto.
  - destruct ρ; try done. eapply clear_begin_step in Hans; [|exact Hinv]. by destruct x as [[]|]; simplify_eq.
  - destruct ρ; try done. eapply clear_drain_step in Hans; [|exact Hinv]. by destruct x; simplify_eq.
  - destruct x. destruct ρ as [| | | | | |cur own|]; try done. eapply clear_finish_step in Hans; [|exact Hinv].
    by destruct own; simplify_eq.
  - destruct x as [r|err].
    + destruct Hans as [Hr ->]. destruct ρ as [| | | | | |[] []|]; simplify_eq;
        (eapply fresh_step; [exact Hinv|..]; done).
    + rewrite Hans. by destruct ρ as [| | | | | |[] []|]; simplify_eq.
  - destruct x as [s0|err].
    + destruct Hans as [Hr ->]. destruct ρ as [| | | |r' subs| | |]; try done.
      apply guard_Some in Hadv as [_ ->]. eapply fresh_step; [exact Hinv|..]; done.
    + rewrite Hans. destruct ρ; try done. by apply guard_Some in Hadv as [_ ->].
  - destruct ρ as [| |r'| |r' [|s0 subs]| | |r']; try done; apply guard_Some in Hadv as [->%bool_decide_eq_true ->];
      (eapply close_step; [exact Hinv|..]; done).
Qed.

(** ** Reachable systems *)

(** Every goroutine is where its role says: what is left of it follows the protocol. *)
Definition sys_ok (s : sys) : Prop :=
  sys_inv (sh s) (gos s).*1 ∧ Forall (λ g, plays g.1 g.2 (λ _ ρ, ρ = RNone)) (gos s).

Lemma spawn_inv s roles : sys_inv s roles → sys_inv s (roles ++ [RNone]).
Proof.
  intros H. rewrite (Permutation_app_comm roles [RNone]). simpl. destruct H.
  by split; rewrite ?count_if_cons; try done; constructor.
Qed.

Lemma clearing_step_ok o s s' : sys_ok s → sys_step o s s' → sys_ok s'.
Proof.
  intros Hok Hs. revert Hok. destruct Hs as [s0 p Hp|s0 i ρ X e k x sh' Hi Hans]; intros [Hinv Hall].
  - split; simpl; [rewrite fmap_app; exact (spawn_inv _ _ Hinv)|].
    apply Forall_app. split; [done|]. constructor; [|done]. by eapply api_plays.
  - rewrite Forall_lookup in Hall. destruct (Hall i _ Hi x) as (ρ' & Hadv & Hk). cbn [fst] in Hadv.
    assert (role_after ρ e x = ρ') as -> by (unfold role_after; by rewrite Hadv).
    assert ((gos s0).*1 !! i = Some ρ) as Hi1 by (by rewrite list_lookup_fmap, Hi).
    destruct (list_update_perm _ _ _ Hi1) as (rest & E & E'). split; simpl.
    + rewrite list_fmap_insert. cbn [fst]. rewrite E'. rewrite E in Hinv. by eapply sys_inv_step.
    + apply Forall_insert; [by apply Forall_lookup|done].
Qed.

Lemma sys_reachable_ok o s : sys_reachable o s → sys_ok s.
Proof.
  intros Hr. unfold sys_reachable in Hr. remember fresh_sys as s0 eqn:E0.
  assert (sys_ok s0) as H0.
  { subst. split; [|done]. split; try done; [apply NoDup_nil_2|by intros ? ?%not_elem_of_nil]. }
  clear E0. induction Hr as [|s1 s2 s3 Hstep Hr IH]; [done|]. apply IH. by eapply clearing_step_ok.
Qed.

(** *** What a goroutine is about to do *)

(** The root handle a call goes through. *)
Definition uses (r : root_handle) (X : Type) (e : fcall X) : bool :=
  match e with
  | RootOpen r' _ | RootOpenRoot r' _ | RootStat r' _ | RootMkdirAll r' _ _ | RootCreate r' _ _
  | RootRename r' _ _ | RootRemove r' _ | RootRemoveAll r' _ | RootClose r' => bool_decide (r = r')
  | _ => false
  end.

(** A call that works on the directory or inside it. *)
Definition touches (X : Type) (e : fcall X) : bool :=
  match e with
  | RootOpen _ _ | RootOpenRoot _ _ | RootStat _ _ | RootMkdirAll _ _ _ | RootCreate _ _ _
  | RootRename _ _ _ | RootRemove _ _ | RootRemoveAll _ _
  | OsMkdirAll _ _ | OsRemove _ | RunCommand _ _ _ _ _ | HttpDo _ _ _ _ => true
  | _ => false
  end.

(** A call with which [Clear] removes what is there. *)
Definition removes (X : Type) (e : fcall X) : bool :=
  match e with RootRemoveAll _ _ | OsRemove _ => true | _ => false end.

Definition about_to (f : ∀ X, fcall X → bool) (p : fproc unit) : bool :=
  match p with Ret _ => false | Do e _ => f _ e end.

Lemma about_to_plays f ρ p Post :
  about_to f p = true → plays ρ p Post →
  ∃ X (e : fcall X), f X e = true ∧ ∀ x, ∃ ρ', advance ρ X e x = Some ρ'.
Proof.
  destruct p as [|X e k]; [done|]. intros Hf Hp. exists X, e. split; [done|].
  intros x. destruct (Hp x) as (ρ' & Hρ & _). by exists ρ'.
Qed.

(** The calls that touch the directory are those of operations, of [Init] and of a
    [Clear] that removes. *)
Lemma touches_role ρ X (e : fcall X) :
  touches X e = true → (∀ x, ∃ ρ', advance ρ X e x = Some ρ') →
  is_op ρ = true ∨ is_init ρ = true ∨ may_remove ρ = true.
Proof.
  intros He Hadv. destruct e; try done; simpl in Hadv;
    match type of Hadv with
    | ∀ _ : list string * list string * run_outcome, _ => destruct (Hadv ([], [], RunOk)) as [ρ' H]
    | _ => destruct (Hadv (Err EOF)) as [ρ' H]
    end; destruct ρ; try done; auto.
Qed.

Lemma removes_role ρ X (e : fcall X) :
  removes X e = true → (∀ x, ∃ ρ', advance ρ X e x = Some ρ') → may_remove ρ = true.
Proof.
  intros He Hadv. destruct e; try done; destruct (Hadv (Err EOF)) as [ρ' H]; by destruct ρ.
Qed.

(** A handle in use is the instance's root or one of the goroutine's own. *)
Lemma may_use_handles s ρ rest r :
  role_ok s ρ → may_use ρ r = true → r ∈ handles s (ρ :: rest).
Proof.
  intros Hok Hm. unfold handles. rewrite bind_cons, !elem_of_app. unfold role_ok in Hok.
  destruct ρ as [| | | |r' subs| |cur own|]; try done; apply bool_decide_eq_true in Hm.
  - rewrite Hok. destruct Hm as [->|Hm]; [left; by left|right; by left].
  - destruct Hok as [-> _]. destruct Hm as [->| ->]; [left; by left|right; left; by left].
Qed.

Lemma close_handles s ρ rest r (x : result unit) ρ' :
  advance ρ _ (RootClose r) x = Some ρ' → r ∈ handles s (ρ :: rest).
Proof.
  intros H. unfold handles. rewrite bind_cons, !elem_of_app. right; left.
  destruct ρ as [| |r'| |r' [|s0 subs]| | |r']; try done;
    apply guard_Some in H as [->%bool_decide_eq_true _]; by left.
Qed.

Lemma uses_role s rest ρ X (e : fcall X) r :
  role_ok s ρ → uses r X e = true → (∀ x, ∃ ρ', advance ρ X e x = Some ρ') → r ∈ handles s (ρ :: rest).
Proof.
  intros Hok He Hadv. destruct e; try done; apply bool_decide_eq_true in He as <-;
    destruct (Hadv (Err EOF)) as [ρ' H]; try (by eapply close_handles); apply may_use_handles; [done| |done| |..];
    simpl in H; destruct ρ; try done; apply guard_Some in H as [H _]; try done; by apply andb_true_iff in H as [_ H].
Qed.

Lemma about_to_sys o s i p f :
  sys_reachable o s → (gos s).*2 !! i = Some p → about_to f p = true →
  ∃ ρ X (e : fcall X), (gos s).*1 !! i = Some ρ ∧ f X e = true ∧ ∀ x, ∃ ρ', advance ρ X e x = Some ρ'.
Proof.
  intros [_ Hall]%sys_reachable_ok Hi Hf. apply list_lookup_fmap_Some in Hi as ([ρ p'] & -> & Hi).
  rewrite Forall_lookup in Hall. destruct (about_to_plays _ _ _ _ Hf (Hall _ _ Hi)) as (X & e & He & Hadv).
  exists ρ, X, e. split; [|done]. by rewrite list_lookup_fmap, Hi.
Qed.

(** While one goroutine clears, the others are outside every section that works. *)
Lemma cleaning_alone s roles i j ρ ρ' :
  sys_inv s roles → roles !! i = Some ρ → roles !! j = Some ρ' → i ≠ j →
  may_remove ρ = true → is_op ρ' = false ∧ is_init ρ' = false ∧ may_remove ρ' = false.
Proof.
  intros Hinv Hi Hj Hij Hm. destruct (list_update_perm _ _ _ Hi) as (rest & E & _).
  assert (ρ' ∈ rest) as Hin.
  { assert (ρ' ∈ delete i roles) as Hd.
    { apply list_elem_of_lookup. destruct (decide (j < i)).
      - exists j. by rewrite list_lookup_delete_lt.
      - exists (pred j). rewrite list_lookup_delete_ge by lia. by replace (S (pred j)) with j by lia. }
    pose proof (delete_Permutation _ _ _ Hi) as E2. rewrite E2 in E. apply Permutation_cons_inv in E.
    by rewrite <-E. }
  rewrite E in Hinv. open_inv Hinv. destruct ρ as [| | | | | |cur own|]; try done. destruct Hρ as [_ Hops0].
  cbn [is_op is_clear is_init] in *. destruct (clearing (s_life s)); [|lia]. rewrite Hex in Hini by done.
  assert (count_if is_op rest = 0 ∧ count_if is_init rest = 0 ∧ count_if is_clear rest = 0) as (Ho & Hi' & Hc) by lia.
  pose proof (count_if_none _ _ _ Hc Hin). split; [by eapply count_if_none|]. split; [by eapply count_if_none|].
  by destruct ρ'.
Qed.

(** Once the instance is cleared nobody works, initialises or clears. *)
Lemma cleared_idle s roles ρ :
  sys_inv s roles → ρ ∈ roles → cleared (s_life s) = true →
  is_op ρ = false ∧ is_init ρ = false ∧ may_remove ρ = false.
Proof.
  intros [Hops Hclr Hini Hex Hall Hroot Hcl Hq _ _ _] Hin Hc. destruct (Hq Hc) as [Hcg Hlk].
  rewrite Hcg in Hclr. rewrite Hlk in Hini. rewrite Forall_forall in Hall. specialize (Hall ρ Hin).
  pose proof (count_if_none _ _ _ Hclr Hin). pose proof (count_if_none _ _ _ Hini Hin).
  specialize (Hcl Hc). unfold role_ok in Hall. rewrite Hcl in Hall. by destruct ρ.
Qed.

(** C11. Goroutines share one localdir instance, all methods included, in any
    interleaving: a call through a root handle never uses one that was closed; while
    one goroutine is about to remove files in [Clear], no other one is about to touch
    the directory, be it an operation (a write, a read through the root, a command, a
    request), an initialisation or another [Clear]; and once a [Clear] has succeeded no
    goroutine is about to touch the directory any more. *)
Theorem clear_excludes_ops (o : options) (s : sys) :
  sys_reachable o s →
  (∀ i p r, (gos s).*2 !! i = Some p → about_to (uses r) p = true → r ∉ s_closed (sh s)) ∧
  (∀ i j p q, i ≠ j → (gos s).*2 !! i = Some p → (gos s).*2 !! j = Some q →
    about_to removes p = true → about_to touches q = false) ∧
  (cleared (s_life (sh s)) = true → ∀ i p, (gos s).*2 !! i = Some p → about_to touches p = false).
Proof.
  intros Hr. pose proof (sys_reachable_ok _ _ Hr) as [Hinv _]. split; [|split].
  - intros i p r Hi Hu. destruct (about_to_sys _ _ _ _ _ Hr Hi Hu) as (ρ & X & e & Hρ & He & Hadv).
    destruct (list_update_perm _ _ _ Hρ) as (rest & E & _). rewrite E in Hinv.
    pose proof Hinv as [_ _ _ _ [Hok _]%Forall_cons _ _ _ _ Hh _]. by eapply Hh, uses_role.
  - intros i j p q Hij Hi Hj Hrem. apply not_true_iff_false. intros Ht.
    destruct (about_to_sys _ _ _ _ _ Hr Hi Hrem) as (ρ & X & e & Hρ & He & Hadv).
    destruct (about_to_sys _ _ _ _ _ Hr Hj Ht) as (ρ' & X' & e' & Hρ' & He' & Hadv').
    apply (removes_role ρ) in He; [|done]. apply (touches_role ρ') in He'; [|done].
    destruct (cleaning_alone _ _ _ _ _ _ Hinv Hρ Hρ' Hij He) as (E1 & E2 & E3).
    rewrite E1, E2, E3 in He'. by destruct He' as [|[|]].
  - intros Hc i p Hi. apply not_true_iff_false. intros Ht.
    destruct (about_to_sys _ _ _ _ _ Hr Hi Ht) as (ρ & X & e & Hρ & He & Hadv).
    apply (touches_role ρ) in He; [|done].
    destruct (cleared_idle _ _ ρ Hinv) as (E1 & E2 & E3); [by eapply list_elem_of_lookup_2|done|].
    rewrite E1, E2, E3 in He. by destruct He as [|[|]].
Qed.

(** A goroutine that clears while a second one is about to ask for the root. *)
Lemma clear_excludes_ops_witness : ∃ (o : options) (s : sys),
  sys_reachable o s ∧
  (∃ p, (gos s).*2 !! 0 = Some p ∧ about_to removes p = true) ∧
  (∀ i j p q, i ≠ j → (gos s).*2 !! i = Some p → (gos s).*2 !! j = Some q →
    about_to removes p = true → about_to touches q = false).
Proof.
  set (o := {| dir := "/srv/ws"; keepDir := false; umask := 0; requestLoopbackHost := "127.0.0.1"; baseEnv := [] |}).
  eassert (∃ s, sys_reachable o s ∧ ∃ p, (gos s).*2 !! 0 = Some p ∧ about_to removes p = true) as (s & Hs & Hp).
  { eexists. split.
    - unfold sys_reachable.
      eapply rtc_l; [apply (Spawn o fresh_sys _ (ApiClear o None))|].
      eapply rtc_l; [eapply (Spawn o), (ApiGetFile o None "a.txt")|].
      eapply rtc_l; [eapply (Step o _ 0 _ _ _ _ None); [reflexivity|reflexivity]|].
      eapply rtc_l; [eapply (Step o _ 0 _ _ _ _ (Ok true)); [reflexivity|split; [reflexivity|left; done]]|].
      eapply rtc_l; [eapply (Step o _ 0 _ _ _ _ (Ok None)); [reflexivity|split; [reflexivity|left; done]]|].
      eapply rtc_l; [eapply (Step o _ 0 _ _ _ _ (Ok {| fi_kind := KRegular; fi_id := 7 |})); [reflexivity|reflexivity]|].
      apply rtc_refl.
    - eexists. split; reflexivity. }
  exists o, s. split; [exact Hs|]. split; [exact Hp|]. exact (proj1 (proj2 (clear_excludes_ops o s Hs))).
Defined.
End LocalDirLife.
