(* ===== verification/LocalDirFiles.v ===== *)
(** * What PutFile does to the files of the directory

    [PutFile] writes a temporary file next to its target, syncs it, renames it over the
    target and syncs the directory they are in. The files below an open root are entries of
    directories, an entry stands for an inode, and a path leads to an entry through the
    symbolic links of its directory part ([place]). Two things come to the disk later than
    they happen: content, until the file is synced, and entries, until their directory is
    synced; until then a crash may bring back any value that the entry had since
    ([after_crash]). Every call may fail. [put_file_atomic] says what a reader, a process
    that is killed at any point or a machine that goes down can find. *)

From S2P Require Import Prelude GoString GoError GoPath GoFilepath WorkspaceTypes Proc WorkspaceWorld.
From S2P Require Import LocalDir LocalDirSpec LocalDirOps.
From stdpp Require Import options.
Set Default Proof Using "Type*".

Module LocalDirFiles.
Import LocalDir Directories LocalDirOps.

(** ** The temporary name *)

Definition temp_name (s : string) (now id : Z) : string :=
  "." +:+ s +:+ ".tmp." +:+ strconv_Itoa now +:+ "." +:+ strconv_Itoa id.

Lemma temp_name_long s now id : String.length s + 6 ≤ String.length (temp_name s now id).
Proof. unfold temp_name. rewrite !append_length. simpl. lia. Qed.

Lemma temp_name_name s now id : no_slash s → name (temp_name s now id).
Proof.
  intros Hs. pose proof (temp_name_long s now id) as Hl. split.
  - split; [|split]; intros E; rewrite E in Hl; simpl in Hl; lia.
  - unfold no_slash, temp_name in *. unfold slash in *. by rewrite !has_byte_app, Hs, !Itoa_no_slash.
Qed.

Lemma temp_name_other s now id : temp_name s now id ≠ s.
Proof.
  intros E. pose proof (temp_name_long s now id) as Hl. rewrite E in Hl. lia.
Qed.

(** The temporary file is in the directory of the target and is not the target. *)
Lemma temp_sibling_snoc segs s now id :
  Forall name segs → name s →
  tempSiblingPath (rel_path (segs ++ [s])) now id = rel_path (segs ++ [temp_name s now id]).
Proof.
  intros H Hs. unfold tempSiblingPath. rewrite Dir_rel_path, Base_rel_path by done.
  apply Join_rel_path; [done|]. apply temp_name_name. by destruct Hs.
Qed.

(** The temporary file is in the directory of the target and has a name of its own. *)
Lemma temp_sibling_parts path q now id :
  sanitizeRelativePath path = Ok q →
  filepath_Dir (tempSiblingPath q now id) = filepath_Dir q ∧
  filepath_Base (tempSiblingPath q now id) = temp_name (filepath_Base q) now id.
Proof.
  intros (segs & H & ->)%sanitize_names. destruct segs as [|s segs _] using rev_ind.
  - assert (name (temp_name "." now id)) as Ht by (by apply temp_name_name).
    unfold tempSiblingPath. change (filepath_Dir (rel_path [])) with (rel_path []).
    change (filepath_Base (rel_path [])) with ".". fold (temp_name "." now id).
    rewrite Join_rel_path by done. by rewrite Dir_rel_path, Base_rel_path.
  - apply Forall_app in H as [H [Hs _]%Forall_cons].
    assert (name (temp_name s now id)) as Ht by (apply temp_name_name; by destruct Hs).
    rewrite temp_sibling_snoc by done. by rewrite !Dir_rel_path, !Base_rel_path.
Qed.

Lemma sanitize_parent path q : sanitizeRelativePath path = Ok q → filepath_Dir q ≠ "".
Proof.
  intros (segs & Hs & ->)%sanitize_names. destruct segs as [|x segs _] using rev_ind; [done|].
  apply Forall_app in Hs as [Hs [Hx _]%Forall_cons]. rewrite Dir_rel_path by done. by apply rel_path_nonempty.
Qed.

(** ** Files

    A path leads to an entry of a directory: the directory its directory part leads to
    once symbolic links are followed, and its last element. A link that is the last
    element is an entry like any other, which a rename replaces. *)

Abbreviation inode := nat (only parsing).

Definition location : Type := string * string.

Inductive node := Regular (content : string) | Symlink (target : string).

Record fs := {
  names : gmap location inode;            (* the entries that are no directories *)
  older : gmap location (list (option inode));   (* the entries the disk may still have *)
  data : gmap inode node;
  synced : gset inode;                    (* whose content is on disk *)
  dirs : gset string;                     (* the directories there are *)
  open_files : gmap file_handle inode;
  open_dirs : gmap file_handle string;
}.

(** What the disk may have had for an entry since its directory was last synced. *)
Definition older_at (s : fs) (l : location) : list (option inode) := default [] (older s !! l).
Definition history (s : fs) (l : location) : list (option inode) := names s !! l :: older_at s l.

Definition remember (s : fs) (l : location) : gmap location (list (option inode)) := <[l := history s l]> (older s).

Definition bind_name (s : fs) (l : location) (i : inode) : fs := {|
  names := <[l:=i]> (names s); older := remember s l; data := data s; synced := synced s; dirs := dirs s;
  open_files := open_files s; open_dirs := open_dirs s |}.
Definition unbind_name (s : fs) (l : location) : fs := {|
  names := delete l (names s); older := remember s l; data := data s; synced := synced s; dirs := dirs s;
  open_files := open_files s; open_dirs := open_dirs s |}.
Definition set_open (s : fs) (m : gmap file_handle inode) (md : gmap file_handle string) : fs := {|
  names := names s; older := older s; data := data s; synced := synced s; dirs := dirs s;
  open_files := m; open_dirs := md |}.
Definition set_dirs (s : fs) (ds : gset string) : fs := {|
  names := names s; older := older s; data := data s; synced := synced s; dirs := ds;
  open_files := open_files s; open_dirs := open_dirs s |}.
Definition write_data (s : fs) (i : inode) (d : string) : fs := {|
  names := names s; older := older s; data := <[i:=Regular d]> (data s); synced := synced s ∖ {[i]}; dirs := dirs s;
  open_files := open_files s; open_dirs := open_dirs s |}.
Definition sync_data (s : fs) (i : inode) : fs := {|
  names := names s; older := older s; data := data s; synced := {[i]} ∪ synced s; dirs := dirs s;
  open_files := open_files s; open_dirs := open_dirs s |}.
(** Syncing a directory: the disk has its entries as they are. *)
Definition sync_dir (s : fs) (d : string) : fs := {|
  names := names s; older := filter (λ kv, kv.1.1 ≠ d) (older s); data := data s; synced := synced s; dirs := dirs s;
  open_files := open_files s; open_dirs := open_dirs s |}.
Definition create (s : fs) (l : location) (i : inode) (h : file_handle) : fs :=
  let s := bind_name (write_data s i "") l i in set_open s (<[h:=i]> (open_files s)) (open_dirs s).
Definition open_file (s : fs) (h : file_handle) (i : inode) : fs := set_open s (<[h:=i]> (open_files s)) (open_dirs s).
Definition open_dir (s : fs) (h : file_handle) (d : string) : fs := set_open s (open_files s) (<[h:=d]> (open_dirs s)).
Definition close_file (s : fs) (h : file_handle) : fs := set_open s (delete h (open_files s)) (delete h (open_dirs s)).

(** What an entry stands for: the node, and whether its content is on disk. *)
Definition node_at (s : fs) (e : option inode) : option (node * bool) :=
  i ← e; d ← data s !! i; Some (d, bool_decide (i ∈ synced s)).

(** What is found at an entry, and what may be found there when the machine goes down: the
    entry as it is or any of those the disk may still have. *)
Definition read (s : fs) (l : location) : option (node * bool) := node_at s (names s !! l).
Definition after_crash (s : fs) (l : location) (v : option (node * bool)) : Prop :=
  ∃ e, e ∈ history s l ∧ v = node_at s e.

Lemma read_after_crash s l : after_crash s l (read s l).
Proof. exists (names s !! l). split; [by left|done]. Qed.

(** Every entry stands for an inode that is there; also every one the disk may have. *)
Definition names_ok (s : fs) : Prop := ∀ l i, names s !! l = Some i → is_Some (data s !! i).
Definition fs_ok (s : fs) : Prop := ∀ l i, Some i ∈ history s l → is_Some (data s !! i).

Lemma fs_ok_names s : fs_ok s → names_ok s.
Proof. intros Hs l i Hi. apply (Hs l). unfold history. rewrite Hi. by left. Qed.

Lemma older_remember s l l' : default [] (remember s l !! l') = if decide (l = l') then history s l else older_at s l'.
Proof. unfold remember. rewrite lookup_insert. by case_decide. Qed.

Lemma older_sync s d l : older_at (sync_dir s d) l = if decide (l.1 = d) then [] else older_at s l.
Proof.
  unfold older_at. simpl. rewrite map_lookup_filter. destruct (older s !! l) as [x|]; simpl; [|by case_decide].
  case_decide as H; [rewrite option_guard_False|rewrite option_guard_True]; try done. by intros [].
Qed.

Section files.
Context (real : string → string).   (* where a path of a directory leads, links followed *)
Context (bytes : nat → string).     (* what a content reads as *)
Context (removable : bool).         (* the system removes every file it is asked to *)

(** The entry a path leads to. *)
Definition place (p : string) : location := (real (filepath_Dir p), filepath_Base p).

(** The node a path leads to, its last element not followed. *)
Definition lstat (s : fs) (p : string) : option node := i ← names s !! place p; data s !! i.

Definition opened (s : fs) (h : file_handle) (p : string) (s' : fs) : Prop :=
  match names s !! place p, lstat s p with
  | Some i, Some (Regular _) => s' = open_file s h i
  | _, l =>
    if decide (real p ∈ dirs s) then s' = open_dir s h (real p)
    else is_Some l ∧ ∃ j, is_Some (data s !! j) ∧ s' = open_file s h j    (* a link is followed *)
  end.

Definition file_answers : answers fcall fs := λ X e s,
  match e in fcall X return X → fs → Prop with
  | RootCreate _ p _ => λ x s',
      match x with
      | Ok h => ∃ i, names s !! place p = None ∧ data s !! i = None ∧ open_files s !! h = None ∧
                     open_dirs s !! h = None ∧ s' = create s (place p) i h
      | Err _ => s' = s
      end
  | RootMkdirAll _ p _ => λ x s', ∃ ds, dirs s ⊆ ds ∧ s' = set_dirs s ds ∧
      (is_ok x = true → real p ∈ ds ∧ ∀ d, lstat s p ≠ Some (Regular d))
  | RootOpen _ p => λ x s',
      match x with
      | Ok h => open_files s !! h = None ∧ open_dirs s !! h = None ∧ opened s h p s'
      | Err _ => s' = s
      end
  | CopyContent _ n h => λ x s',
      match open_files s !! h with
      | Some i => ∃ d, (x = Ok () → d = bytes n) ∧ s' = write_data s i d
      | None => (∃ e, x = Err e) ∧ s' = s
      end
  | FileSync h => λ x s',
      match x, open_files s !! h, open_dirs s !! h with
      | Ok _, Some i, _ => s' = sync_data s i
      | Ok _, None, Some d => s' = sync_dir s d
      | _, _, _ => s' = s
      end
  | FileClose h => λ _ s', s' = close_file s h
  | RootRename _ a b => λ x s',
      match x with
      | Ok _ => ∃ i, names s !! place a = Some i ∧ s' = bind_name (unbind_name s (place a)) (place b) i
      | Err _ => s' = s
      end
  | RootRemove _ a => λ x s',
      match x with
      | Ok _ => s' = unbind_name s (place a)
      | Err _ => (removable = true → names s !! place a = None) ∧ s' = s
      end
  | _ => λ _ s', s' = s
  end.

(** ** Phases of a write *)

Context (s0 : fs) (q : string) (n : nat).

(** The place of a temporary file, where nothing was. *)
Definition temp_loc (l : location) : Prop :=
  l ≠ place q ∧ names s0 !! l = None ∧ ∃ now id, l = place (tempSiblingPath q now id).

(** The inodes of before are untouched, and the disk has no other entries than before,
    temporary ones apart. *)
Definition keeps (s : fs) : Prop :=
  (∀ i, is_Some (data s0 !! i) → data s !! i = data s0 !! i ∧ (i ∈ synced s ↔ i ∈ synced s0)) ∧
  (∀ l e, e ∈ older_at s l → e ∈ history s0 l ∨ temp_loc l).

(** The new content has an entry of its own, one that was free. *)
Definition temporary (l : location) (i : inode) (s : fs) : Prop :=
  keeps s ∧ temp_loc l ∧ data s0 !! i = None ∧ names s = <[l:=i]> (names s0).

Definition published (s : fs) : Prop :=
  ∃ i, keeps s ∧ data s0 !! i = None ∧ names s = <[place q:=i]> (names s0) ∧
       data s !! i = Some (Regular (bytes n)) ∧ i ∈ synced s.

Definition untouched (s : fs) : Prop := keeps s ∧ names s = names s0.

Definition phase (s : fs) : Prop := untouched s ∨ (∃ l i, temporary l i s) ∨ published s.

(** The disk has the entry of the target as it is, and none of a temporary file. *)
Definition flushed (s : fs) : Prop := older_at s (place q) = [] ∧ ∀ l, temp_loc l → older_at s l = [].

Lemma keeps_refl : keeps s0.
Proof. split; [done|]. intros l e He. left. by right. Qed.

Lemma untouched_refl : untouched s0.
Proof. split; [apply keeps_refl|done]. Qed.

Lemma keeps_node s e : keeps s → (∀ i, e = Some i → is_Some (data s0 !! i)) → node_at s e = node_at s0 e.
Proof.
  intros [Hk _] He. destruct e as [i|]; [|done]. unfold node_at. simpl.
  destruct (Hk i) as [-> Hs]; [by apply He|]. destruct (data s0 !! i); simpl; [|done].
  do 2 f_equal. by apply bool_decide_ext.
Qed.

Lemma same_name_read s l : names_ok s0 → keeps s → names s !! l = names s0 !! l → read s l = read s0 l.
Proof. intros Hs0 Hk Hn. unfold read. rewrite Hn. apply keeps_node; [done|]. by apply Hs0. Qed.

(** A place that is not of a temporary file. *)
Definition lasting (l : location) : Prop := is_Some (names s0 !! l) ∨ ∀ now id, l ≠ place (tempSiblingPath q now id).

Lemma lasting_temp l : lasting l → ¬ temp_loc l.
Proof. intros [H|H] (_ & Hn & now & id & ->); [by rewrite Hn in H; destruct H|by eapply H]. Qed.

Lemma phase_names s l : phase s → l ≠ place q → lasting l → names s !! l = names s0 !! l.
Proof.
  intros [[Hk ->]|[(t & j & _ & Ht & _ & ->)|(j & _ & _ & -> & _)]] Hne Hl; [done|..];
    rewrite lookup_insert_ne; try done. intros ->. by apply lasting_temp in Hl.
Qed.

Lemma phase_keeps s : phase s → keeps s.
Proof. intros [[Hk _]|[(t & j & Hk & _)|(j & Hk & _)]]; done. Qed.

(** What each phase shows. *)
Lemma phase_lasting s l : names_ok s0 → phase s → l ≠ place q → lasting l → read s l = read s0 l.
Proof. intros Hs0 Hph Hne Hl. apply same_name_read; [done|by apply phase_keeps|by apply phase_names]. Qed.

(** An entry the disk may have, which is not new. *)
Lemma old_entry s l e : fs_ok s0 → keeps s → e ∈ history s0 l → after_crash s0 l (node_at s e).
Proof. intros Hs0 Hk He. exists e. split; [done|]. apply keeps_node; [done|]. intros i ->. by apply (Hs0 l). Qed.

Lemma phase_lasting_crash s l v :
  fs_ok s0 → phase s → l ≠ place q → lasting l → after_crash s l v → after_crash s0 l v.
Proof.
  intros Hs0 Hph Hne Hl (e & He & ->). pose proof (phase_keeps s Hph) as Hk. apply old_entry; [done..|].
  apply elem_of_cons in He as [->|He]; [rewrite phase_names by done; by left|].
  destruct Hk as [_ Hk]. apply Hk in He as [?|Ht]; [done|]. by apply lasting_temp in Hl.
Qed.

Abbreviation new_file := (Some (Regular (bytes n), true)).

Lemma published_read s : published s → read s (place q) = new_file.
Proof.
  intros (i & _ & _ & Hn & Hd & Hs). unfold read. rewrite Hn, lookup_insert_eq. unfold node_at. simpl. rewrite Hd. simpl.
  by rewrite bool_decide_true.
Qed.

Lemma phase_target s : names_ok s0 → phase s → read s (place q) = read s0 (place q) ∨ read s (place q) = new_file.
Proof.
  intros Hs0 [[Hk Hn]|[(t & i & Hk & [Htq _] & _ & Hn)|Hp]].
  - left. apply same_name_read; [done..|]. by rewrite Hn.
  - left. apply same_name_read; [done..|]. by rewrite Hn, lookup_insert_ne.
  - right. by apply published_read.
Qed.

Lemma phase_target_crash s v :
  fs_ok s0 → phase s → after_crash s (place q) v → after_crash s0 (place q) v ∨ v = new_file.
Proof.
  intros Hs0 Hph (e & He & ->). apply elem_of_cons in He as [->|He].
  - destruct (phase_target s (fs_ok_names _ Hs0) Hph) as [E|E]; [left|by right].
    unfold read in E. rewrite E. apply read_after_crash.
  - left. pose proof (phase_keeps s Hph) as Hk. apply old_entry; [done..|].
    destruct Hk as [_ Hk]. apply Hk in He as [?|[Ht _]]; done.
Qed.

(** A write that has come to its end and to the disk. *)
Lemma flushed_target s v : published s → flushed s → after_crash s (place q) v → v = new_file.
Proof.
  intros Hp [Hf _] (e & He & ->). unfold history in He. rewrite Hf in He. apply list_elem_of_singleton in He as ->.
  by apply published_read.
Qed.

Lemma published_names s l : published s → l ≠ place q → names s !! l = names s0 !! l.
Proof. intros (i & _ & _ & -> & _) Hne. by rewrite lookup_insert_ne. Qed.

Lemma flushed_other s l v :
  fs_ok s0 → published s → flushed s → l ≠ place q → after_crash s l v → after_crash s0 l v.
Proof.
  intros Hs0 Hp [_ Hf] Hne (e & He & ->). pose proof (published_names s l Hp Hne) as Hn.
  assert (keeps s) as Hk by (by destruct Hp as (? & ? & _)). apply old_entry; [done..|].
  apply elem_of_cons in He as [->|He]; [rewrite Hn; by left|].
  destruct Hk as [_ Hk]. pose proof He as He'. apply Hk in He as [?|Ht]; [done|].
  rewrite (Hf l Ht) in He'. by apply not_elem_of_nil in He'.
Qed.

(** ** Steps between the phases *)

Lemma fresh_inode s i : keeps s → data s !! i = None → data s0 !! i = None.
Proof.
  intros [Hk _] Hi. destruct (data s0 !! i) eqn:E; [|done]. destruct (Hk i) as [Hd _]; [by eexists|]. by rewrite Hi, E in Hd.
Qed.

Lemma keeps_write s i d : data s0 !! i = None → keeps s → keeps (write_data s i d).
Proof.
  intros Hi [Hk Ho]. split; [|done]. intros j Hj. assert (j ≠ i) as Hne by (intros ->; rewrite Hi in Hj; by destruct Hj).
  destruct (Hk j Hj) as [Hd Hs]. simpl. rewrite lookup_insert_ne by done. split; [done|].
  rewrite <-Hs, elem_of_difference, elem_of_singleton.
  split; [by intros []|done].
Qed.

Lemma keeps_sync s i : data s0 !! i = None → keeps s → keeps (sync_data s i).
Proof.
  intros Hi [Hk Ho]. split; [|done]. intros j Hj. assert (j ≠ i) as Hne by (intros ->; rewrite Hi in Hj; by destruct Hj).
  destruct (Hk j Hj) as [Hd Hs]. split; [done|]. simpl. rewrite <-Hs, elem_of_union, elem_of_singleton.
  split; [by intros []|by right].
Qed.

Lemma keeps_sync_dir s d : keeps s → keeps (sync_dir s d).
Proof.
  intros [Hk Ho]. split; [done|]. intros l e. rewrite older_sync. case_decide; [by intros ?%not_elem_of_nil|apply Ho].
Qed.

(** An entry changes whose value was one of before, or which is of a temporary file. *)
Lemma keeps_remember s s' l :
  keeps s → data s' = data s → synced s' = synced s → older s' = remember s l →
  names s !! l ∈ history s0 l ∨ temp_loc l → keeps s'.
Proof.
  intros [Hk Ho] Hd Hs He Hl. split; [by rewrite Hd, Hs|]. intros l' e. unfold older_at. rewrite He, older_remember.
  case_decide as E; [subst l'|apply Ho]. intros [->|H]%elem_of_cons; [done|by apply Ho].
Qed.

Lemma temporary_write l i d s : temporary l i s → temporary l i (write_data s i d).
Proof. intros (Hk & Ht & Hi & E). split; [by apply keeps_write|done]. Qed.

Lemma temporary_sync l i s : temporary l i s → temporary l i (sync_data s i).
Proof. intros (Hk & Ht & Hi & E). split; [by apply keeps_sync|done]. Qed.

Lemma create_temporary s l i h :
  untouched s → temp_loc l → data s !! i = None → temporary l i (create s l i h).
Proof.
  intros [Hk Hn] Ht Hi. pose proof (fresh_inode _ _ Hk Hi) as Hi0.
  split; [|split; [done|split; [done|simpl; by rewrite Hn]]].
  eapply (keeps_remember (write_data s i "") _ l); [by apply keeps_write|done..|by right].
Qed.

(** The rename: nothing is left under the temporary name. *)
Lemma rename_publishes s l i :
  temporary l i s → data s !! i = Some (Regular (bytes n)) → i ∈ synced s →
  published (bind_name (unbind_name s l) (place q) i).
Proof.
  intros (Hk & Ht & Hi & Hn) Hd Hs. pose proof Ht as (Htq & Hf & _). exists i. split.
  - eapply (keeps_remember (unbind_name s l) _ (place q)); [|done..|].
    + eapply (keeps_remember s _ l); [done..|by right].
    + left. simpl. rewrite Hn, delete_insert_id by done. by left.
  - split; [done|]. simpl. by rewrite Hn, delete_insert_id by done.
Qed.

Lemma remove_temporary s l i : temporary l i s → untouched (unbind_name s l).
Proof.
  intros (Hk & Ht & Hi & Hn). split; [eapply (keeps_remember s _ l); [done..|by right]|].
  simpl. rewrite Hn, delete_insert_id; [done|]. apply Ht.
Qed.

Lemma remove_published s l : temp_loc l → published s → published (unbind_name s l).
Proof.
  intros Ht (i & Hk & Hi & Hn & Hd & Hs). pose proof Ht as (Htq & Hf & _). exists i.
  split; [eapply (keeps_remember s _ l); [done..|by right]|]. split; [done|]. simpl.
  rewrite delete_id; [done|]. rewrite Hn. by rewrite lookup_insert_ne.
Qed.

Lemma phase_temporary l i s : temporary l i s → phase s.
Proof. right; left; eauto. Qed.
Lemma phase_untouched s : untouched s → phase s.
Proof. by left. Qed.
Lemma phase_published s : published s → phase s.
Proof. by do 2 right. Qed.
Hint Resolve phase_temporary phase_untouched phase_published : core.

Abbreviation safely := (safe file_answers phase).

Lemma published_sync s j : data s0 !! j = None → published s → published (sync_data s j).
Proof.
  intros Hj (i & Hk & Hi & Hn & Hd & Hs). exists i. split; [by apply keeps_sync|]. split_and!; try done.
  simpl. by apply elem_of_union_r.
Qed.

Lemma published_sync_dir s d : published s → published (sync_dir s d).
Proof. intros (i & Hk & H). exists i. split; [by apply keeps_sync_dir|done]. Qed.

(** ** Syncing the directory of the target *)

Context (path : string) (Hq : sanitizeRelativePath path = Ok q).

Abbreviation parent := (filepath_Dir q) (only parsing).

Lemma temp_place now id : place (tempSiblingPath q now id) = (real parent, temp_name (filepath_Base q) now id).
Proof. unfold place. by destruct (temp_sibling_parts _ _ now id Hq) as [-> ->]. Qed.

Lemma temp_place_loc now id : names s0 !! place (tempSiblingPath q now id) = None → temp_loc (place (tempSiblingPath q now id)).
Proof.
  intros Hf. split; [|by eauto]. rewrite temp_place. intros E. apply (f_equal snd) in E. by apply temp_name_other in E.
Qed.

(** Where the directory of the target is, none of its entries is left to the disk. *)
Lemma sync_parent_flushed s : flushed (sync_dir s (real parent)).
Proof.
  split; [by rewrite older_sync, decide_True|]. intros l (_ & _ & now & id & ->).
  by rewrite older_sync, temp_place, decide_True.
Qed.

(** The handle is of the directory, unless the directory was the entry that was replaced. *)
Lemma opened_parent h s s' :
  published s → real parent ∈ dirs s → (∀ d, lstat s0 parent ≠ Some (Regular d)) → opened s h parent s' →
  (∃ j, data s0 !! j = None ∧ s' = open_file s h j ∧ (names_ok s0 → place parent = place q)) ∨
  s' = open_dir s h (real parent).
Proof.
  intros (i & [Hk _] & Hi & Hn & _) Hdir Hreg. unfold opened.
  unfold lstat in *. rewrite Hn. destruct (decide (place parent = place q)) as [E|Hne].
  { rewrite E, lookup_insert_eq. cbn [mbind option_bind]. intros H. destruct (data s !! i) as [[]|]; [left; by exists i|right; by rewrite decide_True in H..]. }
  rewrite lookup_insert_ne by done. destruct (names s0 !! place parent) as [j|] eqn:Hj; cbn [mbind option_bind] in *; [|intros H; right; by rewrite decide_True in H].
  destruct (data s0 !! j) as [nd|] eqn:Hdj.
  - destruct (Hk j) as [E _]; [by eexists|]. rewrite E, Hdj. destruct nd; [by destruct (Hreg content)|].
    intros H. right. by rewrite decide_True in H.
  - intros H. destruct (data s !! j) as [[]|]; [left|right; by rewrite decide_True in H..]. exists j. split_and!; [done..|]. intros Hok.
    apply Hok in Hj. rewrite Hdj in Hj. by destruct Hj.
Qed.

(** On disk, and at its place for good. *)
Definition settled (s : fs) : Prop := published s ∧ (names_ok s0 → place parent ≠ place q → flushed s).

Lemma syncRootDir_safe r s :
  real parent ∈ dirs s → (∀ d, lstat s0 parent ≠ Some (Regular d)) → published s →
  safely (syncRootDir r parent) s (λ out s', published s' ∧ (is_ok out = true → settled s')).
Proof.
  intros Hdir Hreg Hp. unfold syncRootDir. rewrite decide_False by (by eapply sanitize_parent).
  apply safe_call_bind; [by apply phase_published|]. intros [h|e] s1; cbn [file_answers].
  2: { intros ->. apply safe_mret; [by apply phase_published|by split]. }
  intros (Hf & Hfd & Ho). apply safe_deferred.
  assert (∀ (out : result unit) s', published s' → (is_ok out = true → settled s') →
    phase s' ∧ safely (_ ← call (FileClose h); mret ()) s' (λ _ s'', published s'' ∧ (is_ok out = true → settled s''))) as Hclose.
  { intros out s' Hp' Hs'. split; [auto|]. apply safe_call_bind; [auto|]. intros y s'' ->.
    apply safe_mret; [by apply phase_published|by split]. }
  destruct (opened_parent h s s1 Hp Hdir Hreg Ho) as [(j & Hj & -> & Hloop)| ->].
  - split; [by apply phase_published|]. intros x s2 Hx. cbn [file_answers] in Hx.
    cbn [open_file set_open open_files] in Hx. rewrite lookup_insert_eq in Hx.
    assert (published (open_file s h j)) as Hp1 by done.
    destruct x as [u|e]; subst s2; apply Hclose; try done; [by apply published_sync|].
    intros _. split; [by apply published_sync|]. intros Hok Hne. by destruct (Hne (Hloop Hok)).
  - split; [by apply phase_published|]. intros x s2 Hx. cbn [file_answers] in Hx.
    cbn [open_dir set_open open_files open_dirs] in Hx. rewrite Hf, lookup_insert_eq in Hx.
    assert (published (open_dir s h (real parent))) as Hp1 by done.
    destruct x as [u|e]; subst s2; apply Hclose; try done; [by apply published_sync_dir|].
    intros _. split; [by apply published_sync_dir|]. intros _ _. apply sync_parent_flushed.
Qed.

(** ** The write *)

(** From the open temporary file on. *)
Definition wrote (l : location) (i : inode) (out : bool * result unit) (s : fs) : Prop :=
  match out with
  | (true, Ok _) => settled s
  | (false, Err _) => temporary l i s ∨ published s
  | _ => False
  end.

Lemma wrote_phase l i out s : wrote l i out s → phase s.
Proof. destruct out as [[] []]; simpl; try done; [intros []; auto|]. intros []; eauto. Qed.

Lemma write_safe c r what t i h s :
  real parent ∈ dirs s → (∀ d, lstat s0 parent ≠ Some (Regular d)) →
  temporary (place t) i s → open_files s !! h = Some i →
  safely (write_and_rename c r what q parent t n h) s (wrote (place t) i).
Proof.
  intros Hdir Hreg Ht Hh. unfold write_and_rename. cbv zeta. apply safe_call_bind; [eauto|].
  intros x s1 Hx. simpl in Hx. rewrite Hh in Hx. destruct Hx as (d & Hd & ->).
  apply (temporary_write _ _ d) in Ht. set (s1 := write_data s i d) in *.
  assert (data s1 !! i = Some (Regular d)) as Hd1 by apply lookup_insert_eq.
  assert (∀ s', temporary (place t) i s' → ∀ e, safely (mret (false, Err e)) s' (wrote (place t) i)) as Hfail
    by (intros s' ? e; apply safe_mret; [eauto|by left]).
  destruct x as [u|e].
  2: { apply safe_call_bind; [eauto|]. intros y s2 ->. by apply Hfail. }
  rewrite Hd in * by (by destruct u). apply safe_call_bind; [eauto|]. intros x s2 Hx. cbn [file_answers] in Hx.
  destruct x as [u'|e].
  2: { apply safe_call_bind; [subst; eauto|]. intros y s3 ->. apply Hfail. by subst. }
  assert (open_files s1 !! h = Some i) as Hh1 by done. rewrite Hh1 in Hx. subst s2.
  apply temporary_sync in Ht. set (s2 := sync_data s1 i) in *.
  apply safe_call_bind; [eauto|]. intros x s3 ->. set (s3 := close_file _ _).
  assert (temporary (place t) i s3) as Ht3 by done. destruct x as [v|e]; [|by apply Hfail].
  apply safe_call_bind; [eauto|]. intros x s4 Hx. simpl in Hx. destruct x as [w|e]; [|subst; by apply Hfail].
  destruct Hx as (j & Hj & ->).
  assert (j = i) as ->.
  { destruct Ht3 as (_ & _ & _ & Hn). simpl in Hn. rewrite Hn, lookup_insert_eq in Hj. congruence. }
  assert (published (bind_name (unbind_name s3 (place t)) (place q) i)) as Hpub.
  { apply rename_publishes; [done|done|]. simpl. by apply elem_of_union_l, elem_of_singleton. }
  apply safe_bind. eapply safe_mono; [|by apply syncRootDir_safe]. intros [z|e] s5 _ [Hp5 Hs5];
    (apply safe_mret; [by apply phase_published|]); [by apply Hs5|by right].
Qed.

(** How a write ends. *)
Definition ended (out : result unit) (s : fs) : Prop :=
  match out with
  | Ok _ => settled s
  | Err _ => phase s ∧ (removable = true → untouched s ∨ published s)
  end.

Lemma ended_phase out s : ended out s → phase s.
Proof. destruct out; simpl; [intros []; auto|by intros []]. Qed.

Lemma failed_safe e s : untouched s → safely (mret (Err e)) s ended.
Proof. intros H. apply safe_mret; [by apply phase_untouched|split; [auto|by left]]. Qed.

(** The deferred removal of the temporary file. *)
Lemma cleanup_safe r t i (kept : bool) out s :
  temp_loc (place t) → wrote (place t) i (kept, out) s →
  safely (_ ← (if kept then mret () else (_ ← call (RootRemove r t); mret ())); mret out) s ended.
Proof.
  intros Htl Hw. pose proof (wrote_phase _ _ _ _ Hw) as Hph. destruct kept, out as [u|e]; try done.
  apply safe_bind, safe_call_bind; [done|]. intros x s1 Hx.
  assert (ended (Err e) s1) as He.
  { simpl in Hw. destruct x as [v|e']; simpl in Hx.
    - subst s1. destruct Hw as [Ht|Hp]; [apply remove_temporary in Ht; split; [auto|by left]|].
      apply (remove_published _ _ Htl) in Hp. split; [auto|by right].
    - destruct Hx as [Hrm ->]. split; [done|]. intros Hr. destruct Hw as [Ht|Hp]; [|by right].
      destruct Ht as (_ & _ & _ & Hn). rewrite Hn, lookup_insert_eq in Hrm. by specialize (Hrm Hr). }
  pose proof (ended_phase _ _ He). by repeat apply safe_mret.
Qed.

Lemma put_in_safe o c mode r : safely (put_in o c path (Some n) mode r) s0 ended.
Proof.
  pose proof untouched_refl as Hu0.
  assert (∀ ds, untouched (set_dirs s0 ds)) as Hu by (intros ds; exact untouched_refl).
  unfold put_in. rewrite Hq. cbv zeta.
  apply safe_call_bind; [by apply phase_untouched|]. intros [u|e] s1 (ds & _ & -> & Hm); [|by apply failed_safe].
  destruct (Hm eq_refl) as [Hdir Hreg].
  apply safe_call_bind; [by apply phase_untouched|]. intros id s1 ->. apply safe_call_bind; [auto|]. intros now s1 ->.
  apply safe_call_bind; [by apply phase_untouched|]. intros [h|e] s1 Hx; [|rewrite Hx; by apply failed_safe].
  destruct Hx as (i & Hfree & Hi & Hh & _ & ->). pose proof (temp_place_loc now id Hfree) as Htl.
  apply safe_bind. eapply safe_mono; [|apply (write_safe _ _ _ (tempSiblingPath q now id) i)].
  - intros [kept out] s1 _ Hw. by eapply cleanup_safe.
  - done.
  - done.
  - by apply create_temporary.
  - apply lookup_insert_eq.
Qed.

Lemma PutFile_safe o c mode : safely (PutFile o c path (Some n) mode) s0 ended.
Proof.
  pose proof untouched_refl as Hu. unfold PutFile, with_root.
  apply safe_call_bind; [by left|]. intros [r|e] s1 ->; [|by apply failed_safe].
  apply safe_deferred. eapply safe_mono; [|by apply put_in_safe]. intros out s1 Hph Hout.
  split; [done|]. intros u s2 ->. by split.
Qed.
End files.

(** Nothing is touched when there is nothing to write or no place for it. *)
Lemma PutFile_refused real bytes removable s0 o c path content mode :
  content = None ∨ (∃ e, sanitizeRelativePath path = Err e) →
  safe (file_answers real bytes removable) (λ s, s = s0) (PutFile o c path content mode) s0 (λ out s, is_ok out = false).
Proof.
  intros Hrefused. unfold PutFile, with_root. apply safe_call_bind; [done|].
  intros [r|e] s1 ->; [|done]. apply safe_deferred.
  assert (∀ e : error, safe (file_answers real bytes removable) (λ s, s = s0) (mret (Err e) : fproc (result unit)) s0
    (λ out s', safe (file_answers real bytes removable) (λ s, s = s0) (call Release) s' (λ _ _, is_ok out = false))) as H.
  { intros e. apply safe_mret; [done|]. split; [done|]. intros u s2 ->. by split. }
  unfold put_in. destruct content as [m|]; [|apply H]. destruct Hrefused as [?|[e ->]]; [done|]. apply H.
Qed.

(** A regular file, the content complete and on disk. *)
Definition whole (content : string) : option (node * bool) := Some (Regular content, true).

(** What a write shows, at the target and elsewhere, while it goes on. *)
Lemma PutFile_passes real bytes removable s0 q n o c path mode s :
  sanitizeRelativePath path = Ok q → fs_ok s0 →
  passes (file_answers real bytes removable) (PutFile o c path (Some n) mode) s0 s →
  ((read s (place real q) = read s0 (place real q) ∨ read s (place real q) = whole (bytes n)) ∧
   ∀ v, after_crash s (place real q) v → after_crash s0 (place real q) v ∨ v = whole (bytes n)) ∧
  ∀ l, l ≠ place real q → lasting real s0 q l →
    read s l = read s0 l ∧ ∀ v, after_crash s l v → after_crash s0 l v.
Proof.
  intros Hq Hs0 Hp. pose proof (fs_ok_names _ Hs0) as Hn0. pose proof (PutFile_safe real bytes removable s0 q n path Hq o c mode) as Hsafe.
  pose proof (safe_passes _ _ _ _ _ _ Hsafe Hp) as Hph. split_and!.
  - by eapply phase_target.
  - intros v. by eapply phase_target_crash.
  - intros l Hne Hl. split; [by eapply phase_lasting|]. intros v. by eapply phase_lasting_crash.
Qed.

(** What a write has done that answered success. *)
Lemma settled_shows real bytes s0 q n path s :
  sanitizeRelativePath path = Ok q → fs_ok s0 → settled real bytes s0 q n s →
  read s (place real q) = whole (bytes n) ∧
  (∀ l, l ≠ place real q → read s l = read s0 l) ∧
  (place real (filepath_Dir q) ≠ place real q →
    (∀ v, after_crash s (place real q) v → v = whole (bytes n)) ∧
    ∀ l v, l ≠ place real q → after_crash s l v → after_crash s0 l v).
Proof.
  intros Hq Hs0 [Hp Hf]. pose proof (fs_ok_names _ Hs0) as Hn0. split_and!.
  - by eapply published_read.
  - intros l Hne. apply (same_name_read real s0 q); [done|by destruct Hp as (? & ? & _)|by eapply published_names].
  - intros Hne. specialize (Hf Hn0 Hne). split; [intros v|intros l v Hl]; [by eapply flushed_target|by eapply flushed_other].
Qed.

(** C8. PutFile replaces a file as a whole and durably, whatever calls fail and wherever it
    is cut off. At every state on the way the target reads either as before or as the
    complete new content, already on disk; and if the machine goes down there, what is found
    afterwards is what could have been found before or the complete new content, never a
    part. Every other entry reads as before, and after a crash gives nothing that it could
    not have given before; only places with the name of a temporary file of this target that
    were free may hold something meanwhile. When the write answers success the target reads
    as the new content, nothing else has changed, no temporary file is left, and the
    directory has been synced: after a crash the target is the new content and no other
    entry is back, or there, that was not before. (That holds unless the directory the path
    leads through is itself the entry that the path replaces, which needs a symbolic link to
    the directory it is in, or the path of the root.) A write that fails leaves no temporary
    file either, as long as the process is not killed and the system removes what it is
    asked to. Symbolic links are followed in the directory part of the path, by [real]; a
    link that is the last element is replaced itself, and what it led to is untouched. Others
    do not change the tree meanwhile, and that the directories made on the way are on disk
    is not claimed: their own parents are not synced. *)
Theorem put_file_atomic (real : string → string) (bytes : nat → string) (removable : bool) (o : options) (c : option ctx)
    (path : string) (content : option nat) (mode : Z) (s0 : fs) :
  fs_ok s0 →
  let put := PutFile o c path content mode in
  let os := file_answers real bytes removable in
  let target := place real in
  (∀ s q, passes os put s0 s → sanitizeRelativePath path = Ok q →
     (read s (target q) = read s0 (target q) ∨ ∃ n, content = Some n ∧ read s (target q) = whole (bytes n)) ∧
     ∀ v, after_crash s (target q) v → after_crash s0 (target q) v ∨ ∃ n, content = Some n ∧ v = whole (bytes n)) ∧
  (∀ s l, passes os put s0 s → (∀ q, sanitizeRelativePath path = Ok q → l ≠ target q ∧ lasting real s0 q l) →
     read s l = read s0 l ∧ ∀ v, after_crash s l v → after_crash s0 l v) ∧
  (∀ s, execs os put s0 (Ok ()) s →
     ∃ q n, sanitizeRelativePath path = Ok q ∧ content = Some n ∧ read s (target q) = whole (bytes n) ∧
       (∀ l, l ≠ target q → read s l = read s0 l) ∧
       (target (filepath_Dir q) ≠ target q →
          (∀ v, after_crash s (target q) v → v = whole (bytes n)) ∧
          ∀ l v, l ≠ target q → after_crash s l v → after_crash s0 l v)) ∧
  (∀ s e, removable = true → execs os put s0 (Err e) s →
     ∀ l, (∀ q, sanitizeRelativePath path = Ok q → l ≠ target q) → read s l = read s0 l).
Proof.
  intros Hs0 put os target. pose proof (fs_ok_names _ Hs0) as Hn0.
  assert ((∃ q n, sanitizeRelativePath path = Ok q ∧ content = Some n) ∨
          (content = None ∨ ∃ e, sanitizeRelativePath path = Err e)) as [(q & n & Hq & ->)|Href]
    by (destruct (sanitizeRelativePath path), content; eauto 6).
  - pose proof (PutFile_safe real bytes removable s0 q n path Hq o c mode) as Hsafe. rewrite Hq. split_and!.
    + intros s q' Hp [= <-]. destruct (PutFile_passes _ _ _ _ _ _ _ _ _ _ s Hq Hs0 Hp) as [[Ht Hv] _]. split.
      * destruct Ht as [?|?]; [by left|right; by exists n].
      * intros v [?|?]%Hv; [by left|right; by exists n].
    + intros s l Hp Hl. destruct (Hl q eq_refl) as [Hne Hlast].
      by apply (PutFile_passes _ _ _ _ _ _ _ _ _ _ s Hq Hs0 Hp).
    + intros s He. apply (safe_execs _ _ _ _ _ _ _ Hsafe) in He. exists q, n. split; [done|]. split; [done|].
      by apply (settled_shows real bytes s0 q n path).
    + intros s e Hr He l Hl. apply (safe_execs _ _ _ _ _ _ _ Hsafe) in He as [_ He].
      specialize (Hl q eq_refl). apply (same_name_read real s0 q); [done|by destruct (He Hr) as [[? _]|(? & ? & _)]|].
      destruct (He Hr) as [[_ ->]|(i & _ & _ & -> & _)]; [done|]. by rewrite lookup_insert_ne.
  - pose proof (PutFile_refused real bytes removable s0 o c path content mode Href) as Hsafe.
    assert (∀ s, passes os put s0 s → s = s0) as Hp by (intros s Hp; exact (safe_passes _ _ _ _ _ _ Hsafe Hp)).
    split_and!.
    + intros s q' ->%Hp _. split; [by left|by left].
    + by intros s l ->%Hp.
    + intros s He. by apply (safe_execs _ _ _ _ _ _ _ Hsafe) in He.
    + intros s e _ He l _. eapply execs_passes, Hp in He. by rewrite He.
Qed.

(** ** A system *)

(** A number that is not a key. *)
Definition unused {A} (g : gmap nat A) : nat := S (max_list (map_to_list g).*1).

Lemma unused_spec {A} (g : gmap nat A) k : unused g ≤ k → g !! k = None.
Proof.
  intros Hk. destruct (g !! k) as [x|] eqn:E; [|done]. apply elem_of_map_to_list in E.
  assert (k ∈ (map_to_list g).*1) as H by (apply list_elem_of_fmap; by exists (k, x)).
  apply max_list_elem_of_le in H. unfold unused in Hk. lia.
Qed.

(** A handle that is not open. *)
Definition free_handle (s : fs) : file_handle := unused (open_files s) `max` unused (open_dirs s).

Lemma free_handle_spec s : open_files s !! free_handle s = None ∧ open_dirs s !! free_handle s = None.
Proof. split; apply unused_spec; unfold free_handle; lia. Qed.

(** A system that does what it is asked to with files; a directory it makes is put down
    without the ones above it. *)
Definition system (real : string → string) (bytes : nat → string) : handler fcall fs := λ X e s,
  match e in fcall X return X * fs with
  | BeginOp _ => (Ok 1, s)
  | Release => ((), s)
  | InitEnter _ => (Err EOF, s)
  | SetRoot _ _ => (None, s)
  | InitUnlock => ((), s)
  | ClearBegin _ => (Err EOF, s)
  | ClearDrain _ => (Err EOF, s)
  | ClearFinish _ => ((), s)
  | TmpCounter => (1%Z, s)
  | CtxErr _ => (None, s)
  | CancelCtx _ => ((), s)
  | Now => (0%Z, s)
  | OsStat _ | OsLstat _ => (Err EOF, s)
  | OsReadDir _ => (Err EOF, s)
  | OsMkdirAll _ _ | OsRemove _ => (Err EOF, s)
  | OsOpenRoot _ => (Err EOF, s)
  | OsEnviron => ([], s)
  | RootOpen _ p =>
      match names s !! place real p, lstat real s p with
      | Some i, Some (Regular _) => (Ok (free_handle s), open_file s (free_handle s) i)
      | _, _ => if decide (real p ∈ dirs s) then (Ok (free_handle s), open_dir s (free_handle s) (real p))
                else (Err ErrNotExist, s)
      end
  | RootOpenRoot _ _ => (Err EOF, s)
  | RootStat _ _ => (Err EOF, s)
  | RootMkdirAll _ p _ =>
      match lstat real s p with
      | Some (Regular _) => (Err EOF, s)
      | _ => (Ok (), set_dirs s ({[real p]} ∪ dirs s))
      end
  | RootCreate _ p _ =>
      if decide (names s !! place real p = None)
      then (Ok (free_handle s), create s (place real p) (unused (data s)) (free_handle s))
      else (Err EOF, s)
  | RootRename _ a b =>
      match names s !! place real a with
      | Some i => (Ok (), bind_name (unbind_name s (place real a)) (place real b) i)
      | None => (Err ErrNotExist, s)
      end
  | RootRemove _ a => (Ok (), unbind_name s (place real a))
  | RootRemoveAll _ _ => (Err EOF, s)
  | RootClose _ => (Err EOF, s)
  | FileStat _ => (Ok {| fi_kind := KRegular; fi_id := 0 |}, s)
  | FileReadDir _ => (Err EOF, s)
  | FileSync h =>
      (Ok (), match open_files s !! h, open_dirs s !! h with
              | Some i, _ => sync_data s i
              | None, Some d => sync_dir s d
              | None, None => s
              end)
  | FileClose h => (Ok (), close_file s h)
  | FileFd _ => (0%Z, s)
  | FileRead _ _ => (("", Some EOF), s)
  | CopyContent _ n h =>
      match open_files s !! h with Some i => (Ok (), write_data s i (bytes n)) | None => (Err EOF, s) end
  | RunCommand _ _ _ _ _ => (([], [], RunFailed EOF), s)
  | HttpDo _ _ _ _ => (Err EOF, s)
  end.

Lemma system_sound real bytes removable X (e : fcall X) s :
  file_answers real bytes removable X e s (system real bytes X e s).1 (system real bytes X e s).2.
Proof.
  pose proof (free_handle_spec s) as [Hf Hd].
  destruct e; cbn [system file_answers fst snd]; try done.
  - unfold opened. destruct (names s !! _) as [i|], (lstat real s _) as [[]|]; try (by split_and!);
      (case_decide; [by split_and!|done]).
  - destruct (lstat real s _) as [[]|] eqn:E; cbn [fst snd].
    + exists (dirs s). split_and!; [done|by destruct s|done].
    + eexists. split_and!; [|done|]; [set_solver|]. intros _. split; [set_solver|]. by intros d ?.
    + eexists. split_and!; [|done|]; [set_solver|]. intros _. split; [set_solver|]. by intros d ?.
  - case_decide; cbn [fst snd]; [|done]. exists (unused (data s)). split_and!; try done. by apply unused_spec.
  - destruct (names s !! _) as [i|] eqn:E; cbn [fst snd]; [by exists i|done].
  - by destruct (open_files s !! f), (open_dirs s !! f).
  - destruct (open_files s !! f); cbn [fst snd]; [by exists (bytes content)|]. split; [by exists EOF|done].
Qed.

(** ** A write *)

(** A directory with one file and no links. *)
Definition sample_fs : fs := {|
  names := {[(".", "a.txt") := 0]}; older := ∅; data := {[0 := Regular "old"]}; synced := {[0]}; dirs := {["."]};
  open_files := ∅; open_dirs := ∅ |}.

Lemma sample_fs_ok : fs_ok sample_fs.
Proof.
  intros l i H. unfold history, older_at in H. cbn [names older data sample_fs] in *. rewrite lookup_empty in H.
  apply list_elem_of_singleton in H. symmetry in H. apply lookup_singleton_Some in H as [_ <-]. by eexists.
Qed.

Definition sample_options : options :=
  {| dir := "/srv/ws"; keepDir := false; umask := 0; baseEnv := []; requestLoopbackHost := "127.0.0.1" |}.

(** The run of PutFile, every call of which succeeds. *)
Definition sample_run : result unit * fs :=
  run (system id (λ _, "new")) (PutFile sample_options None " x/../a.txt" (Some 5) 420) sample_fs.

Lemma sample_put :
  execs (file_answers id (λ _, "new") true) (PutFile sample_options None " x/../a.txt" (Some 5) 420) sample_fs
    (Ok ()) (sample_run.2).
Proof.
  assert (sample_run.1 = Ok ()) as E by (by vm_compute). apply (execs_handler _ (system id (λ _, "new"))).
  - apply system_sound.
  - fold sample_run. rewrite <-E. by destruct sample_run.
Qed.

(** Replacing one file by another: it is read, also after a crash. *)
Lemma put_file_atomic_witness :
  let put := PutFile sample_options None " x/../a.txt" (Some 5) 420 in
  let os := file_answers id (λ _, "new") true in
  read sample_fs (".", "a.txt") = whole "old" ∧
  ∃ s, execs os put sample_fs (Ok ()) s ∧
    read s (".", "a.txt") = whole "new" ∧ ∀ v, after_crash s (".", "a.txt") v → v = whole "new".
Proof.
  intros put os. split; [by vm_compute|]. exists (sample_run.2). split; [exact sample_put|].
  destruct (proj1 (proj2 (proj2 (put_file_atomic id (λ _, "new") true sample_options None " x/../a.txt" (Some 5) 420
      sample_fs sample_fs_ok))) _ sample_put) as (q & n & Hq & _ & Hr & _ & Hc).
  assert (sanitizeRelativePath " x/../a.txt" = Ok "a.txt") as E by (by vm_compute). rewrite E in Hq. injection Hq as <-.
  split; [exact Hr|]. by apply Hc.
Defined.
End LocalDirFiles.
