(* ===== verification/LocalDirRead.v ===== *)
(** * Reading back what PutFile wrote

    [GetFile] opens a file and its reader is read piece by piece. To the files of
    [LocalDirFiles] comes, for each open file, what has been read through it; between the
    reads others may do what they like to the directory as long as they leave the file
    that is open alone, as a [PutFile] to the same path does, which makes a new one.
    [put_get_roundtrip]: what is read is what was written. *)

From S2P Require Import Prelude GoString GoError GoPath GoFilepath WorkspaceTypes Proc WorkspaceWorld.
From S2P Require Import LocalDir LocalDirSpec LocalDirOps LocalDirFiles.
From stdpp Require Import options.
Set Default Proof Using "Type*".

Module LocalDirRead.
Import LocalDir Directories LocalDirOps LocalDirFiles.

Record reading := { files : fs; seen : gmap file_handle string }.

(** [io.EOF] of [os.File.Read]. *)
Definition is_eof (e : error) : Prop := e = EOF.

Section reads.
Variable real : string → string.     (* where a path of a directory leads, links followed *)
Variable bytes : nat → string.
Variable removable : bool.

(** A read gives some of the bytes that follow, at the end [io.EOF], or fails; a context
    that has ended was cancelled or ran out of time. *)
Definition read_answers : answers fcall reading := λ X e s,
  match e in fcall X return X → reading → Prop with
  | FileRead h len => λ x s', files s' = files s ∧
      ((∃ i d p chunk rest, open_files (files s) !! h = Some i ∧ data (files s) !! i = Some (Regular d) ∧ seen s !! h = Some p ∧
          d = p +:+ chunk +:+ rest ∧ chunk ≠ "" ∧ String.length chunk ≤ len ∧
          x = (chunk, None) ∧ seen s' = <[h := p +:+ chunk]> (seen s)) ∨
       (∃ i d, open_files (files s) !! h = Some i ∧ data (files s) !! i = Some (Regular d) ∧ seen s !! h = Some d ∧
          x = ("", Some EOF) ∧ seen s' = seen s) ∨
       (∃ e, ¬ is_eof e ∧ x = ("", Some e) ∧ seen s' = seen s))
  | CtxErr _ => λ x s', s' = s ∧ (x = None ∨ x = Some Canceled ∨ x = Some DeadlineExceeded)
  | RootOpen r p => λ x s', file_answers real bytes removable _ (RootOpen r p) (files s) x (files s') ∧
      seen s' = match x with Ok h => <[h := ""]> (seen s) | Err _ => seen s end
  | e => λ x s', file_answers real bytes removable _ e (files s) x (files s') ∧ seen s' = seen s
  end.

(** Others at work, who leave the open file alone. *)
Definition others (h : file_handle) (s s' : reading) : Prop :=
  open_files (files s') !! h = open_files (files s) !! h ∧ seen s' !! h = seen s !! h ∧
  ∀ i, open_files (files s) !! h = Some i → data (files s') !! i = data (files s) !! i.

(** Every call of the reader comes after some work of others. *)
Definition with_others (h : file_handle) : answers fcall reading := λ X e s x s',
  ∃ s1, others h s s1 ∧ read_answers X e s1 x s'.

(** Reading on into buffers of the given sizes until something other than data comes. *)
Fixpoint read_all (sizes : list nat) (rd : ctxReadCloser) (acc : string) : fproc (string * option error) :=
  match sizes with
  | [] => mret (acc, None)
  | n :: sizes' =>
    '(t, err) ← Read rd n;
    match err with
    | Some e => mret (acc +:+ t, Some e)
    | None => read_all sizes' rd (acc +:+ t)
    end
  end.

(** ** One read *)

(** The file is open, [p] of its content [d] has been read. *)
Definition at_pos (h : file_handle) (d p : string) (s : reading) : Prop :=
  (∃ i, open_files (files s) !! h = Some i ∧ data (files s) !! i = Some (Regular d)) ∧ seen s !! h = Some p.

Lemma others_at h d p s s' : others h s s' → at_pos h d p s → at_pos h d p s'.
Proof. intros (Ho & Hs & Hd) [(i & Hi & Hdi) Hp]. split; [exists i; by rewrite Ho, (Hd i Hi)|by rewrite Hs]. Qed.

Lemma substring_short n s : String.length s ≤ n → String.substring 0 n s = s.
Proof. revert n. induction s as [|c s IH]; intros [|n] H; simpl in *; try done; try lia. by rewrite IH by lia. Qed.

(** What came after [p] in [q] is what was read. *)
Definition got_between (p t : string) (d q : string) : Prop := q = p +:+ t ∧ ∃ rest, d = q +:+ rest.

Lemma read_chunks_spec h d fuel : ∀ rd remain acc p s t err s',
  rc_file rd = h → at_pos h d p s → (∃ rest, d = p +:+ rest) →
  execs (with_others h) (read_chunks fuel rd remain acc) s (t, err) s' →
  ∃ new q, t = acc +:+ new ∧ got_between p new d q ∧ at_pos h d q s' ∧
    (∀ e, err = Some e → is_eof e → q = d) ∧ (err = None → 0 < fuel → 0 < remain → new ≠ "").
Proof.
  induction fuel as [|fuel IH]; intros rd remain acc p s t err s' Hrd Hat Hpre H.
  { simpl in H. destruct H as [[= -> ->] ->]. exists "", p. rewrite !append_nil_r. split_and!; try done; [|lia].
    split; [by rewrite append_nil_r|done]. }
  destruct remain as [|remain].
  { simpl in H. destruct H as [[= -> ->] ->]. exists "", p. rewrite !append_nil_r. split_and!; try done; [|lia].
    split; [by rewrite append_nil_r|done]. }
  cbn [read_chunks] in H. apply execs_bind in H as (ended & s1 & Hc & H). apply execs_call_inv in Hc as (s0 & Ho & Hc).
  simpl in Hc. destruct Hc as [-> Hctx]. assert (at_pos h d p s0) as Hat0 by (by eapply others_at).
  destruct ended as [e|].
  { simpl in H. destruct H as [[= -> ->] ->]. exists "", p. rewrite !append_nil_r. split_and!; try done.
    - split; [by rewrite append_nil_r|done].
    - intros e' [= <-] He. unfold is_eof in He. subst e. by destruct_or! Hctx. }
  apply execs_bind in H as ([chunk cerr] & s2 & Hr & H). apply execs_call_inv in Hr as (s1 & Ho1 & Hr).
  assert (at_pos h d p s1) as Hat1 by (by eapply others_at). destruct Hat1 as [(i & Hi & Hdi) Hp].
  cbn [read_answers] in Hr. rewrite Hrd in Hr. destruct Hr as [Hf Hr]. cbv zeta in H.
  set (len := S remain `min` getFileReadChunkSize) in *.
  destruct Hr as [(i' & d' & p' & c & rest & Hi' & Hd' & Hp' & Hd & Hne & Hlen & [= -> ->] & Hs)|
    [(i' & d' & Hi' & Hd' & Hp' & [= -> ->] & Hs)|(e & He & [= -> ->] & Hs)]].
  - assert (i' = i) as -> by congruence. assert (d' = d) as -> by congruence. assert (p' = p) as -> by congruence.
    rewrite substring_short in H by done. rewrite decide_False in H by done.
    edestruct (IH rd (S remain - String.length c) (acc +:+ c) (p +:+ c) s2 t err s') as (new & q & -> & [-> Hq] & Hat2 & He & Hn);
      [done| | |exact H|].
    + split; [exists i; by rewrite Hf|]. rewrite Hs. apply lookup_insert_eq.
    + exists rest. by rewrite append_assoc.
    + exists (c +:+ new), (p +:+ c +:+ new). rewrite !append_assoc in *. split_and!; [done|by split|done|done|].
      intros _ _ _ E. by destruct c.
  - assert (i' = i) as -> by congruence. assert (d' = d) as -> by congruence. assert (p = d) as -> by congruence.
    rewrite substring_short in H by (simpl; lia). simpl in H. destruct H as [[= -> ->] ->].
    exists "", d. rewrite !append_nil_r. split_and!; try done.
    + split; [by rewrite append_nil_r|done].
    + split; [exists i; by rewrite Hf|]. by rewrite Hs.
  - rewrite substring_short in H by (simpl; lia). simpl in H. destruct H as [[= -> ->] ->].
    exists "", p. rewrite !append_nil_r. split_and!; try done.
    + split; [by rewrite append_nil_r|done].
    + split; [exists i; by rewrite Hf|]. by rewrite Hs.
    + by intros e' [= <-].
Qed.

(** Reading on: what has come is the content up to where it stopped. *)
Lemma read_all_spec h d sizes : ∀ rd acc p s t err s',
  rc_file rd = h → at_pos h d p s → (∃ rest, d = p +:+ rest) → Forall (λ n, 0 < n) sizes →
  execs (with_others h) (read_all sizes rd acc) s (t, err) s' →
  ∃ new q, t = acc +:+ new ∧ got_between p new d q ∧
    (∀ e, err = Some e → is_eof e → q = d) ∧ (err = None → length sizes ≤ String.length new).
Proof.
  induction sizes as [|n sizes IH]; intros rd acc p s t err s' Hrd Hat Hpre Hpos H.
  { simpl in H. destruct H as [[= -> ->] ->]. exists "", p. rewrite !append_nil_r. split_and!; try done.
    split; [by rewrite append_nil_r|done]. }
  apply Forall_cons in Hpos as [Hn Hpos]. cbn [read_all] in H. apply execs_bind in H as ([t1 err1] & s1 & Hr & H).
  unfold Read in Hr. destruct (read_chunks_spec h d n rd n "" p s t1 err1 s1 Hrd Hat Hpre Hr) as (new1 & q1 & Ht1 & [-> Hq1] & Hat1 & He1 & Hn1).
  rewrite append_nil_l in Ht1. subst t1. destruct err1 as [e|].
  - simpl in H. destruct H as [[= -> ->] ->]. exists new1, (p +:+ new1). by split_and!.
  - destruct (IH rd (acc +:+ new1) (p +:+ new1) s1 t err s' Hrd Hat1 Hq1 Hpos H) as (new & q & -> & [-> Hq] & He & Hl).
    exists (new1 +:+ new), (p +:+ new1 +:+ new). rewrite !append_assoc in *. split_and!; [done|by split|done|..].
    intros E. specialize (Hl E). specialize (Hn1 eq_refl Hn Hn). rewrite append_length. simpl.
    destruct new1; [done|simpl; lia].
Qed.

(** ** Opening *)

(** After [GetFile] the reader is at the start of the file its path names. *)
Lemma get_file_at c path q s rd s' i d :
  sanitizeRelativePath path = Ok q → names (files s) !! place real q = Some i → data (files s) !! i = Some (Regular d) →
  execs read_answers (GetFile c path) s (Ok rd) s' → at_pos (rc_file rd) d "" s'.
Proof.
  intros Hq Hn Hd H. unfold GetFile, with_root in H.
  apply execs_bind in H as (begun & s1 & [E1 _]%execs_call_inv & H). simpl in E1.
  destruct begun as [r|e]; [|by destruct H]. unfold deferred in H.
  apply execs_bind in H as (out & s2 & Hin & H).
  apply execs_bind in H as (u & s3 & [E3 Es3]%execs_call_inv & H). simpl in E3. destruct H as [E ->]. symmetry in E. subst out.
  assert (at_pos (rc_file rd) d "" s2) as [(j & Hj & Hdj) Hs].
  2: { split; [exists j; by rewrite E3|by rewrite Es3]. }
  unfold get_in in Hin. rewrite Hq in Hin.
  apply execs_bind in Hin as (opened & s4 & Ho & Hin). apply execs_call_inv in Ho as [Ho Es4]. simpl in Ho.
  destruct opened as [f|e]; [|by destruct Hin]. destruct Ho as (_ & _ & Ho).
  unfold opened, lstat in Ho. rewrite E1, Hn in Ho. cbn [mbind option_bind] in Ho. rewrite Hd in Ho.
  apply execs_bind in Hin as (info & s5 & [E5 Es5]%execs_call_inv & Hin). simpl in E5.
  destruct info as [info|e]; [|apply execs_bind in Hin as (? & ? & _ & [? _]); done].
  case_decide; [apply execs_bind in Hin as (? & ? & _ & [? _]); done|]. destruct Hin as [[= ->] ->]. simpl.
  split.
  - exists i. rewrite E5, Ho. simpl. by rewrite lookup_insert_eq.
  - rewrite Es5, Es4. apply lookup_insert_eq.
Qed.

(** C10. What [PutFile] has written is what [GetFile] and its reader give back. After a
    write that answered success, a reader that was opened gives, in pieces into buffers
    of any sizes and whatever others do meanwhile to other files or to the name, bytes
    that begin the content; when it answers [io.EOF] they are the content, all of it, and
    as long as there is no error every read makes progress, so that it comes to that. *)
Theorem put_get_roundtrip (o : options) (c c' : option ctx) (path : string) (n : nat) (mode : Z) (s0 s1 : fs)
    (sn : gmap file_handle string) (rd : ctxReadCloser) (s2 s3 : reading) (sizes : list nat) (t : string) (err : option error) :
  execs (file_answers real bytes removable) (PutFile o c path (Some n) mode) s0 (Ok ()) s1 →
  execs read_answers (GetFile c' path) {| files := s1; seen := sn |} (Ok rd) s2 →
  Forall (λ n, 0 < n) sizes →
  execs (with_others (rc_file rd)) (read_all sizes rd "") s2 (t, err) s3 →
  (∃ rest, bytes n = t +:+ rest) ∧
  (∀ e, err = Some e → is_eof e → t = bytes n) ∧
  (err = None → length sizes ≤ String.length t ∧ length sizes ≤ String.length (bytes n)).
Proof.
  intros Hput Hget Hpos Hread.
  assert (∃ q, sanitizeRelativePath path = Ok q) as [q Hq].
  { destruct (sanitizeRelativePath path) as [q|e] eqn:E; [by exists q|].
    pose proof (PutFile_refused real bytes removable s0 o c path (Some n) mode (or_intror (ex_intro _ e E))) as Hsafe.
    by apply (safe_execs _ _ _ _ _ _ _ Hsafe) in Hput. }
  pose proof (PutFile_safe real bytes removable s0 q n path Hq o c mode) as Hsafe.
  apply (safe_execs _ _ _ _ _ _ _ Hsafe) in Hput as [(i & _ & _ & Hn & Hd & _) _].
  apply (get_file_at c' path q _ rd s2 i (bytes n) Hq) in Hget; [|simpl; rewrite Hn; apply lookup_insert_eq|done].
  destruct (read_all_spec (rc_file rd) (bytes n) sizes rd "" "" s2 t err s3 eq_refl Hget) as (new & q' & -> & [-> [rest Hr]] & He & Hl);
    [by exists (bytes n)|done|done|].
  rewrite !append_nil_l in *. split_and!; [by exists rest|done|]. intros E. specialize (Hl E). split; [done|].
  rewrite Hr, append_length. lia.
Qed.
End reads.

(** The file just written, opened and read into buffers of two bytes. *)
Lemma put_get_roundtrip_witness :
  ∃ s1 s2 s3 rd t err,
    execs (file_answers id (λ _, "new") true) (PutFile sample_options None " x/../a.txt" (Some 5) 420) sample_fs (Ok ()) s1 ∧
    execs (read_answers id (λ _, "new") true) (GetFile None " x/../a.txt") {| files := s1; seen := ∅ |} (Ok rd) s2 ∧
    execs (with_others id (λ _, "new") true (rc_file rd)) (read_all [2; 2; 2] rd "") s2 (t, err) s3 ∧
    err = Some EOF ∧ t = "new".
Proof.
  pose proof sample_put as Hput. set (s1 := sample_run.2) in *.
  assert (open_files s1 !! 3 = None ∧ open_dirs s1 !! 3 = None) as [Ho Hod] by (split; vm_compute; reflexivity).
  set (j := unused (data sample_fs)).
  assert (data s1 !! j = Some (Regular "new")) as Hd by (vm_compute; reflexivity).
  set (s2 := {| files := open_file s1 3 j; seen := {[3 := ""]} |}).
  set (s3 := {| files := files s2; seen := {[3 := "new"]} |}).
  assert (execs (read_answers id (λ _, "new") true) (GetFile None " x/../a.txt") {| files := s1; seen := ∅ |}
    (Ok {| rc_ctx := ensureContext None; rc_file := 3 |}) s2) as Hget.
  { refine (ex_intro _ (Ok 1) (ex_intro _ _ (conj (conj eq_refl eq_refl) _))).
    refine (ex_intro _ (Ok 3) (ex_intro _ s2 (conj (conj (conj Ho (conj Hod _)) eq_refl) _))).
    { vm_compute. reflexivity. }
    refine (ex_intro _ (Ok {| fi_kind := KRegular; fi_id := 9 |}) (ex_intro _ s2 (conj (conj eq_refl eq_refl) _))).
    refine (ex_intro _ () (ex_intro _ s2 (conj (conj eq_refl eq_refl) _))). by split. }
  assert (open_files (files s2) !! 3 = Some j) as Hj by apply lookup_insert_eq.
  assert (data (files s2) !! j = Some (Regular "new")) as Hd2 by exact Hd. clearbody s1 j.
  exists s1, s2, s3, {| rc_ctx := ensureContext None; rc_file := 3 |}, "new", (Some EOF).
  assert (execs (with_others id (λ _, "new") true 3) (read_all [2; 2; 2] {| rc_ctx := ensureContext None; rc_file := 3 |} "") s2
    ("new", Some EOF) s3) as Hread.
  { assert (∀ s, others 3 s s) as Hsame by (intros s; by split_and!).
    set (mid := {| files := files s2; seen := {[3 := "ne"]} |}).
    refine (ex_intro _ None (ex_intro _ s2 (conj (ex_intro _ s2 (conj (Hsame _) (conj eq_refl (or_introl eq_refl)))) _))).
    refine (ex_intro _ ("ne", None) (ex_intro _ mid (conj (ex_intro _ s2 (conj (Hsame _) (conj eq_refl (or_introl _)))) _))).
    { exists j, "new", "", "ne", "w". split_and!; try done; try apply lookup_insert_eq; simpl; lia. }
    refine (ex_intro _ None (ex_intro _ mid (conj (ex_intro _ mid (conj (Hsame _) (conj eq_refl (or_introl eq_refl)))) _))).
    refine (ex_intro _ ("w", None) (ex_intro _ s3 (conj (ex_intro _ mid (conj (Hsame _) (conj eq_refl (or_introl _)))) _))).
    { exists j, "new", "ne", "w", "". split_and!; try done; try apply lookup_insert_eq; simpl; lia. }
    refine (ex_intro _ None (ex_intro _ s3 (conj (ex_intro _ s3 (conj (Hsame _) (conj eq_refl (or_introl eq_refl)))) _))).
    refine (ex_intro _ ("", Some EOF) (ex_intro _ s3 (conj (ex_intro _ s3 (conj (Hsame _) (conj eq_refl (or_intror (or_introl _))))) _))).
    { exists j, "new". split_and!; try done; apply lookup_insert_eq. }
    by split. }
  split_and!; [done|done|done|done|].
  exact (proj1 (proj2 (put_get_roundtrip id (λ _, "new") true sample_options None None " x/../a.txt" 5 420 sample_fs s1 ∅ _ s2 s3
    [2; 2; 2] "new" (Some EOF) Hput Hget ltac:(repeat constructor) Hread)) EOF eq_refl eq_refl).
Defined.
End LocalDirRead.
