(* ===== verification/CondWait.v ===== *)
(** * Waiting on the condition variable (localdir.go, [waitCondWithContextLocked])

    Goroutines that wait for [clearing] to be over or for the operations to finish sleep
    on one condition variable; a watcher beside each of them wakes everybody when its
    context ends. [LocalDirOps] takes such a wait together with the section behind it as
    one call; here are its steps, with the mutex. [cancelled_wait_ends]: no wake-up is
    lost, and a wait whose context has ended returns. *)

From S2P Require Import Prelude GoError WorkspaceTypes LocalDir LocalDirOps.
From stdpp Require Import options.
Set Default Proof Using "Type*".

Module CondWait.
Import LocalDir Life.

(** ** Critical sections *)

(** What the methods wait for to become false. *)
Inductive waits_for := WClearing | WOps.
Definition pred (p : waits_for) (l : life) : bool :=
  match p with WClearing => clearing l | WOps => bool_decide (0 < activeOps l)%Z end.

(** What a section does to the instance, and whether it broadcasts: counting an
    operation in and out, [Clear] up to its second wait, that wait failing, its end, and
    storing a root. *)
Inductive critical (l : life) : life → bool → Prop :=
| sec_nothing : critical l l false
| sec_begin : critical l (beginOp l).2 false
| sec_release : critical l (release l) (bool_decide (activeOps (release l) = 0)%Z)
| sec_clear : critical l (clear_begin l).2 false
| sec_clear_failed : critical l (set_clearing l false) true
| sec_clear_finish ok : critical l (clear_finish ok l).2 true
| sec_set_root r : critical l (set_root r l).2 false.

(** A section that ends what somebody waits for broadcasts. *)
Lemma critical_wakes p l l' b : critical l l' b → pred p l = true → pred p l' = false → b = true.
Proof.
  intros [] Hp Hq; try done; [congruence|..]; destruct p; simpl in *; try congruence.
  - unfold beginOp in Hq. repeat case_match; simpl in *; congruence.
  - unfold beginOp in Hq. rewrite bool_decide_eq_true in Hp. rewrite bool_decide_eq_false in Hq.
    repeat case_match; simpl in *; lia.
  - rewrite bool_decide_eq_true in Hp. rewrite bool_decide_eq_false in Hq. apply bool_decide_eq_true. lia.
  - unfold clear_begin in Hq. repeat case_match; simpl in *; congruence.
  - unfold clear_begin in Hq. repeat case_match; simpl in *; congruence.
  - unfold set_root in Hq. repeat case_match; simpl in *; congruence.
  - unfold set_root in Hq. repeat case_match; simpl in *; congruence.
Qed.

(** ** Goroutines *)

(** Where a goroutine is: elsewhere; about to evaluate the predicate; in [cond.Wait],
    asleep or notified; back from the wait, with its result. *)
Inductive place := Elsewhere | Checking | Asleep | Notified | Returned (r : result unit).

(** Its watcher: in the [select]; at [mu.Lock]; with the mutex, before the broadcast;
    gone. *)
Inductive watcher := Watching | Locking | Waking | Gone.

#[export] Instance watcher_eq_dec : EqDecision watcher.
Proof. solve_decision. Defined.

Record thread := {
  t_for : waits_for;
  t_done : option error;         (* the error of its context, once it has ended *)
  t_at : place;
  t_over : bool;                 (* the channel [done] of the wait is closed *)
  t_watch : watcher;
}.

Definition set_at (t : thread) (p : place) : thread :=
  {| t_for := t_for t; t_done := t_done t; t_at := p; t_over := t_over t; t_watch := t_watch t |}.
Definition set_watch (t : thread) (w : watcher) : thread :=
  {| t_for := t_for t; t_done := t_done t; t_at := t_at t; t_over := t_over t; t_watch := w |}.
Definition set_done (t : thread) (e : error) : thread :=
  {| t_for := t_for t; t_done := Some e; t_at := t_at t; t_over := t_over t; t_watch := t_watch t |}.
Definition start_wait (t : thread) (p : waits_for) : thread :=
  {| t_for := p; t_done := t_done t; t_at := Checking; t_over := false; t_watch := Watching |}.
(** Another call, with a context of its own. *)
Definition new_call (t : thread) : thread :=
  {| t_for := t_for t; t_done := None; t_at := t_at t; t_over := t_over t; t_watch := t_watch t |}.
(** The deferred [close(done)]. *)
Definition return_with (t : thread) (r : result unit) : thread :=
  {| t_for := t_for t; t_done := t_done t; t_at := Returned r; t_over := true; t_watch := t_watch t |}.

Definition notified (t : thread) : thread := match t_at t with Asleep => set_at t Notified | _ => t end.

Inductive owner := Thread (i : nat) | Watcher (i : nat).

Record monitor := { m_life : life; m_owner : option owner; m_threads : list thread }.

Definition with_thread (m : monitor) (i : nat) (t : thread) (o : option owner) : monitor :=
  {| m_life := m_life m; m_owner := o; m_threads := <[i := t]> (m_threads m) |}.

Definition after_section (m : monitor) (l : life) (b : bool) (o : option owner) (ts : list thread) : monitor :=
  {| m_life := l; m_owner := o; m_threads := if b then notified <$> ts else ts |}.

Definition wait_result (t : thread) : result unit := match t_done t with Some e => Err e | None => Ok () end.

(** The watchers of earlier waits may still be there: all they do is broadcast once. *)
Inductive step (m : monitor) : option owner → monitor → Prop :=
| s_lock i t : m_threads m !! i = Some t → t_at t = Elsewhere → m_owner m = None →
    step m (Some (Thread i)) (with_thread m i (set_at t (Returned (Ok ()))) (Some (Thread i)))
| s_wait i t r p : m_threads m !! i = Some t → t_at t = Returned r → m_owner m = Some (Thread i) →
    step m (Some (Thread i)) (with_thread m i (start_wait t p) (Some (Thread i)))
| s_return i t : m_threads m !! i = Some t → t_at t = Checking → m_owner m = Some (Thread i) →
    pred (t_for t) (m_life m) = false ∨ t_done t ≠ None →
    step m (Some (Thread i)) (with_thread m i (return_with t (wait_result t)) (Some (Thread i)))
| s_sleep i t : m_threads m !! i = Some t → t_at t = Checking → m_owner m = Some (Thread i) →
    pred (t_for t) (m_life m) = true → t_done t = None →
    step m (Some (Thread i)) (with_thread m i (set_at t Asleep) None)
| s_wake i t : m_threads m !! i = Some t → t_at t = Notified → m_owner m = None →
    step m (Some (Thread i)) (with_thread m i (set_at t Checking) (Some (Thread i)))
| s_section i t r l b : m_threads m !! i = Some t → t_at t = Returned r → m_owner m = Some (Thread i) →
    critical (m_life m) l b →
    step m (Some (Thread i)) (after_section m l b (Some (Thread i)) (m_threads m))
| s_unlock i t r : m_threads m !! i = Some t → t_at t = Returned r → m_owner m = Some (Thread i) →
    step m (Some (Thread i)) (with_thread m i (set_at t Elsewhere) None)
| s_watch i t e : m_threads m !! i = Some t → t_watch t = Watching → t_done t = Some e →
    step m (Some (Watcher i)) (with_thread m i (set_watch t Locking) (m_owner m))
| s_leave i t : m_threads m !! i = Some t → t_watch t = Watching → t_over t = true →
    step m (Some (Watcher i)) (with_thread m i (set_watch t Gone) (m_owner m))
| s_take i t : m_threads m !! i = Some t → t_watch t = Locking → m_owner m = None →
    step m (Some (Watcher i)) (with_thread m i (set_watch t Waking) (Some (Watcher i)))
| s_broadcast i t : m_threads m !! i = Some t → t_watch t = Waking → m_owner m = Some (Watcher i) →
    step m (Some (Watcher i)) (after_section m (m_life m) true None (<[i := set_watch t Gone]> (m_threads m)))
| s_stale : m_owner m = None → step m None (after_section m (m_life m) true None (m_threads m))
| s_done i t e : m_threads m !! i = Some t → t_done t = None →
    step m None (with_thread m i (set_done t e) (m_owner m))
| s_call i t : m_threads m !! i = Some t → t_at t = Elsewhere →
    step m None (with_thread m i (new_call t) (m_owner m)).

Definition idle : thread :=
  {| t_for := WClearing; t_done := None; t_at := Elsewhere; t_over := true; t_watch := Gone |}.

Definition start (n : nat) : monitor :=
  {| m_life := new_life; m_owner := None; m_threads := replicate n idle |}.

Definition reachable (n : nat) (m : monitor) : Prop := rtc (λ m m', ∃ o, step m o m') (start n) m.

(** ** The invariant *)

Definition waiting (t : thread) : Prop := match t_at t with Checking | Asleep | Notified => True | _ => False end.
Definition owning (t : thread) : Prop := match t_at t with Checking | Returned _ => True | _ => False end.

Record thread_ok (l : life) (o : option owner) (i : nat) (t : thread) : Prop := {
  ok_owner : o = Some (Thread i) ↔ owning t;
  ok_waking : o = Some (Watcher i) ↔ t_watch t = Waking;
  ok_over : waiting t → t_over t = false;
  ok_done : waiting t → t_watch t ≠ Watching → t_done t ≠ None;
  ok_asleep : t_at t = Asleep → pred (t_for t) l = true ∧ t_watch t ≠ Gone;
}.

Definition monitor_ok (m : monitor) : Prop :=
  ∀ i t, m_threads m !! i = Some t → thread_ok (m_life m) (m_owner m) i t.

(** The mutex passing between others. *)
Definition other_owner (i : nat) (o : option owner) : Prop := o ≠ Some (Thread i) ∧ o ≠ Some (Watcher i).

Lemma thread_ok_owner l o o' i t : other_owner i o → other_owner i o' → thread_ok l o i t → thread_ok l o' i t.
Proof. intros [H1 H2] [H3 H4] [Ho Hw Hv Hd Ha]. split; [| |done..]; tauto. Qed.

Lemma monitor_ok_with m i t o :
  monitor_ok m → thread_ok (m_life m) o i t →
  (o = m_owner m ∨ ∀ j, j ≠ i → other_owner j (m_owner m) ∧ other_owner j o) →
  monitor_ok (with_thread m i t o).
Proof.
  intros Hm Ht Ho j u. simpl. intros Hj. destruct (decide (j = i)) as [->|Hne].
  - apply list_lookup_insert_Some in Hj as [(_ & <- & _)|[? _]]; done.
  - rewrite list_lookup_insert_ne in Hj by done. specialize (Hm j u Hj). destruct Ho as [->|Ho]; [done|].
    destruct (Ho j Hne). eapply thread_ok_owner; [| |exact Hm]; done.
Qed.

Lemma notified_ok l l' o i t : thread_ok l o i t → thread_ok l' o i (notified t).
Proof.
  intros [Ho Hw Hv Hd Ha]. unfold notified. destruct (t_at t) eqn:E; unfold owning, waiting in *; rewrite ?E in *;
    split; unfold owning, waiting; simpl; rewrite ?E; try done; try tauto.
Qed.

Lemma thread_ok_life l l' o i t :
  (t_at t = Asleep → pred (t_for t) l = true → pred (t_for t) l' = true) → thread_ok l o i t → thread_ok l' o i t.
Proof. intros Hp [Ho Hw Hv Hd Ha]. split; try done. intros E. destruct (Ha E). auto. Qed.

Lemma monitor_ok_section m l (b : bool) o (ts : list thread) :
  (∀ i t, ts !! i = Some t → thread_ok l o i (if b then notified t else t)) → monitor_ok (after_section m l b o ts).
Proof.
  intros Hts i t Hi. simpl in *. destruct b; [|by apply Hts].
  apply list_lookup_fmap_Some in Hi as (u & -> & Hu). by apply (Hts i u).
Qed.

Lemma others_free i o : o = None ∨ o = Some (Thread i) ∨ o = Some (Watcher i) → ∀ j, j ≠ i → other_owner j o.
Proof. intros Ho j Hj. split; intros E; destruct_or! Ho; congruence. Qed.

Lemma critical_keeps p l l' : critical l l' false → pred p l = true → pred p l' = true.
Proof.
  intros Hc Hp. destruct (pred p l') eqn:E; [done|]. by pose proof (critical_wakes p l l' false Hc Hp E).
Qed.

Lemma step_ok m o m' : monitor_ok m → step m o m' → monitor_ok m'.
Proof.
  intros Hm Hstep.
  assert (∀ i t o', m_threads m !! i = Some t → m_owner m = None ∨ m_owner m = Some (Thread i) ∨ m_owner m = Some (Watcher i) →
    o' = None ∨ o' = Some (Thread i) ∨ o' = Some (Watcher i) → ∀ u, thread_ok (m_life m) o' i u → monitor_ok (with_thread m i u o')) as Hw.
  { intros i t o' Hi Ho Ho' u Hu. apply monitor_ok_with; [done..|]. right. intros j Hj. split; by apply (others_free i). }
  assert (∀ i t, m_threads m !! i = Some t → m_owner m ≠ Some (Watcher i) → t_watch t ≠ Waking) as Hnw.
  { intros i t Hi Ho Hwk. apply Ho. by apply (Hm i t Hi). }
  destruct Hstep as [i t Hi Ha Ho|i t r p Hi Ha Ho|i t Hi Ha Ho Hr|i t Hi Ha Ho Hp Hd|i t Hi Ha Ho|i t r l b Hi Ha Ho Hc
    |i t r Hi Ha Ho|i t e Hi Hwt Hd|i t Hi Hwt Hov|i t Hi Hwt Ho|i t Hi Hwt Ho|Ho|i t e Hi Hd|i t Hi Ha].
  6: { apply monitor_ok_section. intros j u Hj. rewrite <-Ho. destruct b; [by eapply notified_ok, Hm|].
       eapply thread_ok_life; [|by apply Hm]. intros _. by apply critical_keeps. }
  10: { apply monitor_ok_section. intros j u Hj. destruct (decide (j = i)) as [->|Hne].
        - apply list_lookup_insert_Some in Hj as [(_ & <- & _)|[? _]]; [|done].
          destruct (Hm i t Hi) as [Hto Htw Htv Htd Hta]. unfold notified. rewrite Ho, Hwt in *.
          destruct (t_at t) eqn:E; unfold owning, waiting in *; simpl; rewrite ?E in *; split; unfold owning, waiting;
            simpl; rewrite ?E; try done; try tauto; try (split; congruence).
          all: first [by intros _ _; apply Htd|pose proof (proj2 Hto I) as ?; congruence].
        - rewrite list_lookup_insert_ne in Hj by done. eapply notified_ok, thread_ok_owner; [| |by apply Hm]; split; congruence. }
  10: { apply monitor_ok_section. intros j u Hj. rewrite <-Ho. by eapply notified_ok, Hm. }
  all: pose proof (Hm i t Hi) as [Hto Htw Htv Htd Hta]; specialize (Hnw i t Hi).
  all: try (eapply Hw; [exact Hi|by auto|by auto|]).
  all: try (apply monitor_ok_with; [done| |by left]).
  all: unfold owning, waiting in *; split; unfold owning, waiting; simpl; rewrite ?Ha, ?Hwt, ?Ho in *; simpl; try done; try tauto; try congruence.
  all: try (split; [congruence|]; intros ?; by destruct Hnw).
  - intros _. split; [done|]. intros E. apply Htd; [done|congruence|done].
  - split; [|done]. intros E. by apply Htw in E.
  - intros E. by destruct (Hta E).
  - split; [|done]. intros E. by apply Htw in E.
  - intros Hx. rewrite (Htv Hx) in Hov. done.
  - intros E. rewrite E in Htv. rewrite (Htv I) in Hov. done.
  - split; [congruence|]. intros Hx. by apply Hto in Hx.
  - intros Hx _. by apply Htd.
  - intros E. by destruct (Hta E).
Qed.

Lemma start_ok n : monitor_ok (start n).
Proof. intros i t [-> _]%lookup_replicate. by split. Qed.

Lemma reachable_ok n m : reachable n m → monitor_ok m.
Proof.
  intros H. remember (start n) as m0 eqn:E. unfold reachable in H. rewrite <-E in H.
  assert (monitor_ok m0) as H0 by (subst; apply start_ok). clear E.
  induction H as [m|m m1 m2 [o Hs] _ IH]; [done|]. by eapply IH, step_ok.
Qed.

(** ** What a wait guarantees *)

(** How many steps of a waiting goroutine and its watcher are left, once its context has
    ended. *)
Definition steps_left (t : thread) : nat :=
  match t_at t with Asleep => 3 | Notified => 2 | Checking => 1 | _ => 0 end +
  match t_watch t with Watching => 3 | Locking => 2 | Waking => 1 | Gone => 0 end.

(** It has returned the error of its context. *)
Definition gave_up (t t' : thread) : Prop := ∃ e, t_done t = Some e ∧ t_at t' = Returned (Err e).

(** The wait goes on with as much left or less, or it is over. *)
Definition comes_closer (t t' : thread) : Prop :=
  (t_done t' = t_done t ∧ waiting t' ∧ steps_left t' ≤ steps_left t) ∨ gave_up t t'.

Definition own_step (i : nat) (o : option owner) : Prop := o = Some (Thread i) ∨ o = Some (Watcher i).

Lemma notified_closer t u : t_done u = t_done t → waiting u → steps_left u ≤ steps_left t → comes_closer t (notified u).
Proof.
  intros Hd Hw Hl. unfold notified. destruct (t_at u) eqn:E; try (by left).
  left. split_and!; [done|done|]. unfold steps_left in *. simpl. rewrite E in Hl. lia.
Qed.

Lemma notified_lower t : steps_left (notified t) ≤ steps_left t.
Proof. unfold notified. destruct (t_at t) eqn:E; try done. unfold steps_left. simpl. rewrite E. lia. Qed.

(** What a step leaves of a goroutine whose context has ended. *)
Lemma step_closer m o m' i t e :
  monitor_ok m → m_threads m !! i = Some t → waiting t → t_done t = Some e → step m o m' →
  ∃ t', m_threads m' !! i = Some t' ∧ comes_closer t t' ∧ (own_step i o → steps_left t' < steps_left t ∨ gave_up t t').
Proof.
  intros Hm Ht Hw Hd Hstep. pose proof (Hm i t Ht) as [_ _ Hv _ _]. specialize (Hv Hw).
  assert (∀ j u u' o' o, m_threads m !! j = Some u → (own_step i o → j = i) →
    (u = t → comes_closer t u' ∧ (own_step i o → steps_left u' < steps_left t ∨ gave_up t u')) →
    ∃ t', m_threads (with_thread m j u' o') !! i = Some t' ∧ comes_closer t t' ∧
      (own_step i o → steps_left t' < steps_left t ∨ gave_up t t')) as Hwith.
  { intros j u u' o' o0 Hj Ho Hu. simpl. destruct (decide (j = i)) as [->|Hne].
    - exists u'. rewrite list_lookup_insert_eq by (by eapply lookup_lt_Some). destruct Hu; [congruence|]. by split_and!.
    - exists t. rewrite list_lookup_insert_ne by done. split_and!; [done|by left|]. intros H. by destruct Hne; apply Ho. }
  assert (∀ j, own_step i (Some (Thread j)) → j = i) as HT by (intros j [|]; congruence).
  assert (∀ j, own_step i (Some (Watcher j)) → j = i) as HW by (intros j [|]; congruence).
  assert (¬ own_step i None) as HN by (by intros [|]).
  destruct Hstep as [j u Hj Ha Ho|j u r p Hj Ha Ho|j u Hj Ha Ho Hr|j u Hj Ha Ho Hp Hdu|j u Hj Ha Ho|j u r l b Hj Ha Ho Hc
    |j u r Hj Ha Ho|j u e' Hj Hwt Hdu|j u Hj Hwt Hov|j u Hj Hwt Ho|j u Hj Hwt Ho|Ho|j u e' Hj Hdu|j u Hj Ha];
    try (eapply Hwith; [exact Hj|by auto|intros ->; try (unfold waiting in Hw; rewrite Ha in Hw; done); try congruence]).
  - assert (gave_up t (return_with t (wait_result t))) as Hg.
    { exists e. split; [done|]. unfold wait_result. by rewrite Hd. }
    split; [by right|]. intros _. by right.
  - unfold steps_left. simpl. rewrite Ha. split; [|intros _; left; lia]. left. unfold steps_left. simpl. rewrite Ha.
    split_and!; [done|done|lia].
  - assert (j ≠ i) as Hne by (intros ->; simplify_eq; unfold waiting in Hw; by rewrite Ha in Hw).
    destruct b; simpl; [exists (notified t); rewrite list_lookup_fmap, Ht|exists t];
      (split_and!; [done| |by intros ?%HT]); [by apply notified_closer|by left].
  - unfold steps_left. simpl. rewrite Hwt. split; [|intros _; left; lia]. left. unfold steps_left. simpl. rewrite Hwt.
    split_and!; [done|done|lia].
  - unfold steps_left. simpl. rewrite Hwt. split; [|intros _; left; lia]. left. unfold steps_left. simpl. rewrite Hwt.
    split_and!; [done|done|lia].
  - simpl. destruct (decide (j = i)) as [->|Hne].
    + simplify_eq. exists (notified (set_watch t Gone)).
      rewrite list_lookup_fmap, list_lookup_insert_eq by (by eapply lookup_lt_Some).
      assert (steps_left (set_watch t Gone) < steps_left t) as Hl by (unfold steps_left; simpl; rewrite Hwt; lia).
      split_and!; [done|apply notified_closer; [done|done|lia]|]. intros _. left.
      pose proof (notified_lower (set_watch t Gone)). lia.
    + exists (notified t). rewrite list_lookup_fmap, list_lookup_insert_ne, Ht by done.
      split_and!; [done|by apply notified_closer|by intros ?%HW].
  - simpl. exists (notified t). rewrite list_lookup_fmap, Ht. split_and!; [done|by apply notified_closer|done].
Qed.

(** It has a step to take unless another one has the mutex. *)
Lemma step_enabled m i t e :
  monitor_ok m → m_threads m !! i = Some t → waiting t → t_done t = Some e →
  ¬ other_owner i (m_owner m) ∨ m_owner m = None → ∃ o m', own_step i o ∧ step m o m'.
Proof.
  intros Hm Ht Hw Hd Hfree. pose proof (Hm i t Ht) as [Hto Htw Hv _ Ha].
  destruct (decide (t_watch t = Waking)) as [Hwk|Hwk].
  { eexists _, _. split; [by right|]. eapply s_broadcast; [done..|]. by apply Htw. }
  assert (m_owner m = Some (Thread i) ∨ m_owner m = None) as Ho.
  { unfold other_owner in Hfree. destruct (m_owner m) as [[j|j]|]; [| |by right].
    - left. destruct (decide (j = i)) as [->|Hne]; [done|]. exfalso. destruct Hfree as [Hf|]; [|done]. apply Hf. split; congruence.
    - exfalso. destruct (decide (j = i)) as [->|Hne]; [by apply Hwk, Htw|].
      destruct Hfree as [Hf|]; [|done]. apply Hf. split; congruence. }
  unfold waiting in Hw. unfold owning in Hto. destruct (t_at t) eqn:E; try done.
  - eexists _, _. split; [by left|]. eapply s_return; [done..|by apply Hto|]. right. by rewrite Hd.
  - destruct (Ha eq_refl) as [_ Hg]. destruct (t_watch t) eqn:Hwt; try done; eexists _, _; (split; [by right|]).
    + by eapply s_watch.
    + eapply s_take; [done..|]. destruct Ho as [Ho|]; [|done]. by apply Hto in Ho.
  - eexists _, _. split; [by left|]. eapply s_wake; [done..|]. destruct Ho as [Ho|]; [|done]. by apply Hto in Ho.
Qed.

(** C12. Any number of goroutines wait on an instance, in any interleaving with the
    sections of its methods and with the ends of their contexts. No wake-up is lost: a
    goroutine asleep still has its reason to be, and if its context has ended, its
    watcher is on its way to wake it. Once its context has ended, no step of anybody puts
    a waiting goroutine further from returning its error, every step of its own or of
    its watcher brings it closer, of which it needs at most six, and one of them can be
    taken whenever no other one has the mutex. *)
Theorem cancelled_wait_ends (n i : nat) (m : monitor) (t : thread) :
  reachable n m → m_threads m !! i = Some t → waiting t →
  (t_at t = Asleep → pred (t_for t) (m_life m) = true ∧ t_watch t ≠ Gone) ∧
  (t_done t ≠ None →
     steps_left t ≤ 6 ∧
     (∀ o m', step m o m' → ∃ t', m_threads m' !! i = Some t' ∧ comes_closer t t' ∧
        (own_step i o → steps_left t' < steps_left t ∨ gave_up t t')) ∧
     (¬ other_owner i (m_owner m) ∨ m_owner m = None → ∃ o m', own_step i o ∧ step m o m')).
Proof.
  intros Hr%reachable_ok Ht Hw. split; [by apply (Hr i t Ht)|]. intros Hd. destruct (t_done t) as [e|] eqn:E; [|done].
  split_and!.
  - unfold steps_left. destruct (t_at t), (t_watch t); lia.
  - intros o m' Hs. by eapply step_closer.
  - by eapply step_enabled.
Qed.

(** Without an error a wait returns to a goroutine that has the mutex and finds what it
    waited for over: the wait and the section after it are one section. *)
Lemma returns_when_over i m o m' t t' :
  m_threads m !! i = Some t → waiting t → step m o m' →
  m_threads m' !! i = Some t' → t_at t' = Returned (Ok ()) →
  pred (t_for t) (m_life m) = false ∧ m_life m' = m_life m ∧ m_owner m' = Some (Thread i).
Proof.
  intros Ht Hw Hs Ht' Hret.
  assert (∀ u, waiting u → ¬ (t_at (notified u) = Returned (Ok ()))) as Hn.
  { intros u Hu. unfold notified, waiting in *. by destruct (t_at u) eqn:E; simpl; rewrite ?E. }
  assert (∀ u, waiting u → t_at u ≠ Returned (Ok ())) as Hn'.
  { intros u Hu E. unfold waiting in Hu. by rewrite E in Hu. }
  assert (∀ ts : list thread, ts !! i = Some t' → (∀ u, ts !! i = Some u → waiting u) → False) as Hno.
  { intros ts Hts Hall. by apply (Hn' t'); [apply Hall|]. }
  assert (∀ ts : list thread, (notified <$> ts) !! i = Some t' → (∀ u, ts !! i = Some u → waiting u) → False) as Hno'.
  { intros ts Hts Hall. apply list_lookup_fmap_Some in Hts as (u & -> & Hu). apply (Hn u); [by apply Hall|done]. }
  assert (∀ j u u', m_threads m !! j = Some u → (u = t → waiting u') →
    ∀ v, <[j:=u']> (m_threads m) !! i = Some v → waiting v) as Hins.
  { intros j u u' Hj Hu v Hv. apply list_lookup_insert_Some in Hv as [(-> & <- & _)|[_ Hv]]; [apply Hu; congruence|].
    by simplify_eq. }
  assert (∀ v, m_threads m !! i = Some v → waiting v) as Hsame by (intros v Hv; by simplify_eq).
  destruct Hs as [j u Hj Ha Ho|j u r p Hj Ha Ho|j u Hj Ha Ho Hr|j u Hj Ha Ho Hp Hdu|j u Hj Ha Ho|j u r l b Hj Ha Ho Hc
    |j u r Hj Ha Ho|j u e' Hj Hwt Hdu|j u Hj Hwt Hov|j u Hj Hwt Ho|j u Hj Hwt Ho|Ho|j u e' Hj Hdu|j u Hj Ha]; simpl in *;
    try (exfalso; apply (Hno _ Ht'), (Hins j u); [done|]; intros ->; unfold waiting in *; simpl; rewrite ?Ha in *; done).
  - apply list_lookup_insert_Some in Ht' as [(-> & <- & _)|[_ Ht']]; [|exfalso; by apply (Hno _ Ht')].
    simplify_eq. split_and!; [|done|done]. simpl in Hret. injection Hret as Hres. unfold wait_result in Hres.
    destruct Hr as [|Hd]; [done|]. by destruct (t_done t).
  - exfalso. destruct b; [by apply (Hno' _ Ht')|by apply (Hno _ Ht')].
  - exfalso. apply (Hno' _ Ht'), (Hins j u); [done|]. by intros ->.
  - exfalso. by apply (Hno' _ Ht').
Qed.

(** *** One goroutine clears while another one waits for it *)

Definition sleeping : thread :=
  {| t_for := WClearing; t_done := None; t_at := Asleep; t_over := false; t_watch := Watching |}.

Definition one_sleeps : monitor :=
  {| m_life := (clear_begin new_life).2; m_owner := None; m_threads := [idle; sleeping] |}.

Lemma one_sleeps_reached : reachable 2 one_sleeps.
Proof.
  unfold reachable. eapply rtc_l; [eexists; by eapply (s_lock _ 0)|].
  eapply rtc_l; [eexists; eapply (s_section _ 0); [done..|apply sec_clear]|].
  eapply rtc_l; [eexists; eapply (s_unlock _ 0); done|].
  eapply rtc_l; [eexists; by eapply (s_lock _ 1)|].
  eapply rtc_l; [eexists; eapply (s_wait _ 1 _ _ WClearing); done|].
  eapply rtc_l; [eexists; eapply (s_sleep _ 1); done|]. apply rtc_refl.
Qed.

Lemma cancelled_wait_ends_witness : pred WClearing (m_life one_sleeps) = true ∧ Watching ≠ Gone.
Proof. refine (proj1 (cancelled_wait_ends 2 1 one_sleeps sleeping one_sleeps_reached eq_refl I) eq_refl). Defined.
End CondWait.
