(* ===== verification/IdGen.v ===== *)
(** * Identifiers of the orchestrator (pkg/orchestrator/idgen/idgen.go)

    The sequential generator counts, the default one combines a clock that never
    stands still with random bytes. Each number is drawn in one critical section (an
    atomic increment, or [g.mu]); text is built from it outside. The identifiers of one
    generator come out in increasing order ([default_ids_increasing]) or at least
    different ([sequential_ids_distinct]), as long as nothing wraps around. *)

From S2P Require Import Prelude GoString GoError Sha256.
From Stdlib Require Import Ascii.
From stdpp Require Import options.

Definition uint64_bound : Z := 2 ^ 64.

(** Signed 64-bit arithmetic. *)
Definition int64_wrap (z : Z) : Z := ((z + 2 ^ 63) mod 2 ^ 64 - 2 ^ 63)%Z.

Lemma int64_wrap_small z : (- 2 ^ 63 ≤ z < 2 ^ 63)%Z → int64_wrap z = z.
Proof. intros H. unfold int64_wrap. rewrite Z.mod_small by lia. lia. Qed.

(** [%0<w>x] of a number below [16 ^ w]: exactly [w] digits. *)
Fixpoint hex_fixed (w : nat) (n : Z) : string :=
  match w with
  | 0 => ""
  | S w' => String (hex_digit (Z.to_nat ((n / 16 ^ Z.of_nat w') mod 16))) (hex_fixed w' n)
  end.

(** Zeros in front of a text up to a width. *)
Fixpoint zeros (k : nat) : string := match k with 0 => "" | S k' => String "0" (zeros k') end.
Definition pad_zero (w : nat) (s : string) : string := zeros (w - String.length s) +:+ s.

Module IdGen.

(** ** [sequentialGenerator] *)

Record sequentialGenerator := {
  taskCounter : Z;                  (* uint64 *)
  sessionCounter : Z;
  requestCounter : Z;
  eventCounter : Z;
  taskPrefix : string;
}.

Definition NewSequential (prefix : string) : sequentialGenerator :=
  {| taskCounter := 0; sessionCounter := 0; requestCounter := 0; eventCounter := 0; taskPrefix := prefix |}.

(** [fmt.Sprintf("%s%010d", prefix, n)] *)
Definition formatSequential (prefix : string) (n : Z) : string := prefix +:+ pad_zero 10 (strconv_Itoa n).

(** [atomic.Uint64.Add(1)] *)
Definition add1 (n : Z) : Z := ((n + 1) mod uint64_bound)%Z.

Definition seq_NewTaskID (g : sequentialGenerator) : string * sequentialGenerator :=
  let n := add1 (taskCounter g) in
  (formatSequential (taskPrefix g) n,
   {| taskCounter := n; sessionCounter := sessionCounter g; requestCounter := requestCounter g;
      eventCounter := eventCounter g; taskPrefix := taskPrefix g |}).

Definition seq_NewSessionID (g : sequentialGenerator) : string * sequentialGenerator :=
  let n := add1 (sessionCounter g) in
  (formatSequential "S-" n,
   {| taskCounter := taskCounter g; sessionCounter := n; requestCounter := requestCounter g;
      eventCounter := eventCounter g; taskPrefix := taskPrefix g |}).

Definition seq_NewRequestID (g : sequentialGenerator) : string * sequentialGenerator :=
  let n := add1 (requestCounter g) in
  (formatSequential "R-" n,
   {| taskCounter := taskCounter g; sessionCounter := sessionCounter g; requestCounter := n;
      eventCounter := eventCounter g; taskPrefix := taskPrefix g |}).

Definition seq_NewEventID (g : sequentialGenerator) : string * sequentialGenerator :=
  let n := add1 (eventCounter g) in
  (formatSequential "E-" n,
   {| taskCounter := taskCounter g; sessionCounter := sessionCounter g; requestCounter := requestCounter g;
      eventCounter := n; taskPrefix := taskPrefix g |}).

(** ** [defaultGenerator] *)

Record defaultGenerator := { lastUnixNano : Z }.     (* int64 *)

Definition NewDefault : defaultGenerator := {| lastUnixNano := 0 |}.

(** The critical section: the clock reading, moved past the last one. *)
Definition tick (now : Z) (g : defaultGenerator) : Z * defaultGenerator :=
  let now := if decide (now ≤ lastUnixNano g)%Z then int64_wrap (lastUnixNano g + 1) else now in
  (now, {| lastUnixNano := now |}).

(** [fmt.Sprintf("%016x-%010x", uint64(now), entropy)] *)
Definition format_id (now : Z) (entropy : list Z) : string :=
  hex_fixed 16 (now mod uint64_bound) +:+ "-" +:+ hex_encode entropy.

(** [None] is the panic when no five random bytes were to be had. *)
Definition nextID (now : Z) (entropy : result (list Z)) (g : defaultGenerator) : option string * defaultGenerator :=
  let '(now, g) := tick now g in
  match entropy with
  | Ok bytes => if decide (length bytes = 5) then (Some (format_id now bytes), g) else (None, g)
  | Err _ => (None, g)
  end.

Definition NewTaskID := nextID.
Definition NewSessionID := nextID.
Definition NewRequestID := nextID.
Definition NewEventID := nextID.

(** The identifiers of calls whose critical sections come in the order of the list; a
    clock reading each, and what the random source gives. *)
Fixpoint drawn (calls : list (Z * result (list Z))) (g : defaultGenerator) : list string :=
  match calls with
  | [] => []
  | (now, entropy) :: calls' =>
    let '(id, g) := nextID now entropy g in
    option_list id ++ drawn calls' g
  end.

(** Calls of the sequential generator. *)
Inductive seq_op := SeqTask | SeqSession | SeqRequest | SeqEvent.
#[export] Instance seq_op_eq_dec : EqDecision seq_op.
Proof. solve_decision. Defined.

Definition seq_call (op : seq_op) (g : sequentialGenerator) : string * sequentialGenerator :=
  match op with
  | SeqTask => seq_NewTaskID g
  | SeqSession => seq_NewSessionID g
  | SeqRequest => seq_NewRequestID g
  | SeqEvent => seq_NewEventID g
  end.

Fixpoint seq_drawn (ops : list seq_op) (g : sequentialGenerator) : list (seq_op * string) :=
  match ops with
  | [] => []
  | op :: ops' => let '(id, g) := seq_call op g in (op, id) :: seq_drawn ops' g
  end.

Example id_ex1 : drawn [(255, Ok [1; 2; 3; 4; 171]); (3, Ok [0; 0; 0; 0; 0])]%Z NewDefault =
  ["00000000000000ff-01020304ab"; "0000000000000100-0000000000"].
Proof. vm_compute. reflexivity. Qed.
Example id_ex2 : (seq_NewTaskID (NewSequential "T-")).1 = "T-0000000001".
Proof. vm_compute. reflexivity. Qed.
End IdGen.

(** ** What the identifiers are worth *)

Module IdGenSpec.
Import IdGen.

(** Digits are in the order of the values. *)
Lemma hex_digit_lt a b : a < b → b < 16 → Ascii.compare (hex_digit a) (hex_digit b) = Lt.
Proof.
  intros Hab Hb. assert (a ∈ seq 0 16 ∧ b ∈ seq 0 16) as [Ha Hb'] by (rewrite !elem_of_seq; lia).
  assert (forallb (λ a, forallb (λ b, bool_decide (a < b → Ascii.compare (hex_digit a) (hex_digit b) = Lt)) (seq 0 16))
    (seq 0 16) = true) as H by (vm_compute; reflexivity).
  rewrite forallb_forall in H. specialize (H a). rewrite forallb_forall in H.
  assert (bool_decide (a < b → Ascii.compare (hex_digit a) (hex_digit b) = Lt) = true) as H'.
  { apply H; by apply list_elem_of_In. }
  apply bool_decide_eq_true in H'. by apply H'.
Qed.

Lemma hex_digit_refl a : Ascii.compare (hex_digit a) (hex_digit a) = Eq.
Proof. unfold Ascii.compare. apply N.compare_refl. Qed.

Lemma compare_head c d a b :
  String.compare (String c a) (String d b) =
  match Ascii.compare c d with Eq => String.compare a b | r => r end.
Proof. done. Qed.

(** Fixed-width numbers in the order of the values, whatever follows them. *)
Lemma hex_fixed_lt w n m a b :
  (n mod 16 ^ Z.of_nat w < m mod 16 ^ Z.of_nat w)%Z →
  String.compare (hex_fixed w n +:+ a) (hex_fixed w m +:+ b) = Lt.
Proof.
  revert n m. induction w as [|w IH]; intros n m H; [rewrite !Z.mod_1_r in H; lia|].
  assert (0 < 16 ^ Z.of_nat w)%Z as Hp by (apply Z.pow_pos_nonneg; lia).
  rewrite Nat2Z.inj_succ, Z.pow_succ_r, (Z.mul_comm 16), !Z.rem_mul_r in H by lia.
  cbn [hex_fixed]. rewrite !append_cons, compare_head.
  pose proof (Z.mod_pos_bound (n / 16 ^ Z.of_nat w) 16) as Hn.
  pose proof (Z.mod_pos_bound (m / 16 ^ Z.of_nat w) 16) as Hm.
  pose proof (Z.mod_pos_bound n _ Hp) as Hn'. pose proof (Z.mod_pos_bound m _ Hp) as Hm'.
  set (dn := ((n / 16 ^ Z.of_nat w) mod 16)%Z) in *. set (dm := ((m / 16 ^ Z.of_nat w) mod 16)%Z) in *.
  destruct (Z.lt_trichotomy dn dm) as [Hlt|[Heq|Hgt]]; [|rewrite Heq, hex_digit_refl; apply IH; lia|nia].
  by rewrite hex_digit_lt by lia.
Qed.

Lemma format_id_lt n m e1 e2 :
  (0 ≤ n < m)%Z → (m < 2 ^ 63)%Z → (strings_Compare (format_id n e1) (format_id m e2) < 0)%Z.
Proof.
  intros Hnm Hm. unfold format_id, strings_Compare, uint64_bound. rewrite hex_fixed_lt; [done|].
  change (16 ^ Z.of_nat 16)%Z with (2 ^ 64)%Z. rewrite !Z.mod_mod, !Z.mod_small by lia. lia.
Qed.

(** ** The default generator *)

(** A generator that has counted to [n] and can count [k] further. *)
Definition room (k : nat) (bound : Z) (g : defaultGenerator) : Prop :=
  (0 ≤ lastUnixNano g ∧ lastUnixNano g + Z.of_nat k < 2 ^ 63 ∧ bound + Z.of_nat k < 2 ^ 63)%Z.

Lemma tick_spec now g k bound :
  room (S k) bound g → (now ≤ bound)%Z →
  (lastUnixNano g < (tick now g).1)%Z ∧ (tick now g).2 = {| lastUnixNano := (tick now g).1 |} ∧
  room k bound (tick now g).2.
Proof.
  intros (H0 & H1 & H2) Hnow. unfold room, tick. case_decide; simpl; rewrite ?int64_wrap_small by lia; split_and!;
    try done; lia.
Qed.

Lemma drawn_above calls g bound :
  room (length calls) bound g → Forall (λ c, (c.1 ≤ bound)%Z) calls →
  Forall (λ id, ∃ n e, id = format_id n e ∧ (lastUnixNano g < n < 2 ^ 63)%Z) (drawn calls g) ∧
  StronglySorted (λ a b, (strings_Compare a b < 0)%Z) (drawn calls g).
Proof.
  revert g. induction calls as [|[now entropy] calls IH]; intros g Hroom Hb; [split; constructor|].
  apply Forall_cons in Hb as [Hnow Hb]. destruct (tick_spec now g _ _ Hroom Hnow) as (Hlt & Hg & Hroom').
  cbn [drawn]. unfold nextID. destruct (tick now g) as [n g'] eqn:E. cbn [fst snd] in *.
  assert (lastUnixNano g' = n) as Hlast by (by rewrite Hg). destruct (IH g' Hroom' Hb) as [Habove Hsorted].
  assert (Forall (λ id, ∃ n e, id = format_id n e ∧ (lastUnixNano g < n < 2 ^ 63)%Z) (drawn calls g')) as Hall.
  { eapply Forall_impl; [exact Habove|]. intros id (n' & e' & -> & ?). exists n', e'. split; [done|lia]. }
  destruct entropy as [bytes|]; [|by split]. destruct (decide (length bytes = 5)); [|by split]. simpl. split.
  - constructor; [|done]. exists n, bytes. split; [done|]. destruct Hroom' as (? & ? & ?). lia.
  - constructor; [done|]. eapply Forall_impl; [exact Habove|]. intros id (n' & e' & -> & ?).
    apply format_id_lt; [|lia]. destruct Hroom as (? & _). lia.
Qed.

(** The default generator's identifiers increase strictly, as texts, in the order of
    their critical sections, so no two of them are equal: whatever the clock does (it may
    stand still or go back) and whatever the random bytes are, as long as neither the
    clock nor the count of identifiers comes near the end of the 64-bit range. *)
Theorem default_ids_increasing (calls : list (Z * result (list Z))) (bound : Z) :
  Forall (λ c, (c.1 ≤ bound)%Z) calls → (0 ≤ bound)%Z → (bound + Z.of_nat (length calls) < 2 ^ 63)%Z →
  StronglySorted (λ a b, (strings_Compare a b < 0)%Z) (drawn calls NewDefault) ∧ NoDup (drawn calls NewDefault).
Proof.
  intros Hb H0 Hbound. destruct (drawn_above calls NewDefault bound) as [_ Hs]; [|done|].
  { unfold room. simpl. lia. }
  split; [done|]. clear -Hs. induction Hs as [|a l Hs IH Ha]; [constructor|]. constructor; [|done].
  intros Hin. rewrite Forall_forall in Ha. specialize (Ha a Hin). rewrite strings_Compare_refl in Ha. lia.
Qed.

Lemma default_ids_increasing_witness :
  let calls := [(255, Ok [1; 2; 3; 4; 5]); (255, Err EOF); (7, Ok [0; 0; 0; 0; 0])]%Z in
  StronglySorted (λ a b, (strings_Compare a b < 0)%Z) (drawn calls NewDefault) ∧ NoDup (drawn calls NewDefault).
Proof.
  intros calls. apply (default_ids_increasing calls 255); [repeat constructor; simpl; lia|lia|].
  vm_compute. reflexivity.
Defined.

(** ** The sequential generator *)

Definition counter (op : seq_op) (g : sequentialGenerator) : Z :=
  match op with
  | SeqTask => taskCounter g
  | SeqSession => sessionCounter g
  | SeqRequest => requestCounter g
  | SeqEvent => eventCounter g
  end.

Definition prefix_of (op : seq_op) (prefix : string) : string :=
  match op with SeqTask => prefix | SeqSession => "S-" | SeqRequest => "R-" | SeqEvent => "E-" end.

Lemma append_inj_l p a b : p +:+ a = p +:+ b → a = b.
Proof.
  induction p as [|c p IH]; [by rewrite !append_nil_l|]. rewrite !append_cons. intros [= H]. by apply IH.
Qed.

Lemma digits_go_zeros k s : digits_go (zeros k +:+ s) 0 = digits_go s 0.
Proof. induction k as [|k IH]; [by rewrite append_nil_l|]. cbn [zeros]. rewrite append_cons. exact IH. Qed.

Lemma pad_zero_digits w n : (0 ≤ n)%Z → digits (pad_zero w (strconv_Itoa n)) = Some n.
Proof.
  intros Hn. rewrite <-(digits_Itoa n Hn). unfold pad_zero.
  generalize (w - String.length (strconv_Itoa n)). intros k. pose proof (strconv_Itoa_nonempty n) as Hne.
  unfold digits. destruct (strconv_Itoa n) as [|c s] eqn:E; [done|].
  destruct (zeros k +:+ String c s) eqn:Ez; [by destruct k|]. rewrite <-Ez. by rewrite digits_go_zeros.
Qed.

Lemma formatSequential_inj p n m :
  (0 ≤ n)%Z → (0 ≤ m)%Z → formatSequential p n = formatSequential p m → n = m.
Proof.
  intros Hn Hm H. apply append_inj_l in H. apply (f_equal digits) in H.
  rewrite !pad_zero_digits in H by done. by injection H.
Qed.

Lemma seq_call_spec op g :
  (∀ op', 0 ≤ counter op' g < 2 ^ 64 - 1)%Z →
  (seq_call op g).1 = formatSequential (prefix_of op (taskPrefix g)) (counter op g + 1) ∧
  counter op (seq_call op g).2 = (counter op g + 1)%Z ∧ taskPrefix (seq_call op g).2 = taskPrefix g ∧
  ∀ op', op' ≠ op → counter op' (seq_call op g).2 = counter op' g.
Proof.
  intros H. pose proof (H op) as Hop.
  assert (add1 (counter op g) = counter op g + 1)%Z as E by (unfold add1, uint64_bound; rewrite Z.mod_small; lia).
  destruct op; simpl in *; rewrite E; split_and!; try done; by intros [] ?.
Qed.

(** The sequential generator never gives the same identifier of a kind twice, in any
    order of calls, before 2 ^ 64 of them. *)
Theorem sequential_ids_distinct (prefix : string) (ops : list seq_op) :
  (Z.of_nat (length ops) < 2 ^ 64)%Z → NoDup (seq_drawn ops (NewSequential prefix)).
Proof.
  intros Hlen.
  assert (∀ g, (∀ op, 0 ≤ counter op g ∧ counter op g + Z.of_nat (length ops) < 2 ^ 64)%Z →
    NoDup (seq_drawn ops g) ∧ ∀ op id, (op, id) ∈ seq_drawn ops g →
      ∃ n, (counter op g < n)%Z ∧ id = formatSequential (prefix_of op (taskPrefix g)) n) as H.
  2: { apply H. intros []; simpl; lia. }
  clear Hlen. induction ops as [|op ops IH]; intros g Hg; [split; [constructor|by intros ?? ?%not_elem_of_nil]|].
  cbn [length] in Hg. destruct (seq_call_spec op g) as (Hid & Hc & Hp & Ho).
  { intros op'. specialize (Hg op'). lia. }
  cbn [seq_drawn]. destruct (seq_call op g) as [id g'] eqn:E. cbn [fst snd] in *.
  assert (∀ op', (counter op' g ≤ counter op' g')%Z) as Hle
    by (intros op'; destruct (decide (op' = op)) as [->|Hne]; [lia|rewrite Ho by done; lia]).
  destruct (IH g') as [Hnd Hids].
  { intros op'. specialize (Hg op'). destruct (decide (op' = op)) as [->|Hne]; [lia|]. rewrite Ho by done. lia. }
  split.
  - constructor; [|done]. intros (n & Hn & Heq)%Hids. rewrite Hid, Hp in Heq. specialize (Hg op).
    apply formatSequential_inj in Heq; lia.
  - intros op' id' [[= -> ->]|(n & Hn & ->)%Hids]%elem_of_cons.
    + exists (counter op g + 1)%Z. split; [lia|done].
    + exists n. rewrite Hp. split; [|done]. specialize (Hle op'). lia.
Qed.

Lemma sequential_ids_distinct_witness : NoDup (seq_drawn [SeqTask; SeqEvent; SeqTask] (NewSequential "T-")).
Proof. apply sequential_ids_distinct. vm_compute. reflexivity. Defined.
End IdGenSpec.
