(* ===== verification/StorageFacade.v ===== *)
(** * The storage facade (pkg/storage/storage.go)

    A record of the three stores, built only when all are there and closed as a whole.
    Stores are any types that can be closed ([Closer], one method of the interfaces the
    source uses); the in-memory ones are instances. *)

From S2P Require Import Prelude GoString GoError WorkspaceRepo PluginRepo PluginStorage.
From stdpp Require Import options.

(** A store that can be closed: the error, if any, and what becomes of it. *)
Class Closer (T : Type) := close : T → option error * T.

Definition closed_by {T} (f : T → result unit * T) : Closer T :=
  λ s, let '(out, s') := f s in (match out with Ok _ => None | Err e => Some e end, s').

#[export] Instance workspace_repo_closer : Closer WorkspaceRepository.repo := closed_by WorkspaceRepository.Close.
#[export] Instance plugin_repo_closer : Closer PluginRepository.repo := closed_by PluginRepository.Close.
#[export] Instance plugin_storage_closer : Closer PluginStorage.storage := closed_by PluginStorage.Close.

Module StorageFacade.
Section stores.
Context {W P S : Type} `{!Closer W, !Closer P, !Closer S}.

(** A nil store is [None]. *)
Record storageImpl := {
  workspaceRepo : option W;
  pluginRepo : option P;
  pluginStorage : option S;
}.

Definition WorkspaceRepo (s : storageImpl) : option W := workspaceRepo s.
Definition PluginRepo (s : storageImpl) : option P := pluginRepo s.
Definition PluginStorage_ (s : storageImpl) : option S := pluginStorage s.

Definition close_store {T} `{!Closer T} (store : option T) : list error * option T :=
  match store with
  | None => ([], None)
  | Some t => let '(err, t') := close t in (option_list err, Some t')
  end.

Definition Close (s : storageImpl) : option error * storageImpl :=
  let '(e1, w) := close_store (workspaceRepo s) in
  let '(e2, p) := close_store (pluginRepo s) in
  let '(e3, st) := close_store (pluginStorage s) in
  (errors_Join (e1 ++ e2 ++ e3), {| workspaceRepo := w; pluginRepo := p; pluginStorage := st |}).

(** A builder has the same fields; its methods take a nil builder too. *)
Definition Builder := storageImpl.

Definition NewBuilder : option Builder :=
  Some {| workspaceRepo := None; pluginRepo := None; pluginStorage := None |}.

Definition WithWorkspaceRepo (r : option W) (b : option Builder) : option Builder :=
  b ← b; Some {| workspaceRepo := r; pluginRepo := pluginRepo b; pluginStorage := pluginStorage b |}.
Definition WithPluginRepo (r : option P) (b : option Builder) : option Builder :=
  b ← b; Some {| workspaceRepo := workspaceRepo b; pluginRepo := r; pluginStorage := pluginStorage b |}.
Definition WithPluginStorage (s : option S) (b : option Builder) : option Builder :=
  b ← b; Some {| workspaceRepo := workspaceRepo b; pluginRepo := pluginRepo b; pluginStorage := s |}.

Definition Build (b : option Builder) : result storageImpl :=
  match b with
  | None => Err (ENew "storage: nil builder")
  | Some b =>
    match workspaceRepo b, pluginRepo b, pluginStorage b with
    | None, _, _ => Err (ENew "storage: workspace repository is required")
    | _, None, _ => Err (ENew "storage: plugin repository is required")
    | _, _, None => Err (ENew "storage: plugin storage is required")
    | Some w, Some p, Some s =>
      Ok {| workspaceRepo := Some w; pluginRepo := Some p; pluginStorage := Some s |}
    end
  end.

(** ** What a built storage guarantees *)

Lemma elem_of_some {A} (x : A) (m : option A) : x ∈ option_list m ↔ Some x = m.
Proof.
  destruct m; simpl; [rewrite list_elem_of_singleton|rewrite elem_of_nil]; split; try done; [by intros ->|by intros [= ->]].
Qed.

(** Closing reaches all three stores, whatever the others answer, and fails with any
    error exactly when one of them did. *)
Lemma build_close w p s b st :
  Build (WithWorkspaceRepo w (WithPluginRepo p (WithPluginStorage s b))) = Ok st →
  ∃ w0 p0 s0, w = Some w0 ∧ p = Some p0 ∧ s = Some s0 ∧
    (Close st).2 = {| workspaceRepo := Some (close w0).2; pluginRepo := Some (close p0).2;
                      pluginStorage := Some (close s0).2 |} ∧
    ∀ target, (∃ e, (Close st).1 = Some e ∧ errors_Is e target = true) ↔
      ∃ e, (Some e = (close w0).1 ∨ Some e = (close p0).1 ∨ Some e = (close s0).1) ∧ errors_Is e target = true.
Proof.
  destruct b as [b|]; [|done]. destruct w as [w0|], p as [p0|], s as [s0|]; try done. intros [= <-].
  exists w0, p0, s0. do 3 (split; [done|]). unfold Close. simpl.
  destruct (close w0) as [e1 w1], (close p0) as [e2 p1], (close s0) as [e3 s1]. cbn [fst snd].
  split; [done|]. intros target. split.
  - intros (e & Hj & He). rewrite (Is_join _ _ _ Hj), existsb_exists in He. destruct He as (e' & Hin & He).
    exists e'. split; [|done]. apply list_elem_of_In in Hin. rewrite !elem_of_app, !elem_of_some in Hin.
    destruct Hin as [H|[H|H]]; rewrite H; auto.
  - intros (e & Hin & He).
    assert (e ∈ option_list e1 ++ option_list e2 ++ option_list e3) as Hin'.
    { rewrite !elem_of_app, !elem_of_some. destruct Hin as [H|[H|H]]; rewrite <-H; auto. }
    destruct (errors_Join (option_list e1 ++ option_list e2 ++ option_list e3)) as [e0|] eqn:Hj.
    + exists e0. split; [done|]. rewrite (Is_join _ _ _ Hj), existsb_exists. exists e.
      split; [by apply list_elem_of_In|done].
    + unfold errors_Join in Hj. destruct (option_list e1 ++ _); [|done]. by apply not_elem_of_nil in Hin'.
Qed.
End stores.
End StorageFacade.

(** The in-memory stores, built and closed. *)
Example memory_storage :
  let b := StorageFacade.WithWorkspaceRepo (Some WorkspaceRepository.NewWorkspaceRepository)
             (StorageFacade.WithPluginRepo (Some PluginRepository.NewPluginRepository)
               (StorageFacade.WithPluginStorage (Some PluginStorage.NewPluginStorage) StorageFacade.NewBuilder)) in
  (s ← (match StorageFacade.Build b with Ok s => Some s | Err _ => None end); (StorageFacade.Close s).1) = None.
Proof. reflexivity. Qed.
