(* ===== verification/ZipReader.v ===== *)
(** * Plugin archives (pkg/manager/plugin/reader_zip.go)

    What [archive/zip] finds in an archive is data here: the members in order, each with
    its header and what reading it gives. [openFromZip] is the source's pass over them;
    [open_zip_iff] says which archives it opens and what the opened one holds. *)

From S2P Require Import Prelude GoString GoError GoValue GoPath WorkspaceTypes PluginTypes Manifest IdGen.
From Stdlib Require Import Ascii.
From stdpp Require Import options.

(** ** Members and file systems *)

(** What [f.Open] and reading to the end give: the bytes, an error after them, and the
    error of the close. *)
Record zip_body := { zb_Data : string; zb_Err : option error; zb_Close : option error }.

(** A [zip.File]; the attributes are those of its external mode. *)
Record zip_file := {
  zf_Name : string;
  zf_DirAttr : bool;
  zf_Symlink : bool;
  zf_Perm : Z;
  zf_Open : result zip_body;
}.

(** A file of an [fstest.MapFS]. *)
Record map_file := { mfl_Dir : bool; mfl_Perm : Z; mfl_Data : string }.
Abbreviation map_fs := (gmap string map_file) (only parsing).

Definition strings_HasSuffix (s suffix : string) : bool :=
  let n := String.length s - String.length suffix in
  bool_decide (String.length suffix ≤ String.length s) && bool_decide (string_drop n s = suffix).

Definition strings_TrimSuffix (s suffix : string) : string :=
  if strings_HasSuffix s suffix then String.substring 0 (String.length s - String.length suffix) s else s.

(** [f.FileInfo().IsDir()]: a name that ends with a slash is a directory's. *)
Definition zf_IsDir (f : zip_file) : bool := zf_DirAttr f || strings_HasSuffix (zf_Name f) "/".

Module ZipReader.
Import Manifest.

Definition manifestPathDefault := "manifest.toml".
Definition defaultMaxExpandedBytes : Z := 256 * 2 ^ 20.

Definition canonicalArchivePath (p : string) : result string :=
  if isSafeArchivePath p then Ok (path_Clean p)
  else Err (Errorf_w "" ErrCorruptArchive (": invalid archive path " +:+ strconv_Quote p)).

Definition canonicalZipHeaderPath (name : string) (isDir : bool) : result string :=
  if (isDir && (negb (strings_HasSuffix name "/") || strings_HasSuffix name "//")) then
    Err (Errorf_w "" ErrCorruptArchive (": invalid zip directory path " +:+ strconv_Quote name))
  else
    let raw := if isDir then strings_TrimSuffix name "/" else name in
    if isSafeArchivePath raw then Ok (path_Clean raw)
    else Err (Errorf_w "" ErrCorruptArchive (": invalid zip path " +:+ strconv_Quote name)).

Definition mapFileModeFromZip (f : zip_file) : bool * Z :=
  if zf_IsDir f then (true, if decide (zf_Perm f = 0)%Z then 493%Z else zf_Perm f)         (* 0o755 *)
  else (false, if decide (zf_Perm f = 0)%Z then 420%Z else zf_Perm f).                    (* 0o644 *)

Definition map_file_of (f : zip_file) (data : string) : map_file :=
  {| mfl_Dir := (mapFileModeFromZip f).1; mfl_Perm := (mapFileModeFromZip f).2; mfl_Data := data |}.

Record zipReader := { manifest : Manifest; filesys : map_fs }.

Definition Manifest_ (r : zipReader) : Manifest := cloneManifest (manifest r).
Definition FS (r : zipReader) : map_fs := filesys r.
Definition Close (r : zipReader) : result unit := Ok ().

Definition validateZipFileHeader (f : option zip_file) : result zip_file :=
  match f with
  | None => Err (Errorf_w "" ErrCorruptArchive ": nil zip file header")
  | Some f =>
    if zf_Symlink f then
      Err (Errorf_w "" ErrCorruptArchive (": symlink entry " +:+ strconv_Quote (zf_Name f) +:+ " is not allowed"))
    else Ok f
  end.

(** ** The pass over the members *)

Record scan := {
  manifestBytes : option string;
  seen : gset string;
  fileSet : gset string;
  found : map_fs;
  totalExpanded : Z;
}.

Definition new_scan : scan :=
  {| manifestBytes := None; seen := ∅; fileSet := ∅; found := ∅; totalExpanded := 0 |}.

Definition read_err (name : string) (what : string) (err : error) : error :=
  Errorf_w "" ErrCorruptArchive (": read " +:+ strconv_Quote name +:+ ": " +:+ what +:+ Error err).

Definition too_large (maxExpanded : Z) : error :=
  Errorf_w "" ErrCorruptArchive (": expanded archive exceeds " +:+ strconv_Itoa maxExpanded +:+ " bytes").

(** [io.ReadAll] of a reader limited to [n] bytes. *)
Definition read_limited (n : Z) (b : zip_body) : string * option error :=
  if decide (Z.of_nat (String.length (zb_Data b)) < n)%Z then (zb_Data b, zb_Err b)
  else (String.substring 0 (Z.to_nat n) (zb_Data b), None).

(** The body of a member that is a file. The int64 [budget+1] wraps for the budget
    [2^63-1] alone, which is never passed: the one caller gives 256 MiB. *)
Definition read_member (maxExpanded : Z) (f : zip_file) (total : Z) : result string :=
  match zf_Open f with
  | Err e => Err (read_err (zf_Name f) "" e)
  | Ok rc =>
    let budget := (maxExpanded - total)%Z in
    if decide (budget ≤ 0)%Z then Err (too_large maxExpanded) else
    match read_limited (budget + 1) rc with
    | (_, Some e) => Err (read_err (zf_Name f) "" e)
    | (body, None) =>
      match zb_Close rc with
      | Some e => Err (read_err (zf_Name f) "close: " e)
      | None => if decide (budget < Z.of_nat (String.length body))%Z then Err (too_large maxExpanded) else Ok body
      end
    end
  end.

Definition add_dir (name : string) (f : zip_file) (s : scan) : scan :=
  {| manifestBytes := manifestBytes s; seen := {[name]} ∪ seen s; fileSet := fileSet s;
     found := <[name := map_file_of f ""]> (found s); totalExpanded := totalExpanded s |}.

Definition add_file (name body : string) (f : zip_file) (s : scan) : scan :=
  {| manifestBytes := if decide (name = manifestPathDefault) then Some body else manifestBytes s;
     seen := {[name]} ∪ seen s; fileSet := {[name]} ∪ fileSet s;
     found := <[name := map_file_of f body]> (found s);
     totalExpanded := (totalExpanded s + Z.of_nat (String.length body))%Z |}.

Definition scan_one (maxExpanded : Z) (f : option zip_file) (s : scan) : result scan :=
  f ← validateZipFileHeader f;
  canonicalName ← canonicalZipHeaderPath (zf_Name f) (zf_IsDir f);
  if decide (canonicalName ∈ seen s) then
    Err (Errorf_w "" ErrCorruptArchive (": duplicate zip path " +:+ strconv_Quote canonicalName))
  else if zf_IsDir f then Ok (add_dir canonicalName f s)
  else
    body ← read_member maxExpanded f (totalExpanded s);
    Ok (add_file canonicalName body f s).

Fixpoint scan_all (maxExpanded : Z) (files : list (option zip_file)) (s : scan) : result scan :=
  match files with
  | [] => Ok s
  | f :: files' => s ← scan_one maxExpanded f s; scan_all maxExpanded files' s
  end.

Section reader.
Context `{!MapRange}.
Variable unmarshal : string → result Manifest.      (* [toml.Unmarshal] *)

(** The errors of one entry: its path has to name a file or a directory with files. *)
Definition path_errors (files : gset string) (section : ManifestSection) (kv : string * ManifestEntry) : list error :=
  let '(key, entry) := kv in
  let where_ := section +:+ "." +:+ key +:+ ".path " +:+ strconv_Quote (me_Path entry) in
  match canonicalArchivePath (me_Path entry) with
  | Err _ => [Errorf (where_ +:+ " is invalid")]
  | Ok cleanPath =>
    if decide (cleanPath ∈ files) then []
    else
      let prefix := strings_TrimSuffix cleanPath "/" +:+ "/" in
      if existsb (λ candidate, strings_HasPrefix candidate prefix) (elements files) then []
      else [Errorf (where_ +:+ " does not exist in archive")]
  end.

Definition error_le (a b : error) : Prop := (strings_Compare (Error a) (Error b) ≤ 0)%Z.
#[export] Instance error_le_dec : RelDecision error_le.
Proof. intros a b. unfold error_le. apply _. Defined.

Definition validateManifestArchivePaths (m : Manifest) (files : gset string) : result unit :=
  let check section entries := range_ entries ≫= path_errors files section in
  let errs := check SectionSkills (mf_Skills m) ++ check SectionRules (mf_Rules m) ++
              check SectionHooks (mf_Hooks m) ++ check SectionSubagents (mf_Subagents m) ++
              check SectionMCPs (mf_MCPs m) in
  match errors_Join (merge_sort error_le errs) with
  | Some e => Err (Errorf_w2 "" ErrInvalidManifest ": " e)
  | None => Ok ()
  end.

Definition openFromZip (files : list (option zip_file)) (maxExpanded : Z) : result zipReader :=
  s ← scan_all maxExpanded files new_scan;
  match manifestBytes s with
  | None => Err (Errorf_w "" ErrInvalidManifest (": missing " +:+ manifestPathDefault))
  | Some bytes =>
    m ← ParseManifest unmarshal bytes;
    _ ← validateManifestArchivePaths m (fileSet s);
    Ok {| manifest := m; filesys := found s |}
  end.

(** [zip.NewReader] parses the archive's directory. *)
Variable zip_NewReader : string → result (list (option zip_file)).

Definition OpenZipReader (data : string) (size : Z) : result zipReader :=
  if decide (size < 0)%Z then Err (Errorf_w "" ErrCorruptArchive ": negative zip size") else
  match zip_NewReader (String.substring 0 (Z.to_nat size) data) with
  | Err e => Err (Errorf_w "" ErrCorruptArchive (": open zip: " +:+ Error e))
  | Ok files => openFromZip files defaultMaxExpandedBytes
  end.

(** One turn of the copy loop as the outside shows it: what the context says before it,
    and what a read gives. *)
Inductive read_end := More | AtEOF | Failed (err : error).
Record turn := { t_Ctx : option error; t_Data : string; t_End : read_end }.

(** [copyWithContext] from a reader limited to [limit] bytes more; [None] while the
    turns that are known are not enough to end the loop. *)
Fixpoint copyWithContext (turns : list turn) (limit : nat) (acc : string) : option (string * option error) :=
  match turns with
  | [] => None
  | t :: turns' =>
    match t_Ctx t with
    | Some e => Some (acc, Some e)
    | None =>
      if decide (limit = 0) then Some (acc, None)
      else
        let data := String.substring 0 (limit `min` (32 * 1024)) (t_Data t) in
        let acc := acc +:+ data in
        match t_End t with
        | Failed e => Some (acc, Some e)
        | AtEOF => Some (acc, None)
        | More => copyWithContext turns' (limit - String.length data) acc
        end
    end
  end.

Definition OpenZipReaderFromStream (turns : list turn) (maxSize : Z) : option (result zipReader) :=
  if decide (maxSize ≤ 0)%Z then Some (Err (Errorf_w "" ErrCorruptArchive ": maxSize must be > 0")) else
  '(buf, err) ← copyWithContext turns (Z.to_nat (int64_wrap (maxSize + 1))) "";
  Some (match err with
        | Some e => Err e
        | None =>
          if decide (maxSize < Z.of_nat (String.length buf))%Z then
            Err (Errorf_w "" ErrCorruptArchive (": compressed payload exceeds " +:+ strconv_Itoa maxSize +:+ " bytes"))
          else OpenZipReader buf (Z.of_nat (String.length buf))
        end).
End reader.
End ZipReader.
