(* ===== verification/ZipSpec.v ===== *)
(** * Which plugin archives are opened

    [open_zip_iff]: an archive is opened exactly when all of its members are acceptable,
    no two have the same name, together they stay within the size limit, and there is a
    manifest whose paths are among them; the opened reader holds exactly the members. *)

From S2P Require Import Prelude GoString GoError GoValue GoPath WorkspaceTypes PluginTypes Manifest ZipReader.
From Stdlib Require Import Ascii.
From stdpp Require Import options.
Set Default Proof Using "Type*".

Module ZipSpec.
Import Manifest ManifestSpec ZipReader.

(** ** Suffixes *)

Lemma string_drop_length p s : string_drop (String.length p) (p +:+ s) = s.
Proof. induction p as [|c p IH]; [by destruct s|]. rewrite append_cons. exact IH. Qed.

Lemma string_drop_split n s : n ≤ String.length s → ∃ p, s = p +:+ string_drop n s ∧ String.length p = n.
Proof.
  revert s. induction n as [|n IH]; intros s Hn; [exists ""; split; [by destruct s|done]|].
  destruct s as [|c s]; simpl in Hn; [lia|]. destruct (IH s) as (p & E & Hl); [lia|].
  exists (String c p). rewrite append_cons. simpl. rewrite <-E. by rewrite Hl.
Qed.

Lemma HasSuffix_iff s t : strings_HasSuffix s t = true ↔ ∃ p, s = p +:+ t.
Proof.
  unfold strings_HasSuffix. rewrite andb_true_iff, !bool_decide_eq_true. split.
  - intros [Hl Hd]. destruct (string_drop_split (String.length s - String.length t) s) as (p & E & _); [lia|].
    exists p. by rewrite Hd in E.
  - intros [p ->]. rewrite append_length. split; [lia|].
    replace (String.length p + String.length t - String.length t) with (String.length p) by lia.
    apply string_drop_length.
Qed.

Lemma substring_prefix p s : String.substring 0 (String.length p) (p +:+ s) = p.
Proof. induction p as [|c p IH]; [by destruct s|]. rewrite append_cons. simpl. by rewrite IH. Qed.

Lemma TrimSuffix_app p t : strings_TrimSuffix (p +:+ t) t = p.
Proof.
  unfold strings_TrimSuffix. rewrite (proj2 (HasSuffix_iff _ _)) by eauto. rewrite append_length.
  replace (String.length p + String.length t - String.length t) with (String.length p) by lia.
  apply substring_prefix.
Qed.

(** ** Names *)

Lemma safe_no_trailing p : safe_path p → strings_HasSuffix p "/" = false.
Proof.
  intros (_ & _ & Hs). apply not_true_iff_false. intros [q ->]%HasSuffix_iff.
  change (q +:+ "/") with (q +:+ String slash "") in Hs. rewrite strings_Split_app in Hs.
  apply Forall_app in Hs as [_ [[? _] _]%Forall_cons]. done.
Qed.

Lemma safe_TrimSuffix p : safe_path p → strings_TrimSuffix p "/" = p.
Proof. intros Hs. unfold strings_TrimSuffix. by rewrite safe_no_trailing. Qed.

(** The name a member has in the file system. *)
Definition cname (f : zip_file) : string :=
  if zf_IsDir f then strings_TrimSuffix (zf_Name f) "/" else zf_Name f.

Definition name_ok (f : zip_file) : Prop :=
  safe_path (cname f) ∧ zf_Name f = cname f +:+ (if zf_IsDir f then "/" else "").

Lemma canonical_iff f n :
  canonicalZipHeaderPath (zf_Name f) (zf_IsDir f) = Ok n ↔ name_ok f ∧ n = cname f.
Proof.
  unfold canonicalZipHeaderPath, name_ok, cname. destruct (zf_IsDir f); simpl.
  - destruct (strings_HasSuffix (zf_Name f) "/") eqn:H1; simpl.
    + apply HasSuffix_iff in H1 as [p E]. rewrite E, TrimSuffix_app.
      destruct (strings_HasSuffix (p +:+ "/") "//") eqn:H2.
      * split; [done|]. intros [[Hs _] _]. apply HasSuffix_iff in H2 as [q Eq].
        assert (p = q +:+ "/") as ->.
        { change "//" with ("/" +:+ "/") in Eq. rewrite <-append_assoc in Eq.
          by rewrite <-(TrimSuffix_app p "/"), Eq, TrimSuffix_app. }
        apply safe_no_trailing in Hs. by rewrite (proj2 (HasSuffix_iff (q +:+ "/") "/")) in Hs by eauto.
      * destruct (isSafeArchivePath p) eqn:Hs.
        -- apply isSafe_iff in Hs. rewrite safe_clean by done. split; [by intros [= <-]|by intros [_ ->]].
        -- split; [done|]. intros [[Hs' _] _]. apply isSafe_iff in Hs'. congruence.
    + split; [done|]. intros [[_ E] _]. apply not_true_iff_false in H1. destruct H1. apply HasSuffix_iff. eauto.
  - rewrite append_nil_r. destruct (isSafeArchivePath (zf_Name f)) eqn:Hs.
    + apply isSafe_iff in Hs. rewrite safe_clean by done. split; [by intros [= <-]|by intros [_ ->]].
    + split; [done|]. intros [[Hs' _] _]. apply isSafe_iff in Hs'. congruence.
Qed.

(** ** Members *)

Definition contents (f : zip_file) : string :=
  match zf_Open f with Ok b => zb_Data b | Err _ => "" end.

Definition size (f : zip_file) : Z :=
  if zf_IsDir f then 0 else Z.of_nat (String.length (contents f)).

(** Not a link, named safely, and read to its end without an error. *)
Definition member_ok (f : zip_file) : Prop :=
  zf_Symlink f = false ∧ name_ok f ∧
  (zf_IsDir f = false → ∃ b, zf_Open f = Ok b ∧ zb_Err b = None ∧ zb_Close b = None).

(** Every file starts before the limit and ends within it. *)
Fixpoint fits (maxExpanded total : Z) (fs : list zip_file) : Prop :=
  match fs with
  | [] => True
  | f :: fs' => (zf_IsDir f = false → total < maxExpanded ∧ total + size f ≤ maxExpanded)%Z ∧
                fits maxExpanded (total + size f) fs'
  end.

Definition add (s : scan) (f : zip_file) : scan :=
  if zf_IsDir f then add_dir (cname f) f s else add_file (cname f) (contents f) f s.

Lemma read_member_iff maxExpanded f total body :
  zf_IsDir f = false →
  read_member maxExpanded f total = Ok body ↔
  body = contents f ∧ (∃ b, zf_Open f = Ok b ∧ zb_Err b = None ∧ zb_Close b = None) ∧
  (total < maxExpanded ∧ total + size f ≤ maxExpanded)%Z.
Proof.
  intros Hd. unfold read_member, contents, size, contents. rewrite Hd. destruct (zf_Open f) as [b|e]; [|split; [done|]].
  2: { by intros (_ & (b & ? & _) & _). }
  case_decide as Hb; [split; [done|]; intros (_ & _ & ? & _); lia|].
  unfold read_limited. case_decide as Hlen.
  - destruct (zb_Err b) eqn:He; [split; [done|]; intros (_ & (b' & [= <-] & ? & _) & _); congruence|].
    destruct (zb_Close b) eqn:Hc; [split; [done|]; intros (_ & (b' & [= <-] & _ & ?) & _); congruence|].
    rewrite decide_False by lia. split; [|by intros [-> _]].
    intros [= <-]. split; [done|]. split; [by exists b|]. lia.
  - assert (String.length (String.substring 0 (Z.to_nat (maxExpanded - total + 1)) (zb_Data b)) =
      Z.to_nat (maxExpanded - total + 1)) as Hs by (apply substring_length; lia).
    destruct (zb_Close b); [split; [done|]; intros (_ & _ & _ & ?); lia|].
    rewrite decide_True by (rewrite Hs; lia). split; [done|]. intros (_ & _ & _ & ?); lia.
Qed.

Lemma scan_one_iff maxExpanded fo s s' :
  scan_one maxExpanded fo s = Ok s' ↔
  ∃ f, fo = Some f ∧ member_ok f ∧ (cname f ∉ seen s) ∧
    (zf_IsDir f = false → totalExpanded s < maxExpanded ∧ totalExpanded s + size f ≤ maxExpanded)%Z ∧
    s' = add s f.
Proof.
  unfold scan_one, member_ok, add. destruct fo as [f|]; [|split; [done|by intros (f & ? & _)]]. simpl.
  destruct (zf_Symlink f) eqn:Hl; [split; [done|by intros (f' & [= <-] & (? & _) & _); congruence]|]. simpl.
  destruct (canonicalZipHeaderPath (zf_Name f) (zf_IsDir f)) as [n|e] eqn:Hn.
  2: { split; [done|]. intros (f' & [= <-] & (_ & Hok & _) & _).
       assert (canonicalZipHeaderPath (zf_Name f) (zf_IsDir f) = Ok (cname f)) as H by (by apply canonical_iff).
       congruence. }
  apply canonical_iff in Hn as [Hok ->]. simpl.
  case_decide as Hseen; [split; [done|by intros (f' & [= <-] & _ & ? & _)]|].
  destruct (zf_IsDir f) eqn:Hd.
  - split; [intros [= <-]; exists f; rewrite Hd; by split_and!|]. intros (f' & [= <-] & _ & _ & _ & ->).
    by rewrite Hd.
  - destruct (read_member maxExpanded f (totalExpanded s)) as [body|e] eqn:Hr; simpl.
    + apply read_member_iff in Hr as (-> & Hopen & Hfit); [|done].
      split; [intros [= <-]; exists f; rewrite Hd; by split_and!|]. intros (f' & [= <-] & _ & _ & _ & ->).
      by rewrite Hd.
    + split; [done|]. intros (f' & [= <-] & (_ & _ & Hopen) & _ & Hfit & _).
      assert (read_member maxExpanded f (totalExpanded s) = Ok (contents f)) as H
        by (apply read_member_iff; auto).
      congruence.
Qed.

Lemma seen_add s f : seen (add s f) = {[cname f]} ∪ seen s.
Proof. unfold add. by destruct (zf_IsDir f). Qed.

Lemma total_add s f : totalExpanded (add s f) = (totalExpanded s + size f)%Z.
Proof. unfold add, size. destruct (zf_IsDir f); simpl; [lia|done]. Qed.

Lemma scan_all_iff maxExpanded files s s' :
  scan_all maxExpanded files s = Ok s' ↔
  ∃ fs, files = Some <$> fs ∧ Forall member_ok fs ∧ NoDup (cname <$> fs) ∧
    (∀ f, f ∈ fs → cname f ∉ seen s) ∧ fits maxExpanded (totalExpanded s) fs ∧ s' = foldl add s fs.
Proof.
  revert s. induction files as [|fo files IH]; intros s; simpl.
  { split.
    - intros [= ->]. exists []. split_and!; try done; [constructor|]. by intros f ?%not_elem_of_nil.
    - intros ([|f fs] & E & _ & _ & _ & _ & ->); done. }
  destruct (scan_one maxExpanded fo s) as [s1|e] eqn:E1; simpl.
  - apply scan_one_iff in E1 as (f & -> & Hok & Hseen & Hfit & ->). rewrite IH, seen_add, total_add. split.
    + intros (fs & -> & Hall & Hnd & Hfresh & Hfits & ->). exists (f :: fs). split_and!; try done.
      * by constructor.
      * apply NoDup_cons. split; [|done]. intros (g & Hg & Hin)%list_elem_of_fmap.
        destruct (Hfresh g Hin). rewrite Hg. by apply elem_of_union_l, elem_of_singleton.
      * intros g [->|Hin]%elem_of_cons; [done|]. intros Hs. destruct (Hfresh g Hin). by apply elem_of_union_r.
    + intros ([|g fs] & E & Hall & Hnd & Hfresh & Hfits & ->); [done|]. injection E as <- ->.
      apply Forall_cons in Hall as [_ Hall]. apply NoDup_cons in Hnd as [Hn Hnd]. destruct Hfits as [_ Hfits].
      exists fs. split_and!; try done. intros g Hin [Hg%elem_of_singleton|Hg]%elem_of_union.
      * apply Hn. rewrite <-Hg. by apply list_elem_of_fmap_2.
      * apply (Hfresh g); [by right|done].
  - split; [done|]. intros ([|f fs] & E & Hall & Hnd & Hfresh & Hfits & ->); [done|]. injection E as -> ->.
    apply Forall_cons in Hall as [Hok _]. destruct Hfits as [Hfit _].
    assert (scan_one maxExpanded (Some f) s = Ok (add s f)) as H.
    { apply scan_one_iff. exists f. split_and!; try done. apply Hfresh. by left. }
    congruence.
Qed.

(** ** What the pass leaves *)

Definition stored (f : zip_file) : string * map_file :=
  (cname f, map_file_of f (if zf_IsDir f then "" else contents f)).

Definition archive_fs (fs : list zip_file) : gmap string map_file := list_to_map (stored <$> fs).

Lemma found_add s f : found (add s f) = <[cname f := (stored f).2]> (found s).
Proof. unfold add, stored. by destruct (zf_IsDir f). Qed.

Lemma found_scan s fs : NoDup (cname <$> fs) → found (foldl add s fs) = archive_fs fs ∪ found s.
Proof.
  revert s. induction fs as [|f fs IH]; intros s Hnd.
  { unfold archive_fs. simpl. by rewrite (left_id_L ∅ _). }
  apply NoDup_cons in Hnd as [Hn Hnd]. cbn [foldl]. rewrite IH, found_add by done.
  unfold archive_fs. simpl. rewrite <-insert_union_l, insert_union_r; [done|].
  apply not_elem_of_list_to_map_1. rewrite <-list_fmap_compose. exact Hn.
Qed.

Lemma fileSet_scan s fs n :
  n ∈ fileSet (foldl add s fs) ↔ n ∈ fileSet s ∨ ∃ f, f ∈ fs ∧ zf_IsDir f = false ∧ cname f = n.
Proof.
  revert s. induction fs as [|f fs IH]; intros s; simpl.
  { split; [by left|]. intros [?|(f & ?%not_elem_of_nil & _)]; done. }
  rewrite IH. unfold add. destruct (zf_IsDir f) eqn:Hd; simpl.
  - split; (intros [?|(g & Hg & ? & ?)]; [by left|right; exists g]).
    + split; [by right|done].
    + apply elem_of_cons in Hg as [->|Hg]; [congruence|done].
  - rewrite elem_of_union, elem_of_singleton. split.
    + intros [[->|?]|(g & Hg & ? & ?)]; [right; exists f; split; [by left|done]|by left|].
      right. exists g. split; [by right|done].
    + intros [?|(g & Hg & ? & ?)]; [left; by right|].
      apply elem_of_cons in Hg as [->|Hg]; [left; by left|right; by exists g].
Qed.

Definition is_manifest (f : zip_file) : Prop := zf_IsDir f = false ∧ cname f = manifestPathDefault.

Lemma manifest_kept s fs :
  manifestPathDefault ∉ cname <$> fs → manifestBytes (foldl add s fs) = manifestBytes s.
Proof.
  revert s. induction fs as [|f fs IH]; intros s Hn; [done|]. simpl in *. apply not_elem_of_cons in Hn as [Hn Hf].
  rewrite IH by done. unfold add. destruct (zf_IsDir f); simpl; [done|]. by rewrite decide_False.
Qed.

Lemma manifest_scan s fs data :
  NoDup (cname <$> fs) → manifestBytes s = None →
  manifestBytes (foldl add s fs) = Some data ↔ ∃ f, f ∈ fs ∧ is_manifest f ∧ data = contents f.
Proof.
  revert s. induction fs as [|f fs IH]; intros s Hnd Hs; simpl.
  { rewrite Hs. split; [done|]. by intros (f & ?%not_elem_of_nil & _). }
  apply NoDup_cons in Hnd as [Hn Hnd]. unfold is_manifest in *. unfold add at 2. destruct (zf_IsDir f) eqn:Hd.
  - rewrite IH by done. split; intros (g & Hg & Hm & ->); exists g; (split; [|done]); [by right|].
    apply elem_of_cons in Hg as [->|?]; [destruct Hm; congruence|done].
  - destruct (decide (cname f = manifestPathDefault)) as [Hc|Hc].
    + rewrite manifest_kept by (by rewrite <-Hc). simpl. rewrite decide_True by done. split.
      * intros [= <-]. exists f. split; [by left|done].
      * intros (g & Hg & [_ Hm] & ->). apply elem_of_cons in Hg as [->|Hg]; [done|].
        destruct Hn. rewrite Hc, <-Hm. by apply list_elem_of_fmap_2.
    + rewrite IH; [|done|simpl; by rewrite decide_False].
      split; intros (g & Hg & Hm & ->); exists g; (split; [|done]); [by right|].
      apply elem_of_cons in Hg as [->|?]; [by destruct Hm|done].
Qed.

(** ** The paths of a manifest *)

Definition sections (m : Manifest) : list (gomap ManifestEntry) :=
  [mf_Skills m; mf_Rules m; mf_Hooks m; mf_Subagents m; mf_MCPs m].

(** The path is a file of the archive or a directory above one. *)
Definition path_exists (fs : list zip_file) (p : string) : Prop :=
  safe_path p ∧ ∃ f, f ∈ fs ∧ zf_IsDir f = false ∧ (cname f = p ∨ ∃ rest, cname f = p +:+ "/" +:+ rest).

Definition paths_exist (m : Manifest) (fs : list zip_file) : Prop :=
  Forall (λ entries, ∀ k e, gm_get entries k = Some e → path_exists fs (me_Path e)) (sections m).

Section opening.
Context `{!MapRange}.
Variable unmarshal : string → result Manifest.

Lemma path_errors_nil fs files section k e :
  (∀ n, n ∈ files ↔ ∃ f, f ∈ fs ∧ zf_IsDir f = false ∧ cname f = n) →
  path_errors files section (k, e) = [] ↔ path_exists fs (me_Path e).
Proof.
  intros Hfiles. unfold path_errors, canonicalArchivePath, path_exists.
  destruct (isSafeArchivePath (me_Path e)) eqn:Hs; [apply isSafe_iff in Hs|].
  2: { split; [done|]. intros [Hs' _]. apply isSafe_iff in Hs'. congruence. }
  rewrite safe_clean by done. case_decide as Hin.
  - split; [intros _|done]. apply Hfiles in Hin as (f & ? & ? & ?). eauto 6.
  - rewrite safe_TrimSuffix by done. destruct (existsb _ _) eqn:Hex.
    + split; [intros _|done]. split; [done|]. apply existsb_exists in Hex as (n & Hn & Hp).
      apply list_elem_of_In, elem_of_elements, Hfiles in Hn as (f & ? & ? & <-).
      unfold strings_HasPrefix in Hp. apply prefix_spec in Hp as [rest Hrest].
      exists f. split_and!; try done. right. exists rest. by rewrite <-append_assoc.
    + split; [done|]. intros [_ (f & Hf & Hd & [Hc|[rest Hc]])].
      * destruct Hin. apply Hfiles. eauto.
      * apply not_true_iff_false in Hex. destruct Hex. apply existsb_exists. exists (cname f).
        split; [apply list_elem_of_In, elem_of_elements, Hfiles; eauto|].
        unfold strings_HasPrefix. apply prefix_spec. exists rest. by rewrite Hc, <-append_assoc.
Qed.

Lemma check_nil fs files section entries :
  (∀ n, n ∈ files ↔ ∃ f, f ∈ fs ∧ zf_IsDir f = false ∧ cname f = n) →
  range_ entries ≫= path_errors files section = [] ↔
  ∀ k e, gm_get entries k = Some e → path_exists fs (me_Path e).
Proof.
  intros Hfiles. split.
  - intros Hnil k e Hke. apply (path_errors_nil fs files section k e Hfiles), elem_of_nil_inv.
    intros x Hx. apply (not_elem_of_nil (A := error) x). rewrite <-Hnil. apply elem_of_range in Hke.
    apply list_elem_of_bind. eauto.
  - intros Hok. apply elem_of_nil_inv. intros x ([k e] & Hx & Hkv)%list_elem_of_bind.
    apply elem_of_range, Hok, (path_errors_nil fs files section k e Hfiles) in Hkv.
    rewrite Hkv in Hx. by apply not_elem_of_nil in Hx.
Qed.

Lemma validate_paths_iff m fs files :
  (∀ n, n ∈ files ↔ ∃ f, f ∈ fs ∧ zf_IsDir f = false ∧ cname f = n) →
  validateManifestArchivePaths m files = Ok () ↔ paths_exist m fs.
Proof.
  intros Hfiles. unfold validateManifestArchivePaths, paths_exist, sections. cbv zeta.
  set (errs := _ ++ _).
  assert (errs = [] ↔ Forall (λ entries, ∀ k e, gm_get entries k = Some e → path_exists fs (me_Path e))
    [mf_Skills m; mf_Rules m; mf_Hooks m; mf_Subagents m; mf_MCPs m]) as <-.
  { unfold errs. rewrite !app_nil, !(check_nil fs files) by done. rewrite !Forall_cons, Forall_nil. tauto. }
  pose proof (merge_sort_Permutation error_le errs) as Hperm. split.
  - destruct (merge_sort error_le errs) as [|e l]; [|done]. intros _. by apply Permutation_nil_l in Hperm.
  - intros ->. by apply Permutation_nil_r in Hperm as ->.
Qed.

Lemma opened_iff (files : list (option zip_file)) (maxExpanded : Z) (r : zipReader) :
  openFromZip unmarshal files maxExpanded = Ok r ↔
  ∃ fs f m, files = Some <$> fs ∧ Forall member_ok fs ∧ NoDup (cname <$> fs) ∧ fits maxExpanded 0 fs ∧
    f ∈ fs ∧ is_manifest f ∧ ParseManifest unmarshal (contents f) = Ok m ∧ paths_exist m fs ∧
    r = {| manifest := m; filesys := archive_fs fs |}.
Proof.
  unfold openFromZip. destruct (scan_all maxExpanded files new_scan) as [s|e] eqn:Hs; simpl.
  - apply scan_all_iff in Hs as (fs & -> & Hall & Hnd & _ & Hfits & ->).
    assert (∀ n, n ∈ fileSet (foldl add new_scan fs) ↔ ∃ f, f ∈ fs ∧ zf_IsDir f = false ∧ cname f = n) as Hfiles.
    { intros n. rewrite fileSet_scan. split; [by intros [?%not_elem_of_empty|?]|by right]. }
    assert (found (foldl add new_scan fs) = archive_fs fs) as Hfound.
    { rewrite found_scan by done. apply (right_id_L ∅ _). }
    rewrite Hfound. clear Hfound.
    assert (∀ gs : list zip_file, @Some zip_file <$> fs = Some <$> gs → gs = fs) as Hinj.
    { intros gs E. symmetry. by apply (inj (fmap Some)) in E. }
    destruct (manifestBytes (foldl add new_scan fs)) as [data|] eqn:Hm.
    + apply manifest_scan in Hm as (f & Hf & Hman & ->); [|done..]. split.
      * destruct (ParseManifest unmarshal (contents f)) as [m|e] eqn:Hp; simpl; [|done].
        destruct (validateManifestArchivePaths m _) as [u|e] eqn:Hv; simpl; [|done]. intros [= <-].
        destruct u. apply (validate_paths_iff m fs) in Hv; [|done]. by exists fs, f, m.
      * intros (gs & g & m & E & _ & _ & _ & Hg & Hgm & Hp & Hpaths & ->). apply Hinj in E as ->.
        assert (g = f) as ->.
        { apply list_elem_of_lookup in Hf as [i Hi]. apply list_elem_of_lookup in Hg as [j Hj].
          destruct (NoDup_lookup (cname <$> fs) i j manifestPathDefault) as []; [done|..].
          - rewrite list_lookup_fmap, Hi. simpl. f_equal. apply Hman.
          - rewrite list_lookup_fmap, Hj. simpl. f_equal. apply Hgm.
          - congruence. }
        rewrite Hp. simpl. apply (validate_paths_iff m fs _ Hfiles) in Hpaths. by rewrite Hpaths.
    + split; [done|]. intros (gs & g & m & E & _ & _ & _ & Hg & Hgm & _). apply Hinj in E as ->.
      assert (manifestBytes (foldl add new_scan fs) = Some (contents g)) as Hgot
        by (apply manifest_scan; [done..|]; by exists g).
      congruence.
  - split; [done|]. intros (fs & g & m & -> & Hall & Hnd & Hfits & _). exfalso.
    assert (scan_all maxExpanded (Some <$> fs) new_scan = Ok (foldl add new_scan fs)) as Hgot.
    { apply scan_all_iff. exists fs. by split_and!. }
    congruence.
Qed.

(** The files of an opened archive have safe names. *)
Lemma opened_safe files maxExpanded r p f :
  openFromZip unmarshal files maxExpanded = Ok r → filesys r !! p = Some f → safe_path p.
Proof.
  intros (fs & g & m & _ & Hall & _ & _ & _ & _ & _ & _ & ->)%opened_iff Hp. simpl in Hp.
  apply elem_of_list_to_map_2, list_elem_of_fmap in Hp as (h & [= -> _] & Hh).
  rewrite Forall_forall in Hall. by destruct (Hall h Hh) as (_ & [? _] & _).
Qed.

(** C15. An archive is opened exactly when every member is a file or a directory with a
    safe relative name, never a link, and every file can be read to its end; no two
    members have the same name; each file starts before the size limit and the files
    stay within it; and one of them is a manifest that parses, is valid, and whose paths
    are files of the archive or directories with files. What is opened holds that
    manifest and exactly the members, under their own names. *)
Theorem open_zip_iff (files : list (option zip_file)) (maxExpanded : Z) (r : zipReader) :
  openFromZip unmarshal files maxExpanded = Ok r ↔
  ∃ fs f m, files = Some <$> fs ∧ Forall member_ok fs ∧ NoDup (cname <$> fs) ∧ fits maxExpanded 0 fs ∧
    f ∈ fs ∧ is_manifest f ∧ ParseManifest unmarshal (contents f) = Ok m ∧ paths_exist m fs ∧
    r = {| manifest := m; filesys := archive_fs fs |}.
Proof. apply opened_iff. Qed.
End opening.

(** *** An archive, opened and refused *)

Definition plain_file (name data : string) : zip_file :=
  {| zf_Name := name; zf_DirAttr := false; zf_Symlink := false; zf_Perm := 420;
     zf_Open := Ok {| zb_Data := data; zb_Err := None; zb_Close := None |} |}.

Definition sample_unmarshal (data : string) : result Manifest :=
  if decide (data = "[plugin]") then Ok (sample_manifest "skills/commit.md" None) else Err EOF.

Example open_ex1 :
  let opened := openFromZip (H := canonical_range) sample_unmarshal
    (Some <$> [plain_file "skills/commit.md" "# x"; plain_file "manifest.toml" "[plugin]"]) 12 in
  is_ok opened = true.
Proof. vm_compute. reflexivity. Qed.

(** An empty file after the limit is reached is refused, though nothing exceeds it. *)
Example open_ex2 :
  openFromZip (H := canonical_range) sample_unmarshal
    (Some <$> [plain_file "skills/commit.md" "# x"; plain_file "manifest.toml" "[plugin]"; plain_file "e" ""]) 11 =
  Err (too_large 11).
Proof. vm_compute. reflexivity. Qed.
End ZipSpec.
