(* ===== verification/ClaudeLayout.v ===== *)
(** * Where Claude Code plugins go (pkg/manager/agent/claudecode/layout.go)

    The layout turns a plugin's name into a directory, plans one write for each file of
    the plugin and performs the plan through the InfraOps interface. A file system is
    what [fs.WalkDir] reports of it ([walk_step]); [walk_map] is that walk over the
    [fstest.MapFS] an archive reader holds. *)

From S2P Require Import Prelude GoString GoError GoValue GoPath GoFilepath Sha256 WorkspaceTypes PluginTypes.
From S2P Require Import Proc WorkspaceWorld ZipReader LocalDir LocalDirOps.
From Stdlib Require Import Ascii.
From stdpp Require Import options.

(** ** The interface to the infrastructure *)

(** Content handed to [PutFile]: an open file of the plugin, or bytes. *)
Inductive content := FromFile (f : nat) | FromBytes (s : string).

Inductive icall : Type → Type :=
| IGetFile (c : ctx) (path : string) : icall (result nat)
| IPutFile (c : ctx) (path : string) (what : content) (mode : Z) : icall (result unit)
| IExec (c : ctx) (cmd : LocalDirOps.ExecCommand) : icall (result LocalDirOps.ExecResult)
| ICloseReader (rc : nat) : icall (result unit)
(** the plugin's file system *)
| FSOpen (path : string) : icall (result nat)
| FSClose (f : nat) : icall (result unit)
| INow : icall Time.

Abbreviation iproc := (proc icall).
Abbreviation ievent := (event icall).

(** What [fs.WalkDir] calls its function with. *)
Inductive walk_step :=
| WalkErr (err : error)
| Walked (path : string) (is_dir : bool) (info : result Z).      (* [d.Info()]'s mode bits *)

(** ** Walking an [fstest.MapFS] *)

(** [p] is strictly below [d]. *)
Definition below (d p : string) : bool := strings_HasPrefix p (d +:+ "/").

(** A file hides what is listed below it: the walk does not enter files. *)
Definition hidden (m : gmap string map_file) (p : string) : bool :=
  existsb (λ kv : string * map_file, negb (mfl_Dir kv.2) && below kv.1 p) (map_to_list m).

Fixpoint segs_le (a b : list string) : bool :=
  match a, b with
  | [], _ => true
  | _ :: _, [] => false
  | x :: a', y :: b' => bool_decide (strings_Compare x y < 0)%Z || (bool_decide (x = y) && segs_le a' b')
  end.

Definition walk_le (a b : string * map_file) : Prop :=
  segs_le (strings_Split slash a.1) (strings_Split slash b.1) = true.
#[export] Instance walk_le_dec : RelDecision walk_le.
Proof. intros a b. unfold walk_le. apply _. Defined.

(** The files, in the order of the walk; directories are left out, nothing happens for
    them. *)
Definition walked_files (m : gmap string map_file) : list (string * map_file) :=
  merge_sort walk_le (filter (λ kv : string * map_file, mfl_Dir kv.2 = false ∧ hidden m kv.1 = false) (map_to_list m)).

Definition walk_map (m : gmap string map_file) : list walk_step :=
  (λ kv : string * map_file, Walked kv.1 false (Ok (mfl_Perm kv.2))) <$> walked_files m.

Module ClaudeLayout.

Definition manifestFile := "manifest.toml".
Definition canonicalSectionRoots := ["skills"; "rules"; "hooks"; "subagents"; "mcps"; "assets"].

Record writePlan := { source : string; target : string; mode : Z }.

(** ** Names *)

Definition in_bytes (lo hi : nat) (c : ascii) : bool := bool_decide (lo ≤ nat_of_ascii c ≤ hi).

(** [strings.ToLower], as far as the result of [sanitizePluginName] goes: the letter or
    digit a rune becomes, or [None]. The capital dotted I (U+0130) and the Kelvin sign
    (U+212A) become ASCII letters. A rune of several bytes yields one [None] a byte, and
    as many as one have the same effect. *)
Fixpoint lower_runes (s : string) : list (option ascii) :=
  match s with
  | EmptyString => []
  | String c s' =>
    if in_bytes 97 122 c || in_bytes 48 57 c then Some c :: lower_runes s'
    else if in_bytes 65 90 c then Some (ascii_of_nat (nat_of_ascii c + 32)) :: lower_runes s'
    else
      match s' with
      | String d s'' =>
        if decide (nat_of_ascii c = 196 ∧ nat_of_ascii d = 176) then Some "i"%char :: lower_runes s''
        else
          match s'' with
          | String e s''' =>
            if decide (nat_of_ascii c = 226 ∧ nat_of_ascii d = 132 ∧ nat_of_ascii e = 170)
            then Some "k"%char :: lower_runes s'''
            else None :: lower_runes s'
          | EmptyString => None :: lower_runes s'
          end
      | EmptyString => None :: lower_runes s'
      end
  end.

(** The builder's loop: [skip] is "nothing written yet, or a dash just written". *)
Fixpoint dashed (skip : bool) (rs : list (option ascii)) : string :=
  match rs with
  | [] => ""
  | Some c :: rs' => String c (dashed false rs')
  | None :: rs' => if skip then dashed skip rs' else String "-" (dashed true rs')
  end.

Fixpoint trim_left_dashes (s : string) : string :=
  match s with
  | String c s' => if decide (c = "-"%char) then trim_left_dashes s' else s
  | EmptyString => ""
  end.

Fixpoint trim_right_dashes (s : string) : string :=
  match s with
  | EmptyString => ""
  | String c s' =>
    let r := trim_right_dashes s' in
    if decide (r = "" ∧ c = "-"%char) then "" else String c r
  end.

(** [strings.Trim(s, "-")] *)
Definition trim_dashes (s : string) : string := trim_right_dashes (trim_left_dashes s).

Definition maxPrefix : nat := 64 - 1 - 8.

Definition sanitizePluginName (name : string) : string :=
  let clean := trim_dashes (dashed true (lower_runes (strings_TrimSpace name))) in
  if decide (64 < String.length clean) then
    let suffix := hex_encode (take 4 (sha256 clean)) in
    let prefix := trim_dashes (String.substring 0 maxPrefix clean) in
    (if decide (prefix = "") then "plugin" else prefix) +:+ "-" +:+ suffix
  else clean.

Definition plugin_base (name : string) : string := path_Join [".claude"; "plugins"; name].

Definition PluginDirectoryKey (m : Manifest) : result string :=
  let pluginName := sanitizePluginName (mp_Name (mf_Plugin m)) in
  if decide (pluginName = "") then
    Err (Errorf_w "" ErrInvalidPluginLayout
      (": plugin name " +:+ strconv_Quote (mp_Name (mf_Plugin m)) +:+ " sanitizes to empty"))
  else Ok (plugin_base pluginName).

(** ** Paths *)

Definition layoutPathUnsafe (cleanPath : string) : bool :=
  bool_decide (cleanPath = "." ∨ cleanPath = "/") || filepath_IsAbs cleanPath ||
  strings_HasPrefix cleanPath "../" ||
  existsb (λ seg, bool_decide (seg = "..")) (strings_Split slash cleanPath).

Definition root_files := [manifestFile; "AGENTS.md"; "README.md"].

Definition in_section (clean : string) : bool :=
  existsb (λ section, bool_decide (clean = section) || strings_HasPrefix clean (section +:+ "/"))
    canonicalSectionRoots.

Definition mapPath (pluginBase srcPath : string) : result string :=
  let clean := path_Clean srcPath in
  if layoutPathUnsafe clean then
    Err (Errorf_w "" ErrInvalidPluginLayout (": unsafe path " +:+ strconv_Quote srcPath))
  else if bool_decide (clean ∈ root_files) || in_section clean then Ok (path_Join [pluginBase; clean])
  else if strings_Contains clean "/" then
    Err (Errorf_w "" ErrInvalidPluginLayout (": non-canonical nested path " +:+ strconv_Quote srcPath))
  else Ok (path_Join [pluginBase; clean]).

(** [0o755] for a file somebody may execute, else [0o644]. *)
Definition fileMode (info : result Z) : result Z :=
  match info with
  | Err e => Err e
  | Ok m => Ok (if decide (Z.land m 73 = 0)%Z then 420%Z else 493%Z)
  end.

(** ** The plan *)

Definition plan_le (a b : writePlan) : Prop :=
  source a = manifestFile ∨
  (source b ≠ manifestFile ∧ (strings_Compare (source a) (source b) ≤ 0)%Z).
#[export] Instance plan_le_dec : RelDecision plan_le.
Proof. intros a b. unfold plan_le. apply _. Defined.

Definition walk_failed (err : error) : error := Errorf_w "claudecode layout walk plugin fs: " err "".

(** The walk, with the targets taken so far. *)
Fixpoint plan_walk (pluginBase : string) (steps : list walk_step) (targets : gmap string string)
    : result (list writePlan) :=
  match steps with
  | [] => Ok []
  | WalkErr err :: _ => Err (walk_failed err)
  | Walked srcPath is_dir info :: steps' =>
    if bool_decide (srcPath = ".") || is_dir then plan_walk pluginBase steps' targets else
    match mapPath pluginBase srcPath with
    | Err e => Err (walk_failed e)
    | Ok targetPath =>
      match targets !! targetPath with
      | Some previous => Err (walk_failed (Errorf_w "" ErrInvalidPluginLayout
          (": target path collision " +:+ strconv_Quote targetPath +:+ " from " +:+ strconv_Quote previous +:+
           " and " +:+ strconv_Quote srcPath)))
      | None =>
        match fileMode info with
        | Err e => Err (walk_failed (Errorf_w ("stat " +:+ strconv_Quote srcPath +:+ ": ") e ""))
        | Ok mode =>
          planned ← plan_walk pluginBase steps' (<[targetPath := srcPath]> targets);
          Ok ({| source := srcPath; target := targetPath; mode := mode |} :: planned)
        end
      end
    end
  end.

Definition buildWritePlan (steps : list walk_step) (pluginBase : string) : result (list writePlan) :=
  planned ← plan_walk pluginBase steps ∅;
  Ok (merge_sort plan_le planned).

(** ** Applying it *)

Definition pathOccupied (c : ctx) (p : string) : iproc (result bool) :=
  got ← call (IGetFile c p);
  match got with
  | Ok rc => _ ← call (ICloseReader rc); mret (Ok true)
  | Err e =>
    mret (if errors_Is e LocalDirOps.ErrNotExist then Ok false
          else if errors_Is e LocalDir.ErrNotARegularFile then Ok true else Err e)
  end.

Definition collision (pluginBase : string) : error :=
  Errorf_w "" ErrInvalidPluginLayout (": plugin directory collision " +:+ strconv_Quote pluginBase).

Definition ensureNoPluginNameCollision (c : ctx) (pluginBase : string) : iproc (result unit) :=
  occupied ← pathOccupied c pluginBase;
  match occupied with
  | Err e => mret (Err (Errorf_w ("claudecode layout check plugin base " +:+ strconv_Quote pluginBase +:+ ": ") e ""))
  | Ok true => mret (Err (collision pluginBase))
  | Ok false =>
    occupied ← pathOccupied c (path_Join [pluginBase; manifestFile]);
    mret match occupied with
         | Err e => Err (Errorf_w ("claudecode layout check existing plugin " +:+ strconv_Quote pluginBase +:+ ": ") e "")
         | Ok true => Err (collision pluginBase)
         | Ok false => Ok ()
         end
  end.

Definition layout_err (op p : string) (err : error) : error :=
  Errorf_w ("claudecode layout " +:+ op +:+ " " +:+ strconv_Quote p +:+ ": ") err "".

Fixpoint write_plans (c : ctx) (plans : list writePlan) : iproc (result (list string)) :=
  match plans with
  | [] => mret (Ok [])
  | plan :: plans' =>
    opened ← call (FSOpen (source plan));
    match opened with
    | Err e => mret (Err (layout_err "open" (source plan) e))
    | Ok f =>
      put ← call (IPutFile c (target plan) (FromFile f) (mode plan));
      closed ← call (FSClose f);
      match put, closed with
      | Err e, _ => mret (Err (layout_err "put" (target plan) e))
      | Ok _, Err e => mret (Err (layout_err "close" (source plan) e))
      | Ok _, Ok _ =>
        placed ← write_plans c plans';
        mret (placed ← placed; Ok (target plan :: placed))
      end
    end
  end.

Definition Apply (c : ctx) (m : Manifest) (steps : list walk_step) : iproc (result (list string)) :=
  match PluginDirectoryKey m with
  | Err e => mret (Err e)
  | Ok pluginBase =>
    free ← ensureNoPluginNameCollision c pluginBase;
    match free with
    | Err e => mret (Err e)
    | Ok _ =>
      match buildWritePlan steps pluginBase with
      | Err e => mret (Err e)
      | Ok plans => write_plans c plans
      end
    end
  end.

(** ** The paths a manifest names *)

Definition add_path (p : string) (paths : list string) : list string :=
  if decide (p = "" ∨ p ∈ paths) then paths else paths ++ [p].

Definition key_le (a b : string * ManifestEntry) : Prop := (strings_Compare a.1 b.1 ≤ 0)%Z.
#[export] Instance key_le_dec : RelDecision key_le.
Proof. intros a b. unfold key_le. apply _. Defined.

Definition addManifestSectionPaths (pluginBase : string) (entries : gomap ManifestEntry) (paths : list string)
    : list string :=
  fold_left (λ paths (kv : string * ManifestEntry),
    let cleanPath := path_Clean (strings_TrimSpace (me_Path kv.2)) in
    if layoutPathUnsafe cleanPath then paths else add_path (path_Join [pluginBase; cleanPath]) paths)
    (merge_sort key_le (match entries with Some g => map_to_list g | None => [] end)) paths.

Definition string_le (a b : string) : Prop := (strings_Compare a b ≤ 0)%Z.
#[export] Instance string_le_dec : RelDecision string_le.
Proof. intros a b. unfold string_le. apply _. Defined.

Definition LayoutPaths (m : Manifest) : list string :=
  let pluginName := sanitizePluginName (mp_Name (mf_Plugin m)) in
  if decide (pluginName = "") then [] else
  let pluginBase := plugin_base pluginName in
  merge_sort string_le
    (addManifestSectionPaths pluginBase (mf_MCPs m)
      (addManifestSectionPaths pluginBase (mf_Subagents m)
        (addManifestSectionPaths pluginBase (mf_Hooks m)
          (addManifestSectionPaths pluginBase (mf_Rules m)
            (addManifestSectionPaths pluginBase (mf_Skills m)
              (add_path (path_Join [pluginBase; manifestFile]) [])))))).
End ClaudeLayout.

Example sanitize_ex1 : ClaudeLayout.sanitizePluginName " My__Plugin-- v2!" = "my-plugin-v2".
Proof. vm_compute. reflexivity. Qed.
Example sanitize_ex2 : ClaudeLayout.sanitizePluginName (bytes_of [226; 132; 170; 196; 176; 195; 169; 45]) = "ki".
Proof. vm_compute. reflexivity. Qed.
