(* ===== verification/ClaudeLayoutSpec.v ===== *)
(** * What the Claude Code layout guarantees

    A plugin's directory is named by words of lower-case letters and digits with
    single dashes between them, at most 64 bytes in all, or the name is refused;
    names of that form are kept ([plugin_dir_name]).  What the plan of a plugin's
    files and its application guarantee is in ClaudePlanSpec.v. *)

From S2P Require Import Prelude GoString GoError GoValue GoPath GoFilepath Sha256 WorkspaceTypes PluginTypes.
From S2P Require Import Manifest Proc WorkspaceWorld ZipReader ZipSpec LocalDir LocalDirSpec LocalDirOps ClaudeLayout.
From Stdlib Require Import Ascii.
From stdpp Require Import options.
Set Default Proof Using "Type*".

(** ** Directory names *)

Module PluginNames.
Import ClaudeLayout.

Definition alnum (c : ascii) : bool := in_bytes 97 122 c || in_bytes 48 57 c.

(** Letters and digits with single dashes between them; [skip]: no dash may follow. *)
Fixpoint words (skip : bool) (s : string) : bool :=
  match s with
  | EmptyString => negb skip
  | String c s' => if decide (c = "-"%char) then negb skip && words true s' else alnum c && words false s'
  end.

(** [a-z0-9] words joined by dashes, at most 64 bytes. *)
Definition slug (s : string) : Prop := words true s = true ∧ String.length s ≤ 64.

(** The same where a dash may be left at the end. *)
Fixpoint open_words (skip : bool) (s : string) : bool :=
  match s with
  | EmptyString => true
  | String c s' => if decide (c = "-"%char) then negb skip && open_words true s' else alnum c && open_words false s'
  end.

Lemma alnum_not_dash c : alnum c = true → c ≠ "-"%char.
Proof. by intros H ->. Qed.

Lemma dashed_open skip rs :
  Forall (λ r, match r with Some c => alnum c = true | None => True end) rs → open_words skip (dashed skip rs) = true.
Proof.
  intros H. revert skip. induction H as [|[c|] rs Hr H IH]; intros skip; simpl; [done| |].
  - rewrite decide_False by (by apply alnum_not_dash). by rewrite Hr, IH.
  - destruct skip; [apply IH|]. simpl. apply IH.
Qed.

Lemma lower_runes_alnum s :
  Forall (λ r, match r with Some c => alnum c = true | None => True end) (lower_runes s).
Proof.
  assert (∀ n s, String.length s ≤ n → Forall (λ r, match r with Some c => alnum c = true | None => True end) (lower_runes s))
    as H; [|by apply (H (String.length s))].
  clear s. induction n as [|n IH]; intros [|c s] Hl; simpl in Hl; try (constructor || lia).
  cbn [lower_runes]. destruct (in_bytes 97 122 c || in_bytes 48 57 c) eqn:H1.
  { constructor; [done|]. apply IH. lia. }
  destruct (in_bytes 65 90 c) eqn:H2.
  { constructor; [|apply IH; lia]. unfold in_bytes in H2. apply bool_decide_eq_true in H2.
    unfold alnum, in_bytes. rewrite nat_ascii_embedding by lia. apply orb_true_iff. left.
    apply bool_decide_eq_true. lia. }
  assert (∀ t, String.length t ≤ n → Forall (λ r, match r with Some c => alnum c = true | None => True end)
    (None :: lower_runes t)) as Hnone by (intros t Ht; constructor; [done|by apply IH]).
  destruct s as [|d s]; [apply (Hnone ""); simpl; lia|]. simpl in Hl. case_decide.
  { constructor; [done|]. apply IH. lia. }
  destruct s as [|e s]; [apply Hnone; simpl; lia|]. simpl in Hl. case_decide.
  { constructor; [done|]. apply IH. lia. }
  apply Hnone. simpl. lia.
Qed.

Lemma trim_left_open s : open_words true s = true → trim_left_dashes s = s.
Proof. destruct s as [|c s]; [done|]. simpl. by case_decide. Qed.

(** Trimming gives closed words, or nothing. *)
Lemma trim_right_words skip s :
  open_words skip s = true → trim_right_dashes s = "" ∨ words skip (trim_right_dashes s) = true.
Proof.
  revert skip. induction s as [|c s IH]; intros skip; [by left|]. simpl.
  destruct (decide (c = "-"%char)) as [->|Hc].
  - intros [Hskip Hs]%andb_true_iff. destruct (IH true Hs) as [E|Hw].
    + rewrite E. rewrite decide_True by done. by left.
    + rewrite decide_False by (intros [E _]; by rewrite E in Hw). right. simpl. by rewrite Hskip.
  - intros [Ha Hs]%andb_true_iff. right. rewrite decide_False by tauto. simpl. rewrite decide_False by done.
    rewrite Ha. destruct (IH false Hs) as [->| ->]; done.
Qed.

Lemma trim_dashes_words s :
  open_words true s = true → trim_dashes s = "" ∨ words true (trim_dashes s) = true.
Proof. intros H. unfold trim_dashes. rewrite trim_left_open by done. by apply trim_right_words. Qed.

Lemma words_open skip s : words skip s = true → open_words skip s = true.
Proof.
  revert skip. induction s as [|c s IH]; intros skip; [done|]. simpl. case_decide.
  - intros [-> Hrest]%andb_true_iff. simpl. by apply IH.
  - intros [-> Hrest]%andb_true_iff. simpl. by apply IH.
Qed.

Lemma substring_open n skip s : open_words skip s = true → open_words skip (String.substring 0 n s) = true.
Proof.
  revert n skip. induction s as [|c s IH]; intros [|n] skip; simpl; try done.
  case_decide; intros [-> Hrest]%andb_true_iff; simpl; by apply IH.
Qed.

Lemma trim_right_length s : String.length (trim_right_dashes s) ≤ String.length s.
Proof. induction s as [|c s IH]; [done|]. simpl. case_decide; simpl; lia. Qed.

Lemma trim_left_length s : String.length (trim_left_dashes s) ≤ String.length s.
Proof. induction s as [|c s IH]; [done|]. simpl. case_decide; simpl; lia. Qed.

Lemma trim_dashes_length s : String.length (trim_dashes s) ≤ String.length s.
Proof. unfold trim_dashes. pose proof (trim_right_length (trim_left_dashes s)). pose proof (trim_left_length s). lia. Qed.

Lemma words_app skip a b : words skip a = true → words true b = true → words skip (a +:+ "-" +:+ b) = true.
Proof.
  intros Ha Hb. revert skip Ha. induction a as [|c a IH]; intros skip Ha.
  - rewrite append_nil_l. change ("-" +:+ b) with (String "-" b). simpl in *. by rewrite Ha, Hb.
  - rewrite append_cons. simpl in *. case_decide; apply andb_true_iff in Ha as [-> Ha]; simpl; by apply IH.
Qed.

Lemma hex_digit_alnum n : n < 16 → alnum (hex_digit n) = true.
Proof.
  intros Hn. unfold hex_digit, alnum, in_bytes. case_decide; rewrite nat_ascii_embedding by lia; apply orb_true_iff;
    [right|left]; apply bool_decide_eq_true; lia.
Qed.

Lemma alnum_words s : s ≠ "" → Forall (λ c, alnum c = true) (String.list_ascii_of_string s) → words true s = true.
Proof.
  intros Hne H. assert (∀ skip, s ≠ "" ∨ skip = false → words skip s = true) as Hw; [|apply Hw; by left].
  clear Hne. induction s as [|c s IH]; intros skip Hs; [by destruct Hs as [?| ->]|].
  simpl in H. apply Forall_cons in H as [Hc H]. simpl. rewrite decide_False by (by apply alnum_not_dash).
  rewrite Hc. apply IH; [done|by right].
Qed.

Lemma string_of_list_length l : String.length (String.string_of_list_ascii l) = length l.
Proof. induction l as [|c l IH]; [done|]. simpl. by rewrite IH. Qed.

Lemma hash_words s : words true (hex_encode (take 4 (sha256 s))) = true ∧
  String.length (hex_encode (take 4 (sha256 s))) = 8.
Proof.
  pose proof (sha256_length s) as Hl. pose proof (sha256_bytes s) as Hb.
  apply (Forall_take _ 4) in Hb.
  destruct (sha256 s) as [|b0 [|b1 [|b2 [|b3 l]]]]; simpl in Hl; try lia. cbn [take] in *.
  split; [|unfold hex_encode; by rewrite string_of_list_length].
  assert (∀ b, (0 ≤ b < 256)%Z → alnum (hex_digit (Z.to_nat (Z.shiftr b 4))) = true ∧
    alnum (hex_digit (Z.to_nat (Z.land b 15))) = true) as Hd.
  { intros b Hrange. split; apply hex_digit_alnum.
    - rewrite Z.shiftr_div_pow2 by lia. change (2 ^ 4)%Z with 16%Z.
      assert (b / 16 < 16)%Z by (apply Z.div_lt_upper_bound; lia). lia.
    - change 15%Z with (Z.ones 4). rewrite Z.land_ones by lia. pose proof (Z.mod_pos_bound b (2 ^ 4)). lia. }
  rewrite !Forall_cons in Hb. destruct Hb as (H0 & H1 & H2 & H3 & _).
  apply alnum_words; [done|]. unfold hex_encode. rewrite String.list_ascii_of_string_of_list_ascii. simpl.
  repeat (constructor; [by apply Hd|]). constructor.
Qed.

(** A slug is left as it is. *)
Definition slug_char (c : ascii) : bool := alnum c || bool_decide (c = "-"%char).

Lemma words_chars skip s : words skip s = true → all_chars slug_char s = true.
Proof.
  revert skip. induction s as [|c s IH]; intros skip; [done|]. simpl. unfold slug_char at 1.
  destruct (decide (c = "-"%char)) as [->|Hc]; intros [Ha Hs]%andb_true_iff.
  - simpl. by eapply IH.
  - rewrite Ha. simpl. by eapply IH.
Qed.

Lemma slug_char_graphic c : slug_char c = true → is_graphic c = true.
Proof.
  unfold slug_char, alnum, in_bytes, is_graphic. rewrite !orb_true_iff, !bool_decide_eq_true.
  intros [[?|?]| ->]; [lia|lia|]. vm_compute. lia.
Qed.

Lemma words_trim s : words true s = true → strings_TrimSpace s = s.
Proof.
  intros H%words_chars. apply TrimSpace_graphic; apply (all_chars_starts slug_char); auto using slug_char_graphic.
  by rewrite all_chars_rev.
Qed.

(** Reading a slug gives its letters, with [None] for a dash. *)
Lemma dashed_words skip s : words skip s = true → dashed skip (lower_runes s) = s.
Proof.
  revert skip. induction s as [|c s IH]; intros skip; [done|]. cbn [words].
  destruct (decide (c = "-"%char)) as [->|Hc]; intros [Ha Hs]%andb_true_iff.
  - destruct skip; [done|].
    assert (lower_runes (String "-" s) = None :: lower_runes s) as -> by (by destruct s as [|d [|e s]]).
    simpl. by rewrite IH.
  - cbn [lower_runes]. unfold alnum in Ha. rewrite Ha. simpl. by rewrite IH.
Qed.

Lemma trim_right_id skip s : words skip s = true → trim_right_dashes s = s.
Proof.
  revert skip. induction s as [|c s IH]; intros skip; [done|]. simpl.
  destruct (decide (c = "-"%char)) as [->|Hc]; intros [Ha Hs]%andb_true_iff.
  - rewrite (IH true) by done. rewrite decide_False; [done|]. intros [-> _]. done.
  - rewrite (IH false) by done. by rewrite decide_False by tauto.
Qed.

Lemma words_trim_dashes s : words true s = true → trim_dashes s = s.
Proof.
  intros H. unfold trim_dashes. rewrite trim_left_open by (by apply words_open). by eapply trim_right_id.
Qed.

Lemma sanitize_slug name : sanitizePluginName name = "" ∨ slug (sanitizePluginName name).
Proof.
  unfold sanitizePluginName. set (clean := trim_dashes _).
  assert (clean = "" ∨ words true clean = true) as Hclean
    by (apply trim_dashes_words, dashed_open, lower_runes_alnum).
  case_decide as Hlong; [|destruct Hclean as [->|Hw]; [by left|right; split; [done|lia]]]. right.
  destruct Hclean as [E|Hw]; [rewrite E in Hlong; simpl in Hlong; lia|].
  destruct (hash_words clean) as [Hhash Hlen]. set (prefix := trim_dashes _).
  assert (String.length prefix ≤ maxPrefix) as Hp.
  { unfold prefix. etrans; [apply trim_dashes_length|]. rewrite substring_length by (unfold maxPrefix; lia). done. }
  split.
  - apply words_app; [|done]. case_decide as Hpe; [done|].
    destruct (trim_dashes_words (String.substring 0 maxPrefix clean)) as [?|?]; [|done..].
    by apply substring_open, words_open.
  - rewrite !append_length, Hlen. case_decide; unfold maxPrefix in *; simpl in *; lia.
Qed.

(** A plugin's directory is named by words of lower-case letters and digits with
    single dashes between them, at most 64 bytes in all, whatever the plugin's name, or
    the name is refused; names of that form are kept as they are. *)
Theorem plugin_dir_name (m : Manifest) :
  (∀ d, PluginDirectoryKey m = Ok d →
     ∃ n, slug n ∧ n = sanitizePluginName (mp_Name (mf_Plugin m)) ∧ d = plugin_base n) ∧
  (slug (mp_Name (mf_Plugin m)) → PluginDirectoryKey m = Ok (plugin_base (mp_Name (mf_Plugin m)))).
Proof.
  unfold PluginDirectoryKey. set (name := mp_Name (mf_Plugin m)). split.
  - intros d. case_decide as He; [done|]. intros [= <-].
    destruct (sanitize_slug name) as [?|Hs]; [done|]. by exists (sanitizePluginName name).
  - intros [Hw Hl]. assert (sanitizePluginName name = name) as ->.
    { unfold sanitizePluginName. rewrite words_trim, dashed_words, words_trim_dashes by done.
      by rewrite decide_False by lia. }
    rewrite decide_False; [done|]. intros E. by rewrite E in Hw.
Qed.

Lemma plugin_dir_name_witness :
  PluginDirectoryKey (ManifestSpec.sample_manifest "skills/commit.md" None) = Ok (plugin_base "git-tools").
Proof. apply (plugin_dir_name (ManifestSpec.sample_manifest "skills/commit.md" None)). split; [done|simpl; lia]. Defined.
End PluginNames.
