(* ===== verification/ClaudePlanSpec.v ===== *)
(** * The plan of a plugin's files, and carrying it out

    [map_path_iff]: which paths of a plugin have a place and which place. The plan for an
    opened archive is complete, one write for each file, sorted, and every target is a
    path the local directory accepts ([write_plan_spec]); [Apply] performs such a plan
    or stops at the first failure, and touches nothing when the directory is taken
    ([apply_spec]). *)

From S2P Require Import Prelude GoString GoError GoValue GoPath GoFilepath WorkspaceTypes PluginTypes.
From S2P Require Import Manifest Proc WorkspaceWorld ZipReader ZipSpec LocalDir LocalDirSpec LocalDirOps ClaudeLayout.
From Stdlib Require Import Ascii.
From stdpp Require Import options.
Set Default Proof Using "Type*".

Module ClaudePlan.
Import Manifest ManifestSpec ZipReader LocalDir Directories LocalDirSpec ClaudeLayout.

(** ** Places *)

(** The file lies at the root of the plugin or below one of the sections. *)
Definition placeable (segs : list string) : Prop :=
  length segs = 1 ∨ ∃ s rest, segs = s :: rest ∧ s ∈ canonicalSectionRoots.

#[export] Instance placeable_dec segs : Decision (placeable segs).
Proof.
  destruct segs as [|s rest].
  - right. by intros [?|(? & ? & ? & _)].
  - refine (cast_if (decide (rest = [] ∨ s ∈ canonicalSectionRoots))).
    + destruct o as [->|Hs]; [by left|]. right. by exists s, rest.
    + intros [Hl|(s' & rest' & [= <- <-] & Hs)]; [|tauto]. destruct rest; simpl in Hl; [tauto|lia].
Defined.

Lemma section_name s : s ∈ canonicalSectionRoots → name s.
Proof.
  assert (Forall name canonicalSectionRoots) as H; [|by rewrite Forall_forall in H; apply H].
  repeat (constructor; [by split_and!|]). constructor.
Qed.

Lemma rel_path_2 s t segs : rel_path (s :: t :: segs) = s +:+ String slash (rel_path (t :: segs)).
Proof. by rewrite !rel_path_cons, strings_Join_cons. Qed.

Lemma rel_path_contains segs : Forall name segs → strings_Contains (rel_path segs) "/" = true ↔ 1 < length segs.
Proof.
  intros H. rewrite strings_Contains_spec. destruct segs as [|s [|t segs]]; cbn [length].
  - split; [|lia]. intros (a & b & E). assert (has_byte slash (rel_path []) = false) as Hs by done.
    rewrite E in Hs. change ("/" +:+ b) with (String slash b) in Hs. by rewrite has_slash_app in Hs.
  - split; [|lia]. intros (a & b & E). apply Forall_cons in H as [[_ Hs] _]. unfold no_slash in Hs. simpl in E.
    rewrite E in Hs. change ("/" +:+ b) with (String slash b) in Hs. by rewrite has_slash_app in Hs.
  - split; [lia|]. intros _. exists s, (rel_path (t :: segs)). by rewrite rel_path_2.
Qed.

Lemma rel_path_prefix s segs sec :
  Forall name (s :: segs) → name sec →
  bool_decide (rel_path (s :: segs) = sec) || strings_HasPrefix (rel_path (s :: segs)) (sec +:+ "/") =
  bool_decide (s = sec).
Proof.
  intros H Hsec. apply eq_bool_prop_intro. rewrite !Is_true_true, orb_true_iff, !bool_decide_eq_true.
  unfold strings_HasPrefix. rewrite prefix_spec. split.
  - intros [E|[t E]].
    + apply (rel_path_inj _ [sec]) in E; [by injection E|done|by constructor].
    + apply (f_equal (strings_Split slash)) in E. rewrite Split_rel_path in E by done.
      rewrite append_assoc in E. change ("/" +:+ t) with (String slash t) in E.
      rewrite strings_Split_app, (Split_one sec) in E by (by destruct Hsec). by injection E.
  - intros ->. destruct segs as [|t segs]; [by left|right]. rewrite rel_path_2. exists (rel_path (t :: segs)).
    by rewrite append_assoc.
Qed.

Lemma in_section_iff s segs : Forall name (s :: segs) → in_section (rel_path (s :: segs)) = true ↔ s ∈ canonicalSectionRoots.
Proof.
  intros H. unfold in_section. rewrite existsb_exists. split.
  - intros (sec & Hin%list_elem_of_In & Hp). rewrite rel_path_prefix in Hp; [|done|by apply section_name].
    by apply bool_decide_eq_true in Hp as ->.
  - intros Hin. exists s. split; [by apply list_elem_of_In|]. rewrite rel_path_prefix; [|done|by apply section_name].
    by apply bool_decide_eq_true.
Qed.

(** A clean path is safe when it is a non-empty list of names. *)
Lemma unsafe_iff p :
  layoutPathUnsafe (path_Clean p) = false ↔ ∃ segs, segs ≠ [] ∧ Forall name segs ∧ path_Clean p = rel_path segs.
Proof.
  unfold layoutPathUnsafe. rewrite !orb_false_iff, bool_decide_eq_false. split.
  - intros [[[Hd Ha] _] Hdd]. destruct (Clean_names p Ha) as (segs & H & E).
    + intros Hin. apply not_true_iff_false in Hdd. apply Hdd, existsb_exists. exists "..".
      by rewrite <-list_elem_of_In, bool_decide_eq_true.
    + exists segs. split_and!; [|done..]. intros ->. apply Hd. by left.
  - intros (segs & Hne & H & ->).
    assert (∀ seg, seg ∈ strings_Split slash (rel_path segs) → seg ≠ "..") as Hup.
    { rewrite Split_rel_path by done. intros seg Hin. rewrite Forall_forall in H. by destruct (H seg Hin) as [(_ & _ & ?) _]. }
    split_and!; [|by apply rel_path_not_abs| |].
    + intros [E|E]; [by apply (rel_path_inj segs []) in E|].
      assert (filepath_IsAbs (rel_path segs) = false) as Ha by (by apply rel_path_not_abs). by rewrite E in Ha.
    + apply not_true_iff_false. unfold strings_HasPrefix. intros [t E]%prefix_spec. apply (Hup ".."); [|done].
      rewrite E. change ("../" +:+ t) with (".." +:+ String slash t). rewrite strings_Split_app. by left.
    + apply not_true_iff_false. intros (seg & Hin & E)%existsb_exists. apply bool_decide_eq_true in E.
      apply (Hup seg); [by apply list_elem_of_In|done].
Qed.

(** The place of a path, and when it has one. *)
Lemma map_path_iff bs p t :
  Forall name bs →
  mapPath (rel_path bs) p = Ok t ↔
  ∃ segs, Forall name segs ∧ path_Clean p = rel_path segs ∧ placeable segs ∧ t = rel_path (bs ++ segs).
Proof.
  intros Hbs. unfold mapPath. destruct (layoutPathUnsafe (path_Clean p)) eqn:Hu.
  { split; [done|]. intros (segs & H & E & Hpl & _).
    assert (layoutPathUnsafe (path_Clean p) = false) as Hu'; [|congruence].
    apply unsafe_iff. exists segs. split_and!; [|done..]. intros ->. by destruct Hpl as [?|(? & ? & ? & _)]. }
  apply unsafe_iff in Hu as (segs & Hne & H & E). rewrite E, Join_rel_paths by done.
  assert (∀ gs, Forall name gs → rel_path segs = rel_path gs → gs = segs) as Hinj
    by (intros gs Hgs E'; symmetry; by apply rel_path_inj).
  assert ((if bool_decide (rel_path segs ∈ root_files) || in_section (rel_path segs) then true
           else negb (strings_Contains (rel_path segs) "/")) = true ↔ placeable segs) as Hpl.
  { destruct segs as [|s rest]; [done|]. unfold placeable.
    assert (rel_path (s :: rest) ∈ root_files → length (s :: rest) = 1) as Hroot.
    { intros Hin. assert (name (rel_path (s :: rest))) as Hnm.
      { assert (Forall name root_files) as Hroots; [|by rewrite Forall_forall in Hroots; apply Hroots].
        repeat (constructor; [by split_and!|]). constructor. }
      assert (s :: rest = [rel_path (s :: rest)]) as ->; [|done].
      apply rel_path_inj; [done|by constructor|done]. }
    destruct (bool_decide _) eqn:Hb; cbn [orb].
    { apply bool_decide_eq_true, Hroot in Hb. split; [intros _; by left|done]. }
    destruct (in_section (rel_path (s :: rest))) eqn:Hs.
    { apply in_section_iff in Hs; [|done]. split; [intros _; right; by exists s, rest|done]. }
    rewrite negb_true_iff, <-not_true_iff_false, rel_path_contains by done. split.
    - intros Hl. left. simpl in *. lia.
    - intros [Hl|(s' & rest' & [= <- <-] & Hin)]; [cbn in *; lia|].
      apply (in_section_iff s rest) in Hin; [congruence|done]. }
  destruct (bool_decide _ || in_section _); [|destruct (strings_Contains _ _)]; cbn in Hpl; split.
  - intros [= <-]. exists segs. split_and!; try done. by apply Hpl.
  - by intros (gs & Hgs & ->%Hinj & _ & ->).
  - done.
  - intros (gs & Hgs & ->%Hinj & Hp & _); [|done]. by apply Hpl in Hp.
  - intros [= <-]. exists segs. split_and!; try done. by apply Hpl.
  - by intros (gs & Hgs & ->%Hinj & _ & ->).
Qed.

(** ** The plan of an archive *)

(** A file the walk reports. *)
Definition visible (m : gmap string map_file) (p : string) (f : map_file) : Prop :=
  m !! p = Some f ∧ mfl_Dir f = false ∧ hidden m p = false.

Definition plan_of (base : string) (kv : string * map_file) : writePlan :=
  {| source := kv.1; target := base +:+ "/" +:+ kv.1;
     mode := if decide (Z.land (mfl_Perm kv.2) 73 = 0)%Z then 420%Z else 493%Z |}.

Definition placeable_path (p : string) : Prop := placeable (strings_Split slash p).

Lemma elem_of_walked m p f : (p, f) ∈ walked_files m ↔ visible m p f.
Proof.
  unfold walked_files, visible. rewrite merge_sort_Permutation, list_elem_of_filter, elem_of_map_to_list. simpl. tauto.
Qed.

Lemma walked_NoDup m : NoDup (walked_files m).*1.
Proof.
  unfold walked_files. rewrite merge_sort_Permutation.
  eapply sublist_NoDup; [apply (NoDup_fst_map_to_list m)|]. apply fmap_sublist, sublist_filter.
Qed.

Lemma safe_path_names p : safe_path p → strings_Split slash p ≠ [] ∧ Forall name (strings_Split slash p) ∧
  p = rel_path (strings_Split slash p).
Proof.
  intros (_ & _ & Hs). pose proof (strings_Split_nonempty slash p) as Hne. split_and!; [done| |].
  - pose proof (Split_no_slash p) as Hns. rewrite Forall_forall in Hs, Hns. apply Forall_forall.
    intros seg Hin. split; auto.
  - destruct (strings_Split slash p) eqn:E; [done|]. rewrite rel_path_cons, <-E. symmetry. apply strings_Join_Split.
Qed.

Lemma rel_path_app a b : a ≠ [] → b ≠ [] → rel_path (a ++ b) = rel_path a +:+ "/" +:+ rel_path b.
Proof.
  intros Ha Hb. induction a as [|s a IH]; [done|]. destruct (decide (a = [])) as [->|Hne].
  - destruct b as [|t b]; [done|]. change ([s] ++ t :: b) with (s :: t :: b). by rewrite rel_path_2.
  - specialize (IH Hne). destruct a as [|t a]; [done|]. change ((s :: t :: a) ++ b) with (s :: t :: (a ++ b)).
    change (rel_path ((t :: a) ++ b)) with (rel_path (t :: (a ++ b))) in IH.
    rewrite !rel_path_2, IH, !append_assoc. by rewrite append_cons.
Qed.

Lemma map_path_safe bs p :
  bs ≠ [] → Forall name bs → safe_path p →
  (placeable_path p → mapPath (rel_path bs) p = Ok (rel_path bs +:+ "/" +:+ p)) ∧
  (¬ placeable_path p → is_ok (mapPath (rel_path bs) p) = false).
Proof.
  intros Hne Hbs Hp. pose proof (safe_clean p Hp) as Hc. apply safe_path_names in Hp as (Hsne & Hn & E).
  unfold placeable_path. revert Hsne Hn E. generalize (strings_Split slash p) as ps. intros ps Hsne Hn ->. split.
  - intros Hpl. apply map_path_iff; [done|]. exists ps. rewrite Hc. split_and!; try done.
    by rewrite rel_path_app.
  - intros Hpl. destruct (mapPath _ _) as [t|e] eqn:Hm; [|done]. destruct Hpl.
    apply map_path_iff in Hm as (segs & Hs & E' & Hpl & _); [|done]. rewrite Hc in E'.
    apply rel_path_inj in E' as ->; done.
Qed.

Lemma cancel_base base (p q : string) : base +:+ "/" +:+ p = base +:+ "/" +:+ q → p = q.
Proof.
  induction base as [|c base IH]; [intros E; by injection E|]. rewrite !append_cons. intros [= E]. by apply IH.
Qed.

Definition steps_of (l : list (string * map_file)) : list walk_step :=
  (λ kv : string * map_file, Walked kv.1 false (Ok (mfl_Perm kv.2))) <$> l.

(** The walk over distinct files, none of whose targets is taken. *)
Lemma plan_walk_spec bs l targets :
  bs ≠ [] → Forall name bs → Forall (λ kv, safe_path kv.1) l → NoDup l.*1 →
  (∀ kv, kv ∈ l → targets !! (rel_path bs +:+ "/" +:+ kv.1) = None) →
  (Forall (λ kv, placeable_path kv.1) l → plan_walk (rel_path bs) (steps_of l) targets = Ok (plan_of (rel_path bs) <$> l)) ∧
  (¬ Forall (λ kv, placeable_path kv.1) l → is_ok (plan_walk (rel_path bs) (steps_of l) targets) = false).
Proof.
  intros Hne Hbs. revert targets. induction l as [|[p f] l IH]; intros targets Hsafe Hnd Hfree.
  { split; [done|]. by intros []. }
  apply Forall_cons in Hsafe as [Hp Hsafe]. apply NoDup_cons in Hnd as [Hpl Hnd]. simpl in Hp, Hpl.
  cbn [steps_of fmap list_fmap plan_walk]. fold (steps_of l). simpl fst. simpl snd.
  assert (bool_decide (p = ".") = false) as ->.
  { apply bool_decide_eq_false. intros ->. apply safe_path_names in Hp as (_ & [[(_ & ? & _) _] _]%Forall_cons & _). done. }
  cbn [orb]. destruct (map_path_safe bs p Hne Hbs Hp) as [Hyes Hno].
  destruct (decide (placeable_path p)) as [Hpp|Hpp].
  2: { specialize (Hno Hpp). destruct (mapPath _ p); [done|]. split; [|done]. by intros [? _]%Forall_cons. }
  pose proof (Hfree (p, f) ltac:(by left)) as Hf. cbn [fst] in Hf. rewrite (Hyes Hpp), Hf. cbn [fileMode].
  destruct (IH (<[rel_path bs +:+ "/" +:+ p:=p]> targets)) as [IH1 IH2]; [done|done| |].
  { intros [q g] Hin. rewrite lookup_insert_ne; [apply (Hfree (q, g)); by right|].
    intros E%cancel_base. simpl in E. subst q. apply Hpl. by apply (list_elem_of_fmap_2 fst l (p, g)). }
  rewrite Forall_cons. simpl fst. split.
  - intros [_ Hl]. by rewrite (IH1 Hl).
  - intros Hl. assert (¬ Forall (λ kv, placeable_path kv.1) l) as Hl' by tauto. specialize (IH2 Hl').
    by destruct (plan_walk _ _ _).
Qed.

#[export] Instance plan_le_trans : Transitive plan_le.
Proof.
  intros a b c [?|[Hb Hab]] Hbc; [by left|]. right. destruct Hbc as [?|[Hc Hbc]]; [done|]. split; [done|].
  apply strings_Compare_le in Hab, Hbc. apply strings_Compare_le. by trans (source b).
Qed.
#[export] Instance plan_le_total : Total plan_le.
Proof.
  intros a b. unfold plan_le. destruct (decide (source a = manifestFile)), (decide (source b = manifestFile)); try tauto.
  pose proof (strings_Compare_antisym (source a) (source b)).
  destruct (decide (strings_Compare (source a) (source b) ≤ 0)%Z); [tauto|]. right. right. split; [done|lia].
Qed.

Definition safe_keys (m : gmap string map_file) : Prop := ∀ p f, m !! p = Some f → safe_path p.

Lemma walked_safe m : safe_keys m → Forall (λ kv, safe_path kv.1) (walked_files m).
Proof. intros Hm. apply Forall_forall. intros [p f] [Hp _]%elem_of_walked. by apply (Hm p f). Qed.

Lemma write_plan_walked m bs :
  bs ≠ [] → Forall name bs → safe_keys m →
  (Forall (λ kv, placeable_path kv.1) (walked_files m) →
     buildWritePlan (walk_map m) (rel_path bs) = Ok (merge_sort plan_le (plan_of (rel_path bs) <$> walked_files m))) ∧
  (¬ Forall (λ kv, placeable_path kv.1) (walked_files m) →
     is_ok (buildWritePlan (walk_map m) (rel_path bs)) = false).
Proof.
  intros Hne Hbs Hm. unfold buildWritePlan, walk_map. fold (steps_of (walked_files m)).
  destruct (plan_walk_spec bs (walked_files m) ∅ Hne Hbs (walked_safe m Hm) (walked_NoDup m)) as [Hyes Hno]; [done|].
  split; [intros H; by rewrite (Hyes H)|]. intros H. specialize (Hno H). by destruct (plan_walk _ _ _).
Qed.

(** A target below a directory of names is a path the local directory takes as it is,
    unless it ends in white space. *)
Lemma target_sanitized bs p :
  bs ≠ [] → Forall name bs → safe_path p →
  let t := rel_path bs +:+ "/" +:+ p in
  strings_TrimSpace t = t → sanitizeRelativePath t = Ok t.
Proof.
  intros Hne Hbs Hp t Ht. apply safe_path_names in Hp as (Hpne & Hn & E).
  assert (t = rel_path (bs ++ strings_Split slash p)) as Et by (unfold t; rewrite E at 1; by rewrite <-rel_path_app).
  assert (Forall name (bs ++ strings_Split slash p)) as Hall by (by apply Forall_app).
  unfold sanitizeRelativePath. rewrite Ht. case_decide as H0.
  { rewrite Et in H0. by apply rel_path_nonempty in H0. }
  assert (filepath_IsAbs t = false) as Ha by (rewrite Et; by apply rel_path_not_abs).
  assert (elements t = bs ++ strings_Split slash p) as El by (rewrite Et; by apply elements_rel).
  assert (Forall name (elements t)) as Hel by (by rewrite El).
  assert (isPathOutsideRootLexical t = false) as ->.
  { apply outside_iff. split; [done|]. eexists. by apply walk_elements. }
  by rewrite (Clean_rel t Ha Hel), El, <-Et.
Qed.

(** What a plan that could be made holds. *)
Lemma plan_facts m bs plans :
  safe_keys m → bs ≠ [] → Forall name bs → buildWritePlan (walk_map m) (rel_path bs) = Ok plans →
  (∀ plan, plan ∈ plans ↔ ∃ p f, visible m p f ∧ plan = plan_of (rel_path bs) (p, f)) ∧
  NoDup (target <$> plans) ∧ StronglySorted plan_le plans ∧
  (∀ plan, plan ∈ plans → strings_TrimSpace (target plan) = target plan →
     sanitizeRelativePath (target plan) = Ok (target plan)).
Proof.
  intros Hm Hne Hbs. destruct (write_plan_walked m bs Hne Hbs Hm) as [Hyes Hno]. set (base := rel_path bs) in *.
  destruct (decide (Forall (λ kv, placeable_path kv.1) (walked_files m))) as [Hpl|Hpl].
  2: { specialize (Hno Hpl). by destruct (buildWritePlan _ _). }
  rewrite (Hyes Hpl). intros [= <-].
  assert (∀ plan, plan ∈ merge_sort plan_le (plan_of base <$> walked_files m) ↔
    ∃ p f, visible m p f ∧ plan = plan_of base (p, f)) as Hin.
  { intros plan. rewrite merge_sort_Permutation, list_elem_of_fmap. split.
    - intros ([p f] & -> & Hv%elem_of_walked). by exists p, f.
    - intros (p & f & Hv%elem_of_walked & ->). by exists (p, f). }
  split_and!; [done| |apply (StronglySorted_merge_sort plan_le)|].
  - rewrite merge_sort_Permutation, <-list_fmap_compose.
    pose proof (NoDup_fmap_2 (λ p, base +:+ "/" +:+ p) (walked_files m).*1) as Hnd.
    rewrite <-list_fmap_compose in Hnd. apply Hnd, walked_NoDup.
  - intros plan (p & f & [Hp _] & ->)%Hin. apply target_sanitized; [done..|]. by apply (Hm p f).
Qed.

(** C16. The plan for the files of an archive: it can be made exactly when every file
    that is not hidden lies at the root or below a section. It then has one write for
    each such file and no other, to the file's own path below the plugin's directory and
    executable or not as the file is; no two targets are the same; the manifest comes
    first, then the files by name; and every target is a path the local directory
    takes as it is, unless it ends in white space. *)
Theorem write_plan_spec (m : gmap string map_file) (bs : list string) :
  safe_keys m → bs ≠ [] → Forall name bs →
  let base := rel_path bs in
  (is_ok (buildWritePlan (walk_map m) base) = true ↔ ∀ p f, visible m p f → placeable_path p) ∧
  (∀ plans, buildWritePlan (walk_map m) base = Ok plans →
     (∀ plan, plan ∈ plans ↔ ∃ p f, visible m p f ∧ plan = plan_of base (p, f)) ∧
     NoDup (target <$> plans) ∧ StronglySorted plan_le plans ∧
     (∀ plan, plan ∈ plans → strings_TrimSpace (target plan) = target plan →
        sanitizeRelativePath (target plan) = Ok (target plan))).
Proof.
  intros Hm Hne Hbs base. split; [|intros plans; by apply plan_facts].
  destruct (write_plan_walked m bs Hne Hbs Hm) as [Hyes Hno]. fold base in Hyes, Hno.
  assert (Forall (λ kv, placeable_path kv.1) (walked_files m) ↔ ∀ p f, visible m p f → placeable_path p) as <-.
  { rewrite Forall_forall. split; [|intros H [p f] Hin; by apply (H p f), elem_of_walked].
    intros H p f Hv%elem_of_walked. by apply (H (p, f)). }
  destruct (decide (Forall (λ kv, placeable_path kv.1) (walked_files m))) as [Hpl|Hpl]; [by rewrite (Hyes Hpl)|].
  specialize (Hno Hpl). by destruct (buildWritePlan _ _).
Qed.

(** *** Sample archives *)

Definition sample_base := [".claude"; "plugins"; "git-tools"].
Definition some_file (perm : Z) : map_file := {| mfl_Dir := false; mfl_Perm := perm; mfl_Data := "" |}.

Definition sample_files : gmap string map_file :=
  <["skills/commit.md" := some_file 420]> (<["manifest.toml" := some_file 420]>
    (<["hooks/run.sh" := some_file 493]> ∅)).

Lemma sample_safe : safe_keys sample_files.
Proof.
  intros p f. unfold sample_files. rewrite !lookup_insert_Some, lookup_empty.
  intros [[<- _]|[_ [[<- _]|[_ [[<- _]|[_ ?]]]]]]; [..|done]; by apply isSafe_iff.
Qed.

Lemma sample_names : Forall name sample_base.
Proof. repeat (constructor; [by split_and!|]). constructor. Qed.

Lemma write_plan_spec_witness : ∃ plans,
  buildWritePlan (walk_map sample_files) (rel_path sample_base) = Ok plans ∧
  source <$> plans = ["manifest.toml"; "hooks/run.sh"; "skills/commit.md"] ∧
  mode <$> plans = [420; 493; 420]%Z ∧ NoDup (target <$> plans) ∧ StronglySorted plan_le plans.
Proof.
  eexists. split; [vm_compute; reflexivity|]. split; [reflexivity|]. split; [reflexivity|].
  destruct (write_plan_spec sample_files sample_base sample_safe) as [_ H]; [done|apply sample_names|].
  edestruct H as (_ & Hnd & Hs & _); [vm_compute; reflexivity|]. split; [exact Hnd|exact Hs].
Defined.

(** A file hides the files below its name: an archive with both opens, and only the
    first is planned. *)
Lemma hidden_file_not_planned :
  let files := [ZipSpec.plain_file "skills" "x"; ZipSpec.plain_file "skills/commit.md" "# x";
                ZipSpec.plain_file "manifest.toml" "[plugin]"] in
  match ZipReader.openFromZip (H := canonical_range) ZipSpec.sample_unmarshal (Some <$> files) 1000 with
  | Ok r => match buildWritePlan (walk_map (ZipReader.FS r)) (rel_path sample_base) with
            | Ok plans => source <$> plans = ["manifest.toml"; "skills"]
            | Err _ => False
            end
  | Err _ => False
  end.
Proof. vm_compute. reflexivity. Qed.

(** Two targets the plan keeps apart are the same file for the local directory, which
    trims the path. *)
Lemma trimmed_targets_meet :
  let m : gmap string map_file := <["skills/x" := some_file 420]> (<["skills/x " := some_file 420]> ∅) in
  match buildWritePlan (walk_map m) (rel_path sample_base) with
  | Ok plans => sanitizeRelativePath <$> (target <$> plans) =
                  [Ok ".claude/plugins/git-tools/skills/x"; Ok ".claude/plugins/git-tools/skills/x"]
  | Err _ => False
  end.
Proof. vm_compute. reflexivity. Qed.

(** ** Carrying a plan out *)

Definition copied (c : ctx) (plan : writePlan) (f : nat) : list ievent :=
  [Ev (FSOpen (source plan)) (Ok f); Ev (IPutFile c (target plan) (FromFile f) (mode plan)) (Ok ());
   Ev (FSClose f) (Ok ())].

(** Plans carried out one after the other. *)
Inductive copies (c : ctx) : list writePlan → list ievent → Prop :=
| copies_nil : copies c [] []
| copies_cons plan f plans t : copies c plans t → copies c (plan :: plans) (copied c plan f ++ t).

(** A plan that fails: the file cannot be opened; or it is, the write or the close
    fails, and it has been closed. *)
Inductive copy_fails (c : ctx) (plan : writePlan) : list ievent → error → Prop :=
| open_fails e :
    copy_fails c plan [Ev (FSOpen (source plan)) (Err e)] (layout_err "open" (source plan) e)
| put_fails f e closed :
    copy_fails c plan [Ev (FSOpen (source plan)) (Ok f);
                       Ev (IPutFile c (target plan) (FromFile f) (mode plan)) (Err e); Ev (FSClose f) closed]
      (layout_err "put" (target plan) e)
| close_fails f e :
    copy_fails c plan [Ev (FSOpen (source plan)) (Ok f);
                       Ev (IPutFile c (target plan) (FromFile f) (mode plan)) (Ok ()); Ev (FSClose f) (Err e)]
      (layout_err "close" (source plan) e).

Lemma write_plans_traces c plans t r :
  traces (write_plans c plans) t r →
  ∃ done rest t1 t2, plans = done ++ rest ∧ t = t1 ++ t2 ∧ copies c done t1 ∧
    match rest with
    | [] => t2 = [] ∧ r = Ok (target <$> plans)
    | plan :: _ => ∃ e, r = Err e ∧ copy_fails c plan t2 e
    end.
Proof.
  revert t r. induction plans as [|plan plans IH]; intros t r; cbn [write_plans]; intros H.
  { trace_step H. exists [], [], [], []. split_and!; try done. constructor. }
  trace_step H. destruct x as [f|e].
  2: { trace_step H. exists [], (plan :: plans), [], [Ev (FSOpen (source plan)) (Err e)].
       split_and!; [done|done|constructor|]. eexists. split; [done|constructor]. }
  trace_step H. trace_step H. destruct x as [[]|e].
  2: { destruct (x0) as [u|e']; trace_step H; (eexists [], (plan :: plans), [], _; split_and!; [done|done|constructor|]);
       eexists; (split; [done|constructor]). }
  destruct x0 as [[]|e].
  2: { trace_step H. eexists [], (plan :: plans), [], _. split_and!; [done|done|constructor|].
       eexists. split; [done|constructor]. }
  trace_step H. trace_step H. apply IH in Hsub as (dn & rest & t1 & t2 & -> & -> & Hc & Hrest).
  exists (plan :: dn), rest, (copied c plan f ++ t1), t2. rewrite app_nil_r. split_and!; [done|done|by constructor|].
  destruct rest as [|p rest]; [destruct Hrest as [-> ->]; by split|].
  destruct Hrest as (e & -> & Hf). by exists e.
Qed.

(** Looking for a file, which changes nothing. *)
Definition looks (e : ievent) : bool :=
  match e with Ev (IGetFile _ _) _ | Ev (ICloseReader _) _ => true | _ => false end.

(** Looking for [p] found that there is no such file. *)
Definition absent (c : ctx) (p : string) (e : ievent) : Prop :=
  ∃ err, e = Ev (IGetFile c p) (Err err) ∧ errors_Is err LocalDirOps.ErrNotExist = true.

Lemma path_occupied_traces c p t r :
  traces (pathOccupied c p) t r →
  Forall (λ e, looks e = true) t ∧ (r = Ok false → ∃ e, t = [e] ∧ absent c p e).
Proof.
  unfold pathOccupied. intros H. trace_step H. destruct x as [rc|e].
  - trace_step H. trace_step H. split; [by repeat constructor|done].
  - trace_step H. split; [by repeat constructor|]. destruct (errors_Is e LocalDirOps.ErrNotExist) eqn:He.
    + intros _. eexists. split; [done|]. by exists e.
    + by destruct (errors_Is e LocalDir.ErrNotARegularFile).
Qed.

Lemma ensure_free_traces c base t r :
  traces (ensureNoPluginNameCollision c base) t r →
  (Forall (λ e, looks e = true) t ∧ is_ok r = false) ∨
  (r = Ok () ∧ ∃ e1 e2, t = [e1; e2] ∧ absent c base e1 ∧ absent c (path_Join [base; manifestFile]) e2).
Proof.
  unfold ensureNoPluginNameCollision. intros H. trace_step H. apply path_occupied_traces in Hsub as [Hl1 Ha1].
  destruct a as [[]|e]; [trace_step H; left; by rewrite app_nil_r| |trace_step H; left; by rewrite app_nil_r].
  trace_step H. apply path_occupied_traces in Hsub as [Hl2 Ha2]. trace_step H. rewrite app_nil_r.
  destruct a as [[]|e]; [left|right|left].
  - split; [by apply Forall_app|done].
  - split; [done|]. destruct (Ha1 eq_refl) as (e1 & -> & H1), (Ha2 eq_refl) as (e2 & -> & H2). by exists e1, e2.
  - split; [by apply Forall_app|done].
Qed.

(** C17. Applying a plugin, whatever its files and the infrastructure answer: either
    nothing is opened or written and an error is returned; or the plugin's directory and
    its manifest were both found absent, a plan exists, and a part of it from its start
    was carried out in order, each file opened, written with its mode and closed. All of
    the plan was carried out exactly when the targets are returned; otherwise the next
    plan failed, with that error, and the file was closed if it had been opened. *)
Theorem apply_spec (c : ctx) (m : Manifest) (steps : list walk_step) (t : list ievent) (r : result (list string)) :
  traces (Apply c m steps) t r →
  (Forall (λ e, looks e = true) t ∧ is_ok r = false) ∨
  ∃ base plans e1 e2 done rest t1 t2,
    PluginDirectoryKey m = Ok base ∧ buildWritePlan steps base = Ok plans ∧ plans = done ++ rest ∧
    absent c base e1 ∧ absent c (path_Join [base; manifestFile]) e2 ∧
    t = e1 :: e2 :: t1 ++ t2 ∧ copies c done t1 ∧
    match rest with
    | [] => t2 = [] ∧ r = Ok (target <$> plans)
    | plan :: _ => ∃ e, r = Err e ∧ copy_fails c plan t2 e
    end.
Proof.
  unfold Apply. destruct (PluginDirectoryKey m) as [base|e]; intros H.
  2: { trace_step H. left. split; [constructor|done]. }
  trace_step H. apply ensure_free_traces in Hsub as [[Hl He]|(-> & e1 & e2 & -> & Ha1 & Ha2)].
  { destruct a as [?|e]; [done|]. trace_step H. left. by rewrite app_nil_r. }
  destruct (buildWritePlan steps base) as [plans|e] eqn:Hp.
  2: { trace_step H. left. split; [|done]. destruct Ha1 as (? & -> & _), Ha2 as (? & -> & _). by repeat constructor. }
  apply write_plans_traces in H as (dn & rest & t3 & t4 & Hpl & -> & Hc & Hrest). right.
  exists base, plans, e1, e2, dn, rest, t3, t4. by split_and!.
Qed.

(** A fresh directory, and a second write that fails. *)
Definition sample_answer (X : Type) (e : icall X) : X :=
  match e with
  | IGetFile _ _ => Err LocalDirOps.ErrNotExist
  | IPutFile _ p _ _ => if decide (p = ".claude/plugins/git-tools/manifest.toml") then Ok () else Err EOF
  | IExec _ _ => Err EOF
  | ICloseReader _ => Ok ()
  | FSOpen _ => Ok 1
  | FSClose _ => Ok ()
  | INow => 0%Z
  end.

Definition sample_apply (c : ctx) :=
  run (tracer sample_answer) (Apply c (ManifestSpec.sample_manifest "skills/commit.md" None) (walk_map sample_files)) [].

Lemma apply_spec_witness (c := CtxParent 0) :
  is_ok (sample_apply c).1 = false ∧
  ∃ base plans e1 e2 done rest t1 t2,
    PluginDirectoryKey (ManifestSpec.sample_manifest "skills/commit.md" None) = Ok base ∧
    buildWritePlan (walk_map sample_files) base = Ok plans ∧ plans = done ++ rest ∧
    absent c base e1 ∧ absent c (path_Join [base; manifestFile]) e2 ∧
    (sample_apply c).2 = e1 :: e2 :: t1 ++ t2 ∧ copies c done t1 ∧
    match rest with
    | [] => t2 = [] ∧ (sample_apply c).1 = Ok (target <$> plans)
    | plan :: _ => ∃ e, (sample_apply c).1 = Err e ∧ copy_fails c plan t2 e
    end.
Proof.
  split; [reflexivity|].
  destruct (apply_spec c (ManifestSpec.sample_manifest "skills/commit.md" None) (walk_map sample_files)
    (sample_apply c).2 (sample_apply c).1) as [[Hl _]|H]; [| |exact H].
  - apply (run_tracer sample_answer). apply surjective_pairing.
  - exfalso. assert (Forall (λ e, looks e = true) (drop 2 (sample_apply c).2)) as Hl2 by (by apply Forall_drop).
    vm_compute in Hl2. by inversion Hl2.
Defined.
End ClaudePlan.
