(* ===== verification/PluginPlacement.v ===== *)
(** * Placing a plugin in a local directory

    The layout of the Claude Code agent writes through the InfraOps interface; behind it
    is the local directory, whose methods are procedures of their own. Here the two are
    put together: each call of [Apply] runs the method of [LocalDirOps] behind it over
    the files of [LocalDirFiles], and the files of the archive are opened and read.
    [apply_places]: the files of the archive arrive complete, or not at all, wherever the
    install fails or is cut off, and no other file changes. Archives that open have safe
    names ([ZipSpec.opened_safe]); that their files have places of their own is a
    hypothesis ([trimmed], [apart]), which a directory without symbolic links meets. *)

From S2P Require Import Prelude GoString GoError GoValue GoPath GoFilepath WorkspaceTypes PluginTypes Manifest Proc WorkspaceWorld.
From S2P Require Import ZipReader ZipSpec LocalDir LocalDirSpec LocalDirOps LocalDirFiles ClaudeLayout ClaudeLayoutSpec ClaudePlanSpec.
From stdpp Require Import options.
Set Default Proof Using "Type*".

Module PluginPlacement.
Import LocalDir Directories LocalDirOps LocalDirFiles ClaudeLayout PluginNames ClaudePlan.

(** ** The interface and what is behind it *)

(** The calls of the local directory, and those on readers: files of the archive, and
    bytes handed over as they are. *)
Inductive pcall : Type → Type :=
| OnFiles {X} (e : fcall X) : pcall X
| ArchiveOpen (path : string) : pcall (result nat)
| ArchiveClose (f : nat) : pcall (result unit)
| BytesReader (s : string) : pcall nat.

Section backend.
Variable o : LocalDir.options.

Definition on_files {A} (p : fproc A) : proc pcall A := interp (λ X (e : fcall X), call (OnFiles e)) p.

(** A reader of the infrastructure is known by its file. *)
Definition backend (X : Type) (e : icall X) : proc pcall X :=
  match e with
  | IGetFile c path => got ← on_files (GetFile (Some c) path); mret match got with Ok rd => Ok (rc_file rd) | Err e => Err e end
  | IPutFile c path (FromFile f) mode => on_files (PutFile o (Some c) path (Some f) mode)
  | IPutFile c path (FromBytes s) mode => n ← call (BytesReader s); on_files (PutFile o (Some c) path (Some n) mode)
  | IExec c cmd => on_files (Exec o (Some c) cmd)
  | ICloseReader rc => on_files (call (FileClose rc))
  | FSOpen path => call (ArchiveOpen path)
  | FSClose f => call (ArchiveClose f)
  | INow => on_files (call Now)
  end.

(** ** The files and the readers *)

Record world := { w_fs : fs; w_readers : gmap nat string }.

Section answers.
Variable real : string → string.       (* where a path of a directory leads, links followed *)
Variable m : gmap string map_file.      (* the archive *)
Variable removable : bool.

Definition reads_as (w : world) (n : nat) : string := default "" (w_readers w !! n).

Definition opens (w : world) (n : nat) (s : string) (w' : world) : Prop :=
  w_readers w !! n = None ∧ w' = {| w_fs := w_fs w; w_readers := <[n := s]> (w_readers w) |}.

Definition world_answers : answers pcall world := λ X e w,
  match e in pcall X return X → world → Prop with
  | OnFiles e => λ x w', file_answers real (reads_as w) removable _ e (w_fs w) x (w_fs w') ∧ w_readers w' = w_readers w
  | ArchiveOpen path => λ x w',
      match x with
      | Ok f => ∃ file, m !! path = Some file ∧ opens w f (mfl_Data file) w'
      | Err _ => w' = w
      end
  | ArchiveClose f => λ _ w', w' = {| w_fs := w_fs w; w_readers := delete f (w_readers w) |}
  | BytesReader s => λ n w', opens w n s w'
  end.

(** A method of the local directory, run among the readers. *)
Lemma safe_on_files (I : fs → Prop) (J : world → Prop) {A} (p : fproc A) w Post :
  (∀ s, I s → J {| w_fs := s; w_readers := w_readers w |}) →
  safe (file_answers real (reads_as w) removable) I p (w_fs w) Post →
  safe world_answers J (on_files p) w (λ a w', w_readers w' = w_readers w ∧ Post a (w_fs w')).
Proof.
  intros HJ. destruct w as [s rs]. simpl in *. revert s HJ. induction p as [a|X e k IH]; intros s HJ [HI Hk].
  - split; [by apply HJ|done].
  - split; [by apply HJ|]. intros x [s1 rs1] [Hx Hrs]. simpl in Hrs. subst rs1. by apply (IH x s1 HJ), Hk.
Qed.
End answers.
End backend.

(** ** Where plugins go *)

Lemma slug_name n : slug n → name n.
Proof.
  intros [Hw _]. split.
  - split_and!; intros ->; done.
  - apply words_chars in Hw. unfold no_slash. induction n as [|c n IH]; [done|]. simpl in *.
    apply andb_true_iff in Hw as [Hc Hn]. rewrite IH by done.
    destruct (decide (c = slash)) as [->|Hne]; [by vm_compute in Hc|]. by rewrite bool_decide_false.
Qed.

Lemma base_names mf base : PluginDirectoryKey mf = Ok base →
  ∃ bs, bs ≠ [] ∧ Forall name bs ∧ base = rel_path bs.
Proof.
  intros (n & Hs%slug_name & _ & ->)%plugin_dir_name. exists [".claude"; "plugins"; n].
  assert (Forall name [".claude"; "plugins"; n]) as Hn by (do 2 (constructor; [by split_and!|]); constructor; [done|constructor]).
  split_and!; [done|done|]. unfold plugin_base, path_Join.
  assert (n ≠ "") as Hne by (by destruct Hs as [(? & _) _]).
  rewrite !filter_cons_True by done. change (strings_Join _ _) with (rel_path [".claude"; "plugins"; n]).
  by rewrite Clean_rel; rewrite ?elements_rel; try apply rel_path_not_abs.
Qed.

(** ** The invariant *)

Section placing.
Variable real : string → string.
Variable m : gmap string map_file.
Variable removable : bool.
Variable plans : list writePlan.
Variable s0 : fs.

(** The entry a plan writes. *)
Definition spot (plan : writePlan) : location := place real (target plan).

Definition plan_data (plan : writePlan) : string := default "" (mfl_Data <$> m !! source plan).

(** Entries that are not those of temporary files. *)
Definition enduring (l : location) : Prop :=
  is_Some (names s0 !! l) ∨ ∀ plan now id, plan ∈ plans → l ≠ place real (tempSiblingPath (target plan) now id).

(** What can be found on the way: at every such entry the file of before, or the complete
    file of the plan. *)
Definition intact (w : world) : Prop :=
  ∀ l, enduring l → read (w_fs w) l = read s0 l ∨
    ∃ plan, plan ∈ plans ∧ l = spot plan ∧ read (w_fs w) l = whole (plan_data plan).

(** The plans [dn] have been carried out, and nothing else has happened. *)
Record placed (dn : list writePlan) (s : fs) : Prop := {
  pl_ok : names_ok s;
  pl_read : ∀ plan, plan ∈ dn → read s (spot plan) = whole (plan_data plan);
  pl_other : ∀ l, l ∉ spot <$> dn → read s l = read s0 l;
  pl_names : ∀ l, is_Some (names s0 !! l) → is_Some (names s !! l);
}.

Lemma placed_intact dn w : dn ⊆ plans → placed dn (w_fs w) → intact w.
Proof.
  intros Hdn [_ Hr Ho _] q _. destruct (decide (q ∈ spot <$> dn)) as [Hq|Hq]; [right|left; by apply Ho].
  apply list_elem_of_fmap in Hq as (plan & -> & Hp). exists plan. split_and!; [by apply Hdn|done|by apply Hr].
Qed.

Lemma placed_nil : names_ok s0 → placed [] s0.
Proof. intros H. split; [done|intros ? []%not_elem_of_nil|done|done]. Qed.

(** States that differ in what is open, in the directories and in what the disk may have. *)
Definition same_files (s s' : fs) : Prop := names s' = names s ∧ data s' = data s ∧ synced s' = synced s.

Lemma same_files_read s s' q : same_files s s' → read s' q = read s q.
Proof. intros (Hn & Hd & Hs). unfold read, node_at. by rewrite Hn, Hd, Hs. Qed.

Lemma placed_same dn s s' : same_files s s' → placed dn s → placed dn s'.
Proof.
  intros Hs [Hok Hr Ho Hn]. pose proof (same_files_read s s') as Hread. destruct Hs as (En & Ed & Es). split.
  - intros p i. rewrite En, Ed. apply Hok.
  - intros plan Hp. rewrite Hread by done. by apply Hr.
  - intros q Hq. rewrite Hread by done. by apply Ho.
  - intros q Hq. rewrite En. by apply Hn.
Qed.

(** ** One file *)

Variable dn : list writePlan.
Variable plan : writePlan.
Hypothesis Hplan : plan ∈ plans.
Hypothesis Hdn : dn ⊆ plans.
Hypothesis Hnew : spot plan ∉ spot <$> dn.
Hypothesis Hclean : sanitizeRelativePath (target plan) = Ok (target plan).

(** A write on its way, seen from before the first one. *)
Lemma phase_intact w n s :
  placed dn (w_fs w) → reads_as w n = plan_data plan →
  phase real (reads_as w) (w_fs w) (target plan) n s → intact {| w_fs := s; w_readers := w_readers w |}.
Proof.
  intros Hp Hn Hph q Hq. simpl. destruct (decide (q = spot plan)) as [->|Hne].
  - change (spot plan) with (place real (target plan)).
    destruct (phase_target _ _ _ _ _ _ (pl_ok _ _ Hp) Hph) as [->| ->].
    + left. by apply (pl_other _ _ Hp).
    + right. exists plan. unfold whole. by rewrite Hn.
  - assert (read s q = read (w_fs w) q) as ->.
    { eapply phase_lasting; [by apply (pl_ok _ _ Hp)|done|done|].
      destruct Hq as [Hq|Hq]; [left; by apply (pl_names _ _ Hp)|right; intros now id; by apply Hq]. }
    by apply (placed_intact dn w Hdn Hp).
Qed.

Lemma untouched_placed s s' : untouched real s (target plan) s' → placed dn s → placed dn s'.
Proof.
  intros [Hk Hn] [Hok Hr Ho Hns].
  assert (∀ q, read s' q = read s q) as Hread by (intros q; apply (same_name_read real s (target plan)); [done|done|by rewrite Hn]).
  split.
  - intros p i. rewrite Hn. intros Hi. destruct (Hok p i Hi) as [d Hd]. destruct (proj1 Hk i) as [-> _]; [by eexists|by eexists].
  - intros pl Hp. rewrite Hread. by apply Hr.
  - intros q Hq. rewrite Hread. by apply Ho.
  - intros q Hq. rewrite Hn. by apply Hns.
Qed.

Lemma published_placed bytes n s s' :
  bytes n = plan_data plan → published real bytes s (target plan) n s' → placed dn s → placed (dn ++ [plan]) s'.
Proof.
  intros Hb Hpub [Hok Hr Ho Hns]. pose proof (published_read _ _ _ _ _ _ Hpub) as Ht. destruct Hpub as (i & Hk & Hi & Hn & Hd & _).
  fold (spot plan) in *.
  assert (∀ q, q ≠ spot plan → read s' q = read s q) as Hread.
  { intros q Hq. apply (same_name_read real s (target plan)); [done|done|]. by rewrite Hn, lookup_insert_ne. }
  split.
  - intros p j. rewrite Hn. intros [[<- <-]|[_ Hj]]%lookup_insert_Some; [by eexists|].
    destruct (Hok p j Hj) as [d Hdj]. destruct (proj1 Hk j) as [-> _]; [by eexists|by eexists].
  - intros pl [Hp|E%list_elem_of_singleton]%elem_of_app; [|by rewrite E, Ht, Hb].
    rewrite Hread; [by apply Hr|]. intros E. apply Hnew, list_elem_of_fmap. by exists pl.
  - intros q. rewrite fmap_app, not_elem_of_app. simpl. intros [Hq Hq']. rewrite Hread by (intros ->; apply Hq'; by left). by apply Ho.
  - intros q Hq. rewrite Hn. destruct (decide (q = spot plan)) as [->|Hne]; [rewrite lookup_insert_eq; by eexists|].
    rewrite lookup_insert_ne by done. by apply Hns.
Qed.
End placing.

(** ** The calls of the layout *)

Section calls.
Variable o : LocalDir.options.
Variable real : string → string.
Variable m : gmap string map_file.
Variable removable : bool.
Variable plans : list writePlan.
Variable s0 : fs.

Local Abbreviation safely := (safe (world_answers real m removable) (intact real m plans s0)).
Local Abbreviation placed := (placed real m s0).
Local Abbreviation intact := (intact real m plans s0).

(** Where a failure may leave things, if the system removes what it is asked to. *)
Definition settled (w : world) : Prop := removable = true → ∃ k, placed (take k plans) (w_fs w).

Lemma put_safe dn plan rest c f w :
  plans = dn ++ plan :: rest → NoDup (spot real <$> plans) → sanitizeRelativePath (target plan) = Ok (target plan) →
  placed dn (w_fs w) → w_readers w !! f = Some (plan_data m plan) →
  safely (backend o _ (IPutFile c (target plan) (FromFile f) (mode plan))) w
    (λ r w', match r with Ok _ => placed (dn ++ [plan]) (w_fs w') | Err _ => intact w' ∧ settled w' end).
Proof.
  intros Hpl Hnd Hclean Hp Hf. cbn [backend].
  assert (reads_as w f = plan_data m plan) as Hr by (unfold reads_as; by rewrite Hf).
  assert (plan ∈ plans) as Hin by (rewrite Hpl; apply elem_of_app; right; by left).
  assert (dn ⊆ plans) as Hdn by (rewrite Hpl; intros x Hx; apply elem_of_app; by left).
  assert (spot real plan ∉ spot real <$> dn) as Hnew.
  { rewrite Hpl, fmap_app in Hnd. apply NoDup_app in Hnd as (_ & Hd & _). intros H. apply (Hd _ H). by left. }
  assert (take (length dn) plans = dn ∧ take (S (length dn)) plans = dn ++ [plan]) as [Hk Hk1].
  { rewrite Hpl. split; [by rewrite take_app_length|].
    change (S (length dn)) with (1 + length dn). by rewrite Nat.add_comm, take_app_add. }
  assert (∀ s, phase real (reads_as w) (w_fs w) (target plan) f s → intact {| w_fs := s; w_readers := w_readers w |}) as Hint
    by (intros s; by eapply phase_intact).
  eapply safe_mono; [|eapply safe_on_files; [exact Hint|by apply (PutFile_safe real (reads_as w) removable (w_fs w))]].
  intros [u|e] w' Hw' [Hrs Hend]; simpl in Hend.
  - destruct Hend as [Hpub _]. by eapply published_placed.
  - destruct Hend as [Hph Hend]. split; [done|].
    intros Hrm. destruct (Hend Hrm) as [Hu|Hpub].
    + exists (length dn). rewrite Hk. by eapply untouched_placed.
    + exists (S (length dn)). rewrite Hk1. by eapply published_placed.
Qed.

(** Calls that leave the files alone. *)
Lemma same_files_refl s : same_files s s.
Proof. done. Qed.

Lemma opened_same s h p s' : opened real s h p s' → same_files s s'.
Proof.
  unfold opened. intros H. destruct (names s !! _) as [i|], (lstat real s p) as [[]|]; try (by subst);
    (case_decide; [by subst|by destruct H as (_ & j & _ & ->)]).
Qed.

Lemma get_same bytes c path s :
  safe (file_answers real bytes removable) (same_files s) (GetFile c path) s (λ _ s', same_files s s').
Proof.
  unfold GetFile, with_root. apply safe_call_bind; [done|]. intros [r|e] s1; cbn [file_answers]; [|intros ->; done].
  intros ->. apply safe_deferred.
  assert (∀ s1 (out : result ctxReadCloser), same_files s s1 → safe (file_answers real bytes removable) (same_files s) (call Release) s1
    (λ _ s2, same_files s s2)) as Hrel by (intros s1 out H1; split; [done|]; by intros u s2 ->).
  assert (∀ s1 (out : result ctxReadCloser), same_files s s1 → safe (file_answers real bytes removable) (same_files s) (mret out) s1
    (λ a s2, safe (file_answers real bytes removable) (same_files s) (call Release) s2 (λ _ s3, same_files s s3))) as Hret
    by (intros s1 out H1; apply safe_mret; [done|]; by apply (Hrel s1 out)).
  unfold get_in. destruct (sanitizeRelativePath path); [|by apply Hret].
  apply safe_call_bind; [done|]. intros [h|e] s1; cbn [file_answers]; [|intros ->; by apply Hret].
  intros (_ & _ & Ho). assert (same_files s s1) as Hs1 by (by eapply opened_same). clear Ho.
  apply safe_call_bind; [done|]. intros [info|e] s2; cbn [file_answers]; intros ->.
  - case_decide; [|by apply Hret]. apply safe_call_bind; [done|]. intros x s2 ->. by apply Hret.
  - apply safe_call_bind; [done|]. intros x s2 ->. by apply Hret.
Qed.

Lemma same_intact w s : placed [] (w_fs w) → same_files (w_fs w) s → intact {| w_fs := s; w_readers := w_readers w |}.
Proof. intros Hp Hs. eapply (placed_intact _ _ _ _ []); [set_solver|]. by eapply placed_same. Qed.

Lemma get_safe c path w : placed [] (w_fs w) →
  safely (backend o _ (IGetFile c path)) w (λ _ w', placed [] (w_fs w')).
Proof.
  intros Hp. cbn [backend]. apply safe_bind.
  eapply safe_mono; [|eapply (safe_on_files _ _ _ (same_files (w_fs w))); [exact (λ s, same_intact w s Hp)|apply get_same]].
  intros out w' Hw' [_ Hs]. apply safe_mret; [done|]. by eapply placed_same.
Qed.

Lemma close_safe rc w : placed [] (w_fs w) →
  safely (backend o _ (ICloseReader rc)) w (λ _ w', placed [] (w_fs w')).
Proof.
  intros Hp. cbn [backend].
  eapply safe_mono; [|eapply (safe_on_files _ _ _ (same_files (w_fs w)) _ _ _ (λ _ s, same_files (w_fs w) s));
    [exact (λ s, same_intact w s Hp)|]].
  - intros u w' Hw' [_ Hs]. by eapply placed_same.
  - split; [done|]. by intros x s ->.
Qed.

Lemma occupied_safe c p w : placed [] (w_fs w) →
  safely (interp (backend o) (pathOccupied c p)) w (λ _ w', placed [] (w_fs w')).
Proof.
  intros Hp. apply safe_interp_call. eapply safe_mono; [|by apply get_safe].
  intros [rc|e] w1 Hw1 Hp1; [|apply safe_mret; [done|done]].
  apply safe_interp_call. eapply safe_mono; [|by apply close_safe]. intros u w2 Hw2 Hp2. by apply safe_mret.
Qed.

Lemma free_safe c base w : placed [] (w_fs w) →
  safely (interp (backend o) (ensureNoPluginNameCollision c base)) w (λ _ w', placed [] (w_fs w')).
Proof.
  intros Hp. apply safe_interp_bind. eapply safe_mono; [|by apply occupied_safe].
  intros [[]|e] w1 Hw1 Hp1; try by apply safe_mret.
  apply safe_interp_bind. eapply safe_mono; [|by apply occupied_safe]. intros out w2 Hw2 Hp2. by apply safe_mret.
Qed.
End calls.

(** ** All of it *)

Section install.
Variable o : LocalDir.options.
Variable real : string → string.
Variable m : gmap string map_file.
Variable removable : bool.
Variable plans : list writePlan.
Variable s0 : fs.
Hypothesis Hnodup : NoDup (spot real <$> plans).
Hypothesis Hclean : ∀ plan, plan ∈ plans → sanitizeRelativePath (target plan) = Ok (target plan).

Local Abbreviation safely := (safe (world_answers real m removable) (intact real m plans s0)).
Local Abbreviation placed := (placed real m s0).

Lemma settled_at dn rest w : plans = dn ++ rest → placed dn (w_fs w) → settled real m removable plans s0 w.
Proof. intros -> Hp _. exists (length dn). by rewrite take_app_length. Qed.

Lemma write_plans_safe c rest : ∀ dn w,
  plans = dn ++ rest → placed dn (w_fs w) →
  safely (interp (backend o) (write_plans c rest)) w
    (λ r w', match r with Ok _ => placed plans (w_fs w') | Err _ => settled real m removable plans s0 w' end).
Proof.
  induction rest as [|plan rest IH]; intros dn w Hpl Hp.
  all: assert (∀ w', w_fs w' = w_fs w → intact real m plans s0 w') as Hint.
  1, 3: intros w' Hw; apply (placed_intact _ _ _ _ dn); [|by rewrite Hw];
    rewrite Hpl; intros x Hx; apply elem_of_app; by left.
  { rewrite app_nil_r in Hpl. subst dn. apply safe_mret; auto. }
  cbn [write_plans]. apply safe_interp_call. split; [by apply Hint|]. intros [f|e] w1; cbn [world_answers].
  2: { intros ->. do 2 (apply safe_mret; [by apply Hint|]). by eapply settled_at. }
  intros (file & Hfile & _ & ->). apply safe_mret; [by apply Hint|].
  apply safe_interp_call. eapply safe_mono; [|apply (put_safe _ _ _ _ _ _ dn plan rest); [done|done| |done|]].
  2: { apply Hclean. rewrite Hpl. apply elem_of_app. right. by left. }
  2: { simpl. rewrite lookup_insert_eq. unfold plan_data. by rewrite Hfile. }
  intros put w2 Hw2 Hput. apply safe_interp_call. split; [done|]. intros closed w3 ->.
  apply safe_mret; [exact Hw2|]. destruct put as [u|e].
  2: { apply safe_mret; [exact Hw2|]. exact (proj2 Hput). }
  assert (plans = (dn ++ [plan]) ++ rest) as Hpl1 by (by rewrite <-(assoc_L (++))).
  destruct closed as [v|e]; [|apply safe_mret; [exact Hw2|]; by eapply settled_at].
  apply safe_interp_bind. eapply safe_mono; [|by apply (IH (dn ++ [plan]))].
  intros [ts|e] w4 Hw4 Hts; by apply safe_mret.
Qed.

Lemma apply_safe c mf steps w :
  (∀ base ps, PluginDirectoryKey mf = Ok base → buildWritePlan steps base = Ok ps → ps = plans) →
  placed [] (w_fs w) →
  safely (interp (backend o) (Apply c mf steps)) w
    (λ r w', match r with
             | Ok _ => placed plans (w_fs w') ∧
                       ∃ base, PluginDirectoryKey mf = Ok base ∧ buildWritePlan steps base = Ok plans
             | Err _ => settled real m removable plans s0 w'
             end).
Proof.
  intros Hps Hp.
  assert (∀ w', placed [] (w_fs w') → intact real m plans s0 w') as Hint by (intros w'; apply placed_intact; clear; set_solver).
  assert (∀ w' (e : error), placed [] (w_fs w') → safely (mret (Err e) : proc pcall (result (list string))) w'
    (λ r w', match r with
             | Ok _ => placed plans (w_fs w') ∧
                       ∃ base, PluginDirectoryKey mf = Ok base ∧ buildWritePlan steps base = Ok plans
             | Err _ => settled real m removable plans s0 w'
             end)) as Hfail.
  { intros w' e Hw. apply safe_mret; [by apply Hint|]. by apply (settled_at [] plans). }
  unfold Apply. destruct (PluginDirectoryKey mf) as [base|e] eqn:Hbase; [|by apply Hfail].
  apply safe_interp_bind. eapply safe_mono; [|by apply free_safe].
  intros [u|e] w1 Hw1 Hp1; [|by apply Hfail].
  destruct (buildWritePlan steps base) as [ps|e] eqn:Hbuild; [|by apply Hfail].
  specialize (Hps base ps eq_refl Hbuild). subst ps.
  eapply safe_mono; [|by apply (write_plans_safe c plans [])]. intros [ts|e] w2 Hw2 Hts; [|done].
  split; [done|]. by exists base.
Qed.
End install.

(** ** Places of the files *)

(** The file [p] of the archive has arrived, whole and on disk, at the entry [l]. *)
Definition arrived (real : string → string) (m : gmap string map_file) (mf : Manifest) (s : fs) (l : location) : Prop :=
  ∃ base p f, PluginDirectoryKey mf = Ok base ∧ visible m p f ∧ l = place real (base +:+ "/" +:+ p) ∧
    read s l = whole (mfl_Data f).

(** The entry of a temporary file of one of the files. *)
Definition temp_spot (real : string → string) (m : gmap string map_file) (mf : Manifest) (l : location) : Prop :=
  ∃ base p f now id, PluginDirectoryKey mf = Ok base ∧ visible m p f ∧
    l = place real (tempSiblingPath (base +:+ "/" +:+ p) now id).

(** No path of the plugin ends in white space, which the local directory would drop. *)
Definition trimmed (m : gmap string map_file) (mf : Manifest) : Prop :=
  ∀ base p f, PluginDirectoryKey mf = Ok base → visible m p f →
    strings_TrimSpace (base +:+ "/" +:+ p) = base +:+ "/" +:+ p.

(** No symbolic link takes two files of the plugin to one place. *)
Definition apart (real : string → string) (m : gmap string map_file) (mf : Manifest) : Prop :=
  ∀ base p f p' f', PluginDirectoryKey mf = Ok base → visible m p f → visible m p' f' →
    place real (base +:+ "/" +:+ p) = place real (base +:+ "/" +:+ p') → p = p'.

Lemma sanitized_parts q q' path path' :
  sanitizeRelativePath path = Ok q → sanitizeRelativePath path' = Ok q' →
  filepath_Dir q = filepath_Dir q' → filepath_Base q = filepath_Base q' → q = q'.
Proof.
  assert (∀ segs s, Forall name (segs ++ [s]) → filepath_Base (rel_path (segs ++ [s])) ≠ filepath_Base (rel_path [])) as Hroot.
  { intros segs s [H [Hs _]%Forall_cons]%Forall_app. rewrite Base_rel_path by done. intros E.
    destruct Hs as [(_ & Hd & _) _]. by apply Hd. }
  intros (segs & H & ->)%sanitize_names (segs' & H' & ->)%sanitize_names Ed Eb.
  destruct segs as [|s segs _] using rev_ind; destruct segs' as [|s' segs' _] using rev_ind; [done|..].
  - symmetry in Eb. by apply Hroot in Eb.
  - by apply Hroot in Eb.
  - apply Forall_app in H as [H [Hs _]%Forall_cons], H' as [H' [Hs' _]%Forall_cons].
    rewrite !Dir_rel_path in Ed by done. rewrite !Base_rel_path in Eb by done. apply rel_path_inj in Ed; [|done..]. by subst.
Qed.

(** Without links that lead to one directory, every file has a place of its own. *)
Lemma straight_apart real m mf :
  (∀ d d', real d = real d' → d = d') → safe_keys m → trimmed m mf → apart real m mf.
Proof.
  intros Hreal Hm Ht base p f p' f' Hkey Hv Hv' [= Ed Eb]. apply Hreal in Ed.
  destruct (base_names mf base Hkey) as (bs & Hne & Hbs & ->).
  assert (∀ p f, visible m p f → sanitizeRelativePath (rel_path bs +:+ "/" +:+ p) = Ok (rel_path bs +:+ "/" +:+ p)) as Hs.
  { intros p1 f1 Hv1. apply target_sanitized; [done|done|by destruct Hv1 as [? _]; eapply Hm|by eapply Ht]. }
  pose proof (sanitized_parts _ _ _ _ (Hs _ _ Hv) (Hs _ _ Hv') Ed Eb) as E. by simplify_eq.
Qed.

Lemma NoDup_image {A B C} (f : A → B) (g : A → C) l :
  NoDup (f <$> l) → (∀ x y, x ∈ l → y ∈ l → g x = g y → f x = f y) → NoDup (g <$> l).
Proof.
  induction l as [|x l IH]; [constructor|]. intros [Hx Hl]%NoDup_cons Hfg. apply NoDup_cons. split.
  - intros (y & E & Hy)%list_elem_of_fmap. apply Hx, list_elem_of_fmap. exists y. split; [|done].
    apply Hfg; [by left|by right|done].
  - apply IH; [done|]. intros y z Hy Hz. apply Hfg; by right.
Qed.

Lemma plan_places real m mf bs plans :
  safe_keys m → trimmed m mf → apart real m mf → bs ≠ [] → Forall name bs → PluginDirectoryKey mf = Ok (rel_path bs) →
  buildWritePlan (walk_map m) (rel_path bs) = Ok plans →
  NoDup (spot real <$> plans) ∧ (∀ plan, plan ∈ plans → sanitizeRelativePath (target plan) = Ok (target plan)) ∧
  (∀ plan, plan ∈ plans ↔ ∃ p f, visible m p f ∧ plan = plan_of (rel_path bs) (p, f)) ∧
  (∀ p f, plan_data m (plan_of (rel_path bs) (p, f)) = default "" (mfl_Data <$> m !! p)).
Proof.
  intros Hm Ht Ha Hne Hbs Hkey Hp. destruct (plan_facts m bs plans Hm Hne Hbs Hp) as (Hin & Hnd & _ & Hs).
  split_and!; [| |done|done].
  - eapply NoDup_image; [exact Hnd|]. intros x y (p & f & Hv & ->)%Hin (p' & f' & Hv' & ->)%Hin E.
    apply (Ha _ p f p' f') in E; [by subst|done..].
  - intros plan Hplan. apply Hs; [done|]. apply Hin in Hplan as (p & f & Hv & ->). by apply (Ht _ p f).
Qed.

Lemma elem_of_start {A} k (l : list A) x : x ∈ take k l → x ∈ l.
Proof. intros H. rewrite <-(take_drop k l). apply elem_of_app. by left. Qed.

Lemma places_data m p f : visible m p f → default "" (mfl_Data <$> m !! p) = mfl_Data f.
Proof. by intros [-> _]. Qed.

(** The plans the install carries out, none when it refuses. *)
Definition install_plans (m : gmap string map_file) (mf : Manifest) : list writePlan :=
  match PluginDirectoryKey mf with
  | Ok base => match buildWritePlan (walk_map m) base with Ok ps => ps | Err _ => [] end
  | Err _ => []
  end.

Lemma install_plans_facts real m mf :
  safe_keys m → trimmed m mf → apart real m mf →
  let plans := install_plans m mf in
  NoDup (spot real <$> plans) ∧ (∀ plan, plan ∈ plans → sanitizeRelativePath (target plan) = Ok (target plan)) ∧
  ∀ plan, plan ∈ plans → ∃ base p f, PluginDirectoryKey mf = Ok base ∧ visible m p f ∧ target plan = base +:+ "/" +:+ p ∧
    plan_data m plan = mfl_Data f.
Proof.
  intros Hm Ht Ha plans. subst plans. unfold install_plans.
  destruct (PluginDirectoryKey mf) as [base|e] eqn:Hkey; [|by split_and!; [constructor|intros ? []%not_elem_of_nil..]].
  destruct (buildWritePlan (walk_map m) base) as [ps|e] eqn:Hp; [|by split_and!; [constructor|intros ? []%not_elem_of_nil..]].
  destruct (base_names mf base Hkey) as (bs & Hne & Hbs & ->).
  destruct (plan_places real m mf bs ps Hm Ht Ha Hne Hbs Hkey Hp) as (Hnd & Hs & Hin & Hd). split_and!; [done|done|].
  intros plan (p & f & Hv & ->)%Hin. exists (rel_path bs), p, f. split_and!; try done. rewrite Hd. by apply places_data.
Qed.

(** ** The theorem *)

(** C9. Placing the files of an archive in a local directory, whatever the calls of the
    operating system answer. Assumed: no path of the plugin ends in white space ([trimmed];
    the local directory drops it, so that two files could meet), no symbolic link below the
    root takes two of its files to one place ([apart]; without links it holds,
    [straight_apart]), and others leave the tree alone. At any moment, also if the process
    is killed there, every entry reads as before or is the place of a file of the archive
    and reads as that file, all of it and on disk; only entries with the name of a temporary
    file of one of the targets, where nothing was before, may hold something else. When the
    targets are returned, every file the walk reports has arrived at its own path below the
    plugin's directory and nothing else has changed; when an error is returned, that is to
    say the process was not killed, no temporary file is left either, as long as the system
    removes what it is asked to. *)
Theorem apply_places (o : LocalDir.options) (real : string → string) (m : gmap string map_file) (removable : bool)
    (c : ctx) (mf : Manifest) (w0 : world) :
  safe_keys m → names_ok (w_fs w0) → trimmed m mf → apart real m mf →
  let placing := interp (backend o) (Apply c mf (walk_map m)) in
  let around := world_answers real m removable in
  let s0 := w_fs w0 in
  (∀ w l, passes around placing w0 w → is_Some (names s0 !! l) ∨ ¬ temp_spot real m mf l →
     read (w_fs w) l = read s0 l ∨ arrived real m mf (w_fs w) l) ∧
  (∀ ts w, execs around placing w0 (Ok ts) w →
     ∃ base, PluginDirectoryKey mf = Ok base ∧
       (∀ p f, visible m p f → read (w_fs w) (place real (base +:+ "/" +:+ p)) = whole (mfl_Data f)) ∧
       (∀ l, (∀ p f, visible m p f → l ≠ place real (base +:+ "/" +:+ p)) → read (w_fs w) l = read s0 l)) ∧
  (∀ e w l, removable = true → execs around placing w0 (Err e) w →
     read (w_fs w) l = read s0 l ∨ arrived real m mf (w_fs w) l).
Proof.
  intros Hm Hok Ht Ha placing around s0. set (plans := install_plans m mf).
  destruct (install_plans_facts real m mf Hm Ht Ha) as (Hnd & Hclean & Hin). fold plans in Hnd, Hclean, Hin.
  assert (∀ base ps, PluginDirectoryKey mf = Ok base → buildWritePlan (walk_map m) base = Ok ps → ps = plans) as Hps
    by (intros base ps E1 E2; unfold plans, install_plans; by rewrite E1, E2).
  pose proof (apply_safe o real m removable plans s0 Hnd Hclean c mf (walk_map m) w0 Hps (placed_nil real m s0 Hok)) as Hsafe.
  assert (∀ w plan, plan ∈ plans → read (w_fs w) (spot real plan) = whole (plan_data m plan) →
    arrived real m mf (w_fs w) (spot real plan)) as Harr.
  { intros w plan Hp Hr. destruct (Hin plan Hp) as (base & p & f & Hb & Hv & Htg & Hd). exists base, p, f.
    unfold spot in *. by rewrite Hr, Hd, Htg. }
  split_and!.
  - intros w l Hw Hl. apply (safe_passes _ _ _ _ _ _ Hsafe) in Hw.
    destruct (Hw l) as [?|(plan & Hp & -> & Hr)]; [|by left|right; by apply Harr].
    destruct Hl as [Hl|Hl]; [by left|right]. intros plan now id Hp ->. apply Hl.
    destruct (Hin plan Hp) as (base & p & f & Hb & Hv & Htg & Hd). exists base, p, f, now, id. by rewrite Htg.
  - intros ts w Hw. apply (safe_execs _ _ _ _ _ _ _ Hsafe) in Hw as [Hp (base & Hkey & Hbuild)]. exists base. split; [done|].
    destruct (base_names mf base Hkey) as (bs & Hne & Hbs & ->).
    destruct (plan_places real m mf bs plans Hm Ht Ha Hne Hbs Hkey Hbuild) as (_ & _ & Hiff & Hd). split.
    + intros p f Hv. pose proof (pl_read _ _ _ _ _ Hp (plan_of (rel_path bs) (p, f))) as Hr. unfold spot in Hr. simpl target in Hr.
      rewrite Hr by (apply Hiff; by exists p, f). by rewrite Hd, (places_data m p f Hv).
    + intros l Hl. apply (pl_other _ _ _ _ _ Hp). intros (plan & -> & (p & f & Hv & ->)%Hiff)%list_elem_of_fmap.
      by apply (Hl p f Hv).
  - intros e w l Hrm Hw. apply (safe_execs _ _ _ _ _ _ _ Hsafe) in Hw. destruct (Hw Hrm) as [k Hk].
    destruct (decide (l ∈ spot real <$> take k plans)) as [Hl|Hl]; [right|left; by apply (pl_other _ _ _ _ _ Hk)].
    apply list_elem_of_fmap in Hl as (plan & -> & Hpk). apply Harr; [by eapply elem_of_start|by apply (pl_read _ _ _ _ _ Hk)].
Qed.

(** ** A placement *)

Definition world_system (real : string → string) (m : gmap string map_file) : handler pcall world := λ X e w,
  match e in pcall X return X * world with
  | OnFiles e => let '(x, s) := system real (reads_as w) _ e (w_fs w) in (x, {| w_fs := s; w_readers := w_readers w |})
  | ArchiveOpen path =>
      match m !! path with
      | Some file => (Ok (unused (w_readers w)),
          {| w_fs := w_fs w; w_readers := <[unused (w_readers w) := mfl_Data file]> (w_readers w) |})
      | None => (Err ErrNotExist, w)
      end
  | ArchiveClose f => (Ok (), {| w_fs := w_fs w; w_readers := delete f (w_readers w) |})
  | BytesReader s => (unused (w_readers w), {| w_fs := w_fs w; w_readers := <[unused (w_readers w) := s]> (w_readers w) |})
  end.

Lemma world_system_sound real m removable X (e : pcall X) w :
  world_answers real m removable X e w (world_system real m X e w).1 (world_system real m X e w).2.
Proof.
  destruct e as [X e|path|f|s]; cbn [world_system world_answers].
  - pose proof (system_sound real (reads_as w) removable X e (w_fs w)) as H.
    destruct (system real (reads_as w) X e (w_fs w)) as [x s]. by split.
  - destruct (m !! path) as [file|] eqn:E; [|done]. exists file. split; [done|]. split; [by apply unused_spec|done].
  - done.
  - split; [by apply unused_spec|done].
Qed.

Definition two_files : gmap string map_file :=
  <["skills/commit.md" := {| mfl_Dir := false; mfl_Perm := 420; mfl_Data := "# commit" |}]>
    (<["manifest.toml" := {| mfl_Dir := false; mfl_Perm := 420; mfl_Data := "[plugin]" |}]> ∅).
Definition git_tools : Manifest := ManifestSpec.sample_manifest "skills/commit.md" None.
Definition start_world : world := {| w_fs := sample_fs; w_readers := ∅ |}.
Definition sample_place : proc pcall (result (list string)) :=
  interp (backend sample_options) (Apply (CtxParent 0) git_tools (walk_map two_files)).

Lemma two_files_at p f : two_files !! p = Some f →
  p = "skills/commit.md" ∧ mfl_Data f = "# commit" ∨ p = "manifest.toml" ∧ mfl_Data f = "[plugin]".
Proof.
  unfold two_files. rewrite !lookup_insert_Some, lookup_empty. intros [[<- <-]|[_ [[<- <-]|[_ ?]]]]; [by left|by right|done].
Qed.

Lemma two_files_safe : safe_keys two_files.
Proof. intros p f [[-> _]|[-> _]]%two_files_at; by apply ManifestSpec.isSafe_iff. Qed.

Lemma skill_visible : visible two_files "skills/commit.md" {| mfl_Dir := false; mfl_Perm := 420; mfl_Data := "# commit" |}.
Proof. split_and!; reflexivity. Qed.

Lemma two_files_trimmed : trimmed two_files git_tools.
Proof.
  intros base p f E [Hp _]. assert (PluginDirectoryKey git_tools = Ok ".claude/plugins/git-tools") as E' by (by vm_compute).
  rewrite E' in E. injection E as <-. by apply two_files_at in Hp as [[-> _]|[-> _]].
Qed.

(** It succeeds, and the skill is where it belongs. *)
Lemma apply_places_witness :
  ∃ ts w, execs (world_answers id two_files true) sample_place start_world (Ok ts) w ∧
    read (w_fs w) (".claude/plugins/git-tools/skills", "commit.md") = whole "# commit" ∧
    read (w_fs w) (".", "a.txt") = read sample_fs (".", "a.txt").
Proof.
  destruct (run (world_system id two_files) sample_place start_world) as [[ts|e] w] eqn:E.
  2: { exfalso. apply (f_equal (is_ok ∘ fst)) in E. vm_compute in E. done. }
  apply (execs_handler (world_answers id two_files true)) in E; [|apply world_system_sound].
  exists ts, w. split; [exact E|].
  assert (PluginDirectoryKey git_tools = Ok ".claude/plugins/git-tools") as Hkey by (vm_compute; reflexivity).
  destruct (apply_places sample_options id two_files true (CtxParent 0) git_tools start_world
    two_files_safe (fs_ok_names _ sample_fs_ok) two_files_trimmed
    (straight_apart id _ _ (λ d d' E, E) two_files_safe two_files_trimmed)) as (_ & H & _).
  destruct (H ts w E) as (base & Hb & Hplaced & Hother).
  clear E H. rewrite Hkey in Hb. injection Hb as <-. split.
  - exact (Hplaced _ _ skill_visible).
  - apply Hother. intros p f [Hp _]. by apply two_files_at in Hp as [[-> _]|[-> _]].
Defined.
End PluginPlacement.
