(* ===== verification/GoJSON.v ===== *)
(** * Go's encoding/json, as far as the program uses it

    [json_Valid] is the byte-by-byte scanner of the package: a state, and a stack of the
    objects and arrays that are open. [json_quote] is how it writes a string, and
    [scan_quoted] says that the scanner accepts what is written. *)

From S2P Require Import Prelude GoString GoError.
From Stdlib Require Import Ascii.
From stdpp Require Import options.

(** ** The scanner *)

(** What is open: an object before a colon, an object after one, an array. *)
Inductive parse_state := ObjectKey | ObjectValue | ArrayValue.

Inductive scan_state :=
| BeginValue
| BeginValueOrEmpty
| BeginStringOrEmpty
| BeginString
| EndValue
| EndTop
| InString
| InStringEsc
| InStringEscU (more : nat)         (* hex digits still to come *)
| Neg
| Num1                              (* within the digits *)
| Num0                              (* after a leading zero *)
| Dot
| Dot0
| Exp
| ExpSign
| Exp0
| Literal (word rest : string)      (* true, false or null, and what is still to come *)
| ScanError.

Definition maxNestingDepth : N := 10000.

Definition is_ws (c : ascii) : bool := bool_decide (c ∈ [" "; "009"; "010"; "013"]%char).
Definition is_num (c : ascii) : bool := bool_decide (48 ≤ nat_of_ascii c ≤ 57).
Definition is_hex (c : ascii) : bool :=
  is_num c || bool_decide (97 ≤ nat_of_ascii c ≤ 102) || bool_decide (65 ≤ nat_of_ascii c ≤ 70).

Definition pushed (st : scan_state) (p : parse_state) (stack : list parse_state) : scan_state * list parse_state :=
  if decide (N.of_nat (length stack) < maxNestingDepth)%N then (st, p :: stack) else (ScanError, stack).

Definition popped (stack : list parse_state) : scan_state * list parse_state :=
  match stack with
  | [] | [_] => (EndTop, [])
  | _ :: stack' => (EndValue, stack')
  end.

Definition begin_value (stack : list parse_state) (c : ascii) : scan_state * list parse_state :=
  if decide (c = "{"%char) then pushed BeginStringOrEmpty ObjectKey stack
  else if decide (c = "["%char) then pushed BeginValueOrEmpty ArrayValue stack
  else if decide (c = "034"%char) then (InString, stack)
  else if decide (c = "-"%char) then (Neg, stack)
  else if decide (c = "0"%char) then (Num0, stack)
  else if decide (c = "t"%char) then (Literal "true" "rue", stack)
  else if decide (c = "f"%char) then (Literal "false" "alse", stack)
  else if decide (c = "n"%char) then (Literal "null" "ull", stack)
  else if is_num c then (Num1, stack)
  else (ScanError, stack).

Definition end_value (stack : list parse_state) (c : ascii) : scan_state * list parse_state :=
  match stack with
  | [] => if is_ws c then (EndTop, []) else (ScanError, [])
  | p :: stack' =>
    if is_ws c then (EndValue, stack) else
    match p with
    | ObjectKey => if decide (c = ":"%char) then (BeginValue, ObjectValue :: stack') else (ScanError, stack)
    | ObjectValue =>
      if decide (c = ","%char) then (BeginString, ObjectKey :: stack')
      else if decide (c = "}"%char) then popped stack else (ScanError, stack)
    | ArrayValue =>
      if decide (c = ","%char) then (BeginValue, stack)
      else if decide (c = "]"%char) then popped stack else (ScanError, stack)
    end
  end.

Definition scan_step (st : scan_state) (stack : list parse_state) (c : ascii) : scan_state * list parse_state :=
  match st with
  | BeginValue => if is_ws c then (BeginValue, stack) else begin_value stack c
  | BeginValueOrEmpty =>
    if is_ws c then (BeginValueOrEmpty, stack)
    else if decide (c = "]"%char) then end_value stack c else begin_value stack c
  | BeginStringOrEmpty =>
    if is_ws c then (BeginStringOrEmpty, stack)
    else if decide (c = "}"%char) then
      match stack with _ :: stack' => end_value (ObjectValue :: stack') c | [] => (ScanError, []) end
    else if decide (c = "034"%char) then (InString, stack) else (ScanError, stack)
  | BeginString =>
    if is_ws c then (BeginString, stack)
    else if decide (c = "034"%char) then (InString, stack) else (ScanError, stack)
  | EndValue => end_value stack c
  | EndTop => if is_ws c then (EndTop, stack) else (ScanError, stack)
  | InString =>
    if decide (c = "034"%char) then (EndValue, stack)
    else if decide (c = "092"%char) then (InStringEsc, stack)
    else if decide (nat_of_ascii c < 32) then (ScanError, stack)
    else (InString, stack)
  | InStringEsc =>
    if bool_decide (c ∈ ["b"; "f"; "n"; "r"; "t"; "092"; "/"; "034"]%char) then (InString, stack)
    else if decide (c = "u"%char) then (InStringEscU 4, stack) else (ScanError, stack)
  | InStringEscU more =>
    if is_hex c then (match more with S (S k) => InStringEscU (S k) | _ => InString end, stack)
    else (ScanError, stack)
  | Neg => if decide (c = "0"%char) then (Num0, stack) else if is_num c then (Num1, stack) else (ScanError, stack)
  | Num1 => if is_num c then (Num1, stack) else
            if decide (c = "."%char) then (Dot, stack)
            else if bool_decide (c ∈ ["e"; "E"]%char) then (Exp, stack) else end_value stack c
  | Num0 => if decide (c = "."%char) then (Dot, stack)
            else if bool_decide (c ∈ ["e"; "E"]%char) then (Exp, stack) else end_value stack c
  | Dot => if is_num c then (Dot0, stack) else (ScanError, stack)
  | Dot0 => if is_num c then (Dot0, stack)
            else if bool_decide (c ∈ ["e"; "E"]%char) then (Exp, stack) else end_value stack c
  | Exp => if bool_decide (c ∈ ["+"; "-"]%char) then (ExpSign, stack)
           else if is_num c then (Exp0, stack) else (ScanError, stack)
  | ExpSign => if is_num c then (Exp0, stack) else (ScanError, stack)
  | Exp0 => if is_num c then (Exp0, stack) else end_value stack c
  | Literal word rest =>
    match rest with
    | String d rest' =>
      if decide (c = d) then (if decide (rest' = "") then EndValue else Literal word rest', stack)
      else (ScanError, stack)
    | EmptyString => (ScanError, stack)
    end
  | ScanError => (ScanError, stack)
  end.

Fixpoint scan (st : scan_state) (stack : list parse_state) (s : string) : scan_state * list parse_state :=
  match s with
  | EmptyString => (st, stack)
  | String c s' => let '(st', stack') := scan_step st stack c in scan st' stack' s'
  end.

(** [json.Valid]: at the end a space is read, which ends a number. *)
Definition json_Valid (data : string) : bool :=
  let '(st, stack) := scan BeginValue [] data in
  match st, scan_step st stack " " with
  | EndTop, _ => true
  | _, (EndTop, _) => true
  | _, _ => false
  end.

Lemma scan_app st stack s t :
  scan st stack (s +:+ t) = let '(st', stack') := scan st stack s in scan st' stack' t.
Proof.
  revert st stack. induction s as [|c s IH]; intros st stack; [done|]. rewrite append_cons. simpl.
  destruct (scan_step st stack c). apply IH.
Qed.

Example valid_ex1 : json_Valid (bytes_of [123; 34; 97; 34; 58; 91; 49; 44; 45; 48; 46; 53; 101; 43; 55; 93; 125; 10]) = true.
Proof. reflexivity. Qed.
Example valid_ex2 : (λ s, json_Valid s) <$> ["[]"; "{}"; " true "; "12"; "01"; "[1,]"; "nul"; ""; "1 2"; "-"; "1."] =
  [true; true; true; true; false; false; false; false; false; false; false].
Proof. reflexivity. Qed.

(** ** Writing strings *)

Definition hex2 (n : nat) : string := String (hex_digit (n / 16)) (String (hex_digit (n mod 16)) "").

(** A byte below 128, with the escapes for HTML. *)
Definition json_byte (c : ascii) : string :=
  let n := nat_of_ascii c in
  if decide (n = 34 ∨ n = 92) then String "092" (String c "")
  else if decide (n = 8) then String "092" "b"
  else if decide (n = 12) then String "092" "f"
  else if decide (n = 10) then String "092" "n"
  else if decide (n = 13) then String "092" "r"
  else if decide (n = 9) then String "092" "t"
  else if decide (n < 32 ∨ n = 60 ∨ n = 62 ∨ n = 38) then String "092" ("u00" +:+ hex2 n)
  else String c "".

(** The body of a string; [skip] bytes of the current rune remain, which are copied
    ([copy]) or dropped. *)
Fixpoint json_body (skip : nat) (copy : bool) (s : string) : string :=
  match s, skip with
  | EmptyString, _ => ""
  | String c s', S skip' => (if copy then String c "" else "") +:+ json_body skip' copy s'
  | String c s', 0 =>
    if decide (nat_of_ascii c < 128) then json_byte c +:+ json_body 0 true s'
    else
      match rune_length s with
      | 1 => String "092" "ufffd" +:+ json_body 0 true s'
      | n =>
        if decide (String.substring 0 3 s = bytes_of [226; 128; 168]) then
          String "092" "u2028" +:+ json_body (pred n) false s'
        else if decide (String.substring 0 3 s = bytes_of [226; 128; 169]) then
          String "092" "u2029" +:+ json_body (pred n) false s'
        else String c "" +:+ json_body (pred n) true s'
      end
  end.

Definition json_quote (s : string) : string := String "034" (json_body 0 true s +:+ String "034" "").

Example json_quote_ex :
  json_quote (bytes_of [97; 34; 60; 10; 1; 195; 169; 226; 128; 168; 255]) =
  String "034" ("a" +:+ bytes_of [92; 34] +:+ bytes_of [92] +:+ "u003c" +:+ bytes_of [92] +:+ "n" +:+ bytes_of [92] +:+
    "u0001" +:+ bytes_of [195; 169; 92] +:+ "u2028" +:+ bytes_of [92] +:+ "ufffd" +:+ String "034" "").
Proof. reflexivity. Qed.

(** ** What is written is accepted *)

Lemma scan_byte stack c t :
  nat_of_ascii c < 128 → scan InString stack (json_byte c +:+ t) = scan InString stack t.
Proof. destruct c as [[] [] [] [] [] [] [] []]; try reflexivity; intros H; vm_compute in H; lia. Qed.

Lemma scan_high stack c t : 128 ≤ nat_of_ascii c → scan InString stack (String c t) = scan InString stack t.
Proof.
  intros H. cbn [scan scan_step]. rewrite !decide_False; [done|lia|..]; intros ->; vm_compute in H; lia.
Qed.

(** The bytes of a rune after its first. *)
Definition high (skip : nat) (s : string) : Prop :=
  Forall (λ c, 128 ≤ nat_of_ascii c) (take skip (String.list_ascii_of_string s)).

Lemma rune_length_pos s : 1 ≤ rune_length s.
Proof.
  unfold rune_length. destruct (nat_of_ascii <$> _) as [|a [|b [|c [|d l]]]]; repeat case_match; lia.
Qed.

Lemma rune_length_high c s : high (pred (rune_length (String c s))) s.
Proof.
  unfold high, rune_length. simpl. destruct (String.list_ascii_of_string s) as [|b [|x [|y l]]]; simpl;
    repeat (case_match; simpl); try (by constructor);
    repeat match goal with H : _ && _ = true |- _ => apply andb_true_iff in H as [? ?] end;
    repeat match goal with H : bool_decide _ = true |- _ => apply bool_decide_eq_true in H end;
    repeat (constructor; [repeat case_decide; lia|]); try constructor.
Qed.

Lemma scan_body stack skip copy s t :
  high skip s → scan InString stack (json_body skip copy s +:+ t) = scan InString stack t.
Proof.
  revert skip copy. induction s as [|c s IH]; intros skip copy Hh; [by destruct skip|].
  destruct skip as [|skip].
  2: { unfold high in Hh. simpl in Hh. apply Forall_cons in Hh as [Hc Hh]. cbn [json_body].
       destruct copy; rewrite append_assoc, ?append_cons, ?append_nil_l; [rewrite scan_high by done|]; by apply IH. }
  cbn [json_body]. case_decide as Hc; [rewrite append_assoc, scan_byte by done; apply IH; constructor|].
  pose proof (rune_length_high c s) as Hr.
  destruct (rune_length (String c s)) as [|[|n]]; [|rewrite append_assoc; apply (IH 0 true); constructor|].
  - simpl pred in Hr. repeat case_decide; rewrite append_assoc; [apply (IH 0 false), Hr|apply (IH 0 false), Hr|].
    rewrite append_cons, append_nil_l, scan_high by lia. by apply (IH 0 true).
  - simpl pred in *. repeat case_decide; rewrite append_assoc; [apply (IH (S n) false), Hr|apply (IH (S n) false), Hr|].
    rewrite append_cons, append_nil_l, scan_high by lia. by apply (IH (S n) true).
Qed.

Lemma scan_quoted stack s t : scan InString stack (json_body 0 true s +:+ String "034" t) = scan EndValue stack t.
Proof. rewrite scan_body by constructor. reflexivity. Qed.
