(* ===== verification/GoMarshal.v ===== *)
(** * Go's encoding/json: writing values

    [compact] is what the encoder does to raw JSON it is given: check it with the scanner
    of [GoJSON], drop the white space between tokens and escape what HTML could read.
    [any_json] writes a dynamic value. How a float is formatted ([strconv.AppendFloat])
    and what a value of a type outside [any] marshals to are arguments. *)

From S2P Require Import Prelude GoString GoError GoValue GoJSON WorkspaceTypes Registration.
From Stdlib Require Import Ascii.
From stdpp Require Import options.

(** ** Syntax errors *)

(** A byte as a rune in single quotes ([quoteChar]). *)
Definition quote_char (c : ascii) : string :=
  let n := nat_of_ascii c in
  "'" +:+ (if decide (n = 39) then "\'"
           else if decide (n = 34) then String c ""
           else if decide (n < 128) then quote_byte c
           else if decide (n ≤ 160 ∨ n = 173) then "\u00" +:+ hex2 n
           else bytes_of [192 + n / 64; 128 + n mod 64]) +:+ "'".

(** What the scanner says it was doing. *)
Definition end_context (stack : list parse_state) : string :=
  match stack with
  | [] => "after top-level value"
  | ObjectKey :: _ => "after object key"
  | ObjectValue :: _ => "after object key:value pair"
  | ArrayValue :: _ => "after array element"
  end.

Definition begin_context (c : ascii) : string :=
  if bool_decide (c ∈ ["{"; "["]%char) then "exceeded max depth" else "looking for beginning of value".

Definition scan_context (st : scan_state) (stack : list parse_state) (c : ascii) : string :=
  match st with
  | BeginValue | BeginValueOrEmpty => begin_context c
  | BeginStringOrEmpty | BeginString => "looking for beginning of object key string"
  | EndValue | Num1 | Num0 | Dot0 | Exp0 => end_context stack
  | EndTop => "after top-level value"
  | InString => "in string literal"
  | InStringEsc => "in string escape code"
  | InStringEscU _ => "in \u hexadecimal character escape"
  | Neg => "in numeric literal"
  | Dot => "after decimal point in numeric literal"
  | Exp | ExpSign => "in exponent of numeric literal"
  | Literal word rest => "in literal " +:+ word +:+ " (expecting '" +:+ String.substring 0 1 rest +:+ "')"
  | ScanError => ""
  end.

Definition syntax_error (st : scan_state) (stack : list parse_state) (c : ascii) : error :=
  ENew ("invalid character " +:+ quote_char c +:+ " " +:+ scan_context st stack c).

(** The end of the input: a space is read, which ends a number. *)
Definition scan_eof (st : scan_state) (stack : list parse_state) : result unit :=
  match st with
  | EndTop => Ok ()
  | _ =>
    match (scan_step st stack " ").1 with
    | EndTop => Ok ()
    | ScanError => Err (syntax_error st stack " ")
    | _ => Err (ENew "unexpected end of JSON input")
    end
  end.

(** ** Compacting raw JSON *)

(** White space between tokens, which the scanner tells to skip. *)
Definition skips (st : scan_state) (c : ascii) : bool :=
  is_ws c && match st with InString => false | _ => true end.

(** What is copied for the byte at the start of [s], and how many bytes after it are
    not copied any more. *)
Definition escaped (s : string) : string * nat :=
  match s with
  | EmptyString => ("", 0)
  | String c _ =>
    let n := nat_of_ascii c in
    if bool_decide (n ∈ [60; 62; 38]) then (String "092" ("u00" +:+ hex2 n), 0)
    else if decide (String.substring 0 3 s = bytes_of [226; 128; 168]) then (String "092" "u2028", 2)
    else if decide (String.substring 0 3 s = bytes_of [226; 128; 169]) then (String "092" "u2029", 2)
    else (String c "", 0)
  end.

(** [appendCompact] with HTML escapes, from a state of the scanner; the first [dropped]
    bytes are not copied. *)
Fixpoint compact_from (st : scan_state) (stack : list parse_state) (dropped : nat) (s : string) : result string :=
  match s with
  | EmptyString => _ ← scan_eof st stack; Ok ""
  | String c s' =>
    let '(out, more) := match dropped with 0 => escaped s | S more => ("", more) end in
    let '(st', stack') := scan_step st stack c in
    match st' with
    | ScanError => Err (syntax_error st stack c)
    | _ =>
      rest ← compact_from st' stack' more s';
      Ok ((if skips st c then "" else out) +:+ rest)
    end
  end.

Definition compact (s : string) : result string := compact_from BeginValue [] 0 s.

(** A [json.RawMessage] in a message. *)
Definition raw_json (data : string) : result string :=
  match compact data with
  | Ok s => Ok s
  | Err err => Err (Errorf_w "json: error calling MarshalJSON for type json.RawMessage: " err "")
  end.

Example compact_ex1 : compact (bytes_of [32; 123; 34; 97; 32; 60; 34; 32; 58; 32; 91; 49; 32; 44; 10; 50; 93; 125; 10]) =
  Ok (bytes_of [123; 34; 97; 32; 92; 117; 48; 48; 51; 99; 34; 58; 91; 49; 44; 50; 93; 125]).
Proof. reflexivity. Qed.


(** ** Objects, arrays and values *)

Fixpoint all_ok {A} (l : list (result A)) : result (list A) :=
  match l with
  | [] => Ok []
  | r :: l' => x ← r; xs ← all_ok l'; Ok (x :: xs)
  end.

Definition member_text (name value : string) : string := json_quote name +:+ ":" +:+ value.
Definition object_text (members : list string) : string := "{" +:+ strings_Join members "," +:+ "}".
Definition array_text (elems : list string) : string := "[" +:+ strings_Join elems "," +:+ "]".

(** Members come in the order of their names. *)
Definition name_le {A} (a b : string * A) : Prop := (strings_Compare a.1 b.1 ≤ 0)%Z.
#[export] Instance name_le_dec {A} : RelDecision (@name_le A).
Proof. intros a b. unfold name_le. apply _. Defined.

Definition map_json (g : gmap string (result string)) : result string :=
  object_text <$> all_ok ((λ kv : string * result string, member_text kv.1 <$> kv.2) <$> merge_sort name_le (map_to_list g)).

Section values.
Variable float32_text float64_text : Z → string.
Variable other_json : string → Z → result string.

Definition unsupported_float (fraction_bits bits : Z) : error :=
  ENew ("json: unsupported value: " +:+ Registration.nonfinite_text fraction_bits bits).

Definition float64_json (bits : Z) : result string :=
  if Registration.nonfinite64 bits then Err (unsupported_float 52 bits) else Ok (float64_text bits).
Definition float32_json (bits : Z) : result string :=
  if Registration.nonfinite32 bits then Err (unsupported_float 23 bits) else Ok (float32_text bits).

Fixpoint any_json (v : any) : result string :=
  match v with
  | ANil | AMap None | ASlice None => Ok "null"
  | ABool b => Ok (if b then "true" else "false")
  | AString s => Ok (json_quote s)
  | AInt _ n => Ok (strconv_Itoa n)
  | AFloat32 bits => float32_json bits
  | AFloat64 bits => float64_json bits
  | AMap (Some g) => map_json (any_json <$> g)
  | ASlice (Some l) => array_text <$> all_ok (any_json <$> l)
  | AOther t id => other_json t id
  end.
End values.

(** A [map[string]string]. *)
Definition strings_json (g : gmap string string) : result string := map_json ((λ s, Ok (json_quote s)) <$> g).

Example compact_ex2 : (λ s, compact s) <$> ["nul"; "[1 2]"; "-x"; "tRue"; "[}"] =
  Err <$> [ENew "invalid character ' ' in literal null (expecting 'l')"; ENew "invalid character '2' after array element";
           ENew "invalid character 'x' in numeric literal"; ENew "invalid character 'R' in literal true (expecting 'r')";
           ENew "invalid character '}' looking for beginning of value"].
Proof. reflexivity. Qed.
