(* ===== verification/GoMarshalSpec.v ===== *)
(** * What is written is JSON

    A text is a JSON value where one is expected ([is_value]) when the scanner takes it
    inside any open object or array, up to a comma or a closing bracket, as long as the
    brackets it opens itself stay within the scanner's limit. Strings, numbers, objects,
    arrays, dynamic values and compacted raw JSON are such texts. *)

From S2P Require Import Prelude GoString GoError GoValue GoJSON GoMarshal Registration.
From Stdlib Require Import Ascii.
From stdpp Require Import pretty.
From stdpp Require Import options.
Set Default Proof Using "Type*".

(** ** Values in their context *)

(** States in which a value may be over: what follows it is read as from [EndValue]. *)
Definition may_end (st : scan_state) : bool :=
  match st with EndValue | Num1 | Num0 | Dot0 | Exp0 => true | _ => false end.

Definition is_close (c : ascii) : bool := bool_decide (c ∈ [","; "]"; "}"; ":"]%char).

Lemma may_end_step st stack c :
  may_end st = true → is_close c = true → scan_step st stack c = end_value stack c.
Proof.
  intros Hst Hc. apply bool_decide_eq_true in Hc. rewrite !elem_of_cons, elem_of_nil in Hc.
  destruct Hc as [->|[->|[->|[->|[]]]]]; by destruct st.
Qed.

(** The text opens with something other than white space or a bracket. *)
Definition starts_value (s : string) : bool :=
  match s with
  | EmptyString => false
  | String c _ => negb (is_ws c) && bool_decide (c ≠ "]"%char)
  end.

Definition is_value (d : N) (s : string) : Prop :=
  starts_value s = true ∧
  ∀ stack, stack ≠ [] → (N.of_nat (length stack) + d ≤ maxNestingDepth)%N →
    ∃ st, scan BeginValue stack s = (st, stack) ∧ may_end st = true.

Lemma is_value_weaken d d' s : (d ≤ d')%N → is_value d s → is_value d' s.
Proof. intros Hd [Hs H]. split; [done|]. intros stack Hne Hl. apply H; [done|lia]. Qed.

Lemma starts_value_empty s stack : starts_value s = true → scan BeginValueOrEmpty stack s = scan BeginValue stack s.
Proof.
  destruct s as [|c s]; [done|]. simpl. intros [Hw Hc]%andb_true_iff. apply negb_true_iff in Hw.
  apply bool_decide_eq_true in Hc. rewrite Hw. by rewrite (decide_False _ _ Hc).
Qed.

Lemma scan_value d s stack t :
  is_value d s → stack ≠ [] → (N.of_nat (length stack) + d ≤ maxNestingDepth)%N →
  ∃ st, may_end st = true ∧ scan BeginValue stack (s +:+ t) = scan st stack t ∧
        scan BeginValueOrEmpty stack (s +:+ t) = scan st stack t.
Proof.
  intros [Hs H] Hne Hl. destruct (H stack Hne Hl) as (st & Hst & He). exists st.
  rewrite !scan_app, (starts_value_empty s stack Hs), Hst. done.
Qed.

(** ** Strings *)

Lemma quote_value s : is_value 0 (json_quote s).
Proof.
  split; [done|]. intros stack _ _. exists EndValue. split; [|done].
  change (scan BeginValue stack (json_quote s)) with (scan InString stack (json_body 0 true s +:+ String "034" "")).
  by rewrite scan_quoted.
Qed.

Lemma constant_value s : s ∈ ["null"; "true"; "false"] → is_value 0 s.
Proof.
  rewrite !elem_of_cons, elem_of_nil. intros [->|[->|[->|[]]]];
    (split; [done|]; intros stack _ _; by exists EndValue).
Qed.

(** ** Numbers *)

Lemma digit_char (d : N) : (d < 10)%N → is_num (pretty_N_char d) = true ∧ (d ≠ 0%N → pretty_N_char d ≠ "0"%char).
Proof.
  intros Hd. assert (d ∈ [0; 1; 2; 3; 4; 5; 6; 7; 8; 9]%N) as Hin by (rewrite !elem_of_cons; lia).
  repeat (apply elem_of_cons in Hin as [->|Hin]; [done|]). by apply not_elem_of_nil in Hin.
Qed.

(** The digits of a positive number, before others. *)
Lemma digits_head (x : N) s : (0 < x)%N →
  ∃ c t, pretty_N_go x s = String c (t +:+ s) ∧ is_num c = true ∧ c ≠ "0"%char ∧ Forall (λ c, is_num c = true) (String.list_ascii_of_string t).
Proof.
  revert s. induction (N.lt_wf_0 x) as [x _ IH]. intros s Hx. rewrite pretty_N_go_step by done.
  pose proof (digit_char (x `mod` 10)) as Hd. specialize (Hd ltac:(by apply N.mod_lt)) as [Hn H0].
  destruct (decide (0 < x `div` 10)%N) as [Hq|Hq].
  - destruct (IH (x `div` 10)%N ltac:(by apply N.div_lt) (String (pretty_N_char (x `mod` 10)) s) Hq) as (c & t & -> & Hc & Hc0 & Ht).
    exists c, (t +:+ String (pretty_N_char (x `mod` 10)) ""). split_and!; [|done|done|].
    + by rewrite append_assoc.
    + clear -Ht Hn. induction t as [|a t IHt]; simpl in *; [by repeat constructor|].
      apply Forall_cons in Ht as [Ha Ht]. constructor; [done|]. by apply IHt.
  - assert (x `div` 10 = 0)%N as -> by (by apply N.nlt_ge, N.le_0_r in Hq). rewrite pretty_N_go_0.
    exists (pretty_N_char (x `mod` 10)), "". split_and!; [done|done| |constructor].
    apply H0. pose proof (N.div_mod x 10 ltac:(done)). intros E. rewrite E in H. apply N.nlt_ge, N.le_0_r in Hq. rewrite Hq in H. lia.
Qed.

Lemma scan_digits stack t : Forall (λ c, is_num c = true) (String.list_ascii_of_string t) → scan Num1 stack t = (Num1, stack).
Proof.
  induction t as [|c t IH]; [done|]. simpl. intros [-> Ht]%Forall_cons. by apply IH.
Qed.

Lemma positive_begin (p : positive) :
  ∃ c t, pretty (N.pos p) = String c t ∧ is_num c = true ∧ c ≠ "0"%char ∧ ∀ stack, scan Num1 stack t = (Num1, stack).
Proof.
  unfold pretty, pretty_N. rewrite decide_False by done.
  destruct (digits_head (N.pos p) "" ltac:(lia)) as (c & t & -> & Hc & H0 & Ht). exists c, t.
  rewrite append_nil_r. split_and!; [done..|]. intros stack. by apply scan_digits.
Qed.

Lemma num_cases c : is_num c = true → c ≠ "0"%char → c ∈ ["1"; "2"; "3"; "4"; "5"; "6"; "7"; "8"; "9"]%char.
Proof. destruct c as [[] [] [] [] [] [] [] []]; intros H H0; vm_compute in H; try done; by apply (bool_decide_unpack _). Qed.

Lemma int_value n : is_value 0 (strconv_Itoa n).
Proof.
  unfold strconv_Itoa. destruct n as [|p|p].
  - split; [done|]. intros stack _ _. by exists Num0.
  - change (pretty (Z.pos p)) with (pretty (N.pos p)). destruct (positive_begin p) as (c & t & -> & Hc & H0 & Ht).
    apply num_cases in Hc; [|done]. rewrite !elem_of_cons, elem_of_nil in Hc.
    destruct_or! Hc; subst; try done; (split; [done|]; intros stack _ _; exists Num1; split; [apply Ht|done]).
  - change (pretty (Z.neg p)) with (String "-" (pretty (N.pos p))). destruct (positive_begin p) as (c & t & -> & Hc & H0 & Ht).
    split; [done|]. intros stack _ _. exists Num1. split; [|done]. cbn [scan scan_step begin_value].
    change (is_ws "-") with false. change (begin_value stack "-") with (Neg, stack). cbn [scan_step].
    rewrite (decide_False _ _ H0), Hc. apply Ht.
Qed.

(** ** Arrays and objects *)

(** The state after a value that closes a bracket. *)
Definition after (stack : list parse_state) : scan_state :=
  match stack with [] => EndTop | _ => EndValue end.

Lemma popped_after p stack : popped (p :: stack) = (after stack, stack).
Proof. by destruct stack. Qed.

Lemma begin_open st p stack c :
  (c = "["%char ∧ st = BeginValueOrEmpty ∧ p = ArrayValue) ∨ (c = "{"%char ∧ st = BeginStringOrEmpty ∧ p = ObjectKey) →
  (N.of_nat (length stack) < maxNestingDepth)%N → scan_step BeginValue stack c = (st, p :: stack).
Proof.
  intros Hc Hl. destruct Hc as [(-> & -> & ->)|(-> & -> & ->)]; cbn [scan_step];
    [change (is_ws "[") with false; change (begin_value stack "[") with (pushed BeginValueOrEmpty ArrayValue stack)
    |change (is_ws "{") with false; change (begin_value stack "{") with (pushed BeginStringOrEmpty ObjectKey stack)];
    unfold pushed; by rewrite decide_True.
Qed.

Section elems.
Variables (d : N) (stack : list parse_state).
Hypothesis room : (N.of_nat (length stack) + 1 + d ≤ maxNestingDepth)%N.

Local Lemma room_in p : (N.of_nat (length (p :: stack)) + d ≤ maxNestingDepth)%N.
Proof. simpl. lia. Qed.

Lemma scan_elems vs t : vs ≠ [] → Forall (is_value d) vs →
  ∃ st, may_end st = true ∧
    scan BeginValue (ArrayValue :: stack) (strings_Join vs "," +:+ t) = scan st (ArrayValue :: stack) t ∧
    scan BeginValueOrEmpty (ArrayValue :: stack) (strings_Join vs "," +:+ t) = scan st (ArrayValue :: stack) t.
Proof.
  intros Hne Hall. induction Hall as [|v vs Hv Hall IH]; [done|]. destruct vs as [|v' vs].
  { by apply (scan_value d v (ArrayValue :: stack)), room_in. }
  destruct IH as (st & Hst & H & _); [done|]. exists st. cbn [strings_Join].
  rewrite !append_assoc. set (rest := "," +:+ _).
  destruct (scan_value d v (ArrayValue :: stack) rest Hv) as (st' & Hst' & -> & ->); [done|apply room_in|].
  split; [done|]. assert (scan st' (ArrayValue :: stack) rest = scan st (ArrayValue :: stack) t) as E; [|done].
  rewrite <-H. unfold rest. rewrite append_cons, append_nil_l. cbn [scan]. by rewrite may_end_step.
Qed.

Lemma scan_array vs : Forall (is_value d) vs → scan BeginValue stack (array_text vs) = (after stack, stack).
Proof.
  intros Hall. unfold array_text. rewrite append_cons, append_nil_l. cbn [scan].
  rewrite (begin_open BeginValueOrEmpty ArrayValue) by (try (by left); lia).
  destruct (decide (vs = [])) as [->|Hne]; [cbn [strings_Join]; rewrite append_nil_l; by destruct stack|].
  destruct (scan_elems vs "]" Hne Hall) as (st & Hst & _ & ->). cbn [scan].
  rewrite may_end_step by done. change (end_value (ArrayValue :: stack) "]") with (popped (ArrayValue :: stack)).
  by rewrite popped_after.
Qed.

Definition is_member (m : string) : Prop := ∃ k v, m = member_text k v ∧ is_value d v.

Lemma scan_member m t : is_member m →
  ∃ st, may_end st = true ∧
    scan BeginString (ObjectKey :: stack) (m +:+ t) = scan st (ObjectValue :: stack) t ∧
    scan BeginStringOrEmpty (ObjectKey :: stack) (m +:+ t) = scan st (ObjectValue :: stack) t.
Proof.
  intros (k & v & -> & Hv). unfold member_text, json_quote.
  rewrite !append_cons, !append_assoc, !append_cons, !append_nil_l. cbn [scan].
  change (scan_step BeginString (ObjectKey :: stack) "034") with (InString, ObjectKey :: stack).
  change (scan_step BeginStringOrEmpty (ObjectKey :: stack) "034") with (InString, ObjectKey :: stack).
  cbv iota beta. rewrite scan_quoted. cbn [scan].
  change (scan_step EndValue (ObjectKey :: stack) ":") with (BeginValue, ObjectValue :: stack). cbv iota beta.
  destruct (scan_value d v (ObjectValue :: stack) t Hv) as (st & Hst & -> & _); [done|apply room_in|]. by exists st.
Qed.

Lemma scan_members ms t : ms ≠ [] → Forall is_member ms →
  ∃ st, may_end st = true ∧
    scan BeginString (ObjectKey :: stack) (strings_Join ms "," +:+ t) = scan st (ObjectValue :: stack) t ∧
    scan BeginStringOrEmpty (ObjectKey :: stack) (strings_Join ms "," +:+ t) = scan st (ObjectValue :: stack) t.
Proof.
  intros Hne Hall. induction Hall as [|m ms Hm Hall IH]; [done|]. destruct ms as [|m' ms]; [by apply scan_member|].
  destruct IH as (st & Hst & H & _); [done|]. exists st. cbn [strings_Join]. rewrite !append_assoc.
  set (rest := "," +:+ _).
  destruct (scan_member m rest Hm) as (st' & Hst' & -> & ->).
  split; [done|]. assert (scan st' (ObjectValue :: stack) rest = scan st (ObjectValue :: stack) t) as E; [|done].
  rewrite <-H. unfold rest. rewrite append_cons, append_nil_l. cbn [scan]. by rewrite may_end_step.
Qed.

Lemma scan_object ms : Forall is_member ms → scan BeginValue stack (object_text ms) = (after stack, stack).
Proof.
  intros Hall. unfold object_text. rewrite append_cons, append_nil_l. cbn [scan].
  rewrite (begin_open BeginStringOrEmpty ObjectKey) by (try (by right); lia).
  destruct (decide (ms = [])) as [->|Hne].
  { cbn [strings_Join]. rewrite append_nil_l. cbn [scan].
    change (scan_step BeginStringOrEmpty (ObjectKey :: stack) "}") with (popped (ObjectValue :: stack)).
    by rewrite popped_after. }
  destruct (scan_members ms "}" Hne Hall) as (st & Hst & _ & ->). cbn [scan].
  rewrite may_end_step by done. change (end_value (ObjectValue :: stack) "}") with (popped (ObjectValue :: stack)).
  by rewrite popped_after.
Qed.
End elems.

Lemma after_value d s :
  starts_value s = true →
  (∀ stack, (N.of_nat (length stack) + d ≤ maxNestingDepth)%N → scan BeginValue stack s = (after stack, stack)) →
  is_value d s.
Proof.
  intros Hs H. split; [done|]. intros stack Hne Hl. exists EndValue. split; [|done].
  rewrite (H stack Hl). by destruct stack.
Qed.

Lemma array_value d vs : Forall (is_value d) vs → is_value (d + 1) (array_text vs).
Proof. intros H. apply after_value; [done|]. intros stack Hl. apply (scan_array d); [lia|done]. Qed.

Lemma object_value d ms : Forall (is_member d) ms → is_value (d + 1) (object_text ms).
Proof. intros H. apply after_value; [done|]. intros stack Hl. apply (scan_object d); [lia|done]. Qed.

Lemma object_valid d ms : Forall (is_member d) ms → (1 + d ≤ maxNestingDepth)%N → json_Valid (object_text ms) = true.
Proof. intros H Hd. unfold json_Valid. by rewrite (scan_object d []). Qed.

Lemma is_member_weaken d d' m : (d ≤ d')%N → is_member d m → is_member d' m.
Proof. intros Hd (k & v & -> & Hv). exists k, v. split; [done|]. by eapply is_value_weaken. Qed.

(** ** Compacted text

    The scanner on the raw text, which stands alone, and on what is written of it inside
    [base]: the same brackets are open, and the states agree up to the end of a value. *)

(** How many brackets are open at once, at most. *)
Fixpoint deepest (st : scan_state) (stack : list parse_state) (s : string) : N :=
  N.max (N.of_nat (length stack))
    match s with
    | EmptyString => 0
    | String c s' => let '(st', stack') := scan_step st stack c in deepest st' stack' s'
    end.

Definition raw_depth (s : string) : N := deepest BeginValue [] s.

Lemma deepest_here st stack s : (N.of_nat (length stack) ≤ deepest st stack s)%N.
Proof. destruct s; cbn [deepest]; lia. Qed.

Definition sim (stack : list parse_state) (st1 st2 : scan_state) : Prop :=
  (st1 = st2 ∧ st1 ≠ EndTop ∧ st1 ≠ ScanError) ∨ (st1 = EndTop ∧ stack = [] ∧ may_end st2 = true) ∨
  (st1 = EndValue ∧ may_end st2 = true).

(** The rest of a literal is letters. *)
Definition sane (st : scan_state) : Prop :=
  match st with Literal _ rest => rest ∈ ["rue"; "ue"; "e"; "alse"; "lse"; "se"; "ull"; "ll"; "l"] | _ => True end.

Lemma sim_same stack st : st ≠ EndTop → st ≠ ScanError → sim stack st st.
Proof. by left. Qed.

Section inside.
Variable base : list parse_state.
Hypothesis base_open : base ≠ [].

Lemma begin_value_app s1 c st s1' :
  begin_value s1 c = (st, s1') → st ≠ ScanError → (N.of_nat (length s1' + length base) ≤ maxNestingDepth)%N →
  begin_value (s1 ++ base) c = (st, s1' ++ base) ∧ sim s1' st st ∧ sane st.
Proof.
  unfold begin_value, pushed. intros H Hst Hl.
  repeat case_decide; try case_match; simplify_eq; (split; [|split; [by apply sim_same|try done]]); try done;
    try (exfalso; simpl in *; rewrite ?length_app in *; lia); vm_compute; repeat constructor.
Qed.

Lemma popped_app p s : ∃ st2, popped (p :: s ++ base) = (st2, s ++ base) ∧ ∀ st s', popped (p :: s) = (st, s') → s' = s ∧ sim s st st2.
Proof.
  rewrite popped_after. exists (after (s ++ base)). split; [done|]. intros st s'. rewrite popped_after. intros [= <- <-].
  split; [done|]. unfold sim. destruct s as [|q s]; simpl; [|by left]. right. left. by destruct base.
Qed.

Lemma end_value_app s1 c st s1' :
  end_value s1 c = (st, s1') → st ≠ ScanError → is_ws c = false →
  ∃ st2, end_value (s1 ++ base) c = (st2, s1' ++ base) ∧ sim s1' st st2 ∧ sane st.
Proof.
  destruct s1 as [|p s1]; cbn [end_value app]; intros H Hst Hw; rewrite ?Hw in *; [by simplify_eq|].
  destruct (popped_app p s1) as (st2 & Hp & Hs).
  assert (popped (p :: s1) = (st, s1') → ∃ st2, popped (p :: s1 ++ base) = (st2, s1' ++ base) ∧ sim s1' st st2 ∧ sane st) as Hpop.
  { intros E. destruct (Hs _ _ E) as [-> Hsim]. exists st2. split_and!; [done..|]. rewrite popped_after in E.
    injection E as <-. by destruct s1. }
  destruct p; repeat case_decide; simplify_eq; try (by apply Hpop); eexists; (split; [done|]); (split; [by apply sim_same|done]).
Qed.

(** One byte: white space between tokens changes nothing that counts, any other byte
    leads to states that agree again. *)
Lemma skip_step s1 st1 st2 c st1' s1' :
  sim s1 st1 st2 → sane st1 → scan_step st1 s1 c = (st1', s1') → st1' ≠ ScanError → skips st1 c = true →
  s1' = s1 ∧ sim s1 st1' st2 ∧ sane st1'.
Proof.
  intros Hsim Hsane Hstep Hst [Hw Hs]%andb_true_iff.
  assert (c ∈ [" "; "009"; "010"; "013"]%char) as Hc by (by apply bool_decide_eq_true in Hw).
  assert (∀ st, end_value s1 c = (st1', s1') → may_end st = true → s1' = s1 ∧ sim s1 st1' st ∧ sane st1') as Hend.
  { intros st. destruct s1; cbn [end_value]; rewrite Hw; intros [= <- <-] Hm; (split; [done|]); (split; [|done]);
      unfold sim; auto. }
  assert (may_end st2 = true → st1 = EndTop ∨ may_end st1 = true →
    match st1 with EndTop | EndValue => s1' = s1 ∧ sim s1 st1' st2 ∧ sane st1' | _ => True end) as Hval.
  { intros Hm _. destruct st1; try done; cbn [scan_step] in Hstep; rewrite ?Hw in Hstep; [by apply Hend|].
    injection Hstep as <- <-. destruct Hsim as [(_ & ? & _)|[(_ & -> & _)|(? & _)]]; try done.
    split; [done|]. split; [|done]. unfold sim. auto. }
  rewrite !elem_of_cons, elem_of_nil in Hc. clear Hs.
  destruct Hsim as [(-> & Ht & He)|[(-> & -> & Hm)|(-> & Hm)]]; [|by apply Hval; auto|by apply Hval; auto].
  destruct st2; try done; cbn [scan_step] in Hstep;
    try (apply Hend; [|done]; destruct_or! Hc; subst; try done; exact Hstep);
    destruct_or! Hc; subst; try done; simplify_eq/=; try (split; [done|]; split; [by apply sim_same|done]);
    repeat case_match; simplify_eq; try done;
    cbn [sane] in Hsane; rewrite !elem_of_cons, elem_of_nil in Hsane; by destruct_or! Hsane.
Qed.

Lemma literal_step word rest s1 c st1' s1' :
  sane (Literal word rest) → scan_step (Literal word rest) s1 c = (st1', s1') → st1' ≠ ScanError →
  s1' = s1 ∧ sane st1' ∧ st1' ≠ EndTop ∧ (nat_of_ascii c ∉ [60; 62; 38]) ∧ nat_of_ascii c < 128.
Proof.
  cbn [sane scan_step]. rewrite !elem_of_cons, elem_of_nil. intros Hs Hstep Hst.
  destruct_or! Hs; subst; try done; case_decide; simplify_eq/=; try done;
    (split_and!; [done|by apply (bool_decide_unpack _)|done|by apply (bool_decide_unpack _)|by apply (bool_decide_unpack _)]).
Qed.

(** Bytes that only a string may have. *)
Definition specials : list ascii :=
  ["{"; "["; "]"; "}"; ","; ":"; "034"; "092"; "-"; "+"; "."; "0"; "t"; "f"; "n"; "e"; "E"; "b"; "r"; "/"; "u"]%char.

Definition foreign (c : ascii) : Prop := (nat_of_ascii c ∈ [60; 62; 38]) ∨ 128 ≤ nat_of_ascii c.

Lemma foreign_facts c : foreign c → is_ws c = false ∧ is_num c = false ∧ is_hex c = false ∧ c ∉ specials.
Proof.
  intros H. assert (bool_decide (nat_of_ascii c ∈ [60; 62; 38]) || bool_decide (128 ≤ nat_of_ascii c) = true) as Hb.
  { apply orb_true_iff. destruct H; [left|right]; by apply bool_decide_eq_true. }
  clear H. destruct c as [[] [] [] [] [] [] [] []]; try (exfalso; clear -Hb; by vm_compute in Hb);
    (split_and!; [done..|by apply (bool_decide_unpack _)]).
Qed.

Lemma only_in_string st stack c st' stack' :
  sane st → foreign c → scan_step st stack c = (st', stack') → st' ≠ ScanError → st = InString.
Proof.
  intros Hs Hc H Hst. destruct (foreign_facts c Hc) as (Hw & Hn & Hh & Hx).
  assert (∀ d, d ∈ specials → c ≠ d) as Hd by (intros d Hd ->; done).
  assert (∀ d, bool_decide (d ∈ specials) = true → c ≠ d) as Hd' by (intros d Hb; apply Hd; by apply bool_decide_eq_true in Hb).
  assert (∀ l, Forall (.∈ specials) l → bool_decide (c ∈ l) = false) as Hl.
  { intros l Hl. apply bool_decide_eq_false. intros Hin. rewrite Forall_forall in Hl. by apply Hx, Hl. }
  assert (end_value stack c = (st', stack') → False) as Hend.
  { destruct stack as [|[] stack]; cbn [end_value]; rewrite Hw; repeat rewrite decide_False by (by apply Hd');
      intros [= <- <-]; done. }
  assert (begin_value stack c = (st', stack') → False) as Hbegin.
  { unfold begin_value. rewrite Hn. repeat rewrite decide_False by (by apply Hd'). intros [= <- <-]; done. }
  destruct st as [| | | | | | | |more| | | | | | | | |word rest|]; try done;
    try (destruct (literal_step _ _ _ _ _ _ Hs H Hst) as (_ & _ & _ & ? & ?); destruct Hc; [done|lia]);
    exfalso; cbn [scan_step] in H; rewrite ?Hw, ?Hn, ?Hh in H;
    repeat rewrite decide_False in H by (by apply Hd');
    rewrite ?Hl in H by (repeat constructor; by apply (bool_decide_unpack _)); simplify_eq; auto.
Qed.

Lemma end_value_close s1 c st s1' :
  end_value s1 c = (st, s1') → st ≠ ScanError → is_ws c = false → is_close c = true.
Proof.
  destruct s1 as [|[] s1]; cbn [end_value]; intros H Hst Hw; rewrite Hw in H; repeat case_decide; simplify_eq; done.
Qed.

Lemma copy_step s1 st1 st2 c st1' s1' :
  sim s1 st1 st2 → sane st1 → scan_step st1 s1 c = (st1', s1') → st1' ≠ ScanError → skips st1 c = false →
  (N.of_nat (length s1' + length base) ≤ maxNestingDepth)%N →
  ∃ st2', scan_step st2 (s1 ++ base) c = (st2', s1' ++ base) ∧ sim s1' st1' st2' ∧ sane st1'.
Proof.
  intros Hsim Hsane Hstep Hst Hskip Hl.
  assert (st1 ≠ InString → is_ws c = false) as Hws.
  { intros Hne. unfold skips in Hskip. apply andb_false_iff in Hskip as [|]; [done|]. by destruct st1. }
  assert (∀ st, may_end st = true → is_ws c = false → end_value s1 c = (st1', s1') →
    ∃ st2', scan_step st (s1 ++ base) c = (st2', s1' ++ base) ∧ sim s1' st1' st2' ∧ sane st1') as Hend.
  { intros st Hm Hw H. destruct (end_value_app _ _ _ _ H Hst Hw) as (st2' & E & Hs). exists st2'. split; [|done].
    rewrite may_end_step; [done|done|by apply (end_value_close _ _ _ _ H)]. }
  assert (begin_value s1 c = (st1', s1') → ∃ st2', begin_value (s1 ++ base) c = (st2', s1' ++ base) ∧ sim s1' st1' st2' ∧ sane st1') as Hbegin.
  { intros H. exists st1'. by apply begin_value_app. }
  destruct Hsim as [(-> & Ht & He)|[(-> & -> & Hm)|(-> & Hm)]];
    [|exfalso; cbn [scan_step] in Hstep; rewrite Hws in Hstep by done; by simplify_eq
     |apply Hend; [done|by apply Hws|done]].
  destruct st2 as [| | | | | | | |more| | | | | | | | |word rest|]; try done; try specialize (Hws ltac:(done)).
  all: cbn [scan_step] in Hstep |- *; rewrite ?Hws in Hstep |- *.
  all: try (by apply Hbegin).
  all: try (by apply Hend).
  1: case_decide; [by apply end_value_app|by apply Hbegin].
  1: case_decide; [destruct s1 as [|p s1]; [by simplify_eq|]; by apply (end_value_app (ObjectValue :: s1))|].
  all: repeat case_decide; repeat case_match; simplify_eq; try done.
  all: try (eexists; split; [done|]; split; [by apply sim_same|done]).
  all: try (by apply end_value_app).
  match goal with |- context [(Literal ?w ?r, _) = _] => exists (Literal w r) end.
  split; [done|]. split; [by apply sim_same|]. cbn [sane] in *. rewrite !elem_of_cons, elem_of_nil in Hsane.
  destruct_or! Hsane; simplify_eq; by apply (bool_decide_unpack _).
Qed.

Lemma sim_string s1 st2 : sim s1 InString st2 → st2 = InString.
Proof. by intros [(-> & _)|[(? & _)|(? & _)]]. Qed.

Lemma string_step stack c : 128 ≤ nat_of_ascii c → scan_step InString stack c = (InString, stack).
Proof. intros H. cbn [scan_step]. rewrite !decide_False; [done|lia|..]; intros ->; vm_compute in H; lia. Qed.

Lemma escaped_cases c s out more : escaped (String c s) = (out, more) →
  (out = String c "" ∧ more = 0) ∨
  (foreign c ∧ (∀ stack, scan InString stack out = (InString, stack)) ∧ high more s).
Proof.
  cbn [escaped]. case_match eqn:Hc.
  { apply bool_decide_eq_true in Hc. intros [= <- <-]. right. split_and!; [by left| |constructor].
    rewrite !elem_of_cons, elem_of_nil in Hc. intros stack. by destruct Hc as [->|[->|[->|[]]]]. }
  assert (∀ b, String.substring 0 3 (String c s) = bytes_of [226; 128; b] → 128 ≤ b < 256 → foreign c ∧ high 2 s) as Hsep.
  { intros b H Hb. destruct s as [|x [|y s]]; cbn in H; [done..|]. injection H as -> -> ->. split; [right; vm_compute; lia|].
    unfold high. cbn. repeat constructor; rewrite nat_ascii_embedding; lia. }
  clear Hc. case_decide as H1; [intros E; simplify_eq; right; destruct (Hsep 168 H1); [lia|done]|].
  case_decide as H2; [intros E; simplify_eq; right; destruct (Hsep 169 H2); [lia|done]|].
  intros [= <- <-]. by left.
Qed.

Lemma ws_not_foreign c : is_ws c = true → ¬ foreign c.
Proof. intros Hw Hf. apply foreign_facts in Hf as [Hw' _]. congruence. Qed.

(** The whole text. *)
Lemma compact_scan s : ∀ st1 s1 dropped out st2,
  compact_from st1 s1 dropped s = Ok out → sim s1 st1 st2 → sane st1 →
  (deepest st1 s1 s + N.of_nat (length base) ≤ maxNestingDepth)%N →
  dropped = 0 ∨ (st1 = InString ∧ high dropped s) →
  ∃ st3, scan st2 (s1 ++ base) out = (st3, base) ∧ may_end st3 = true.
Proof.
  induction s as [|c s IH]; intros st1 s1 dropped out st2 Hc Hsim Hsane Hl Hd.
  - cbn [compact_from] in Hc. apply bind_ok_inv in Hc as ([] & He & [= <-]).
    assert (s1 = [] ∧ may_end st2 = true) as [-> Hm]; [|by exists st2].
    assert (sim s1 EndTop st2 → s1 = [] ∧ may_end st2 = true) as Hend.
    { intros [(_ & ? & _)|[(_ & -> & ->)|(? & _)]]; done. }
    destruct (scan_step st1 s1 " ") as [st1' s1'] eqn:Hs. unfold scan_eof in He. rewrite Hs in He.
    destruct (skips st1 " ") eqn:Hk; [|by destruct st1; vm_compute in Hk; simplify_eq/=].
    destruct st1' eqn:Hst'; try (by destruct st1; try done; apply Hend).
    destruct (skip_step s1 st1 st2 " " _ s1' Hsim Hsane Hs) as (_ & Hsim' & _); [done..|]. by apply Hend.
  - cbn [compact_from] in Hc. destruct (scan_step st1 s1 c) as [st1' s1'] eqn:Hs.
    assert (deepest st1' s1' s + N.of_nat (length base) ≤ maxNestingDepth)%N as Hl'.
    { cbn [deepest] in Hl. rewrite Hs in Hl. lia. }
    destruct (match dropped with 0 => escaped (String c s) | S more => ("", more) end) as [o more] eqn:Ho.
    assert (st1' ≠ ScanError ∧ ∃ rest, compact_from st1' s1' more s = Ok rest ∧ out = (if skips st1 c then "" else o) +:+ rest)
      as (Hst & rest & Hrest & ->).
    { destruct st1'; try done; apply bind_ok_inv in Hc as (tail & Hr & [= <-]); (split; [done|]); by exists tail. }
    clear Hc. destruct dropped as [|dropped].
    2: { destruct Hd as [?|[-> Hh]]; [done|]. injection Ho as <- <-. unfold high in Hh. cbn in Hh.
         apply Forall_cons in Hh as [Hc Hh]. rewrite string_step in Hs by done. injection Hs as <- <-.
         assert (skips InString c = false) as -> by (unfold skips; apply andb_false_r). rewrite append_nil_l.
         eapply IH; [done..|]. by right. }
    destruct (skips st1 c) eqn:Hk.
    { destruct (skip_step s1 st1 st2 c _ s1' Hsim Hsane Hs Hst Hk) as (-> & Hsim' & Hsane').
      apply andb_true_iff in Hk as [Hw _]. apply escaped_cases in Ho as [[_ ->]|[Hf _]]; [|by apply ws_not_foreign in Hf].
      rewrite append_nil_l. eapply IH; [done..|]. by left. }
    pose proof (deepest_here st1' s1' s) as Hh.
    destruct (copy_step s1 st1 st2 c _ s1' Hsim Hsane Hs Hst Hk) as (st2' & Hs2 & Hsim' & Hsane'); [lia|].
    apply escaped_cases in Ho as [[-> ->]|(Hf & Hesc & Hhigh)].
    + rewrite append_cons, append_nil_l. cbn [scan]. rewrite Hs2. eapply IH; [done..|]. by left.
    + assert (st1 = InString) as -> by (by eapply only_in_string).
      apply sim_string in Hsim as ->. rewrite scan_app, Hesc.
      destruct Hf as [Hf|Hf].
      * assert (st1' = InString ∧ s1' = s1) as [-> ->].
        { rewrite !elem_of_cons, elem_of_nil in Hf. cbn [scan_step] in Hs.
          repeat case_decide; simplify_eq; try done; vm_compute in Hf; lia. }
        eapply IH; [done|by apply sim_same|done|done|by right].
      * rewrite string_step in Hs by done. injection Hs as <- <-. eapply IH; [done|by apply sim_same|done|done|by right].
Qed.
End inside.

Lemma compact_starts s out : compact_from BeginValue [] 0 s = Ok out → starts_value out = true.
Proof.
  induction s as [|c s IH] in out |- *; [done|]. cbn [compact_from]. destruct (scan_step BeginValue [] c) as [st' s1'] eqn:Hs.
  destruct (escaped (String c s)) as [o more] eqn:Ho. intros H.
  assert (st' ≠ ScanError ∧ ∃ rest, compact_from st' s1' more s = Ok rest ∧ out = (if skips BeginValue c then "" else o) +:+ rest)
    as (Hst & rest & Hrest & ->).
  { destruct st'; try done; apply bind_ok_inv in H as (tail & Hr & [= <-]); (split; [done|]); by exists tail. }
  clear H. destruct (is_ws c) eqn:Hw.
  - assert (skips BeginValue c = true) as -> by (unfold skips; by rewrite Hw). rewrite append_nil_l.
    cbn [scan_step] in Hs. rewrite Hw in Hs. injection Hs as <- <-.
    apply escaped_cases in Ho as [[_ ->]|[Hf _]]; [by apply IH|by apply ws_not_foreign in Hf].
  - assert (skips BeginValue c = false) as -> by (unfold skips; by rewrite Hw).
    apply escaped_cases in Ho as [[-> _]|[Hf _]].
    2: { by pose proof (only_in_string BeginValue [] c st' s1' I Hf Hs Hst). }
    rewrite append_cons. unfold starts_value. rewrite Hw. simpl. apply bool_decide_eq_true. intros ->. vm_compute in Hs. by injection Hs as <- <-.
Qed.

Lemma compact_value s out : compact s = Ok out → is_value (raw_depth s) out.
Proof.
  intros H. split; [by apply (compact_starts s)|]. intros stack Hne Hl.
  apply (compact_scan stack Hne s BeginValue [] 0 out BeginValue H); [by apply sim_same|done| |by left].
  unfold raw_depth in Hl. lia.
Qed.

Lemma scan_error_stays stack s : ∃ stack', scan ScanError stack s = (ScanError, stack').
Proof. induction s as [|c s IH]; [by exists stack|]. exact IH. Qed.

Lemma scan_error_eof stack : scan_eof ScanError stack = Err (syntax_error ScanError stack " ").
Proof. done. Qed.

Lemma compact_ok st stack dropped s :
  is_ok (compact_from st stack dropped s) = let '(st', stack') := scan st stack s in is_ok (scan_eof st' stack').
Proof.
  revert st stack dropped. induction s as [|c s IH]; intros st stack dropped; cbn [compact_from scan].
  { by destruct (scan_eof st stack). }
  destruct (match dropped with 0 => escaped (String c s) | S more => ("", more) end) as [o more].
  destruct (scan_step st stack c) as [st' stack'].
  destruct (match st' with ScanError => true | _ => false end) eqn:He.
  - destruct st'; try done. by destruct (scan_error_stays stack' s) as [? ->].
  - rewrite <-(IH st' stack' more). destruct st'; try done; by destruct (compact_from _ stack' more s).
Qed.

(** Raw JSON is accepted exactly when it is valid. *)
Lemma compact_iff s : is_ok (compact s) = json_Valid s.
Proof.
  unfold compact, json_Valid. rewrite compact_ok. destruct (scan BeginValue [] s) as [st stack]. unfold scan_eof.
  destruct st; try done; by destruct (scan_step _ stack " ") as [[] ?].
Qed.

(** ** Dynamic values *)

Lemma all_ok_Forall {A} (l : list (result A)) xs :
  all_ok l = Ok xs ↔ Forall2 (λ r x, r = Ok x) l xs.
Proof.
  revert xs. induction l as [|r l IH]; intros xs; cbn [all_ok].
  { split; [intros [= <-]; constructor|]. by inversion 1. }
  split.
  - intros (x & -> & H)%bind_ok_inv. apply bind_ok_inv in H as (xs' & H & [= <-]). constructor; [done|]. by apply IH.
  - inversion 1 as [|? x ? xs' Hx Hl]; subst. simpl. by rewrite (proj2 (IH xs') Hl).
Qed.

Lemma all_ok_is_ok {A} (l : list (result A)) : is_ok (all_ok l) = true ↔ Forall (λ r, is_ok r = true) l.
Proof.
  induction l as [|r l IH]; [by split|]. cbn [all_ok]. rewrite Forall_cons, <-IH.
  destruct r as [x|e]; simpl; [|by split; [|intros []]]. destruct (all_ok l); simpl; split; try done; tauto.
Qed.

Lemma map_json_members d g s :
  (∀ k v, g !! k = Some (Ok v) → is_value d v) → map_json g = Ok s → is_value (d + 1) s.
Proof.
  intros Hg. unfold map_json. intros (ms & Hms & <-)%fmap_ok_inv. apply object_value. apply all_ok_Forall in Hms.
  apply Forall_forall. intros m [i Hi]%list_elem_of_lookup.
  destruct (Forall2_lookup_r _ _ _ _ _ Hms Hi) as (r & Hr & Hrm).
  apply list_lookup_fmap_Some in Hr as ([k v] & -> & Hkv). simpl in Hrm. apply fmap_ok_inv in Hrm as (v' & -> & <-).
  exists k, v'. split; [done|]. apply (Hg k). apply elem_of_map_to_list. rewrite <-(merge_sort_Permutation name_le).
  apply list_elem_of_lookup. by exists i.
Qed.

Lemma map_json_ok g : is_ok (map_json g) = true ↔ map_Forall (λ _ r, is_ok r = true) g.
Proof.
  unfold map_json. transitivity (Forall (λ kv : string * result string, is_ok kv.2 = true) (map_to_list g)).
  2: { rewrite map_Forall_to_list. apply Forall_iff. by intros []. }
  pose proof (merge_sort_Permutation name_le (map_to_list g)) as Hp.
  set (l := merge_sort name_le (map_to_list g)) in *.
  transitivity (Forall (λ kv : string * result string, is_ok kv.2 = true) l); [|by rewrite Hp].
  assert (is_ok (all_ok ((λ kv : string * result string, member_text kv.1 <$> kv.2) <$> l)) = true ↔
    Forall (λ kv : string * result string, is_ok kv.2 = true) l) as H.
  { rewrite all_ok_is_ok, Forall_fmap. apply Forall_iff. intros [k [v|e]]; done. }
  rewrite <-H. by destruct (all_ok _).
Qed.

Section values.
Variables float32_text float64_text : Z → string.
Variable other_json : string → Z → result string.
Variable D : N.

(** The standard library writes finite floats as numbers, and what a value of another
    type marshals to is JSON, at most [D] brackets deep. *)
Hypothesis float32_number : ∀ bits, Registration.nonfinite32 bits = false → is_value 0 (float32_text bits).
Hypothesis float64_number : ∀ bits, Registration.nonfinite64 bits = false → is_value 0 (float64_text bits).
Hypothesis other_value : ∀ t id s, other_json t id = Ok s → is_value D s.

Local Abbreviation any_json := (any_json float32_text float64_text other_json).

Lemma any_value v s : any_json v = Ok s → is_value (N.of_nat (any_depth v) + D) s.
Proof.
  revert s. induction v as [|b|s0|k n|n|n|t n| | |g IH|l IH] using any_rect_depth; intros s; cbn [GoMarshal.any_json].
  - intros [= <-]. eapply is_value_weaken, constant_value; [lia|set_solver].
  - intros [= <-]. eapply is_value_weaken, constant_value; [lia|]. destruct b; set_solver.
  - intros [= <-]. eapply is_value_weaken, quote_value. lia.
  - intros [= <-]. eapply is_value_weaken, int_value. lia.
  - unfold float32_json. destruct (Registration.nonfinite32 n) eqn:Hn; [done|]. intros [= <-].
    eapply is_value_weaken, float32_number; [lia|done].
  - unfold float64_json. destruct (Registration.nonfinite64 n) eqn:Hn; [done|]. intros [= <-].
    eapply is_value_weaken, float64_number; [lia|done].
  - intros H. eapply is_value_weaken, other_value; [lia|done].
  - intros [= <-]. eapply is_value_weaken, constant_value; [lia|set_solver].
  - intros [= <-]. eapply is_value_weaken, constant_value; [lia|set_solver].
  - intros H. eapply is_value_weaken; cycle 1.
    + eapply (map_json_members (N.of_nat (pred (any_depth (AMap (Some g)))) + D)); [|exact H].
      intros k v Hk. rewrite lookup_fmap in Hk. apply fmap_Some in Hk as (a & Ha & Hv).
      eapply is_value_weaken; [|by eapply (IH k a Ha)]. pose proof (any_depth_map g k a Ha). lia.
    + simpl. lia.
  - intros (ss & Hss & <-)%fmap_ok_inv. apply all_ok_Forall in Hss. eapply is_value_weaken; cycle 1.
    + apply (array_value (N.of_nat (pred (any_depth (ASlice (Some l)))) + D)). apply Forall_forall.
      intros t [i Hi]%list_elem_of_lookup. destruct (Forall2_lookup_r _ _ _ _ _ Hss Hi) as (r & Hr & Hrt).
      apply list_lookup_fmap_Some in Hr as (a & -> & Ha). apply list_elem_of_lookup_2 in Ha.
      rewrite Forall_forall in IH. eapply is_value_weaken; [|by eapply (IH a Ha)].
      pose proof (any_depth_slice l a Ha). lia.
    + simpl. lia.
Qed.
End values.

(** ** Which values can be written *)

(** A value found inside another, at any depth. *)
Definition child (w v : any) : Prop :=
  match v with
  | AMap (Some g) => ∃ k, g !! k = Some w
  | ASlice (Some l) => w ∈ l
  | _ => False
  end.
Definition inside (w v : any) : Prop := rtc (λ v w, child w v) v w.

Definition writable (other_json : string → Z → result string) (w : any) : Prop :=
  match w with
  | AFloat32 bits => Registration.nonfinite32 bits = false
  | AFloat64 bits => Registration.nonfinite64 bits = false
  | AOther t id => is_ok (other_json t id) = true
  | _ => True
  end.

Lemma any_json_ok f32 f64 other v :
  is_ok (any_json f32 f64 other v) = true ↔ ∀ w, inside w v → writable other w.
Proof.
  assert (∀ v, (∀ w, ¬ child w v) → (∀ w, inside w v → writable other w) ↔ writable other v) as Hleaf.
  { intros v0 Hc. split; [intros H; apply H, rtc_refl|]. intros H w Hw. apply rtc_inv in Hw as [->|(x & Hx & _)]; [done|].
    by apply Hc in Hx. }
  assert (∀ v, writable other v → (∀ w, inside w v → writable other w) ↔ ∀ x, child x v → ∀ w, inside w x → writable other w)
    as Hnode.
  { intros v0 H0. split.
    - intros H x Hx w Hw. apply H. by eapply rtc_l.
    - intros H w Hw. apply rtc_inv in Hw as [->|(x & Hx & Hw)]; [done|]. by apply (H x). }
  induction v as [|b|s0|k n|n|n|t n| | |g IH|l IH] using any_rect_depth; cbn [any_json];
    try (rewrite Hleaf by (intros w []); cbn [writable]; done).
  - rewrite Hleaf by (intros w []). cbn [writable]. unfold float32_json. by destruct (Registration.nonfinite32 n).
  - rewrite Hleaf by (intros w []). cbn [writable]. unfold float64_json. by destruct (Registration.nonfinite64 n).
  - rewrite map_json_ok, Hnode by done. split.
    + intros H x [k Hk]. apply (IH k x Hk). apply (H k). by rewrite lookup_fmap, Hk.
    + intros H k r Hr. rewrite lookup_fmap in Hr. apply fmap_Some in Hr as (a & Ha & ->). apply (IH k a Ha), H. by exists k.
  - rewrite Hnode by done. assert (is_ok (array_text <$> all_ok (any_json f32 f64 other <$> l)) = true ↔
      Forall (λ a, is_ok (any_json f32 f64 other a) = true) l) as ->.
    { pose proof (all_ok_is_ok (any_json f32 f64 other <$> l)) as E. rewrite Forall_fmap in E. unfold compose in E.
      rewrite <-E. by destruct (all_ok _). }
    rewrite !Forall_forall in *. split; intros H x Hx; apply (IH x Hx), H, Hx.
Qed.
