(* ===== verification/ClaudeSpec.v ===== *)
(** * The Claude Code agent (pkg/manager/agent/claudecode/spec.go)

    The spec runs the agent's binary, writes a settings file and a document, and
    describes how the agent is called. A settings template is a function from the
    workspace; commands and writes go through the infrastructure ([icall]). *)

From S2P Require Import Prelude GoString GoError GoValue GoPath GoFilepath GoJSON WorkspaceTypes Proc WorkspaceWorld.
From S2P Require Import Registration RegistrationSpec LocalDir LocalDirOps ClaudeLayout.
From Stdlib Require Import Ascii.
From stdpp Require Import options.
Set Default Proof Using "Type*".

Module ClaudeSpec.
Import Registration ClaudeLayout.

Definition specType : AgentType := "claude-code".
Definition specDisplayName := "Claude Code".
Definition specDescription :=
  "Anthropic's Claude Code CLI as a CLI-only workspace bootstrapped in an InfraOps environment.".
Definition defaultBinary := "claude".

Definition ErrBinaryUnavailable : error := ENew "claudecode: binary unavailable".

(** A template: whether it can be cloned, and what executing it gives. *)
Record Template := { tpl_Clone : option error; tpl_Execute : WorkspaceSummary → result string }.

Record Options := { opt_Binary : string; opt_SettingsTemplate : option Template; opt_ProbeArgs : list string }.

Record Spec := { binary : string; settingsTemplate : option Template; probeArgs : list string }.

(** ** Construction *)

(** [strings.ContainsAny(s, chars)], for ASCII [chars]. *)
Definition strings_ContainsAny (s chars : string) : bool :=
  existsb (λ c, has_byte c s) (String.list_ascii_of_string chars).

Definition new_binary (b : string) : result string :=
  if decide (b = "") then Ok defaultBinary
  else if decide (strings_TrimSpace b = "") then Err (ENew "claudecode new: binary must not be blank")
  else if strings_ContainsAny b ";|&><" then
    Err (Errorf ("claudecode new: binary contains shell metacharacters: " +:+ strconv_Quote b))
  else Ok b.

Fixpoint check_args (idx : Z) (args : list string) : result unit :=
  match args with
  | [] => Ok ()
  | arg :: args' =>
    if decide (arg = "") then Err (Errorf ("claudecode new: probe args[" +:+ strconv_Itoa idx +:+ "] is empty"))
    else check_args (idx + 1) args'
  end.

Definition new_args (args : list string) : result (list string) :=
  if decide (args = []) then Ok ["--version"]
  else if decide (8 < length args) then
    Err (Errorf ("claudecode new: probe args exceed limit: " +:+ strconv_Itoa (Z.of_nat (length args))))
  else
    _ ← check_args 0 args;
    Ok args.

Definition New (opts : Options) : result Spec :=
  binary ← new_binary (opt_Binary opts);
  args ← new_args (opt_ProbeArgs opts);
  match opt_SettingsTemplate opts with
  | Some t =>
    match tpl_Clone t with
    | Some err => Err (Errorf_w "claudecode new: clone settings template: " err "")
    | None => Ok {| binary := binary; settingsTemplate := Some t; probeArgs := args |}
    end
  | None => Ok {| binary := binary; settingsTemplate := None; probeArgs := args |}
  end.

(** ** The binary *)

Definition binaryName (s : Spec) : string := if decide (binary s = "") then defaultBinary else binary s.

Definition probeCommandArgs (s : Spec) : list string :=
  if decide (probeArgs s = []) then ["--version"] else probeArgs s.

Definition newline : ascii := "010".

Fixpoint firstNonEmptyString (values : list string) : string :=
  match values with
  | [] => ""
  | v :: values' => if decide (v = "") then firstNonEmptyString values' else v
  end.

Definition firstNonEmptyLine (value : string) : string :=
  firstNonEmptyString (strings_TrimSpace <$> strings_Split newline value).

Definition version_command (s : Spec) (args : list string) : LocalDirOps.ExecCommand :=
  {| LocalDirOps.ec_Program := binaryName s; LocalDirOps.ec_Args := args; LocalDirOps.ec_Env := [];
     LocalDirOps.ec_WorkDir := ""; LocalDirOps.ec_Stdout := false; LocalDirOps.ec_Stderr := false;
     LocalDirOps.ec_Timeout := 0 |}.

Definition execVersion (s : Spec) (c : ctx) (args : list string) : iproc (result string) :=
  result ← call (IExec c (version_command s args));
  mret match result with
       | Err err => Err (Errorf_w "" ErrBinaryUnavailable (": " +:+ Error err))
       | Ok r =>
         if decide (LocalDirOps.er_ExitCode r ≠ 0)%Z then
           let reason := firstNonEmptyString
             [strings_TrimSpace (LocalDirOps.er_Stderr r); strings_TrimSpace (LocalDirOps.er_Stdout r);
              "exit code " +:+ strconv_Itoa (LocalDirOps.er_ExitCode r)] in
           Err (Errorf_w "" ErrBinaryUnavailable (": " +:+ reason))
         else Ok (firstNonEmptyString
           [firstNonEmptyLine (LocalDirOps.er_Stdout r); firstNonEmptyLine (LocalDirOps.er_Stderr r); "unknown"])
       end.

(** ** The files *)

Definition nl : string := String newline "".
Definition quote : string := String "034" "".

(** [json.MarshalIndent] of the settings struct, and a line feed. *)
Definition settings_head : string :=
  "{" +:+ nl +:+
  "  " +:+ quote +:+ "schema_version" +:+ quote +:+ ": 1," +:+ nl +:+
  "  " +:+ quote +:+ "workspace" +:+ quote +:+ ": {" +:+ nl +:+
  "    " +:+ quote +:+ "alias" +:+ quote +:+ ": ".
Definition settings_middle : string := "," +:+ nl +:+ "    " +:+ quote +:+ "namespace" +:+ quote +:+ ": ".
Definition settings_tail : string := nl +:+ "  }" +:+ nl +:+ "}" +:+ nl.

Definition default_settings (w : WorkspaceSummary) : string :=
  settings_head +:+ json_quote (ws_Alias w) +:+ settings_middle +:+ json_quote (ws_Namespace w) +:+ settings_tail.

Definition renderSettings (s : Spec) (w : WorkspaceSummary) : result string :=
  match settingsTemplate s with
  | Some t =>
    match tpl_Execute t w with
    | Err err => Err (Errorf_w "execute settings template: " err "")
    | Ok out => if json_Valid out then Ok out else Err (Errorf "settings template produced invalid JSON")
    end
  | None => Ok (default_settings w)
  end.

Definition quoteAgentDocValue (value : string) : string := strconv_Quote value.

Definition plugin_lines (names : list string) : string :=
  if decide (names = []) then "- (none)" +:+ nl
  else foldr (λ n doc, "- " +:+ quoteAgentDocValue n +:+ nl +:+ doc) "" names.

Definition renderWorkspaceAgents (w : WorkspaceSummary) : string :=
  let pluginNames := merge_sort string_le (apr_Name <$> ws_Plugins w) in
  "# Workspace AGENTS" +:+ nl +:+ nl +:+
  "alias: " +:+ quoteAgentDocValue (ws_Alias w) +:+ nl +:+
  "namespace: " +:+ quoteAgentDocValue (ws_Namespace w) +:+ nl +:+
  "agent_type: claude-code" +:+ nl +:+ nl +:+
  "attached_plugins:" +:+ nl +:+ plugin_lines pluginNames.

(** ** The operations *)

Definition settingsPath : string := path_Join [".claude"; "settings.json"].

Definition Install (s : Spec) (c : ctx) (params : InstallParams) : iproc (result unit) :=
  version ← execVersion s c (probeCommandArgs s);
  match version with
  | Err err => mret (Err (Errorf_w "claudecode install verify binary: " err ""))
  | Ok _ =>
    match renderSettings s (ip_Workspace params) with
    | Err err => mret (Err (Errorf_w "claudecode install render settings: " err ""))
    | Ok settingsJSON =>
      put ← call (IPutFile c settingsPath (FromBytes settingsJSON) 420);
      match put with
      | Err err => mret (Err (Errorf_w "claudecode install put settings: " err ""))
      | Ok _ =>
        put ← call (IPutFile c "AGENTS.md" (FromBytes (renderWorkspaceAgents (ip_Workspace params))) 420);
        mret match put with
             | Err err => Err (Errorf_w "claudecode install put workspace agents: " err "")
             | Ok _ => Ok ()
             end
      end
    end
  end.

Definition Uninstall (s : Spec) (c : ctx) : iproc (result unit) := mret (Ok ()).

Definition Probe (s : Spec) (c : ctx) : iproc (ProbeResult * option error) :=
  start ← call INow;
  version ← execVersion s c (probeCommandArgs s);
  now ← call INow;
  let latency := (now - start)%Z in
  match version with
  | Err err =>
    now ← call INow;
    mret ({| pr_Healthy := false; pr_Latency := latency; pr_Detail := None;
             pr_Error := Some {| we_Code := "probe.binary_unavailable"; we_Message := Error err;
                                 we_Phase := "probe"; we_RecordedAt := now |} |}, None)
  | Ok version =>
    mret ({| pr_Healthy := true; pr_Latency := latency; pr_Detail := Some {["version" := version]};
             pr_Error := None |}, None)
  end.

Definition invocationCommand (s : Spec) : any :=
  ASlice (Some [AString (if decide (binaryName s = defaultBinary) then defaultBinary else binaryName s)]).

Definition ProtocolDescriptor_ (s : Spec) : ProtocolDescriptor :=
  {| pd_Kind := ProtocolKindCLI;
     pd_Detail := Some (<["command" := invocationCommand s]> (<["resume_flag" := AString "--resume"]>
       (<["cwd_relative_to_dir" := AString ""]> (<["stdin_input" := ABool true]> ∅)))) |}.

(** The spec, as the manager's spec set asks for it. *)
Definition agent_spec (s : Spec) : AgentSpec :=
  {| as_Type := specType; as_DisplayName := specDisplayName; as_PluginLayout := true;
     as_ProtocolDescriptor := ProtocolDescriptor_ s |}.
End ClaudeSpec.
