(* ===== verification/ClaudeSpecProps.v ===== *)
(** * What the Claude Code agent guarantees

    Which options make a spec, and that such a spec can be registered ([claude_new_iff]);
    that the settings written are valid JSON whatever the names ([default_settings_valid]); what
    an install does and in which order ([claude_install_spec]); what a probe reports
    ([claude_probe_spec]). *)

From S2P Require Import Prelude GoString GoError GoValue GoPath GoFilepath GoJSON WorkspaceTypes Proc WorkspaceWorld.
From S2P Require Import Registration RegistrationSpec LocalDir LocalDirOps ClaudeLayout ClaudeSpec.
From Stdlib Require Import Ascii.
From stdpp Require Import options.
Set Default Proof Using "Type*".

Module ClaudeSpecProps.
Import Registration RegistrationSpec ClaudeLayout ClaudeSpec.

(** ** Construction *)

Definition metacharacters := [";"; "|"; "&"; ">"; "<"]%char.

Definition binary_ok (b : string) : Prop :=
  b = "" ∨ (strings_TrimSpace b ≠ "" ∧ ∀ c, c ∈ metacharacters → has_byte c b = false).

Definition template_ok (t : option Template) : Prop := ∀ t', t = Some t' → tpl_Clone t' = None.

Definition spec_of (opts : Options) : Spec :=
  {| binary := if decide (opt_Binary opts = "") then defaultBinary else opt_Binary opts;
     settingsTemplate := opt_SettingsTemplate opts;
     probeArgs := if decide (opt_ProbeArgs opts = []) then ["--version"] else opt_ProbeArgs opts |}.

Lemma contains_any_false s chars :
  strings_ContainsAny s chars = false ↔ ∀ c, c ∈ String.list_ascii_of_string chars → has_byte c s = false.
Proof.
  unfold strings_ContainsAny. induction (String.list_ascii_of_string chars) as [|c l IH]; simpl.
  { split; [by intros _ c ?%not_elem_of_nil|done]. }
  rewrite orb_false_iff, IH. split.
  - intros [Hc Hl] d [->|Hd]%elem_of_cons; auto.
  - intros H. split; [apply H; by left|]. intros d Hd. apply H. by right.
Qed.

Lemma new_binary_iff b x :
  new_binary b = Ok x ↔ binary_ok b ∧ x = if decide (b = "") then defaultBinary else b.
Proof.
  unfold new_binary, binary_ok. case_decide as Hb; [split; [intros [= <-]; split; [by left|done]|by intros [_ ->]]|].
  case_decide as Ht; [split; [done|]; by intros [[?|[? _]] _]|].
  destruct (strings_ContainsAny b ";|&><") eqn:Hc.
  - split; [done|]. intros [[?|[_ H]] _]; [done|].
    assert (strings_ContainsAny b ";|&><" = false) by (by apply contains_any_false). congruence.
  - rewrite contains_any_false in Hc. split; [intros [= <-]; split; [right; by split|done]|]. by intros [_ ->].
Qed.

Lemma check_args_iff idx args : is_ok (check_args idx args) = true ↔ "" ∉ args.
Proof.
  revert idx. induction args as [|a args IH]; intros idx; simpl; [split; [intros _ ?%not_elem_of_nil; done|done]|].
  rewrite not_elem_of_cons. case_decide as Ha; [split; [done|]; by intros [[] _]|]. rewrite IH. split; [|by intros [_ ?]]. intros Hn. by split; [intros E; apply Ha|].
Qed.

Lemma new_args_iff args x :
  new_args args = Ok x ↔ (length args ≤ 8 ∧ ("" ∉ args)) ∧ x = if decide (args = []) then ["--version"] else args.
Proof.
  unfold new_args. case_decide as Ha.
  { subst. split; [intros [= <-]; split_and!; [simpl; lia|by intros ?%not_elem_of_nil|done]|by intros [_ ->]]. }
  case_decide as Hl; [split; [done|]; intros [[? _] _]; lia|].
  pose proof (check_args_iff 0 args) as Hc. destruct (check_args 0 args) as [u|e]; simpl in *.
  - split; [intros [= <-]; split_and!; [lia|by apply Hc|done]|by intros [_ ->]].
  - split; [done|]. intros [[_ H] _]. by apply Hc in H.
Qed.

Lemma new_iff opts s :
  New opts = Ok s ↔
  (binary_ok (opt_Binary opts) ∧ length (opt_ProbeArgs opts) ≤ 8 ∧ ("" ∉ opt_ProbeArgs opts) ∧
   template_ok (opt_SettingsTemplate opts)) ∧ s = spec_of opts.
Proof.
  unfold New, template_ok, spec_of. destruct (new_binary (opt_Binary opts)) as [b|e] eqn:Hb; simpl.
  2: { split; [done|]. intros [[H _] _].
       assert (new_binary (opt_Binary opts) = Ok (if decide (opt_Binary opts = "") then defaultBinary else opt_Binary opts))
         by (by apply new_binary_iff). congruence. }
  apply new_binary_iff in Hb as [Hb ->]. destruct (new_args (opt_ProbeArgs opts)) as [args|e] eqn:Ha; simpl.
  2: { split; [done|]. intros [(_ & H1 & H2 & _) _].
       assert (new_args (opt_ProbeArgs opts) = Ok (if decide (opt_ProbeArgs opts = []) then ["--version"] else opt_ProbeArgs opts))
         by (by apply new_args_iff). congruence. }
  apply new_args_iff in Ha as [[Hl Hn] ->]. destruct (opt_SettingsTemplate opts) as [t|] eqn:Ht.
  - destruct (tpl_Clone t) eqn:Hc.
    + split; [done|]. intros [(_ & _ & _ & H) _]. specialize (H t eq_refl). congruence.
    + split; [intros [= <-]; split_and!; try done; by intros t' [= <-]|by intros [_ ->]].
  - split; [intros [= <-]; by split_and!|by intros [_ ->]].
Qed.

Lemma claude_descriptor `{!MapRange} s : is_nil (ValidateProtocolDescriptor (ProtocolDescriptor_ s)).
Proof.
  apply descriptor_iff. split; [by left|]. intros k v. simpl.
  rewrite !lookup_insert_Some, lookup_empty.
  intros [[<- <-]|[_ [[<- <-]|[_ [[<- <-]|[_ [[<- <-]|[_ ?]]]]]]]]; (split; [done|]); try constructor; [|done].
  simpl. repeat constructor.
Qed.

(** A spec is made exactly of options with no binary, or one that is not blank and
    has no shell metacharacter, at most eight probe arguments none of which is empty,
    and no template or one that can be cloned; it runs that binary with those arguments,
    [claude --version] where none are given. Such a spec is accepted by the manager's
    spec set, once. *)
Theorem claude_new_iff (R : MapRange) (opts : Options) (s : Spec) :
  (New opts = Ok s ↔
   (binary_ok (opt_Binary opts) ∧ length (opt_ProbeArgs opts) ≤ 8 ∧ ("" ∉ opt_ProbeArgs opts) ∧
    template_ok (opt_SettingsTemplate opts)) ∧ s = spec_of opts) ∧
  (New opts = Ok s → binaryName s = binary s ∧ probeCommandArgs s = probeArgs s) ∧
  (∀ set : SpecSet,
     SpecSet_Register (Some (agent_spec s)) set =
     match set !! specType with
     | None => (Ok (), <[specType := agent_spec s]> set)
     | Some _ => (Err (Errorf_w "" ErrAgentTypeConflict (": " +:+ strconv_Quote specType)), set)
     end).
Proof.
  split; [apply new_iff|]. split.
  - intros [_ ->]%new_iff. unfold binaryName, probeCommandArgs, spec_of. simpl.
    split; repeat case_decide; done.
  - intros set. unfold SpecSet_Register. cbn [agent_spec as_Type as_DisplayName as_PluginLayout as_ProtocolDescriptor negb].
    rewrite (decide_False (P := specDisplayName = "")) by done.
    assert (ValidateAgentType specType = Ok ()) as -> by (vm_compute; reflexivity).
    pose proof (claude_descriptor s) as Hd. unfold is_nil in Hd.
    destruct (ValidateProtocolDescriptor _); [|done]. by destruct (set !! specType).
Qed.

Lemma claude_new_iff_witness (opts := {| opt_Binary := "/usr/bin/claude"; opt_SettingsTemplate := None; opt_ProbeArgs := ["-v"] |}) :
  New opts = Ok (spec_of opts) ∧ binaryName (spec_of opts) = "/usr/bin/claude".
Proof.
  assert (New opts = Ok (spec_of opts)) as H by reflexivity. split; [exact H|].
  destruct (claude_new_iff canonical_range opts (spec_of opts)) as (_ & Hb & _).
  destruct (Hb H) as [E _]. exact E.
Defined.

(** ** Settings *)

Lemma scan_quote stack s t : scan BeginValue stack (json_quote s +:+ t) = scan EndValue stack t.
Proof.
  unfold json_quote. rewrite append_cons, append_assoc. change (String "034" "" +:+ t) with (String "034" t).
  cbn [scan scan_step]. apply scan_quoted.
Qed.

Lemma default_settings_valid w : json_Valid (default_settings w) = true.
Proof.
  unfold json_Valid, default_settings. rewrite scan_app.
  assert (scan BeginValue [] settings_head = (BeginValue, [ObjectValue; ObjectValue])) as -> by (vm_compute; reflexivity).
  rewrite scan_quote, scan_app.
  assert (scan EndValue [ObjectValue; ObjectValue] settings_middle = (BeginValue, [ObjectValue; ObjectValue])) as ->
    by (vm_compute; reflexivity).
  rewrite scan_quote.
  assert (scan EndValue [ObjectValue; ObjectValue] settings_tail = (EndTop, [])) as -> by (vm_compute; reflexivity).
  done.
Qed.

(** What is rendered is valid JSON. *)
Lemma render_valid s w out : renderSettings s w = Ok out → json_Valid out = true.
Proof.
  unfold renderSettings. destruct (settingsTemplate s) as [t|].
  - destruct (tpl_Execute t w) as [o|e]; [|done]. destruct (json_Valid o) eqn:Hv; [|done]. by intros [= <-].
  - intros [= <-]. apply default_settings_valid.
Qed.

(** ** Installing and probing *)

(** The binary ran and succeeded. *)
Definition runs (x : result LocalDirOps.ExecResult) : bool :=
  match x with Ok r => bool_decide (LocalDirOps.er_ExitCode r = 0)%Z | Err _ => false end.

Definition version_event (s : Spec) (c : ctx) (x : result LocalDirOps.ExecResult) : ievent :=
  Ev (IExec c (version_command s (probeCommandArgs s))) x.

Lemma first_nonempty_some l v : v ∈ l → v ≠ "" → firstNonEmptyString l ≠ "".
Proof.
  induction l as [|x l IH]; [by intros ?%not_elem_of_nil|]. simpl. intros [->|H]%elem_of_cons Hv.
  - by rewrite decide_False.
  - case_decide; auto.
Qed.

Lemma exec_version_traces s c t r :
  traces (execVersion s c (probeCommandArgs s)) t r →
  ∃ x, t = [version_event s c x] ∧ is_ok r = runs x ∧
    (∀ v, r = Ok v → v ≠ "") ∧ (∀ e, r = Err e → errors_Is e ErrBinaryUnavailable = true).
Proof.
  unfold execVersion. intros H. trace_step H. trace_step H. exists x. split; [done|]. destruct x as [res|e].
  - case_decide as Hc; cbn [is_ok runs]; (split; [by rewrite ?bool_decide_true, ?bool_decide_false by done|]).
    + split; [done|]. intros e [= <-]. by rewrite Is_wrap.
    + split; [|done]. pose proof (first_nonempty_some [firstNonEmptyLine (LocalDirOps.er_Stdout res);
        firstNonEmptyLine (LocalDirOps.er_Stderr res); "unknown"] "unknown") as Hne.
      intros v [= <-]. apply Hne; [|done]. right. right. by left.
  - split_and!; [done|done|]. intros ? [= <-]. by rewrite Is_wrap.
Qed.

Definition put_event (c : ctx) (p data : string) (x : result unit) : ievent := Ev (IPutFile c p (FromBytes data) 420) x.

(** Installing runs the binary first and writes nothing unless it succeeded; then it
    writes the settings, which are valid JSON (the defaults, for any alias and namespace,
    where there is no template), and after them the document; it stops at the first
    failure and succeeds exactly when all three steps do. *)
Theorem claude_install_spec (s : Spec) (c : ctx) (params : InstallParams) (t : list ievent) (r : result unit) :
  traces (Install s c params) t r →
  let w := ip_Workspace params in
  let settings := put_event c settingsPath in
  let document := put_event c "AGENTS.md" (renderWorkspaceAgents w) in
  ∃ x,
    (t = [version_event s c x] ∧ is_ok r = false ∧ (runs x = false ∨ is_ok (renderSettings s w) = false)) ∨
    (runs x = true ∧ ∃ out, renderSettings s w = Ok out ∧ json_Valid out = true ∧
       (settingsTemplate s = None → out = default_settings w) ∧
       ((∃ e, t = [version_event s c x; settings out (Err e)] ∧ is_ok r = false) ∨
        (∃ y, t = [version_event s c x; settings out (Ok ()); document y] ∧ is_ok r = is_ok y))).
Proof.
  intros H w settings document. unfold Install in H. fold w in H. trace_step H.
  apply exec_version_traces in Hsub as (x & -> & Hr & _ & _). exists x.
  destruct a as [v|e]; simpl in Hr.
  2: { trace_step H. left. by split_and!; [..|left]. }
  destruct (renderSettings s w) as [out|e] eqn:Hs.
  2: { trace_step H. left. split_and!; [done|done|by right]. }
  pose proof (render_valid s w out Hs) as Hv. right. split; [done|]. exists out. split_and!; [done|done| |].
  { intros Hn. unfold renderSettings in Hs. rewrite Hn in Hs. by injection Hs. }
  trace_step H. destruct x0 as [[]|e].
  - trace_step H. trace_step H. right. exists x0. split; [done|]. by destruct x0.
  - trace_step H. left. by exists e.
Qed.

(** A probe runs the binary once and writes nothing. It never fails itself: the
    result is healthy exactly when the binary ran and exited with zero, and then names a
    version; otherwise it carries the reason. The latency is the time between the two
    readings of the clock around the run. *)
Theorem claude_probe_spec (s : Spec) (c : ctx) (t : list ievent) (res : ProbeResult) (err : option error) :
  traces (Probe s c) t (res, err) →
  err = None ∧ ∃ x t0 t1,
    pr_Healthy res = runs x ∧ pr_Latency res = (t1 - t0)%Z ∧
    if runs x then
      t = [Ev INow t0; version_event s c x; Ev INow t1] ∧ pr_Error res = None ∧
      ∃ v, v ≠ "" ∧ pr_Detail res = Some {["version" := v]}
    else ∃ t2 msg,
      t = [Ev INow t0; version_event s c x; Ev INow t1; Ev INow t2] ∧ pr_Detail res = None ∧
      pr_Error res = Some {| we_Code := "probe.binary_unavailable"; we_Message := msg; we_Phase := "probe";
                             we_RecordedAt := t2 |}.
Proof.
  intros H. unfold Probe in H. trace_step H. trace_step H.
  apply exec_version_traces in Hsub as (y & -> & Hr & Hv & _). trace_step H. destruct a as [v|e]; simpl in Hr.
  - apply traces_mret in H as [-> [= -> ->]]. split; [done|]. exists y, x, x0. rewrite <-Hr. split_and!; try done.
    exists v. split; [by apply Hv|done].
  - trace_step H. apply traces_mret in H as [-> [= -> ->]]. split; [done|]. exists y, x, x0. rewrite <-Hr.
    split_and!; try done. by exists x1, (Error e).
Qed.

(** *** A run *)

Definition sample_spec : Spec := spec_of {| opt_Binary := ""; opt_SettingsTemplate := None; opt_ProbeArgs := [] |}.
Definition sample_summary : WorkspaceSummary :=
  {| ws_ID := "ws_1"; ws_Namespace := "default"; ws_Alias := "a<b"; ws_AgentType := specType; ws_InfraType := "localdir";
     ws_Plugins := [{| apr_PluginID := "p"; apr_Name := "git-tools"; apr_ContentHash := "" |}] |}.

Definition healthy_answer (code : Z) (X : Type) (e : icall X) : X :=
  match e with
  | IGetFile _ _ => Err EOF
  | IPutFile _ _ _ _ => Ok ()
  | IExec _ _ => Ok {| LocalDirOps.er_ExitCode := code; LocalDirOps.er_Stdout := String newline "1.2.3";
                       LocalDirOps.er_Stderr := ""; LocalDirOps.er_Duration := 5 |}
  | ICloseReader _ => Ok ()
  | FSOpen _ => Err EOF
  | FSClose _ => Ok ()
  | INow => 7%Z
  end.

Definition sample_install (code : Z) :=
  run (tracer (healthy_answer code))
    (Install sample_spec (CtxParent 0) {| ip_Workspace := sample_summary; ip_UserParams := None |}) [].

Lemma claude_install_spec_witness :
  length (sample_install 0).2 = 3 ∧ (sample_install 0).1 = Ok () ∧
  ∃ y, (sample_install 1).2 = [version_event sample_spec (CtxParent 0) y] ∧ runs y = false.
Proof.
  split; [reflexivity|]. split; [reflexivity|].
  destruct (claude_install_spec sample_spec (CtxParent 0) {| ip_Workspace := sample_summary; ip_UserParams := None |}
    (sample_install 1).2 (sample_install 1).1) as [x [(Ht & _ & [Hr|Hs])|(Hr & out & _ & _ & _ & H)]].
  - apply (run_tracer (healthy_answer 1)). apply surjective_pairing.
  - exists x. by split.
  - done.
  - exfalso. destruct H as [(e & Ht & _)|(y & Ht & _)]; apply (f_equal length) in Ht; vm_compute in Ht; discriminate.
Defined.

Definition sample_probe (code : Z) := run (tracer (healthy_answer code)) (Probe sample_spec (CtxParent 0)) [].

Lemma claude_probe_spec_witness :
  pr_Healthy (sample_probe 0).1.1 = true ∧ pr_Detail (sample_probe 0).1.1 = Some {["version" := "1.2.3"]} ∧
  (sample_probe 1).1.2 = None ∧ pr_Healthy (sample_probe 1).1.1 = false.
Proof.
  split; [reflexivity|]. split; [vm_compute; reflexivity|]. split; [|reflexivity].
  apply (claude_probe_spec sample_spec (CtxParent 0) (sample_probe 1).2 (sample_probe 1).1.1 (sample_probe 1).1.2).
  apply (run_tracer (healthy_answer 1)). vm_compute. reflexivity.
Defined.
End ClaudeSpecProps.
