(* ===== verification/AgentIO.v ===== *)
(** * Requests to agents and their event streams (pkg/agentio)

    A request is a list of parts that is checked and put into a form for JSON; what an
    agent answers is a stream of events, read as one text or through an [io.Reader].
    [mime.TypeByExtension] reads tables of the system and is an argument. *)

From S2P Require Import Prelude GoString GoError GoValue Base64 WorkspaceTypes.
From Stdlib Require Import Ascii.
From stdpp Require Import options.
Set Default Proof Using "Type*".

Module AgentIO.

(** ** Parts *)

Definition BlobInline := "inline".
Definition BlobFile := "file".
Definition BlobURL := "url".

Record TextPart := { tp_Text : string }.
Record JSONPart := { jp_Name : string; jp_Data : string }.
Record BlobPart := {
  bp_Kind : string; bp_MIMEType : string; bp_Filename : string; bp_SourceType : string; bp_Data : string;
  bp_Path : string; bp_URL : string; bp_Size : Z; bp_Metadata : gomap string;
}.
Record ToolResultPart := { tr_ToolName : string; tr_CallID : string; tr_Data : string }.

(** A part is a struct or a pointer to one, which may be nil, or a value of some other
    type. *)
Inductive InputPart :=
| PText (p : TextPart) | PTextRef (p : option TextPart)
| PJSON (p : JSONPart) | PJSONRef (p : option JSONPart)
| PBlob (p : BlobPart) | PBlobRef (p : option BlobPart)
| PToolResult (p : ToolResultPart) | PToolResultRef (p : option ToolResultPart)
| POther (type_name : string).

Definition PartType (p : InputPart) : option string :=
  match p with
  | PText _ | PTextRef (Some _) => Some "text"
  | PJSON _ | PJSONRef (Some _) => Some "json"
  | PBlob _ | PBlobRef (Some _) => Some "blob"
  | PToolResult _ | PToolResultRef (Some _) => Some "tool_result"
  | _ => None
  end.

Definition blank (s : string) : Prop := strings_TrimSpace s = "".
#[export] Instance blank_dec s : Decision (blank s).
Proof. unfold blank. apply _. Defined.

Definition text_Validate (p : TextPart) : result unit :=
  if decide (blank (tp_Text p)) then Err (ENew "text part is empty") else Ok ().

Definition json_Validate (p : JSONPart) : result unit :=
  if decide (jp_Data p = "") then Err (ENew "json part is empty") else Ok ().

Definition blob_Validate (p : BlobPart) : result unit :=
  if decide (blank (bp_Kind p)) then Err (ENew "blob kind is required")
  else if decide (bp_SourceType p = BlobInline) then
    if decide (bp_Data p = "") then Err (ENew "inline blob has empty data") else Ok ()
  else if decide (bp_SourceType p = BlobFile) then
    if decide (blank (bp_Path p)) then Err (ENew "file blob has empty path") else Ok ()
  else if decide (bp_SourceType p = BlobURL) then
    if decide (blank (bp_URL p)) then Err (ENew "url blob has empty url") else Ok ()
  else Err (Errorf ("unsupported blob source type: " +:+ strconv_Quote (bp_SourceType p))).

Definition tool_result_Validate (p : ToolResultPart) : result unit :=
  if decide (blank (tr_ToolName p)) then Err (ENew "tool result missing tool name")
  else if decide (tr_Data p = "") then Err (ENew "tool result missing data")
  else Ok ().

(** ** Requests *)

Record InvokeOptions := {
  io_Model : string; io_Stream : bool; io_Timeout : Z; io_MaxOutputBytes : Z;
  io_Temperature : option Z; io_Extra : gomap any;
}.

Record InvokeRequest := {
  ir_RequestID : string; ir_SessionID : string; ir_Role : string; ir_Parts : list InputPart;
  ir_Metadata : gomap string; ir_Options : InvokeOptions;
}.

(** The error of a part: [unsupportedPartTypeError], which [errors.As] finds, or
    another. *)
Inductive part_error := Unsupported | Invalid (err : error).

Definition invalid (r : result unit) : option part_error :=
  match r with Ok _ => None | Err e => Some (Invalid e) end.

Definition validateInputPart (part : InputPart) : option part_error :=
  match part with
  | PText p | PTextRef (Some p) => invalid (text_Validate p)
  | PTextRef None => Some (Invalid (ENew "text part is nil"))
  | PJSON p | PJSONRef (Some p) => invalid (json_Validate p)
  | PJSONRef None => Some (Invalid (ENew "json part is nil"))
  | PBlob p | PBlobRef (Some p) => invalid (blob_Validate p)
  | PBlobRef None => Some (Invalid (ENew "blob part is nil"))
  | PToolResult p | PToolResultRef (Some p) => invalid (tool_result_Validate p)
  | PToolResultRef None => Some (Invalid (ENew "tool result part is nil"))
  | POther _ => Some Unsupported
  end.

(** [%T] of a part. *)
Definition go_type (part : InputPart) : string :=
  match part with
  | PText _ => "agentio.TextPart" | PTextRef _ => "*agentio.TextPart"
  | PJSON _ => "agentio.JSONPart" | PJSONRef _ => "*agentio.JSONPart"
  | PBlob _ => "agentio.BlobPart" | PBlobRef _ => "*agentio.BlobPart"
  | PToolResult _ => "agentio.ToolResultPart" | PToolResultRef _ => "*agentio.ToolResultPart"
  | POther t => t
  end.

Definition at_part (i : Z) : string := "parts[" +:+ strconv_Itoa i +:+ "]: ".

Fixpoint validate_parts (i : Z) (parts : list InputPart) : result unit :=
  match parts with
  | [] => Ok ()
  | part :: parts' =>
    match validateInputPart part with
    | Some Unsupported => Err (Errorf (at_part i +:+ "unsupported part type " +:+ go_type part))
    | Some (Invalid err) => Err (Errorf_w (at_part i) err "")
    | None => validate_parts (i + 1) parts'
    end
  end.

Definition Validate (r : InvokeRequest) : result unit :=
  if decide (ir_Parts r = []) then Err (ENew "request has no input parts") else validate_parts 0 (ir_Parts r).

(** ** The canonical form *)

Record CanonicalPart := {
  cp_Type : string; cp_Text : string; cp_Name : string; cp_Kind : string; cp_MIMEType : string;
  cp_Filename : string; cp_Source : gomap any; cp_Data : string; cp_Metadata : gomap string;
}.

Record canonicalOptions := {
  co_Model : string; co_Stream : bool; co_TimeoutMS : Z; co_MaxOutputBytes : Z;
  co_Temperature : option Z; co_Extra : gomap any;
}.

Record CanonicalRequest := {
  cr_RequestID : string; cr_SessionID : string; cr_Role : string; cr_Input : list CanonicalPart;
  cr_Metadata : gomap string; cr_Options : canonicalOptions;
}.

(** From the last dot on. *)
Fixpoint extension (filename : string) : string :=
  match filename with
  | EmptyString => ""
  | String c rest =>
    let e := extension rest in
    if decide (e = "") then (if decide (c = "."%char) then filename else "") else e
  end.

Definition durationMilliseconds (d : Z) : Z := Z.quot d 1000000.

Definition canonicalizeOptions (o : InvokeOptions) : canonicalOptions :=
  {| co_Model := io_Model o; co_Stream := io_Stream o;
     co_TimeoutMS := if decide (0 < io_Timeout o)%Z then durationMilliseconds (io_Timeout o) else 0%Z;
     co_MaxOutputBytes := io_MaxOutputBytes o; co_Temperature := io_Temperature o; co_Extra := io_Extra o |}.

Definition text_part (p : TextPart) : CanonicalPart :=
  {| cp_Type := "text"; cp_Text := tp_Text p; cp_Name := ""; cp_Kind := ""; cp_MIMEType := ""; cp_Filename := "";
     cp_Source := None; cp_Data := ""; cp_Metadata := None |}.
Definition json_part (p : JSONPart) : CanonicalPart :=
  {| cp_Type := "json"; cp_Text := ""; cp_Name := jp_Name p; cp_Kind := ""; cp_MIMEType := ""; cp_Filename := "";
     cp_Source := None; cp_Data := jp_Data p; cp_Metadata := None |}.
Definition tool_result_part (p : ToolResultPart) : CanonicalPart :=
  {| cp_Type := "tool_result"; cp_Text := ""; cp_Name := tr_ToolName p; cp_Kind := ""; cp_MIMEType := "";
     cp_Filename := ""; cp_Source := None; cp_Data := tr_Data p;
     cp_Metadata := Some {["call_id" := tr_CallID p]} |}.

Section canonical.
Variable mime_TypeByExtension : string → string.

Definition blob_source (p : BlobPart) : gmap string any :=
  let source : gmap string any := {["type" := AString (bp_SourceType p)]} in
  let source :=
    if decide (bp_SourceType p = BlobInline) then <["data_base64" := AString (base64_encode (bp_Data p))]> source
    else if decide (bp_SourceType p = BlobFile) then <["path" := AString (bp_Path p)]> source
    else if decide (bp_SourceType p = BlobURL) then <["url" := AString (bp_URL p)]> source
    else source in
  if decide (0 < bp_Size p)%Z then <["size" := AInt Kint64 (bp_Size p)]> source else source.

Definition canonicalBlobPart (p : BlobPart) : CanonicalPart :=
  {| cp_Type := bp_Kind p; cp_Text := ""; cp_Name := ""; cp_Kind := bp_Kind p;
     cp_MIMEType := if decide (bp_MIMEType p = "" ∧ bp_Filename p ≠ "")
                    then mime_TypeByExtension (extension (bp_Filename p)) else bp_MIMEType p;
     cp_Filename := bp_Filename p; cp_Source := Some (blob_source p); cp_Data := ""; cp_Metadata := bp_Metadata p |}.

Definition checked (i : Z) (r : result unit) (c : CanonicalPart) : result CanonicalPart :=
  match r with Err e => Err (Errorf_w (at_part i) e "") | Ok _ => Ok c end.

Definition canonical_part (i : Z) (part : InputPart) : result CanonicalPart :=
  match part with
  | PText p | PTextRef (Some p) => checked i (text_Validate p) (text_part p)
  | PTextRef None => Err (Errorf (at_part i +:+ "text part is nil"))
  | PJSON p | PJSONRef (Some p) => checked i (json_Validate p) (json_part p)
  | PJSONRef None => Err (Errorf (at_part i +:+ "json part is nil"))
  | PBlob p | PBlobRef (Some p) => checked i (blob_Validate p) (canonicalBlobPart p)
  | PBlobRef None => Err (Errorf (at_part i +:+ "blob part is nil"))
  | PToolResult p | PToolResultRef (Some p) => checked i (tool_result_Validate p) (tool_result_part p)
  | PToolResultRef None => Err (Errorf (at_part i +:+ "tool result part is nil"))
  | POther _ => Err (Errorf (at_part i +:+ "unsupported part type " +:+ go_type part))
  end.

Fixpoint canonical_parts (i : Z) (parts : list InputPart) : result (list CanonicalPart) :=
  match parts with
  | [] => Ok []
  | part :: parts' =>
    c ← canonical_part i part;
    cs ← canonical_parts (i + 1) parts';
    Ok (c :: cs)
  end.

Definition CanonicalizeParts (parts : list InputPart) : result (list CanonicalPart) := canonical_parts 0 parts.

Definition ToCanonicalRequest (req : option InvokeRequest) : result CanonicalRequest :=
  match req with
  | None => Err (ENew "nil request")
  | Some req =>
    _ ← Validate req;
    input ← CanonicalizeParts (ir_Parts req);
    Ok {| cr_RequestID := ir_RequestID req; cr_SessionID := ir_SessionID req; cr_Role := ir_Role req;
          cr_Input := input; cr_Metadata := ir_Metadata req; cr_Options := canonicalizeOptions (ir_Options req) |}
  end.
End canonical.

(** ** Events *)

Definition EventTextDelta := "text_delta".
Definition EventMessage := "message".
Definition EventStructured := "structured".
Definition EventBinary := "binary".
Definition EventStatus := "status".
Definition EventUsage := "usage".
Definition EventToolCall := "tool_call".
Definition EventToolResult := "tool_result".
Definition EventFailure := "error".
Definition EventDone := "done".

Record EventError := { ee_Code : string; ee_Message : string; ee_Retryable : bool }.

Record Usage := { u_Input : Z; u_Output : Z; u_Reasoning : Z; u_CacheRead : Z; u_CacheWrite : Z }.

Record Event := {
  ev_Type : string; ev_Text : string; ev_Name : string; ev_Data : string; ev_JSON : string;
  ev_Usage : option Usage; ev_Err : option EventError; ev_Metadata : gomap any; ev_At : Time;
}.

Definition ErrStreamClosed : error := EOF.

(** A stream as its reader finds it: what the next receives give, and how often it was
    closed. *)
Record EventStream := { pending : list (result Event); closes : nat }.

Definition stream_Close (s : EventStream) : EventStream := {| pending := pending s; closes := S (closes s) |}.

Definition is_text (ev : Event) : Prop :=
  ev_Type ev = EventTextDelta ∨ ev_Type ev = EventMessage ∨ ev_Type ev = EventStatus.
#[export] Instance is_text_dec ev : Decision (is_text ev).
Proof. unfold is_text. apply _. Defined.

(** A stream over a channel: a receive gives the context's error when it is done, or
    takes an event, or finds the channel closed; when both are possible either may
    happen. *)
Record chan := { queue : list Event; chan_closed : bool }.

Inductive chan_Recv (ctxErr : option error) (c : chan) : result Event → chan → Prop :=
| recv_done e : ctxErr = Some e → chan_Recv ctxErr c (Err e) c
| recv_event ev q :
    queue c = ev :: q → chan_Recv ctxErr c (Ok ev) {| queue := q; chan_closed := chan_closed c |}
| recv_closed : queue c = [] → chan_closed c = true → chan_Recv ctxErr c (Err ErrStreamClosed) c.

(** ** Collecting the text *)

(** The loop; [None] while what is pending does not end it. *)
Fixpoint collect (b : string) (rs : list (result Event)) : option (result string * list (result Event)) :=
  match rs with
  | [] => None
  | Err err :: rs' => Some (if errors_Is err ErrStreamClosed then Ok b else Err err, rs')
  | Ok ev :: rs' =>
    if decide (is_text ev) then collect (b +:+ ev_Text ev) rs'
    else if decide (ev_Type ev = EventFailure) then
      Some (match ev_Err ev with
            | Some e => Err (ENew (ee_Message e))
            | None => Err (ENew "stream returned error event without payload")
            end, rs')
    else collect b rs'
  end.

Definition CollectText (s : EventStream) : option (result string * EventStream) :=
  '(r, rs) ← collect "" (pending s);
  Some (r, stream_Close {| pending := rs; closes := closes s |}).

(** ** Reading it *)

Record TextReaderAdapter := {
  r_stream : EventStream;
  r_buf : string;
  r_closed : bool;
  r_cancelled : bool;
  r_once : bool;                  (* [Close] has run *)
}.

Definition NewTextReaderAdapterWithContext (s : EventStream) : TextReaderAdapter :=
  {| r_stream := s; r_buf := ""; r_closed := false; r_cancelled := false; r_once := false |}.
Definition NewTextReaderAdapter := NewTextReaderAdapterWithContext.

(** What the loop of [Read], and [Read] itself, come to: text, [io.EOF], or another
    error. *)
Inductive got := GotText (s : string) | GotEnd | GotError (err : error).

Fixpoint fill (rs : list (result Event)) : option (got * list (result Event)) :=
  match rs with
  | [] => None
  | Err err :: rs' => Some (if errors_Is err ErrStreamClosed then GotEnd else GotError err, rs')
  | Ok ev :: rs' =>
    if decide (is_text ev) then
      if decide (ev_Text ev = "") then fill rs' else Some (GotText (ev_Text ev), rs')
    else if decide (ev_Type ev = EventFailure) then
      Some (GotError (match ev_Err ev with
                      | Some e => ENew (ee_Message e)
                      | None => ENew "event error without payload"
                      end), rs')
    else if decide (ev_Type ev = EventDone) then Some (GotEnd, rs')
    else fill rs'
  end.

Definition set_reader (r : TextReaderAdapter) (rs : list (result Event)) (buf : string) (closed : bool) : TextReaderAdapter :=
  {| r_stream := {| pending := rs; closes := closes (r_stream r) |}; r_buf := buf; r_closed := closed;
     r_cancelled := r_cancelled r; r_once := r_once r |}.

(** [bytes.Buffer.Read] of at most [n] bytes from a buffer that is not empty. *)
Definition take_buf (n : nat) (r : TextReaderAdapter) : got * TextReaderAdapter :=
  (GotText (String.substring 0 n (r_buf r)),
   set_reader r (pending (r_stream r)) (string_drop n (r_buf r)) (r_closed r)).

(** [Read] into [n] bytes: what was read, or an error with nothing read. *)
Definition Read (n : nat) (r : TextReaderAdapter) : option (got * TextReaderAdapter) :=
  if decide (r_buf r ≠ "") then Some (take_buf n r)
  else if r_closed r then Some (GotEnd, r)
  else
    '(f, rs) ← fill (pending (r_stream r));
    Some match f with
         | GotText s => take_buf n (set_reader r rs s false)
         | GotEnd => (GotEnd, set_reader r rs "" true)
         | GotError err => (GotError err, set_reader r rs "" false)
         end.

Definition Close (r : TextReaderAdapter) : TextReaderAdapter :=
  if r_once r then r
  else {| r_stream := stream_Close (r_stream r); r_buf := r_buf r; r_closed := true; r_cancelled := true; r_once := true |}.

(** Reading on, into buffers of the given sizes, to the end or to an error; [None] when
    the stream or the sizes do not get there. *)
Fixpoint drain (sizes : list nat) (acc : string) (r : TextReaderAdapter) : option (string * option error) :=
  match sizes with
  | [] => None
  | n :: sizes' =>
    '(g, r') ← Read n r;
    match g with
    | GotText s => drain sizes' (acc +:+ s) r'
    | GotEnd => Some (acc, None)
    | GotError e => Some (acc, Some e)
    end
  end.
End AgentIO.
