(* ===== verification/AgentIOSpec.v ===== *)
(** * What agents are sent and how their answers are read

    [canonical_request_spec]: which requests have a canonical form, which one, and what
    the error of the others says. [reader_agrees]: reading a stream through the
    [io.Reader], in pieces of any sizes, gives the text [CollectText] gives, or fails
    when it does. [reader_close]: what closing the reader does. *)

From S2P Require Import Prelude GoString GoError GoValue Base64 WorkspaceTypes AgentIO.
From Stdlib Require Import Ascii.
From stdpp Require Import options.
Set Default Proof Using "Type*".

Module AgentIOSpec.
Import AgentIO.

(** ** Requests *)

Definition text_ok (p : TextPart) : Prop := ¬ blank (tp_Text p).
Definition json_ok (p : JSONPart) : Prop := jp_Data p ≠ "".
Definition blob_ok (p : BlobPart) : Prop :=
  ¬ blank (bp_Kind p) ∧
  ((bp_SourceType p = BlobInline ∧ bp_Data p ≠ "") ∨ (bp_SourceType p = BlobFile ∧ ¬ blank (bp_Path p)) ∨
   (bp_SourceType p = BlobURL ∧ ¬ blank (bp_URL p))).
Definition tool_result_ok (p : ToolResultPart) : Prop := ¬ blank (tr_ToolName p) ∧ tr_Data p ≠ "".

Definition part_ok (part : InputPart) : Prop :=
  match part with
  | PText p | PTextRef (Some p) => text_ok p
  | PJSON p | PJSONRef (Some p) => json_ok p
  | PBlob p | PBlobRef (Some p) => blob_ok p
  | PToolResult p | PToolResultRef (Some p) => tool_result_ok p
  | _ => False
  end.

Lemma text_iff p : text_Validate p = Ok () ↔ text_ok p.
Proof. unfold text_Validate, text_ok. by case_decide. Qed.

Lemma json_iff p : json_Validate p = Ok () ↔ json_ok p.
Proof. unfold json_Validate, json_ok. by case_decide. Qed.

Lemma blob_iff p : blob_Validate p = Ok () ↔ blob_ok p.
Proof.
  unfold blob_Validate, blob_ok. destruct (decide (blank (bp_Kind p))) as [Hk|Hk]; [split; [done|by intros [? _]]|].
  destruct (decide (bp_SourceType p = BlobInline)) as [->|H1].
  { case_decide as Hd; [split; [done|]|split; [intros _; split; [done|by left]|done]].
    intros [_ [[_ ?]|[[? _]|[? _]]]]; done. }
  destruct (decide (bp_SourceType p = BlobFile)) as [->|H2].
  { case_decide as Hd; [split; [done|]|split; [intros _; split; [done|by right; left]|done]].
    intros [_ [[? _]|[[_ ?]|[? _]]]]; done. }
  destruct (decide (bp_SourceType p = BlobURL)) as [->|H3].
  { case_decide as Hd; [split; [done|]|split; [intros _; split; [done|by right; right]|done]].
    intros [_ [[? _]|[[? _]|[_ ?]]]]; done. }
  split; [done|]. by intros [_ [[? _]|[[? _]|[? _]]]].
Qed.

Lemma tool_result_iff p : tool_result_Validate p = Ok () ↔ tool_result_ok p.
Proof.
  unfold tool_result_Validate, tool_result_ok. case_decide; [split; [done|by intros [? _]]|].
  case_decide; [split; [done|by intros [_ ?]]|done].
Qed.

Lemma invalid_none r : invalid r = None ↔ r = Ok ().
Proof. destruct r as [[]|e]; by split. Qed.

Lemma validate_part_iff part : validateInputPart part = None ↔ part_ok part.
Proof.
  destruct part as [p|[p|]|p|[p|]|p|[p|]|p|[p|]|t]; simpl; rewrite ?invalid_none;
    first [apply text_iff|apply json_iff|apply blob_iff|apply tool_result_iff|done].
Qed.

(** What the error of a part says. *)
Definition part_text (part : InputPart) (e : part_error) : string :=
  match e with Unsupported => "unsupported part type " +:+ go_type part | Invalid err => Error err end.

Section mime.
Variable mime : string → string.

Definition form (part : InputPart) : option CanonicalPart :=
  match part with
  | PText p | PTextRef (Some p) => Some (text_part p)
  | PJSON p | PJSONRef (Some p) => Some (json_part p)
  | PBlob p | PBlobRef (Some p) => Some (canonicalBlobPart mime p)
  | PToolResult p | PToolResultRef (Some p) => Some (tool_result_part p)
  | _ => None
  end.

(** Checking a part and converting it find the same fault. *)
Lemma canonical_part_spec i part :
  match validateInputPart part with
  | None => ∃ c, form part = Some c ∧ canonical_part mime i part = Ok c
  | Some e => ∃ e', canonical_part mime i part = Err e' ∧ Error e' = at_part i +:+ part_text part e
  end.
Proof.
  assert (∀ r c, match invalid r with
    | None => checked i r c = Ok c
    | Some e => ∃ e', checked i r c = Err e' ∧ Error e' = at_part i +:+ part_text part e
    end) as H.
  { intros [[]|e] c; simpl; [done|]. eexists. split; [done|]. simpl. by rewrite append_nil_r. }
  assert (∀ r c, form part = Some c → canonical_part mime i part = checked i r c → validateInputPart part = invalid r →
    match validateInputPart part with
    | None => ∃ c, form part = Some c ∧ canonical_part mime i part = Ok c
    | Some e => ∃ e', canonical_part mime i part = Err e' ∧ Error e' = at_part i +:+ part_text part e
    end) as H'.
  { intros r c Hf -> ->. specialize (H r c). destruct (invalid r); [done|]. by exists c. }
  destruct part as [p|[p|]|p|[p|]|p|[p|]|p|[p|]|t]; try (by eapply H'); eexists; done.
Qed.

Lemma validate_canonical i parts :
  match validate_parts i parts with
  | Ok _ => Forall part_ok parts ∧ canonical_parts mime i parts = Ok (omap form parts) ∧
            length (omap form parts) = length parts
  | Err e => ∃ pre bad post fault, parts = pre ++ bad :: post ∧ Forall part_ok pre ∧
      validateInputPart bad = Some fault ∧
      Error e = at_part (i + Z.of_nat (length pre)) +:+ part_text bad fault ∧
      ∃ e', canonical_parts mime i parts = Err e' ∧ Error e' = Error e
  end.
Proof.
  revert i. induction parts as [|part parts IH]; intros i; [by split_and!|]. cbn [validate_parts canonical_parts].
  pose proof (canonical_part_spec i part) as Hc. destruct (validateInputPart part) as [fault|] eqn:Hv.
  - destruct Hc as (e' & -> & He').
    assert (∃ e, match fault with
      | Unsupported => Err (Errorf (at_part i +:+ "unsupported part type " +:+ go_type part))
      | Invalid err => Err (Errorf_w (at_part i) err "")
      end = Err e ∧ Error e = at_part i +:+ part_text part fault) as (e & -> & He).
    { destruct fault; eexists; (split; [done|]); simpl; by rewrite ?append_nil_r. }
    exists [], part, parts, fault. split_and!; [done|done|done| |].
    + by rewrite Z.add_0_r.
    + exists e'. by rewrite He'.
  - destruct Hc as (c & Hf & ->). apply validate_part_iff in Hv. specialize (IH (i + 1)%Z).
    destruct (validate_parts (i + 1) parts) as [u|e].
    + destruct IH as (Hall & -> & Hl). cbn [omap list_omap]. rewrite Hf. split_and!; [by constructor|done|].
      cbn [length]. by rewrite <-Hl.
    + destruct IH as (pre & bad & post & fault & -> & Hpre & Hb & He & e' & -> & He').
      exists (part :: pre), bad, post, fault. split_and!; [done|by constructor|done| |by exists e'].
      rewrite He. do 2 f_equal. simpl. lia.
Qed.

(** A request has a canonical form exactly when it has parts and each of them is
    valid. The form keeps the request and has one element for each part, in order. The
    error otherwise names the position and the fault of the first part that is not
    valid, and converting the parts without checking them first says the same. The bytes
    of an inline blob can be read back from the form. *)
Theorem canonical_request_spec (req : InvokeRequest) :
  let parts := ir_Parts req in
  (∀ c, ToCanonicalRequest mime (Some req) = Ok c ↔
     parts ≠ [] ∧ Forall part_ok parts ∧
     c = {| cr_RequestID := ir_RequestID req; cr_SessionID := ir_SessionID req; cr_Role := ir_Role req;
            cr_Input := omap form parts; cr_Metadata := ir_Metadata req;
            cr_Options := canonicalizeOptions (ir_Options req) |}) ∧
  (Forall part_ok parts → length (omap form parts) = length parts) ∧
  (∀ e, ToCanonicalRequest mime (Some req) = Err e →
     parts = [] ∨ ∃ pre bad post fault, parts = pre ++ bad :: post ∧ Forall part_ok pre ∧
       validateInputPart bad = Some fault ∧
       Error e = at_part (Z.of_nat (length pre)) +:+ part_text bad fault ∧
       ∃ e', CanonicalizeParts mime parts = Err e' ∧ Error e' = Error e) ∧
  (∀ p, bp_SourceType p = BlobInline →
     ∃ d, cp_Source (canonicalBlobPart mime p) ≫= (.!! "data_base64") = Some (AString d) ∧
          base64_decode d = Some (bp_Data p)).
Proof.
  intros parts. unfold ToCanonicalRequest, Validate, CanonicalizeParts. fold parts.
  pose proof (validate_canonical 0 parts) as H.
  assert (∀ pre bad post fault, parts = pre ++ bad :: post → validateInputPart bad = Some fault → ¬ Forall part_ok parts) as Hbad.
  { intros pre bad post fault -> Hb [_ [Hok _]%Forall_cons]%Forall_app. apply validate_part_iff in Hok. congruence. }
  split_and!.
  - intros c. case_decide as Hne; simpl; [split; [done|by intros []]|]. destruct (validate_parts 0 parts) as [u|e]; simpl.
    + destruct H as (Hall & -> & _). simpl. split; [by intros [= <-]|]. by intros (_ & _ & ->).
    + split; [done|]. destruct H as (pre & bad & post & fault & E & _ & Hb & _). intros (_ & Hall & _).
      by apply (Hbad _ _ _ _ E Hb) in Hall.
  - intros Hall. destruct (validate_parts 0 parts); [apply H|].
    destruct H as (pre & bad & post & fault & E & _ & Hb & _). by apply (Hbad _ _ _ _ E Hb) in Hall.
  - intros e. case_decide as Hne; simpl; [by left|]. destruct (validate_parts 0 parts) as [u|e0]; simpl.
    + destruct H as (_ & -> & _). done.
    + intros [= <-]. right. exact H.
  - intros p Hp. exists (base64_encode (bp_Data p)). split; [|apply base64_decode_encode]. simpl.
    unfold blob_source. rewrite (decide_True _ _ Hp). case_decide; simplify_map_eq; done.
Qed.
End mime.

(** ** Streams *)

(** What reading a stream gives: the text up to its end, and an error unless it ended. *)
Fixpoint reads (rs : list (result Event)) : option (string * option error) :=
  match rs with
  | [] => None
  | Err err :: _ => Some ("", if errors_Is err ErrStreamClosed then None else Some err)
  | Ok ev :: rs' =>
    if decide (is_text ev) then '(s, e) ← reads rs'; Some (ev_Text ev +:+ s, e)
    else if decide (ev_Type ev = EventFailure) then
      Some ("", Some (match ev_Err ev with
                      | Some e => ENew (ee_Message e)
                      | None => ENew "event error without payload"
                      end))
    else if decide (ev_Type ev = EventDone) then Some ("", None)
    else reads rs'
  end.

Lemma fill_text rs s rs' : fill rs = Some (GotText s, rs') → s ≠ "".
Proof.
  induction rs as [|[ev|err] rs IH]; simpl; [done| |by case_match].
  repeat case_decide; try done. by intros [= <- _].
Qed.

(** Reading on from a state of the reader. *)
Definition rest_of (r : TextReaderAdapter) : option (string * option error) :=
  if r_closed r then Some (r_buf r, None)
  else '(s, e) ← reads (pending (r_stream r)); Some (r_buf r +:+ s, e).

Lemma fill_reads rs :
  reads rs = '(g, rs') ← fill rs;
    match g with
    | GotText s => '(t, e) ← reads rs'; Some (s +:+ t, e)
    | GotEnd => Some ("", None)
    | GotError e => Some ("", Some e)
    end.
Proof.
  induction rs as [|[ev|err] rs IH]; [done| |].
  - cbn [fill reads]. case_decide as Ht.
    + case_decide as He; [|done]. rewrite He. destruct (reads rs) as [[s e]|] eqn:E; [|by rewrite <-IH].
      simpl. rewrite append_nil_l. by rewrite <-IH.
    + by repeat case_decide.
  - simpl. by destruct (errors_Is err ErrStreamClosed).
Qed.

Lemma take_drop n s : String.substring 0 n s +:+ string_drop n s = s.
Proof.
  revert n. induction s as [|c s IH]; intros [|n]; try done. simpl. rewrite append_cons. by rewrite IH.
Qed.

Lemma take_buf_rest n r : r_buf r ≠ "" →
  match take_buf n r with
  | (GotText s, r') => rest_of r = ('(t, e) ← rest_of r'; Some (s +:+ t, e)) ∧ (0 < n → s ≠ "")
  | _ => False
  end.
Proof.
  intros Hb. unfold take_buf, rest_of, set_reader. simpl. split.
  - destruct (r_closed r); simpl; [by rewrite take_drop|].
    destruct (reads (pending (r_stream r))) as [[t e]|]; simpl; [|done].
    by rewrite <-append_assoc, take_drop.
  - intros Hn. destruct (r_buf r); [done|]. by destruct n; [lia|].
Qed.

(** One read. *)
Lemma read_rest n r t e : rest_of r = Some (t, e) →
  match Read n r with
  | Some (GotText s, r') => ∃ t', rest_of r' = Some (t', e) ∧ t = s +:+ t' ∧ (0 < n → s ≠ "")
  | Some (GotEnd, r') => t = "" ∧ e = None
  | Some (GotError e', r') => t = "" ∧ e = Some e'
  | None => False
  end.
Proof.
  intros Hr. assert (∀ r0, rest_of r0 = Some (t, e) → r_buf r0 ≠ "" →
    match take_buf n r0 with
    | (GotText s, r') => ∃ t', rest_of r' = Some (t', e) ∧ t = s +:+ t' ∧ (0 < n → s ≠ "")
    | _ => False
    end) as Htake.
  { intros r0 Hr0 Hb. pose proof (take_buf_rest n r0 Hb) as H. rewrite Hr0 in H. destruct (take_buf n r0) as [[s| |] r'].
    - destruct H as [H Hs]. destruct (rest_of r') as [[t' e']|]; [|done]. injection H as -> ->. by exists t'.
    - done.
    - done. }
  unfold Read. case_decide as Hb; [specialize (Htake r Hr Hb); by destruct (take_buf n r) as [[] ?]|].
  assert (r_buf r = "") as Hb' by (by destruct (decide (r_buf r = ""))). unfold rest_of in Hr. rewrite Hb' in Hr.
  destruct (r_closed r) eqn:Hc; [by injection Hr as <- <-|].
  rewrite fill_reads in Hr. destruct (fill (pending (r_stream r))) as [[[s| |err] rs]|] eqn:Hf; simpl in *; try done.
  - assert (s ≠ "") as Hs.
    { by eapply fill_text. }
    destruct (reads rs) as [[t' e']|] eqn:Hrs; simpl in Hr; [|done]. injection Hr as <- <-.
    assert (rest_of (set_reader r rs s false) = Some (s +:+ t', e')) as Hr' by (unfold rest_of; simpl; by rewrite Hrs).
    exact (Htake _ Hr' Hs).
  - by injection Hr as <- <-.
  - by injection Hr as <- <-.
Qed.

Lemma drain_rest sizes acc r t e :
  rest_of r = Some (t, e) → Forall (λ n, 0 < n) sizes → String.length t < length sizes →
  drain sizes acc r = Some (acc +:+ t, e).
Proof.
  revert acc r t. induction sizes as [|n sizes IH]; intros acc r t Hr Hpos Hl; simpl in Hl; [lia|].
  apply Forall_cons in Hpos as [Hn Hpos]. simpl. pose proof (read_rest n r t e Hr) as H.
  destruct (Read n r) as [[[s| |err] r']|]; simpl; [| | |done].
  - destruct H as (t' & Hr' & -> & Hs). rewrite (IH _ _ t'); [by rewrite append_assoc|done|done|].
    specialize (Hs Hn). rewrite append_length in Hl. destruct s; [done|simpl in Hl; lia].
  - destruct H as [-> ->]. by rewrite append_nil_r.
  - destruct H as [-> ->]. by rewrite append_nil_r.
Qed.

(** After an [EventDone] nothing comes that [CollectText] would still look at. *)
Fixpoint quiet_after_done (rs : list (result Event)) : Prop :=
  match rs with
  | [] | Err _ :: _ => True
  | Ok ev :: rs' =>
    (ev_Type ev = EventDone → (fst <$> collect "" rs') = Some (Ok "")) ∧ quiet_after_done rs'
  end.

Lemma collect_acc b rs :
  collect b rs = '(r, rs') ← collect "" rs; Some (match r with Ok s => Ok (b +:+ s) | Err e => Err e end, rs').
Proof.
  revert b. induction rs as [|[ev|err] rs IH]; intros b; simpl; [done| |].
  - case_decide.
    + rewrite (IH (b +:+ ev_Text ev)), (IH ("" +:+ ev_Text ev)). destruct (collect "" rs) as [[[s|e] l]|]; simpl; try done.
      by rewrite append_nil_l, append_assoc.
    + case_decide; [by destruct (ev_Err ev)|]. apply IH.
  - destruct (errors_Is err ErrStreamClosed); [by rewrite append_nil_r|done].
Qed.

(** The errors of the two ways to read differ only in the text for a failure without
    payload. *)
Definition same_failure (e1 e2 : error) : Prop :=
  e1 = e2 ∨ (e1 = ENew "stream returned error event without payload" ∧ e2 = ENew "event error without payload").

Definition same_outcome (r : result string) (t : string) (e : option error) : Prop :=
  match r with
  | Ok s => s = t ∧ e = None
  | Err e1 => ∃ e2, e = Some e2 ∧ same_failure e1 e2
  end.

Lemma collect_reads rs r rs' :
  quiet_after_done rs → collect "" rs = Some (r, rs') → ∃ t e, reads rs = Some (t, e) ∧ same_outcome r t e.
Proof.
  revert r. induction rs as [|[ev|err] rs IH]; intros r; simpl; [done| |].
  - intros [Hd Hq]. case_decide as Ht.
    + rewrite collect_acc. destruct (collect "" rs) as [[r0 l]|] eqn:Hc; [|done]. simpl. intros [= <- <-].
      destruct (IH r0 Hq eq_refl) as (t & e & -> & Ho). exists (ev_Text ev +:+ t), e. split; [done|].
      destruct r0; simpl in *; [|done]. destruct Ho as [-> ->]. by rewrite append_nil_l.
    + case_decide as Hf.
      { intros [= <- <-]. eexists _, _. split; [done|]. destruct (ev_Err ev); simpl; eexists; (split; [done|]); [by left|by right]. }
      case_decide as Hdone; [|by apply IH].
      intros Hc. specialize (Hd Hdone). rewrite Hc in Hd. injection Hd as ->. by exists "", None.
  - intros _. destruct (errors_Is err ErrStreamClosed); intros [= <- <-]; eexists _, _; (split; [done|]); [done|].
    exists err. split; [done|by left].
Qed.

(** C39. A stream whose text [CollectText] gives is read to the same text, and then the
    end, through the reader, in pieces of any sizes; one on which it fails makes the
    reader fail after the text before, with the same error or, for a failure without
    payload, its own text. It is asked that nothing of account follows an [EventDone],
    where the reader stops and [CollectText] does not. Collecting closes the stream
    once. *)
Theorem reader_agrees (s s' : EventStream) (r : result string) :
  CollectText s = Some (r, s') → quiet_after_done (pending s) →
  closes s' = S (closes s) ∧
  ∃ t e, same_outcome r t e ∧
    ∀ sizes, Forall (λ n, 0 < n) sizes → String.length t < length sizes →
      drain sizes "" (NewTextReaderAdapter s) = Some (t, e).
Proof.
  unfold CollectText. destruct (collect "" (pending s)) as [[r0 rs]|] eqn:Hc; [|done]. simpl. intros [= <- <-] Hq.
  split; [done|]. destruct (collect_reads _ _ _ Hq Hc) as (t & e & Hr & Ho). exists t, e. split; [done|].
  intros sizes Hpos Hl. rewrite (drain_rest sizes "" _ t e); [done| |done|done].
  unfold rest_of, NewTextReaderAdapter. simpl. by rewrite Hr.
Qed.

Definition event (ty text : string) : Event :=
  {| ev_Type := ty; ev_Text := text; ev_Name := ""; ev_Data := ""; ev_JSON := ""; ev_Usage := None; ev_Err := None;
     ev_Metadata := None; ev_At := 0%Z |}.

Definition sample_stream : EventStream :=
  {| pending := [Ok (event EventStatus ""); Ok (event EventTextDelta "hel"); Ok (event EventToolCall "x");
                 Ok (event EventMessage "lo"); Ok (event EventDone ""); Err EOF]; closes := 0 |}.

Lemma reader_agrees_witness :
  drain [2; 1; 7; 1; 1; 9] "" (NewTextReaderAdapter sample_stream) = Some ("hello", None).
Proof.
  destruct (reader_agrees sample_stream {| pending := []; closes := 1 |} (Ok "hello")) as [_ (t & e & [<- ->] & H)].
  - reflexivity.
  - simpl. split_and!; done.
  - apply H; [repeat constructor|simpl; lia].
Defined.

(** Text after an [EventDone] is collected but not read. *)
Example after_done_ex :
  let s := {| pending := [Ok (event EventDone ""); Ok (event EventTextDelta "x"); Err EOF]; closes := 0 |} in
  (fst <$> CollectText s) = Some (Ok "x") ∧ drain [1; 1] "" (NewTextReaderAdapter s) = Some ("", None).
Proof. split; reflexivity. Qed.

(** Closing the reader: once, whatever the number of calls; what is buffered can still
    be read, and the stream is not asked again. *)
Lemma reader_close r n :
  r_once r = false →
  closes (r_stream (Close r)) = S (closes (r_stream r)) ∧ Close (Close r) = Close r ∧
  match Read n (Close r) with
  | Some (g, r') => pending (r_stream r') = pending (r_stream r) ∧ (r_buf r = "" → g = GotEnd)
  | None => False
  end.
Proof.
  intros Ho. unfold Close. rewrite Ho. simpl. split_and!; [done|done|]. unfold Read. simpl.
  case_decide as Hb; simpl; done.
Qed.

(** A timeout below a millisecond, which means a limit, is sent as none. *)
Example short_timeout_ex :
  co_TimeoutMS (canonicalizeOptions {| io_Model := ""; io_Stream := false; io_Timeout := 999999; io_MaxOutputBytes := 0;
    io_Temperature := None; io_Extra := None |}) = 0%Z.
Proof. reflexivity. Qed.
End AgentIOSpec.
