(* ===== verification/AgentShape.v ===== *)
(** * The shape of canonical parts (pkg/agentio/canonical.go)

    What an agent can rely on in the parts of a canonical request, and that it can read
    the parts of the request back from them ([canonical_parts_typed]). *)

From S2P Require Import Prelude GoString GoError GoValue Base64 WorkspaceTypes AgentIO AgentIOSpec.
From stdpp Require Import options.
Set Default Proof Using "Type*".

Module AgentShape.
Import AgentIO AgentIOSpec.

(** ** Which fields a part has *)

(** The source of a blob: its type, the one field that goes with it, and the size if it is
    known. *)
Definition source_field (ty : string) : option string :=
  if decide (ty = BlobInline) then Some "data_base64"
  else if decide (ty = BlobFile) then Some "path"
  else if decide (ty = BlobURL) then Some "url" else None.

Definition source_typed (g : gmap string any) : Prop :=
  ∃ ty key v, g !! "type" = Some (AString ty) ∧ source_field ty = Some key ∧ g !! key = Some (AString v) ∧ v ≠ "" ∧
    ∀ k, k ≠ "type" → k ≠ key → g !! k = None ∨ k = "size" ∧ ∃ n, (0 < n)%Z ∧ g !! k = Some (AInt Kint64 n).

(** Parts that are not blobs have no kind, no media type, no file name and no source. *)
Definition bare (c : CanonicalPart) : Prop :=
  cp_Kind c = "" ∧ cp_MIMEType c = "" ∧ cp_Filename c = "" ∧ cp_Source c = None.

Inductive well_typed (c : CanonicalPart) : Prop :=
| typed_text :
    bare c → cp_Type c = "text" → ¬ blank (cp_Text c) → cp_Name c = "" → cp_Data c = "" → cp_Metadata c = None →
    well_typed c
| typed_json :
    bare c → cp_Type c = "json" → cp_Text c = "" → cp_Data c ≠ "" → cp_Metadata c = None → well_typed c
| typed_tool_result id :
    bare c → cp_Type c = "tool_result" → cp_Text c = "" → ¬ blank (cp_Name c) → cp_Data c ≠ "" →
    cp_Metadata c = Some {["call_id" := id]} → well_typed c
| typed_blob g :
    ¬ blank (cp_Kind c) → cp_Type c = cp_Kind c → cp_Text c = "" → cp_Name c = "" → cp_Data c = "" →
    cp_Source c = Some g → source_typed g → well_typed c.

(** ** Reading a part back *)

Definition get_string (g : gmap string any) (k : string) : string :=
  match g !! k with Some (AString s) => s | _ => "" end.
Definition get_int (g : gmap string any) (k : string) : Z :=
  match g !! k with Some (AInt _ n) => n | _ => 0%Z end.

(** A part with a kind is a blob, whatever its type. *)
Definition part_of (c : CanonicalPart) : option InputPart :=
  if decide (cp_Kind c = "") then
    if decide (cp_Type c = "text") then Some (PText {| tp_Text := cp_Text c |})
    else if decide (cp_Type c = "json") then Some (PJSON {| jp_Name := cp_Name c; jp_Data := cp_Data c |})
    else if decide (cp_Type c = "tool_result") then
      Some (PToolResult {| tr_ToolName := cp_Name c; tr_CallID := default "" (cp_Metadata c ≫= (.!! "call_id"));
                           tr_Data := cp_Data c |})
    else None
  else
    g ← cp_Source c;
    d ← base64_decode (get_string g "data_base64");
    Some (PBlob {| bp_Kind := cp_Kind c; bp_MIMEType := cp_MIMEType c; bp_Filename := cp_Filename c;
                   bp_SourceType := get_string g "type"; bp_Data := d; bp_Path := get_string g "path";
                   bp_URL := get_string g "url"; bp_Size := get_int g "size"; bp_Metadata := cp_Metadata c |}).

Section mime.
Variable mime : string → string.

(** What of a part matters: of a blob the data its source type says, a size that is
    known, and the media type that goes with its name. *)
Definition normal_blob (p : BlobPart) : BlobPart :=
  {| bp_Kind := bp_Kind p; bp_MIMEType := cp_MIMEType (canonicalBlobPart mime p); bp_Filename := bp_Filename p;
     bp_SourceType := bp_SourceType p;
     bp_Data := if decide (bp_SourceType p = BlobInline) then bp_Data p else "";
     bp_Path := if decide (bp_SourceType p = BlobFile) then bp_Path p else "";
     bp_URL := if decide (bp_SourceType p = BlobURL) then bp_URL p else "";
     bp_Size := Z.max 0 (bp_Size p); bp_Metadata := bp_Metadata p |}.

Definition normal (part : InputPart) : InputPart :=
  match part with
  | PTextRef (Some p) => PText p
  | PJSONRef (Some p) => PJSON p
  | PBlob p | PBlobRef (Some p) => PBlob (normal_blob p)
  | PToolResultRef (Some p) => PToolResult p
  | _ => part
  end.

Lemma not_blank_nonempty s : ¬ blank s → s ≠ "".
Proof. by intros H ->. Qed.

Definition source_text (p : BlobPart) : string :=
  if decide (bp_SourceType p = BlobInline) then base64_encode (bp_Data p)
  else if decide (bp_SourceType p = BlobFile) then bp_Path p
  else bp_URL p.

(** The source of a blob, key by key. *)
Lemma blob_source_lookup p key k :
  source_field (bp_SourceType p) = Some key →
  blob_source p !! k =
    if decide (k = "size") then if decide (0 < bp_Size p)%Z then Some (AInt Kint64 (bp_Size p)) else None
    else if decide (k = key) then Some (AString (source_text p))
    else if decide (k = "type") then Some (AString (bp_SourceType p)) else None.
Proof.
  unfold source_field, blob_source, source_text. intros Hk.
  destruct (decide (bp_SourceType p = BlobInline)); [|destruct (decide (bp_SourceType p = BlobFile));
    [|destruct (decide (bp_SourceType p = BlobURL)); [|done]]]; injection Hk as <-;
    destruct (decide (0 < bp_Size p)%Z);
    rewrite ?lookup_insert, ?lookup_singleton; repeat case_decide; subst; try done.
Qed.

Lemma valid_source p : blob_ok p → ∃ key, source_field (bp_SourceType p) = Some key ∧ source_text p ≠ "" ∧ key ≠ "size" ∧ key ≠ "type".
Proof.
  unfold source_field, source_text.
  intros [_ [[-> Hd]|[[-> Hd]|[-> Hd]]]]; eexists; (split; [reflexivity|]); simpl; split_and!; try done;
    try (by apply not_blank_nonempty). by apply base64_encode_nonempty.
Qed.

Lemma blob_typed p : blob_ok p → well_typed (canonicalBlobPart mime p).
Proof.
  intros Hok. destruct (valid_source p Hok) as (key & Hkey & Hv & Hs & Ht). apply (typed_blob _ (blob_source p)); try done.
  { by destruct Hok. }
  exists (bp_SourceType p), key, (source_text p). rewrite !(blob_source_lookup p key) by done. split_and!.
  - by rewrite decide_False, decide_False, decide_True.
  - done.
  - by rewrite decide_False, decide_True.
  - done.
  - intros k Hk1 Hk2. rewrite (blob_source_lookup p key) by done. repeat case_decide; try done; [right|by left|by left].
    split; [done|]. by exists (bp_Size p).
Qed.

Lemma blob_back p : blob_ok p → part_of (canonicalBlobPart mime p) = Some (PBlob (normal_blob p)).
Proof.
  intros Hok. destruct (valid_source p Hok) as (key & Hkey & Hv & Hs & Ht). unfold part_of. simpl.
  rewrite decide_False by (apply not_blank_nonempty; by destruct Hok).
  unfold get_string, get_int. rewrite !(blob_source_lookup p key) by done. unfold normal_blob. simpl.
  unfold source_field, source_text in *.
  destruct Hok as [_ [[E Hd]|[[E Hd]|[E Hd]]]]; rewrite E in *; simpl in *; injection Hkey as <-; simpl;
    rewrite ?base64_decode_encode; simpl; repeat f_equal; case_decide; lia.
Qed.

Lemma part_typed part c : part_ok part → form mime part = Some c → well_typed c ∧ part_of c = Some (normal part).
Proof.
  destruct part as [p|[p|]|p|[p|]|p|[p|]|p|[p|]|t]; simpl; try done; intros Hok [= <-].
  1, 2: split; [by apply typed_text|by destruct p].
  1, 2: split; [by apply typed_json|by destruct p].
  1, 2: split; [by apply blob_typed|by apply blob_back].
  1, 2: destruct Hok; split; [by eapply typed_tool_result|by destruct p].
Qed.

(** C18. Every part of a canonical request is of one of four types, which say what fields it
    has: a text that is not blank, JSON data, the data of a named tool with the id of
    its call, or a blob with its source, of which there is the one field its type asks
    for and a size only if it is positive. And nothing of a request is lost: reading its
    parts back gives the parts that were sent, in order, pointers followed, a blob without
    the data its source type does not use. Blobs are told from the others by their kind;
    their type may be the name of another. *)
Theorem canonical_parts_typed (req : InvokeRequest) (c : CanonicalRequest) :
  ToCanonicalRequest mime (Some req) = Ok c →
  Forall well_typed (cr_Input c) ∧ part_of <$> cr_Input c = Some ∘ normal <$> ir_Parts req.
Proof.
  intros (_ & Hall & ->)%canonical_request_spec. simpl. induction Hall as [|part parts Hok _ [IH1 IH2]]; [done|].
  cbn [omap list_omap fmap list_fmap]. assert (∃ p, form mime part = Some p) as [p Hp].
  { destruct part as [?|[?|]|?|[?|]|?|[?|]|?|[?|]|?]; try done; by eexists. }
  rewrite Hp. destruct (part_typed part p Hok Hp) as [Ht Hb]. split; [by constructor|].
  cbn [fmap list_fmap]. by rewrite Hb, <-IH2.
Qed.
End mime.

(** An image in a file, with a name that says its media type, and a call's result. *)
Definition typed_request : InvokeRequest :=
  {| ir_RequestID := "r"; ir_SessionID := ""; ir_Role := "user"; ir_Metadata := None;
     ir_Parts := [PBlobRef (Some {| bp_Kind := "image"; bp_MIMEType := ""; bp_Filename := "a.png"; bp_SourceType := "file";
                    bp_Data := "unused"; bp_Path := "/tmp/a.png"; bp_URL := ""; bp_Size := -1; bp_Metadata := None |});
                  PToolResult {| tr_ToolName := "grep"; tr_CallID := "7"; tr_Data := "[]" |}];
     ir_Options := {| io_Model := ""; io_Stream := false; io_Timeout := 0; io_MaxOutputBytes := 0;
                      io_Temperature := None; io_Extra := None |} |}.

Lemma canonical_parts_typed_witness : ∃ c,
  ToCanonicalRequest (λ _, "image/png") (Some typed_request) = Ok c ∧
  part_of <$> cr_Input c =
    [Some (PBlob {| bp_Kind := "image"; bp_MIMEType := "image/png"; bp_Filename := "a.png"; bp_SourceType := "file";
             bp_Data := ""; bp_Path := "/tmp/a.png"; bp_URL := ""; bp_Size := 0; bp_Metadata := None |});
     Some (PToolResult {| tr_ToolName := "grep"; tr_CallID := "7"; tr_Data := "[]" |})].
Proof.
  eexists. split; [vm_compute; reflexivity|].
  etransitivity; [eapply (proj2 (canonical_parts_typed (λ _, "image/png") typed_request _ eq_refl))|reflexivity].
Defined.
End AgentShape.
