(* ===== verification/AgentEncode.v ===== *)
(** * Requests as JSON (pkg/agentio/canonical.go)

    [EncodeCanonicalRequestJSON]: the canonical form of a request, written by
    encoding/json. It succeeds exactly on the requests that have a canonical form, raw
    data that is JSON and options that JSON can express, and what it writes is valid JSON
    ([encode_request_spec]). *)

From S2P Require Import Prelude GoString GoError GoValue GoJSON GoMarshal GoMarshalSpec Registration AgentIO AgentIOSpec.
From Stdlib Require Import Ascii.
From stdpp Require Import options.
Set Default Proof Using "Type*".

Module AgentEncode.
Import AgentIO AgentIOSpec.

(** ** Fields, left out when empty as their tags say *)

Definition field (name : string) (r : result string) : result string := member_text name <$> r.

Definition text_field (name s : string) : list (result string) :=
  if decide (s = "") then [] else [field name (Ok (json_quote s))].
Definition int_field (name : string) (n : Z) : list (result string) :=
  if decide (n = 0)%Z then [] else [field name (Ok (strconv_Itoa n))].
Definition map_field {V} (name : string) (m : gomap V) (f : gmap string V → result string) : list (result string) :=
  match m with
  | Some g => if decide (size g = 0) then [] else [field name (f g)]
  | None => []
  end.

Section encode.
Variable mime_TypeByExtension : string → string.
Variables float32_text float64_text : Z → string.
Variable other_json : string → Z → result string.

Definition anys_json (g : gmap string any) : result string :=
  map_json (any_json float32_text float64_text other_json <$> g).

Definition part_fields (p : CanonicalPart) : list (result string) :=
  [field "type" (Ok (json_quote (cp_Type p)))] ++ text_field "text" (cp_Text p) ++ text_field "name" (cp_Name p) ++
  text_field "kind" (cp_Kind p) ++ text_field "mime_type" (cp_MIMEType p) ++ text_field "filename" (cp_Filename p) ++
  map_field "source" (cp_Source p) anys_json ++
  (if decide (cp_Data p = "") then [] else [field "data" (raw_json (cp_Data p))]) ++
  map_field "metadata" (cp_Metadata p) strings_json.

Definition part_json (p : CanonicalPart) : result string := object_text <$> all_ok (part_fields p).

Definition options_fields (o : canonicalOptions) : list (result string) :=
  text_field "model" (co_Model o) ++ (if co_Stream o then [field "stream" (Ok "true")] else []) ++
  int_field "timeout_ms" (co_TimeoutMS o) ++ int_field "max_output_bytes" (co_MaxOutputBytes o) ++
  match co_Temperature o with Some bits => [field "temperature" (float64_json float64_text bits)] | None => [] end ++
  map_field "extra" (co_Extra o) anys_json.

Definition options_json (o : canonicalOptions) : result string := object_text <$> all_ok (options_fields o).

Definition request_fields (c : CanonicalRequest) : list (result string) :=
  text_field "request_id" (cr_RequestID c) ++ text_field "session_id" (cr_SessionID c) ++
  text_field "role" (cr_Role c) ++ [field "input" (array_text <$> all_ok (part_json <$> cr_Input c))] ++
  map_field "metadata" (cr_Metadata c) strings_json ++ [field "options" (options_json (cr_Options c))].

(** [json.Marshal] of the canonical request. *)
Definition request_json (c : CanonicalRequest) : result string := object_text <$> all_ok (request_fields c).

Definition EncodeCanonicalRequestJSON (req : option InvokeRequest) : result string :=
  canonical ← ToCanonicalRequest mime_TypeByExtension req;
  request_json canonical.
End encode.
End AgentEncode.
