(* ===== verification/AgentEncodeSpec.v ===== *)
(** * What is sent to agents is JSON

    [encode_request_spec]: which requests [EncodeCanonicalRequestJSON] can write, and
    that the text it writes is valid JSON. *)

From S2P Require Import Prelude GoString GoError GoValue GoJSON GoMarshal GoMarshalSpec Registration AgentIO AgentIOSpec AgentEncode.
From Stdlib Require Import Ascii.
From stdpp Require Import options.
Set Default Proof Using "Type*".

Module AgentEncodeSpec.
Import AgentIO AgentIOSpec AgentEncode.

(** ** Objects out of fields *)

Definition fields_within (d : N) (fs : list (result string)) : Prop :=
  Forall (λ r, ∀ m, r = Ok m → is_member d m) fs.

Lemma fields_members d fs ms : fields_within d fs → all_ok fs = Ok ms → Forall (is_member d) ms.
Proof.
  intros H Hms. apply all_ok_Forall in Hms. induction Hms as [|r m fs ms -> Hms IH]; [constructor|].
  apply Forall_cons in H as [Hm H]. constructor; [by apply Hm|by apply IH].
Qed.

Lemma fields_value d fs s : fields_within d fs → object_text <$> all_ok fs = Ok s → is_value (d + 1) s.
Proof. intros H (ms & Hms & <-)%fmap_ok_inv. by eapply object_value, fields_members. Qed.

Lemma field_within d name r : (∀ v, r = Ok v → is_value d v) → ∀ m, field name r = Ok m → is_member d m.
Proof. intros H m (v & Hv & <-)%fmap_ok_inv. exists name, v. auto. Qed.

Lemma field_single d name r : (∀ v, r = Ok v → is_value d v) → fields_within d [field name r].
Proof. intros H. constructor; [by apply field_within|constructor]. Qed.

Lemma quote_within d s : is_value d (json_quote s).
Proof. eapply is_value_weaken, quote_value. lia. Qed.

Lemma text_within d name s : fields_within d (text_field name s).
Proof.
  unfold text_field. case_decide; [constructor|]. apply field_single. intros v [= <-]. apply quote_within.
Qed.

Lemma int_within d name n : fields_within d (int_field name n).
Proof.
  unfold int_field. case_decide; [constructor|]. apply field_single. intros v [= <-].
  eapply is_value_weaken, int_value. lia.
Qed.

Lemma map_within {V} d name (m : gomap V) f :
  (∀ g s, m = Some g → f g = Ok s → is_value d s) → fields_within d (map_field name m f).
Proof.
  intros H. destruct m as [g|]; cbn [map_field]; [|constructor]. case_decide; [constructor|].
  apply field_single. intros v. by apply H.
Qed.

Lemma strings_value d g s : (1 ≤ d)%N → strings_json g = Ok s → is_value d s.
Proof.
  intros Hd H. eapply is_value_weaken; [|eapply (map_json_members 0); [|exact H]]; [lia|].
  intros k v Hk. rewrite lookup_fmap in Hk. apply fmap_Some in Hk as (t & _ & [= ->]). apply quote_value.
Qed.

(** Which fields can be written. *)
Definition writes (fs : list (result string)) : Prop := Forall (λ r, is_ok r = true) fs.

Lemma writes_object fs : is_ok (object_text <$> all_ok fs) = true ↔ writes fs.
Proof. unfold writes. rewrite <-all_ok_is_ok. by destruct (all_ok fs). Qed.

Lemma writes_field name r : is_ok (field name r) = is_ok r.
Proof. by destruct r. Qed.

Lemma writes_text name s : writes (text_field name s).
Proof. unfold text_field, writes. case_decide; repeat constructor. Qed.
Lemma writes_int name n : writes (int_field name n).
Proof. unfold int_field, writes. case_decide; repeat constructor. Qed.

Lemma writes_single name r : writes [field name r] ↔ is_ok r = true.
Proof. unfold writes. by rewrite Forall_singleton, writes_field. Qed.

Lemma strings_ok g : is_ok (strings_json g) = true.
Proof. apply map_json_ok. intros k r Hr. rewrite lookup_fmap in Hr. by apply fmap_Some in Hr as (? & _ & ->). Qed.

Lemma writes_strings name m : writes (map_field name m strings_json).
Proof.
  destruct m as [g|]; cbn [map_field]; [|constructor]. case_decide; [constructor|]. apply writes_single, strings_ok.
Qed.

Lemma raw_ok d : is_ok (raw_json d) = json_Valid d.
Proof. rewrite <-compact_iff. unfold raw_json. by destruct (compact d). Qed.

Lemma raw_value d s : raw_json d = Ok s → is_value (raw_depth d) s.
Proof. unfold raw_json. destruct (compact d) eqn:E; [|done]. intros [= <-]. by apply compact_value. Qed.

(** ** Requests *)

(** The raw JSON a part carries. *)
Definition payload (part : InputPart) : option string :=
  match part with
  | PJSON p | PJSONRef (Some p) => Some (jp_Data p)
  | PToolResult p | PToolResultRef (Some p) => Some (tr_Data p)
  | _ => None
  end.

Definition payload_ok (part : InputPart) : Prop := ∀ d, payload part = Some d → json_Valid d = true.

(** Everything but floats and values of other types can be written. *)
Definition options_ok (other_json : string → Z → result string) (o : InvokeOptions) : Prop :=
  (∀ bits, io_Temperature o = Some bits → Registration.nonfinite64 bits = false) ∧
  ∀ w, inside w (AMap (io_Extra o)) → writable other_json w.

(** The brackets around and inside the parts that are passed on stay within what the
    scanner takes: three are open around raw data, two around the extra options. *)
Definition within_depth (D : N) (req : InvokeRequest) : Prop :=
  Forall (λ part, ∀ d, payload part = Some d → (3 + raw_depth d ≤ maxNestingDepth)%N) (ir_Parts req) ∧
  (2 + (N.of_nat (any_depth (AMap (io_Extra (ir_Options req)))) + D) ≤ maxNestingDepth)%N.

Section encode.
Variable mime : string → string.
Variables f32 f64 : Z → string.
Variable other : string → Z → result string.

Local Abbreviation anys_json := (anys_json f32 f64 other).
Local Abbreviation part_json := (part_json f32 f64 other).

Lemma source_leaf p k v : blob_source p !! k = Some v → (∃ s, v = AString s) ∨ ∃ n, v = AInt Kint64 n.
Proof.
  unfold blob_source. intros H. repeat case_decide; rewrite ?lookup_insert in H; repeat case_decide; simplify_eq; eauto;
    rewrite ?lookup_singleton in H; repeat case_decide; simplify_eq; eauto.
Qed.

Lemma source_ok p : is_ok (anys_json (blob_source p)) = true.
Proof.
  apply map_json_ok. intros k r Hr. rewrite lookup_fmap in Hr. apply fmap_Some in Hr as (v & Hv & ->).
  by apply source_leaf in Hv as [[? ->]|[? ->]].
Qed.

Lemma source_value d p s : (1 ≤ d)%N → anys_json (blob_source p) = Ok s → is_value d s.
Proof.
  intros Hd H. eapply is_value_weaken; [|eapply (map_json_members 0); [|exact H]]; [lia|].
  intros k v Hk. rewrite lookup_fmap in Hk. apply fmap_Some in Hk as (w & Hw & Hv).
  apply source_leaf in Hw as [[? ->]|[? ->]]; injection Hv as ->; [apply quote_value|apply int_value].
Qed.

(** The canonical part of a part, as far as its JSON is concerned. *)
Lemma form_payload part c : part_ok part → form mime part = Some c →
  (cp_Data c = "" ∧ payload part = None ∨ cp_Data c ≠ "" ∧ payload part = Some (cp_Data c)) ∧
  (cp_Source c = None ∨ ∃ p, cp_Source c = Some (blob_source p)).
Proof.
  destruct part as [p|[p|]|p|[p|]|p|[p|]|p|[p|]|t]; simpl; intros Hok; intros [= <-]; simpl; split; eauto;
    right; by destruct Hok || by split.
Qed.

Lemma part_ok_json part c : part_ok part → form mime part = Some c → is_ok (part_json c) = true ↔ payload_ok part.
Proof.
  intros Hok Hf. apply (form_payload part c Hok) in Hf as [Hd Hs].
  unfold AgentEncode.part_json. rewrite writes_object. unfold part_fields, writes. rewrite !Forall_app.
  assert (writes (map_field "source" (cp_Source c) anys_json)) as Hsrc.
  { destruct Hs as [-> | [p ->]]; cbn [map_field]; [constructor|]. case_decide; [constructor|]. apply writes_single, source_ok. }
  assert (writes (if decide (cp_Data c = "") then [] else [field "data" (raw_json (cp_Data c))]) ↔ payload_ok part) as Hdata.
  { unfold payload_ok. destruct Hd as [[-> ->]|[Hne ->]].
    - rewrite decide_True by done. split; [done|constructor].
    - rewrite decide_False by done. rewrite writes_single, raw_ok. split; [by intros H d [= <-]|by auto]. }
  rewrite <-Hdata. split; [tauto|]. intros H. split_and!; try done; first [apply writes_text|apply writes_strings|by constructor].
Qed.

Lemma extra_ok o : writes (map_field "extra" (io_Extra o) anys_json) ↔ ∀ w, inside w (AMap (io_Extra o)) → writable other w.
Proof.
  rewrite <-(any_json_ok f32 f64). destruct (io_Extra o) as [g|]; cbn [map_field any_json]; [|by split; [|constructor]].
  case_decide as Hg; [|apply writes_single]. apply map_size_empty_inv in Hg as ->. rewrite fmap_empty. by split; [|constructor].
Qed.

Lemma options_writes o : is_ok (options_json f32 f64 other (canonicalizeOptions o)) = true ↔ options_ok other o.
Proof.
  unfold options_json. rewrite writes_object. unfold options_fields, writes. rewrite !Forall_app. cbn [canonicalizeOptions
    co_Model co_Stream co_TimeoutMS co_MaxOutputBytes co_Temperature co_Extra]. unfold options_ok. rewrite <-extra_ok.
  assert (writes (match io_Temperature o with Some bits => [field "temperature" (float64_json f64 bits)] | None => [] end) ↔
    ∀ bits, io_Temperature o = Some bits → Registration.nonfinite64 bits = false) as Ht.
  { destruct (io_Temperature o) as [bits|]; [|by split; [|constructor]]. rewrite writes_single. unfold float64_json.
    split; [|intros H; by rewrite (H bits)]. intros H b [= <-]. by destruct (Registration.nonfinite64 bits). }
  rewrite <-Ht. split; [tauto|]. intros [? ?]. split_and!; try done; try apply writes_text; try apply writes_int.
  destruct (io_Stream o); [by apply writes_single|constructor].
Qed.

(** ** How deep the text is *)

Lemma part_value part c s : part_ok part → form mime part = Some c →
  (∀ d, payload part = Some d → (3 + raw_depth d ≤ maxNestingDepth)%N) →
  part_json c = Ok s → is_value (maxNestingDepth - 2) s.
Proof.
  intros Hok Hf Hdepth. apply (form_payload part c Hok) in Hf as [Hd Hs]. intros H.
  replace (maxNestingDepth - 2)%N with (maxNestingDepth - 3 + 1)%N by done.
  eapply fields_value; [|exact H]. unfold part_fields, fields_within. rewrite !Forall_app.
  split_and!; try apply text_within.
  - apply field_single. intros v [= <-]. apply quote_within.
  - apply map_within. intros g v Hg Hv. destruct Hs as [Hs|[p Hs]]; rewrite Hs in Hg; [done|]. injection Hg as <-.
    by eapply source_value.
  - case_decide as He; [constructor|]. destruct Hd as [[? _]|[_ Hp]]; [done|]. specialize (Hdepth _ Hp).
    apply field_single. intros v Hv. eapply is_value_weaken; [|by apply raw_value]. lia.
  - apply map_within. intros g v _ Hv. by eapply strings_value.
Qed.

Lemma to_canonical req :
  let parts := ir_Parts req in
  match ToCanonicalRequest mime (Some req) with
  | Ok c => parts ≠ [] ∧ Forall part_ok parts ∧ cr_Input c = omap (form mime) parts ∧
            cr_Options c = canonicalizeOptions (ir_Options req)
  | Err _ => ¬ (parts ≠ [] ∧ Forall part_ok parts)
  end.
Proof.
  cbn [ToCanonicalRequest]. unfold Validate, CanonicalizeParts. pose proof (validate_canonical mime 0 (ir_Parts req)) as H.
  case_decide as Hne; simpl; [by intros [? _]|]. destruct (validate_parts 0 (ir_Parts req)) as [u|e]; simpl.
  - destruct H as (Hall & -> & _). simpl. done.
  - destruct H as (pre & bad & post & fault & -> & _ & Hb & _). intros [_ [_ [Hok _]%Forall_cons]%Forall_app].
    apply validate_part_iff in Hok. congruence.
Qed.

Lemma forms_json parts : Forall part_ok parts →
  is_ok (all_ok (part_json <$> omap (form mime) parts)) = true ↔ Forall payload_ok parts.
Proof.
  intros Hall. rewrite all_ok_is_ok. induction Hall as [|part parts Hok Hall IH]; [by split; intros _; constructor|].
  assert (is_Some (form mime part)) as [c Hc].
  { destruct part as [p|[p|]|p|[p|]|p|[p|]|p|[p|]|t]; simpl; try done; eauto. }
  cbn [omap list_omap]. rewrite Hc, fmap_cons, !Forall_cons, IH. by rewrite (part_ok_json part c Hok Hc).
Qed.

Section depth.
Variable D : N.
Hypothesis float32_number : ∀ bits, Registration.nonfinite32 bits = false → is_value 0 (f32 bits).
Hypothesis float64_number : ∀ bits, Registration.nonfinite64 bits = false → is_value 0 (f64 bits).
Hypothesis other_value : ∀ t id s, other t id = Ok s → is_value D s.

Lemma options_value o s :
  (2 + (N.of_nat (any_depth (AMap (io_Extra o))) + D) ≤ maxNestingDepth)%N →
  options_json f32 f64 other (canonicalizeOptions o) = Ok s → is_value (maxNestingDepth - 1) s.
Proof.
  intros Hl H. replace (maxNestingDepth - 1)%N with (maxNestingDepth - 2 + 1)%N by done.
  eapply fields_value; [|exact H]. unfold options_fields, fields_within. rewrite !Forall_app.
  cbn [canonicalizeOptions co_Model co_Stream co_TimeoutMS co_MaxOutputBytes co_Temperature co_Extra].
  split_and!; try apply text_within; try apply int_within.
  - destruct (io_Stream o); [|constructor]. apply field_single. intros v [= <-].
    eapply is_value_weaken, constant_value; [lia|clear; set_solver].
  - destruct (io_Temperature o) as [bits|]; [|constructor]. apply field_single. intros v. unfold float64_json.
    destruct (Registration.nonfinite64 bits) eqn:Hb; [done|]. intros [= <-].
    eapply is_value_weaken, float64_number; [lia|done].
  - apply map_within. intros g v Hg Hv. rewrite Hg in Hl.
    eapply is_value_weaken; [|by apply (any_value f32 f64 other D float32_number float64_number other_value (AMap (Some g)))].
    lia.
Qed.

Lemma request_valid req c s :
  ToCanonicalRequest mime (Some req) = Ok c → within_depth D req →
  request_json f32 f64 other c = Ok s → json_Valid s = true.
Proof.
  intros Hc [Hraw Hextra] (ms & Hms & <-)%fmap_ok_inv. pose proof (to_canonical req) as H. cbv zeta in H. rewrite Hc in H.
  destruct H as (_ & Hall & Hin & Ho).
  apply (object_valid (maxNestingDepth - 1)); [|done]. eapply fields_members; [|exact Hms].
  unfold request_fields, fields_within. rewrite !Forall_app. split_and!; try apply text_within.
  - apply field_single. intros v (vs & Hvs & <-)%fmap_ok_inv. rewrite Hin in Hvs.
    replace (maxNestingDepth - 1)%N with (maxNestingDepth - 2 + 1)%N by done. apply array_value.
    apply all_ok_Forall in Hvs. apply Forall_forall. intros t [i Hi]%list_elem_of_lookup.
    destruct (Forall2_lookup_r _ _ _ _ _ Hvs Hi) as (r & Hr & Hrt).
    apply list_lookup_fmap_Some in Hr as (p & -> & Hp). apply list_elem_of_lookup_2, list_elem_of_omap in Hp as (part & Hpart & Hf).
    rewrite Forall_forall in Hall, Hraw. eapply part_value; eauto.
  - apply map_within. intros g v _ Hv. by eapply strings_value.
  - apply field_single. intros v. rewrite Ho. by apply options_value.
Qed.

(** C19. A request can be sent exactly when it has parts, each of them is valid, the raw
    data of its JSON parts and tool results is JSON, and its options hold no float that
    is not a number and no value its type cannot be marshalled. What is sent is then
    valid JSON, as long as what the request carries is not nested so deep that the
    brackets around it exceed the limit of the scanner. Requests without a canonical
    form give the error of the conversion. *)
Theorem encode_request_spec (req : InvokeRequest) :
  let encoded := EncodeCanonicalRequestJSON mime f32 f64 other (Some req) in
  (is_ok encoded = true ↔
     ir_Parts req ≠ [] ∧ Forall part_ok (ir_Parts req) ∧ Forall payload_ok (ir_Parts req) ∧
     options_ok other (ir_Options req)) ∧
  (∀ s, encoded = Ok s → within_depth D req → json_Valid s = true) ∧
  (∀ e, ToCanonicalRequest mime (Some req) = Err e → encoded = Err e).
Proof.
  intros encoded. pose proof (to_canonical req) as H. cbv zeta in H. unfold encoded, EncodeCanonicalRequestJSON.
  destruct (ToCanonicalRequest mime (Some req)) as [c|e] eqn:Hc; simpl.
  - destruct H as (Hne & Hall & Hin & Ho). split_and!; [|intros s Hs Hd; by eapply request_valid|done].
    unfold request_json. rewrite writes_object. unfold request_fields, writes. rewrite !Forall_app.
    rewrite Hin, Ho. rewrite <-(forms_json _ Hall), <-options_writes.
    assert (writes [field "input" (array_text <$> all_ok (part_json <$> omap (form mime) (ir_Parts req)))] ↔
      is_ok (all_ok (part_json <$> omap (form mime) (ir_Parts req))) = true) as <-.
    { rewrite writes_single. by destruct (all_ok _). }
    rewrite <-(writes_single "options"). split; [tauto|]. intros (_ & _ & ? & ?).
    split_and!; try done; first [apply writes_text|apply writes_strings].
  - simpl in H. split_and!; [|done|by intros ? [= ->]]. split; [done|]. intros (? & ? & _). by destruct H.
Qed.
End depth.
End encode.

(** ** A request *)

Definition sample_request : InvokeRequest :=
  {| ir_RequestID := "r1"; ir_SessionID := ""; ir_Role := "user";
     ir_Parts := [PText {| tp_Text := "a<b" |}; PJSONRef (Some {| jp_Name := "n"; jp_Data := "[1, 2 ]" |})];
     ir_Metadata := Some {["k" := "v"]};
     ir_Options := {| io_Model := ""; io_Stream := true; io_Timeout := 1500000; io_MaxOutputBytes := 0;
                      io_Temperature := None; io_Extra := Some {["z" := ANil; "a" := ASlice (Some [ABool true])]} |} |}.

Definition no_mime (ext : string) : string := "".
Definition zero_text (bits : Z) : string := "0".
Definition no_other (t : string) (id : Z) : result string := Err (ENew ("json: unsupported type: " +:+ t)).

(** The text, with single quotes for double ones. *)
Fixpoint with_quotes (s : string) : string :=
  match s with
  | EmptyString => ""
  | String c s' => String (if decide (c = "'"%char) then "034" else c) (with_quotes s')
  end.

Example encode_request_ex :
  EncodeCanonicalRequestJSON no_mime zero_text zero_text no_other (Some sample_request) =
  Ok (with_quotes ("{'request_id':'r1','role':'user','input':[{'type':'text','text':'a\u003cb'}," +:+
    "{'type':'json','name':'n','data':[1,2]}],'metadata':{'k':'v'}," +:+
    "'options':{'stream':true,'timeout_ms':1,'extra':{'a':[true],'z':null}}}")).
Proof. vm_compute. reflexivity. Qed.

Lemma encode_request_spec_witness :
  is_ok (EncodeCanonicalRequestJSON no_mime zero_text zero_text no_other (Some sample_request)) = true ∧
  ∀ s, EncodeCanonicalRequestJSON no_mime zero_text zero_text no_other (Some sample_request) = Ok s → json_Valid s = true.
Proof.
  split; [by vm_compute|]. intros s Hs.
  refine (proj1 (proj2 (encode_request_spec no_mime zero_text zero_text no_other 0 _ _ _ sample_request)) s Hs _).
  - intros bits _. apply (int_value 0).
  - intros bits _. apply (int_value 0).
  - intros t id s0 H. discriminate H.
  - split; [|by vm_compute]. repeat constructor; intros d; simpl; intros H; try discriminate H.
    injection H as <-. by vm_compute.
Defined.
End AgentEncodeSpec.
