(* ===== verification/RestDecode.v ===== *)
(** * Responses of REST agents (pkg/bridge/rest/decode.go, agent.go)

    A response body is decoded into the events of a stream: server-sent events, one JSON
    value a line, or a single value, by the content type. What [encoding/json] makes of a
    text is an argument, and so is the clock ([now]; the decoders only copy it). A body
    is the bytes that can be read from it and the error after them, if any. *)

From S2P Require Import Prelude GoString GoError GoValue WorkspaceTypes Proc AgentIO.
From Stdlib Require Import Ascii.
From stdpp Require Import options.
Set Default Proof Using "Type*".

Definition strings_TrimPrefix (s prefix : string) : string :=
  if strings_HasPrefix s prefix then string_drop (String.length prefix) s else s.

(** ** bufio.Scanner over lines *)

Definition line_feed : ascii := "010".

Definition bufio_ErrTooLong : error := ENew "bufio.Scanner: token too long".

(** One trailing carriage return is dropped. *)
Fixpoint drop_cr (s : string) : string :=
  match s with
  | EmptyString => ""
  | String c s' => if decide (s' = "" ∧ c = "013"%char) then "" else String c (drop_cr s')
  end.

(** The lines before the first that does not fit into the buffer, and whether there is
    one. An unfinished last line counts when it is not empty. *)
Fixpoint lines_within (limit : N) (l : list string) : list string * bool :=
  match l with
  | [] => ([], false)
  | line :: l' =>
    if decide (l' = [] ∧ line = "") then ([], false)
    else if decide (limit ≤ N.of_nat (String.length line))%N then ([], true)
    else let '(ls, long) := lines_within limit l' in (drop_cr line :: ls, long)
  end.

(** The tokens and the error of a scanner with the given buffer. *)
Definition scan_lines (limit : N) (data : string) (err : option error) : list string * option error :=
  let '(ls, long) := lines_within limit (strings_Split line_feed data) in
  (ls, if long then Some bufio_ErrTooLong else err).

Module RestDecode.
Import AgentIO.

Record body := { body_Data : string; body_Err : option error }.

Definition maxLine : N := 4 * 2 ^ 20.

Section decoder.
Variable now : Time.
(** [json.Unmarshal] into a slice of maps, a map, a [Usage], an [EventError]. *)
Variable unmarshal_objects : string → option (list (gomap any)).
Variable unmarshal_object : string → result (gomap any).
Variable unmarshal_usage : string → option Usage.
Variable unmarshal_error : string → option EventError.
Variable json_Marshal : any → option string.

Definition stringField (m : gomap any) (key : string) : option string :=
  match gm_get m key with Some (AString s) => Some s | _ => None end.

Fixpoint firstStringField (m : gomap any) (keys : list string) : option string :=
  match keys with
  | [] => None
  | key :: keys' =>
    match stringField m key with
    | Some text => if decide (text = "") then firstStringField m keys' else Some text
    | None => firstStringField m keys'
    end
  end.

Definition event_of (ty : string) : Event :=
  {| ev_Type := ty; ev_Text := ""; ev_Name := ""; ev_Data := ""; ev_JSON := ""; ev_Usage := None; ev_Err := None;
     ev_Metadata := None; ev_At := now |}.

(** Assignments to one field. *)
Definition set_type (t : string) (e : Event) : Event :=
  {| ev_Type := t; ev_Text := ev_Text e; ev_Name := ev_Name e; ev_Data := ev_Data e; ev_JSON := ev_JSON e;
     ev_Usage := ev_Usage e; ev_Err := ev_Err e; ev_Metadata := ev_Metadata e; ev_At := ev_At e |}.
Definition set_text (t : string) (e : Event) : Event :=
  {| ev_Type := ev_Type e; ev_Text := t; ev_Name := ev_Name e; ev_Data := ev_Data e; ev_JSON := ev_JSON e;
     ev_Usage := ev_Usage e; ev_Err := ev_Err e; ev_Metadata := ev_Metadata e; ev_At := ev_At e |}.
Definition set_name (n : string) (e : Event) : Event :=
  {| ev_Type := ev_Type e; ev_Text := ev_Text e; ev_Name := n; ev_Data := ev_Data e; ev_JSON := ev_JSON e;
     ev_Usage := ev_Usage e; ev_Err := ev_Err e; ev_Metadata := ev_Metadata e; ev_At := ev_At e |}.
Definition set_json (j : string) (e : Event) : Event :=
  {| ev_Type := ev_Type e; ev_Text := ev_Text e; ev_Name := ev_Name e; ev_Data := ev_Data e; ev_JSON := j;
     ev_Usage := ev_Usage e; ev_Err := ev_Err e; ev_Metadata := ev_Metadata e; ev_At := ev_At e |}.
Definition set_usage (u : Usage) (e : Event) : Event :=
  {| ev_Type := ev_Type e; ev_Text := ev_Text e; ev_Name := ev_Name e; ev_Data := ev_Data e; ev_JSON := ev_JSON e;
     ev_Usage := Some u; ev_Err := ev_Err e; ev_Metadata := ev_Metadata e; ev_At := ev_At e |}.
Definition set_err (x : EventError) (e : Event) : Event :=
  {| ev_Type := ev_Type e; ev_Text := ev_Text e; ev_Name := ev_Name e; ev_Data := ev_Data e; ev_JSON := ev_JSON e;
     ev_Usage := ev_Usage e; ev_Err := Some x; ev_Metadata := ev_Metadata e; ev_At := ev_At e |}.

(** An event that is only structured so far takes the type of what it holds. *)
Definition refine_type (t : string) (e : Event) : Event :=
  if decide (ev_Type e = EventStructured) then set_type t e else e.

Definition take_type (m : gomap any) (e : Event) : Event :=
  match stringField m "type" with Some t => set_type t e | None => e end.

Definition take_text (m : gomap any) (e : Event) : Event :=
  match firstStringField m ["text"; "delta"; "output_text"; "message"] with
  | Some text => refine_type EventTextDelta (set_text text e)
  | None => e
  end.

Definition take_name (m : gomap any) (e : Event) : Event :=
  match firstStringField m ["name"; "event"] with Some n => set_name n e | None => e end.

Definition take_usage (m : gomap any) (e : Event) : Event :=
  match gm_get m "usage" with
  | Some usage =>
    match raw ← json_Marshal usage; unmarshal_usage raw with
    | Some decoded => refine_type EventUsage (set_usage decoded e)
    | None => e
    end
  | None => e
  end.

Definition error_with (message : string) : EventError := {| ee_Code := ""; ee_Message := message; ee_Retryable := false |}.

Definition error_field (rawErr : any) : option EventError :=
  match rawErr with
  | AString typed => Some (error_with typed)
  | typed =>
    raw ← json_Marshal typed;
    Some match unmarshal_error raw with
         | Some decoded => if decide (ee_Message decoded = "") then error_with raw else decoded
         | None => error_with raw
         end
  end.

Definition take_error (m : gomap any) (e : Event) : Event :=
  match gm_get m "error" ≫= error_field with
  | Some err => set_type EventFailure (set_err err e)
  | None => e
  end.

Definition take_json (m : gomap any) (e : Event) : Event :=
  if decide (ev_Text e = "") then
    match json_Marshal (AMap m) with Some raw => set_json raw e | None => e end
  else e.

Definition new_event : Event :=
  {| ev_Type := EventStructured; ev_Text := ""; ev_Name := ""; ev_Data := ""; ev_JSON := ""; ev_Usage := None;
     ev_Err := None; ev_Metadata := Some ∅; ev_At := now |}.

Definition bestEffortEventFromMap (m : gomap any) : Event :=
  take_json m (take_error m (take_usage m (take_name m (take_text m (take_type m new_event))))).

Definition defaultFrameDecoder (payload : string) : result (list Event) :=
  match unmarshal_objects payload with
  | Some arr => Ok (bestEffortEventFromMap <$> arr)
  | None =>
    match unmarshal_object payload with
    | Err _ =>
      let text := strings_TrimSpace payload in
      if decide (text = "") then Ok [] else Ok [set_text text (event_of EventTextDelta)]
    | Ok obj => Ok [bestEffortEventFromMap obj]
    end
  end.

Definition decodeFramedPayload (name payload : string) : result (list Event) :=
  let payload := strings_TrimSpace payload in
  if decide (payload = "") then Ok []
  else if decide (payload = "[DONE]") then Ok [event_of EventDone]
  else
    match defaultFrameDecoder payload with
    | Err e => Err e
    | Ok events =>
      Ok (if decide (name = "") then events
          else (λ e, if decide (ev_Name e = "") then set_name name e else e) <$> events)
    end.

Definition failure (code : string) (err : error) : Event :=
  set_err {| ee_Code := code; ee_Message := Error err; ee_Retryable := false |} (event_of EventFailure).

(** The events of a payload, or one failure. *)
Definition decoded (code name payload : string) : list Event :=
  match decodeFramedPayload name payload with
  | Ok events => events
  | Err err => [failure code err]
  end.

Definition scan_failure (code : string) (err : option error) : list Event :=
  match err with Some e => [failure code e] | None => [] end.

(** ** Server-sent events *)

Record sse := { eventName : string; dataLines : list string }.

Definition new_sse : sse := {| eventName := ""; dataLines := [] |}.

Definition flush (s : sse) : list Event :=
  if decide (dataLines s = [] ∧ eventName s = "") then []
  else
    let data := strings_TrimSpace (strings_Join (dataLines s) (String line_feed "")) in
    if decide (data = "") then []
    else if decide (data = "[DONE]") then [event_of EventDone]
    else decoded "sse_decode_error" (eventName s) data.

Definition sse_line (line : string) (s : sse) : sse :=
  if strings_HasPrefix line "event:" then
    {| eventName := strings_TrimSpace (strings_TrimPrefix line "event:"); dataLines := dataLines s |}
  else if strings_HasPrefix line "data:" then
    {| eventName := eventName s; dataLines := dataLines s ++ [strings_TrimSpace (strings_TrimPrefix line "data:")] |}
  else s.

Fixpoint sse_lines (lines : list string) (s : sse) : list Event :=
  match lines with
  | [] => flush s
  | line :: lines' =>
    if decide (line = "") then flush s ++ sse_lines lines' new_sse
    else sse_lines lines' (sse_line line s)
  end.

Definition parseSSE (b : body) : list Event :=
  let '(lines, err) := scan_lines maxLine (body_Data b) (body_Err b) in
  sse_lines lines new_sse ++ scan_failure "sse_scan_error" err.

(** ** JSON lines and single values *)

Definition jsonl_line (line : string) : list Event :=
  let line := strings_TrimSpace line in
  if decide (line = "") then [] else decoded "jsonl_decode_error" "" line.

Definition parseJSONL (b : body) : list Event :=
  let '(lines, err) := scan_lines maxLine (body_Data b) (body_Err b) in
  (lines ≫= jsonl_line) ++ scan_failure "jsonl_scan_error" err.

Definition parseSingleJSON (b : body) : list Event :=
  match body_Err b with
  | Some err => [failure "json_read_error" err]
  | None => decoded "json_decode_error" "" (body_Data b)
  end.

(** ** Streams

    The goroutine of a stream sends what the parser emits, then a final [EventDone] if
    none was sent, and closes the channel; the receives of a reader that takes all of
    them are then these events and the end. *)

Definition emitDoneIfNeeded (emitted : list Event) : list Event :=
  if decide (Exists (λ e, ev_Type e = EventDone) emitted) then [] else [event_of EventDone].

Definition sent (parse : body → list Event) (b : body) : list Event :=
  let emitted := parse b in emitted ++ emitDoneIfNeeded emitted.

Definition received (events : list Event) : EventStream :=
  {| pending := (Ok <$> events) ++ [Err ErrStreamClosed]; closes := 0 |}.

Definition NewSSEStream (b : body) : EventStream := received (sent parseSSE b).
Definition NewJSONLStream (b : body) : EventStream := received (sent parseJSONL b).
Definition NewSingleJSONResponseStream (b : body) : EventStream := received (sent parseSingleJSON b).

(** [strings.ToLower], where the search for ASCII text can see it: besides the capital
    letters, the dotted I (U+0130) and the Kelvin sign (U+212A) become ASCII. *)
Fixpoint lower (s : string) : string :=
  match s with
  | EmptyString => ""
  | String c s' =>
    let n := nat_of_ascii c in
    if decide (65 ≤ n ≤ 90) then String (ascii_of_nat (n + 32)) (lower s')
    else
      match s' with
      | String d s'' =>
        if decide (n = 196 ∧ nat_of_ascii d = 176) then String "i" (lower s'')
        else
          match s'' with
          | String e s''' =>
            if decide (n = 226 ∧ nat_of_ascii d = 132 ∧ nat_of_ascii e = 170) then String "k" (lower s''')
            else String c (lower s')
          | EmptyString => String c (lower s')
          end
      | EmptyString => String c (lower s')
      end
  end.

Definition DefaultHTTPResponseDecoder (contentType : string) (b : body) : EventStream :=
  let contentType := lower contentType in
  if strings_Contains contentType "text/event-stream" then NewSSEStream b
  else if strings_Contains contentType "application/x-ndjson" || strings_Contains contentType "application/jsonl" ||
          strings_Contains contentType "application/json-seq" then NewJSONLStream b
  else NewSingleJSONResponseStream b.
End decoder.
End RestDecode.

(** ** Invoking an agent (agent.go) *)

Module RestAgent.
Import AgentIO.

Record Agent := { NameStr : string; Endpoint : string; Method : string; Headers : gomap string }.

(** A request as it is sent; the headers are set one after the other. *)
Record http_request := { hr_Method : string; hr_URL : string; hr_Headers : list (string * string); hr_Body : string }.

Abbreviation stream := nat (only parsing).

(** What the agent calls: the encoder, [http.NewRequestWithContext], the client, the
    body of the response, the decoder. *)
Inductive hcall : Type → Type :=
| Encode (req : InvokeRequest) : hcall (result string)
| NewRequest (method url body : string) : hcall (result unit)
| Do (req : http_request) : hcall (result Z)                  (* the status *)
| ReadBody (limit : Z) : hcall string
| CloseBody : hcall unit
| Decode : hcall (result stream).

Definition Name (a : Agent) : string := if decide (NameStr a = "") then "rest-agent" else NameStr a.

Section agent.
Context `{!MapRange}.

Definition wrapped (what : string) (err : error) : error := Errorf_w what err "".

Definition Invoke (a : Agent) (req : option InvokeRequest) : proc hcall (result stream) :=
  match req with
  | None => mret (Err (ENew "nil request"))
  | Some req =>
    let method := if decide (Method a = "") then "POST" else Method a in
    if decide (strings_TrimSpace (Endpoint a) = "") then mret (Err (ENew "rest agent endpoint is empty")) else
    encoded ← call (Encode req);
    match encoded with
    | Err err => mret (Err (wrapped "encode rest request: " err))
    | Ok body =>
      built ← call (NewRequest method (Endpoint a) body);
      match built with
      | Err err => mret (Err (wrapped "build rest request: " err))
      | Ok _ =>
        resp ← call (Do {| hr_Method := method; hr_URL := Endpoint a; hr_Body := body;
                           hr_Headers := ("Content-Type", "application/json") :: range_ (Headers a) |});
        match resp with
        | Err err => mret (Err (wrapped "send rest request: " err))
        | Ok status =>
          if decide (status < 200 ∨ 300 ≤ status)%Z then
            text ← call (ReadBody (64 * 1024));
            _ ← call CloseBody;
            mret (Err (Errorf ("rest agent http " +:+ strconv_Itoa status +:+ ": " +:+ text)))
          else
            decoded ← call Decode;
            match decoded with
            | Err err => _ ← call CloseBody; mret (Err (wrapped "decode rest response: " err))
            | Ok s => mret (Ok s)
            end
        end
      end
    end
  end.
End agent.
End RestAgent.
