(* ===== verification/RestSpec.v ===== *)
(** * What the decoders of REST responses guarantee

    [sse_reference]: server-sent events are decoded frame by frame, and nothing of a
    frame is lost to an error. [rest_collect_ends]: whatever the response, its stream has
    an [EventDone] and can be collected to its end. [rest_invoke_spec]: a request is sent
    only when it could be built, and the body of the response is closed exactly when the
    caller does not get its stream. *)

From S2P Require Import Prelude GoString GoError GoValue WorkspaceTypes Proc AgentIO AgentIOSpec RestDecode.
From Stdlib Require Import Ascii.
From stdpp Require Import options.
Set Default Proof Using "Type*".

Module RestSpec.
Import AgentIO RestDecode.

(** ** Frames *)

(** The lines between empty lines. *)
Fixpoint frames (lines : list string) : list (list string) :=
  match lines with
  | [] => [[]]
  | line :: lines' =>
    if decide (line = "") then [] :: frames lines'
    else match frames lines' with f :: fs => (line :: f) :: fs | [] => [[line]] end
  end.

Lemma frames_nonempty l : frames l ≠ [].
Proof. destruct l as [|x l]; simpl; [done|]. case_decide; [done|]. by destruct (frames l). Qed.

(** The value of a field on a line. *)
Definition field (name line : string) : option string :=
  if strings_HasPrefix line name then Some (strings_TrimSpace (strings_TrimPrefix line name)) else None.

Definition frame_name (f : list string) : string := default "" (last (omap (field "event:") f)).
Definition frame_data (f : list string) : list string := omap (field "data:") f.

Section decoder.
Variable now : Time.
Variable unmarshal_objects : string → option (list (gomap any)).
Variable unmarshal_object : string → result (gomap any).
Variable unmarshal_usage : string → option Usage.
Variable unmarshal_error : string → option EventError.
Variable json_Marshal : any → option string.

Local Abbreviation decodeFramed := (decodeFramedPayload now unmarshal_objects unmarshal_object unmarshal_usage unmarshal_error json_Marshal).
Local Abbreviation decoded := (decoded now unmarshal_objects unmarshal_object unmarshal_usage unmarshal_error json_Marshal).
Local Abbreviation flush := (flush now unmarshal_objects unmarshal_object unmarshal_usage unmarshal_error json_Marshal).
Local Abbreviation sse_lines := (sse_lines now unmarshal_objects unmarshal_object unmarshal_usage unmarshal_error json_Marshal).
Local Abbreviation decoder := (DefaultHTTPResponseDecoder now unmarshal_objects unmarshal_object unmarshal_usage unmarshal_error json_Marshal).

(** Decoding never fails: a payload that is no JSON is text. *)
Lemma decode_total name payload : is_ok (decodeFramed name payload) = true.
Proof.
  unfold decodeFramedPayload. repeat case_decide; try done; unfold defaultFrameDecoder;
    destruct (unmarshal_objects _); try done; destruct (unmarshal_object _); try done; by case_decide.
Qed.

Definition frame_events (f : list string) : list Event :=
  match decodeFramed (frame_name f) (strings_TrimSpace (strings_Join (frame_data f) (String line_feed ""))) with
  | Ok events => events
  | Err _ => []
  end.

(** What a frame has brought so far. *)
Definition seen (f : list string) : sse := {| eventName := frame_name f; dataLines := frame_data f |}.

Lemma sse_line_seen f line : sse_line line (seen f) = seen (f ++ [line]).
Proof.
  unfold sse_line, seen, frame_name, frame_data. cbn [eventName dataLines]. rewrite !omap_app. cbn [omap list_omap]. unfold field.
  destruct (strings_HasPrefix line "event:") eqn:He.
  - assert (strings_HasPrefix line "data:" = false) as ->.
    { unfold strings_HasPrefix in *. apply prefix_spec in He as [t ->]. done. }
    rewrite app_nil_r. by rewrite last_snoc.
  - destruct (strings_HasPrefix line "data:"); by rewrite ?app_nil_r.
Qed.

Lemma flush_seen f : flush (seen f) = frame_events f.
Proof.
  unfold RestDecode.flush, frame_events, seen, RestDecode.decoded. cbn [eventName dataLines].
  set (data := strings_TrimSpace _).
  assert (decodeFramed (frame_name f) "" = Ok []) as Hempty by done.
  assert (decodeFramed (frame_name f) "[DONE]" = Ok [event_of now EventDone]) as Hdone by done.
  case_decide as Hn.
  { assert (data = "") as -> by (unfold data; by rewrite (proj1 Hn)). by rewrite Hempty. }
  case_decide as He; [by rewrite He, Hempty|]. case_decide as Hd; [by rewrite Hd, Hdone|].
  pose proof (decode_total (frame_name f) data). by destruct (decodeFramed _ data).
Qed.

Lemma sse_lines_frames f lines :
  sse_lines lines (seen f) =
  match frames lines with f' :: fs => frame_events (f ++ f') ++ (fs ≫= frame_events) | [] => [] end.
Proof.
  revert f. induction lines as [|line lines IH]; intros f; cbn [RestDecode.sse_lines frames].
  { by rewrite flush_seen, app_nil_r, app_nil_r. }
  case_decide as Hl.
  - rewrite flush_seen, app_nil_r. f_equal. change new_sse with (seen []). rewrite IH.
    destruct (frames lines) eqn:E; [by apply frames_nonempty in E|]. done.
  - rewrite sse_line_seen, IH. destruct (frames lines) as [|f' fs] eqn:E; [by apply frames_nonempty in E|].
    by rewrite <-app_assoc.
Qed.

(** C38. Server-sent events are decoded frame by frame: a frame is the lines up to an
    empty line or the end; its events are those of its data lines, joined by line feeds
    and trimmed, under the last event name it gives. Decoding never fails, whatever the
    data, so every frame is accounted for; an error of the body comes last. *)
Theorem sse_reference (b : body) :
  let '(lines, err) := scan_lines maxLine (body_Data b) (body_Err b) in
  parseSSE now unmarshal_objects unmarshal_object unmarshal_usage unmarshal_error json_Marshal b =
    (frames lines ≫= frame_events) ++ match err with Some e => [failure now "sse_scan_error" e] | None => [] end ∧
  ∀ name payload, ∃ events, decodeFramed name payload = Ok events.
Proof.
  unfold parseSSE. destruct (scan_lines _ _ _) as [lines err]. split.
  - f_equal. change new_sse with (seen []). rewrite sse_lines_frames.
    destruct (frames lines) eqn:E; [by apply frames_nonempty in E|done].
  - intros name payload. pose proof (decode_total name payload) as H. destruct (decodeFramed name payload); [eauto|done].
Qed.

(** ** Streams *)

Lemma collect_received acc events l :
  ∃ r rs, collect acc ((Ok <$> events) ++ Err ErrStreamClosed :: l) = Some (r, rs).
Proof.
  revert acc. induction events as [|ev events IH]; intros acc; simpl; [by eexists _, _|].
  case_decide; [apply IH|]. case_decide; [by eexists _, _|]. apply IH.
Qed.

Lemma reads_received events l : ∃ t e, AgentIOSpec.reads ((Ok <$> events) ++ Err ErrStreamClosed :: l) = Some (t, e).
Proof.
  induction events as [|ev events (t & e & IH)]; [by eexists _, _|].
  rewrite fmap_cons. cbn [app AgentIOSpec.reads]. rewrite IH. repeat case_decide; by eexists _, _.
Qed.

Lemma sent_done parse b : Exists (λ e, ev_Type e = EventDone) (sent now parse b).
Proof.
  unfold sent, emitDoneIfNeeded. apply Exists_app. case_decide; [by left|right]. by constructor.
Qed.

Lemma decoder_received ct b : ∃ events, decoder ct b = received events ∧ Exists (λ e, ev_Type e = EventDone) events.
Proof.
  unfold DefaultHTTPResponseDecoder. repeat case_match; eexists; (split; [done|apply sent_done]).
Qed.

(** Whatever the content type and the body of a response, the receives of its stream
    are events, an [EventDone] among them, and then the end. So collecting its text ends,
    and so does reading it through the reader, once enough has been read. *)
Theorem rest_collect_ends (contentType : string) (b : body) :
  let s := decoder contentType b in
  (∃ events, pending s = (Ok <$> events) ++ [Err ErrStreamClosed] ∧ Exists (λ e, ev_Type e = EventDone) events) ∧
  (∃ r s', CollectText s = Some (r, s') ∧ closes s' = 1) ∧
  ∃ t e, ∀ sizes, Forall (λ n, 0 < n) sizes → String.length t < length sizes →
    drain sizes "" (NewTextReaderAdapter s) = Some (t, e).
Proof.
  intros s. destruct (decoder_received contentType b) as (events & E & Hd). unfold s. rewrite E.
  split_and!; [by exists events| |].
  - unfold CollectText, received. cbn [pending closes].
    destruct (collect_received "" events []) as (r & rs & ->). by eexists _, _.
  - destruct (reads_received events []) as (t & e & Hr). exists t, e. intros sizes Hpos Hl.
    rewrite (AgentIOSpec.drain_rest sizes "" _ t e); [done| |done|done].
    unfold AgentIOSpec.rest_of, NewTextReaderAdapter, received. simpl. by rewrite Hr.
Qed.
End decoder.

(** *** A response *)

Definition no_json (s : string) : result (gomap any) := Err EOF.

Definition lines_of (l : list string) : string := strings_Join l (String line_feed "").

(** Frames with a name, with two data lines, and an unfinished one. *)
Example sse_ex :
  let b := {| body_Data := lines_of ["event: x"; "data: he"; "data: llo"; ""; ": note"; "data: [DONE]"]; body_Err := None |} in
  let s := DefaultHTTPResponseDecoder 0%Z (λ _, None) no_json (λ _, None) (λ _, None) (λ _, None)
             "Text/Event-Stream; charset=utf-8" b in
  ((λ r, match r with Ok e => (ev_Type e, ev_Name e, ev_Text e) | Err _ => ("", "", "") end) <$> pending s) =
  [(EventTextDelta, "x", lines_of ["he"; "llo"]); (EventDone, "", ""); ("", "", "")].
Proof. vm_compute. reflexivity. Qed.

(** ** Invoking *)

Import RestAgent.

Definition is_send (e : event hcall) : bool := match e with Ev (Do _) _ => true | _ => false end.
Definition is_close (e : event hcall) : bool := match e with Ev CloseBody _ => true | _ => false end.

(** Whatever the encoder, the network and the decoder answer: at most one request is
    sent, by POST where no method is given and with the agent's headers after the
    content type; without an endpoint or a request, nothing is called. The caller gets a
    stream only of a response with a status from 200 to 299 that could be decoded; the
    body of any other response is closed, once, and that of the stream's is not. *)
Theorem rest_invoke_spec (R : MapRange) (a : Agent) (req : option InvokeRequest) t r :
  traces (Invoke a req) t r →
  (strings_TrimSpace (Endpoint a) = "" ∨ req = None → t = [] ∧ is_ok r = false) ∧
  (count_ev is_send t = 0 → is_ok r = false ∧ count_ev is_close t = 0) ∧
  (count_ev is_send t = 0 ∨ ∃ body x,
     count_ev is_send t = 1 ∧
     Ev (Do {| hr_Method := if decide (Method a = "") then "POST" else Method a; hr_URL := Endpoint a; hr_Body := body;
               hr_Headers := ("Content-Type", "application/json") :: range_ (Headers a) |}) x ∈ t ∧
     count_ev is_close t = (if is_ok x && negb (is_ok r) then 1 else 0) ∧
     (∀ s, r = Ok s → ∃ status, x = Ok status ∧ (200 ≤ status < 300)%Z ∧ Ev Decode (Ok s) ∈ t)).
Proof.
  unfold Invoke. destruct req as [req|]; intros H.
  2: { trace_step H. split_and!; try done. by left. }
  set (method := if decide (Method a = "") then "POST" else Method a) in *.
  case_decide as He; [trace_step H; split_and!; try done; by left|].
  assert (¬ (strings_TrimSpace (Endpoint a) = "" ∨ Some req = None)) as Hn by (by intros [?|?]).
  trace_step H. destruct x as [body|e]; [|trace_step H; split_and!; try done; by left].
  trace_step H. destruct x as [u|e]; [|trace_step H; split_and!; try done; by left].
  trace_step H. split; [done|]. split; [by rewrite !count_ev_cons|]. right. exists body, x.
  assert (∀ t', Ev (Do {| hr_Method := method; hr_URL := Endpoint a; hr_Body := body;
    hr_Headers := ("Content-Type", "application/json") :: range_ (Headers a) |}) x
    ∈ Ev (Encode req) (Ok body) :: Ev (NewRequest method (Endpoint a) body) (Ok u) :: Ev (Do {| hr_Method := method;
        hr_URL := Endpoint a; hr_Body := body;
        hr_Headers := ("Content-Type", "application/json") :: range_ (Headers a) |}) x :: t') as Hin
    by (intros t'; right; right; by left).
  destruct x as [status|e].
  2: { trace_step H. split_and!; [done|apply Hin|done|done]. }
  case_decide as Hs.
  { trace_step H. trace_step H. trace_step H. split_and!; [done|apply Hin|done|done]. }
  trace_step H. destruct x as [s|e].
  - trace_step H. split_and!; [done|apply Hin|done|]. intros s' [= <-]. exists status. split_and!; [done|lia|lia|].
    do 3 right. by left.
  - trace_step H. trace_step H. split_and!; [done|apply Hin|done|done].
Qed.

Definition sample_net (X : Type) (e : hcall X) : X :=
  match e with
  | Encode _ => Ok "{}"
  | NewRequest _ _ _ => Ok ()
  | Do _ => Ok 503%Z
  | ReadBody _ => "busy"
  | CloseBody => ()
  | Decode => Err EOF
  end.

Definition sample_agent : Agent := {| NameStr := ""; Endpoint := "http://x"; Method := ""; Headers := None |}.
Definition sample_request : InvokeRequest :=
  {| ir_RequestID := ""; ir_SessionID := ""; ir_Role := "user"; ir_Parts := []; ir_Metadata := None;
     ir_Options := {| io_Model := ""; io_Stream := false; io_Timeout := 0; io_MaxOutputBytes := 0; io_Temperature := None;
                      io_Extra := None |} |}.

Definition sample_invoke :=
  run (tracer sample_net) (Invoke (H := canonical_range) sample_agent (Some sample_request)) [].

Lemma rest_invoke_spec_witness : is_ok sample_invoke.1 = false ∧ count_ev is_close sample_invoke.2 = 1.
Proof.
  destruct (rest_invoke_spec canonical_range sample_agent (Some sample_request) sample_invoke.2 sample_invoke.1)
    as (_ & _ & [H|(body & x & _ & Hin & Hc & _)]).
  - apply (run_tracer sample_net). apply surjective_pairing.
  - vm_compute in H. discriminate.
  - split; [reflexivity|]. reflexivity.
Defined.
End RestSpec.
