(* ===== verification/RestStream.v ===== *)
(** * The stream behind a REST response (pkg/bridge/rest/decode.go)

    [RestDecode] says what a response decodes to. Here is how it gets to the reader: a
    goroutine sends the events over a channel of bounded capacity, the reader takes them
    off, and closing the stream closes the body under the goroutine. [rest_stream_refines]: the
    receives give what [RestDecode] says, in order, and a reader that goes on gets to the
    end. [abandoned_stream]: a reader that stops leaves a goroutine
    behind unless all that is left fits into the channel. *)

From S2P Require Import Prelude GoString GoError GoValue WorkspaceTypes AgentIO RestDecode.
From stdpp Require Import options.
Set Default Proof Using "Type*".

Module RestStream.
Import AgentIO RestDecode.

(** The goroutine and the channel: the body as far as it will be read, what the goroutine
    has sent, what is still in the channel, and whether the goroutine has closed it. *)
Record pump := {
  p_body : body;
  p_sent : list Event;
  p_queue : list Event;
  p_closed : bool;
}.

Definition new_pump (b : body) : pump := {| p_body := b; p_sent := []; p_queue := []; p_closed := false |}.

(** A body that was closed while it was read: reading it failed after some of its
    bytes. *)
Definition cut (b b' : body) : Prop :=
  (∃ rest, body_Data b = body_Data b' +:+ rest) ∧ ∃ e, body_Err b' = Some e.

(** A receive whose context has ended may return with that, and takes nothing. *)
Inductive action := Internal | Received (r : result Event) | Interrupted (err : error) | CloseStream.

Section pump.
Variable parse : body → list Event.
Variable now : Time.
Variable capacity : nat.

(** All the goroutine sends. *)
Definition total (s : pump) : list Event := sent now parse (p_body s).

(** Closing the stream closes the body: what is read of it ends there, and what was
    sent stays sent; or all of it had been read before. *)
Inductive pump_step : pump → action → pump → Prop :=
| p_send s e :
    p_closed s = false → total s !! length (p_sent s) = Some e → length (p_queue s) < capacity →
    pump_step s Internal {| p_body := p_body s; p_sent := p_sent s ++ [e]; p_queue := p_queue s ++ [e]; p_closed := false |}
| p_finish s :
    p_closed s = false → total s !! length (p_sent s) = None →
    pump_step s Internal {| p_body := p_body s; p_sent := p_sent s; p_queue := p_queue s; p_closed := true |}
| p_recv s e q :
    p_queue s = e :: q →
    pump_step s (Received (Ok e)) {| p_body := p_body s; p_sent := p_sent s; p_queue := q; p_closed := p_closed s |}
| p_end s :
    p_queue s = [] → p_closed s = true → pump_step s (Received (Err ErrStreamClosed)) s
| p_interrupted s err : pump_step s (Interrupted err) s
| p_close_open s b :
    p_closed s = false → cut (p_body s) b → p_sent s `prefix_of` sent now parse b →
    pump_step s CloseStream {| p_body := b; p_sent := p_sent s; p_queue := p_queue s; p_closed := false |}
| p_close_read s : pump_step s CloseStream s.

(** A run, and what its receives gave. *)
Inductive pump_run : pump → list action → pump → Prop :=
| run_nil s : pump_run s [] s
| run_snoc s acts s1 a s2 : pump_run s acts s1 → pump_step s1 a s2 → pump_run s (acts ++ [a]) s2.

Definition receive (a : action) : option (result Event) := match a with Received r => Some r | _ => None end.
Definition receives (acts : list action) : list (result Event) := omap receive acts.

(** A step of the goroutine. *)
Definition works (s s' : pump) : Prop := pump_step s Internal s'.

(** ** What is received *)

Definition ended_receives (got : list (result Event)) : Prop := Forall (.= Err ErrStreamClosed) got.

Record pump_inv (got : list (result Event)) (s : pump) : Prop := {
  inv_sent : p_sent s `prefix_of` total s;
  inv_got : ∃ taken ends, got = (Ok <$> taken) ++ ends ∧ ended_receives ends ∧ p_sent s = taken ++ p_queue s ∧
            (ends ≠ [] → p_closed s = true ∧ p_queue s = []);
  inv_closed : p_closed s = true → p_sent s = total s;
  inv_room : length (p_queue s) ≤ capacity;
}.

Lemma pump_inv_new b : pump_inv [] (new_pump b).
Proof. split; [apply prefix_nil| |done|simpl; lia]. exists [], []. split_and!; [done|constructor|done|done]. Qed.

Lemma prefix_full {A} (l k : list A) : l `prefix_of` k → k !! length l = None → l = k.
Proof.
  intros [r ->] H. apply lookup_ge_None in H. rewrite length_app in H. destruct r; [by rewrite app_nil_r|simpl in H; lia].
Qed.

Lemma prefix_next {A} (l k : list A) x : l `prefix_of` k → k !! length l = Some x → l ++ [x] `prefix_of` k.
Proof.
  intros [r ->] H. rewrite lookup_app_r, Nat.sub_diag in H by lia. destruct r as [|y r]; [done|]. injection H as ->.
  exists r. by rewrite <-(assoc_L (++)).
Qed.

Lemma pump_inv_step got s a s' :
  pump_inv got s → pump_step s a s' → pump_inv (got ++ option_list (receive a)) s'.
Proof.
  intros [Hs (taken & ends & -> & Hends & Ht & He) Hc Hr] Hstep.
  destruct Hstep as [s e Hop Hnext Hroom|s Hop Hnext|s e q Hq|s Hq Hcl|s err|s b Hop Hb Hp|s]; simpl in *; rewrite ?app_nil_r.
  - split; [by apply prefix_next| |done|simpl; rewrite length_app; simpl; lia]. exists taken, ends. split_and!; [done..|by simpl; rewrite Ht, <-(assoc_L (++))|].
    intros Hne. destruct (He Hne). congruence.
  - split; [done| |intros _; by apply prefix_full|done]. exists taken, ends. split_and!; [done..|]. intros Hne. by destruct (He Hne).
  - assert (ends = []) as -> by (destruct ends; [done|]; destruct He; [done|congruence]).
    split; [done| |done|rewrite Hq in Hr; simpl in *; lia]. exists (taken ++ [e]), []. split_and!; [|constructor| |done].
    + by rewrite fmap_app, !app_nil_r.
    + simpl. by rewrite Ht, Hq, <-(assoc_L (++)).
  - split; [done| |done|done]. exists taken, (ends ++ [Err ErrStreamClosed]). split_and!; [by rewrite (assoc_L (++))| |done|done].
    apply Forall_app. split; [done|]. by repeat constructor.
  - split; [done| |done|done]. by exists taken, ends.
  - split; [done| |done|done]. exists taken, ends. split_and!; try done. intros Hne. destruct (He Hne). congruence.
  - split; [done| |done|done]. by exists taken, ends.
Qed.

Lemma pump_inv_run b acts s : pump_run (new_pump b) acts s → pump_inv (receives acts) s.
Proof.
  intros H. remember (new_pump b) as s0 eqn:E.
  induction H as [s|s acts s1 a s2 _ IH Hs]; [subst; apply pump_inv_new|].
  unfold receives. rewrite omap_app. apply (pump_inv_step _ _ _ _ (IH E)) in Hs. by destruct a.
Qed.

(** The body is the one it was, or a cut of it. *)
Lemma cut_trans b1 b2 b3 : cut b1 b2 → cut b2 b3 → cut b1 b3.
Proof.
  intros [[r1 E1] _] [[r2 E2] He]. split; [|done]. exists (r2 +:+ r1). by rewrite E1, E2, append_assoc.
Qed.

Lemma run_body b acts s : pump_run (new_pump b) acts s →
  (p_body s = b ∨ cut b (p_body s)) ∧ (Forall (λ a, a ≠ CloseStream) acts → p_body s = b).
Proof.
  intros H. remember (new_pump b) as s0 eqn:E. induction H as [s|s acts s1 a s2 _ IH Hs]; [subst; by split; [left|]|].
  destruct (IH E) as [Hb Hn]. rewrite Forall_app, Forall_singleton.
  destruct Hs as [s1 e Hop Hnext Hroom|s1 Hop Hnext|s1 e q Hq|s1 Hq Hcl|s1 err|s1 b' Hop Hb' Hp|s1]; simpl;
    try (split; [done|]; intros [Hall _]; by apply Hn).
  split; [right|by intros [_ ?]]. destruct Hb as [<-|Hb]; [done|]. by eapply cut_trans.
Qed.

(** What was received begins what the stream holds. *)
Lemma run_receives b acts s : pump_run (new_pump b) acts s →
  ∃ k, receives acts `prefix_of` pending (received (total s)) ++ replicate k (Err ErrStreamClosed).
Proof.
  intros H%pump_inv_run. destruct H as [Hs (taken & ends & E & Hends & Ht & He) Hc _]. rewrite E.
  exists (length ends). unfold received. simpl. destruct ends as [|e ends].
  - rewrite app_nil_r. destruct Hs as [rest Hs]. rewrite Hs, Ht, !fmap_app, <-!(assoc_L (++)). by eexists.
  - destruct (He ltac:(done)) as [Hcl Hq]. rewrite <-(Hc Hcl), Ht, Hq, app_nil_r, <-(assoc_L (++)).
    assert (∀ l : list (result Event), ended_receives l → l = replicate (length l) (Err ErrStreamClosed)) as Hrep.
    { intros l. induction 1 as [|x l -> _ IH]; [done|]. simpl. by rewrite <-IH. }
    rewrite (Hrep (e :: ends) Hends), length_replicate. exists [Err ErrStreamClosed].
    rewrite <-(assoc_L (++)). f_equal. apply replicate_cons_app.
Qed.

(** ** Getting to the end *)

(** What the goroutine has yet to do. *)
Definition work_left (s : pump) : nat :=
  if p_closed s then 0 else S (length (total s) - length (p_sent s)).

(** Every step of the goroutine is work done, and every event taken leaves less. *)
Lemma pump_measure got s a s' : pump_inv got s → pump_step s a s' →
  match a with
  | Internal => work_left s' < work_left s
  | Received (Ok _) => work_left s' = work_left s ∧ length (p_queue s') < length (p_queue s)
  | Received (Err _) => s' = s
  | Interrupted _ => s' = s
  | CloseStream => True
  end.
Proof.
  intros [Hs _ _ _] Hstep. destruct Hstep as [s e Hop Hnext Hroom|s Hop Hnext|s e q Hq|s Hq Hcl|s err|s b Hop Hb Hp|s]; simpl; try done.
  - unfold work_left. rewrite Hop. simpl. apply lookup_lt_Some in Hnext. unfold total in *. simpl. rewrite length_app. simpl. lia.
  - unfold work_left. rewrite Hop. simpl. lia.
  - rewrite Hq. simpl. split; [done|lia].
Qed.

(** A receive waits only while the goroutine has a step to take. *)
Lemma pump_progress s : 0 < capacity →
  (∃ r s', pump_step s (Received r) s') ∨ (∃ s', works s s').
Proof.
  intros Hcap. destruct (p_queue s) as [|e q] eqn:Hq; [|left; eexists _, _; by apply p_recv].
  destruct (p_closed s) eqn:Hc; [left; eexists _, _; by apply p_end|right].
  destruct (total s !! length (p_sent s)) as [e|] eqn:He; eexists.
  - apply p_send; [done|done|]. by rewrite Hq.
  - by apply p_finish.
Qed.

(** A goroutine whose stream nobody reads any more. *)
Lemma works_sent s s' : works s s' →
  p_closed s = false ∧ p_body s' = p_body s ∧
  ((p_closed s' = false ∧ ∃ e, total s !! length (p_sent s) = Some e ∧ p_sent s' = p_sent s ++ [e] ∧
    p_queue s' = p_queue s ++ [e] ∧ length (p_queue s) < capacity) ∨
   (p_closed s' = true ∧ total s !! length (p_sent s) = None)).
Proof.
  unfold works. intros H. inversion H; subst; simpl; split_and!; try done; [left|right]; split; eauto.
Qed.

Lemma works_total s s' : works s s' → total s' = total s.
Proof. intros (_ & E & _)%works_sent. unfold total. by rewrite E. Qed.

(** What is left to send, and room for it. *)
Definition fits (s : pump) : Prop := length (p_queue s) + (length (total s) - length (p_sent s)) ≤ capacity.

Lemma abandoned_room s s' : rtc works s s' → length (p_queue s) ≤ capacity → p_closed s = false → p_closed s' = true → fits s.
Proof.
  unfold fits. induction 1 as [s|s s1 s' Hw Hr IH]; [congruence|]. intros Hq Ho Hc. pose proof (works_total _ _ Hw) as Et.
  apply works_sent in Hw as (_ & _ & [(Ho1 & e & He & Es & Eq & Hl)|(Hc1 & Hn)]).
  - rewrite Et, Es, Eq, !length_app in IH. simpl in IH. apply lookup_lt_Some in He. specialize (IH ltac:(lia) Ho1 Hc). lia.
  - apply lookup_ge_None in Hn. lia.
Qed.

Lemma abandoned_ends s : p_closed s = false → fits s → ∃ s', rtc works s s' ∧ p_closed s' = true.
Proof.
  unfold fits. remember (length (total s) - length (p_sent s)) as n eqn:Hn. revert s Hn.
  induction n as [|n IH]; intros s Hn Ho Hroom.
  - eexists. split; [apply rtc_once, p_finish; [done|]|done]. apply lookup_ge_None. lia.
  - destruct (lookup_lt_is_Some_2 (total s) (length (p_sent s))) as [e He]; [lia|].
    edestruct (IH {| p_body := p_body s; p_sent := p_sent s ++ [e]; p_queue := p_queue s ++ [e]; p_closed := false |}) as (s' & Hr & Hc).
    + unfold total in *. simpl. rewrite length_app. simpl. lia.
    + done.
    + simpl. rewrite !length_app. simpl. lia.
    + exists s'. split; [|done]. eapply rtc_l; [|exact Hr]. apply p_send; [done|done|lia].
Qed.

(** Steps of the goroutine and receives of events. *)
Definition useful (a : action) : Prop :=
  match a with Internal | Received (Ok _) => True | _ => False end.

Lemma run_length b acts s : pump_run (new_pump b) acts s → Forall useful acts →
  length acts + 2 * work_left s + length (p_queue s) ≤ 2 * S (length (sent now parse b)).
Proof.
  intros H. remember (new_pump b) as s0 eqn:E. induction H as [s|s acts s1 a s2 Hr IH Hs]; [subst; intros _; unfold work_left, total; simpl; lia|].
  rewrite Forall_app, Forall_singleton. intros [Hu Ha]. specialize (IH E Hu). subst s. apply pump_inv_run in Hr as Hinv.
  pose proof (pump_measure _ _ _ _ Hinv Hs) as Hm. rewrite length_app. simpl length at 2.
  destruct Hs as [s1 e Hop Hnext Hroom|s1 Hop Hnext|s1 e q Hq|s1 Hq Hcl|s1 err|s1 b' Hop Hb' Hp|s1]; simpl in Ha; try done; cbn [p_queue receive] in *;
    rewrite ?length_app; cbn [length]; try lia.
Qed.
End pump.

(** ** The decoders *)

Section decoder.
Variable now : Time.
Variable unmarshal_objects : string → option (list (gomap any)).
Variable unmarshal_object : string → result (gomap any).
Variable unmarshal_usage : string → option Usage.
Variable unmarshal_error : string → option EventError.
Variable json_Marshal : any → option string.

(** What [DefaultHTTPResponseDecoder] makes of a content type: the parser of the
    goroutine and the capacity of its channel. *)
Definition parser_of (contentType : string) : (body → list Event) * nat :=
  let contentType := lower contentType in
  if strings_Contains contentType "text/event-stream" then
    (parseSSE now unmarshal_objects unmarshal_object unmarshal_usage unmarshal_error json_Marshal, 128)
  else if strings_Contains contentType "application/x-ndjson" || strings_Contains contentType "application/jsonl" ||
          strings_Contains contentType "application/json-seq" then
    (parseJSONL now unmarshal_objects unmarshal_object unmarshal_usage unmarshal_error json_Marshal, 128)
  else (parseSingleJSON now unmarshal_objects unmarshal_object unmarshal_usage unmarshal_error json_Marshal, 4).

Local Abbreviation decoder := (DefaultHTTPResponseDecoder now unmarshal_objects unmarshal_object unmarshal_usage
  unmarshal_error json_Marshal).

Lemma decoder_parser ct b : decoder ct b = received (sent now (parser_of ct).1 b).
Proof. unfold DefaultHTTPResponseDecoder, parser_of. by repeat case_match. Qed.

Lemma parser_capacity ct : 0 < (parser_of ct).2.
Proof. unfold parser_of. repeat case_match; simpl; lia. Qed.

(** C20. However the goroutine of a response and the reader of its stream take turns, what
    the receives give begins what [DefaultHTTPResponseDecoder] is said to give for the
    body, followed by the end as often as it is asked for; if the stream is closed
    meanwhile, for a body that is cut off. A receive never waits for good: it can be
    answered, or the goroutine has a step to take, and without the receives of the end
    and the interrupted ones there are at most twice as many steps as events, and two. *)
Theorem rest_stream_refines (contentType : string) (b : body) (acts : list action) (s : pump) :
  let '(parse, capacity) := parser_of contentType in
  pump_run parse now capacity (new_pump b) acts s →
  (∃ b' k, (b' = b ∨ cut b b') ∧ (Forall (λ a, a ≠ CloseStream) acts → b' = b) ∧
     receives acts `prefix_of` pending (decoder contentType b') ++ replicate k (Err ErrStreamClosed)) ∧
  ((∃ r s', pump_step parse now capacity s (Received r) s') ∨ ∃ s', works parse now capacity s s') ∧
  (Forall useful acts → length acts ≤ 2 * length (sent now parse b) + 2).
Proof.
  pose proof (parser_capacity contentType) as Hcap. pose proof (decoder_parser contentType) as Hdec.
  destruct (parser_of contentType) as [parse capacity]. simpl in *. intros Hr. split_and!.
  - destruct (run_body _ _ _ _ _ _ Hr) as [Hb Hn]. destruct (run_receives _ _ _ _ _ _ Hr) as [k Hk].
    exists (p_body s), k. split_and!; [done|done|]. by rewrite Hdec.
  - by apply pump_progress.
  - intros Hu. pose proof (run_length _ _ _ _ _ _ Hr Hu). lia.
Qed.

(** C36. When the reader of a stream takes no more events, the goroutine of the response
    comes to its end exactly when all it has left to send fits into the channel;
    otherwise it waits for good, also after the stream was closed. *)
Theorem abandoned_stream (contentType : string) (b : body) (acts : list action) (s : pump) :
  let '(parse, capacity) := parser_of contentType in
  pump_run parse now capacity (new_pump b) acts s → p_closed s = false →
  ((∃ s', rtc (works parse now capacity) s s' ∧ p_closed s' = true) ↔
   length (p_queue s) + (length (sent now parse (p_body s)) - length (p_sent s)) ≤ capacity).
Proof.
  destruct (parser_of contentType) as [parse capacity]. intros Hr Ho. apply pump_inv_run in Hr as [_ _ _ Hroom]. split.
  - intros (s' & Hw & Hc). by eapply abandoned_room.
  - by apply abandoned_ends.
Qed.
End decoder.

(** ** A response with six objects *)

Definition no_object (s : string) : result (gomap any) := Err EOF.
Definition six_objects (s : string) : option (list (gomap any)) := Some (replicate 6 (Some {["text" := AString s]})).
Definition json_body : body := {| body_Data := "x"; body_Err := None |}.

Local Abbreviation sample_parser :=
  (parser_of 0%Z six_objects no_object (λ _, None) (λ _, None) (λ _, None) "application/json").

Lemma rest_stream_refines_witness :
  ∃ e s, pump_run sample_parser.1 0%Z sample_parser.2 (new_pump json_body) [Internal; Received (Ok e); CloseStream] s ∧
    ∃ b' k, [Ok e] `prefix_of`
      pending (DefaultHTTPResponseDecoder 0%Z six_objects no_object (λ _, None) (λ _, None) (λ _, None) "application/json" b') ++
      replicate k (Err ErrStreamClosed).
Proof.
  assert (∃ e s, pump_run sample_parser.1 0%Z sample_parser.2 (new_pump json_body) [Internal; Received (Ok e); CloseStream] s)
    as (e & s & Hr).
  { eexists _, _. change [Internal; Received ?x; CloseStream] with ((([] ++ [Internal]) ++ [Received x]) ++ [CloseStream]).
    eapply run_snoc; [eapply run_snoc; [eapply run_snoc; [apply run_nil|]|]|].
    - eapply p_send; [reflexivity|vm_compute; reflexivity|simpl; lia].
    - eapply p_recv. reflexivity.
    - apply p_close_read. }
  exists e, s. split; [exact Hr|].
  destruct (rest_stream_refines 0%Z six_objects no_object (λ _, None) (λ _, None) (λ _, None) "application/json" json_body _ s Hr)
    as [(b' & k & _ & _ & H) _].
  exists b', k. exact H.
Defined.

(** Its goroutine never ends if nothing is received. *)
Lemma abandoned_stream_witness :
  ¬ ∃ s', rtc (works sample_parser.1 0%Z sample_parser.2) (new_pump json_body) s' ∧ p_closed s' = true.
Proof.
  intros H.
  apply (proj1 (abandoned_stream 0%Z six_objects no_object (λ _, None) (λ _, None) (λ _, None) "application/json" json_body []
    (new_pump json_body) (run_nil _ _ _ _) eq_refl)) in H.
  vm_compute in H. lia.
Defined.
End RestStream.
