(* ===== verification/SocketSession.v ===== *)
(** * Sessions over a JSON socket (pkg/bridge/socket/agent.go)

    A session is a channel of events filled by a reading goroutine and emptied by the
    caller. Its state is what the goroutines share; a step is what one of them does
    without the others seeing inside: a [select] takes any of its ready branches. The
    decoder and the encoder are arguments. *)

From S2P Require Import Prelude GoString GoError GoValue WorkspaceTypes Proc AgentIO RestDecode.
From stdpp Require Import options.
Set Default Proof Using "Type*".

Module SocketSession.
Import AgentIO.

Definition capacity : nat := 128.

(** Where the reading goroutine is: at the top of its loop, in the socket's [Read], with
    events to send (and whether it returns after them), in its deferred calls, done. *)
Inductive loop :=
| AtTop
| InRead
| Sending (events : list Event) (stop : bool)
| SignalDone
| CloseConn
| CloseClosed
| CloseCh
| Finished.

Record session := {
  ctx_done : bool;              (* the context of [OpenSession] *)
  closed : bool;                (* the channel [closed]; its [closeOnce] has run *)
  ch : list Event;
  ch_closed : bool;
  conn_closes : nat;
  read_loop : loop;
}.

Definition new_session : session :=
  {| ctx_done := false; closed := false; ch := []; ch_closed := false; conn_closes := 0; read_loop := AtTop |}.

(** ** Changes of the state *)

Definition set_loop (l : loop) (s : session) : session :=
  {| ctx_done := ctx_done s; closed := closed s; ch := ch s; ch_closed := ch_closed s; conn_closes := conn_closes s;
     read_loop := l |}.
Definition set_ch (q : list Event) (s : session) : session :=
  {| ctx_done := ctx_done s; closed := closed s; ch := q; ch_closed := ch_closed s; conn_closes := conn_closes s;
     read_loop := read_loop s |}.
Definition cancel_ctx (s : session) : session :=
  {| ctx_done := true; closed := closed s; ch := ch s; ch_closed := ch_closed s; conn_closes := conn_closes s;
     read_loop := read_loop s |}.
Definition close_conn (s : session) : session :=
  {| ctx_done := ctx_done s; closed := closed s; ch := ch s; ch_closed := ch_closed s;
     conn_closes := S (conn_closes s); read_loop := read_loop s |}.
Definition close_closed (s : session) : session :=
  {| ctx_done := ctx_done s; closed := true; ch := ch s; ch_closed := ch_closed s; conn_closes := conn_closes s;
     read_loop := read_loop s |}.
Definition close_ch (s : session) : session :=
  {| ctx_done := ctx_done s; closed := closed s; ch := ch s; ch_closed := true; conn_closes := conn_closes s;
     read_loop := read_loop s |}.

(** [Close] *)
Definition Close (s : session) : session := if closed s then s else close_conn (close_closed s).

Definition stopping (s : session) : Prop := ctx_done s = true ∨ closed s = true.

(** The decoder of a frame where none is given: the one of the REST bridge, which the
    source repeats. *)
Section default_decoder.
Variable now : Time.
Variable unmarshal_objects : string → option (list (gomap any)).
Variable unmarshal_object : string → result (gomap any).
Variable unmarshal_usage : string → option Usage.
Variable unmarshal_error : string → option EventError.
Variable json_Marshal : any → option string.

Definition bestEffortEventFromMap : gomap any → Event :=
  RestDecode.bestEffortEventFromMap now unmarshal_usage unmarshal_error json_Marshal.

Definition DefaultFrameDecoder : string → result (list Event) :=
  RestDecode.defaultFrameDecoder now unmarshal_objects unmarshal_object unmarshal_usage unmarshal_error json_Marshal.
End default_decoder.

Section decoder.
Variable now : Time.
Variable decode : string → result (list Event).

(** What the loop does with an answer of the socket. *)
Definition after_read (r : result string) : loop :=
  match r with
  | Err err =>
    if errors_Is err Canceled then SignalDone
    else Sending [RestDecode.failure now "socket_read_error" err] true
  | Ok payload =>
    match decode payload with
    | Err err => Sending [RestDecode.failure now "socket_decode_error" err] true
    | Ok events => Sending events false
    end
  end.

(** What is seen of a step. *)
Inductive label :=
| Tau
| SocketRead (r : result string)
| Recv (r : result Event)                (* what the caller's [Recv] returns *)
| CallClose
| CtxDone.

Inductive step : session → label → session → Prop :=
(** the loop *)
| top_return s :
    read_loop s = AtTop → stopping s → step s Tau (set_loop SignalDone s)
| top_read s :
    read_loop s = AtTop → ¬ stopping s → step s Tau (set_loop InRead s)
| read_returns s r :
    read_loop s = InRead → step s (SocketRead r) (set_loop (after_read r) s)
| send s e events stop :
    read_loop s = Sending (e :: events) stop → length (ch s) < capacity →
    step s Tau (set_loop (Sending events stop) (set_ch (ch s ++ [e]) s))
| send_returns s e events stop :
    read_loop s = Sending (e :: events) stop → stopping s → step s Tau (set_loop SignalDone s)
| send_done s stop :
    read_loop s = Sending [] stop → step s Tau (set_loop (if stop then SignalDone else AtTop) s)
(** its deferred calls *)
| defer_done s : read_loop s = SignalDone → step s Tau (set_loop CloseConn s)
| defer_conn s : read_loop s = CloseConn → step s Tau (set_loop CloseClosed (close_conn s))
| defer_closed s : read_loop s = CloseClosed → step s Tau (set_loop CloseCh (close_closed s))
| defer_ch s : read_loop s = CloseCh → step s Tau (set_loop Finished (close_ch s))
(** the caller *)
| recv_ctx s err : step s (Recv (Err err)) s                      (* its own context is done *)
| recv_closed s : closed s = true → step s (Recv (Err ErrStreamClosed)) s
| recv_event s e q : ch s = e :: q → step s (Recv (Ok e)) (set_ch q s)
| recv_end s : ch s = [] → ch_closed s = true → step s (Recv (Err ErrStreamClosed)) s
| close s : step s CallClose (Close s)
| context s : step s CtxDone (cancel_ctx s).

Inductive steps : session → list label → session → Prop :=
| steps_nil s : steps s [] s
| steps_snoc s tr s1 l s2 : steps s tr s1 → step s1 l s2 → steps s (tr ++ [l]) s2.

(** ** What a run shows *)

(** The events the socket's answers stand for, the last failure included. *)
Definition read_events (l : label) : list Event :=
  match l with
  | SocketRead r => match after_read r with Sending events _ => events | _ => [] end
  | _ => []
  end.
Definition recv_events (l : label) : list Event := match l with Recv (Ok e) => [e] | _ => [] end.

Definition decoded (tr : list label) : list Event := tr ≫= read_events.
Definition received (tr : list label) : list Event := tr ≫= recv_events.
End decoder.

(** ** Opening *)

(** What [OpenSession] calls: the dialer, the start of the loop, [Send] (the encoder and
    the socket's [Write]) and the session's [Close]. *)
Inductive scall : Type → Type :=
| Dial (req : InvokeRequest) : scall (result unit)
| StartLoop : scall unit
| Encode (parts : list InputPart) : scall (result string)
| Write (payload : string) : scall (result unit)
| CloseSession : scall unit.

Definition Send (parts : list InputPart) : proc scall (result unit) :=
  payload ← call (Encode parts);
  match payload with Err err => mret (Err err) | Ok payload => call (Write payload) end.

Definition OpenSession (dialer : bool) (req : option InvokeRequest) : proc scall (result unit) :=
  if negb dialer then mret (Err (ENew "socket agent missing dialer")) else
  match req with
  | None => mret (Err (ENew "nil request"))
  | Some req =>
    match Validate req with
    | Err err => mret (Err err)
    | Ok _ =>
      conn ← call (Dial req);
      match conn with
      | Err err => mret (Err err)
      | Ok _ =>
        _ ← call StartLoop;
        if decide (ir_Parts req = []) then mret (Ok ()) else
        sent ← Send (ir_Parts req);
        match sent with
        | Err err => _ ← call CloseSession; mret (Err err)
        | Ok _ => mret (Ok ())
        end
      end
    end
  end.

(** ** The agent *)

Record Agent := { ag_NameStr : string; ag_Dialer : bool }.

Definition Name (a : Agent) : string := if decide (ag_NameStr a = "") then "socket-agent" else ag_NameStr a.

(** The session is the stream: [Recv] and [Close] of the stream are those of the session. *)
Definition Invoke (a : Agent) (req : option InvokeRequest) : proc scall (result unit) :=
  opened ← OpenSession (ag_Dialer a) req;
  mret match opened with Err err => Err err | Ok session => Ok session end.
End SocketSession.
