(* ===== verification/SocketSpec.v ===== *)
(** * What a socket session guarantees, and what it does not

    [session_fifo]: the caller receives the events of the socket's answers in order,
    without gaps, and none is dropped unless the session or its context is ended.
    [end_may_hide_events]: what is still in the channel when the loop has ended may be
    hidden by the end of the stream, the final error included. [closed_session_ends]:
    once a session is ended its goroutine ends too, if the socket's read returns. *)

From S2P Require Import Prelude GoString GoError GoValue WorkspaceTypes Proc AgentIO RestDecode SocketSession.
From stdpp Require Import options.
Set Default Proof Using "Type*".

Module SocketSpec.
Import AgentIO SocketSession.

Section decoder.
Variable now : Time.
Variable decode : string → result (list Event).

Local Abbreviation step := (step now decode).
Local Abbreviation steps := (steps now decode).
Local Abbreviation decoded := (decoded now decode).

Lemma decoded_snoc tr l : decoded (tr ++ [l]) = decoded tr ++ read_events now decode l.
Proof. unfold SocketSession.decoded. rewrite bind_app. simpl. by rewrite app_nil_r. Qed.

Lemma received_snoc tr l : received (tr ++ [l]) = received tr ++ recv_events l.
Proof. unfold received. rewrite bind_app. simpl. by rewrite app_nil_r. Qed.

(** ** The invariant *)

(** The events the loop still has to send. *)
Definition to_send (l : loop) : list Event := match l with Sending events _ => events | _ => [] end.

(** The loop is in its last calls, past the one that closes [closed]. *)
Definition late (l : loop) : Prop := l = CloseCh ∨ l = Finished.

(** Nobody ended the session from outside. *)
Definition undisturbed (tr : list label) : Prop := (CallClose ∉ tr) ∧ (CtxDone ∉ tr).

(** The loop can still read. *)
Definition early (l : loop) : Prop := l = AtTop ∨ l = InRead ∨ ∃ es stop, l = Sending es stop.

(** The events that were received, are in the channel or are still to be sent. *)
Definition kept (tr : list label) (s : session) : list Event := received tr ++ ch s ++ to_send (read_loop s).

Record inv (tr : list label) (s : session) : Prop := {
  inv_prefix : kept tr s `prefix_of` decoded tr;
  inv_early : early (read_loop s) → kept tr s = decoded tr;
  inv_closed : ch_closed s = true ↔ read_loop s = Finished;
  inv_late : late (read_loop s) → closed s = true;
  inv_quiet : undisturbed tr →
    ctx_done s = false ∧ (closed s = true → late (read_loop s)) ∧ kept tr s = decoded tr;
}.

Lemma inv_new : inv [] new_session.
Proof. by split; try (by intros [?|?]). Qed.

Lemma undisturbed_snoc tr l : undisturbed (tr ++ [l]) ↔ undisturbed tr ∧ l ≠ CallClose ∧ l ≠ CtxDone.
Proof.
  unfold undisturbed. rewrite !not_elem_of_app, !list_elem_of_singleton. split.
  - intros [[? H1] [? H2]]. split_and!; [done|done| |]; congruence.
  - intros [[? ?] [? ?]]. split_and!; [done| |done|]; congruence.
Qed.

Lemma after_read_events r : to_send (after_read now decode r) = read_events now decode (SocketRead r).
Proof. unfold read_events. by destruct (after_read now decode r). Qed.

(** A step that keeps the events and the marks. *)
Lemma inv_keep tr l s s' :
  inv tr s → read_events now decode l = [] → l ≠ CallClose → l ≠ CtxDone → kept (tr ++ [l]) s' = kept tr s →
  ctx_done s' = ctx_done s → (early (read_loop s') → early (read_loop s)) →
  (ch_closed s' = true ↔ read_loop s' = Finished) → (late (read_loop s') → closed s' = true) →
  (closed s' = true → closed s = true ∨ late (read_loop s')) → (late (read_loop s) → late (read_loop s')) →
  inv (tr ++ [l]) s'.
Proof.
  intros [Hp He Hcl Hl Hq] Hr H1 H2 Hk Hctx Hearly Hcl' Hl' Hc Hlate.
  assert (decoded (tr ++ [l]) = decoded tr) as Hd by (by rewrite decoded_snoc, Hr, app_nil_r).
  split; rewrite ?Hk, ?Hd; [done|by intros ?%Hearly%He|done|done|].
  intros [Hu _]%undisturbed_snoc. destruct (Hq Hu) as (? & Hq' & ?). split_and!; [congruence| |done].
  intros [?|?]%Hc; auto.
Qed.

(** Events that are dropped because the session is ended. *)
Lemma inv_drop tr s e events stop :
  inv tr s → read_loop s = Sending (e :: events) stop → stopping s → inv (tr ++ [Tau]) (set_loop SignalDone s).
Proof.
  intros [Hp He Hcl Hl Hq] Hloop Hst. unfold kept in *. rewrite Hloop in *.
  split; unfold kept; rewrite ?decoded_snoc, ?received_snoc; simpl; rewrite ?app_nil_r.
  - etrans; [|exact Hp]. rewrite (assoc_L (++)). by exists (e :: events).
  - by intros [?|[?|(? & ? & ?)]].
  - split; [by intros ?%Hcl|done].
  - by intros [?|?].
  - intros [Hu _]%undisturbed_snoc. destruct (Hq Hu) as (Hctx & Hc & _). destruct Hst as [?|Hc']; [congruence|].
    by destruct (Hc Hc') as [?|?].
Qed.

Lemma inv_read tr s r :
  inv tr s → read_loop s = InRead → inv (tr ++ [SocketRead r]) (set_loop (after_read now decode r) s).
Proof.
  intros [Hp He Hcl Hl Hq] Hloop.
  assert (kept tr s = decoded tr) as Hk by (apply He; right; by left).
  assert (kept (tr ++ [SocketRead r]) (set_loop (after_read now decode r) s) = decoded (tr ++ [SocketRead r])) as Hk'.
  { unfold kept in *. rewrite Hloop in Hk. rewrite decoded_snoc, received_snoc, <-Hk.
    cbn [set_loop read_loop ch recv_events]. rewrite after_read_events. cbn [to_send]. by rewrite !app_nil_r, (assoc_L (++)). }
  assert (after_read now decode r ≠ Finished ∧ ¬ late (after_read now decode r)) as [Hf Hnl].
  { unfold after_read, late. repeat case_match; (split; [done|by intros [?|?]]). }
  split; rewrite ?Hk'; try done.
  - simpl. rewrite Hcl, Hloop. by split.
  - intros [Hu _]%undisturbed_snoc. destruct (Hq Hu) as (Hctx & Hc & _). split_and!; [done| |done].
    intros Hc'. destruct (Hc Hc') as [?|?]; congruence.
Qed.

Lemma inv_step tr s l s' : inv tr s → step s l s' → inv (tr ++ [l]) s'.
Proof.
  intros Hinv Hstep. pose proof Hinv as [Hp He Hcl Hl Hq]. destruct Hstep as
    [s Hloop Hst|s Hloop Hst|s r Hloop|s e events stop Hloop Hroom|s e events stop Hloop Hst|s stop Hloop|s Hloop|s Hloop
    |s Hloop|s Hloop|s err|s Hc|s e q Hch|s Hch Hc|s|s].
  - apply (inv_keep tr Tau s _ Hinv); simpl; try done; [|by intros [?|[?|(? & ? & ?)]]|by rewrite Hcl, Hloop|by intros [?|?]|by left|].
    + unfold kept. rewrite received_snoc. simpl. by rewrite app_nil_r, Hloop.
    + rewrite Hloop. by intros [?|?].
  - apply (inv_keep tr Tau s _ Hinv); simpl; try done; [|by left|by rewrite Hcl, Hloop|by intros [?|?]|by left|].
    + unfold kept. rewrite received_snoc. simpl. by rewrite app_nil_r, Hloop.
    + rewrite Hloop. by intros [?|?].
  - by apply inv_read.
  - apply (inv_keep tr Tau s _ Hinv); simpl; try done; [| |by rewrite Hcl, Hloop|by intros [?|?]|by left|].
    + unfold kept. rewrite received_snoc, Hloop. simpl. by rewrite app_nil_r, <-(assoc_L (++) (ch s)).
    + intros _. right. right. by exists (e :: events), stop.
    + rewrite Hloop. by intros [?|?].
  - by eapply inv_drop.
  - apply (inv_keep tr Tau s _ Hinv); simpl; try done.
    + unfold kept. rewrite received_snoc, Hloop. simpl. destruct stop; by rewrite app_nil_r.
    + intros _. right. right. by exists [], stop.
    + rewrite Hcl, Hloop. by destruct stop.
    + destruct stop; by intros [?|?].
    + by left.
    + rewrite Hloop. by intros [?|?].
  - apply (inv_keep tr Tau s _ Hinv); simpl; try done; [|by intros [?|[?|(? & ? & ?)]]|by rewrite Hcl, Hloop|by intros [?|?]|by left|].
    + unfold kept. rewrite received_snoc, Hloop. simpl. by rewrite app_nil_r.
    + rewrite Hloop. by intros [?|?].
  - apply (inv_keep tr Tau s _ Hinv); simpl; try done; [|by intros [?|[?|(? & ? & ?)]]|by rewrite Hcl, Hloop|by intros [?|?]|by left|].
    + unfold kept. rewrite received_snoc, Hloop. simpl. by rewrite app_nil_r.
    + rewrite Hloop. by intros [?|?].
  - apply (inv_keep tr Tau s _ Hinv); simpl; try done; [|by intros [?|[?|(? & ? & ?)]]|by rewrite Hcl, Hloop|by right; left|by left].
    unfold kept. rewrite received_snoc, Hloop. simpl. by rewrite app_nil_r.
  - apply (inv_keep tr Tau s _ Hinv); simpl; try done; [|by intros [?|[?|(? & ? & ?)]]| |by left|by right].
    + unfold kept. rewrite received_snoc, Hloop. simpl. by rewrite app_nil_r.
    + intros _. apply Hl. rewrite Hloop. by left.
  - apply (inv_keep tr _ s _ Hinv); try done; [|by left]. unfold kept. rewrite received_snoc. simpl. by rewrite app_nil_r.
  - apply (inv_keep tr _ s _ Hinv); try done; [|by left]. unfold kept. rewrite received_snoc. simpl. by rewrite app_nil_r.
  - apply (inv_keep tr _ s _ Hinv); try done; [|by left]. unfold kept. rewrite received_snoc, Hch. simpl.
    by rewrite <-(assoc_L (++)).
  - apply (inv_keep tr _ s _ Hinv); try done; [|by left]. unfold kept. rewrite received_snoc. simpl. by rewrite app_nil_r.
  - assert (kept (tr ++ [CallClose]) (Close s) = kept tr s ∧ read_loop (Close s) = read_loop s ∧
      ch_closed (Close s) = ch_closed s ∧ closed (Close s) = true) as (Hk & Hrl & Hcc & Hcd).
    { unfold kept, Close. rewrite received_snoc, app_nil_r. by destruct (closed s) eqn:E. }
    split; rewrite ?Hk, ?decoded_snoc, ?Hrl, ?Hcc, ?Hcd; simpl; rewrite ?app_nil_r; try done.
    by intros (_ & ? & _)%undisturbed_snoc.
  - assert (kept (tr ++ [CtxDone]) (cancel_ctx s) = kept tr s) as Hk
      by (unfold kept; by rewrite received_snoc, app_nil_r).
    split; rewrite ?Hk, ?decoded_snoc; simpl; rewrite ?app_nil_r; try done.
    by intros (_ & _ & ?)%undisturbed_snoc.
Qed.

Lemma inv_steps tr s : steps new_session tr s → inv tr s.
Proof.
  intros H. remember new_session as s0 eqn:E. induction H as [s|s tr s1 l s2 _ IH Hstep].
  - subst. apply inv_new.
  - by eapply inv_step; [apply IH|].
Qed.

(** C21. In every run of a session: what the caller has received, followed by what is in
    the channel, is a beginning of the events the socket's answers stand for, in their
    order; and it is all of them, but for those just being sent, unless [Close] was
    called or the context of the session ended. The channel is closed exactly when the
    loop has ended, so nothing is sent to a closed channel and it is closed once. *)
Theorem session_fifo (tr : list label) (s : session) :
  steps new_session tr s →
  received tr `prefix_of` decoded tr ∧
  received tr ++ ch s `prefix_of` decoded tr ∧
  (undisturbed tr → received tr ++ ch s ++ to_send (read_loop s) = decoded tr) ∧
  (ch_closed s = true ↔ read_loop s = Finished).
Proof.
  intros H%inv_steps. destruct H as [Hp _ Hcl _ Hq]. unfold kept in *. split_and!.
  - etrans; [|exact Hp]. by exists (ch s ++ to_send (read_loop s)).
  - etrans; [|exact Hp]. rewrite (assoc_L (++)). by exists (to_send (read_loop s)).
  - intros Hu. by apply Hq.
  - apply Hcl.
Qed.

(** ** The end of the stream *)

(** A socket that fails at once. *)
Definition failing (err : error) : list label :=
  [Tau; SocketRead (Err err); Tau; Tau; Tau; Tau; Tau; Tau].

Definition failed (err : error) : session :=
  {| ctx_done := false; closed := true; ch := [RestDecode.failure now "socket_read_error" err]; ch_closed := true;
     conn_closes := 1; read_loop := Finished |}.

Lemma failing_run err : errors_Is err Canceled = false → steps new_session (failing err) (failed err).
Proof.
  intros He. assert (after_read now decode (Err err) = Sending [RestDecode.failure now "socket_read_error" err] true) as Hr
    by (simpl; by rewrite He).
  pose proof (steps_nil now decode new_session) as H.
  eapply steps_snoc in H; [|apply top_read; [done|by intros [?|?]]].
  eapply steps_snoc in H; [|apply (read_returns now decode) with (r := Err err); done]. rewrite Hr in H.
  eapply steps_snoc in H; [|eapply send; [done|simpl; unfold capacity; lia]].
  eapply steps_snoc in H; [|eapply send_done; done].
  eapply steps_snoc in H; [|apply defer_done; done].
  eapply steps_snoc in H; [|apply defer_conn; done].
  eapply steps_snoc in H; [|apply defer_closed; done].
  eapply steps_snoc in H; [|apply defer_ch; done]. exact H.
Qed.

(** C35. When the loop has ended, [Recv] may report the end of the stream while events
    are still in the channel: after a failing read, in a run nobody disturbed, it may
    return the failure or may not, and a caller that then stops never sees it. *)
Theorem end_may_hide_events (err : error) :
  errors_Is err Canceled = false →
  let s := failed err in
  let e := RestDecode.failure now "socket_read_error" err in
  steps new_session (failing err) s ∧ undisturbed (failing err) ∧
  decoded (failing err) = [e] ∧ received (failing err) = [] ∧
  step s (Recv (Err ErrStreamClosed)) s ∧
  step s (Recv (Ok e)) (set_ch [] s) ∧
  (fst <$> CollectText {| pending := [Err ErrStreamClosed]; closes := 0 |}) = Some (Ok "").
Proof.
  intros He s e. split_and!.
  - by apply failing_run.
  - split; unfold failing; repeat (apply not_elem_of_cons; split; [done|]); apply not_elem_of_nil.
  - unfold SocketSession.decoded, failing. simpl. by rewrite He.
  - done.
  - by apply recv_closed.
  - by apply recv_event.
  - done.
Qed.

(** ** Ending *)

(** What the goroutine does by itself. *)
Definition internal (l : label) : Prop := l = Tau ∨ ∃ r, l = SocketRead r.

(** It ends after finitely many steps of its own, and is never stuck before. *)
Inductive ends : session → Prop :=
| ends_intro s :
    (read_loop s = Finished ∨ ∃ l s', internal l ∧ step s l s') →
    (∀ l s', internal l → step s l s' → ends s') → ends s.

Definition rank (l : loop) : nat :=
  match l with
  | Finished => 0 | CloseCh => 1 | CloseClosed => 2 | CloseConn => 3 | SignalDone => 4
  | AtTop | InRead => 5
  | Sending events _ => 6 + length events
  end.

Lemma stopping_moves s : stopping s → read_loop s = Finished ∨ ∃ l s', internal l ∧ step s l s'.
Proof.
  intros Hst. destruct (read_loop s) as [| |[|e events] stop| | | | |] eqn:Hl; [right..|by left].
  - eexists Tau, _. split; [by left|]. by apply top_return.
  - eexists (SocketRead (Err EOF)), _. split; [right; by eexists|]. by apply read_returns.
  - eexists Tau, _. split; [by left|]. by eapply send_done.
  - eexists Tau, _. split; [by left|]. by eapply send_returns.
  - eexists Tau, _. split; [by left|]. by apply defer_done.
  - eexists Tau, _. split; [by left|]. by apply defer_conn.
  - eexists Tau, _. split; [by left|]. by apply defer_closed.
  - eexists Tau, _. split; [by left|]. by apply defer_ch.
Qed.

Lemma stopping_step s l s' : stopping s → internal l → step s l s' →
  stopping s' ∧ (read_loop s = InRead ∨ (read_loop s' ≠ InRead ∧ rank (read_loop s') < rank (read_loop s))).
Proof.
  intros Hst Hi Hstep. destruct Hstep as
    [s Hloop _|s Hloop Hn|s r Hloop|s e events stop Hloop Hroom|s e events stop Hloop _|s stop Hloop|s Hloop|s Hloop
    |s Hloop|s Hloop|s err|s Hc|s e q Hch|s Hch Hc|s|s];
    try (by destruct Hi as [?|[? ?]]); (split; [first [exact Hst|by right]|]); try (by left);
    right; rewrite Hloop; simpl; try (split; [done|lia]).
  destruct stop; split; try done; simpl; lia.
Qed.

Lemma stopping_ends s : stopping s → ends s.
Proof.
  assert (∀ n s, rank (read_loop s) < n → read_loop s ≠ InRead → stopping s → ends s) as H.
  { clear s. induction n as [|n IH]; intros s Hr Hl Hst; [lia|]. constructor; [by apply stopping_moves|].
    intros l s' Hi Hs. destruct (stopping_step s l s' Hst Hi Hs) as [Hst' [?|[Hl' Hr']]]; [done|].
    apply IH; [lia|done..]. }
  intros Hst. destruct (decide (rank (read_loop s) = 5)) as [H5|H5].
  2: { apply (H (S (rank (read_loop s)))); [lia| |done]. intros E. rewrite E in H5. done. }
  constructor; [by apply stopping_moves|]. intros l s' Hi Hs.
  destruct (stopping_step s l s' Hst Hi Hs) as [Hst' Hs'].
  apply (H (S (rank (read_loop s')))); [lia| |done]. destruct Hs' as [Hin|[? _]]; [|done].
  revert Hin. destruct Hs; simpl; intros Hin; try congruence; try (by destruct Hi as [?|[? ?]]).
  unfold after_read. by repeat case_match.
Qed.

(** C37. Once the session is closed or its context has ended, wherever the reading
    goroutine is, it ends after finitely many steps of its own: it reads at most once
    more, and it is never stuck, provided that the socket's read returns. *)
Theorem closed_session_ends (tr : list label) (s : session) :
  steps new_session tr s → CallClose ∈ tr ∨ CtxDone ∈ tr → ends s.
Proof.
  intros Hs Hin. apply stopping_ends. remember new_session as s0 eqn:E.
  induction Hs as [s|s tr s1 l s2 Hs IH Hstep]; [by destruct Hin as [?%not_elem_of_nil|?%not_elem_of_nil]|].
  assert (stopping s1 → stopping s2) as Hkeep.
  { intros Hst. destruct Hstep; try exact Hst; try (by right); [|by left].
    destruct Hst as [?|Hc]; unfold Close; [destruct (closed s0); by left|]. rewrite Hc. by right. }
  rewrite !elem_of_app, !list_elem_of_singleton in Hin.
  destruct Hin as [[Hin|<-]|[Hin|<-]]; [by apply Hkeep, IH; [|left]| |by apply Hkeep, IH; [|right]|].
  - inversion Hstep; subst. right. unfold Close. destruct (closed s1) eqn:Hc; [done|done].
  - inversion Hstep; subst. by left.
Qed.
End decoder.

Definition no_decode (s : string) : result (list Event) := Ok [].

Lemma session_fifo_witness :
  ch_closed (failed 0%Z EOF) = true ∧
  received (failing EOF) ++ ch (failed 0%Z EOF) ++ [] = decoded 0%Z no_decode (failing EOF).
Proof.
  destruct (session_fifo 0%Z no_decode (failing EOF) (failed 0%Z EOF)) as (_ & _ & H & Hc).
  - by apply failing_run.
  - split; [by apply Hc|]. apply H. split; unfold failing; repeat (apply not_elem_of_cons; split; [done|]); apply not_elem_of_nil.
Defined.

Lemma end_may_hide_events_witness :
  step 0%Z no_decode (failed 0%Z EOF) (Recv (Err ErrStreamClosed)) (failed 0%Z EOF) ∧ ch (failed 0%Z EOF) ≠ [].
Proof.
  destruct (end_may_hide_events 0%Z no_decode EOF) as (_ & _ & _ & _ & H & _); [reflexivity|]. split; [exact H|done].
Defined.

Lemma closed_session_ends_witness : ends 0%Z no_decode (Close new_session).
Proof.
  apply (closed_session_ends 0%Z no_decode [CallClose]); [|left; by left].
  apply (steps_snoc 0%Z no_decode new_session [] new_session CallClose); [constructor|constructor].
Defined.

(** Opening: the session is closed exactly when its first [Send] fails. *)
Lemma open_session_closes dialer req t r :
  traces (OpenSession dialer req) t r →
  count_ev (λ e, match e with Ev CloseSession _ => true | _ => false end) t =
    (if is_ok r then 0 else count_ev (λ e, match e with Ev StartLoop _ => true | _ => false end) t).
Proof.
  unfold OpenSession, Send. intros H. destruct dialer; cbn [negb] in H; [|by trace_step H].
  destruct req as [req|]; [|by trace_step H]. destruct (Validate req); [|by trace_step H].
  trace_step H. destruct x; [|by trace_step H]. trace_step H. case_decide; [by trace_step H|].
  trace_step H. trace_step Hsub.
  match type of Hsub with context [match ?y with _ => _ end] => destruct y end.
  - apply traces_call in Hsub as ->.
    match type of H with context [match ?y with _ => _ end] => destruct y end; [by trace_step H|].
    trace_step H. by trace_step H.
  - trace_step Hsub. trace_step H. by trace_step H.
Qed.
End SocketSpec.
