(* ===== verification/CliBridge.v ===== *)
(** * Agents that are commands (pkg/bridge/cli/agent.go)

    A request is written to the standard input of a process; its outputs are decoded into
    one stream by two goroutines, which a third waits for. The decoder of a payload is
    the one of the REST bridge, which the source repeats. The process writes into bounded
    pipes, so that it waits when nobody reads them. *)

From S2P Require Import Prelude GoString GoError GoValue WorkspaceTypes Proc AgentIO RestDecode.
From stdpp Require Import options.
Set Default Proof Using "Type*".

Module CliBridge.
Import AgentIO.

Record Agent := {
  NameStr : string; Command : string; Args : list string; Dir : string; Env : list string;
  StdinFormat : string; StdoutFormat : string; EncodeStdin : bool;      (* an encoder was given *)
}.

Definition Name (a : Agent) : string := if decide (NameStr a = "") then "cli-agent" else NameStr a.

(** The environment of the process; [None]: that of the parent. *)
Definition cmd_env (a : Agent) : option (list string) := if decide (Env a = []) then None else Some (Env a).

(** ** Standard input as text *)

Definition writeJoinedLine (b line : string) : string :=
  if decide (line = "") then b
  else (if decide (b = "") then b else b +:+ String line_feed "") +:+ line.

Definition flattenBlobPart (p : BlobPart) : string :=
  "[" +:+ bp_Kind p +:+ " " +:+
  (if decide (bp_SourceType p = BlobInline) then "inline"
   else if decide (bp_SourceType p = BlobFile) then bp_Path p
   else if decide (bp_SourceType p = BlobURL) then bp_URL p
   else bp_SourceType p) +:+ "]".

Definition flatten_part (b : string) (part : InputPart) : string :=
  match part with
  | PText p | PTextRef (Some p) => writeJoinedLine b (tp_Text p)
  | PJSON p | PJSONRef (Some p) => writeJoinedLine b (jp_Data p)
  | PToolResult p | PToolResultRef (Some p) =>
    writeJoinedLine b ("tool_result:" +:+ tr_ToolName p +:+ String line_feed (tr_Data p))
  | PBlob p | PBlobRef (Some p) => writeJoinedLine b (flattenBlobPart p)
  | _ => b
  end.

Definition flattenText (parts : list InputPart) : string := fold_left flatten_part parts "".

(** ** Starting the process *)

Inductive ccall : Type → Type :=
| StdinPipe : ccall (result unit)
| StdoutPipe : ccall (result unit)
| StderrPipe : ccall (result unit)
| CustomEncode (req : InvokeRequest) : ccall (result string)
| EncodeJSON (req : InvokeRequest) : ccall (result string)
| Start (command : string) (args : list string) (dir : string) (env : option (list string)) : ccall (result unit).

Definition encode_stdin (a : Agent) (req : InvokeRequest) : proc ccall (result string) :=
  if EncodeStdin a then
    input ← call (CustomEncode req);
    mret match input with Err e => Err (Errorf_w "encode stdin payload: " e "") | Ok s => Ok s end
  else
    let format := RestDecode.lower (StdinFormat a) in
    if decide (format = "" ∨ format = "json") then
      input ← call (EncodeJSON req);
      mret match input with Err e => Err (Errorf_w "encode stdin payload: " e "") | Ok s => Ok s end
    else if decide (format = "text") then mret (Ok (flattenText (ir_Parts req)))
    else mret (Err (Errorf ("unsupported stdin format: " +:+ StdinFormat a))).

Definition pipe_err (name : string) (e : error) : error := Errorf_w ("open " +:+ name +:+ " pipe: ") e "".

(** [Invoke] up to the goroutines: the input of the started process. *)
Definition Invoke (a : Agent) (req : option InvokeRequest) : proc ccall (result string) :=
  match req with
  | None => mret (Err (ENew "nil request"))
  | Some req =>
    if decide (strings_TrimSpace (Command a) = "") then mret (Err (ENew "cli command is empty")) else
    stdin ← call StdinPipe;
    match stdin with
    | Err e => mret (Err (pipe_err "stdin" e))
    | Ok _ =>
      stdout ← call StdoutPipe;
      match stdout with
      | Err e => mret (Err (pipe_err "stdout" e))
      | Ok _ =>
        stderr ← call StderrPipe;
        match stderr with
        | Err e => mret (Err (pipe_err "stderr" e))
        | Ok _ =>
          input ← encode_stdin a req;
          match input with
          | Err e => mret (Err e)
          | Ok input =>
            started ← call (Start (Command a) (Args a) (Dir a) (cmd_env a));
            mret match started with
                 | Err e => Err (Errorf_w "start cli process: " e "")
                 | Ok _ => Ok input
                 end
          end
        end
      end
    end
  end.

(** ** Decoding the outputs *)

Section decoder.
Variable now : Time.
Variable unmarshal_objects : string → option (list (gomap any)).
Variable unmarshal_object : string → result (gomap any).
Variable unmarshal_usage : string → option Usage.
Variable unmarshal_error : string → option EventError.
Variable json_Marshal : any → option string.

Definition bestEffortEventFromMap : gomap any → Event :=
  RestDecode.bestEffortEventFromMap now unmarshal_usage unmarshal_error json_Marshal.

Definition defaultFrameDecoder : string → result (list Event) :=
  RestDecode.defaultFrameDecoder now unmarshal_objects unmarshal_object unmarshal_usage unmarshal_error json_Marshal.

Definition decodeFramedPayload (payload : string) : result (list Event) :=
  let payload := strings_TrimSpace payload in
  if decide (payload = "") then Ok []
  else if decide (payload = "[DONE]") then Ok [RestDecode.event_of now EventDone]
  else defaultFrameDecoder payload.

(** An [EventDone] of the process is not passed on. *)
Definition emitEvent (e : Event) : list Event := if decide (ev_Type e = EventDone) then [] else [e].

Definition emit_decoded (code payload : string) : list Event :=
  match decodeFramedPayload payload with
  | Ok events => events ≫= emitEvent
  | Err err => [RestDecode.failure now code err]
  end.

Definition parseJSONL (b : RestDecode.body) : list Event :=
  let '(lines, err) := scan_lines RestDecode.maxLine (RestDecode.body_Data b) (RestDecode.body_Err b) in
  (lines ≫= λ line, let line := strings_TrimSpace line in
                    if decide (line = "") then [] else emit_decoded "jsonl_decode_error" line) ++
  RestDecode.scan_failure now "jsonl_scan_error" err.

Definition parseSingleJSON (b : RestDecode.body) : list Event :=
  match RestDecode.body_Err b with
  | Some err => [RestDecode.failure now "json_read_error" err]
  | None => emit_decoded "json_decode_error" (RestDecode.body_Data b)
  end.

Definition text_line (streamName text : string) : list Event :=
  if decide (text = "") then []
  else [RestDecode.set_name streamName
          (RestDecode.set_text (text +:+ String line_feed "") (RestDecode.event_of now EventTextDelta))].

Definition scanTextLines (streamName : string) (b : RestDecode.body) : list Event :=
  let '(lines, err) := scan_lines RestDecode.maxLine (RestDecode.body_Data b) (RestDecode.body_Err b) in
  (lines ≫= text_line streamName) ++ RestDecode.scan_failure now (streamName +:+ "_scan_error") err.

(** What the goroutine of the standard output sends before it waits. *)
Definition stdout_events (a : Agent) (stdout : RestDecode.body) : list Event :=
  let format := RestDecode.lower (StdoutFormat a) in
  if decide (format = "" ∨ format = "stream-json") then parseJSONL stdout
  else if decide (format = "json") then parseSingleJSON stdout
  else if decide (format = "text") then scanTextLines "stdout" stdout
  else [RestDecode.failure now "unsupported_stdout_format" (Errorf ("unsupported stdout format: " +:+ StdoutFormat a))].

(** Whether the goroutine of the standard output reads it to its end: not when a line is too
    long for the scanner, when a read fails, or when the format is none it knows. The rest
    of the output stays in the pipe. *)
Definition reads_to_end (a : Agent) (stdout : RestDecode.body) : bool :=
  let format := RestDecode.lower (StdoutFormat a) in
  if decide (format = "" ∨ format = "stream-json" ∨ format = "text") then
    bool_decide ((scan_lines RestDecode.maxLine (RestDecode.body_Data stdout) (RestDecode.body_Err stdout)).2 = None)
  else if decide (format = "json") then bool_decide (RestDecode.body_Err stdout = None)
  else false.

Definition scans_to_end (b : RestDecode.body) : bool :=
  bool_decide ((scan_lines RestDecode.maxLine (RestDecode.body_Data b) (RestDecode.body_Err b)).2 = None).

Definition exit_events (exit : option error) : list Event :=
  match exit with Some err => [RestDecode.failure now "process_exit_error" err] | None => [] end.
End decoder.

(** ** The process and its pipes

    The process writes its outputs byte by byte, in some order, and then exits. A write
    into a full pipe waits until the other end was read. What is in [todo] is what the
    process comes to write: closing the stream kills it, which cuts that short. *)

Inductive output := Stdout | Stderr.

#[export] Instance output_eq_dec : EqDecision output.
Proof. solve_decision. Defined.

Record process := {
  todo : list output;       (* an entry for each byte it is still to write *)
  stdout_pipe : nat;           (* bytes written and not yet read *)
  stderr_pipe : nat;
  exited : bool;
}.

Definition pipe (o : output) (p : process) : nat := match o with Stdout => stdout_pipe p | Stderr => stderr_pipe p end.

Definition set_pipe (o : output) (n : nat) (p : process) : process := {|
  todo := todo p; stdout_pipe := match o with Stdout => n | Stderr => stdout_pipe p end;
  stderr_pipe := match o with Stderr => n | Stdout => stderr_pipe p end; exited := exited p |}.

Definition set_todo (l : list output) (p : process) : process := {|
  todo := l; stdout_pipe := stdout_pipe p; stderr_pipe := stderr_pipe p; exited := exited p |}.

Definition set_exited (p : process) : process := {|
  todo := todo p; stdout_pipe := stdout_pipe p; stderr_pipe := stderr_pipe p; exited := true |}.

(** ** The goroutines *)

Definition capacity : nat := 128.

(** A goroutine that reads an output: it takes bytes and sends events, in the order its
    scanner makes of them, and is over when it finds the end of the output ([reads_on]),
    or at once when it gives up before. *)
Inductive action := Read | Send (e : Event).

Record reader := { actions : list action; reads_on : bool }.

Definition sends (r : reader) : list Event := omap (λ x, match x with Send e => Some e | Read => None end) (actions r).
Definition is_read (x : action) : bool := match x with Read => true | Send _ => false end.
Definition takes (r : reader) : nat := count_if is_read (actions r).

(** The reader of an output with these contents: the events the source's decoder makes of
    it, and as many bytes as it gets to. *)
Definition reader_for (b : RestDecode.body) (events : list Event) (to_end : bool) (r : reader) : Prop :=
  sends r = events ∧ reads_on r = to_end ∧ takes r ≤ String.length (RestDecode.body_Data b) ∧
  (to_end = true → takes r = String.length (RestDecode.body_Data b)).

(** The goroutine of the standard output: reading and sending, waiting for the other and the
    process, sending the last events, done. The other one: reading and sending, done (its
    channel [stderrDone] is closed). *)
Inductive out_state := OutSending (r : reader) | OutWaiting | OutLast (events : list Event) | OutDone.

Record streams := {
  queue : list Event;
  queue_closed : bool;
  out : out_state;
  err : option reader;
  child : process;
}.

Definition start_streams (r_out r_err : reader) (writes : list output) : streams :=
  {| queue := []; queue_closed := false; out := OutSending r_out; err := Some r_err;
     child := {| todo := writes; stdout_pipe := 0; stderr_pipe := 0; exited := false |} |}.

(** A step of the reader of [o], with the channel and the process it finds; [None]: it is
    over. The end of an output is found when the pipe is empty and the process will write no
    more to it (it has closed it, or is gone). *)
Inductive reader_step (o : output) : list Event → process → reader → list Event → process → option reader → Prop :=
| read_byte q p acts on :
    0 < pipe o p →
    reader_step o q p {| actions := Read :: acts; reads_on := on |}
                  q (set_pipe o (pred (pipe o p)) p) (Some {| actions := acts; reads_on := on |})
| send_event q p e acts on :
    length q < capacity →
    reader_step o q p {| actions := Send e :: acts; reads_on := on |}
                  (q ++ [e]) p (Some {| actions := acts; reads_on := on |})
| reader_over q p on :
    (on = true → pipe o p = 0 ∧ o ∉ todo p) →
    reader_step o q p {| actions := []; reads_on := on |} q p None.

Section goroutines.
Variable pipe_capacity : nat.           (* of the operating system *)
Variable last_events : list Event.      (* after the process: its failure, if any, and the end *)

(** [cmd.Wait] returns once the process has exited, and is called once both readers are
    over. *)
Inductive cli_step : streams → option Event → streams → Prop :=
| out_reads q c r er p q' p' r' :
    reader_step Stdout q p r q' p' (Some r') →
    cli_step {| queue := q; queue_closed := c; out := OutSending r; err := er; child := p |} None
             {| queue := q'; queue_closed := c; out := OutSending r'; err := er; child := p' |}
| out_wait q c r er p q' p' :
    reader_step Stdout q p r q' p' None →
    cli_step {| queue := q; queue_closed := c; out := OutSending r; err := er; child := p |} None
             {| queue := q'; queue_closed := c; out := OutWaiting; err := er; child := p' |}
| out_exit q c p :
    exited p = true →
    cli_step {| queue := q; queue_closed := c; out := OutWaiting; err := None; child := p |} None
             {| queue := q; queue_closed := c; out := OutLast last_events; err := None; child := p |}
| out_last q c e events er p :
    length q < capacity →
    cli_step {| queue := q; queue_closed := c; out := OutLast (e :: events); err := er; child := p |} None
             {| queue := q ++ [e]; queue_closed := c; out := OutLast events; err := er; child := p |}
| out_done q c er p :
    cli_step {| queue := q; queue_closed := c; out := OutLast []; err := er; child := p |} None
             {| queue := q; queue_closed := c; out := OutDone; err := er; child := p |}
| err_reads q c o r p q' p' r' :
    reader_step Stderr q p r q' p' r' →
    cli_step {| queue := q; queue_closed := c; out := o; err := Some r; child := p |} None
             {| queue := q'; queue_closed := c; out := o; err := r'; child := p' |}
| close_queue q p :
    cli_step {| queue := q; queue_closed := false; out := OutDone; err := None; child := p |} None
             {| queue := q; queue_closed := true; out := OutDone; err := None; child := p |}
| child_writes q c o er p dst rest :
    todo p = dst :: rest → pipe dst p < pipe_capacity →
    cli_step {| queue := q; queue_closed := c; out := o; err := er; child := p |} None
             {| queue := q; queue_closed := c; out := o; err := er;
                child := set_pipe dst (S (pipe dst p)) (set_todo rest p) |}
| child_exits q c o er p :
    todo p = [] → exited p = false →
    cli_step {| queue := q; queue_closed := c; out := o; err := er; child := p |} None
             {| queue := q; queue_closed := c; out := o; err := er; child := set_exited p |}
| cli_recv e q c o er p :
    cli_step {| queue := e :: q; queue_closed := c; out := o; err := er; child := p |} (Some e)
             {| queue := q; queue_closed := c; out := o; err := er; child := p |}.

(** A run, with the events the caller received. *)
Inductive cli_steps : streams → list Event → streams → Prop :=
| cli_nil s : cli_steps s [] s
| cli_snoc s got s1 o s2 : cli_steps s got s1 → cli_step s1 o s2 → cli_steps s (got ++ option_list o) s2.
End goroutines.

(** What the caller's [Recv] finds at the end. *)
Definition ended (s : streams) : Prop := queue s = [] ∧ queue_closed s = true.
End CliBridge.
