(* ===== verification/CliSpec.v ===== *)
(** * What the stream of a command holds

    [cli_stream_spec]: the events of the two outputs, each in its order, then the failure
    of the process if it failed, then one [EventDone], and so the two ways to read a
    stream agree on it. [cli_invoke_starts]: a process is started only with its input
    ready. *)

From S2P Require Import Prelude GoString GoError GoValue WorkspaceTypes Proc AgentIO AgentIOSpec RestDecode CliBridge.
From stdpp Require Import options.
Set Default Proof Using "Type*".

(** ** Interleavings *)

Inductive interleaving {A} : list A → list A → list A → Prop :=
| il_nil : interleaving [] [] []
| il_left l r m x : interleaving l r m → interleaving (l ++ [x]) r (m ++ [x])
| il_right l r m x : interleaving l r m → interleaving l (r ++ [x]) (m ++ [x]).

Lemma interleaving_Permutation {A} (l r m : list A) : interleaving l r m → m ≡ₚ l ++ r.
Proof.
  induction 1 as [|l r m x _ IH|l r m x _ IH]; [done| |].
  - rewrite IH, <-!(assoc_L (++)). f_equiv. by rewrite Permutation_app_comm.
  - by rewrite IH, (assoc_L (++)).
Qed.

Module CliSpec.
Import AgentIO CliBridge.

(** ** The goroutines *)

Section goroutines.
Variable pipe_capacity : nat.
Variable r_out r_err : reader.
Variable writes : list output.
Variable last_events : list Event.

Local Abbreviation start := (start_streams r_out r_err writes).

(** How far the goroutine of the standard output is: what it has sent of its output and
    of the last events. *)
Definition out_sent (o : out_state) (sent last : list Event) : Prop :=
  match o with
  | OutSending r => sends r_out = sent ++ sends r ∧ last = []
  | OutWaiting => sent = sends r_out ∧ last = []
  | OutLast events => sent = sends r_out ∧ last_events = last ++ events
  | OutDone => sent = sends r_out ∧ last = last_events
  end.

Definition err_sent (e : option reader) (sent : list Event) : Prop :=
  match e with Some r => sends r_err = sent ++ sends r | None => sent = sends r_err end.

Definition finishing (o : out_state) : Prop := match o with OutLast _ | OutDone => True | _ => False end.

Record cli_inv (got : list Event) (s : streams) : Prop := {
  cli_shape : ∃ so se m l, interleaving so se m ∧ out_sent (out s) so l ∧ err_sent (err s) se ∧ got ++ queue s = m ++ l;
  cli_order : finishing (out s) → err s = None;
  cli_closed : queue_closed s = true → out s = OutDone;
}.

Lemma out_sent_early o sent last : out_sent o sent last → last = [] ∨ finishing o.
Proof. destruct o; simpl; [intros [_ ->]; by left|intros [_ ->]; by left|by right|by right]. Qed.

Lemma cli_inv_start : cli_inv [] start.
Proof. split; [|done|done]. exists [], [], [], []. split_and!; [constructor|done..]. Qed.

(** What a step of a reader sends. *)
Lemma reader_sends o q p r q' p' r' :
  reader_step o q p r q' p' r' →
  ∃ sent, q' = q ++ sent ∧ sends r = sent ++ (match r' with Some r' => sends r' | None => [] end) ∧
    (sent = [] ∨ ∃ e, sent = [e]).
Proof.
  intros []; [exists []|exists [e]|exists []]; unfold sends; simpl; rewrite ?app_nil_r; split_and!; eauto.
Qed.

Lemma interleaving_left {A} (l r m sent : list A) :
  interleaving l r m → sent = [] ∨ (∃ e, sent = [e]) → interleaving (l ++ sent) r (m ++ sent).
Proof. intros Hm [->|[e ->]]; [by rewrite !app_nil_r|by constructor]. Qed.
Lemma interleaving_right {A} (l r m sent : list A) :
  interleaving l r m → sent = [] ∨ (∃ e, sent = [e]) → interleaving l (r ++ sent) (m ++ sent).
Proof. intros Hm [->|[e ->]]; [by rewrite !app_nil_r|by constructor]. Qed.

Lemma cli_inv_step got s o s' :
  cli_inv got s → cli_step pipe_capacity last_events s o s' → cli_inv (got ++ option_list o) s'.
Proof.
  intros [(so & se & m & l & Hm & Ho & He & E) Hf Hc] Hstep.
  destruct Hstep as [q c r er p q' p' r' Hr|q c r er p q' p' Hr| | | |q c o r p q' p' r' Hr| | | |]; simpl in *; rewrite ?app_nil_r.
  - destruct Ho as [Ho ->]. destruct (reader_sends _ _ _ _ _ _ _ Hr) as (sent & -> & Hs & H1).
    split; [|done|by intros ?%Hc]. exists (so ++ sent), se, (m ++ sent), []. simpl.
    split_and!; [by apply interleaving_left|by rewrite Ho, Hs, (assoc_L (++))|done|done|].
    by rewrite (assoc_L (++)), E, !app_nil_r.
  - destruct Ho as [Ho ->]. destruct (reader_sends _ _ _ _ _ _ _ Hr) as (sent & -> & Hs & H1). rewrite app_nil_r in Hs.
    split; [|done|by intros ?%Hc]. exists (so ++ sent), se, (m ++ sent), []. simpl.
    split_and!; [by apply interleaving_left|congruence|done|done|].
    by rewrite (assoc_L (++)), E, !app_nil_r.
  - destruct Ho as [-> ->]. split; [|done|by intros ?%Hc]. by exists (sends r_out), se, m, [].
  - destruct Ho as [-> Ho]. split; [|by intros _; apply Hf|by intros ?%Hc]. exists (sends r_out), se, m, (l ++ [e]). simpl.
    split_and!; [done|done|by rewrite Ho, <-(assoc_L (++))|done|]. by rewrite (assoc_L (++)), E, <-(assoc_L (++)).
  - destruct Ho as [-> Ho]. rewrite app_nil_r in Ho. split; [|by intros _; apply Hf|done]. by exists (sends r_out), se, m, l.
  - split; [|intros Hfin; by apply Hf in Hfin|by intros ?%Hc].
    destruct (out_sent_early o so l Ho) as [->|Hfin]; [|by apply Hf in Hfin].
    destruct (reader_sends _ _ _ _ _ _ _ Hr) as (sent & -> & Hs & H1).
    exists so, (se ++ sent), (m ++ sent), []. split_and!; [by apply interleaving_right|done| |].
    + simpl. destruct r'; simpl; [by rewrite He, Hs, (assoc_L (++))|]. rewrite app_nil_r in Hs. congruence.
    + simpl. by rewrite (assoc_L (++)), E, !app_nil_r.
  - split; [|done|done]. by exists so, se, m, l.
  - split; [by exists so, se, m, l|done|done].
  - split; [by exists so, se, m, l|done|done].
  - split; [|by intros ?%Hf|by intros ?%Hc]. exists so, se, m, l. split_and!; try done. by rewrite <-(assoc_L (++)).
Qed.

Lemma cli_inv_steps got s : cli_steps pipe_capacity last_events start got s → cli_inv got s.
Proof.
  intros H. remember start as s0 eqn:E.
  induction H as [s|s got s1 o s2 _ IH Hstep]; [subst; apply cli_inv_start|].
  by eapply cli_inv_step; [apply IH|].
Qed.

Lemma cli_ended got s :
  cli_steps pipe_capacity last_events start got s → ended s →
  ∃ m, interleaving (sends r_out) (sends r_err) m ∧ got = m ++ last_events.
Proof.
  intros [(so & se & m & l & Hm & Ho & He & E) Hf Hc]%cli_inv_steps [Hq Hcl].
  specialize (Hc Hcl). rewrite Hc in *. destruct Ho as [-> ->]. rewrite (Hf I) in He. simpl in He. subst se.
  rewrite Hq, app_nil_r in E. by exists m.
Qed.
End goroutines.

(** ** The events *)

Definition not_done (e : Event) : Prop := ev_Type e ≠ EventDone.

Section decoder.
Variable now : Time.
Variable unmarshal_objects : string → option (list (gomap any)).
Variable unmarshal_object : string → result (gomap any).
Variable unmarshal_usage : string → option Usage.
Variable unmarshal_error : string → option EventError.
Variable json_Marshal : any → option string.

Local Abbreviation stdout_events := (stdout_events now unmarshal_objects unmarshal_object unmarshal_usage unmarshal_error json_Marshal).

Lemma emit_not_done events : Forall not_done (events ≫= emitEvent).
Proof.
  apply Forall_forall. intros e (x & He & _)%list_elem_of_bind. unfold emitEvent in He. case_decide; [by apply not_elem_of_nil in He|].
  apply list_elem_of_singleton in He as ->. done.
Qed.

Lemma emit_decoded_not_done code payload :
  Forall not_done (emit_decoded now unmarshal_objects unmarshal_object unmarshal_usage unmarshal_error json_Marshal code payload).
Proof. unfold emit_decoded. destruct (decodeFramedPayload _ _ _ _ _ _ _); [apply emit_not_done|by constructor]. Qed.

Lemma scan_failure_not_done code e : Forall not_done (RestDecode.scan_failure now code e).
Proof. by destruct e; repeat constructor. Qed.

Lemma bind_not_done {A} (f : A → list Event) l : (∀ x, Forall not_done (f x)) → Forall not_done (l ≫= f).
Proof. intros H. induction l as [|x l IH]; [constructor|]. apply Forall_app. by split. Qed.

Lemma scan_not_done name b : Forall not_done (scanTextLines now name b).
Proof.
  unfold scanTextLines. destruct (scan_lines _ _ _). apply Forall_app. split; [|apply scan_failure_not_done].
  apply bind_not_done. intros x. unfold text_line. case_decide; by repeat constructor.
Qed.

Lemma stdout_not_done a b : Forall not_done (stdout_events a b).
Proof.
  unfold CliBridge.stdout_events. repeat case_decide; [| |apply scan_not_done|by repeat constructor].
  - unfold parseJSONL. destruct (scan_lines _ _ _). apply Forall_app. split; [|apply scan_failure_not_done].
    apply bind_not_done. intros x. case_decide; [constructor|apply emit_decoded_not_done].
  - unfold parseSingleJSON. destruct (RestDecode.body_Err b); [by repeat constructor|apply emit_decoded_not_done].
Qed.

Lemma quiet_events m rest :
  Forall not_done m → AgentIOSpec.quiet_after_done rest → AgentIOSpec.quiet_after_done ((Ok <$> m) ++ rest).
Proof. intros Hm Hr. induction Hm as [|e m He _ IH]; simpl; [done|]. split; [by intros|done]. Qed.

(** C22. When the caller of a command's stream finds its end, it has received an
    interleaving of the events of the two outputs, each in its order and none of them an
    [EventDone], then the failure of the process if it failed, then one [EventDone]:
    however the process wrote into its pipes, the scanners took the bytes from them, and
    the goroutines and the caller took turns. On such a stream [CollectText] and the reader
    agree. *)
Theorem cli_stream_spec (pipe_capacity : nat) (a : Agent) (stdout stderr : RestDecode.body) (exit : option error)
    (r_out r_err : reader) (writes : list output) (got : list Event) (s : streams) :
  let last_events := exit_events now exit ++ [RestDecode.event_of now EventDone] in
  reader_for stdout (stdout_events a stdout) (reads_to_end a stdout) r_out →
  reader_for stderr (scanTextLines now "stderr" stderr) (scans_to_end stderr) r_err →
  cli_steps pipe_capacity last_events (start_streams r_out r_err writes) got s → ended s →
  (∃ m, interleaving (stdout_events a stdout) (scanTextLines now "stderr" stderr) m ∧
        Forall not_done m ∧ got = m ++ last_events) ∧
  AgentIOSpec.quiet_after_done ((Ok <$> got) ++ [Err ErrStreamClosed]).
Proof.
  intros last_events [Hout _] [Herr _] Hs He. destruct (cli_ended _ _ _ _ _ _ _ Hs He) as (m & Hm & ->).
  rewrite Hout, Herr in Hm. assert (Forall not_done m) as Hnd.
  { rewrite (interleaving_Permutation _ _ _ Hm). apply Forall_app. split; [apply stdout_not_done|apply scan_not_done]. }
  split; [by exists m|]. rewrite fmap_app, <-(assoc_L (++)). apply quiet_events; [done|].
  unfold last_events. rewrite fmap_app, <-(assoc_L (++)). apply quiet_events; [by destruct exit; repeat constructor|].
  simpl. by split.
Qed.
End decoder.

(** *** A run *)

Definition text_agent : Agent :=
  {| NameStr := ""; Command := "claude"; Args := []; Dir := ""; Env := []; StdinFormat := "TEXT"; StdoutFormat := "text";
     EncodeStdin := false |}.

Definition no_object (s : string) : result (gomap any) := Err EOF.

Definition sample_stdout : RestDecode.body := {| RestDecode.body_Data := "hi"; RestDecode.body_Err := None |}.
Definition sample_stderr : RestDecode.body := {| RestDecode.body_Data := "warn"; RestDecode.body_Err := None |}.

Definition line_event (name text : string) : Event :=
  RestDecode.set_name name (RestDecode.set_text (text +:+ String line_feed "") (RestDecode.event_of 0%Z EventTextDelta)).

Definition sample_last : list Event := exit_events 0%Z None ++ [RestDecode.event_of 0%Z EventDone].

(** Each scanner takes its line byte by byte and then sends it. *)
Definition line_reader (name text : string) : reader :=
  {| actions := replicate (String.length text) Read ++ [Send (line_event name text)]; reads_on := true |}.

Definition sample_writes : list output := replicate 4 Stderr ++ replicate 2 Stdout.

Lemma sample_readers :
  reader_for sample_stdout
    (stdout_events 0%Z (λ _, None) no_object (λ _, None) (λ _, None) (λ _, None) text_agent sample_stdout)
    (reads_to_end text_agent sample_stdout) (line_reader "stdout" "hi") ∧
  reader_for sample_stderr (scanTextLines 0%Z "stderr" sample_stderr) (scans_to_end sample_stderr)
    (line_reader "stderr" "warn").
Proof. vm_compute. split_and!; (reflexivity || lia). Qed.

Definition sample_start : streams := start_streams (line_reader "stdout" "hi") (line_reader "stderr" "warn") sample_writes.

Definition all_received : streams :=
  {| queue := []; queue_closed := true; out := OutDone; err := None;
     child := {| todo := []; stdout_pipe := 0; stderr_pipe := 0; exited := true |} |}.

(** A pipe of two bytes: the process waits for the readers. *)
Ltac write_on H := eapply cli_snoc in H; [|eapply child_writes; [reflexivity|simpl; lia]]; simpl in H.
Ltac read_on H reader step := eapply cli_snoc in H; [|eapply reader, step; (simpl; unfold capacity; lia)]; simpl in H.

Lemma sample_run :
  cli_steps 2 sample_last sample_start
    [line_event "stderr" "warn"; line_event "stdout" "hi"; RestDecode.event_of 0%Z EventDone] all_received.
Proof.
  pose proof (cli_nil 2 [RestDecode.event_of 0%Z EventDone] sample_start) as H.
  unfold sample_start, start_streams, line_reader, sample_writes in H. simpl in H.
  do 2 write_on H. do 2 read_on H err_reads read_byte.
  do 2 write_on H. do 2 read_on H err_reads read_byte.
  do 2 write_on H. do 2 read_on H out_reads read_byte.
  read_on H err_reads send_event. read_on H out_reads send_event.
  eapply cli_snoc in H; [|by apply child_exits]. eapply cli_snoc in H; [|apply cli_recv].
  eapply cli_snoc in H; [|apply out_wait, reader_over; split; [done|apply not_elem_of_nil]].
  eapply cli_snoc in H; [|apply err_reads, reader_over; split; [done|apply not_elem_of_nil]].
  eapply cli_snoc in H; [|by apply out_exit].
  eapply cli_snoc in H; [|apply out_last; unfold capacity; simpl; lia].
  eapply cli_snoc in H; [|apply out_done]. eapply cli_snoc in H; [|apply close_queue].
  do 2 (eapply cli_snoc in H; [|apply cli_recv]).
  exact H.
Qed.

Lemma cli_stream_spec_witness :
  AgentIOSpec.quiet_after_done ((Ok <$> [line_event "stderr" "warn"; line_event "stdout" "hi";
    RestDecode.event_of 0%Z EventDone]) ++ [Err ErrStreamClosed]).
Proof.
  apply (cli_stream_spec 0%Z (λ _, None) no_object (λ _, None) (λ _, None) (λ _, None) 2 text_agent
    sample_stdout sample_stderr None (line_reader "stdout" "hi") (line_reader "stderr" "warn") sample_writes
    _ all_received (proj1 sample_readers) (proj2 sample_readers)).
  - exact sample_run.
  - split; reflexivity.
Defined.

(** ** Starting *)

Definition is_start (e : event ccall) : bool := match e with Ev (Start _ _ _ _) _ => true | _ => false end.

(** The process is started at most once, last of all, and with its input ready. *)
Lemma cli_invoke_starts a req t r :
  traces (Invoke a req) t r →
  (∃ input, r = Ok input ∧ ∃ t0, count_ev is_start t0 = 0 ∧
     t = t0 ++ [Ev (Start (Command a) (Args a) (Dir a) (cmd_env a)) (Ok ())]) ∨
  (is_ok r = false ∧ count_ev is_start t ≤ 1).
Proof.
  assert (∀ req, never is_start (encode_stdin a req)) as Hnever.
  { intros q. unfold encode_stdin. case_match; [by never_go|]. repeat case_decide; by never_go. }
  unfold Invoke. intros H. destruct req as [req|]; [|trace_step H; right; split; [done|cbv; lia]].
  case_decide; [trace_step H; right; split; [done|cbv; lia]|].
  trace_step H. destruct x as [u|e]; [|trace_step H; right; split; [done|simpl; cbv; lia]].
  trace_step H. destruct x as [u2|e]; [|trace_step H; right; split; [done|simpl; cbv; lia]].
  trace_step H. destruct x as [u3|e]; [|trace_step H; right; split; [done|simpl; cbv; lia]].
  trace_step H. pose proof (never_count _ _ _ _ (Hnever req) Hsub) as Hc.
  destruct a0 as [input|e]; [|trace_step H; right; split; [done|rewrite !count_ev_cons, count_ev_app, Hc; cbv; lia]].
  trace_step H. trace_step H. destruct x as [[]|e].
  - left. exists input. split; [done|]. 
    match type of Hc with count_ev _ ?t' = 0 => eexists (_ :: _ :: _ :: t') end.
    split; [|done]. by rewrite !count_ev_cons, Hc.
  - right. split; [done|]. rewrite !count_ev_cons, count_ev_app, Hc. cbv. lia.
Qed.
End CliSpec.
