(* ===== verification/CliProgress.v ===== *)
(** * When the stream of a command comes to its end

    [CliSpec] says what the caller of a command has received when it finds the end of the
    stream. Here: it does find it, if it goes on receiving and what the readers of the
    outputs leave unread fits into the pipes (nothing is left unread unless a line is too
    long for the scanner, a read fails or the format is unknown); otherwise the process
    waits for good and the end never comes. A caller that stops leaves goroutines that
    come to their ends exactly when all that is left fits into the channel
    ([cli_stream_ends]). The outputs are what the process comes to write, also when
    closing the stream kills it. A receive whose context has ended returns its error and
    takes nothing; it is not a step. *)

From S2P Require Import Prelude GoString GoError GoValue WorkspaceTypes AgentIO RestDecode CliBridge CliSpec.
From stdpp Require Import options.
Set Default Proof Using "Type*".

Module CliProgress.
Import AgentIO CliBridge CliSpec.

#[local] Arguments count_if : simpl never.

Lemma takes_read acts on : takes {| actions := Read :: acts; reads_on := on |} = S (takes {| actions := acts; reads_on := on |}).
Proof. apply count_if_cons. Qed.
Lemma takes_send e acts on : takes {| actions := Send e :: acts; reads_on := on |} = takes {| actions := acts; reads_on := on |}.
Proof. exact (count_if_cons is_read (Send e) acts). Qed.
Lemma sends_read acts on : sends {| actions := Read :: acts; reads_on := on |} = sends {| actions := acts; reads_on := on |}.
Proof. done. Qed.
Lemma sends_send e acts on : sends {| actions := Send e :: acts; reads_on := on |} = e :: sends {| actions := acts; reads_on := on |}.
Proof. done. Qed.

Lemma takes_nil on : takes {| actions := []; reads_on := on |} = 0.
Proof. done. Qed.
Lemma sends_nil on : sends {| actions := []; reads_on := on |} = [].
Proof. done. Qed.

#[local] Opaque takes sends.

(** How many bytes of an output are still to be written. *)
Definition bytes (o : output) (l : list output) : nat := count_if (λ o', bool_decide (o' = o)) l.

Definition sends_left (r : option reader) : nat := match r with Some r => length (sends r) | None => 0 end.
Definition takes_left (r : option reader) : nat := match r with Some r => takes r | None => 0 end.

(** The reader of an output, while it is not over. *)
Definition reader_at (o : output) (s : streams) : option reader :=
  match o with Stdout => match out s with OutSending r => Some r | _ => None end | Stderr => err s end.

Section goroutines.
Variable pipe_capacity : nat.
Variable r_out r_err : reader.
Variable writes : list output.
Variable last_events : list Event.

Local Abbreviation start := (start_streams r_out r_err writes).
Local Abbreviation steps := (cli_steps pipe_capacity last_events).

(** The events still to be sent. *)
Definition left_to_send (s : streams) : nat :=
  sends_left (reader_at Stdout s) + sends_left (reader_at Stderr s) +
  match out s with OutSending _ | OutWaiting => length last_events | OutLast events => length events | OutDone => 0 end.

(** The steps that send nothing and are still to come. *)
Definition turns_left (s : streams) : nat :=
  match out s with OutSending _ => 3 | OutWaiting => 2 | OutLast _ => 1 | OutDone => 0 end +
  match err s with Some _ => 1 | None => 0 end + (if queue_closed s then 0 else 1) +
  takes_left (reader_at Stdout s) + takes_left (reader_at Stderr s) +
  length (todo (child s)) + length (todo (child s)) + (if exited (child s) then 0 else 1).

(** A step without the caller. *)
Definition silent (s s' : streams) : Prop := cli_step pipe_capacity last_events s None s'.

Lemma reader_counts o q p r q' p' r' : reader_step o q p r q' p' r' →
  length q' + sends_left r' = length q + length (sends r) ∧
  takes_left r' ≤ takes r ∧ todo p' = todo p ∧ exited p' = exited p ∧
  (length q ≤ capacity → length q' ≤ capacity) ∧
  (takes_left r' + sends_left r' + (match r' with Some _ => 1 | None => 0 end) ≤ takes r + length (sends r)) ∧
  pipe o p' + takes r = pipe o p + takes_left r' ∧ (∀ o', o' ≠ o → pipe o' p' = pipe o' p) ∧
  (∀ r1, r' = Some r1 → reads_on r1 = reads_on r) ∧
  (r' = None → takes r = 0).
Proof.
  intros [q0 p0 acts on Hp|q0 p0 e acts on Hq|q0 p0 on Hon]; simpl;
    rewrite ?takes_read, ?takes_send, ?sends_read, ?sends_send, ?takes_nil, ?sends_nil, ?length_app; simpl.
  - split_and!; try lia; try done; [destruct o; simpl in *; lia|by destruct o, o'|by intros r1 [= <-]].
  - split_and!; try lia; try done. by intros r1 [= <-].
  - split_and!; try lia; done.
Qed.

Lemma step_counts s o s' : cli_step pipe_capacity last_events s o s' →
  match o with
  | None => length (queue s') + left_to_send s' = length (queue s) + left_to_send s ∧
            turns_left s' + left_to_send s' < turns_left s + left_to_send s ∧ turns_left s' ≤ turns_left s ∧
            (length (queue s) ≤ capacity → length (queue s') ≤ capacity)
  | Some _ => length (queue s) = S (length (queue s')) ∧ turns_left s' = turns_left s ∧ left_to_send s' = left_to_send s
  end.
Proof.
  unfold left_to_send, turns_left. intros Hs.
  destruct Hs as [q c r er p q' p' r' Hr|q c r er p q' p' Hr| | | |q c o r p q' p' r' Hr|q p|q c o er p dst rest Htd Hp|q c o er p Htd He|].
  all: simpl in *; try (apply reader_counts in Hr as (H1 & H2 & E1 & E2 & Hc & H3 & _); simpl in *; rewrite E1, E2);
    rewrite ?length_app, ?Htd; simpl; try lia.
  all: try rewrite He; try destruct r'; try destruct c; simpl in *; try lia.
Qed.

(** ** The bytes *)

Definition reader_of (o : output) : reader := match o with Stdout => r_out | Stderr => r_err end.

Record bytes_inv (s : streams) : Prop := {
  bi_pipe o : pipe o (child s) ≤ pipe_capacity;
  bi_bytes o : pipe o (child s) + bytes o (todo (child s)) + takes (reader_of o) =
               bytes o writes + takes_left (reader_at o s);
  bi_exited : exited (child s) = true → todo (child s) = [];
  bi_on o r : reader_at o s = Some r → reads_on r = reads_on (reader_of o);
  bi_waited : finishing (out s) → exited (child s) = true;
}.

Lemma bytes_inv_start : bytes_inv start.
Proof. split; simpl; try done; intros []; simpl; try lia; intros r; by intros [= <-]. Qed.

Lemma bytes_cons o dst l : bytes o (dst :: l) = (if decide (dst = o) then 1 else 0) + bytes o l.
Proof. unfold bytes. rewrite count_if_cons. by case_decide as E; [rewrite bool_decide_true|rewrite bool_decide_false]. Qed.

(** A step of one of the readers. *)
Lemma bytes_inv_reader o s s' r q' p' r' :
  bytes_inv s → reader_step o (queue s) (child s) r q' p' r' → reader_at o s = Some r →
  reader_at o s' = r' → (∀ o', o' ≠ o → reader_at o' s' = reader_at o' s) → child s' = p' →
  (finishing (out s') → finishing (out s)) → bytes_inv s'.
Proof.
  intros [Hp Hb He Hon Hw] Hr Hat Hat' Hrest Hc Hfin.
  apply reader_counts in Hr as (_ & H2 & E1 & E2 & _ & _ & Hbytes & Hother & Hkeep & _).
  assert (pipe o p' ≤ pipe o (child s)) as Hle by lia.
  split; rewrite ?Hc.
  - intros o'. destruct (decide (o' = o)) as [->|Hne]; [specialize (Hp o); lia|by rewrite Hother].
  - intros o'. rewrite E1. destruct (decide (o' = o)) as [->|Hne].
    + rewrite Hat'. specialize (Hb o). rewrite Hat in Hb. simpl in Hb. lia.
    + rewrite Hother, Hrest by done. apply Hb.
  - rewrite E1, E2. done.
  - intros o' r0. destruct (decide (o' = o)) as [->|Hne]; [|rewrite Hrest by done; apply Hon].
    rewrite Hat'. intros H0. rewrite (Hkeep r0 H0). by apply Hon.
  - rewrite E2. auto.
Qed.

Lemma bytes_inv_step s o s' : bytes_inv s → cli_step pipe_capacity last_events s o s' → bytes_inv s'.
Proof.
  intros Hi Hs. destruct Hs as [q c r er p q' p' r' Hr|q c r er p q' p' Hr|q c p Hex| | |q c o r p q' p' r' Hr|q p|q c o er p dst rest Htd Hp|q c o er p Htd He|].
  - eapply (bytes_inv_reader Stdout); [exact Hi|exact Hr|done..|by intros []|done|done].
  - eapply (bytes_inv_reader Stdout); [exact Hi|exact Hr|done..|by intros []|done|done].
  - destruct Hi as [Hp Hb He Hon Hw]. by split.
  - destruct Hi as [Hp Hb He Hon Hw]. by split.
  - destruct Hi as [Hp Hb He Hon Hw]. by split.
  - eapply (bytes_inv_reader Stderr); [exact Hi|exact Hr|done..|by intros []|done|done].
  - destruct Hi as [Hp Hb He Hon Hw]. by split.
  - destruct Hi as [Hpi Hb He Hon Hw]. split; cbn [child todo exited] in *; [| | | done | done].
    + intros o'. specialize (Hpi o'). destruct dst, o'; simpl in *; lia.
    + intros o'. specialize (Hb o'). rewrite Htd, bytes_cons in Hb. destruct dst, o'; simpl in *; lia.
    + intros E. apply He in E. simpl in E. congruence.
  - destruct Hi as [Hpi Hb Hex Hon Hw]. by split.
  - destruct Hi as [Hp Hb He Hon Hw]. by split.
Qed.

Lemma bytes_inv_steps got s : steps start got s → bytes_inv s.
Proof.
  intros H. remember start as s0 eqn:E. induction H as [s|s got s1 o s2 _ IH Hs]; [subst; apply bytes_inv_start|].
  eapply bytes_inv_step, Hs. by apply IH.
Qed.

(** ** Who can go on *)

(** What the readers leave unread fits into the pipes. *)
Definition fits : Prop := ∀ o, bytes o writes ≤ takes (reader_of o) + pipe_capacity.

(** A reader takes no more than is written, and all of it when it reads to the end. *)
Definition well_read : Prop := ∀ o,
  takes (reader_of o) ≤ bytes o writes ∧ (reads_on (reader_of o) = true → takes (reader_of o) = bytes o writes).

(** The channel can take what is to be sent next. *)
Definition room (s : streams) : Prop := length (queue s) < capacity ∨ left_to_send s = 0.

Lemma reader_silent o s r q' p' r' :
  reader_at o s = Some r → reader_step o (queue s) (child s) r q' p' r' → ∃ s', silent s s'.
Proof.
  destruct s as [q c ou er p]. destruct o; simpl.
  - destruct ou; [|done..]. intros [= ->] Hs. destruct r'; eexists; [by eapply out_reads|by eapply out_wait].
  - intros ->. eexists. by eapply err_reads.
Qed.

Lemma room_sends o s r e acts :
  room s → reader_at o s = Some r → actions r = Send e :: acts → length (queue s) < capacity.
Proof.
  intros [?|H] Hat E; [done|]. unfold left_to_send in H. destruct r as [a on]. simpl in E. subst a.
  destruct o; rewrite Hat in H; simpl in H; rewrite sends_send in H; simpl in H; lia.
Qed.

(** A reader that is not over and has something to take. *)
Lemma reader_progress o s r :
  room s → reader_at o s = Some r → actions r ≠ [] → (0 < takes r → 0 < pipe o (child s)) → ∃ s', silent s s'.
Proof.
  intros Hroom Hat Hne Hp. destruct r as [[|[|e] acts] on]; [done| |].
  - rewrite takes_read in Hp. eapply reader_silent; [done|]. apply read_byte. apply Hp. lia.
  - eapply reader_silent; [done|]. apply send_event. by eapply room_sends.
Qed.

Lemma reader_head o r : takes r = 0 → ∀ p, 0 < takes r → 0 < pipe o p.
Proof. intros ->. lia. Qed.

(** While the process has something to write, it or the reader of a full pipe goes on. *)
Lemma child_progress s :
  0 < pipe_capacity → fits → bytes_inv s → room s → todo (child s) ≠ [] → ∃ s', silent s s'.
Proof.
  intros Hcap Hfits Hi Hroom Hne. destruct (todo (child s)) as [|dst rest] eqn:Htd; [done|].
  destruct (decide (pipe dst (child s) < pipe_capacity)) as [Hlt|Hge].
  { destruct s as [q c o er p]. eexists. by eapply child_writes. }
  pose proof (bi_bytes s Hi dst) as Hb. rewrite Htd, bytes_cons, decide_True in Hb by done. specialize (Hfits dst).
  destruct (reader_at dst s) as [r|] eqn:Hat; simpl in Hb; [|lia].
  eapply reader_progress; [done|exact Hat| |intros _; lia].
  destruct r as [[|x acts] on]; [rewrite takes_nil in Hb; lia|done].
Qed.

(** Once it is gone, the readers come to their ends. *)
Lemma reader_ends o s r :
  well_read → bytes_inv s → room s → todo (child s) = [] → reader_at o s = Some r → ∃ s', silent s s'.
Proof.
  intros Hread Hi Hroom Htd Hat. pose proof (bi_bytes s Hi o) as Hb. rewrite Hat, Htd in Hb.
  change (bytes o []) with 0 in Hb. simpl in Hb. destruct (Hread o) as [Hle Hall].
  destruct r as [[|x acts] on] eqn:Hr.
  - eapply reader_silent; [done|]. apply reader_over. intros ->. rewrite Htd. split; [|apply not_elem_of_nil].
    rewrite takes_nil in Hb. pose proof (bi_on s Hi o _ Hat) as Hon. simpl in Hon. rewrite Hall in Hb by done. lia.
  - eapply reader_progress; [done|exact Hat|done|]. intros Hpos. lia.
Qed.

Lemma silent_progress got s :
  0 < pipe_capacity → fits → well_read → cli_inv r_out r_err last_events got s → bytes_inv s →
  queue_closed s = false → room s → ∃ s', silent s s'.
Proof.
  intros Hcap Hfits Hread [_ Hf _] Hi Hc Hroom.
  destruct (todo (child s)) as [|dst rest] eqn:Htd; [|by apply child_progress; rewrite ?Htd].
  destruct (exited (child s)) eqn:Hex.
  2: { destruct s as [q c o er p]. eexists. by eapply child_exits. }
  destruct (reader_at Stdout s) as [r|] eqn:H1; [by eapply (reader_ends Stdout)|].
  destruct (reader_at Stderr s) as [r|] eqn:H2; [by eapply (reader_ends Stderr)|].
  unfold room, left_to_send in Hroom. rewrite H1, H2 in Hroom.
  destruct s as [q c o er p]. simpl in *. subst c er. destruct o as [r| |[|e events]|]; [done|..].
  - eexists. by apply out_exit.
  - eexists. apply out_done.
  - eexists. apply out_last. destruct Hroom; [done|simpl in *; lia].
  - eexists. apply close_queue.
Qed.

(** *** A pipe that is never emptied *)

(** Otherwise the process never gets to write all it has. *)
Lemma blocked s o :
  bytes_inv s → takes (reader_of o) + pipe_capacity < bytes o writes → exited (child s) = false.
Proof.
  intros Hi Hlt. destruct (exited (child s)) eqn:E; [|done]. apply (bi_exited s Hi) in E.
  pose proof (bi_bytes s Hi o) as Hb. pose proof (bi_pipe s Hi o) as Hp. rewrite E in Hb.
  change (bytes o []) with 0 in Hb. lia.
Qed.

(** ** The channel *)

Lemma queue_room got s : steps start got s → length (queue s) ≤ capacity.
Proof.
  intros H. remember start as s0 eqn:E. induction H as [s|s got s1 o s2 _ IH Hs]; [subst; simpl; lia|].
  specialize (IH E). apply step_counts in Hs. destruct o; [lia|]. destruct Hs as (_ & _ & _ & Hs). auto.
Qed.

Lemma silent_inv got s s' :
  cli_inv r_out r_err last_events got s ∧ bytes_inv s → silent s s' → cli_inv r_out r_err last_events got s' ∧ bytes_inv s'.
Proof.
  intros [Hi Hb] Hs. split; [|by eapply bytes_inv_step].
  apply (cli_inv_step _ _ _ _ _ _ _ _ Hi) in Hs. by rewrite app_nil_r in Hs.
Qed.

Lemma closed_left got s : cli_inv r_out r_err last_events got s → queue_closed s = true → left_to_send s = 0.
Proof.
  intros [_ Hf Hc] H. specialize (Hc H). unfold left_to_send. simpl. rewrite Hc in *. by rewrite (Hf I).
Qed.

Lemma silent_close got s :
  0 < pipe_capacity → fits → well_read → cli_inv r_out r_err last_events got s ∧ bytes_inv s →
  length (queue s) + left_to_send s ≤ capacity → ∃ s', rtc silent s s' ∧ queue_closed s' = true.
Proof.
  intros Hcap Hfits Hread.
  remember (turns_left s + left_to_send s) as n eqn:Hn. revert s Hn. induction (lt_wf n) as [n _ IH]. intros s -> Hi Hroom.
  destruct (queue_closed s) eqn:Hc; [by exists s|].
  destruct (silent_progress got s) as [s1 Hs]; try done; [apply Hi..|unfold room; lia|].
  pose proof (step_counts _ _ _ Hs) as (Hq & Hl & _).
  destruct (IH _ Hl s1 eq_refl) as (s' & Hr & Hc'); [by eapply silent_inv|lia|]. exists s'. split; [by eapply rtc_l|done].
Qed.

Lemma silent_fits got s s' :
  cli_inv r_out r_err last_events got s ∧ bytes_inv s → length (queue s) ≤ capacity → rtc silent s s' →
  queue_closed s' = true → length (queue s) + left_to_send s ≤ capacity.
Proof.
  intros Hi Hq H. induction H as [s|s s1 s' Hs _ IH]; intros Hc; [rewrite (closed_left got); [lia|apply Hi|done]|].
  pose proof (step_counts _ _ _ Hs) as (E & _ & _ & Hq1). rewrite <-E. apply IH; [by eapply silent_inv|by apply Hq1|done].
Qed.
End goroutines.

(** The readers of the two outputs of an agent, and a process that writes those outputs. *)
Record serves (a : Agent) (stdout stderr : RestDecode.body) (events_out events_err : list Event)
    (r_out r_err : reader) (writes : list output) : Prop := {
  sv_out : reader_for stdout events_out (reads_to_end a stdout) r_out;
  sv_err : reader_for stderr events_err (scans_to_end stderr) r_err;
  sv_stdout : bytes Stdout writes = String.length (RestDecode.body_Data stdout);
  sv_stderr : bytes Stderr writes = String.length (RestDecode.body_Data stderr);
}.

Lemma serves_well_read a stdout stderr events_out events_err r_out r_err writes :
  serves a stdout stderr events_out events_err r_out r_err writes → well_read r_out r_err writes.
Proof.
  intros [(_ & Hon1 & Hle1 & Hall1) (_ & Hon2 & Hle2 & Hall2) H1 H2] []; simpl; (split; [lia|]);
    rewrite ?Hon1, ?Hon2, ?H1, ?H2; auto.
Qed.

(** C23. However the process, the goroutines of a command and the caller take turns. Every
    step uses up one of the turns, bytes and events that are left. If the bytes that the
    readers leave unread fit into the pipes ([fits]), then as long as the stream has not
    ended for the caller there is an event for it to receive or a step of the others to wait
    for, so a caller that goes on finds the end; and when the caller stops, the channel is
    closed in the end exactly if all that is left to send fits into it; otherwise the
    goroutines wait for good. They fit when both outputs are read to their ends: the format
    is a known one, no line reaches the scanner's limit of 4 MiB and no read fails. If they
    do not fit, the process stays blocked in a write, [cmd.Wait] does not return and the
    channel is never closed, unless the process is killed. *)
Theorem cli_stream_ends (pipe_capacity : nat) (a : Agent) (stdout stderr : RestDecode.body)
    (events_out events_err last_events got : list Event) (r_out r_err : reader) (writes : list output) (s : streams) :
  0 < pipe_capacity → serves a stdout stderr events_out events_err r_out r_err writes →
  cli_steps pipe_capacity last_events (start_streams r_out r_err writes) got s →
  (∀ o s', cli_step pipe_capacity last_events s o s' →
     turns_left s' + 2 * left_to_send last_events s' + length (queue s') <
     turns_left s + 2 * left_to_send last_events s + length (queue s)) ∧
  (fits pipe_capacity r_out r_err writes →
     (¬ ended s → ∃ o s', cli_step pipe_capacity last_events s o s') ∧
     (queue_closed s = false →
        (∃ s', rtc (silent pipe_capacity last_events) s s' ∧ queue_closed s' = true) ↔
        length (queue s) + left_to_send last_events s ≤ capacity)) ∧
  (reads_to_end a stdout = true → scans_to_end stderr = true → fits pipe_capacity r_out r_err writes) ∧
  (∀ o, takes (reader_of r_out r_err o) + pipe_capacity < bytes o writes →
     exited (child s) = false ∧ queue_closed s = false).
Proof.
  intros Hcap Hsv Hr. pose proof (serves_well_read _ _ _ _ _ _ _ _ Hsv) as Hread.
  pose proof (cli_inv_steps _ _ _ _ _ _ _ Hr) as Hi. pose proof (bytes_inv_steps _ _ _ _ _ _ _ Hr) as Hb.
  pose proof (queue_room _ _ _ _ _ _ _ Hr) as Hq. split_and!.
  - intros o s' Hs. apply step_counts in Hs. destruct o; lia.
  - intros Hfits. split.
    + intros He. destruct (queue s) as [|e q] eqn:E.
      * destruct (queue_closed s) eqn:Hc; [by destruct He|].
        destruct (silent_progress _ _ _ _ _ _ _ Hcap Hfits Hread Hi Hb Hc) as [s' Hs]; [|by exists None, s'].
        left. rewrite E. unfold capacity. simpl. lia.
      * destruct s as [? c o er p]. simpl in E. subst. eexists _, _. apply cli_recv.
    + intros Hc. split; [intros (s' & Hs & Hc'); by eapply silent_fits|by eapply silent_close].
  - intros H1 H2 o. destruct Hsv as [(_ & _ & _ & Hall1) (_ & _ & _ & Hall2) E1 E2].
    destruct o; simpl; rewrite ?E1, ?E2, ?Hall1, ?Hall2 by done; lia.
  - intros o Hlt. pose proof (blocked _ _ _ _ _ _ Hb Hlt) as Hex. split; [done|].
    destruct (queue_closed s) eqn:Hc; [|done]. apply (cli_closed _ _ _ _ _ Hi) in Hc.
    rewrite (bi_waited _ _ _ _ _ Hb) in Hex; [done|]. by rewrite Hc.
Qed.

(** The sample command, whose outputs are read to their ends; and the same process under an
    agent with a format that is not known: its two bytes do not fit into a pipe of one. *)
Definition deaf_agent : Agent :=
  {| NameStr := ""; Command := "claude"; Args := []; Dir := ""; Env := []; StdinFormat := "text"; StdoutFormat := "yaml";
     EncodeStdin := false |}.

Definition deaf_reader : reader := {| actions := []; reads_on := false |}.

Lemma cli_stream_ends_witness :
  (∃ s', rtc (silent 2 sample_last) sample_start s' ∧ queue_closed s' = true) ∧
  (∀ got s, cli_steps 1 sample_last (start_streams deaf_reader (line_reader "stderr" "warn") sample_writes) got s →
     queue_closed s = false).
Proof.
  split.
  - assert (serves text_agent sample_stdout sample_stderr [line_event "stdout" "hi"] [line_event "stderr" "warn"]
      (line_reader "stdout" "hi") (line_reader "stderr" "warn") sample_writes) as Hsv.
    { split; [vm_compute; split_and!; (reflexivity || lia)..|reflexivity|reflexivity]. }
    destruct (cli_stream_ends 2 text_agent sample_stdout sample_stderr _ _ sample_last [] _ _ sample_writes _
                ltac:(lia) Hsv (cli_nil _ _ _)) as (_ & Hends & Hfits & _).
    apply (proj2 (Hends (Hfits eq_refl eq_refl)) eq_refl). apply Nat.leb_le. vm_compute. reflexivity.
  - assert (serves deaf_agent sample_stdout sample_stderr [] [line_event "stderr" "warn"]
      deaf_reader (line_reader "stderr" "warn") sample_writes) as Hsv.
    { split; [vm_compute; split_and!; (reflexivity || lia)..|reflexivity|reflexivity]. }
    intros got s Hs.
    destruct (cli_stream_ends 1 deaf_agent sample_stdout sample_stderr _ _ sample_last got _ _ sample_writes s
                ltac:(lia) Hsv Hs) as (_ & _ & _ & Hblocked).
    apply (Hblocked Stdout). apply Nat.ltb_lt. vm_compute. reflexivity.
Defined.
End CliProgress.
